(* ===== verification/_CoqProject ===== *)
-Q . S2P
Prelude.v
Mach.v
Fips180.v
Sha256.v
Sha256Fips.v
ProcTable.v
ProcLife.v
ProcSignal.v
ProcSession.v
ProcFs.v
ProcSystem.v
CapTypes.v
CapTable.v
CapManifest.v
CapServer.v
CapTree.v
CapRevoke.v
CapSystem.v
CapRuns.v
CapKernel.v
CapAgree.v
Tso.v
FlipcRing.v
FlipcConsumer.v
FlipcSpsc.v
FlipcRuns.v
FlipcMpsc.v
FlipcMpscRuns.v
FlipcPoll.v
FlipcGroup.v
FlipcChannel.v
Pthread.v
PthreadMutex.v
PthreadGuard.v
PthreadRwlock.v
PthreadBarrier.v
PthreadRuns.v
PthreadThread.v
PthreadJoin.v
PthreadOnce.v
PthreadThreadRuns.v
PageCache.v
PageCacheLists.v
PageCacheInv.v
PageCacheOps.v
PageCacheSync.v
PageCacheSpec.v
PageCacheRuns.v
