(* ===== verification/Prelude.v ===== *)
(** * Uros: verification of its servers, capabilities, channels and locks

    Uros is an operating system on the OSF Mach 3 microkernel: the kernel gives
    tasks, threads, ports and memory objects, and everything else is a server that
    receives messages.  This development models parts of it in which a mistake is
    hard to see by testing, and proves what they promise.

    ** The parts and where they are

    - proc_server (src/uros/src/proc_server/proc_main.c) keeps the POSIX process
      model: pids, parents and exit codes, signals, sessions and groups, controlling
      terminals, shutdown, and the file system /proc.  [ProcTable] has its table,
      [ProcLife], [ProcSignal], [ProcSession] and [ProcFs] the handlers, one
      definition per routine with the name of the C function, and [ProcSystem] the
      message loop.
    - Capabilities are signed tokens.  cap_server (src/uros/src/cap_server) issues,
      derives and revokes them: [CapTypes] has the token with its bytes, signature
      and name hash, [CapTable] the table (cap_table.c), [CapManifest] the compiled
      policy (cap_manifest_table.c, and the writer of tools/mkmanifest), [CapServer]
      the handlers (cap_server.c), [CapTree] and [CapRevoke] the tree of derived
      tokens and the effect of a revocation, [CapSystem] the server as a whole.
      The kernel checks and counts tokens itself ([CapKernel], kern/cap.c), and
      [CapAgree] compares the two.  [Sha256] has the hash and the keyed hash that
      both use (kern/sha256.c, kern/hmac_sha256.c), [Fips180] the standards, and
      [Sha256Fips] the proof that the code computes them.
    - FLIPC channels (include/flipc2.h, lib/libflipc2) are rings of descriptors in
      memory shared by two tasks: [FlipcRing] has the inline operations,
      [FlipcConsumer] the consumer, verified against an interface of rules that
      [FlipcSpsc] provides for one producer and [FlipcMpsc] for several, [FlipcRuns]
      and [FlipcMpscRuns] concrete runs, [FlipcPoll] waiting on several channels,
      [FlipcGroup] the pools of buffers, [FlipcChannel] the set-up, attachment and
      sharing of a channel.
    - libpthreads (lib/libpthreads) gives the threads of a task their locks:
      [Pthread] has the operations, [PthreadMutex] the proofs for mutexes,
      [PthreadGuard] the rules for words guarded by a spin lock, [PthreadRwlock] and
      [PthreadBarrier] the proofs for read-write locks and barriers, and [PthreadRuns]
      concrete runs.  [PthreadThread] has the end of threads, the pool, cancellation and
      one-time initialisation; [PthreadJoin] and [PthreadOnce] the proofs, and
      [PthreadThreadRuns] runs.
    - The kernel's futex (urmach_futex in kern/sync_sema.c), on which FLIPC and
      libpthreads sleep, is part of the machine in [Tso].
    - The page cache (file_systems/page_cache.c) stands between the ext2 file system
      and the disk.  [PageCache] has its entries, linked lists and operations, with
      the write-back of ext_server.c and the read path of ext2fs.c; [PageCacheLists]
      the linked lists as lists of indices, [PageCacheInv] the invariant of the
      structure, [PageCacheOps] the effect of each operation, [PageCacheSync] the
      synchronisation, [PageCacheSpec] the theorems, [PageCacheRuns] concrete runs.

    ** How code is translated

    A C integer of w bits is a [Z] with the reduction written out where an operation
    can leave the range ([Prelude]); structures are records, tables lists indexed by
    slot, with the outcome of a search as an option.  A server has one thread, so a
    handler runs to completion: it is a function in the monad of [Mach], which passes
    the state and appends each Mach or libc call to a log.  What a call answers is
    given by an oracle, and theorems hold for every oracle.  Code that several
    threads run at once is a program of the machine in [Tso]: x86-TSO with a store
    buffer per thread, plain and locked accesses, fences and futexes; the theorems
    hold for every interleaving and every delay of a store.  Both kinds of model are
    executable, and the witnesses of the theorems are evaluated runs of them.

    ** What is shown

    - proc_server: the table is well formed in every reachable state, an exit is
      reported to exactly one waiter and a zombie reaped once, in whichever order a
      parent asks and a child dies; kill and killpg do what their signal means;
      groups stay within their session; a shutdown tells every process first.
    - Capabilities: cap_server implements the abstract meaning of a token (issued,
      not revoked, as signed); derivation only takes rights away; a revocation reaches
      the subtree of a token and is final, in the server and in the kernel; a use
      count is never exceeded, whatever the interleaving of traps; a manifest that was
      accepted is never read outside its bytes, and what mkmanifest writes is accepted.
      The hash and the keyed hash compute their standards, which [Fips180] writes down
      independently of the code, down to the constants.
    - FLIPC: what is received is what was sent, in order, without loss, across the
      wrap of the counters, from one producer or from several; a sleeping consumer is
      woken; a buffer is never given to two owners; a created channel is accepted by
      the peer, and each side writes only where its role may.
    - libpthreads: mutexes exclude and what is written under one is seen by the next
      owner, and no thread stays asleep on a mutex that nobody will hand over; a writer
      is alone in a read-write lock, and without deadlines for writing no thread
      stays asleep at one; as many threads as a barrier is for leave each round only
      when all have come, none is left behind, and one is told to be the serial one;
      a join returns the value of the exit, no joiner stays asleep, and a thread is let go just if it was joined;
      an initialisation runs once and is seen by all.
    - The page cache: its lists, hash table and count are right after any interleaving
      of its operations; in front of a disk that works it cannot be told from the
      disk; a synchronisation ends, and returns the number of blocks still dirty; the
      block that leaves a full cache is the one used least recently.
    - Flaws: a theorem with a concrete run or input for each of them, among them lost
      wake-ups of a producer and in polling, revocations that do not reach all
      children or the kernel, data lost by the hash on some splits of its input,
      static initialisation of a mutex by two threads at once,
      readers stranded by a writer that gives up, a thread left behind at a barrier,
      a thread that can no longer be detached,
      updates lost between the write and the bookkeeping of a synchronisation.

    ** Bounds and assumptions

    - Pids are assigned by a 32-bit counter that the code never checks; the theorems
      about all runs of proc_server assume fewer than 2^32 - 3 messages, so that it does
      not wrap, and those about ids of tokens that fewer than 2^64 - 2 were given out.
    - [authentic] (in [CapSystem]): clients cannot compute a signature, so that a
      token with a correct HMAC is one that the server signed.  No property of the
      hash other than this is assumed, and its code is proved against the standard.
    - Walks along chains and trees have fuel, and it is proved to be enough: the
      number of entries for a chain, [revoke_walks_end] for the revocation.
    - Loops that wait have a bound on their rounds, a parameter of the theorems; a
      program that has used it up stands for a thread that is still trying, and the
      theorems hold for every bound.
    - Structures are laid out as on i386.  The 64-bit head of a buffer group is exchanged
      at once but loaded in two halves, in either order; its version is assumed not to
      wrap (fewer than 2^32 requests in all).  The 64-bit statistics of a ring are one
      location each, although they are accessed in halves: no operation looks at them.
    - The theorems about mutual exclusion are about mutexes that are not robust and that
      [pthread_mutex_init] has set up before the threads start; robust mutexes are
      modelled but not verified, and static initialisation is among the flaws.
    - The theorems about the page cache assume the use that ext2 makes of it: whole
      blocks of one size, which is a multiple of the sector and of the device's
      record, and blocks below 4 GiB, where the 32-bit record numbers reach them.  A
      write that the device reports as done has been done.  The loop of the
      synchronisation has fuel, one round more than there are entries, and this is
      proved to be enough.
    - A futex that wakes one thread may choose any of those that wait on the word; a trap
      may fail, time out or return without having been woken.  The kernel's table of
      waiters is not modelled, and with it that two words could fall on the same event
      and the wake-up of one be spent on a waiter of the other.

    ** Not modelled

    MIG stubs, the receive loop's message formats, and printing.  Endpoints and
    page-mapped data of FLIPC.  The line parser of mkmanifest.  The combined
    wake-and-wait of the futex and the Mach semaphores.
    Of libpthreads, condition variables, the creation of kernel threads,
    attributes, scheduling, signals and thread-specific data.
    The rest of ext2 (inodes, directories, allocation, read-ahead) and its server.
    The rest of the kernel (IPC, virtual memory, scheduler, drivers) is seen only
    through the answers of its calls; the device, other file system and display
    servers, the boot code, the shell and tests, the x-kernel, MkLinux and musl are
    separate programs, for the most part device access, assembly or third-party code,
    that the modelled parts do not call. *)

From Stdlib Require Export ZArith Lia.
From Stdlib Require Import String Ascii.
From stdpp Require Export base tactics list gmap numbers.

Global Open Scope Z_scope.

(** ** Hint databases

    [uros] collects the lemmas that close routine side conditions (ranges of
    machine words, lengths of encoded fields); [uros_simpl] the rewrite rules
    that normalise lookups in updated tables. *)
Create HintDb uros discriminated.
Create Rewrite HintDb uros_simpl.

(** ** Machine words

    A C value of an unsigned w-bit type is a [Z] in [0, 2^w); every operation
    that can leave that range is followed by the reduction the C type implies. *)
Definition u8 (x : Z) : Z := x mod 256.
Definition u16 (x : Z) : Z := x mod 65536.
Definition u32 (x : Z) : Z := x mod 4294967296.
Definition u64 (x : Z) : Z := x mod 18446744073709551616.

(** [int32_t] reinterpretation of a 32-bit pattern. *)
Definition s32 (x : Z) : Z :=
  if decide (u32 x < 2147483648) then u32 x else u32 x - 4294967296.

Declare Scope word_scope.
Delimit Scope word_scope with word.
Notation "x +32 y" := (u32 (x + y)) (at level 50, left associativity) : word_scope.
Notation "x -32 y" := (u32 (x - y)) (at level 50, left associativity) : word_scope.
Notation "x *32 y" := (u32 (x * y)) (at level 40, left associativity) : word_scope.
Notation "x +64 y" := (u64 (x + y)) (at level 50, left associativity) : word_scope.
Notation "x *64 y" := (u64 (x * y)) (at level 40, left associativity) : word_scope.
Open Scope word_scope.

Definition is_u8 (x : Z) : Prop := 0 <= x < 256.
Definition is_u32 (x : Z) : Prop := 0 <= x < 4294967296.
Definition is_u64 (x : Z) : Prop := 0 <= x < 18446744073709551616.

(** Solves linear goals about words: unfolds the reductions and hands [mod]
    by a literal to [lia] as its Euclidean equations. *)
Ltac word_lia :=
  unfold u8, u16, u32, u64, is_u8, is_u32, is_u64 in *;
  Z.to_euclidean_division_equations; lia.

Lemma u8_range x : is_u8 (u8 x).
Proof. word_lia. Qed.
Lemma u32_range x : is_u32 (u32 x).
Proof. word_lia. Qed.
Lemma u64_range x : is_u64 (u64 x).
Proof. word_lia. Qed.
#[export] Hint Resolve u8_range u32_range u64_range : uros.

Lemma u8_small x : is_u8 x → u8 x = x.
Proof. apply Z.mod_small. Qed.
Lemma u32_small x : is_u32 x → u32 x = x.
Proof. apply Z.mod_small. Qed.
Lemma u64_small x : is_u64 x → u64 x = x.
Proof. apply Z.mod_small. Qed.

Lemma u32_idemp x : u32 (u32 x) = u32 x.
Proof. apply u32_small, u32_range. Qed.
Lemma u32_add_l x y : u32 (u32 x + y) = u32 (x + y).
Proof. unfold u32. apply Zplus_mod_idemp_l. Qed.
Lemma u32_add_r x y : u32 (x + u32 y) = u32 (x + y).
Proof. unfold u32. apply Zplus_mod_idemp_r. Qed.
Lemma u32_sub_l x y : u32 (u32 x - y) = u32 (x - y).
Proof. unfold u32. apply Zminus_mod_idemp_l. Qed.
Lemma u32_sub_r x y : u32 (x - u32 y) = u32 (x - y).
Proof. unfold u32. apply Zminus_mod_idemp_r. Qed.
#[export] Hint Rewrite u32_idemp u32_add_l u32_add_r u32_sub_l u32_sub_r : uros_simpl.

Lemma s32_small x : 0 <= x < 2 ^ 31 → s32 x = x.
Proof. intros Hx. unfold s32. rewrite u32_small by (unfold is_u32; lia). by rewrite decide_True by lia. Qed.
Lemma s32_u32 d : -2147483648 <= d < 2147483648 → s32 (u32 d) = d.
Proof.
  intros Hd. unfold s32, u32. rewrite Zmod_mod.
  destruct (decide (0 <= d)); [rewrite !(Z.mod_small d) by lia; case_decide; lia|].
  replace (d mod 4294967296) with (d + 4294967296) by (apply (Z.mod_unique_pos _ _ (-1)); lia).
  case_decide; lia.
Qed.

(** ** Bit masks *)

(** [~x] on a [uint64_t]. *)
Definition not64 (x : Z) : Z := u64 (Z.lnot x).

(** The subset test of the sources, [(a & ~b) == 0]. *)
Definition mask_subset (a b : Z) : bool := Z.land a (not64 b) =? 0.

(** Membership of bit [i] in a mask, the reading the operation masks have. *)
Definition has_bit (m : Z) (i : Z) : Prop := Z.testbit m i = true.

Lemma testbit_u64 x i :
  Z.testbit (u64 x) i = if decide (0 <= i < 64) then Z.testbit x i else false.
Proof.
  unfold u64. change 18446744073709551616 with (2 ^ 64).
  case_decide as Hi.
  - apply Z.mod_pow2_bits_low. lia.
  - destruct (decide (i < 0)); [apply Z.testbit_neg_r; lia|].
    apply Z.mod_pow2_bits_high. lia.
Qed.

Lemma is_u64_bits x i : is_u64 x → has_bit x i → 0 <= i < 64.
Proof.
  intros Hx Hb. unfold has_bit in Hb. rewrite <- (u64_small x Hx), testbit_u64 in Hb.
  case_decide; [done|discriminate].
Qed.

Lemma mask_subset_spec a b :
  is_u64 a → mask_subset a b = true ↔ ∀ i, has_bit a i → has_bit b i.
Proof.
  intros Ha. unfold mask_subset, not64. rewrite Z.eqb_eq. split.
  - intros H i Hi.
    assert (Hr := is_u64_bits a i Ha Hi).
    assert (Z.testbit (Z.land a (u64 (Z.lnot b))) i = false) as H0
      by (rewrite H; apply Z.testbit_0_l).
    unfold has_bit in *.
    rewrite Z.land_spec, Hi, testbit_u64, decide_True in H0 by lia.
    rewrite Z.lnot_spec in H0 by lia. by destruct (Z.testbit b i).
  - intros H. apply Z.bits_inj'. intros i Hi.
    rewrite Z.land_spec, Z.testbit_0_l, testbit_u64.
    case_decide; [|by rewrite andb_false_r].
    rewrite Z.lnot_spec by lia.
    destruct (Z.testbit a i) eqn:Ea; [|done].
    specialize (H i Ea). unfold has_bit in H. by rewrite H.
Qed.

(** The kernel's form of the same test, [(b & a) == a]. *)
Lemma mask_subset_land a b :
  is_u64 a → mask_subset a b = (Z.land b a =? a).
Proof.
  intros Ha. apply eq_bool_prop_intro. rewrite !Is_true_true.
  rewrite mask_subset_spec, Z.eqb_eq by done. split.
  - intros H. apply Z.bits_inj'. intros i _. rewrite Z.land_spec.
    destruct (Z.testbit a i) eqn:Ea; [|by rewrite andb_false_r].
    specialize (H i Ea). unfold has_bit in H. by rewrite H.
  - intros H i Hi. unfold has_bit in *.
    rewrite <- H, Z.land_spec in Hi. by apply andb_true_iff in Hi as [? _].
Qed.

Lemma mask_subset_refl a : is_u64 a → mask_subset a a = true.
Proof. intros. by apply mask_subset_spec. Qed.

Lemma mask_subset_trans a b c :
  is_u64 a → is_u64 b →
  mask_subset a b = true → mask_subset b c = true → mask_subset a c = true.
Proof. intros Ha Hb. rewrite !mask_subset_spec by done. naive_solver. Qed.
#[export] Hint Resolve mask_subset_refl mask_subset_trans : uros.

(** ** Little-endian byte strings *)

Fixpoint le_bytes (n : nat) (x : Z) : list Z :=
  match n with
  | O => []
  | S n => u8 x :: le_bytes n (x / 256)
  end.

Fixpoint le_decode (l : list Z) : Z :=
  match l with
  | [] => 0
  | b :: l => b + 256 * le_decode l
  end.

Lemma length_le_bytes n x : length (le_bytes n x) = n.
Proof. revert x. induction n; simpl; auto. Qed.
#[export] Hint Rewrite length_le_bytes : uros_simpl.

Lemma le_bytes_u8 n x : Forall is_u8 (le_bytes n x).
Proof. revert x. induction n; simpl; eauto with uros. Qed.
#[export] Hint Resolve le_bytes_u8 : uros.

Lemma le_decode_bytes n x :
  0 <= x < 256 ^ Z.of_nat n → le_decode (le_bytes n x) = x.
Proof.
  revert x. induction n as [|n IH]; intros x Hx; cbn [le_bytes le_decode].
  - simpl in Hx. lia.
  - rewrite IH; [unfold u8; Z.to_euclidean_division_equations; lia|].
    rewrite Nat2Z.inj_succ, Z.pow_succ_r in Hx by lia.
    split; [apply Z.div_pos; lia|apply Z.div_lt_upper_bound; lia].
Qed.

Lemma le_bytes_decode l : Forall is_u8 l → le_bytes (length l) (le_decode l) = l.
Proof.
  induction 1 as [|b l Hb Hl IH]; cbn [length le_bytes le_decode]; [done|].
  f_equal.
  - unfold u8. rewrite Z.mul_comm, Z_mod_plus_full. by apply Z.mod_small.
  - rewrite Z.mul_comm, Z.div_add by lia. unfold is_u8 in Hb.
    rewrite (Z.div_small b) by lia. by rewrite Z.add_0_l.
Qed.

Lemma le_decode_range l :
  Forall is_u8 l → 0 <= le_decode l < 256 ^ Z.of_nat (length l).
Proof.
  induction 1 as [|b l Hb Hl IH]; cbn [length le_decode]; [simpl; lia|].
  rewrite Nat2Z.inj_succ, Z.pow_succ_r by lia. unfold is_u8 in Hb. lia.
Qed.

(** ** Fixed-size tables

    The servers keep arrays of slots and search them linearly for the first
    slot with some property. *)
Section tables.
Context {A : Type}.
Implicit Types (t : list A) (i j : nat).

(** [for (i = 0; i < N; i++) if (P(&t[i])) return &t[i]; return NULL;] *)
Definition find_slot (P : A → Prop) `{∀ x, Decision (P x)} t : option nat :=
  fst <$> list_find P t.

Lemma find_slot_Some P `{∀ x, Decision (P x)} t i :
  find_slot P t = Some i ↔
    ∃ x, t !! i = Some x ∧ P x ∧ ∀ j y, t !! j = Some y → (j < i)%nat → ¬ P y.
Proof.
  unfold find_slot. rewrite fmap_Some. split.
  - intros ([k x] & Hf & ->). apply list_find_Some in Hf. eauto.
  - intros (x & Hx). exists (i, x). split; [by apply list_find_Some|done].
Qed.

Lemma find_slot_None P `{∀ x, Decision (P x)} t :
  find_slot P t = None ↔ ∀ i x, t !! i = Some x → ¬ P x.
Proof.
  unfold find_slot. rewrite fmap_None, list_find_None, Forall_lookup. done.
Qed.

(** The search finds the slot when it is the only one with the property. *)
Lemma find_slot_unique P `{∀ x, Decision (P x)} t i x :
  t !! i = Some x → P x → (∀ j y, t !! j = Some y → P y → j = i) →
  find_slot P t = Some i.
Proof.
  intros Hi Hx Hu. apply find_slot_Some. exists x. split_and!; [done|done|].
  intros j y Hj Hlt Hy. specialize (Hu j y Hj Hy). lia.
Qed.

Lemma find_slot_is_Some P `{∀ x, Decision (P x)} t i x :
  t !! i = Some x → P x → is_Some (find_slot P t).
Proof.
  intros Hi Hx. destruct (find_slot P t) eqn:E; [eauto|].
  rewrite find_slot_None in E. by destruct (E i x).
Qed.

(** Writing a slot without changing its status for the search. *)
Lemma find_slot_insert_same P `{∀ x, Decision (P x)} t i x y :
  t !! i = Some x → (P y ↔ P x) → find_slot P (<[i:=y]> t) = find_slot P t.
Proof.
  intros Hi Hxy. destruct (find_slot P t) as [k|] eqn:E.
  - apply find_slot_Some in E as (z & Hk & Hz & Hmin). apply find_slot_Some.
    assert (i < length t)%nat by (eapply lookup_lt_Some; eauto).
    destruct (decide (k = i)) as [->|Hne].
    + exists y. rewrite list_lookup_insert_eq by done. split_and!; [done|simplify_eq; tauto|].
      intros j w Hj Hlt. rewrite list_lookup_insert_ne in Hj by lia. eauto.
    + exists z. rewrite list_lookup_insert_ne by done. split_and!; [done|done|].
      intros j w Hj Hlt. destruct (decide (j = i)) as [->|].
      * rewrite list_lookup_insert_eq in Hj by done. simplify_eq. rewrite Hxy. eauto.
      * rewrite list_lookup_insert_ne in Hj by done. eauto.
  - rewrite find_slot_None in *. intros j w Hj.
    destruct (decide (j = i)) as [->|].
    + rewrite list_lookup_insert_eq in Hj by (eapply lookup_lt_Some; eauto).
      simplify_eq. rewrite Hxy. eauto.
    + rewrite list_lookup_insert_ne in Hj by done. eauto.
Qed.
End tables.

Lemma length_filter_full {A} (P : A → Prop) `{∀ x, Decision (P x)} (l : list A) :
  length (filter P l) = length l ↔ Forall P l.
Proof.
  induction l as [|x l IH]; [done|]. rewrite filter_cons, Forall_cons_iff.
  pose proof (length_filter P l). case_decide; simpl.
  - rewrite <- IH. split; [intros; split; [done|lia]|intros [_ ?]; lia].
  - split; [lia|by intros [? _]].
Qed.

Lemma filter_none {A} (P : A → Prop) `{∀ x, Decision (P x)} (l : list A) :
  (∀ i x, l !! i = Some x → ¬ P x) → filter P l = [].
Proof.
  induction l as [|x l IH]; intros Hno; [done|].
  rewrite filter_cons_False by (by apply (Hno 0%nat)). apply IH. intros i y. apply (Hno (S i)).
Qed.

(** A filter that only the written slot passes. *)
Lemma filter_insert_sole {A} (P : A → Prop) `{∀ x, Decision (P x)} (l : list A) i y :
  (∀ j x, l !! j = Some x → j ≠ i → ¬ P x) → (i < length l)%nat → P y →
  filter P (<[i := y]> l) = [y].
Proof.
  revert i. induction l as [|x l IH]; intros [|i] Hno Hi Hy; simpl in *; try lia.
  - rewrite filter_cons_True by done. f_equal. apply filter_none.
    intros j z Hj. by apply (Hno (S j)).
  - rewrite filter_cons_False by (by apply (Hno 0%nat)).
    apply IH; [|lia|done]. intros j z Hj Hne. apply (Hno (S j)); [done|lia].
Qed.

(** Reading a table after a write. *)
Lemma insert_lookup_inv {A} (t : list A) i j x y :
  <[i:=x]> t !! j = Some y →
  (i = j ∧ x = y ∧ (i < length t)%nat) ∨ (i ≠ j ∧ t !! j = Some y).
Proof.
  intros H. destruct (decide (i = j)) as [->|].
  - left. assert (j < length t)%nat as Hl.
    { apply lookup_lt_Some in H. by rewrite length_insert in H. }
    rewrite list_lookup_insert_eq in H by done. simplify_eq. done.
  - right. rewrite list_lookup_insert_ne in H by done. done.
Qed.

(** ** C strings *)

(** The bytes before the terminating NUL. *)
Fixpoint cstr (l : list Z) : list Z :=
  match l with
  | [] => []
  | b :: l => if decide (b = 0) then [] else b :: cstr l
  end.

(** [strncpy(dst, src, n - 1); dst[n - 1] = 0], as the string it leaves. *)
Definition strncpy_term (n : nat) (src : list Z) : list Z := take (n - 1) (cstr src).

(** The bytes of a string literal. *)
Definition bytes (s : string) : list Z := (Z.of_N ∘ N_of_ascii) <$> list_ascii_of_string s.
Arguments bytes s%_string_scope.

(** ** Decimal numbers *)

Definition is_digit (b : Z) : Prop := 48 ≤ b ≤ 57.
#[global] Instance is_digit_dec b : Decision (is_digit b).
Proof. unfold is_digit. apply _. Defined.

(** The number a string of digits denotes. *)
Definition digits_value (l : list Z) : Z := fold_left (λ a b, a * 10 + (b - 48)) l 0.

(** At most [k] digits of [n], most significant first. *)
Fixpoint dec_digits (k : nat) (n : Z) : list Z :=
  match k with
  | O => []
  | S k => if decide (n < 10) then [48 + n] else dec_digits k (n / 10) ++ [48 + n mod 10]
  end.

(** [%u] of a 32-bit number: ten digits are enough. *)
Definition dec (n : Z) : list Z := dec_digits 10 (u32 n).

Lemma dec_digits_spec k n :
  (0 < k)%nat → 0 ≤ n < 10 ^ Z.of_nat k →
  digits_value (dec_digits k n) = n ∧ Forall is_digit (dec_digits k n) ∧
  (0 < length (dec_digits k n) ≤ k)%nat.
Proof.
  revert n. induction k as [|k IH]; intros n Hk Hn; [lia|]. simpl. case_decide as Hlt.
  - unfold digits_value. simpl. split_and!; [lia| |lia..].
    apply Forall_cons_2; [unfold is_digit; lia|done].
  - assert (0 < k)%nat as Hk'. { destruct k; [|lia]. simpl in Hn. lia. }
    rewrite Nat2Z.inj_succ, Z.pow_succ_r in Hn by lia.
    pose proof (Z.div_mod n 10 ltac:(lia)). pose proof (Z.mod_pos_bound n 10 ltac:(lia)).
    destruct (IH (n / 10) Hk') as (Hv & Hd & Hl).
    { split; [apply Z.div_pos; lia|]. apply Z.div_lt_upper_bound; lia. }
    unfold digits_value in *. rewrite fold_left_app, Hv. simpl. rewrite length_app. simpl.
    split_and!; [lia| |lia..]. apply Forall_app. split; [done|].
    apply Forall_cons_2; [unfold is_digit; lia|done].
Qed.

Lemma dec_spec n :
  digits_value (dec n) = u32 n ∧ Forall is_digit (dec n) ∧ (0 < length (dec n) ≤ 10)%nat.
Proof.
  apply dec_digits_spec; [lia|]. pose proof (u32_range n) as Hr. unfold is_u32 in Hr.
  change (10 ^ Z.of_nat 10) with 10000000000. lia.
Qed.
