(* ===== verification/Mach.v ===== *)
(** * The Mach environment of the servers

    The servers of Uros are single-threaded message loops: [mach_msg_server]
    receives a request, runs the handler to completion and replies.  What a
    handler does besides changing the server's own tables is to call Mach (or
    libc): terminate a task, drop a send right, send a message, allocate.  Such
    a call is an element of [mach_call]; a handler is a computation of the monad
    [M S], which threads the server's state [S] and the chronological list of
    the calls made so far.

    What a call answers is not decided here: [MachEnv] gives, for every history
    and call, the return code and the words the call hands back.  The theorems
    of the servers hold for every such environment. *)

From S2P Require Import Prelude.

Definition port := Z.
Definition MACH_PORT_NULL : port := 0.
Definition KERN_SUCCESS : Z := 0.
Definition KERN_INVALID_ARGUMENT : Z := 4.
Definition KERN_FAILURE : Z := 5.

Inductive mach_call :=
  (* libc and virtual memory *)
  | Malloc (size : Z)
  | VmAllocate (size : Z)
  | VmDeallocate (task : port) (addr size : Z)
  | VmWire (addr size : Z)
  | VmRemap (target : port) (addr size : Z)
  | VmProtect (target : port) (addr size prot : Z)
  | Usleep (us : Z)
  (* ports *)
  | MachPortAllocate (right : Z)
  | MachPortDeallocate (p : port)
  | MachPortDestroy (p : port)
  | MachPortMoveMember (p set : port)
  | MachPortInsertRight (task p q : port)
  | RequestDeadName (p notify : port)
  (* tasks *)
  | TaskTerminate (p : port)
  | TaskSuspend (p : port)
  | TaskResume (p : port)
  | TaskInfo (p : port) (flavor : Z)
  | HostReboot (options : Z)
  (* messages between the servers *)
  | SendExit (notify : port) (pid code : Z)
  | SendSignal (sigport : port) (signo sender : Z)
  | CttyRelease (ctty : port) (sid : Z)
  | CapRevokeNotify (p : port) (cap_id : Z)
  | NetnameListMounts
  | NetnameLookUpMount (path : list Z)
  | FsUnmount (fs : port).

#[global] Instance mach_call_eq_dec : EqDecision mach_call.
Proof. solve_decision. Defined.

(** The answers of the environment; they may depend on everything that
    happened before. *)
Class MachEnv := {
  mach_kr : list mach_call → mach_call → Z;
  mach_out : list mach_call → mach_call → list Z }.

(** An environment in which every call succeeds and hands back nothing. *)
Definition env_ok : MachEnv := {|
  mach_kr _ _ := KERN_SUCCESS;
  mach_out _ _ := [] |}.

(** ** The handler monad *)

Definition M (S A : Type) : Type := S → list mach_call → A * S * list mach_call.

#[global] Instance M_ret {S} : MRet (M S) := λ A a s l, (a, s, l).
#[global] Instance M_bind {S} : MBind (M S) := λ A B f m s l,
  let '(a, s', l') := m s l in f a s' l'.

Section ops.
Context {E : MachEnv} {S : Type}.

Definition get : M S S := λ s l, (s, s, l).
Definition put (s' : S) : M S unit := λ _ l, (tt, s', l).
Definition modify (f : S → S) : M S unit := λ s l, (tt, f s, l).
(** Make a call, keep its return code. *)
Definition call (c : mach_call) : M S Z := λ s l, (mach_kr l c, s, l ++ [c]).
(** Make a call, keep the return code and the words it hands back. *)
Definition call_out (c : mach_call) : M S (Z * list Z) :=
  λ s l, ((mach_kr l c, mach_out l c), s, l ++ [c]).
(** [if (p != MACH_PORT_NULL) (void)mach_port_deallocate(self, p);] *)
Definition drop_right (p : port) : M S unit :=
  if decide (p = MACH_PORT_NULL) then mret tt
  else call (MachPortDeallocate p) ≫= λ _, mret tt.

Fixpoint mfor {A} (f : A → M S unit) (xs : list A) : M S unit :=
  match xs with
  | [] => mret tt
  | x :: xs => f x ≫= λ _, mfor f xs
  end.

(** A loop that accumulates a value. *)
Fixpoint mfold {A B} (f : B → A → M S B) (acc : B) (xs : list A) : M S B :=
  match xs with
  | [] => mret acc
  | x :: xs => f acc x ≫= λ acc', mfold f acc' xs
  end.
End ops.

(** Projections of a finished computation. *)
Definition res {S A} (r : A * S * list mach_call) : A := r.1.1.
Definition post {S A} (r : A * S * list mach_call) : S := r.1.2.
Definition trace {S A} (r : A * S * list mach_call) : list mach_call := r.2.

(** Unfold the monad in the goal. *)
Ltac munfold :=
  unfold mret, mbind, M_ret, M_bind, get, put, modify, call, call_out, drop_right,
    res, post, trace in *; cbn [fst snd] in *.

(** ** Generic facts *)

(** A computation that touches neither the state nor anything but the log. *)
Definition state_const {S A} (m : M S A) : Prop := ∀ s l, post (m s l) = s.

(** A handler only ever appends to the history. *)
Definition log_extends {S A} (m : M S A) : Prop :=
  ∀ s l, ∃ t, trace (m s l) = l ++ t.

Section facts.
Context {E : MachEnv} {S : Type}.

Lemma log_extends_ret {A} (a : A) : log_extends (mret (M := M S) a).
Proof. intros s l. exists []. munfold. by rewrite app_nil_r. Qed.
Lemma log_extends_bind {A B} (m : M S A) (f : A → M S B) :
  log_extends m → (∀ a, log_extends (f a)) → log_extends (m ≫= f).
Proof.
  intros Hm Hf s l. specialize (Hm s l). munfold.
  destruct (m s l) as [[a s'] l']. cbn [snd] in *. destruct Hm as [t ->].
  destruct (Hf a s' (l ++ t)) as [t' Ht']. unfold trace in Ht'. rewrite Ht'.
  exists (t ++ t'). by rewrite app_assoc.
Qed.
Lemma log_extends_call c : log_extends (call (S := S) c).
Proof. intros s l. by exists [c]. Qed.

(** Loops that do not touch the state. *)
Lemma state_const_ret {A} (a : A) : state_const (mret (M := M S) a).
Proof. done. Qed.
Lemma state_const_call c : state_const (call (S := S) c).
Proof. done. Qed.
Lemma state_const_bind {A B} (m : M S A) (f : A → M S B) :
  state_const m → (∀ a, state_const (f a)) → state_const (m ≫= f).
Proof.
  intros Hm Hf s l. specialize (Hm s l). munfold.
  destruct (m s l) as [[a s'] l']. cbn [fst snd] in *. subst. apply Hf.
Qed.
Lemma state_const_mfor {A} (f : A → M S unit) xs :
  (∀ x, state_const (f x)) → state_const (mfor f xs).
Proof.
  intros Hf. induction xs; simpl; [done|]. by apply state_const_bind; auto.
Qed.
Lemma state_const_drop_right p : state_const (drop_right (S := S) p).
Proof. unfold drop_right. case_decide; [done|]. by apply state_const_bind. Qed.
End facts.

#[export] Hint Resolve log_extends_ret log_extends_bind log_extends_call : uros.
#[export] Hint Resolve state_const_ret state_const_call state_const_bind
  state_const_mfor state_const_drop_right : uros.

(** ** Running a handler

    The equations that execute a handler step by step, giving its result, its
    final state and its history as explicit terms. *)

(** The history entry of [drop_right]. *)
Definition dropped (p : port) : list mach_call :=
  if decide (p = MACH_PORT_NULL) then [] else [MachPortDeallocate p].

Section run.
Context {E : MachEnv} {S : Type}.

Lemma bind_assoc {A B C} (m : M S A) (f : A → M S B) (g : B → M S C) s l :
  ((m ≫= f) ≫= g) s l = (m ≫= λ a, f a ≫= g) s l.
Proof. unfold mbind, M_bind. by destruct (m s l) as [[? ?] ?]. Qed.
Lemma run_get {A} (f : S → M S A) s l : (get ≫= f) s l = f s s l.
Proof. done. Qed.
Lemma run_put {A} s' (f : unit → M S A) s l : (put s' ≫= f) s l = f tt s' l.
Proof. done. Qed.
Lemma run_ret {A B} (a : A) (f : A → M S B) s l : (mret a ≫= f) s l = f a s l.
Proof. done. Qed.
Lemma run_call {A} c (f : Z → M S A) s l :
  (call c ≫= f) s l = f (mach_kr l c) s (l ++ [c]).
Proof. done. Qed.
Lemma run_call_out {A} c (f : Z * list Z → M S A) s l :
  (call_out c ≫= f) s l = f (mach_kr l c, mach_out l c) s (l ++ [c]).
Proof. done. Qed.
Lemma run_drop {A} p (f : unit → M S A) s l :
  (drop_right p ≫= f) s l = f tt s (l ++ dropped p).
Proof.
  unfold drop_right, dropped. case_decide; [|done].
  rewrite app_nil_r. done.
Qed.
End run.

(** Execute the handler in the goal as far as its steps are known. *)
Ltac mrun :=
  repeat first
    [ rewrite run_get | rewrite run_put | rewrite run_ret | rewrite run_drop
    | rewrite run_call_out | rewrite run_call | rewrite bind_assoc ];
  cbn beta iota.

(** A handler that keeps a property of the state. *)
Definition preserves {S A} (P : S → Prop) (m : M S A) : Prop :=
  ∀ s l, P s → P (post (m s l)).

Section preserves.
Context {E : MachEnv} {S : Type} (P : S → Prop).

Lemma preserves_ret {A} (a : A) : preserves P (mret (M := M S) a).
Proof. by intros s l. Qed.
Lemma preserves_call c : preserves P (call (S := S) c).
Proof. by intros s l. Qed.
Lemma preserves_bind {A B} (m : M S A) (f : A → M S B) :
  preserves P m → (∀ a, preserves P (f a)) → preserves P (m ≫= f).
Proof.
  intros Hm Hf s l Hs. specialize (Hm s l Hs). unfold mbind, M_bind.
  destruct (m s l) as [[a s'] l']. by apply Hf.
Qed.
Lemma preserves_drop_right p : preserves P (drop_right (S := S) p).
Proof. intros s l Hs. by rewrite state_const_drop_right. Qed.
Lemma preserves_mfor {A} (f : A → M S unit) xs :
  (∀ x, preserves P (f x)) → preserves P (mfor f xs).
Proof.
  intros Hf. induction xs; simpl; [apply preserves_ret|]. by apply preserves_bind.
Qed.
Lemma preserves_mfold {A B} (f : B → A → M S B) acc xs :
  (∀ b x, preserves P (f b x)) → preserves P (mfold f acc xs).
Proof.
  intros Hf. revert acc. induction xs; intros acc; simpl; [apply preserves_ret|].
  by apply preserves_bind.
Qed.
End preserves.

#[export] Hint Resolve preserves_ret preserves_call preserves_bind preserves_drop_right
  preserves_mfor preserves_mfold : uros.

(** A loop of calls whose answers are not looked at. *)
Lemma mfor_calls {E : MachEnv} {S A} (f : A → mach_call) xs (s : S) l :
  mfor (λ x, call (f x) ≫= λ _, mret tt) xs s l = (tt, s, l ++ (f <$> xs)).
Proof.
  revert l. induction xs as [|x xs IH]; intros l; simpl; [by rewrite app_nil_r|].
  rewrite bind_assoc, run_call, run_ret, IH. by rewrite <- app_assoc.
Qed.

Lemma run_mfor_calls {E : MachEnv} {S A B} (f : A → mach_call) xs (g : unit → M S B) s l :
  (mfor (λ x, call (f x) ≫= λ _, mret tt) xs ≫= g) s l = g tt s (l ++ (f <$> xs)).
Proof.
  transitivity (let '(a, s', l') := mfor (λ x, call (f x) ≫= λ _, mret tt) xs s l in g a s' l');
    [done|]. by rewrite mfor_calls.
Qed.

(** The calls of one kind a computation makes, whatever the state and the
    answers. *)
Definition emits {S A} (P : mach_call → Prop) `{∀ c, Decision (P c)} (m : M S A)
    (k : list mach_call) : Prop :=
  ∀ s l, filter P (trace (m s l)) = filter P l ++ k.

Section emits.
Context {E : MachEnv} {S : Type} (P : mach_call → Prop) `{∀ c, Decision (P c)}.

Lemma emits_ret {A} (a : A) : emits P (mret (M := M S) a) [].
Proof. intros s l. by rewrite app_nil_r. Qed.
Lemma emits_call c : emits P (call (S := S) c) (filter P [c]).
Proof. intros s l. unfold trace, call. simpl. apply list_basics.list.filter_app. Qed.
Lemma emits_bind {A B} (m : M S A) (f : A → M S B) k k' :
  emits P m k → (∀ a, emits P (f a) k') → emits P (m ≫= f) (k ++ k').
Proof.
  intros Hm Hf s l. specialize (Hm s l). unfold mbind, M_bind.
  destruct (m s l) as [[a s'] l']. unfold trace in *. cbn [snd] in *.
  specialize (Hf a s' l'). unfold trace in Hf. rewrite Hf, Hm. by rewrite app_assoc.
Qed.
Lemma emits_nil_bind {A B} (m : M S A) (f : A → M S B) :
  emits P m [] → (∀ a, emits P (f a) []) → emits P (m ≫= f) [].
Proof. intros. by apply (emits_bind m f [] []). Qed.
Lemma emits_nil_call c : ¬ P c → emits P (call (S := S) c) [].
Proof. intros Hc s l. rewrite emits_call. by rewrite filter_cons_False. Qed.
Lemma emits_mfold {A B} (f : B → A → M S B) (g : A → list mach_call) acc xs :
  (∀ b x, x ∈ xs → emits P (f b x) (g x)) → emits P (mfold f acc xs) (concat (g <$> xs)).
Proof.
  revert acc. induction xs as [|x xs IH]; intros acc Hf; simpl; [apply emits_ret|].
  apply emits_bind; [apply Hf; set_solver|]. intros b. apply IH. set_solver.
Qed.
End emits.

(** Step over a computation whose outcome is known. *)
Lemma run_known {S A B} (m : M S A) (f : A → M S B) s l a s' l' :
  m s l = (a, s', l') → (m ≫= f) s l = f a s' l'.
Proof. intros Hm. unfold mbind, M_bind. by rewrite Hm. Qed.

Lemma post_ret {S A} (a : A) (s : S) l : post (mret (M := M S) a s l) = s.
Proof. done. Qed.

Section emits_state.
Context {E : MachEnv} {S : Type} (P : mach_call → Prop) `{∀ c, Decision (P c)}.

Lemma emits_get : emits P (get (S := S)) [].
Proof. intros s l. by rewrite app_nil_r. Qed.
Lemma emits_put s' : emits P (put (S := S) s') [].
Proof. intros s l. by rewrite app_nil_r. Qed.
Lemma emits_nil_call_out c : ¬ P c → emits P (call_out (S := S) c) [].
Proof. intros Hc s l. exact (emits_nil_call (S := S) P c Hc s l). Qed.
Lemma emits_nil_mfor {A} (f : A → M S unit) xs :
  (∀ x, emits P (f x) []) → emits P (mfor f xs) [].
Proof.
  intros Hf. induction xs; simpl; [apply emits_ret|]. by apply emits_nil_bind.
Qed.
Lemma emits_nil_mfold {A B} (f : B → A → M S B) acc xs :
  (∀ b x, emits P (f b x) []) → emits P (mfold f acc xs) [].
Proof.
  intros Hf. revert acc. induction xs; intros acc; simpl; [apply emits_ret|].
  by apply emits_nil_bind.
Qed.
Lemma emits_nil_drop_right p :
  (∀ q, ¬ P (MachPortDeallocate q)) → emits P (drop_right (S := S) p) [].
Proof.
  intros Hd. unfold drop_right. case_decide; [apply emits_ret|].
  apply emits_nil_bind; [by apply emits_nil_call|intros; apply emits_ret].
Qed.
End emits_state.

(** Prove that a handler makes no call of a kind, by its structure. *)
Ltac emits_nothing :=
  repeat first
    [ apply emits_ret | apply emits_get | apply emits_put
    | apply emits_nil_drop_right; intros ? []
    | apply emits_nil_call; intros [] | apply emits_nil_call_out; intros []
    | apply emits_nil_mfor; intros | apply emits_nil_mfold; intros
    | apply emits_nil_bind; [|intros] | case_match | progress cbv zeta ].

(** ** Components of a larger state

    Run a computation on one field of the state. *)
Definition zoom {S T A} (field : S → T) (set : T → S → S) (m : M T A) : M S A := λ s l,
  let '(a, t, l') := m (field s) l in (a, set t s, l').

Lemma run_zoom {S T A B} (field : S → T) (set : T → S → S) (m : M T A) (f : A → M S B) s l :
  (zoom field set m ≫= f) s l =
    f (res (m (field s) l)) (set (post (m (field s) l)) s) (trace (m (field s) l)).
Proof. unfold mbind, M_bind, zoom. by destruct (m (field s) l) as [[a t] l']. Qed.
