(* ===== verification/Fips180.v ===== *)
(** * SHA-256 and HMAC as the standards define them

    The reference against which the code of [Sha256] is proved: FIPS 180-4 for the
    hash and RFC 2104 for the keyed hash, written from the standards and not from the
    code.  Words are numbers below 2^32 and bytes numbers below 2^8; rotations and
    encodings are arithmetic, the constants are computed from the primes that they
    come from, and a message is padded as a whole and cut into blocks. *)

From S2P Require Import Prelude.

Module Fips180.

Declare Scope fips_scope.
Open Scope fips_scope.

(** Addition modulo 2^32, the complement, and the rotation to the right (2.2.2). *)
Notation "x ⊞ y" := ((x + y) mod 2 ^ 32) (at level 50, left associativity) : fips_scope.
Definition complement (x : Z) : Z := 2 ^ 32 - 1 - x.
Definition ROTR (n x : Z) : Z := x / 2 ^ n + x mod 2 ^ n * 2 ^ (32 - n).
Definition SHR (n x : Z) : Z := x / 2 ^ n.

(** The functions of 4.1.2. *)
Definition Ch (x y z : Z) : Z := Z.lxor (Z.land x y) (Z.land (complement x) z).
Definition Maj (x y z : Z) : Z := Z.lxor (Z.lxor (Z.land x y) (Z.land x z)) (Z.land y z).
Definition Sigma0 (x : Z) : Z := Z.lxor (Z.lxor (ROTR 2 x) (ROTR 13 x)) (ROTR 22 x).
Definition Sigma1 (x : Z) : Z := Z.lxor (Z.lxor (ROTR 6 x) (ROTR 11 x)) (ROTR 25 x).
Definition sigma0 (x : Z) : Z := Z.lxor (Z.lxor (ROTR 7 x) (ROTR 18 x)) (SHR 3 x).
Definition sigma1 (x : Z) : Z := Z.lxor (Z.lxor (ROTR 17 x) (ROTR 19 x)) (SHR 10 x).

(** The constants (4.2.2, 5.3.3): the first 32 bits of the fractional parts of the
    cube roots of the first 64 primes, and of the square roots of the first 8. *)
Definition prime (p : Z) : bool := forallb (λ d, negb (p mod Z.of_nat d =? 0)) (seq 2 (Z.to_nat p - 2)).
Definition primes : list Z := take 64 (List.filter prime (Z.of_nat <$> seq 2 310)).
(** The largest [r] below [acc + 2 ^ bits] with [r ^ 3 <= n]. *)
Fixpoint cube_root (bits : nat) (acc n : Z) : Z :=
  match bits with
  | O => acc
  | S bits =>
      let r := acc + 2 ^ Z.of_nat bits in
      cube_root bits (if r ^ 3 <=? n then r else acc) n
  end.
Definition K256 : list Z := (λ p, cube_root 36 0 (p * 2 ^ 96) mod 2 ^ 32) <$> primes.
Definition initial_hash : list Z := (λ p, Z.sqrt (p * 2 ^ 64) mod 2 ^ 32) <$> take 8 primes.

(** Big-endian encodings (3.1): a number as [n] bytes, and bytes as a number. *)
Fixpoint bytes_of (n : nat) (x : Z) : list Z :=
  match n with
  | O => []
  | S n => (x / 2 ^ (8 * Z.of_nat n)) mod 2 ^ 8 :: bytes_of n x
  end.
Definition number_of (l : list Z) : Z := foldl (λ x b, x * 2 ^ 8 + b) 0 l.

(** A list in pieces of [n]. *)
Fixpoint pieces (fuel n : nat) (l : list Z) : list (list Z) :=
  match fuel, l with
  | S fuel, _ :: _ => take n l :: pieces fuel n (drop n l)
  | _, _ => []
  end.

(** Padding (5.1.1): the bit one, as few zeros as give 448 bits modulo 512, and the
    length in bits as 64 bits. *)
Definition pad (msg : list Z) : list Z :=
  let len := Z.of_nat (length msg) in
  msg ++ [128] ++ replicate (Z.to_nat ((55 - len) mod 64)) 0 ++ bytes_of 8 (8 * len).

(** The message schedule (6.2.2, step 1), the last word first. *)
Definition next_word (w : list Z) : Z :=
  let W k := default 0 (w !! (k - 1)%nat) in
  sigma1 (W 2%nat) ⊞ W 7%nat ⊞ sigma0 (W 15%nat) ⊞ W 16%nat.
Definition message_schedule (block : list Z) : list Z :=
  reverse (Nat.iter 48 (λ w, next_word w :: w) (reverse (number_of <$> pieces 16 4 block))).

(** One round (step 3) on the working variables a to h. *)
Definition hash_round (v : list Z) (kw : Z * Z) : list Z :=
  match v with
  | [a; b; c; d; e; f; g; h] =>
      let T1 := h ⊞ Sigma1 e ⊞ Ch e f g ⊞ kw.1 ⊞ kw.2 in
      let T2 := Sigma0 a ⊞ Maj a b c in
      [T1 ⊞ T2; a; b; c; d ⊞ T1; e; f; g]
  | _ => v
  end.

(** A block (steps 1 to 4), and the digest of a message. *)
Definition hash_block (H block : list Z) : list Z :=
  zip_with (λ x y, x ⊞ y) (foldl hash_round H (zip K256 (message_schedule block))) H.
Definition fips_sha256 (msg : list Z) : list Z :=
  foldl hash_block initial_hash (pieces (length (pad msg)) 64 (pad msg)) ≫= bytes_of 4.

(** RFC 2104 with blocks of 64 bytes: the key, hashed if it is longer than a block,
    is filled up with zeros; H(K xor opad, H(K xor ipad, text)). *)
Definition rfc2104_hmac (key text : list Z) : list Z :=
  let k := if decide (64 < length key)%nat then fips_sha256 key else key in
  let k := k ++ replicate (64 - length k) 0 in
  let xor (c : Z) := (λ b, Z.lxor b c) <$> k in
  fips_sha256 (xor 92 ++ fips_sha256 (xor 54 ++ text)).

(** The example of the standard for "abc". *)
Example fips_abc :
  fips_sha256 [97; 98; 99] =
    bytes_of 32 0xba7816bf8f01cfea414140de5dae2223b00361a396177a9cb410ff61f20015ad.
Proof. vm_compute. reflexivity. Qed.
End Fips180.
