(* ===== verification/Sha256.v ===== *)
(** * SHA-256 and HMAC-SHA256

    The portable C implementation that both the kernel
    ([mach_kernel/kern/sha256.c], [hmac_sha256.c]) and libcap link: the
    streaming context, the block compression, padding, and the HMAC built on
    them.  A 32-bit word and a byte are [Z] values; [ctx->buf] is the 64-byte
    array, of which only the first [buflen] bytes are meaningful.

    Shown: the context computes the digest of the message padded as a whole, the
    comparison is equality, and what [sha256_update] does to a partially filled
    buffer.  That the digest and the HMAC are those of FIPS 180-4 and RFC 2104 is in
    [Sha256Fips]. *)

From S2P Require Import Prelude.

Module Sha256.

Definition SHA256_BLOCK_SIZE : nat := 64.
Definition SHA256_DIGEST_SIZE : nat := 32.

(** Round constants of FIPS 180-4, in the rows of the source's table. *)
Definition K : list Z := concat
  [ [0x428a2f98; 0x71374491; 0xb5c0fbcf; 0xe9b5dba5];
    [0x3956c25b; 0x59f111f1; 0x923f82a4; 0xab1c5ed5];
    [0xd807aa98; 0x12835b01; 0x243185be; 0x550c7dc3];
    [0x72be5d74; 0x80deb1fe; 0x9bdc06a7; 0xc19bf174];
    [0xe49b69c1; 0xefbe4786; 0x0fc19dc6; 0x240ca1cc];
    [0x2de92c6f; 0x4a7484aa; 0x5cb0a9dc; 0x76f988da];
    [0x983e5152; 0xa831c66d; 0xb00327c8; 0xbf597fc7];
    [0xc6e00bf3; 0xd5a79147; 0x06ca6351; 0x14292967];
    [0x27b70a85; 0x2e1b2138; 0x4d2c6dfc; 0x53380d13];
    [0x650a7354; 0x766a0abb; 0x81c2c92e; 0x92722c85];
    [0xa2bfe8a1; 0xa81a664b; 0xc24b8b70; 0xc76c51a3];
    [0xd192e819; 0xd6990624; 0xf40e3585; 0x106aa070];
    [0x19a4c116; 0x1e376c08; 0x2748774c; 0x34b0bcb5];
    [0x391c0cb3; 0x4ed8aa4a; 0x5b9cca4f; 0x682e6ff3];
    [0x748f82ee; 0x78a5636f; 0x84c87814; 0x8cc70208];
    [0x90befffa; 0xa4506ceb; 0xbef9a3f7; 0xc67178f2] ].

Definition rotr (x n : Z) : Z :=
  Z.lor (Z.shiftr x n) (u32 (Z.shiftl x (32 - n))).

(** Byte [i] of a buffer ([0] is never the answer on an in-range read). *)
Definition byte_at (l : list Z) (i : nat) : Z := default 0 (l !! i).

(** The big-endian word [W[i]] of a block. *)
Definition block_word (block : list Z) (i : nat) : Z :=
  Z.lor (Z.lor (Z.lor (Z.shiftl (byte_at block (4 * i)) 24)
                      (Z.shiftl (byte_at block (4 * i + 1)) 16))
               (Z.shiftl (byte_at block (4 * i + 2)) 8))
        (byte_at block (4 * i + 3)).

(** The loop [for (i = 16; i < 64; i++)] filling the message schedule. *)
Fixpoint schedule (n : nat) (W : list Z) : list Z :=
  match n with
  | O => W
  | S n =>
      let i := length W in
      let w15 := byte_at W (i - 15) in
      let w2 := byte_at W (i - 2) in
      let s0 := Z.lxor (Z.lxor (rotr w15 7) (rotr w15 18)) (Z.shiftr w15 3) in
      let s1 := Z.lxor (Z.lxor (rotr w2 17) (rotr w2 19)) (Z.shiftr w2 10) in
      schedule n (W ++ [u32 (byte_at W (i - 16) + s0 + byte_at W (i - 7) + s1)])
  end.

(** The eight working variables. *)
Record regs := Regs {
  ra : Z; rb : Z; rc : Z; rd : Z; re : Z; rf : Z; rg : Z; rh : Z }.

Definition round (r : regs) (kw : Z * Z) : regs :=
  let '(Regs a b c d e f g h) := r in
  let S1 := Z.lxor (Z.lxor (rotr e 6) (rotr e 11)) (rotr e 25) in
  let ch := Z.lxor (Z.land e f) (Z.land (u32 (Z.lnot e)) g) in
  let t1 := u32 (h + S1 + ch + kw.1 + kw.2) in
  let S0 := Z.lxor (Z.lxor (rotr a 2) (rotr a 13)) (rotr a 22) in
  let mj := Z.lxor (Z.lxor (Z.land a b) (Z.land a c)) (Z.land b c) in
  let t2 := u32 (S0 + mj) in
  Regs (u32 (t1 + t2)) a b c (u32 (d + t1)) e f g.

Definition add_regs (s r : regs) : regs :=
  Regs (u32 (ra s + ra r)) (u32 (rb s + rb r)) (u32 (rc s + rc r)) (u32 (rd s + rd r))
       (u32 (re s + re r)) (u32 (rf s + rf r)) (u32 (rg s + rg r)) (u32 (rh s + rh r)).

(** [sha256_compress]: one 64-byte block into the chaining state. *)
Definition sha256_compress (state : regs) (block : list Z) : regs :=
  let W := schedule 48 (block_word block <$> seq 0 16) in
  add_regs state (fold_left round (zip K W) state).

Record sha256_ctx := Ctx {
  state : regs;
  bitcount : Z;
  buf : list Z;      (** [uint8_t buf[64]] *)
  buflen : nat }.

Definition H0 : regs :=
  Regs 0x6a09e667 0xbb67ae85 0x3c6ef372 0xa54ff53a
       0x510e527f 0x9b05688c 0x1f83d9ab 0x5be0cd19.

(** [sha256_init] leaves [buf] as it was; the caller's context is
    uninitialised, so its bytes are an argument. *)
Definition sha256_init (buf0 : list Z) : sha256_ctx := Ctx H0 0 buf0 0.

(** [for (i < length data) buf[off + i] = data[i]]. *)
Definition write_at (off : nat) (data b : list Z) : list Z :=
  take off b ++ data ++ drop (off + length data) b.

(** [while (len >= 64) { compress; p += 64; len -= 64; }]. *)
Fixpoint compress_blocks (fuel : nat) (st : regs) (p : list Z) : regs * list Z :=
  match fuel with
  | O => (st, p)
  | S fuel =>
      if decide (SHA256_BLOCK_SIZE <= length p)%nat
      then compress_blocks fuel (sha256_compress st (take SHA256_BLOCK_SIZE p))
             (drop SHA256_BLOCK_SIZE p)
      else (st, p)
  end.

(** [sha256_update].  The fuel of the block loop is the number of bytes left,
    which bounds the number of iterations. *)
Definition sha256_update (c : sha256_ctx) (data : list Z) : sha256_ctx :=
  let bits := bitcount c +64 u64 (Z.of_nat (length data) * 8) in
  let '(c1, p) :=
    if decide (buflen c = 0)%nat then (c, data)
    else
      let n := Nat.min (SHA256_BLOCK_SIZE - buflen c) (length data) in
      let b := write_at (buflen c) (take n data) (buf c) in
      let l := (buflen c + n)%nat in
      if decide (l = SHA256_BLOCK_SIZE)
      then (Ctx (sha256_compress (state c) b) (bitcount c) b 0, drop n data)
      else (Ctx (state c) (bitcount c) b l, drop n data) in
  let '(st, rest) := compress_blocks (length p) (state c1) p in
  Ctx st bits (write_at 0 rest (buf c1)) (length rest).

(** Big-endian bytes of a 64-bit count and of a word. *)
Definition be64 (x : Z) : list Z :=
  (λ s, u8 (Z.shiftr x s)) <$> [56; 48; 40; 32; 24; 16; 8; 0].
Definition be32 (x : Z) : list Z :=
  (λ s, u8 (Z.shiftr x s)) <$> [24; 16; 8; 0].

Definition digest_of (s : regs) : list Z :=
  be32 (ra s) ++ be32 (rb s) ++ be32 (rc s) ++ be32 (rd s) ++
  be32 (re s) ++ be32 (rf s) ++ be32 (rg s) ++ be32 (rh s).

(** [sha256_final]. *)
Definition sha256_final (c : sha256_ctx) : list Z :=
  let bits := bitcount c in
  let b := write_at (buflen c) [0x80] (buf c) in
  let l := S (buflen c) in
  let '(st, b, l) :=
    if decide (56 < l)%nat
    then
      let b := write_at l (replicate (SHA256_BLOCK_SIZE - l) 0) b in
      (sha256_compress (state c) b, b, O)
    else (state c, b, l) in
  let b := write_at l (replicate (56 - l) 0) b in
  let b := write_at 56 (be64 bits) b in
  digest_of (sha256_compress st b).

(** [sha256]; [buf0] is the uninitialised stack buffer of the local context. *)
Definition sha256_with (buf0 data : list Z) : list Z :=
  sha256_final (sha256_update (sha256_init buf0) data).

Definition sha256 (data : list Z) : list Z := sha256_with (replicate 64 0) data.

(** [hmac_sha256]. *)
Definition hmac_sha256 (key msg : list Z) : list Z :=
  let k_block :=
    if decide (SHA256_BLOCK_SIZE < length key)%nat
    then write_at 0 (sha256 key) (replicate 64 0)
    else write_at 0 key (replicate 64 0) in
  let ipad := (λ b, Z.lxor b 0x36) <$> k_block in
  let opad := (λ b, Z.lxor b 0x5c) <$> k_block in
  let inner := sha256_final
    (sha256_update (sha256_update (sha256_init (replicate 64 0)) ipad) msg) in
  sha256_final
    (sha256_update (sha256_update (sha256_init (replicate 64 0)) opad) inner).

(** [hmac_sha256_equal]: the accumulated difference, without early exit. *)
Definition hmac_sha256_equal (a b : list Z) : bool :=
  fold_left (λ diff i, Z.lor diff (Z.lxor (byte_at a i) (byte_at b i)))
    (seq 0 32) 0 =? 0.

(** ** Without the buffer

    The digest with the message padded as a whole, from which [Sha256Fips] goes on
    to the standard. *)

Definition pad_zeros (n : nat) : nat := (119 - n `mod` 64) `mod` 64.

Definition padding (n : nat) (bits : Z) : list Z :=
  [0x80] ++ replicate (pad_zeros n) 0 ++ be64 bits.

Definition blocks (st : regs) (p : list Z) : regs * list Z :=
  compress_blocks (length p) st p.

Definition sha256_padded (msg : list Z) : list Z :=
  digest_of (blocks H0 (msg ++ padding (length msg) (u64 (Z.of_nat (length msg) * 8)))).1.

(** ** The block loop *)

Lemma compress_blocks_fuel f st p :
  (length p <= f)%nat → compress_blocks f st p = blocks st p.
Proof.
  unfold blocks. revert st p. induction f as [f IH] using lt_wf_ind. intros st p Hf.
  destruct f as [|f]; destruct p as [|b p]; simpl in Hf; try lia; [done|done|].
  cbn [compress_blocks length]. case_decide as Hl; [|done].
  rewrite (IH f) by (rewrite ?length_drop; simpl in *; lia).
  rewrite (IH (length p)); [done|lia|rewrite length_drop; simpl; unfold SHA256_BLOCK_SIZE; lia].
Qed.

Lemma blocks_step st p :
  (64 <= length p)%nat →
  blocks st p = blocks (sha256_compress st (take 64 p)) (drop 64 p).
Proof.
  intros Hl. unfold blocks at 1. destruct (length p) as [|n] eqn:En; [lia|].
  cbn [compress_blocks]. rewrite decide_True by (rewrite En; exact Hl).
  apply compress_blocks_fuel. rewrite length_drop, En. unfold SHA256_BLOCK_SIZE. lia.
Qed.

Lemma blocks_short st p : (length p < 64)%nat → blocks st p = (st, p).
Proof.
  intros Hl. unfold blocks. destruct (length p) eqn:En; [done|].
  cbn [compress_blocks]. rewrite decide_False; [done|]. rewrite En.
  unfold SHA256_BLOCK_SIZE. lia.
Qed.

Lemma blocks_one st p : length p = 64%nat → blocks st p = (sha256_compress st p, []).
Proof.
  intros Hl. rewrite blocks_step by lia. rewrite take_ge, drop_ge by lia.
  by rewrite blocks_short by (simpl; lia).
Qed.

Lemma blocks_rest_short st p : (length (blocks st p).2 < 64)%nat.
Proof.
  revert st. induction p as [p IH] using (induction_ltof1 _ length). intros st.
  destruct (decide (64 <= length p)%nat) as [Hl|Hl].
  - rewrite blocks_step by done. apply IH. unfold ltof. rewrite length_drop. lia.
  - rewrite blocks_short by lia. simpl. lia.
Qed.

(** Compressing a concatenation continues from the unconsumed tail. *)
Lemma blocks_app st p q :
  blocks st (p ++ q) = blocks (blocks st p).1 ((blocks st p).2 ++ q).
Proof.
  revert st. induction p as [p IH] using (induction_ltof1 _ length). intros st.
  destruct (decide (64 <= length p)%nat) as [Hl|Hl].
  - rewrite (blocks_step st p), (blocks_step st (p ++ q)) by (rewrite ?length_app; lia).
    rewrite take_app_le, drop_app_le by lia.
    apply IH. unfold ltof. rewrite length_drop. lia.
  - by rewrite (blocks_short st p) by lia.
Qed.

Lemma blocks_rest_length st p :
  (length (blocks st p).2 = length p `mod` 64)%nat.
Proof.
  revert st. induction p as [p IH] using (induction_ltof1 _ length). intros st.
  destruct (decide (64 <= length p)%nat) as [Hl|Hl].
  - rewrite blocks_step, IH by (unfold ltof; rewrite ?length_drop; lia).
    rewrite length_drop. replace (length p) with (length p - 64 + 1 * 64)%nat at 2 by lia.
    by rewrite Nat.Div0.mod_add.
  - rewrite blocks_short by lia. cbn [snd]. by rewrite Nat.mod_small by lia.
Qed.

(** ** Buffer writes *)

Lemma write_at_app pre data x :
  write_at (length pre) data (pre ++ x) = pre ++ data ++ drop (length data) x.
Proof.
  unfold write_at. rewrite take_app_length. f_equal. f_equal.
  rewrite drop_app_ge by lia. f_equal. lia.
Qed.

Lemma write_at_eq off pre data x :
  off = length pre → write_at off data (pre ++ x) = pre ++ data ++ drop (length data) x.
Proof. intros ->. apply write_at_app. Qed.

Lemma length_write_at off data b :
  (off + length data <= length b)%nat → length (write_at off data b) = length b.
Proof. intros. unfold write_at. rewrite !length_app, length_take, length_drop. lia. Qed.

(** ** The context invariant: 64-byte buffer, some valid prefix of it *)

Definition ctx_wf (c : sha256_ctx) : Prop :=
  length (buf c) = 64%nat ∧ (buflen c < 64)%nat.

Definition pending (c : sha256_ctx) : list Z := take (buflen c) (buf c).

Lemma pad_zeros_small n : (n < 56)%nat → pad_zeros n = (55 - n)%nat.
Proof.
  intros. unfold pad_zeros. rewrite (Nat.mod_small n) by lia.
  replace (119 - n)%nat with (55 - n + 1 * 64)%nat by lia.
  by rewrite Nat.Div0.mod_add, Nat.mod_small by lia.
Qed.

Lemma pad_zeros_big n : (56 <= n < 64)%nat → pad_zeros n = (119 - n)%nat.
Proof.
  intros. unfold pad_zeros. rewrite (Nat.mod_small n) by lia.
  by rewrite Nat.mod_small by lia.
Qed.

Lemma sha256_final_spec c :
  ctx_wf c →
  sha256_final c =
    digest_of (blocks (state c) (pending c ++ padding (buflen c) (bitcount c))).1.
Proof.
  destruct c as [st bits b l]. intros [Hb Hl]. unfold sha256_final, padding, pending.
  cbn [buf buflen state bitcount] in *.
  rewrite <- (take_drop l b).
  assert (length (take l b) = l) as Hpre by (rewrite length_take; lia).
  assert (length (drop l b) = 64 - l)%nat as Hx by (rewrite length_drop; lia).
  generalize dependent (drop l b). generalize dependent (take l b). clear b Hb.
  intros pre Hpre x Hx. subst l. rewrite take_app_length.
  rewrite write_at_app.
  assert (length (be64 bits) = 8%nat) as H8 by done.
  case_decide as Hd.
  - rewrite (app_assoc pre [0x80]), (write_at_eq (S (length pre)))
      by (rewrite length_app; simpl; lia).
    rewrite (drop_ge (drop _ x)), app_nil_r
      by (rewrite length_drop, length_replicate; unfold SHA256_BLOCK_SIZE; simpl; lia).
    set (b1 := (pre ++ [128]) ++ replicate (SHA256_BLOCK_SIZE - S (length pre)) 0).
    assert (length b1 = 64%nat) as Hb1.
    { unfold b1, SHA256_BLOCK_SIZE. rewrite !length_app, length_replicate. simpl. lia. }
    change b1 with ([] ++ b1) at 2. rewrite (write_at_eq 0 []) by done.
    rewrite app_nil_l, (write_at_eq 56) by (rewrite length_replicate; done).
    rewrite (drop_ge (drop _ b1)), app_nil_r
      by (rewrite length_drop, length_replicate, H8; lia).
    f_equal.
    replace (pre ++ [128] ++ replicate (pad_zeros (length pre)) 0 ++ be64 bits)
      with (b1 ++ (replicate 56 0 ++ be64 bits)).
    + rewrite blocks_app, (blocks_one _ b1) by done. cbn [fst snd]. rewrite app_nil_l.
      by rewrite blocks_one by (rewrite length_app, length_replicate, H8; done).
    + unfold b1. rewrite <- !app_assoc. do 2 f_equal. rewrite app_assoc. f_equal.
      rewrite <- replicate_add. f_equal. rewrite pad_zeros_big by lia.
      unfold SHA256_BLOCK_SIZE. lia.
  - rewrite (app_assoc pre [0x80]), (write_at_eq (S (length pre)))
      by (rewrite length_app; simpl; lia).
    rewrite (app_assoc (pre ++ [128])).
    rewrite (write_at_eq 56) by (rewrite !length_app, length_replicate; simpl; lia).
    rewrite (drop_ge (drop _ _)), app_nil_r
      by (rewrite !length_drop, length_replicate, H8; simpl; lia).
    rewrite pad_zeros_small by lia.
    rewrite blocks_one by (rewrite !length_app, length_replicate, H8; simpl; lia).
    cbn [fst]. rewrite <- !app_assoc. do 5 f_equal.
Qed.

(** ** Streaming *)

(** Two contexts a later [update]/[final] cannot tell apart. *)
Definition ctx_sim (c1 c2 : sha256_ctx) : Prop :=
  ctx_wf c1 ∧ ctx_wf c2 ∧ state c1 = state c2 ∧
  bitcount c1 = bitcount c2 ∧ pending c1 = pending c2.

Lemma length_pending c : ctx_wf c → length (pending c) = buflen c.
Proof. intros [Hb Hl]. unfold pending. rewrite length_take. lia. Qed.

Lemma sha256_final_sim c1 c2 : ctx_sim c1 c2 → sha256_final c1 = sha256_final c2.
Proof.
  intros (H1 & H2 & Hs & Hc & Hp). rewrite !sha256_final_spec by done.
  by rewrite <- (length_pending c1), <- (length_pending c2), Hs, Hc, Hp by done.
Qed.

(** The result of an update, as the context that has compressed the whole
    blocks of [p] from [st] and holds the rest. *)
Definition absorbed (st : regs) (bits : Z) (p : list Z) (c : sha256_ctx) : Prop :=
  ctx_wf c ∧ state c = (blocks st p).1 ∧ pending c = (blocks st p).2 ∧ bitcount c = bits.

Lemma absorbed_sim st bits p c1 c2 :
  absorbed st bits p c1 → absorbed st bits p c2 → ctx_sim c1 c2.
Proof. intros (?&?&?&?) (?&?&?&?). unfold ctx_sim. split_and!; congruence. Qed.

Lemma absorbed_store st bits p b :
  length b = 64%nat →
  absorbed st bits p
    (Ctx (blocks st p).1 bits (write_at 0 (blocks st p).2 b) (length (blocks st p).2)).
Proof.
  intros Hb. assert (Hr := blocks_rest_short st p). unfold absorbed, ctx_wf, pending.
  cbn [state bitcount buf buflen]. rewrite length_write_at by lia.
  split_and!; [lia|lia|done| |done].
  unfold write_at. by rewrite take_0, app_nil_l, take_app_length.
Qed.

(** The bit count an update of [n] bytes leaves. *)
Definition count_after (c : sha256_ctx) (n : nat) : Z :=
  u64 (bitcount c + u64 (Z.of_nat n * 8)).

Lemma count_after_app c (a b : list Z) c' :
  bitcount c' = count_after c (length a) →
  count_after c' (length b) = count_after c (length (a ++ b)).
Proof.
  unfold count_after, u64. intros ->. rewrite length_app, Nat2Z.inj_add.
  rewrite Zplus_mod_idemp_l, !Zplus_mod_idemp_r.
  rewrite <- (Zplus_mod_idemp_l (bitcount c + _)), Zplus_mod_idemp_r, Zplus_mod_idemp_l.
  f_equal. lia.
Qed.

(** An update absorbs its data whenever the buffer is empty or gets filled. *)
Lemma sha256_update_absorbs c data :
  ctx_wf c → buflen c = 0%nat ∨ (64 <= buflen c + length data)%nat →
  absorbed (state c) (count_after c (length data)) (pending c ++ data) (sha256_update c data).
Proof.
  intros [Hb Hl] Hc. unfold sha256_update, count_after. case_decide as H0'.
  - unfold pending. rewrite H0', take_0, app_nil_l.
    fold (blocks (state c) data). destruct (blocks (state c) data) as [st rest] eqn:E.
    replace st with (blocks (state c) data).1 by (by rewrite E).
    replace rest with (blocks (state c) data).2 by (by rewrite E).
    by apply absorbed_store.
  - destruct Hc as [?|Hc]; [lia|].
    rewrite Nat.min_l by (unfold SHA256_BLOCK_SIZE; lia).
    rewrite decide_True by (unfold SHA256_BLOCK_SIZE; lia). cbn [state buf].
    set (n := (SHA256_BLOCK_SIZE - buflen c)%nat).
    assert (length (take n data) = n) as Hn
      by (rewrite length_take; unfold n, SHA256_BLOCK_SIZE; lia).
    set (b := write_at _ _ _).
    assert (b = pending c ++ take n data) as Eb.
    { unfold b, write_at, pending. rewrite (drop_ge (buf c)), app_nil_r;
        [done|]. rewrite Hn, Hb. unfold n, SHA256_BLOCK_SIZE. lia. }
    assert (length b = 64%nat) as Hlb.
    { unfold b. rewrite length_write_at; [done|]. rewrite Hn, Hb.
      unfold n, SHA256_BLOCK_SIZE. lia. }
    fold (blocks (sha256_compress (state c) b) (drop n data)).
    destruct (blocks _ (drop n data)) as [st rest] eqn:E.
    assert (blocks (state c) (pending c ++ data) = (st, rest)) as E2.
    { rewrite <- E, <- (take_drop n data), app_assoc, <- Eb at 1.
      by rewrite blocks_app, (blocks_one _ b) by done. }
    assert (Hs := absorbed_store (state c) (u64 (bitcount c + u64 (Z.of_nat (length data) * 8)))
              (pending c ++ data) b Hlb).
    by rewrite E2 in Hs.
Qed.

(** What an update does to a buffer it cannot fill: the bytes are copied in,
    the final [ctx->buflen = len] then empties it. *)
Lemma sha256_update_partial c data :
  ctx_wf c → buflen c ≠ 0%nat → (buflen c + length data < 64)%nat →
  sha256_update c data =
    Ctx (state c) (count_after c (length data)) (write_at (buflen c) data (buf c)) 0.
Proof.
  intros [Hb Hl] H0' Hs. unfold sha256_update. rewrite decide_False by done.
  rewrite Nat.min_r by (unfold SHA256_BLOCK_SIZE; lia).
  rewrite decide_False by (unfold SHA256_BLOCK_SIZE; lia).
  rewrite take_ge, drop_ge by lia. cbn [length compress_blocks state buf].
  unfold write_at at 1. by rewrite take_0, drop_0.
Qed.

Lemma pad_zeros_mod n : pad_zeros (n `mod` 64) = pad_zeros n.
Proof. unfold pad_zeros. by rewrite Nat.Div0.mod_mod. Qed.

(** Finishing a context that absorbed [p] from the initial state. *)
Lemma sha256_final_absorbed p c :
  absorbed H0 (u64 (Z.of_nat (length p) * 8)) p c → sha256_final c = sha256_padded p.
Proof.
  intros (Hwf & Hs & Hp & Hc). rewrite sha256_final_spec by done. unfold sha256_padded.
  rewrite (blocks_app H0 p), Hs, Hc. unfold padding.
  by rewrite <- (length_pending c), Hp, blocks_rest_length, pad_zeros_mod by done.
Qed.

Lemma ctx_wf_init buf0 : length buf0 = 64%nat → ctx_wf (sha256_init buf0).
Proof. intros. split; simpl; lia. Qed.

Lemma u64_u64 x : u64 (u64 x) = u64 x.
Proof. apply u64_small, u64_range. Qed.

Lemma sha256_with_spec buf0 data :
  length buf0 = 64%nat → sha256_with buf0 data = sha256_padded data.
Proof.
  intros Hb. apply sha256_final_absorbed.
  assert (Ha := sha256_update_absorbs (sha256_init buf0) data (ctx_wf_init _ Hb) (or_introl eq_refl)).
  unfold count_after in Ha. cbn [bitcount sha256_init] in Ha.
  by rewrite Z.add_0_l, u64_u64 in Ha.
Qed.

(** Two updates from a fresh context, the first of whole blocks. *)
Lemma sha256_two_updates a b :
  (length a `mod` 64 = 0)%nat →
  sha256_final (sha256_update (sha256_update (sha256_init (replicate 64 0)) a) b) =
  sha256_padded (a ++ b).
Proof.
  intros Ha. apply sha256_final_absorbed.
  assert (Hi : ctx_wf (sha256_init (replicate 64 0))) by (apply ctx_wf_init; done).
  assert (H1 := sha256_update_absorbs _ a Hi (or_introl eq_refl)).
  change (pending (sha256_init (replicate 64 0)) ++ a) with a in H1.
  change (state (sha256_init (replicate 64 0))) with H0 in H1.
  set (c1 := sha256_update _ a) in *. destruct H1 as (Hw1 & Hs1 & Hp1 & Hc1).
  assert (buflen c1 = 0%nat) as Hl1.
  { by rewrite <- length_pending, Hp1, blocks_rest_length by done. }
  destruct (sha256_update_absorbs c1 b Hw1 (or_introl Hl1)) as (Hw & Hs & Hp & Hc).
  assert (pending c1 = []) as Hp0 by (unfold pending; by rewrite Hl1, take_0).
  assert (blocks H0 (a ++ b) = blocks (state c1) b) as Eb.
  { rewrite blocks_app, <- Hp1, Hp0, app_nil_l. by rewrite Hs1. }
  split_and!; [done| | |].
  - by rewrite Hs, Hp0, Eb.
  - by rewrite Hp, Hp0, Eb.
  - rewrite Hc, (count_after_app _ a b _ Hc1). unfold count_after.
    cbn [bitcount sha256_init]. by rewrite Z.add_0_l, u64_u64.
Qed.

Lemma length_digest_of r : length (digest_of r) = 32%nat.
Proof. done. Qed.

Lemma be32_u8 x : Forall is_u8 (be32 x).
Proof. unfold be32. cbn [fmap list_fmap]. auto with uros. Qed.

Lemma digest_of_u8 r : Forall is_u8 (digest_of r).
Proof. unfold digest_of. rewrite !Forall_app. auto 10 using be32_u8. Qed.

Lemma sha256_final_digest c : ∃ r, sha256_final c = digest_of r.
Proof. unfold sha256_final. destruct (decide _); eexists; reflexivity. Qed.

Lemma hmac_sha256_digest key msg : ∃ r, hmac_sha256 key msg = digest_of r.
Proof. apply sha256_final_digest. Qed.

Lemma length_hmac_sha256 key msg : length (hmac_sha256 key msg) = 32%nat.
Proof. destruct (hmac_sha256_digest key msg) as [r ->]. done. Qed.

Lemma hmac_sha256_u8 key msg : Forall is_u8 (hmac_sha256 key msg).
Proof. destruct (hmac_sha256_digest key msg) as [r ->]. apply digest_of_u8. Qed.

Lemma length_sha256_padded data : length (sha256_padded data) = 32%nat.
Proof. unfold sha256_padded. apply length_digest_of. Qed.

Lemma sha256_correct data : sha256 data = sha256_padded data.
Proof. by apply sha256_with_spec. Qed.

Lemma key_block_spec k :
  (length k <= 64)%nat → write_at 0 k (replicate 64 0) = k ++ replicate (64 - length k) 0.
Proof. intros. unfold write_at. by rewrite take_0, app_nil_l, Nat.add_0_l, drop_replicate. Qed.

(** Streaming is chunk-independent where the buffer discipline allows it:
    after any first update that leaves the buffer empty, or when the second
    update brings at least enough bytes to fill it, hashing in two updates gives
    the digest of the concatenation. *)
Theorem sha256_update_chunks buf0 a b :
  length buf0 = 64%nat →
  (length a `mod` 64 = 0)%nat ∨ (64 <= length a `mod` 64 + length b)%nat →
  sha256_final (sha256_update (sha256_update (sha256_init buf0) a) b) =
  sha256_with buf0 (a ++ b).
Proof.
  intros Hb Hc. apply ctx_wf_init in Hb as Hi.
  assert (H1 := sha256_update_absorbs _ a Hi (or_introl eq_refl)).
  change (pending (sha256_init buf0) ++ a) with a in H1.
  set (c1 := sha256_update _ a) in *. destruct H1 as (Hw1 & Hs1 & Hp1 & Hc1).
  assert (buflen c1 = length a `mod` 64)%nat as Hl1
    by (by rewrite <- length_pending, Hp1, blocks_rest_length by done).
  rewrite <- Hl1 in Hc.
  assert (H2 := sha256_update_absorbs c1 b Hw1 Hc).
  rewrite (count_after_app _ a b _ Hc1) in H2. destruct H2 as (Hw & Hs & Hp & Hcnt).
  apply sha256_final_sim, (absorbed_sim (state (sha256_init buf0))
    (count_after (sha256_init buf0) (length (a ++ b))) (a ++ b)).
  - split_and!; [done|by rewrite Hs, Hp1, Hs1, <- blocks_app
                 |by rewrite Hp, Hp1, Hs1, <- blocks_app|done].
  - apply (sha256_update_absorbs _ (a ++ b) Hi). by left.
Qed.

Lemma sha256_update_chunks_witness :
  sha256_final (sha256_update (sha256_update (sha256_init (replicate 64 0))
    (replicate 60 7)) (replicate 10 9)) =
  sha256_with (replicate 64 0) (replicate 60 7 ++ replicate 10 9).
Proof. apply sha256_update_chunks; [reflexivity|right; vm_compute; lia]. Defined.

(** Where it does not: an update that leaves the buffer partly filled
    ([0 < buflen], [buflen + len < 64]) ends in [ctx->buflen = len] with
    [len == 0], so every byte received so far is dropped.  Two short updates
    therefore give a digest that depends on the lengths of the chunks only, not
    on their contents. *)
Theorem sha256_update_partial_loses_data buf0 a b a' b' :
  length buf0 = 64%nat → (0 < length a)%nat → (length a + length b < 64)%nat →
  length a' = length a → length b' = length b →
  sha256_final (sha256_update (sha256_update (sha256_init buf0) a) b) =
  sha256_final (sha256_update (sha256_update (sha256_init buf0) a') b').
Proof.
  intros Hb Ha Hab Ea Eb. apply ctx_wf_init in Hb as Hi.
  assert (∀ x y, (0 < length x)%nat → (length x + length y < 64)%nat →
    let c := sha256_update (sha256_update (sha256_init buf0) x) y in
    ctx_wf c ∧ state c = H0 ∧ pending c = [] ∧
    bitcount c = count_after (sha256_init buf0) (length (x ++ y))) as Hgen.
  { intros x y Hx Hxy c.
    destruct (sha256_update_absorbs _ x Hi (or_introl eq_refl)) as (Hw & Hs & Hp & Hc).
    change (pending (sha256_init buf0) ++ x) with x in *.
    rewrite blocks_short in Hs, Hp by lia.
    assert (Hl := length_pending _ Hw). rewrite Hp in Hl. cbn [snd] in Hl.
    unfold c. rewrite sha256_update_partial by (done || lia).
    unfold ctx_wf, pending. cbn [state buf buflen bitcount]. destruct Hw as [Hw _].
    rewrite length_write_at, (count_after_app _ x y _ Hc), Hs by (rewrite Hw; lia).
    split_and!; done || lia. }
  destruct (Hgen a b) as (Hw & Hs & Hp & Hc); [done|done|].
  destruct (Hgen a' b') as (Hw' & Hs' & Hp' & Hc'); [lia|lia|].
  apply sha256_final_sim. split_and!; try done; [congruence| |congruence].
  by rewrite Hc, Hc', !length_app, Ea, Eb.
Qed.

Lemma sha256_update_partial_loses_data_witness :
  sha256_final (sha256_update (sha256_update (sha256_init (replicate 64 0)) [97]) [98]) =
  sha256_final (sha256_update (sha256_update (sha256_init (replicate 64 0)) [120]) [121]).
Proof. apply sha256_update_partial_loses_data; simpl; lia. Defined.

(** The known-answer test of FIPS 180-4 for "abc", the one libcap's self-test
    and cap_test use. *)
Example sha256_abc :
  sha256 [97; 98; 99] =
  digest_of (Regs 0xba7816bf 0x8f01cfea 0x414140de 0x5dae2223
                  0xb00361a3 0x96177a9c 0xb410ff61 0xf20015ad).
Proof. vm_compute. reflexivity. Qed.

(** The constant-time comparison is equality of 32-byte strings. *)
Lemma fold_lor_zero (f : nat → Z) l acc :
  fold_left (λ diff i, Z.lor diff (f i)) l acc = 0 ↔ acc = 0 ∧ ∀ i, i ∈ l → f i = 0.
Proof.
  revert acc. induction l as [|i l IH]; intros acc; cbn [fold_left].
  - set_solver.
  - rewrite IH, Z.lor_eq_0_iff. set_solver.
Qed.

Lemma hmac_sha256_equal_spec a b :
  length a = 32%nat → length b = 32%nat →
  hmac_sha256_equal a b = true ↔ a = b.
Proof.
  intros Ha Hb. unfold hmac_sha256_equal.
  rewrite Z.eqb_eq, (fold_lor_zero (λ i, Z.lxor (byte_at a i) (byte_at b i))). split.
  - intros [_ H]. apply list_eq. intros i.
    destruct (decide (i < 32)%nat) as [Hi|Hi].
    + specialize (H i). rewrite elem_of_seq in H. specialize (H ltac:(lia)).
      apply Z.lxor_eq in H. unfold byte_at in H.
      destruct (lookup_lt_is_Some_2 a i) as [x Hx]; [lia|].
      destruct (lookup_lt_is_Some_2 b i) as [y Hy]; [lia|].
      rewrite Hx, Hy in *. simpl in H. congruence.
    + by rewrite !lookup_ge_None_2 by lia.
  - intros ->. split; [done|]. intros i _. apply Z.lxor_nilpotent.
Qed.

End Sha256.
