(* ===== verification/Sha256Fips.v ===== *)
(** * The code of SHA-256 and HMAC against the standards

    [Sha256] (the C code) computes what [Fips180] (FIPS 180-4 and RFC 2104) defines:
    its constants are the roots of the primes, its rotations and shifts the arithmetic
    ones, its schedule and rounds those of the standard, and its streamed, buffered
    hashing that of the padded message cut into blocks. *)

From S2P Require Import Prelude Fips180 Sha256.

Module Sha256Fips.
Import Fips180 Sha256.

(** ** Bits and arithmetic *)

Lemma lor_disjoint a b k : 0 <= k → 0 <= a < 2 ^ k → Z.lor a (b * 2 ^ k) = a + b * 2 ^ k.
Proof.
  intros Hk Ha. pose proof (Z.add_lor_land a (b * 2 ^ k)) as E.
  enough (Z.land a (b * 2 ^ k) = 0) by lia. clear E.
  apply Z.bits_inj'. intros n Hn. rewrite Z.land_spec, Z.bits_0, <- Z.shiftl_mul_pow2 by lia.
  destruct (decide (n < k)) as [Hl|Hl].
  - rewrite Z.shiftl_spec_low by lia. apply andb_false_r.
  - rewrite <- (Z.mod_small a (2 ^ k)), Z.mod_pow2_bits_high by lia. done.
Qed.

Lemma rotr_ROTR x n : is_u32 x → 0 < n < 32 → rotr x n = ROTR n x.
Proof.
  intros Hx Hn. unfold rotr, ROTR, u32. change 4294967296 with (2 ^ 32).
  rewrite Z.shiftr_div_pow2, Z.shiftl_mul_pow2 by lia.
  replace (2 ^ 32) with (2 ^ n * 2 ^ (32 - n)) by (rewrite <- Z.pow_add_r by lia; f_equal; lia).
  rewrite Zmult_mod_distr_r. apply lor_disjoint; [lia|].
  split; [apply Z.div_pos; unfold is_u32 in Hx; lia|].
  apply Z.div_lt_upper_bound; [lia|]. rewrite <- Z.pow_add_r by lia.
  replace (n + (32 - n)) with 32 by lia. unfold is_u32 in Hx. lia.
Qed.

Lemma not_complement x : is_u32 x → u32 (Z.lnot x) = complement x.
Proof.
  intros Hx. unfold u32, complement, Z.lnot. unfold is_u32 in Hx.
  symmetry. apply (Z.mod_unique _ _ (-1)); lia.
Qed.

Lemma sum4 a b c d : a ⊞ b ⊞ c ⊞ d = u32 (a + b + c + d).
Proof. unfold u32. by rewrite (Zplus_mod_idemp_l (a + b)), Zplus_mod_idemp_l. Qed.

Lemma sum5 a b c d e : a ⊞ b ⊞ c ⊞ d ⊞ e = u32 (a + b + c + d + e).
Proof. rewrite (sum4 a b c d). apply u32_add_l. Qed.

(** ** Constants *)

Lemma K_fips : K = K256.
Proof. vm_compute. reflexivity. Qed.

(** The state as the list of the working variables. *)
Definition vars (r : regs) : list Z := [ra r; rb r; rc r; rd r; re r; rf r; rg r; rh r].

Lemma H0_fips : vars H0 = initial_hash.
Proof. vm_compute. reflexivity. Qed.

(** ** The message schedule *)

Lemma block_words_fips n block :
  length block = (4 * n)%nat → Forall is_u8 block →
  block_word block <$> seq 0 n = number_of <$> pieces n 4 block.
Proof.
  revert block. induction n as [|n IH]; intros block Hl Hb; [done|].
  destruct block as [|b0 [|b1 [|b2 [|b3 rest]]]]; simpl in Hl; try lia.
  cbn [seq pieces take drop]. rewrite !fmap_cons. f_equal.
  - rewrite !list.Forall_cons in Hb. unfold is_u8 in Hb.
    unfold block_word, number_of. cbn [foldl].
    change (byte_at _ (4 * 0)) with b0. change (byte_at _ (4 * 0 + 1)) with b1.
    change (byte_at _ (4 * 0 + 2)) with b2. change (byte_at _ (4 * 0 + 3)) with b3.
    rewrite (Z.lor_comm _ b3), (Z.lor_comm _ (Z.shiftl b2 8)).
    rewrite (Z.lor_comm (Z.shiftl b0 24)), !Z.shiftl_mul_pow2 by lia.
    rewrite (lor_disjoint (b1 * 2 ^ 16) b0 24) by lia.
    replace (b1 * 2 ^ 16 + b0 * 2 ^ 24) with ((b1 + b0 * 2 ^ 8) * 2 ^ 16) by lia.
    rewrite lor_disjoint by lia.
    replace (b2 * 2 ^ 8 + (b1 + b0 * 2 ^ 8) * 2 ^ 16)
      with ((b2 + (b1 + b0 * 2 ^ 8) * 2 ^ 8) * 2 ^ 8) by lia.
    rewrite lor_disjoint by lia. rewrite take_0. cbn [foldl]. lia.
  - rewrite drop_0, <- IH by (lia || by (rewrite !list.Forall_cons in Hb; apply Hb)).
    rewrite <- fmap_S_seq, <- list_fmap_compose. apply list_fmap_ext. intros i x _.
    unfold compose, block_word, byte_at.
    replace (4 * S x)%nat with (4 + 4 * x)%nat by lia. done.
Qed.


(** Word [k] before the end, in the list read backwards. *)
Lemma reverse_back (W : list Z) k :
  (0 < k <= length W)%nat → default 0 (reverse W !! (k - 1)%nat) = byte_at W (length W - k).
Proof. intros. unfold byte_at. rewrite reverse_lookup by lia. do 2 f_equal. lia. Qed.

Lemma byte_at_u32 W i : Forall is_u32 W → is_u32 (byte_at W i).
Proof.
  intros HW. unfold byte_at. destruct (W !! i) as [x|] eqn:E; [|by unfold is_u32].
  exact (Forall_lookup_1 _ _ _ _ HW E).
Qed.

Lemma next_word_fips W :
  (16 <= length W)%nat → Forall is_u32 W →
  schedule 1 W = W ++ [next_word (reverse W)].
Proof.
  intros Hl HW. cbn [schedule]. do 2 f_equal. unfold next_word.
  rewrite !reverse_back by lia. unfold sigma0, sigma1, SHR.
  rewrite !rotr_ROTR, !Z.shiftr_div_pow2 by (lia || by apply byte_at_u32).
  rewrite sum4. f_equal. lia.
Qed.

Lemma next_word_u32 w : is_u32 (next_word w).
Proof. unfold next_word, is_u32. apply Z.mod_pos_bound. lia. Qed.

Lemma schedule_S n W : schedule (S n) W = schedule n (schedule 1 W).
Proof. done. Qed.

Lemma schedule_fips n W :
  (16 <= length W)%nat → Forall is_u32 W →
  schedule n W = reverse (Nat.iter n (λ w, next_word w :: w) (reverse W)) ∧
  Forall is_u32 (schedule n W).
Proof.
  revert W. induction n as [|n IH]; intros W Hl HW; [split; [symmetry; apply reverse_involutive|done]|].
  rewrite schedule_S, next_word_fips, Nat.iter_succ_r by done.
  assert (reverse (W ++ [next_word (reverse W)]) = next_word (reverse W) :: reverse W) as E
    by (by rewrite reverse_app).
  rewrite <- E. apply IH; [rewrite length_app; lia|].
  apply Forall_app. split; [done|]. constructor; [apply next_word_u32|done].
Qed.

Lemma number_of_4_u32 l : length l = 4%nat → Forall is_u8 l → is_u32 (number_of l).
Proof.
  intros Hl Hb. destruct l as [|b0 [|b1 [|b2 [|b3 [|]]]]]; simpl in Hl; try lia.
  rewrite !list.Forall_cons in Hb. unfold is_u8 in Hb. unfold number_of, is_u32.
  cbn [foldl]. lia.
Qed.

Lemma block_words_u32 n block :
  length block = (4 * n)%nat → Forall is_u8 block →
  Forall is_u32 (number_of <$> pieces n 4 block).
Proof.
  revert block. induction n as [|n IH]; intros block Hl Hb; [constructor|].
  destruct block as [|b block]; [simpl in Hl; lia|]. cbn [pieces]. rewrite fmap_cons. constructor.
  - apply number_of_4_u32; [rewrite length_take; lia|by apply Forall_take].
  - apply IH; [rewrite length_drop; lia|by apply Forall_drop].
Qed.

(** ** The rounds *)

Lemma round_fips r kw :
  Forall is_u32 (vars r) →
  vars (round r kw) = hash_round (vars r) kw ∧ Forall is_u32 (vars (round r kw)).
Proof.
  destruct r as [a b c d e f g h]. unfold vars. cbn [ra rb rc rd re rf rg rh].
  rewrite !list.Forall_cons. intros (Ha & Hb & Hc & Hd & He & Hf & Hg & Hh & _).
  split.
  - unfold round, hash_round, Sigma0, Sigma1, Ch, Maj. cbn [ra rb rc rd re rf rg rh].
    rewrite <- !not_complement, <- !rotr_ROTR by (done || lia).
    by rewrite !(sum5 h).
  - unfold round. cbn [ra rb rc rd re rf rg rh]. auto 10 with uros.
Qed.

Lemma rounds_fips kws r :
  Forall is_u32 (vars r) →
  vars (fold_left round kws r) = foldl hash_round (vars r) kws ∧
  Forall is_u32 (vars (fold_left round kws r)).
Proof.
  revert r. induction kws as [|kw kws IH]; intros r Hr; [done|]. cbn [fold_left foldl].
  destruct (round_fips r kw Hr) as [<- Hr']. by apply IH.
Qed.

Lemma compress_fips st block :
  length block = 64%nat → Forall is_u8 block → Forall is_u32 (vars st) →
  vars (sha256_compress st block) = hash_block (vars st) block ∧
  Forall is_u32 (vars (sha256_compress st block)).
Proof.
  intros Hl Hb Hs. unfold sha256_compress, hash_block, message_schedule.
  rewrite block_words_fips, <- K_fips by done.
  destruct (schedule_fips 48 (number_of <$> pieces 16 4 block)) as [<- _];
    [by rewrite <- block_words_fips|by apply block_words_u32|].
  destruct (rounds_fips (zip K (schedule 48 (number_of <$> pieces 16 4 block))) st Hs) as [<- _].
  generalize (fold_left round (zip K (schedule 48 (number_of <$> pieces 16 4 block))) st).
  intros r. destruct st, r. unfold vars, add_regs. cbn [ra rb rc rd re rf rg rh zip_with].
  split; [|auto 10 with uros].
  repeat f_equal; unfold u32; f_equal; lia.
Qed.

(** ** Blocks, padding and output *)

Lemma pieces_fuel f n l :
  (0 < n)%nat → (length l <= f)%nat → pieces f n l = pieces (length l) n l.
Proof.
  intros Hn. revert l. induction f as [f IH] using lt_wf_ind. intros l Hf.
  destruct f as [|f]; destruct l as [|x l]; simpl in Hf; try lia; [done|done|].
  cbn [pieces length]. f_equal.
  rewrite (IH f), (IH (length l)); rewrite ?length_drop; simpl; done || lia.
Qed.

Lemma blocks_fips st p :
  (length p `mod` 64 = 0)%nat → Forall is_u8 p → Forall is_u32 (vars st) →
  vars (blocks st p).1 = foldl hash_block (vars st) (pieces (length p) 64 p).
Proof.
  revert st. induction p as [p IH] using (induction_ltof1 _ length). intros st Hm Hp Hs.
  destruct p as [|b p]; [done|]. set (q := b :: p) in *.
  assert (64 <= length q)%nat as Hq.
  { destruct (decide (length q < 64)%nat) as [Hlt|]; [|lia].
    rewrite Nat.mod_small in Hm by done. done. }
  destruct (compress_fips st (take 64 q)) as [E Hs'];
    [rewrite length_take; lia|by apply Forall_take|done|].
  rewrite blocks_step by done.
  change (pieces (length q) 64 q) with (take 64 q :: pieces (length p) 64 (drop 64 q)).
  cbn [foldl]. rewrite <- E, pieces_fuel by (rewrite ?length_drop; simpl; lia).
  apply IH; [unfold ltof; rewrite length_drop; lia| |by apply Forall_drop|done].
  rewrite length_drop. replace (length q) with (length q - 64 + 1 * 64)%nat in Hm by lia.
  by rewrite Nat.Div0.mod_add in Hm.
Qed.

Lemma be32_fips x : be32 x = bytes_of 4 x.
Proof. unfold be32. cbn [fmap list_fmap]. by rewrite !Z.shiftr_div_pow2 by lia. Qed.

Lemma be64_fips x : be64 (u64 x) = bytes_of 8 x.
Proof.
  assert (∀ k, 0 <= k <= 56 → u8 (Z.shiftr (u64 x) k) = (x / 2 ^ k) mod 2 ^ 8) as E.
  { intros k Hk. unfold u8, u64. change 18446744073709551616 with (2 ^ 64).
    change 256 with (2 ^ 8). rewrite Z.shiftr_div_pow2 by lia.
    apply Z.bits_inj'. intros n Hn. destruct (decide (n < 8)).
    - rewrite !Z.mod_pow2_bits_low, !Z.div_pow2_bits, Z.mod_pow2_bits_low by lia. done.
    - by rewrite !Z.mod_pow2_bits_high by lia. }
  unfold be64. cbn [fmap list_fmap]. by rewrite !E by lia.
Qed.

Lemma digest_fips r : digest_of r = vars r ≫= bytes_of 4.
Proof. unfold digest_of. rewrite !be32_fips. cbn. by rewrite ?app_nil_r. Qed.

Lemma pad_zeros_fips n : pad_zeros n = Z.to_nat ((55 - Z.of_nat n) mod 64).
Proof.
  unfold pad_zeros. apply Nat2Z.inj.
  rewrite Z2Nat.id by (apply Z.mod_pos_bound; lia).
  pose proof (Nat.mod_upper_bound n 64 ltac:(lia)).
  rewrite Nat2Z.inj_mod, Nat2Z.inj_sub, Nat2Z.inj_mod by lia.
  Z.to_euclidean_division_equations; lia.
Qed.

Lemma pad_fips msg :
  msg ++ padding (length msg) (u64 (Z.of_nat (length msg) * 8)) = pad msg.
Proof. unfold pad, padding. by rewrite be64_fips, pad_zeros_fips, (Z.mul_comm 8). Qed.

Lemma bytes_of_u8 n x : Forall is_u8 (bytes_of n x).
Proof. induction n; constructor; [apply Z.mod_pos_bound; lia|done]. Qed.

Lemma pad_u8 msg : Forall is_u8 msg → Forall is_u8 (pad msg).
Proof.
  intros Hm. unfold pad. rewrite !Forall_app. split_and!; [done| | |apply bytes_of_u8].
  - by repeat constructor.
  - apply Forall_replicate. by unfold is_u8.
Qed.

Lemma length_pad msg : (length (pad msg) `mod` 64 = 0)%nat.
Proof.
  unfold pad. rewrite !length_app, length_replicate.
  change (length (bytes_of 8 _)) with 8%nat. change (length [128]) with 1%nat.
  apply Nat2Z.inj. rewrite Nat2Z.inj_mod, !Nat2Z.inj_add.
  rewrite Z2Nat.id by (apply Z.mod_pos_bound; lia).
  Z.to_euclidean_division_equations; lia.
Qed.

Lemma H0_u32 : Forall is_u32 (vars H0).
Proof. repeat constructor; done. Qed.

(** The code's padded digest is the standard's. *)
Lemma sha256_padded_fips msg : Forall is_u8 msg → sha256_padded msg = fips_sha256 msg.
Proof.
  intros Hm. unfold sha256_padded, fips_sha256. rewrite digest_fips, pad_fips.
  by rewrite blocks_fips, H0_fips by (apply length_pad || by apply pad_u8 || apply H0_u32).
Qed.

Lemma fips_sha256_u8 msg : Forall is_u8 msg → Forall is_u8 (fips_sha256 msg).
Proof. intros Hm. rewrite <- sha256_padded_fips by done. apply digest_of_u8. Qed.

Lemma length_fips_sha256 msg : Forall is_u8 msg → length (fips_sha256 msg) = 32%nat.
Proof. intros Hm. rewrite <- sha256_padded_fips by done. apply length_sha256_padded. Qed.

Lemma lxor_u8 x y : is_u8 x → is_u8 y → is_u8 (Z.lxor x y).
Proof.
  unfold is_u8. change 256 with (2 ^ 8). intros Hx Hy.
  rewrite <- (Z.mod_small x (2 ^ 8)), <- (Z.mod_small y (2 ^ 8)) by done.
  replace (Z.lxor _ _) with (Z.lxor x y mod 2 ^ 8); [apply Z.mod_pos_bound; lia|].
  apply Z.bits_inj'. intros n Hn. rewrite Z.lxor_spec. destruct (decide (n < 8)).
  - by rewrite !Z.mod_pow2_bits_low, Z.lxor_spec by lia.
  - by rewrite !Z.mod_pow2_bits_high by lia.
Qed.

Lemma xor_key_u8 (k : list Z) c :
  Forall is_u8 k → is_u8 c → Forall is_u8 ((λ b, Z.lxor b c) <$> k).
Proof. intros Hk Hc. apply Forall_fmap. eapply Forall_impl; [|exact Hk]. intros. by apply lxor_u8. Qed.

(** The key block of the code, for a key of any length. *)
Lemma key_block_fips key :
  Forall is_u8 key →
  let k := if decide (64 < length key)%nat then fips_sha256 key else key in
  (if decide (SHA256_BLOCK_SIZE < length key)%nat
   then write_at 0 (sha256 key) (replicate 64 0)
   else write_at 0 key (replicate 64 0)) = k ++ replicate (64 - length k) 0 ∧
  length (k ++ replicate (64 - length k) 0) = 64%nat ∧
  Forall is_u8 (k ++ replicate (64 - length k) 0).
Proof.
  intros Hkey k.
  assert (length k <= 64)%nat as Hk
    by (unfold k; case_decide; [rewrite length_fips_sha256 by done|]; lia).
  split_and!.
  - rewrite <- key_block_spec by done. unfold k. case_decide; case_decide; try done.
    by rewrite sha256_correct, sha256_padded_fips.
  - rewrite length_app, length_replicate. lia.
  - apply Forall_app. split; [unfold k; case_decide; [by apply fips_sha256_u8|done]|].
    apply Forall_replicate. by unfold is_u8.
Qed.

(** C29. HMAC-SHA256 as the kernel and libcap compute it ([hmac_sha256]: two hashes
    streamed through the 64-byte buffer of [sha256_update] and [sha256_final], rounds
    over 32-bit words, tables of constants) is HMAC of RFC 2104 over SHA-256 of
    FIPS 180-4, defined independently in [Fips180], for every key and every message of
    bytes, keys longer than a block included. *)
Theorem hmac_sha256_refines key msg :
  Forall is_u8 key → Forall is_u8 msg → hmac_sha256 key msg = rfc2104_hmac key msg.
Proof.
  intros Hkey Hmsg. unfold hmac_sha256, rfc2104_hmac.
  destruct (key_block_fips key Hkey) as (-> & Hl & Hk).
  set (k := _ ++ replicate _ 0) in *.
  assert (∀ c, (length ((λ b, Z.lxor b c) <$> k) `mod` 64 = 0)%nat) as Hm
    by (intros; by rewrite length_fmap, Hl).
  rewrite !sha256_two_updates by apply Hm.
  assert (Forall is_u8 (((λ b, Z.lxor b 54) <$> k) ++ msg))
    by (apply Forall_app; split; [by apply xor_key_u8|done]).
  rewrite !sha256_padded_fips; try done. apply Forall_app.
  split; [by apply xor_key_u8|by apply digest_of_u8].
Qed.

Lemma hmac_sha256_refines_witness :
  hmac_sha256 [11] [72; 105] = rfc2104_hmac [11] [72; 105] ∧
  hmac_sha256 (replicate 70 7) [1] = rfc2104_hmac (replicate 70 7) [1].
Proof.
  split; apply hmac_sha256_refines; try (apply Forall_replicate);
    repeat constructor; vm_compute; try done.
Defined.
End Sha256Fips.
