(* ===== verification/ProcTable.v ===== *)
(** * proc_server: the pid table

    [proc_server/proc_main.c] keeps the POSIX process model in a fixed table of
    [PROC_MAX_TASKS] slots.  This file has the table, the lookups and the view of
    the table as a finite map from pids to processes, in which the handlers of
    [ProcLife], [ProcSignal], [ProcSession] and [ProcFs] are specified.

    [pid_lock] is not modelled: the server has one thread, the message loop, so
    a handler runs to completion before the next one starts.  Re-lookups after
    an unlock/lock pair are kept where the code has them. *)

From S2P Require Import Prelude Mach.

Definition PROC_PID_NONE : Z := 0.
Definition PROC_PID_INIT : Z := 1.
Definition PROC_MAX_TASKS : nat := 256.
Definition PROC_CMDLINE_MAX : nat := 128.
Definition PROC_STATE_RUNNING : Z := 82.  (** 'R' *)
Definition PROC_STATE_ZOMBIE : Z := 90.   (** 'Z' *)

Definition PROC_OK : Z := 0.
Definition PROC_ERR_INVAL : Z := -1.
Definition PROC_ERR_NO_SLOT : Z := -2.
Definition PROC_ERR_NOT_FOUND : Z := -3.
Definition PROC_ERR_KERNEL : Z := -4.
Definition PROC_ERR_NO_SIGPORT : Z := -6.
Definition PROC_ERR_BAD_SIGNO : Z := -7.
Definition PROC_ERR_PERM : Z := -8.
Definition PROC_ERR_DIFF_SESS : Z := -9.
Definition PROC_ERR_NO_CTTY : Z := -10.
Definition PROC_ERR_NO_CHILD : Z := -11.

Definition PROC_SIGKILL : Z := 9.
Definition PROC_SIGTERM : Z := 15.
Definition PROC_SIGCHLD : Z := 17.
Definition PROC_SIGCONT : Z := 18.
Definition PROC_SIGSTOP : Z := 19.
Definition PROC_SIGTSTP : Z := 20.
Definition PROC_SIGTTIN : Z := 21.
Definition PROC_SIGTTOU : Z := 22.
Definition PROC_NSIG : Z := 32.

(** [proc_rusage_t]. *)
Record proc_rusage := Rusage {
  utime_sec : Z; utime_usec : Z; stime_sec : Z; stime_usec : Z;
  maxrss_kb : Z; virtual_kb : Z; minflt : Z; majflt : Z; msgsnd : Z; msgrcv : Z }.

Definition rusage_zero : proc_rusage := Rusage 0 0 0 0 0 0 0 0 0 0.

(** [struct pid_entry]. *)
Record pid_entry := Entry {
  in_use : bool;  (** [int], used as a flag *)
  pid : Z;
  ppid : Z;
  pgrp_id : Z;  (** POSIX process group *)
  sid : Z;  (** POSIX session id *)
  ctty_port : port;  (** leader only: send right to the tty *)
  fg_pgrp_id : Z;  (** leader only: foreground group *)
  stopped : bool;  (** suspended by the server *)
  task_port : port;
  cmdline : list Z;  (** bytes before the NUL *)
  state : Z;  (** PROC_STATE_* *)
  exit_code : Z;
  exit_notify : port;  (** send-once right of the waiter *)
  signal_port : port;
  last_rusage : proc_rusage;
  stat_handle_in_use : bool;
  stat_handle_id : Z;
  stat_offset : Z }.

(** [memset(e, 0, sizeof *e)]. *)
Definition entry_zero : pid_entry :=
  Entry false 0 0 0 0 MACH_PORT_NULL 0 false MACH_PORT_NULL [] 0 0 MACH_PORT_NULL MACH_PORT_NULL rusage_zero false 0 0.

(** Field assignments [e->f = v]. *)
Definition set_in_use (v : bool) (e : pid_entry) : pid_entry :=
  Entry v (pid e) (ppid e) (pgrp_id e) (sid e) (ctty_port e) (fg_pgrp_id e) (stopped e) (task_port e)
    (cmdline e) (state e) (exit_code e) (exit_notify e) (signal_port e) (last_rusage e) (stat_handle_in_use e) (stat_handle_id e) (stat_offset e).
Definition set_pid (v : Z) (e : pid_entry) : pid_entry :=
  Entry (in_use e) v (ppid e) (pgrp_id e) (sid e) (ctty_port e) (fg_pgrp_id e) (stopped e) (task_port e)
    (cmdline e) (state e) (exit_code e) (exit_notify e) (signal_port e) (last_rusage e) (stat_handle_in_use e) (stat_handle_id e) (stat_offset e).
Definition set_ppid (v : Z) (e : pid_entry) : pid_entry :=
  Entry (in_use e) (pid e) v (pgrp_id e) (sid e) (ctty_port e) (fg_pgrp_id e) (stopped e) (task_port e)
    (cmdline e) (state e) (exit_code e) (exit_notify e) (signal_port e) (last_rusage e) (stat_handle_in_use e) (stat_handle_id e) (stat_offset e).
Definition set_pgrp_id (v : Z) (e : pid_entry) : pid_entry :=
  Entry (in_use e) (pid e) (ppid e) v (sid e) (ctty_port e) (fg_pgrp_id e) (stopped e) (task_port e)
    (cmdline e) (state e) (exit_code e) (exit_notify e) (signal_port e) (last_rusage e) (stat_handle_in_use e) (stat_handle_id e) (stat_offset e).
Definition set_sid (v : Z) (e : pid_entry) : pid_entry :=
  Entry (in_use e) (pid e) (ppid e) (pgrp_id e) v (ctty_port e) (fg_pgrp_id e) (stopped e) (task_port e)
    (cmdline e) (state e) (exit_code e) (exit_notify e) (signal_port e) (last_rusage e) (stat_handle_in_use e) (stat_handle_id e) (stat_offset e).
Definition set_ctty_port (v : port) (e : pid_entry) : pid_entry :=
  Entry (in_use e) (pid e) (ppid e) (pgrp_id e) (sid e) v (fg_pgrp_id e) (stopped e) (task_port e)
    (cmdline e) (state e) (exit_code e) (exit_notify e) (signal_port e) (last_rusage e) (stat_handle_in_use e) (stat_handle_id e) (stat_offset e).
Definition set_fg_pgrp_id (v : Z) (e : pid_entry) : pid_entry :=
  Entry (in_use e) (pid e) (ppid e) (pgrp_id e) (sid e) (ctty_port e) v (stopped e) (task_port e)
    (cmdline e) (state e) (exit_code e) (exit_notify e) (signal_port e) (last_rusage e) (stat_handle_in_use e) (stat_handle_id e) (stat_offset e).
Definition set_stopped (v : bool) (e : pid_entry) : pid_entry :=
  Entry (in_use e) (pid e) (ppid e) (pgrp_id e) (sid e) (ctty_port e) (fg_pgrp_id e) v (task_port e)
    (cmdline e) (state e) (exit_code e) (exit_notify e) (signal_port e) (last_rusage e) (stat_handle_in_use e) (stat_handle_id e) (stat_offset e).
Definition set_task_port (v : port) (e : pid_entry) : pid_entry :=
  Entry (in_use e) (pid e) (ppid e) (pgrp_id e) (sid e) (ctty_port e) (fg_pgrp_id e) (stopped e) v
    (cmdline e) (state e) (exit_code e) (exit_notify e) (signal_port e) (last_rusage e) (stat_handle_in_use e) (stat_handle_id e) (stat_offset e).
Definition set_cmdline (v : list Z) (e : pid_entry) : pid_entry :=
  Entry (in_use e) (pid e) (ppid e) (pgrp_id e) (sid e) (ctty_port e) (fg_pgrp_id e) (stopped e) (task_port e)
    v (state e) (exit_code e) (exit_notify e) (signal_port e) (last_rusage e) (stat_handle_in_use e) (stat_handle_id e) (stat_offset e).
Definition set_state (v : Z) (e : pid_entry) : pid_entry :=
  Entry (in_use e) (pid e) (ppid e) (pgrp_id e) (sid e) (ctty_port e) (fg_pgrp_id e) (stopped e) (task_port e)
    (cmdline e) v (exit_code e) (exit_notify e) (signal_port e) (last_rusage e) (stat_handle_in_use e) (stat_handle_id e) (stat_offset e).
Definition set_exit_code (v : Z) (e : pid_entry) : pid_entry :=
  Entry (in_use e) (pid e) (ppid e) (pgrp_id e) (sid e) (ctty_port e) (fg_pgrp_id e) (stopped e) (task_port e)
    (cmdline e) (state e) v (exit_notify e) (signal_port e) (last_rusage e) (stat_handle_in_use e) (stat_handle_id e) (stat_offset e).
Definition set_exit_notify (v : port) (e : pid_entry) : pid_entry :=
  Entry (in_use e) (pid e) (ppid e) (pgrp_id e) (sid e) (ctty_port e) (fg_pgrp_id e) (stopped e) (task_port e)
    (cmdline e) (state e) (exit_code e) v (signal_port e) (last_rusage e) (stat_handle_in_use e) (stat_handle_id e) (stat_offset e).
Definition set_signal_port (v : port) (e : pid_entry) : pid_entry :=
  Entry (in_use e) (pid e) (ppid e) (pgrp_id e) (sid e) (ctty_port e) (fg_pgrp_id e) (stopped e) (task_port e)
    (cmdline e) (state e) (exit_code e) (exit_notify e) v (last_rusage e) (stat_handle_in_use e) (stat_handle_id e) (stat_offset e).
Definition set_last_rusage (v : proc_rusage) (e : pid_entry) : pid_entry :=
  Entry (in_use e) (pid e) (ppid e) (pgrp_id e) (sid e) (ctty_port e) (fg_pgrp_id e) (stopped e) (task_port e)
    (cmdline e) (state e) (exit_code e) (exit_notify e) (signal_port e) v (stat_handle_in_use e) (stat_handle_id e) (stat_offset e).
Definition set_stat_handle_in_use (v : bool) (e : pid_entry) : pid_entry :=
  Entry (in_use e) (pid e) (ppid e) (pgrp_id e) (sid e) (ctty_port e) (fg_pgrp_id e) (stopped e) (task_port e)
    (cmdline e) (state e) (exit_code e) (exit_notify e) (signal_port e) (last_rusage e) v (stat_handle_id e) (stat_offset e).
Definition set_stat_handle_id (v : Z) (e : pid_entry) : pid_entry :=
  Entry (in_use e) (pid e) (ppid e) (pgrp_id e) (sid e) (ctty_port e) (fg_pgrp_id e) (stopped e) (task_port e)
    (cmdline e) (state e) (exit_code e) (exit_notify e) (signal_port e) (last_rusage e) (stat_handle_in_use e) v (stat_offset e).
Definition set_stat_offset (v : Z) (e : pid_entry) : pid_entry :=
  Entry (in_use e) (pid e) (ppid e) (pgrp_id e) (sid e) (ctty_port e) (fg_pgrp_id e) (stopped e) (task_port e)
    (cmdline e) (state e) (exit_code e) (exit_notify e) (signal_port e) (last_rusage e) (stat_handle_in_use e) (stat_handle_id e) v.

(** The server's globals. *)
Record proc_state := ProcState {
  pid_table : list pid_entry;
  next_pid : Z;
  next_stat_handle : Z;
  notify_port : port }.

Definition set_table (t : list pid_entry) (s : proc_state) : proc_state :=
  ProcState t (next_pid s) (next_stat_handle s) (notify_port s).

(** The state after bring-up. *)
Definition proc_init (notify : port) : proc_state :=
  ProcState (replicate PROC_MAX_TASKS entry_zero) (PROC_PID_INIT + 1) 1 notify.

(** ** Lookups *)

Definition is_pid (p : Z) (e : pid_entry) : Prop := in_use e = true ∧ pid e = p.
Definition is_task (task : port) (e : pid_entry) : Prop := in_use e = true ∧ task_port e = task.
#[global] Instance is_pid_dec p e : Decision (is_pid p e).
Proof. unfold is_pid. apply _. Defined.
#[global] Instance is_task_dec p e : Decision (is_task p e).
Proof. unfold is_task. apply _. Defined.

(** The pointer a lookup returns is the index of the slot. *)
Definition find_by_pid_locked (p : Z) (s : proc_state) : option nat :=
  find_slot (is_pid p) (pid_table s).

Definition find_by_task_locked (task : port) (s : proc_state) : option nat :=
  find_slot (is_task task) (pid_table s).

(** [*e] for a pointer the lookups returned. *)
Definition entry_at (s : proc_state) (i : nat) : pid_entry :=
  default entry_zero (pid_table s !! i).

(** [e->... = ...] through such a pointer. *)
Definition update_at (i : nat) (f : pid_entry → pid_entry) (s : proc_state) : proc_state :=
  set_table (<[i := f (entry_at s i)]> (pid_table s)) s.

Definition find_session_leader_locked (session : Z) (s : proc_state) : option nat :=
  if decide (session = 0) then None
  else match find_by_pid_locked session s with
       | Some i => if decide (sid (entry_at s i) = session) then Some i else None
       | None => None
       end.

(** ** The table as a finite map

    What the table means: the processes by pid.  It is well defined because no
    two slots in use carry the same pid. *)

Fixpoint procs_of (t : list pid_entry) : gmap Z pid_entry :=
  match t with
  | [] => ∅
  | e :: t => if in_use e then <[pid e := e]> (procs_of t) else procs_of t
  end.

Definition procs (s : proc_state) : gmap Z pid_entry := procs_of (pid_table s).

(** No two slots with the property [P] agree on [key]. *)
Definition inj_on {B} (P : pid_entry → Prop) (key : pid_entry → B) (t : list pid_entry) : Prop :=
  ∀ i j e e', t !! i = Some e → t !! j = Some e' → P e → P e' → key e = key e' → i = j.

Definition used (e : pid_entry) : Prop := in_use e = true.
Definition open_stat (e : pid_entry) : Prop := in_use e = true ∧ stat_handle_in_use e = true.

(** A slot: free and zeroed, or in use with a pid and a handle id the counters
    have passed, in one of the two states, and a zombie without waiter. *)
Definition entry_ok (np nh : Z) (e : pid_entry) : Prop :=
  (in_use e = false → e = entry_zero) ∧
  (in_use e = true →
    PROC_PID_INIT < pid e < np ∧
    (state e = PROC_STATE_RUNNING ∨ state e = PROC_STATE_ZOMBIE) ∧
    (state e = PROC_STATE_ZOMBIE → exit_notify e = MACH_PORT_NULL) ∧
    (stat_handle_in_use e = true → 0 < stat_handle_id e < nh)).

Record proc_inv (s : proc_state) : Prop := {
  inv_length : length (pid_table s) = PROC_MAX_TASKS;
  inv_next : PROC_PID_INIT < next_pid s;
  inv_handle : 0 < next_stat_handle s;
  inv_entry : ∀ i e, pid_table s !! i = Some e →
                entry_ok (next_pid s) (next_stat_handle s) e;
  inv_pids : inj_on used pid (pid_table s);
  inv_handles : inj_on open_stat stat_handle_id (pid_table s) }.

Lemma proc_init_inv notify : proc_inv (proc_init notify).
Proof.
  assert (∀ i e, replicate PROC_MAX_TASKS entry_zero !! i = Some e → e = entry_zero) as Hz.
  { intros i e. rewrite lookup_replicate. by intros [-> _]. }
  split; simpl; try done.
  - intros i e ->%Hz. done.
  - intros i j e e' ->%Hz _ Hu. done.
  - intros i j e e' ->%Hz _ [Hu _]. done.
Qed.

Lemma inj_on_tail {B} P (key : pid_entry → B) e t : inj_on P key (e :: t) → inj_on P key t.
Proof. intros H i j a b Hi Hj Ha Hb Hab. specialize (H (S i) (S j) a b). naive_solver lia. Qed.

Lemma procs_of_lookup t p e :
  inj_on used pid t →
  procs_of t !! p = Some e ↔ ∃ i, t !! i = Some e ∧ is_pid p e.
Proof.
  induction t as [|e0 t IH]; intros Hinj.
  { split; [done|]. by intros (i & Hi & _). }
  specialize (IH (inj_on_tail _ _ _ _ Hinj)). simpl.
  assert (∀ i, (e0 :: t) !! S i = t !! i) as HS by done.
  destruct (in_use e0) eqn:Hu.
  - destruct (decide (pid e0 = p)) as [Hp|Hp].
    + subst p. rewrite lookup_insert_eq. split.
      * intros [= <-]. exists 0%nat. done.
      * intros ([|i] & Hi & Hpe & Hpid); [done|]. exfalso.
        specialize (Hinj 0%nat (S i) e0 e eq_refl Hi Hu Hpe (eq_sym Hpid)). done.
    + rewrite lookup_insert_ne by done. rewrite IH. split.
      * intros (i & Hi). by exists (S i).
      * intros ([|i] & Hi & Hpe); [|by exists i].
        destruct Hpe. simpl in Hi. congruence.
  - rewrite IH. split.
    + intros (i & Hi). by exists (S i).
    + intros ([|i] & Hi & Hpe); [|by exists i].
      destruct Hpe. simpl in Hi. congruence.
Qed.

(** Writing a slot. *)
Lemma inj_on_insert {B} P (key : pid_entry → B) t i e' :
  inj_on P key t →
  (P e' → ∀ j e, t !! j = Some e → P e → key e = key e' → j = i) →
  inj_on P key (<[i := e']> t).
Proof.
  intros Hinj Hnew a b x y Ha Hb Hx Hy Hxy.
  apply insert_lookup_inv in Ha as [(-> & -> & _)|[Hna Ha]];
    apply insert_lookup_inv in Hb as [(-> & -> & _)|[Hnb Hb]]; eauto.
  symmetry. eauto.
Qed.

Section update.
Context (s : proc_state) (i : nat) (e : pid_entry).
Context (Hinv : proc_inv s) (Hi : pid_table s !! i = Some e).

Lemma entry_at_lookup : entry_at s i = e.
Proof. unfold entry_at. by rewrite Hi. Qed.

Lemma update_at_unfold f : update_at i f s = set_table (<[i := f e]> (pid_table s)) s.
Proof. unfold update_at. by rewrite entry_at_lookup. Qed.

Lemma update_at_twice f g : update_at i g (update_at i f s) = update_at i (g ∘ f) s.
Proof.
  rewrite !update_at_unfold. unfold update_at, set_table, entry_at.
  cbn [pid_table next_pid next_stat_handle notify_port].
  rewrite list_lookup_insert_eq by (by eapply lookup_lt_Some).
  simpl. by rewrite list_insert_insert_eq.
Qed.

(** A write to a slot in use that keeps its pid, and opens no stat handle. *)
Lemma proc_inv_update f :
  in_use e = true → in_use (f e) = true → pid (f e) = pid e →
  (stat_handle_in_use (f e) = true →
     stat_handle_in_use e = true ∧ stat_handle_id (f e) = stat_handle_id e) →
  (state (f e) = PROC_STATE_RUNNING ∨ state (f e) = PROC_STATE_ZOMBIE) →
  (state (f e) = PROC_STATE_ZOMBIE → exit_notify (f e) = MACH_PORT_NULL) →
  proc_inv (update_at i f s).
Proof.
  intros Hu Hu' Hp Hh Hst Hz. rewrite update_at_unfold.
  destruct Hinv as [Hlen Hn Hnh Hent Hpids Hhs].
  split; cbn [set_table pid_table next_pid next_stat_handle].
  - by rewrite length_insert.
  - done.
  - done.
  - intros j x Hx. apply insert_lookup_inv in Hx as [(<- & <- & _)|[_ Hx]]; [|eauto].
    destruct (Hent i e Hi) as [_ H]. specialize (H Hu) as (H1 & _ & _ & H4).
    split; [congruence|]. intros _. rewrite Hp. split_and!; [lia|lia|done|done|].
    intros Hs. destruct (Hh Hs) as [Hs' ->]. auto.
  - apply inj_on_insert; [done|]. intros _ j x Hx Hxu Hk.
    apply (Hpids j i x e Hx Hi Hxu Hu). congruence.
  - apply inj_on_insert; [done|]. intros [_ Hs] j x Hx Hxo Hk.
    destruct (Hh Hs) as [Hs' Hid].
    apply (Hhs j i x e Hx Hi Hxo); [by split|congruence].
Qed.

(** Freeing a slot. *)
Lemma proc_inv_clear : proc_inv (update_at i (λ _, entry_zero) s).
Proof.
  rewrite update_at_unfold. destruct Hinv as [Hlen Hn Hnh Hent Hpids Hhs].
  split; cbn [set_table pid_table next_pid next_stat_handle]; try done.
  - by rewrite length_insert.
  - intros j x Hx. apply insert_lookup_inv in Hx as [(<- & <- & _)|[_ Hx]]; [done|eauto].
  - apply inj_on_insert; [done|]. done.
  - apply inj_on_insert; [done|]. by intros [??].
Qed.

Lemma procs_update f :
  in_use e = true → in_use (f e) = true → pid (f e) = pid e →
  procs (update_at i f s) = <[pid e := f e]> (procs s).
Proof.
  intros Hu Hu' Hp. destruct Hinv as [_ _ _ _ Hpids _].
  assert (inj_on used pid (<[i := f e]> (pid_table s))) as Hinj'.
  { apply inj_on_insert; [done|]. intros _ j x Hx Hxu Hk.
    apply (Hpids j i x e Hx Hi Hxu Hu). congruence. }
  rewrite update_at_unfold. unfold procs. cbn [set_table pid_table].
  apply map_eq. intros q. apply option_eq. intros x.
  rewrite procs_of_lookup by done.
  destruct (decide (q = pid e)) as [->|Hq].
  - rewrite lookup_insert_eq. split.
    + intros (j & Hj & Hxu & Hxp).
      apply insert_lookup_inv in Hj as [(<- & <- & _)|[Hne Hj]]; [done|].
      exfalso. apply Hne. symmetry. by apply (Hpids j i x e).
    + intros [= <-]. exists i. rewrite list_lookup_insert_eq by (by eapply lookup_lt_Some).
      done.
  - rewrite lookup_insert_ne by done. rewrite procs_of_lookup by done. split.
    + intros (j & Hj & Hxu & Hxp).
      apply insert_lookup_inv in Hj as [(<- & <- & _)|[Hne Hj]]; [congruence|].
      exists j. done.
    + intros (j & Hj & Hxu & Hxp). exists j. rewrite list_lookup_insert_ne; [done|].
      intros <-. congruence.
Qed.

Lemma procs_clear :
  in_use e = true → procs (update_at i (λ _, entry_zero) s) = delete (pid e) (procs s).
Proof.
  intros Hu. pose proof (inv_pids _ Hinv) as Hpids.
  pose proof (inv_pids _ proc_inv_clear) as Hinj'.
  rewrite update_at_unfold in *. unfold procs. cbn [set_table pid_table] in *.
  apply map_eq. intros q. apply option_eq. intros x.
  rewrite procs_of_lookup, lookup_delete_Some, procs_of_lookup by done. split.
  - intros (j & Hj & Hxu & Hxp).
    apply insert_lookup_inv in Hj as [(<- & <- & _)|[Hne Hj]]; [done|].
    split; [|by exists j]. intros <-. apply Hne. symmetry. by apply (Hpids j i x e).
  - intros (Hq & j & Hj & Hxu & Hxp). exists j. rewrite list_lookup_insert_ne; [done|].
    intros <-. congruence.
Qed.
End update.

(** The lookups, on the map. *)
Lemma find_by_pid_Some s p i :
  proc_inv s → find_by_pid_locked p s = Some i →
  ∃ e, pid_table s !! i = Some e ∧ entry_at s i = e ∧ in_use e = true ∧ pid e = p ∧
       procs s !! p = Some e.
Proof.
  intros Hinv Hf. apply find_slot_Some in Hf as (e & Hi & [Hu Hp] & _).
  exists e. split_and!; [done|by apply entry_at_lookup|done|done|].
  apply procs_of_lookup; [by apply inv_pids|]. by exists i.
Qed.

Lemma find_by_pid_None s p :
  proc_inv s → find_by_pid_locked p s = None → procs s !! p = None.
Proof.
  intros Hinv Hf. unfold find_by_pid_locked in Hf. rewrite find_slot_None in Hf.
  apply eq_None_not_Some. intros [e He].
  apply procs_of_lookup in He as (i & Hi & Hp); [|by apply inv_pids]. by eapply Hf.
Qed.

(** A process of the map is found, at the one slot that holds it. *)
Lemma procs_find s p e :
  proc_inv s → procs s !! p = Some e →
  ∃ i, find_by_pid_locked p s = Some i ∧ pid_table s !! i = Some e ∧ entry_at s i = e ∧
       in_use e = true ∧ pid e = p.
Proof.
  intros Hinv He. pose proof He as He'.
  apply procs_of_lookup in He' as (j & Hj & Hp); [|by apply inv_pids].
  destruct (find_slot_is_Some (is_pid p) (pid_table s) j e) as [i Hi]; [done..|].
  destruct (find_by_pid_Some s p i Hinv Hi) as (e' & H1 & H2 & H3 & H4 & H5).
  exists i. simplify_eq. done.
Qed.

Lemma procs_find_None s p :
  procs s !! p = None → proc_inv s → find_by_pid_locked p s = None.
Proof.
  intros Hp Hinv. destruct (find_by_pid_locked p s) eqn:E; [|done].
  destruct (find_by_pid_Some _ _ _ Hinv E) as (e & _ & _ & _ & _ & H). congruence.
Qed.

Lemma procs_pid s p e : proc_inv s → procs s !! p = Some e → pid e = p ∧ in_use e = true.
Proof. intros Hinv He. destruct (procs_find s p e Hinv He) as (i & ? & ? & ? & ? & ?). done. Qed.

Lemma procs_bound s p e : proc_inv s → procs s !! p = Some e → PROC_PID_INIT < p < next_pid s.
Proof.
  intros Hinv He. destruct (procs_find s p e Hinv He) as (i & _ & Hi & _ & Hu & <-).
  by destruct (inv_entry _ Hinv i e Hi) as [_ H]; destruct (H Hu).
Qed.

(** ** Writes addressed by pid *)

Definition update_pid (p : Z) (f : pid_entry → pid_entry) (s : proc_state) : proc_state :=
  match find_by_pid_locked p s with
  | Some i => update_at i f s
  | None => s
  end.

Definition clear_pid (p : Z) : proc_state → proc_state := update_pid p (λ _, entry_zero).

Lemma next_pid_update_pid p f s : next_pid (update_pid p f s) = next_pid s.
Proof. unfold update_pid. by destruct (find_by_pid_locked p s). Qed.
Lemma notify_port_update_pid p f s : notify_port (update_pid p f s) = notify_port s.
Proof. unfold update_pid. by destruct (find_by_pid_locked p s). Qed.
Lemma next_handle_update_pid p f s : next_stat_handle (update_pid p f s) = next_stat_handle s.
Proof. unfold update_pid. by destruct (find_by_pid_locked p s). Qed.

(** What a write must respect to be transparent for the invariant. *)
Record keeps_entry (f : pid_entry → pid_entry) (e : pid_entry) : Prop := {
  keeps_use : in_use (f e) = in_use e;
  keeps_pid : pid (f e) = pid e;
  keeps_open : stat_handle_in_use (f e) = true →
                 stat_handle_in_use e = true ∧ stat_handle_id (f e) = stat_handle_id e;
  keeps_state : state e = PROC_STATE_RUNNING ∨ state e = PROC_STATE_ZOMBIE →
                (state e = PROC_STATE_ZOMBIE → exit_notify e = MACH_PORT_NULL) →
                (state (f e) = PROC_STATE_RUNNING ∨ state (f e) = PROC_STATE_ZOMBIE) ∧
                (state (f e) = PROC_STATE_ZOMBIE → exit_notify (f e) = MACH_PORT_NULL) }.

Section by_pid.
Context (s : proc_state) (p : Z) (e : pid_entry).
Context (Hinv : proc_inv s) (He : procs s !! p = Some e).

Lemma procs_update_pid f :
  in_use (f e) = in_use e → pid (f e) = pid e →
  procs (update_pid p f s) = <[p := f e]> (procs s).
Proof.
  intros Hu Hp. unfold update_pid.
  destruct (procs_find s p e Hinv He) as (i & -> & Hi & _ & He1 & <-).
  apply procs_update; congruence.
Qed.

Lemma procs_clear_pid : procs (clear_pid p s) = delete p (procs s).
Proof.
  unfold clear_pid, update_pid.
  destruct (procs_find s p e Hinv He) as (i & -> & Hi & _ & He1 & <-).
  by apply procs_clear.
Qed.

Lemma proc_inv_update_pid f : keeps_entry f e → proc_inv (update_pid p f s).
Proof.
  intros [Hu Hp Ho Hs]. unfold update_pid.
  destruct (procs_find s p e Hinv He) as (i & -> & Hi & _ & He1 & <-).
  destruct (inv_entry _ Hinv i e Hi) as [_ H].
  destruct (H He1) as (_ & Hst & Hz & _). destruct (Hs Hst Hz).
  eapply proc_inv_update; eauto; congruence.
Qed.

Lemma proc_inv_clear_pid : proc_inv (clear_pid p s).
Proof.
  unfold clear_pid, update_pid.
  destruct (procs_find s p e Hinv He) as (i & -> & Hi & _ & He1 & <-).
  by eapply proc_inv_clear.
Qed.

Lemma find_update_pid f q :
  in_use (f e) = in_use e → pid (f e) = pid e →
  find_by_pid_locked q (update_pid p f s) = find_by_pid_locked q s.
Proof.
  intros Hu Hp. unfold update_pid.
  destruct (procs_find s p e Hinv He) as (i & -> & Hi & _ & He1 & Hpe).
  rewrite (update_at_unfold s i e Hi). unfold find_by_pid_locked. cbn [pid_table set_table].
  eapply find_slot_insert_same; [done|]. unfold is_pid. by rewrite Hu, Hp.
Qed.

(** Two writes through the same pid are one. *)
Lemma update_pid_twice f g :
  in_use (f e) = in_use e → pid (f e) = pid e →
  update_pid p g (update_pid p f s) = update_pid p (g ∘ f) s.
Proof.
  intros Hu Hp. pose proof (find_update_pid f p Hu Hp) as Hf.
  unfold update_pid in Hf |- *.
  destruct (procs_find s p e Hinv He) as (i & HS & Hi & _ & He1 & Hpe).
  rewrite HS in *. rewrite Hf. by eapply update_at_twice.
Qed.
End by_pid.

(** A write may be replaced by one that agrees on the entry written. *)
Lemma update_pid_ext p f g s :
  (∀ i, find_by_pid_locked p s = Some i → f (entry_at s i) = g (entry_at s i)) →
  update_pid p f s = update_pid p g s.
Proof.
  intros H. unfold update_pid. destruct (find_by_pid_locked p s) as [i|]; [|done].
  unfold update_at. by rewrite (H i).
Qed.

(** The task lookup returns the slot of some process that holds the port. *)
Lemma find_by_task_Some s task i :
  proc_inv s → find_by_task_locked task s = Some i →
  ∃ e, procs s !! pid e = Some e ∧ task_port e = task ∧
       find_by_pid_locked (pid e) s = Some i ∧ entry_at s i = e.
Proof.
  intros Hinv Hf. apply find_slot_Some in Hf as (e & Hi & [Hu Ht] & _).
  exists e. assert (procs s !! pid e = Some e) as He.
  { apply procs_of_lookup; [by apply inv_pids|]. by exists i. }
  split_and!; [done|done| |by apply entry_at_lookup].
  eapply find_slot_unique; [done|done|].
  intros j y Hj [Hy Hpy]. by apply (inv_pids _ Hinv j i y e).
Qed.

Lemma find_by_task_None s task :
  proc_inv s → find_by_task_locked task s = None →
  ∀ p e, procs s !! p = Some e → task_port e ≠ task.
Proof.
  intros Hinv Hf p e He Ht. unfold find_by_task_locked in Hf. rewrite find_slot_None in Hf.
  destruct (procs_find s p e Hinv He) as (i & _ & Hi & _ & Hu & _). by eapply Hf.
Qed.

(** A process that is the only holder of its task port is the one found. *)
Lemma find_by_task_sole s p e task :
  proc_inv s → procs s !! p = Some e → task_port e = task →
  (∀ q e', procs s !! q = Some e' → task_port e' = task → q = p) →
  find_by_task_locked task s = find_by_pid_locked p s.
Proof.
  intros Hinv He Ht Hsole.
  destruct (procs_find s p e Hinv He) as (i & Hf & Hi & _ & Hu & Hpe). rewrite Hf.
  eapply find_slot_unique; [done|done|]. intros j y Hj [Hy Hty].
  assert (procs s !! pid y = Some y) as Hy'.
  { apply procs_of_lookup; [by apply inv_pids|]. by exists j. }
  apply (inv_pids _ Hinv j i y e); [done..|]. specialize (Hsole _ _ Hy' Hty). congruence.
Qed.

(** The number of processes is the number of slots in use. *)
Lemma size_procs_of t :
  inj_on used pid t → size (procs_of t) = length (filter used t).
Proof.
  induction t as [|e t IH]; intros Hinj; [done|]. simpl.
  specialize (IH (inj_on_tail _ _ _ _ Hinj)). rewrite filter_cons.
  case_decide as Hu; unfold used in Hu; [rewrite Hu|by rewrite not_true_iff_false in Hu; rewrite Hu].
  simpl. rewrite <- IH.
  apply map_size_insert_None. apply eq_None_not_Some. intros [e' He'].
  apply procs_of_lookup in He' as (i & Hi & Hu' & Hp); [|by eapply inj_on_tail].
  specialize (Hinj 0%nat (S i) e e' eq_refl Hi Hu Hu' (eq_sym Hp)). done.
Qed.

(** A write to every slot that leaves the free ones alone. *)
Section fmap_table.
Context (s : proc_state) (f : pid_entry → pid_entry).
Context (Hinv : proc_inv s) (Hk : ∀ e, keeps_entry f e) (Hz : f entry_zero = entry_zero).

Lemma proc_inv_fmap : proc_inv (set_table (f <$> pid_table s) s).
Proof.
  destruct Hinv as [Hlen Hn Hnh Hent Hpids Hhs].
  split; cbn [set_table pid_table next_pid next_stat_handle]; try done.
  - by rewrite length_fmap.
  - intros i e Hi. rewrite list_lookup_fmap, fmap_Some in Hi. destruct Hi as (x & Hx & ->).
    destruct (Hent i x Hx) as [H1 H2]. destruct (Hk x) as [Ku Kp Ko Ks].
    split; rewrite Ku; [intros Hu; by rewrite (H1 Hu), Hz|].
    intros Hu. destruct (H2 Hu) as (? & ? & ? & Hh). rewrite Kp.
    destruct Ks as [? ?]; [done|done|].
    split_and!; [lia|lia|done|done|]. intros Hs. destruct (Ko Hs) as [Hs' ->]. auto.
  - intros i j e e' Hi Hj Hu Hu' Heq. rewrite list_lookup_fmap, fmap_Some in Hi, Hj.
    destruct Hi as (x & Hx & ->), Hj as (y & Hy & ->). unfold used in *.
    rewrite (keeps_use _ _ (Hk x)) in Hu. rewrite (keeps_use _ _ (Hk y)) in Hu'.
    rewrite (keeps_pid _ _ (Hk x)), (keeps_pid _ _ (Hk y)) in Heq.
    by apply (Hpids i j x y).
  - intros i j e e' Hi Hj [Hu Ho] [Hu' Ho'] Heq. rewrite list_lookup_fmap, fmap_Some in Hi, Hj.
    destruct Hi as (x & Hx & ->), Hj as (y & Hy & ->).
    rewrite (keeps_use _ _ (Hk x)) in Hu. rewrite (keeps_use _ _ (Hk y)) in Hu'.
    destruct (keeps_open _ _ (Hk x) Ho) as [? Hx1], (keeps_open _ _ (Hk y) Ho') as [? Hy1].
    apply (Hhs i j x y); [done..|by split|by split|congruence].
Qed.

Lemma procs_fmap : procs (set_table (f <$> pid_table s) s) = f <$> procs s.
Proof.
  unfold procs. cbn [set_table pid_table]. induction (pid_table s) as [|e t IH]; simpl.
  - by rewrite fmap_empty.
  - destruct (Hk e) as [Ku Kp _ _]. rewrite Ku, Kp. destruct (in_use e); [|done].
    rewrite fmap_insert. f_equal. exact IH.
Qed.
End fmap_table.

(** ** Frames

    A handler that neither creates a process nor moves one between groups and
    sessions: the counters stay, and every process left was there before with
    the same parent, group and session. *)
Record framed (s0 s : proc_state) : Prop := {
  fr_inv : proc_inv s;
  fr_next : next_pid s = next_pid s0;
  fr_handle : next_stat_handle s = next_stat_handle s0;
  fr_ids : ∀ q x, procs s !! q = Some x →
    ∃ x0, procs s0 !! q = Some x0 ∧ ppid x = ppid x0 ∧ pgrp_id x = pgrp_id x0 ∧ sid x = sid x0 }.

(** A write that respects the invariant and the frame. *)
Definition frames_entry (f : pid_entry → pid_entry) (e : pid_entry) : Prop :=
  keeps_entry f e ∧ ppid (f e) = ppid e ∧ pgrp_id (f e) = pgrp_id e ∧ sid (f e) = sid e.

Lemma framed_refl s : proc_inv s → framed s s.
Proof. intros Hinv. split; eauto. Qed.

Lemma framed_update_pid s0 s p f :
  (∀ e, procs s !! p = Some e → frames_entry f e) → framed s0 s → framed s0 (update_pid p f s).
Proof.
  intros Hk [Hinv Hn Hh Hids]. destruct (procs s !! p) as [e|] eqn:He.
  - destruct (Hk e eq_refl) as (Hf & Hpp & Hg & Hs). split.
    + by eapply proc_inv_update_pid.
    + by rewrite next_pid_update_pid.
    + by rewrite next_handle_update_pid.
    + intros q x. destruct Hf. rewrite (procs_update_pid s p e) by done. rewrite lookup_insert_Some.
      intros [[<- <-]|[_ Hx]]; [|by apply Hids]. rewrite Hpp, Hg, Hs. by apply Hids.
  - unfold update_pid. by rewrite procs_find_None by done.
Qed.

Lemma framed_clear_pid s0 s p e :
  procs s !! p = Some e → framed s0 s → framed s0 (clear_pid p s).
Proof.
  intros He [Hinv Hn Hh Hids]. split.
  - by eapply proc_inv_clear_pid.
  - unfold clear_pid. by rewrite next_pid_update_pid.
  - unfold clear_pid. by rewrite next_handle_update_pid.
  - intros q x. rewrite (procs_clear_pid s p e) by done. rewrite lookup_delete_Some.
    intros [_ Hx]. by apply Hids.
Qed.

Lemma framed_fmap s0 s f :
  (∀ e, frames_entry f e) → f entry_zero = entry_zero → framed s0 s →
  framed s0 (set_table (f <$> pid_table s) s).
Proof.
  intros Hk Hz [Hinv Hn Hh Hids]. split; [|done|done|].
  - apply proc_inv_fmap; [done|by intros; apply Hk|done].
  - intros q x. rewrite procs_fmap by (by intros; apply Hk). rewrite lookup_fmap, fmap_Some.
    intros (y & Hy & ->). destruct (Hids q y Hy) as (x0 & Hx0 & ? & ? & ?).
    destruct (Hk y) as (_ & ? & ? & ?). exists x0. split_and!; [done|congruence..].
Qed.

(** ** A table with one process *)

Definition single_table (e : pid_entry) : proc_state :=
  ProcState (e :: replicate 255 entry_zero) 3 1 9.

Section single.
Context (e : pid_entry) (Hu : in_use e = true) (Hp : pid e = 2).

Lemma single_lookup i x :
  pid_table (single_table e) !! i = Some x → i = 0%nat ∧ x = e ∨ x = entry_zero.
Proof.
  destruct i as [|i]; [intros [= <-]; by left|]. intros H. right.
  cbn [single_table pid_table] in H. rewrite lookup_cons in H.
  by apply lookup_replicate in H as [-> _].
Qed.

Lemma single_inv :
  state e = PROC_STATE_RUNNING → stat_handle_in_use e = false → proc_inv (single_table e).
Proof.
  intros Hs Ho. split; [done|done|done| | |].
  - intros i x [[_ ->]| ->]%single_lookup; [|done]. split; [congruence|]. intros _.
    rewrite Hp. split_and!; [done|done|by left|by rewrite Hs|by rewrite Ho].
  - intros i j x y [[-> ->]| ->]%single_lookup [[-> ->]| ->]%single_lookup; done.
  - intros i j x y [[-> ->]| ->]%single_lookup [[-> ->]| ->]%single_lookup [??] [??]; done.
Qed.

Lemma single_procs p : procs (single_table e) !! p = if decide (p = 2) then Some e else None.
Proof.
  assert (∀ n, procs_of (replicate n entry_zero) = ∅) as Hz by (induction n; done).
  unfold procs. cbn [single_table pid_table procs_of]. rewrite Hu, Hp, Hz.
  case_decide as Hd; [rewrite Hd; apply lookup_insert_eq|by rewrite lookup_insert_ne].
Qed.
End single.

(** A running process with pid 2 and task port 100. *)
Definition example_entry : pid_entry :=
  {| in_use := true; pid := 2; ppid := 0; pgrp_id := 2; sid := 2; ctty_port := MACH_PORT_NULL;
     fg_pgrp_id := 0; stopped := false; task_port := 100; cmdline := [];
     state := PROC_STATE_RUNNING; exit_code := 0; exit_notify := MACH_PORT_NULL;
     signal_port := MACH_PORT_NULL; last_rusage := rusage_zero; stat_handle_in_use := false;
     stat_handle_id := 0; stat_offset := 0 |}.

Lemma example_inv : proc_inv (single_table example_entry).
Proof. by apply single_inv. Qed.

Lemma example_lookup q x :
  procs (single_table example_entry) !! q = Some x → q = 2 ∧ x = example_entry.
Proof. rewrite single_procs by done. case_decide; [by intros [= <-]|done]. Qed.
