(* ===== verification/ProcLife.v ===== *)
(** * proc_server: the life of a process

    The handlers of [proc_server/proc_main.c] that create a process (register),
    replace its image (exec_handoff), wait for it (subscribe_exit, reap_zombie),
    record its exit code, list the table, and the dead-name notification by
    which the server learns that a task has died. *)

From S2P Require Import Prelude Mach ProcTable.

(** ** Handlers *)

Section handlers.
Context {E : MachEnv}.
Abbreviation handler := (M proc_state).

Definition fire_exit_notify (notify : port) (p code : Z) : handler unit :=
  if decide (notify = MACH_PORT_NULL) then mret tt
  else call (SendExit notify p code) ≫= λ _, mret tt.

(** The dead-name subscription both [register] and [exec_handoff] make; the
    previous notification port, if any, is dropped. *)
Definition watch_task (task : port) : handler Z :=
  s ← get;
  '(kr, out) ← call_out (RequestDeadName task (notify_port s));
  _ ← drop_right (default MACH_PORT_NULL (out !! 0%nat));
  mret kr.

(** [proc_S_register]: [(new_pid, result)]. *)
Definition proc_S_register (parent_pid : Z) (task : port) (cmd : list Z) :
    handler (Z * Z) :=
  s ← get;
  match find_by_task_locked task s with
  | Some i =>
      _ ← call (MachPortDeallocate task);
      mret (pid (entry_at s i), PROC_OK)
  | None =>
      match find_slot (λ e, in_use e = false) (pid_table s) with
      | None => mret (0, PROC_ERR_NO_SLOT)
      | Some i =>
          let new := next_pid s in
          (* e->in_use, e->pid, e->ppid are set before the parent lookup *)
          let s1 := ProcState (pid_table s) (next_pid s +32 1) (next_stat_handle s) (notify_port s) in
          let s2 := update_at i (set_ppid parent_pid ∘ set_pid new ∘ set_in_use true) s1 in
          let parent :=
            if decide (parent_pid = PROC_PID_NONE) then None
            else find_by_pid_locked parent_pid s2 in
          let '(grp, ses) :=
            match parent with
            | Some j => (pgrp_id (entry_at s2 j), sid (entry_at s2 j))
            | None => (new, new)
            end in
          _ ← put (update_at i
                (set_cmdline (strncpy_term PROC_CMDLINE_MAX cmd) ∘
                 set_stat_handle_in_use false ∘ set_last_rusage rusage_zero ∘
                 set_signal_port MACH_PORT_NULL ∘ set_exit_notify MACH_PORT_NULL ∘
                 set_exit_code 0 ∘ set_state PROC_STATE_RUNNING ∘ set_task_port task ∘
                 set_sid ses ∘ set_pgrp_id grp) s2);
          _ ← watch_task task;
          mret (new, PROC_OK)
      end
  end.

(** [proc_S_exec_handoff]. *)
Definition proc_S_exec_handoff (old_pid : Z) (new_task : port) (cmd : list Z) : handler Z :=
  s ← get;
  match find_by_pid_locked old_pid s with
  | None =>
      _ ← drop_right new_task;
      mret PROC_ERR_NOT_FOUND
  | Some i =>
      let old_port := task_port (entry_at s i) in
      let old_sigport := signal_port (entry_at s i) in
      _ ← put (update_at i
            (set_cmdline (strncpy_term PROC_CMDLINE_MAX cmd) ∘
             set_signal_port MACH_PORT_NULL ∘ set_state PROC_STATE_RUNNING ∘
             set_task_port new_task) s);
      _ ← drop_right old_sigport;
      _ ← watch_task new_task;
      _ ← (if decide (old_port = new_task) then mret tt else drop_right old_port);
      mret PROC_OK
  end.

(** [proc_S_subscribe_exit]. *)
Definition proc_S_subscribe_exit (p : Z) (notify : port) : handler Z :=
  s ← get;
  match find_by_pid_locked p s with
  | None =>
      _ ← drop_right notify;
      mret PROC_ERR_NOT_FOUND
  | Some i =>
      let e := entry_at s i in
      if decide (state e = PROC_STATE_ZOMBIE) then
        _ ← put (update_at i (λ _, entry_zero) s);
        _ ← drop_right (signal_port e);
        _ ← fire_exit_notify notify p (exit_code e);
        mret PROC_OK
      else if decide (exit_notify e = MACH_PORT_NULL) then
        _ ← put (update_at i (set_exit_notify notify) s);
        mret PROC_OK
      else
        (* replace the previous waiter: the slot is looked up again *)
        _ ← put (update_at i (set_exit_notify MACH_PORT_NULL) s);
        _ ← call (MachPortDeallocate (exit_notify e));
        s' ← get;
        match find_by_pid_locked p s' with
        | None =>
            _ ← drop_right notify;
            mret PROC_ERR_NOT_FOUND
        | Some j =>
            _ ← put (update_at j (set_exit_notify notify) s');
            mret PROC_OK
        end
  end.

(** The scan of [proc_S_reap_zombie]: the first zombie child from slot [i]
    on, and the number of children seen up to there. *)
Fixpoint reap_scan (parent_pid : Z) (i : nat) (children : nat) (t : list pid_entry) :
    option nat * nat :=
  match t with
  | [] => (None, children)
  | e :: t =>
      if decide (in_use e = false ∨ ppid e ≠ parent_pid)
      then reap_scan parent_pid (S i) children t
      else if decide (state e = PROC_STATE_ZOMBIE) then (Some i, S children)
      else reap_scan parent_pid (S i) (S children) t
  end.

(** [proc_S_reap_zombie]: [(pid_out, exit_code_out, result)]. *)
Definition proc_S_reap_zombie (parent_pid : Z) : handler (Z * Z * Z) :=
  s ← get;
  match reap_scan parent_pid 0 0 (pid_table s) with
  | (Some i, _) =>
      let e := entry_at s i in
      _ ← put (update_at i (λ _, entry_zero) s);
      _ ← drop_right (signal_port e);
      _ ← drop_right (exit_notify e);
      mret (pid e, exit_code e, PROC_OK)
  | (None, children) =>
      mret (0, 0, if decide (children = 0)%nat then PROC_ERR_NO_CHILD else PROC_ERR_NOT_FOUND)
  end.

(** [proc_S_set_exit_code]. *)
Definition proc_S_set_exit_code (p code : Z) : handler Z :=
  s ← get;
  match find_by_pid_locked p s with
  | Some i => _ ← put (update_at i (set_exit_code code) s); mret PROC_OK
  | None => mret PROC_ERR_NOT_FOUND
  end.

(** One row of the [proc_list] reply. *)
Record proc_entry := ProcEntry {
  pe_pid : Z; pe_ppid : Z; pe_state : Z; pe_exit_code : Z; pe_cmdline : list Z }.

Definition proc_row (e : pid_entry) : proc_entry :=
  ProcEntry (pid e) (ppid e) (state e) (exit_code e)
    (strncpy_term PROC_CMDLINE_MAX (cmdline e)).

(** [proc_S_list]: [(entries, count, result)]; the buffer is sized for a full
    table, so the loop's second bound never cuts it short. *)
Definition proc_S_list : handler (list proc_entry * Z * Z) :=
  kr ← call (VmAllocate (144 * Z.of_nat PROC_MAX_TASKS));
  if decide (kr = KERN_SUCCESS) then
    s ← get;
    let rows := take PROC_MAX_TASKS
      (proc_row <$> filter (λ e, in_use e = true) (pid_table s)) in
    mret (rows, Z.of_nat (length rows), PROC_OK)
  else mret ([], 0, PROC_ERR_KERNEL).

(** [notify_ctty_release] and the drop that follows it at both call sites. *)
Definition notify_ctty_release (ctty : port) (session : Z) : handler unit :=
  if decide (ctty = MACH_PORT_NULL) then mret tt
  else call (CttyRelease ctty session) ≫= λ _, mret tt.

(** The dead-name notification of a registered task. *)
Definition do_mach_notify_dead_name (name : port) : handler unit :=
  s ← get;
  match find_by_task_locked name s with
  | None =>
      _ ← call (MachPortDeallocate name);
      mret tt
  | Some i =>
      let e := entry_at s i in
      let subscriber := exit_notify e in
      let ctty := ctty_port e in
      let s1 := update_at i (set_exit_notify MACH_PORT_NULL ∘ set_state PROC_STATE_ZOMBIE) s in
      let s2 := if decide (ctty = MACH_PORT_NULL) then s1
                else update_at i (set_fg_pgrp_id 0 ∘ set_ctty_port MACH_PORT_NULL) s1 in
      let parent_sigport :=
        if decide (ppid e = PROC_PID_NONE) then MACH_PORT_NULL
        else match find_by_pid_locked (ppid e) s2 with
             | Some j => signal_port (entry_at s2 j)
             | None => MACH_PORT_NULL
             end in
      let s3 := if decide (subscriber = MACH_PORT_NULL) then s2
                else update_at i (λ _, entry_zero) s2 in
      let dead_sigport := if decide (subscriber = MACH_PORT_NULL) then MACH_PORT_NULL
                          else signal_port e in
      _ ← put s3;
      _ ← call (MachPortDeallocate name);
      _ ← drop_right dead_sigport;
      _ ← notify_ctty_release ctty (pid e);
      _ ← drop_right ctty;
      _ ← fire_exit_notify subscriber (pid e) (exit_code e);
      if decide (parent_sigport = MACH_PORT_NULL) then mret tt
      else call (SendSignal parent_sigport PROC_SIGCHLD (pid e)) ≫= λ _, mret tt
  end.
End handlers.


(** ** What the handlers do *)

Definition exit_msg (notify : port) (p code : Z) : list mach_call :=
  if decide (notify = MACH_PORT_NULL) then [] else [SendExit notify p code].

Definition ctty_msg (ctty : port) (session : Z) : list mach_call :=
  if decide (ctty = MACH_PORT_NULL) then [] else [CttyRelease ctty session].

Definition sigchld_msg (sigport : port) (p : Z) : list mach_call :=
  if decide (sigport = MACH_PORT_NULL) then [] else [SendSignal sigport PROC_SIGCHLD p].

(** The entry a registration leaves. *)
Definition child_entry (parent : option pid_entry) (new pp : Z) (task : port) (cmd : list Z) :
    pid_entry :=
  {| in_use := true; pid := new; ppid := pp;
     pgrp_id := match parent with Some q => pgrp_id q | None => new end;
     sid := match parent with Some q => sid q | None => new end;
     ctty_port := MACH_PORT_NULL; fg_pgrp_id := 0; stopped := false;
     task_port := task; cmdline := strncpy_term PROC_CMDLINE_MAX cmd;
     state := PROC_STATE_RUNNING; exit_code := 0;
     exit_notify := MACH_PORT_NULL; signal_port := MACH_PORT_NULL;
     last_rusage := rusage_zero; stat_handle_in_use := false;
     stat_handle_id := 0; stat_offset := 0 |}.

(** The entry the death of the task leaves when nobody waits. *)
Definition zombify (e : pid_entry) : pid_entry :=
  let z := set_exit_notify MACH_PORT_NULL (set_state PROC_STATE_ZOMBIE e) in
  if decide (ctty_port e = MACH_PORT_NULL) then z
  else set_fg_pgrp_id 0 (set_ctty_port MACH_PORT_NULL z).

Section run.
Context {E : MachEnv}.

(** The calls of [watch_task]. *)
Definition watched (s : proc_state) (l : list mach_call) (task : port) : list mach_call :=
  let c := RequestDeadName task (notify_port s) in
  c :: dropped (default MACH_PORT_NULL (mach_out l c !! 0%nat)).

Lemma run_fire {A} n p c (f : unit → M proc_state A) s l :
  (fire_exit_notify n p c ≫= f) s l = f tt s (l ++ exit_msg n p c).
Proof. unfold fire_exit_notify, exit_msg. case_decide; [by rewrite app_nil_r|done]. Qed.

Lemma run_ctty {A} c p (f : unit → M proc_state A) s l :
  (notify_ctty_release c p ≫= f) s l = f tt s (l ++ ctty_msg c p).
Proof. unfold notify_ctty_release, ctty_msg. case_decide; [by rewrite app_nil_r|done]. Qed.

Lemma run_watch {A} task (f : Z → M proc_state A) s l :
  ∃ kr, (watch_task task ≫= f) s l = f kr s (l ++ watched s l task).
Proof.
  eexists. unfold watch_task. mrun. unfold watched.
  rewrite <- (app_assoc l). reflexivity.
Qed.

(** [proc_S_subscribe_exit]: drop the right of an unknown pid, deliver the code
    of a zombie and free its slot, otherwise become its one waiter. *)
Lemma subscribe_exit_run s l p n :
  proc_inv s →
  proc_S_subscribe_exit p n s l =
    match procs s !! p with
    | None => (PROC_ERR_NOT_FOUND, s, l ++ dropped n)
    | Some e =>
        if decide (state e = PROC_STATE_ZOMBIE)
        then (PROC_OK, clear_pid p s,
              l ++ dropped (signal_port e) ++ exit_msg n p (exit_code e))
        else (PROC_OK, update_pid p (set_exit_notify n) s, l ++ dropped (exit_notify e))
    end.
Proof.
  intros Hinv. unfold proc_S_subscribe_exit. rewrite run_get.
  destruct (find_by_pid_locked p s) as [i|] eqn:Hf; last first.
  { rewrite (find_by_pid_None s p Hinv Hf). by mrun. }
  destruct (find_by_pid_Some s p i Hinv Hf) as (e & Hi & -> & Hu & Hp & He). rewrite He.
  assert (∀ f, update_at i f s = update_pid p f s) as Hupd.
  { intros f. unfold update_pid. by rewrite Hf. }
  case_decide as Hz.
  { mrun. rewrite run_fire, Hupd, <- app_assoc. done. }
  case_decide as Hn.
  { mrun. rewrite Hupd, Hn. unfold dropped. rewrite decide_True by done. by rewrite app_nil_r. }
  mrun. rewrite Hupd. rewrite (find_update_pid s p e) by done. rewrite Hf.
  mrun. unfold dropped. rewrite decide_False by done.
  assert (update_at i (set_exit_notify n) (update_pid p (set_exit_notify MACH_PORT_NULL) s) =
          update_pid p (set_exit_notify n) s) as ->; [|done].
  transitivity (update_pid p (set_exit_notify n)
                  (update_pid p (set_exit_notify MACH_PORT_NULL) s)).
  { unfold update_pid at 2. rewrite (find_update_pid s p e) by done. by rewrite Hf. }
  by rewrite (update_pid_twice s p e).
Qed.

Lemma set_exit_code_run s l p code :
  proc_inv s →
  proc_S_set_exit_code p code s l =
    match procs s !! p with
    | None => (PROC_ERR_NOT_FOUND, s, l)
    | Some _ => (PROC_OK, update_pid p (set_exit_code code) s, l)
    end.
Proof.
  intros Hinv. unfold proc_S_set_exit_code. rewrite run_get.
  destruct (find_by_pid_locked p s) as [i|] eqn:Hf.
  - destruct (find_by_pid_Some s p i Hinv Hf) as (e & _ & _ & _ & _ & ->). mrun.
    unfold update_pid. by rewrite Hf.
  - by rewrite (find_by_pid_None s p Hinv Hf).
Qed.

(** [proc_S_exec_handoff]: same pid, parent, group, session and waiter; new task,
    no signal port; the watch on the new task is armed before the old task
    port is dropped. *)
Lemma exec_handoff_run s l p task cmd :
  proc_inv s →
  proc_S_exec_handoff p task cmd s l =
    match procs s !! p with
    | None => (PROC_ERR_NOT_FOUND, s, l ++ dropped task)
    | Some e =>
        (PROC_OK,
         update_pid p (set_cmdline (strncpy_term PROC_CMDLINE_MAX cmd) ∘
           set_signal_port MACH_PORT_NULL ∘ set_state PROC_STATE_RUNNING ∘
           set_task_port task) s,
         l ++ dropped (signal_port e) ++
           watched s (l ++ dropped (signal_port e)) task ++
           (if decide (task_port e = task) then [] else dropped (task_port e)))
    end.
Proof.
  intros Hinv. unfold proc_S_exec_handoff. rewrite run_get.
  destruct (find_by_pid_locked p s) as [i|] eqn:Hf; last first.
  { rewrite (find_by_pid_None s p Hinv Hf). by mrun. }
  destruct (find_by_pid_Some s p i Hinv Hf) as (e & Hi & -> & Hu & Hp & He). rewrite He.
  assert (∀ f, update_at i f s = update_pid p f s) as Hupd.
  { intros f. unfold update_pid. by rewrite Hf. }
  mrun. rewrite Hupd. edestruct @run_watch as [kr ->].
  unfold watched. rewrite notify_port_update_pid.
  case_decide; mrun; [rewrite app_nil_r|]; by rewrite <- ?app_assoc.
Qed.

(** The child of [pp] the scan of [proc_S_reap_zombie] looks for. *)
Definition is_child (pp : Z) (e : pid_entry) : Prop := in_use e = true ∧ ppid e = pp.

Lemma reap_scan_spec pp t i c :
  match reap_scan pp i c t with
  | (Some k, _) => ∃ j e, k = (i + j)%nat ∧ t !! j = Some e ∧ is_child pp e ∧
                     state e = PROC_STATE_ZOMBIE
  | (None, c') => (∀ j e, t !! j = Some e → is_child pp e → state e ≠ PROC_STATE_ZOMBIE) ∧
                  (c' = 0%nat ↔ c = 0%nat ∧ ∀ j e, t !! j = Some e → ¬ is_child pp e)
  end.
Proof.
  revert i c. induction t as [|x t IH]; intros i c; simpl.
  { split; [by intros|]. split; [intros ->; by split|by intros [-> _]]. }
  case_decide as Hc.
  - specialize (IH (S i) c). assert (¬ is_child pp x) as Hx.
    { intros [H1 H2]. destruct Hc; congruence. }
    destruct (reap_scan pp (S i) c t) as [[k|] c'].
    + destruct IH as (j & e & -> & He). exists (S j), e. split; [lia|done].
    + destruct IH as [IH1 IH2]. split; [intros [|j] e Hj; [by simplify_eq/=|by eapply IH1]|].
      rewrite IH2. split; intros [-> H]; (split; [done|]).
      * intros [|j] e Hj; [by simplify_eq/=|by eapply H].
      * intros j e Hj. by apply (H (S j)).
  - assert (is_child pp x) as Hx.
    { split; [destruct (in_use x); naive_solver|destruct (decide (ppid x = pp)); naive_solver]. }
    case_decide as Hz; [exists 0%nat, x; split_and!; [lia|done..]|].
    specialize (IH (S i) (S c)). destruct (reap_scan pp (S i) (S c) t) as [[k|] c'].
    + destruct IH as (j & e & -> & He). exists (S j), e. split; [lia|done].
    + destruct IH as [IH1 IH2]. split; [intros [|j] e Hj; [by simplify_eq/=|by eapply IH1]|].
      rewrite IH2. split; [by intros [? _]|]. intros [_ H]. by destruct (H 0%nat x).
Qed.

(** [proc_S_reap_zombie]: reap some zombie child, or tell apart "none yet" from
    "no child at all". *)
Lemma reap_zombie_run s l pp :
  proc_inv s →
  (∃ p e, procs s !! p = Some e ∧ ppid e = pp ∧ state e = PROC_STATE_ZOMBIE ∧
     proc_S_reap_zombie pp s l =
       ((p, exit_code e, PROC_OK), clear_pid p s, l ++ dropped (signal_port e))) ∨
  ((∀ p e, procs s !! p = Some e → ppid e = pp → state e ≠ PROC_STATE_ZOMBIE) ∧
   ∃ r, proc_S_reap_zombie pp s l = ((0, 0, r), s, l) ∧
     (r = PROC_ERR_NOT_FOUND ∧ (∃ p e, procs s !! p = Some e ∧ ppid e = pp) ∨
      r = PROC_ERR_NO_CHILD ∧ ∀ p e, procs s !! p = Some e → ppid e ≠ pp)).
Proof.
  intros Hinv. unfold proc_S_reap_zombie. rewrite run_get.
  pose proof (reap_scan_spec pp (pid_table s) 0 0) as Hs.
  destruct (reap_scan pp 0 0 (pid_table s)) as [[i|] c].
  - left. destruct Hs as (j & e & -> & Hj & [Hu Hpp] & Hz). rewrite Nat.add_0_l.
    assert (procs s !! pid e = Some e) as He.
    { apply procs_of_lookup; [by apply inv_pids|]. by exists j. }
    exists (pid e), e. split_and!; [done..|]. mrun.
    rewrite (entry_at_lookup s j e Hj). destruct (inv_entry _ Hinv j e Hj) as [_ H].
    destruct (H Hu) as (_ & _ & Hn & _). rewrite (Hn Hz).
    unfold dropped at 2. rewrite decide_True by done. rewrite app_nil_r.
    unfold clear_pid, update_pid.
    destruct (procs_find s (pid e) e Hinv He) as (k & -> & Hk & _).
    assert (k = j) as ->; [|done]. by apply (inv_pids _ Hinv k j e e).
  - right. destruct Hs as [Hs1 Hs2]. split.
    { intros p e He Hpp. destruct (procs_find s p e Hinv He) as (i & _ & Hi & _ & Hu & _).
      by apply (Hs1 i). }
    eexists. split; [reflexivity|]. case_decide as Hc.
    + right. split; [done|]. intros p e He Hpp.
      destruct (procs_find s p e Hinv He) as (i & _ & Hi & _ & Hu & _).
      apply Hs2 in Hc as [_ Hc]. by apply (Hc i e Hi).
    + left. split; [done|].
      destruct (find_slot (is_child pp) (pid_table s)) as [i|] eqn:Hf.
      * apply find_slot_Some in Hf as (e & Hi & [Hu Hpp] & _).
        exists (pid e), e. split; [|done].
        apply procs_of_lookup; [by apply inv_pids|]. by exists i.
      * rewrite find_slot_None in Hf. by destruct Hc; apply Hs2.
Qed.

(** The signal port SIGCHLD for [e] goes to. *)
Definition parent_sigport (s : proc_state) (e : pid_entry) : port :=
  if decide (ppid e = PROC_PID_NONE) then MACH_PORT_NULL
  else match procs s !! ppid e with
       | Some q => signal_port q
       | None => MACH_PORT_NULL
       end.

Lemma zombify_keeps e : in_use (zombify e) = in_use e ∧ pid (zombify e) = pid e.
Proof. unfold zombify. by case_decide. Qed.

(** The parent lookup after the zombie write finds the port of before. *)
Lemma parent_sigport_zombified s e :
  proc_inv s → procs s !! pid e = Some e →
  (if decide (ppid e = PROC_PID_NONE) then MACH_PORT_NULL
   else match find_by_pid_locked (ppid e) (update_pid (pid e) zombify s) with
        | Some j => signal_port (entry_at (update_pid (pid e) zombify s) j)
        | None => MACH_PORT_NULL
        end) = parent_sigport s e.
Proof.
  intros Hinv He. destruct (zombify_keeps e) as [Hzu Hzp].
  destruct (procs_find s (pid e) e Hinv He) as (i & Hfp & Hi & _ & Hu & _).
  unfold parent_sigport. case_decide as Hpp; [done|].
  rewrite (find_update_pid s (pid e) e) by done.
  destruct (find_by_pid_locked (ppid e) s) as [j|] eqn:Hj; last first.
  { by rewrite (find_by_pid_None s _ Hinv Hj). }
  destruct (find_by_pid_Some s _ j Hinv Hj) as (q & Hjq & _ & _ & _ & ->).
  unfold update_pid. rewrite Hfp, (update_at_unfold s i e Hi).
  unfold entry_at. cbn [pid_table set_table]. destruct (decide (i = j)) as [<-|Hij].
  - rewrite list_lookup_insert_eq by (by eapply lookup_lt_Some). simpl.
    rewrite Hi in Hjq. injection Hjq as <-. unfold zombify. by case_decide.
  - rewrite list_lookup_insert_ne by done. by rewrite Hjq.
Qed.

(** The dead-name notification: the process becomes a zombie, or is reaped at
    once when somebody waits; the waiter gets the exit code, the tty is
    released, the parent gets SIGCHLD. *)
Lemma dead_name_run s l name :
  proc_inv s →
  do_mach_notify_dead_name name s l =
    match find_by_task_locked name s with
    | None => (tt, s, l ++ [MachPortDeallocate name])
    | Some i =>
        let e := entry_at s i in
        (tt,
         if decide (exit_notify e = MACH_PORT_NULL) then update_pid (pid e) zombify s
         else clear_pid (pid e) s,
         l ++ [MachPortDeallocate name] ++
           (if decide (exit_notify e = MACH_PORT_NULL) then [] else dropped (signal_port e)) ++
           ctty_msg (ctty_port e) (pid e) ++ dropped (ctty_port e) ++
           exit_msg (exit_notify e) (pid e) (exit_code e) ++
           sigchld_msg (parent_sigport s e) (pid e))
    end.
Proof.
  intros Hinv. unfold do_mach_notify_dead_name. rewrite run_get.
  destruct (find_by_task_locked name s) as [i|] eqn:Hf; [|by mrun].
  destruct (find_by_task_Some s name i Hinv Hf) as (e & He & _ & Hfp & ->).
  destruct (procs_find s (pid e) e Hinv He) as (k & Hk & Hi & _ & Hu & _).
  rewrite Hfp in Hk. injection Hk as <-.
  set (z := λ e, set_exit_notify MACH_PORT_NULL (set_state PROC_STATE_ZOMBIE e)).
  assert ((if decide (ctty_port e = MACH_PORT_NULL) then update_at i z s
           else update_at i (set_fg_pgrp_id 0 ∘ set_ctty_port MACH_PORT_NULL) (update_at i z s))
          = update_pid (pid e) zombify s) as Hs2.
  { rewrite (update_at_twice s i e Hi).
    transitivity (update_at i zombify s); [|unfold update_pid; by rewrite Hfp].
    rewrite !(update_at_unfold s i e Hi). unfold zombify. by case_decide. }
  change (set_exit_notify MACH_PORT_NULL ∘ set_state PROC_STATE_ZOMBIE) with z.
  cbv zeta. rewrite Hs2. clear Hs2.
  rewrite (parent_sigport_zombified s e Hinv He).
  assert (update_at i (λ _, entry_zero) (update_pid (pid e) zombify s) = clear_pid (pid e) s) as ->.
  { unfold clear_pid, update_pid. rewrite Hfp. by rewrite (update_at_twice s i e Hi). }
  mrun. rewrite run_ctty. mrun. rewrite run_fire. unfold sigchld_msg.
  replace (dropped (if decide (exit_notify e = MACH_PORT_NULL) then MACH_PORT_NULL else signal_port e))
    with (if decide (exit_notify e = MACH_PORT_NULL) then [] else dropped (signal_port e))
    by (by case_decide).
  case_decide; mrun; rewrite <- ?app_assoc; rewrite ?app_nil_r; done.
Qed.

(** The state after a registration in slot [i]. *)
Definition register_at (i : nat) (e : pid_entry) (s : proc_state) : proc_state :=
  ProcState (<[i := e]> (pid_table s)) (next_pid s + 1) (next_stat_handle s) (notify_port s).

(** The entry the parent lookup of [proc_S_register] finds.  The new slot is
    already in use by then, so that a caller that names the pid about to be
    assigned is its own parent, with the zeroed group and session. *)
Definition parent_of (s : proc_state) (pp : Z) : option pid_entry :=
  if decide (pp = PROC_PID_NONE) then None
  else <[next_pid s := entry_zero]> (procs s) !! pp.

(** The lookup in the half-filled table. *)
Lemma parent_lookup s i pp s2 e1 :
  proc_inv s → pid_table s !! i = Some entry_zero →
  in_use e1 = true → pid e1 = next_pid s → pgrp_id e1 = 0 → sid e1 = 0 →
  pid_table s2 = <[i := e1]> (pid_table s) →
  match find_by_pid_locked pp s2 with
  | Some j => Some (pgrp_id (entry_at s2 j), sid (entry_at s2 j))
  | None => None
  end = (λ q, (pgrp_id q, sid q)) <$> <[next_pid s := entry_zero]> (procs s) !! pp.
Proof.
  intros Hinv Hi Hu Hp Hg Hs Ht. unfold find_by_pid_locked, entry_at. rewrite Ht.
  assert (i < length (pid_table s))%nat by (by eapply lookup_lt_Some).
  destruct (decide (pp = next_pid s)) as [->|Hpp].
  - rewrite lookup_insert_eq, (find_slot_unique _ _ i e1).
    + rewrite list_lookup_insert_eq by done. simpl. by rewrite Hg, Hs.
    + by apply list_lookup_insert_eq.
    + done.
    + intros j y Hj [Hy Hpy]. apply insert_lookup_inv in Hj as [(-> & _)|[_ Hj]]; [done|].
      destruct (inv_entry _ Hinv j y Hj) as [_ H']. destruct (H' Hy). lia.
  - rewrite lookup_insert_ne by done. rewrite (find_slot_insert_same _ _ _ entry_zero); [|done|].
    2: { unfold is_pid. split; [intros [_ ?]; congruence|by intros [? _]]. }
    fold (find_by_pid_locked pp s). destruct (find_by_pid_locked pp s) as [j|] eqn:Hj.
    + destruct (find_by_pid_Some s pp j Hinv Hj) as (q & Hjq & _ & Huq & _ & ->).
      rewrite list_lookup_insert_ne by (intros ->; by simplify_eq). by rewrite Hjq.
    + by rewrite (find_by_pid_None s pp Hinv Hj).
Qed.

(** [proc_S_register]: the identity already minted for the task, or an error, or
    a fresh process that inherits its parent's group and session. *)
Lemma register_run s l pp task cmd :
  proc_inv s → next_pid s + 1 < 2 ^ 32 →
  proc_S_register pp task cmd s l =
    match find_by_task_locked task s with
    | Some i => ((pid (entry_at s i), PROC_OK), s, l ++ [MachPortDeallocate task])
    | None =>
        match find_slot (λ e, in_use e = false) (pid_table s) with
        | None => ((0, PROC_ERR_NO_SLOT), s, l)
        | Some i =>
            ((next_pid s, PROC_OK),
             register_at i (child_entry (parent_of s pp) (next_pid s) pp task cmd) s,
             l ++ watched s l task)
        end
    end.
Proof.
  intros Hinv Hnp. unfold proc_S_register. rewrite run_get.
  destruct (find_by_task_locked task s) as [k|]; [by mrun|].
  destruct (find_slot _ (pid_table s)) as [i|] eqn:Hfree; [|done].
  apply find_slot_Some in Hfree as (e0 & Hi & Hu0 & _).
  destruct (inv_entry _ Hinv i e0 Hi) as [Hz _]. specialize (Hz Hu0). subst e0.
  assert (next_pid s +32 1 = next_pid s + 1) as ->.
  { apply u32_small. pose proof (inv_next _ Hinv). unfold PROC_PID_INIT in *. unfold is_u32. lia. }
  cbv zeta. set (s1 := ProcState (pid_table s) _ _ _).
  rewrite (update_at_unfold s1 i entry_zero Hi).
  set (e1 := (set_ppid pp ∘ set_pid (next_pid s) ∘ set_in_use true) entry_zero).
  set (s2 := set_table _ s1).
  assert (pid_table s2 !! i = Some e1) as Hi2.
  { apply list_lookup_insert_eq. by eapply lookup_lt_Some. }
  assert (∀ f, update_at i f s2 = register_at i (f e1) s) as Hreg.
  { intros f. rewrite (update_at_unfold s2 i e1 Hi2). unfold register_at, set_table.
    cbn [s2 set_table pid_table s1 next_pid next_stat_handle notify_port].
    by rewrite list_insert_insert_eq. }
  pose proof (parent_lookup s i pp s2 e1 Hinv Hi eq_refl eq_refl eq_refl eq_refl eq_refl) as Hpar.
  unfold parent_of. destruct (decide (pp = PROC_PID_NONE)) as [Hp0|Hp0].
  { mrun. edestruct @run_watch as [kr ->]. rewrite Hreg. done. }
  destruct (find_by_pid_locked pp s2) as [j|], (<[next_pid s := entry_zero]> (procs s) !! pp)
    as [q|]; try done; [injection Hpar as -> ->|];
    mrun; edestruct @run_watch as [kr ->]; by rewrite Hreg.
Qed.

Section register_at.
Context (s : proc_state) (i : nat) (e : pid_entry).
Context (Hinv : proc_inv s) (Hfree : pid_table s !! i = Some entry_zero).
Context (Hu : in_use e = true) (Hp : pid e = next_pid s).

Lemma register_at_inj : inj_on used pid (<[i := e]> (pid_table s)).
Proof.
  apply inj_on_insert; [by apply inv_pids|]. intros _ j x Hx Hxu Hk. exfalso.
  destruct (inv_entry _ Hinv j x Hx) as [_ H]. destruct (H Hxu) as [H1 _]. lia.
Qed.

Lemma register_at_inv :
  state e = PROC_STATE_RUNNING → stat_handle_in_use e = false → proc_inv (register_at i e s).
Proof.
  intros Hst Hno. destruct Hinv as [Hlen Hn Hnh Hent Hpids Hhs].
  split; cbn [register_at pid_table next_pid next_stat_handle].
  - by rewrite length_insert.
  - lia.
  - done.
  - intros j x Hx. apply insert_lookup_inv in Hx as [(<- & <- & _)|[_ Hx]].
    + split; [congruence|]. intros _. rewrite Hp.
      split_and!; [lia|lia|by left|by rewrite Hst|by rewrite Hno].
    + destruct (Hent j x Hx) as [H1 H2]. split; [done|]. intros Hxu.
      destruct (H2 Hxu) as (? & ? & ? & ?). split_and!; [lia|lia|done..].
  - apply register_at_inj.
  - apply inj_on_insert; [done|]. intros [_ Ho]. congruence.
Qed.

Lemma register_at_procs : procs (register_at i e s) = <[next_pid s := e]> (procs s).
Proof.
  unfold procs. cbn [register_at pid_table]. apply map_eq. intros q. apply option_eq. intros x.
  rewrite procs_of_lookup by apply register_at_inj.
  pose proof (inv_pids _ Hinv). rewrite lookup_insert_Some, procs_of_lookup by done. split.
  - intros (j & Hj & Hxu & Hxp).
    apply insert_lookup_inv in Hj as [(<- & <- & _)|[_ Hj]]; [left; split; congruence|].
    right. split; [|by exists j].
    destruct (inv_entry _ Hinv j x Hj) as [_ H']. destruct (H' Hxu) as [H1 _]. lia.
  - intros [[<- <-]|(Hq & j & Hj & Hxu & Hxp)].
    + exists i. rewrite list_lookup_insert_eq by (by eapply lookup_lt_Some). done.
    + exists j. rewrite list_lookup_insert_ne; [done|]. intros <-. by simplify_eq.
Qed.
End register_at.

(** A table without free slot holds [PROC_MAX_TASKS] processes. *)
Lemma no_free_slot s :
  proc_inv s →
  find_slot (λ e, in_use e = false) (pid_table s) = None ↔ size (procs s) = PROC_MAX_TASKS.
Proof.
  intros Hinv. unfold procs. rewrite size_procs_of by (by apply inv_pids).
  rewrite <- (inv_length _ Hinv), find_slot_None, length_filter_full, Forall_lookup.
  unfold used. split; intros H i e Hi; specialize (H i e Hi); by destruct (in_use e).
Qed.

(** ** The invariant is preserved *)

Lemma register_inv s l pp task cmd :
  proc_inv s → next_pid s + 1 < 2 ^ 32 → proc_inv (post (proc_S_register pp task cmd s l)).
Proof.
  intros Hinv Hnp. rewrite register_run by done.
  destruct (find_by_task_locked task s); [done|].
  destruct (find_slot _ _) as [i|] eqn:Hf; [|done].
  apply find_slot_Some in Hf as (e0 & Hi & Hu & _).
  destruct (inv_entry _ Hinv i e0 Hi) as [Hz _]. rewrite (Hz Hu) in Hi.
  by apply register_at_inv.
Qed.

Lemma zombify_ok e : frames_entry zombify e.
Proof. split; [split|]; unfold zombify; case_decide; simpl; auto. Qed.

Lemma subscribe_exit_framed s0 p n : preserves (framed s0) (proc_S_subscribe_exit p n).
Proof.
  intros s l Hfr. rewrite subscribe_exit_run by apply Hfr.
  destruct (procs s !! p) as [e|] eqn:He; [|done]. case_decide.
  - by eapply framed_clear_pid.
  - apply framed_update_pid; [|done]. intros e' He'. rewrite He in He'. simplify_eq.
    split; [|done]. split; simpl; auto. by intros.
Qed.

Lemma exec_handoff_framed s0 p task cmd : preserves (framed s0) (proc_S_exec_handoff p task cmd).
Proof.
  intros s l Hfr. rewrite exec_handoff_run by apply Hfr.
  destruct (procs s !! p) as [e|] eqn:He; [|done].
  apply framed_update_pid; [|done]. intros e' _. split; [|done].
  split; simpl; auto. intros. by split; [left|].
Qed.

Lemma set_exit_code_keeps c e : keeps_entry (set_exit_code c) e.
Proof. split; simpl; auto. Qed.

Lemma set_exit_code_framed s0 p code : preserves (framed s0) (proc_S_set_exit_code p code).
Proof.
  intros s l Hfr. rewrite set_exit_code_run by apply Hfr.
  destruct (procs s !! p) as [e|] eqn:He; [|done].
  apply framed_update_pid; [|done]. intros e' _. split; [apply set_exit_code_keeps|done].
Qed.

Lemma reap_zombie_framed s0 pp : preserves (framed s0) (proc_S_reap_zombie pp).
Proof.
  intros s l Hfr.
  destruct (reap_zombie_run s l pp (fr_inv _ _ Hfr))
    as [(p & e & He & _ & _ & ->)|(_ & r & -> & _)]; [|done]. by eapply framed_clear_pid.
Qed.

Lemma dead_name_framed s0 name : preserves (framed s0) (do_mach_notify_dead_name name).
Proof.
  intros s l Hfr. pose proof (fr_inv _ _ Hfr) as Hinv. rewrite dead_name_run by done.
  destruct (find_by_task_locked name s) as [i|] eqn:Hf; [|done].
  destruct (find_by_task_Some s name i Hinv Hf) as (e & He & _ & _ & ->). simpl.
  case_decide; [|by eapply framed_clear_pid].
  apply framed_update_pid; [|done]. intros; apply zombify_ok.
Qed.

Lemma proc_list_framed s0 : preserves (framed s0) proc_S_list.
Proof.
  intros s l Hfr. unfold proc_S_list. rewrite run_call. by case_decide.
Qed.

(** ** Theorems *)

(** Registration, for every environment and every state of the invariant
    whose pid counter has not reached the end of the 32-bit space.  If some
    process already holds the task port, its pid is returned, the table is left
    alone and the extra reference is dropped (idempotent registration, #287).
    Otherwise the table is full and [PROC_ERR_NO_SLOT] is returned, or exactly
    one process appears, under a pid that no process had, running, with its
    parent's group and session when the parent is tracked and as its own leader
    when it is not; every other process is untouched. *)
Theorem register_spec s l pp task cmd :
  proc_inv s → next_pid s + 1 < 2 ^ 32 →
  let '((new, r), s', l') := proc_S_register pp task cmd s l in
  (∃ e, procs s !! new = Some e ∧ task_port e = task ∧ r = PROC_OK ∧ s' = s ∧
     l' = l ++ [MachPortDeallocate task]) ∨
  (∀ q e, procs s !! q = Some e → task_port e ≠ task) ∧
  ((size (procs s) = PROC_MAX_TASKS ∧ r = PROC_ERR_NO_SLOT ∧ s' = s ∧ l' = l) ∨
   ((size (procs s) < PROC_MAX_TASKS)%nat ∧ r = PROC_OK ∧ procs s !! new = None ∧
    new = next_pid s ∧ next_pid s' = next_pid s + 1 ∧
    procs s' = <[new := child_entry (parent_of s pp) new pp task cmd]> (procs s) ∧
    l' = l ++ watched s l task)).
Proof.
  intros Hinv Hnp. rewrite register_run by done.
  destruct (find_by_task_locked task s) as [i|] eqn:Ht.
  { left. destruct (find_by_task_Some s task i Hinv Ht) as (e & He & Hte & _ & ->).
    by exists e. }
  pose proof (find_by_task_None s task Hinv Ht) as Hnone.
  destruct (find_slot _ _) as [i|] eqn:Hf; right; (split; [done|]);
    [right|left; by rewrite <- no_free_slot].
  assert (size (procs s) ≠ PROC_MAX_TASKS) as Hne by (rewrite <- no_free_slot by done; congruence).
  assert (size (procs s) ≤ PROC_MAX_TASKS)%nat.
  { unfold procs. rewrite size_procs_of by (by apply inv_pids).
    rewrite length_filter. by rewrite (inv_length _ Hinv). }
  apply find_slot_Some in Hf as (e0 & Hi & Hu & _).
  destruct (inv_entry _ Hinv i e0 Hi) as [Hz _]. rewrite (Hz Hu) in Hi.
  split_and!; [lia|done| |done|done|by rewrite register_at_procs|done].
  apply eq_None_not_Some. intros [e He]. pose proof (procs_bound s _ e Hinv He). lia.
Qed.

(** The process [p] is the only one that holds the task port [name]. *)
Definition holds_task (s : proc_state) (p : Z) (name : port) : Prop :=
  ∀ q e, procs s !! q = Some e → task_port e = name ↔ q = p.

(** The exit notifications of a history. *)
Definition is_exit (c : mach_call) : Prop :=
  match c with SendExit _ _ _ => True | _ => False end.
#[local] Instance is_exit_dec c : Decision (is_exit c).
Proof. destruct c; simpl; apply _. Defined.
Definition exits (l : list mach_call) : list mach_call := filter is_exit l.

Lemma exits_app l k : exits (l ++ k) = exits l ++ exits k.
Proof. apply list_basics.list.filter_app. Qed.
Lemma exits_dropped p : exits (dropped p) = [].
Proof. unfold dropped. by case_decide. Qed.
Lemma exits_ctty c p : exits (ctty_msg c p) = [].
Proof. unfold ctty_msg. by case_decide. Qed.
Lemma exits_sigchld c p : exits (sigchld_msg c p) = [].
Proof. unfold sigchld_msg. by case_decide. Qed.
Lemma exits_exit n p c : exits (exit_msg n p c) = exit_msg n p c.
Proof. unfold exit_msg. by case_decide. Qed.
Lemma exits_dealloc p l : exits (MachPortDeallocate p :: l) = exits l.
Proof. done. Qed.
Lemma exits_watched s l task : exits (watched s l task) = [].
Proof. apply exits_dropped. Qed.

(** The death of a process, by its pid. *)
Lemma death_run s l p e name :
  proc_inv s → procs s !! p = Some e → holds_task s p name →
  let r := do_mach_notify_dead_name name s l in
  proc_inv (post r) ∧
  exits (trace r) = exits l ++ exit_msg (exit_notify e) p (exit_code e) ∧
  procs (post r) = if decide (exit_notify e = MACH_PORT_NULL) then <[p := zombify e]> (procs s)
                   else delete p (procs s).
Proof.
  intros Hinv He Hh r. split; [by apply (dead_name_framed s), framed_refl|].
  subst r. rewrite dead_name_run by done.
  destruct (procs_find s p e Hinv He) as (i & Hf & _ & Hat & _ & Hp).
  rewrite (find_by_task_sole s p e name Hinv He), Hf, Hat;
    [|by apply (Hh p e He)|intros q e' Hq; by apply (Hh q e' Hq)].
  unfold post, trace. cbn [fst snd]. rewrite Hp. split.
  - rewrite !exits_app, exits_ctty, exits_dropped, exits_exit, exits_sigchld.
    rewrite exits_dealloc, app_nil_r.
    case_decide; [done|]. by rewrite exits_dropped.
  - case_decide; [|by eapply procs_clear_pid].
    apply procs_update_pid; [done..| |]; apply zombify_keeps.
Qed.

Lemma holds_task_update s p e f name :
  proc_inv s → procs s !! p = Some e →
  task_port (f e) = task_port e → in_use (f e) = in_use e → pid (f e) = pid e →
  holds_task s p name → holds_task (update_pid p f s) p name.
Proof.
  intros Hinv He Ht Hu Hp Hh q x. rewrite (procs_update_pid s p e) by done.
  rewrite lookup_insert_Some. intros [[<- <-]|[Hq Hx]]; [|by apply Hh].
  rewrite Ht. by apply Hh.
Qed.

Section waitpid.
Context (s : proc_state) (l : list mach_call) (p : Z) (e : pid_entry) (n : port) (code : Z)
  (name : port).
Context (Hinv : proc_inv s) (He : procs s !! p = Some e) (Hst : state e ≠ PROC_STATE_ZOMBIE).
Context (Hn : n ≠ MACH_PORT_NULL) (Hh : holds_task s p name).

Lemma wait_then_die :
  let r := (proc_S_subscribe_exit p n ≫= λ _, proc_S_set_exit_code p code ≫= λ _,
            do_mach_notify_dead_name name) s l in
  exits (trace r) = exits l ++ [SendExit n p code] ∧ procs (post r) = delete p (procs s).
Proof.
  unfold mbind, M_bind. rewrite subscribe_exit_run, He, decide_False by done.
  assert (keeps_entry (set_exit_notify n) e) as Hk by (split; simpl; auto; by intros).
  pose proof (proc_inv_update_pid s p e Hinv He _ Hk) as Hinv1.
  pose proof (procs_update_pid s p e Hinv He (set_exit_notify n) eq_refl eq_refl) as Hp1.
  assert (procs (update_pid p (set_exit_notify n) s) !! p = Some (set_exit_notify n e)) as He1
    by (rewrite Hp1; apply lookup_insert_eq).
  rewrite set_exit_code_run, He1 by done.
  pose proof (proc_inv_update_pid _ _ _ Hinv1 He1 _ (set_exit_code_keeps code _)) as Hinv2.
  pose proof (procs_update_pid _ _ _ Hinv1 He1 (set_exit_code code) eq_refl eq_refl) as Hp2.
  destruct (death_run _ (l ++ dropped (exit_notify e)) p
    (set_exit_code code (set_exit_notify n e)) name Hinv2) as (_ & -> & ->).
  { rewrite Hp2. apply lookup_insert_eq. }
  { eapply holds_task_update; [done|done|done|done|done|].
    by eapply holds_task_update. }
  simpl. unfold exit_msg. rewrite !decide_False by done.
  rewrite exits_app, exits_dropped, app_nil_r. split; [done|].
  by rewrite Hp2, Hp1, !delete_insert_eq.
Qed.

Lemma die_then_wait :
  exit_notify e = MACH_PORT_NULL →
  let r := (proc_S_set_exit_code p code ≫= λ _, do_mach_notify_dead_name name ≫= λ _,
            proc_S_subscribe_exit p n) s l in
  exits (trace r) = exits l ++ [SendExit n p code] ∧ procs (post r) = delete p (procs s) ∧
  res r = PROC_OK.
Proof.
  intros Hn0. unfold mbind, M_bind. rewrite set_exit_code_run, He by done.
  pose proof (proc_inv_update_pid _ _ _ Hinv He _ (set_exit_code_keeps code _)) as Hinv1.
  pose proof (procs_update_pid _ _ _ Hinv He (set_exit_code code) eq_refl eq_refl) as Hp1.
  assert (procs (update_pid p (set_exit_code code) s) !! p = Some (set_exit_code code e)) as He1
    by (rewrite Hp1; apply lookup_insert_eq).
  destruct (death_run _ l p _ name Hinv1 He1) as (Hinv2 & Hx2 & Hp2).
  { by eapply holds_task_update. }
  destruct (do_mach_notify_dead_name name _ l) as [[? s2] l2]. unfold post, trace in *.
  cbn [fst snd] in *. simpl in Hp2, Hx2. rewrite decide_True in Hp2 by done.
  rewrite Hn0 in Hx2. unfold exit_msg in Hx2. rewrite decide_True, app_nil_r in Hx2 by done.
  assert (procs s2 !! p = Some (zombify (set_exit_code code e))) as He2
    by (rewrite Hp2; apply lookup_insert_eq).
  rewrite subscribe_exit_run, He2 by done.
  assert (state (zombify (set_exit_code code e)) = PROC_STATE_ZOMBIE ∧
          exit_code (zombify (set_exit_code code e)) = code) as [Hz Hc]
    by (unfold zombify; by case_decide).
  rewrite decide_True by done. cbn [fst snd]. split_and!; [| |done].
  - rewrite !exits_app, exits_dropped, exits_exit, Hx2, Hc. unfold exit_msg.
    by rewrite decide_False by done.
  - rewrite (procs_clear_pid s2 p _ Hinv2 He2), Hp2, Hp1. by rewrite !delete_insert_eq.
Qed.
End waitpid.

(** C28. The exit protocol, in both orders.  A parent waits for a child by
    subscribing to its exit; the child records its exit code and dies.  Whether
    the subscription comes before the death or after it (the zombie is kept),
    the waiter's port receives exactly one exit message, with the child's pid and
    recorded code, no other exit message is sent, and the child's slot is free
    afterwards while every other process is untouched (#378). *)
Theorem waitpid_either_order s l p e n code name :
  proc_inv s → procs s !! p = Some e → state e ≠ PROC_STATE_ZOMBIE →
  exit_notify e = MACH_PORT_NULL → n ≠ MACH_PORT_NULL → holds_task s p name →
  let before := (proc_S_subscribe_exit p n ≫= λ _, proc_S_set_exit_code p code ≫= λ _,
                 do_mach_notify_dead_name name) s l in
  let after := (proc_S_set_exit_code p code ≫= λ _, do_mach_notify_dead_name name ≫= λ _,
                proc_S_subscribe_exit p n) s l in
  exits (trace before) = exits l ++ [SendExit n p code] ∧ procs (post before) = delete p (procs s) ∧
  exits (trace after) = exits l ++ [SendExit n p code] ∧ procs (post after) = delete p (procs s) ∧
  res after = PROC_OK.
Proof.
  intros Hinv He Hst Hn0 Hn Hh before after.
  destruct (wait_then_die s l p e n code name Hinv He Hst Hn Hh).
  by destruct (die_then_wait s l p e n code name Hinv He Hn Hh Hn0).
Qed.

(** execve keeps the process (#287).  Handing a pid over to a fresh task
    changes its task port, its command line and its signal port, and nothing
    else of the table: pid, parent, group, session, exit code and waiter stay.
    The later death of the old task is ignored, while the new task is now the
    one whose death ends the process, so that the waiter of the old image is
    served by the death of the new one. *)
Theorem exec_handoff_keeps_process s l p e old new cmd code :
  proc_inv s → procs s !! p = Some e → state e = PROC_STATE_RUNNING →
  holds_task s p old → old ≠ new → (∀ q x, procs s !! q = Some x → task_port x ≠ new) →
  exit_notify e ≠ MACH_PORT_NULL →
  let r := proc_S_exec_handoff p new cmd s l in
  res r = PROC_OK ∧
  procs (post r) = <[p := set_cmdline (strncpy_term PROC_CMDLINE_MAX cmd)
                           (set_signal_port MACH_PORT_NULL (set_task_port new e))]> (procs s) ∧
  (∀ l', post (do_mach_notify_dead_name old (post r) l') = post r) ∧
  (∀ l', let d := (proc_S_set_exit_code p code ≫= λ _, do_mach_notify_dead_name new) (post r) l' in
     exits (trace d) = exits l' ++ [SendExit (exit_notify e) p code] ∧
     procs (post d) = delete p (procs s)).
Proof.
  intros Hinv He Hrun Hold Hne Hnew Hw r.
  assert (set_state PROC_STATE_RUNNING e = e) as Hst by (destruct e; simpl in *; by subst).
  pose proof (fr_inv _ _ (exec_handoff_framed s p new cmd s l (framed_refl _ Hinv))) as Hinv1. fold r in Hinv1.
  assert (procs (post r) = <[p := set_cmdline (strncpy_term PROC_CMDLINE_MAX cmd)
            (set_signal_port MACH_PORT_NULL (set_task_port new e))]> (procs s)) as Hp.
  { subst r. rewrite exec_handoff_run, He by done. unfold post. cbn [fst snd].
    rewrite (procs_update_pid s p e) by done. simpl. by rewrite <- Hst at 2. }
  assert (res r = PROC_OK) as Hr by (subst r; by rewrite exec_handoff_run, He).
  set (s1 := post r) in *. set (e1 := set_cmdline _ _) in *.
  assert (procs s1 !! p = Some e1) as He1 by (rewrite Hp; apply lookup_insert_eq).
  assert (holds_task s1 p new) as Hh1.
  { intros q x. rewrite Hp, lookup_insert_Some. intros [[<- <-]|[Hq Hx]]; [done|].
    split; [intros Ht; by destruct (Hnew q x Hx)|congruence]. }
  split_and!; [done|done| |].
  - intros l'. rewrite dead_name_run by done.
    destruct (find_by_task_locked old s1) as [i|] eqn:Hf; [|done]. exfalso.
    destruct (find_by_task_Some s1 old i Hinv1 Hf) as (x & Hx & Htx & _).
    rewrite Hp, lookup_insert_Some in Hx. destruct Hx as [[_ <-]|[Hq Hx]]; [done|].
    by apply (Hold _ x Hx) in Htx.
  - intros l'. unfold mbind, M_bind. rewrite set_exit_code_run, He1 by done.
    edestruct (death_run (update_pid p (set_exit_code code) s1) l' p (set_exit_code code e1) new)
      as (_ & -> & ->).
    + apply (proc_inv_update_pid s1 p e1 Hinv1 He1), set_exit_code_keeps.
    + rewrite (procs_update_pid s1 p e1) by done. apply lookup_insert_eq.
    + by eapply holds_task_update.
    + simpl. unfold exit_msg. rewrite !decide_False by done. split; [done|].
      rewrite (procs_update_pid s1 p e1), Hp by done. by rewrite !delete_insert_eq.
Qed.

(** Reaping any child (waitpid(-1, WNOHANG), #389).  A zombie child of the
    caller is reaped if there is one: its pid and exit code are returned, its
    slot alone is freed, its signal port dropped, and no exit message is sent.
    Otherwise nothing changes, and the result tells a parent with live
    children ([PROC_ERR_NOT_FOUND]) from one without any ([PROC_ERR_NO_CHILD]). *)
Theorem reap_zombie_spec s l pp :
  proc_inv s →
  let '((p, code, r), s', l') := proc_S_reap_zombie pp s l in
  (r = PROC_OK ∧ ∃ e, procs s !! p = Some e ∧ ppid e = pp ∧ state e = PROC_STATE_ZOMBIE ∧
     code = exit_code e ∧ procs s' = delete p (procs s) ∧ l' = l ++ dropped (signal_port e)) ∨
  ((∀ q e, procs s !! q = Some e → ppid e = pp → state e ≠ PROC_STATE_ZOMBIE) ∧
   p = 0 ∧ code = 0 ∧ s' = s ∧ l' = l ∧
   (r = PROC_ERR_NOT_FOUND ∧ (∃ q e, procs s !! q = Some e ∧ ppid e = pp) ∨
    r = PROC_ERR_NO_CHILD ∧ ∀ q e, procs s !! q = Some e → ppid e ≠ pp)).
Proof.
  intros Hinv.
  destruct (reap_zombie_run s l pp Hinv) as [(p & e & He & Hpp & Hz & ->)|(Hno & r & -> & Hr)].
  - left. split; [done|]. exists e. split_and!; try done. by eapply procs_clear_pid.
  - right. done.
Qed.

(** A zombie that nobody has reaped still answers for its task port: the
    dead-name handler drops the port but leaves its name in the slot, so that a
    new task that is registered under a recycled port name is given the dead
    process's pid, and no process is created for it. *)
Theorem register_recycled_name s l p e name pp cmd l0 :
  proc_inv s → next_pid s + 1 < 2 ^ 32 → procs s !! p = Some e →
  exit_notify e = MACH_PORT_NULL → holds_task s p name →
  let s1 := post (do_mach_notify_dead_name name s l0) in
  procs s1 !! p = Some (zombify e) ∧
  res (proc_S_register pp name cmd s1 l) = (p, PROC_OK) ∧
  post (proc_S_register pp name cmd s1 l) = s1.
Proof.
  intros Hinv Hnp He Hn Hh. destruct (death_run s l0 p e name Hinv He Hh) as (Hinv1 & _ & Hp).
  rewrite decide_True in Hp by done. intros s1. fold s1 in Hinv1, Hp.
  assert (procs s1 !! p = Some (zombify e)) as Hz by (rewrite Hp; apply lookup_insert_eq).
  assert (next_pid s1 = next_pid s) as Hnp1.
  { subst s1. rewrite dead_name_run by done. unfold post.
    destruct (find_by_task_locked name s) as [i|]; [|done]. cbn [fst snd].
    unfold clear_pid. case_decide; by rewrite next_pid_update_pid. }
  split; [done|]. rewrite register_run by (done || by rewrite Hnp1).
  assert (task_port (zombify e) = name) as Htz.
  { transitivity (task_port e); [unfold zombify; by case_decide|by apply (Hh p e He)]. }
  rewrite (find_by_task_sole s1 p (zombify e)); [|done..|].
  - destruct (procs_find s1 p _ Hinv1 Hz) as (i & -> & _ & -> & _ & Hpid).
    unfold res, post. cbn [fst snd]. by rewrite Hpid.
  - intros q x. rewrite Hp, lookup_insert_Some. intros [[<- <-]|[Hq Hx]]; [done|].
    intros Hxt. by apply (Hh q x Hx) in Hxt.
Qed.

(** [proc_S_list]: one row per process, no process twice. *)
Lemma proc_list_run s l :
  proc_inv s →
  proc_S_list s l =
    if decide (mach_kr l (VmAllocate (144 * Z.of_nat PROC_MAX_TASKS)) = KERN_SUCCESS)
    then let rows := proc_row <$> filter used (pid_table s) in
         ((rows, Z.of_nat (size (procs s)), PROC_OK), s,
          l ++ [VmAllocate (144 * Z.of_nat PROC_MAX_TASKS)])
    else (([], 0, PROC_ERR_KERNEL), s, l ++ [VmAllocate (144 * Z.of_nat PROC_MAX_TASKS)]).
Proof.
  intros Hinv. unfold proc_S_list. rewrite run_call. case_decide; [|done]. rewrite run_get.
  cbv zeta. rewrite take_ge.
  2: { rewrite length_fmap, length_filter. by rewrite (inv_length _ Hinv). }
  rewrite length_fmap. unfold procs.
  rewrite size_procs_of by (by apply inv_pids). done.
Qed.
End run.

(** ** Instances *)

Lemma register_spec_witness :
  let '((_, r), _, _) := proc_S_register (E := env_ok) 0 100 [] (proc_init 9) [] in
  r = PROC_OK ∨ r = PROC_ERR_NO_SLOT.
Proof.
  pose proof (register_spec (E := env_ok) (proc_init 9) [] 0 100 [] (proc_init_inv 9) eq_refl) as H.
  destruct (proc_S_register 0 100 [] (proc_init 9) []) as [[[new r] s'] l'].
  destruct H as [(e & _ & _ & -> & _)|[_ [(_ & -> & _)|(_ & -> & _)]]]; auto.
Defined.

Lemma example_holds_task : holds_task (single_table example_entry) 2 100.
Proof. by intros q x [-> ->]%example_lookup. Qed.

Lemma waitpid_either_order_witness :
  exits (trace ((proc_S_set_exit_code 2 5 ≫= λ _,
                 do_mach_notify_dead_name (E := env_ok) 100 ≫= λ _,
                 proc_S_subscribe_exit (E := env_ok) 2 77) (single_table example_entry) [])) = [SendExit 77 2 5].
Proof.
  apply (waitpid_either_order (E := env_ok) (single_table example_entry) [] 2 example_entry 77 5 100).
  - apply example_inv.
  - by apply single_procs.
  - done.
  - done.
  - done.
  - apply example_holds_task.
Defined.

(** The same process with a waiter. *)
Definition waited_entry : pid_entry := set_exit_notify 77 example_entry.

Lemma exec_handoff_keeps_process_witness :
  res (proc_S_exec_handoff (E := env_ok) 2 101 [] (single_table waited_entry) []) = PROC_OK.
Proof.
  apply (exec_handoff_keeps_process (E := env_ok) (single_table waited_entry) [] 2 waited_entry
           100 101 [] 5).
  - by apply single_inv.
  - by apply single_procs.
  - done.
  - intros q x. rewrite single_procs by done. case_decide; [by intros [= <-]|done].
  - done.
  - intros q x. rewrite single_procs by done. case_decide; [by intros [= <-]|done].
  - done.
Defined.

Lemma reap_zombie_spec_witness :
  let '((_, _, r), _, _) := proc_S_reap_zombie (E := env_ok) 0 (single_table example_entry) [] in
  r = PROC_OK ∨ r = PROC_ERR_NOT_FOUND ∨ r = PROC_ERR_NO_CHILD.
Proof.
  pose proof (reap_zombie_spec (E := env_ok) (single_table example_entry) [] 0 example_inv) as H.
  destruct (proc_S_reap_zombie 0 (single_table example_entry) []) as [[[[p c] r] s'] l'].
  destruct H as [[-> _]|(_ & _ & _ & _ & _ & [[-> _]|[-> _]])]; auto.
Defined.

Lemma register_recycled_name_witness :
  res (proc_S_register (E := env_ok) 0 100 []
         (post (do_mach_notify_dead_name (E := env_ok) 100 (single_table example_entry) [])) []) = (2, PROC_OK).
Proof.
  apply (register_recycled_name (E := env_ok) (single_table example_entry) [] 2 example_entry).
  - apply example_inv.
  - done.
  - by apply single_procs.
  - done.
  - apply example_holds_task.
Defined.
