(* ===== verification/ProcSignal.v ===== *)
(** * proc_server: signals

    [signo_valid], [sig_default_action], [apply_default_disposition],
    [proc_S_set_signal_port], [proc_S_kill] and [proc_S_killpg] of
    [proc_server/proc_main.c].  A catchable signal is a message on the target's
    signal port; the uncatchable ones, and the default dispositions, act on the
    task port. *)

From S2P Require Import Prelude Mach ProcTable ProcLife.

Definition signo_valid (signo : Z) : bool :=
  bool_decide (signo > 0) && bool_decide (signo < PROC_NSIG).

Inductive sig_dfl := SIG_DFL_TERM | SIG_DFL_STOP | SIG_DFL_IGN.

Definition sig_default_action (signo : Z) : sig_dfl :=
  if decide (signo = PROC_SIGCHLD) then SIG_DFL_IGN
  else if decide (signo = PROC_SIGTSTP ∨ signo = PROC_SIGTTIN ∨ signo = PROC_SIGTTOU)
  then SIG_DFL_STOP
  else SIG_DFL_TERM.

(** A member of the group that the server suspended. *)
Definition to_continue (grp : Z) (e : pid_entry) : Prop :=
  in_use e = true ∧ state e ≠ PROC_STATE_ZOMBIE ∧ pgrp_id e = grp ∧ stopped e = true.
#[global] Instance to_continue_dec g e : Decision (to_continue g e).
Proof. unfold to_continue. apply _. Defined.

(** A live member of the group. *)
Definition in_group (grp : Z) (e : pid_entry) : Prop :=
  in_use e = true ∧ state e ≠ PROC_STATE_ZOMBIE ∧ pgrp_id e = grp.
#[global] Instance in_group_dec g e : Decision (in_group g e).
Proof. unfold in_group. apply _. Defined.

(** [pid_table[k].stopped = 0] for the members to continue. *)
Definition clear_stopped (grp : Z) (s : proc_state) : proc_state :=
  set_table ((λ e, if decide (to_continue grp e) then set_stopped false e else e) <$> pid_table s) s.

Definition is_uncatchable (signo : Z) : Prop :=
  signo = PROC_SIGKILL ∨ signo = PROC_SIGSTOP ∨ signo = PROC_SIGCONT.
#[global] Instance is_uncatchable_dec n : Decision (is_uncatchable n).
Proof. unfold is_uncatchable. apply _. Defined.

Definition kr_result (kr : Z) : Z := if decide (kr = KERN_SUCCESS) then PROC_OK else PROC_ERR_KERNEL.

Section handlers.
Context {E : MachEnv}.
Abbreviation handler := (M proc_state).

(** [e = find_by_pid_locked(pid); if (e) e->stopped = 1;] *)
Definition mark_stopped (p : Z) : handler unit :=
  s ← get;
  match find_by_pid_locked p s with
  | Some i => put (update_at i (set_stopped true) s)
  | None => mret tt
  end.

(** [task_suspend], then the flag when it succeeded. *)
Definition suspend_task (p : Z) (task : port) : handler Z :=
  kr ← call (TaskSuspend task);
  _ ← (if decide (kr = KERN_SUCCESS) then mark_stopped p else mret tt);
  mret (kr_result kr).

Definition apply_default_disposition (p signo : Z) (task : port) : handler Z :=
  if decide (task = MACH_PORT_NULL) then mret PROC_ERR_KERNEL
  else match sig_default_action signo with
       | SIG_DFL_TERM =>
           kr ← call (TaskTerminate task);
           mret (kr_result kr)
       | SIG_DFL_STOP => suspend_task p task
       | SIG_DFL_IGN => mret PROC_OK
       end.

Definition proc_S_set_signal_port (p : Z) (sigport : port) : handler Z :=
  s ← get;
  match find_by_pid_locked p s with
  | None =>
      _ ← drop_right sigport;
      mret PROC_ERR_NOT_FOUND
  | Some i =>
      let old := signal_port (entry_at s i) in
      _ ← put (update_at i (set_signal_port sigport) s);
      _ ← drop_right old;
      mret PROC_OK
  end.

(** Clear a dead signal port, unless another one was swapped in. *)
Definition forget_sigport (p : Z) (sigport : port) : handler unit :=
  s ← get;
  match find_by_pid_locked p s with
  | Some i =>
      if decide (signal_port (entry_at s i) = sigport) then
        _ ← put (update_at i (set_signal_port MACH_PORT_NULL) s);
        _ ← call (MachPortDeallocate sigport);
        mret tt
      else mret tt
  | None => mret tt
  end.

Definition proc_S_kill (p signo : Z) : handler Z :=
  if negb (signo_valid signo) then mret PROC_ERR_BAD_SIGNO
  else
    s ← get;
    match find_by_pid_locked p s with
    | None => mret PROC_ERR_NOT_FOUND
    | Some i =>
        let e := entry_at s i in
        if decide (state e = PROC_STATE_ZOMBIE) then mret PROC_ERR_NOT_FOUND
        else if decide (signo = PROC_SIGCONT) then
          let grp := pgrp_id e in
          let cont_tasks := task_port <$> filter (to_continue grp) (pid_table s) in
          _ ← put (clear_stopped grp s);
          _ ← mfor (λ t, call (TaskResume t) ≫= λ _, mret tt) cont_tasks;
          mret PROC_OK
        else
          let task := task_port e in
          let sigport := if decide (signo = PROC_SIGKILL ∨ signo = PROC_SIGSTOP)
                         then MACH_PORT_NULL else signal_port e in
          if decide (signo = PROC_SIGKILL) then
            kr ← call (TaskTerminate task);
            mret (kr_result kr)
          else if decide (signo = PROC_SIGSTOP) then suspend_task p task
          else if decide (sigport = MACH_PORT_NULL) then
            apply_default_disposition p signo task
          else
            kr ← call (SendSignal sigport signo PROC_PID_NONE);
            if decide (kr = KERN_SUCCESS) then mret PROC_OK
            else
              _ ← forget_sigport p sigport;
              apply_default_disposition p signo task
    end.

(** [switch (signo)] of the uncatchable loop. *)
Definition uncatchable_call (signo : Z) (task : port) : mach_call :=
  if decide (signo = PROC_SIGKILL) then TaskTerminate task
  else if decide (signo = PROC_SIGSTOP) then TaskSuspend task
  else TaskResume task.

Definition killpg_uncatch (signo : Z) (sent : Z) (e : pid_entry) : handler Z :=
  kr ← call (uncatchable_call signo (task_port e));
  mret (if decide (kr = KERN_SUCCESS) then sent + 1 else sent).

Definition killpg_dfl (signo : Z) (sent : Z) (e : pid_entry) : handler Z :=
  r ← apply_default_disposition (pid e) signo (task_port e);
  mret (if decide (r = PROC_OK) then sent + 1 else sent).

Definition killpg_catch (signo : Z) (sent : Z) (e : pid_entry) : handler Z :=
  kr ← call (SendSignal (signal_port e) signo PROC_PID_NONE);
  if decide (kr = KERN_SUCCESS) then mret (sent + 1)
  else
    _ ← forget_sigport (pid e) (signal_port e);
    killpg_dfl signo sent e.

(** [proc_S_killpg]: [(n_sent, result)].  The three arrays of the code hold the
    fields of the members at the time of the scan; here they hold the members. *)
Definition proc_S_killpg (pgrp signo : Z) : handler (Z * Z) :=
  if negb (signo_valid signo) then mret (0, PROC_ERR_BAD_SIGNO)
  else
    s ← get;
    let members := filter (in_group pgrp) (pid_table s) in
    sent ← (if decide (is_uncatchable signo) then mfold (killpg_uncatch signo) 0 members
            else
              let catchable := filter (λ e, signal_port e ≠ MACH_PORT_NULL) members in
              let dfl := filter (λ e, signal_port e = MACH_PORT_NULL) members in
              sent ← mfold (killpg_catch signo) 0 catchable;
              mfold (killpg_dfl signo) sent dfl);
    mret (sent, if decide (sent > 0) then PROC_OK else PROC_ERR_NOT_FOUND).
End handlers.

(** ** What the handlers do *)

(** The task call by which [signo] acts on a process without handler. *)
Definition effect_call (signo : Z) (task : port) : mach_call :=
  if decide (signo = PROC_SIGSTOP) then TaskSuspend task
  else match sig_default_action signo with
       | SIG_DFL_STOP => TaskSuspend task
       | _ => TaskTerminate task
       end.

Definition is_suspend (c : mach_call) : Prop :=
  match c with TaskSuspend _ => True | _ => False end.
#[global] Instance is_suspend_dec c : Decision (is_suspend c).
Proof. destruct c; simpl; apply _. Defined.

Section run.
Context {E : MachEnv}.

Lemma kr_result_ok kr : kr_result kr = PROC_OK ↔ kr = KERN_SUCCESS.
Proof. unfold kr_result. by case_decide. Qed.

Lemma suspend_task_run s l p task :
  suspend_task p task s l =
    (kr_result (mach_kr l (TaskSuspend task)),
     if decide (mach_kr l (TaskSuspend task) = KERN_SUCCESS)
     then update_pid p (set_stopped true) s else s,
     l ++ [TaskSuspend task]).
Proof.
  unfold suspend_task. rewrite run_call. case_decide as Hkr; [|by rewrite run_ret].
  unfold mark_stopped, update_pid. rewrite bind_assoc, run_get.
  by destruct (find_by_pid_locked p s).
Qed.

(** The action on the task: one call, whose return code is the result, and the
    stopped flag when it suspended. *)
Definition act (p signo : Z) (task : port) (s : proc_state) (l : list mach_call) :
    Z * proc_state * list mach_call :=
  let c := effect_call signo task in
  (kr_result (mach_kr l c),
   if decide (is_suspend c ∧ mach_kr l c = KERN_SUCCESS)
   then update_pid p (set_stopped true) s else s,
   l ++ [c]).

Lemma default_disposition_run s l p signo task :
  signo ≠ PROC_SIGSTOP → task ≠ MACH_PORT_NULL → sig_default_action signo ≠ SIG_DFL_IGN →
  apply_default_disposition p signo task s l = act p signo task s l.
Proof.
  intros Hstop Ht Hign. unfold apply_default_disposition, act, effect_call.
  rewrite decide_False, (decide_False (P := signo = _)) by done.
  destruct (sig_default_action signo); [|rewrite suspend_task_run|done].
  - by rewrite run_call, decide_False by tauto.
  - simpl. repeat case_decide; first [done | tauto].
Qed.

Lemma forget_sigport_run s l p e :
  proc_inv s → procs s !! p = Some e →
  forget_sigport p (signal_port e) s l =
    (tt, update_pid p (set_signal_port MACH_PORT_NULL) s, l ++ [MachPortDeallocate (signal_port e)]).
Proof.
  intros Hinv He. unfold forget_sigport, update_pid. rewrite run_get.
  destruct (procs_find s p e Hinv He) as (i & -> & _ & -> & _).
  by rewrite decide_True by done.
Qed.

Lemma set_signal_port_run s l p sp :
  proc_inv s →
  proc_S_set_signal_port p sp s l =
    match procs s !! p with
    | None => (PROC_ERR_NOT_FOUND, s, l ++ dropped sp)
    | Some e => (PROC_OK, update_pid p (set_signal_port sp) s, l ++ dropped (signal_port e))
    end.
Proof.
  intros Hinv. unfold proc_S_set_signal_port. rewrite run_get.
  destruct (find_by_pid_locked p s) as [i|] eqn:Hf.
  - destruct (find_by_pid_Some s p i Hinv Hf) as (e & _ & -> & _ & _ & ->). mrun.
    unfold update_pid. by rewrite Hf.
  - rewrite (find_by_pid_None s p Hinv Hf). by mrun.
Qed.

(** [proc_S_kill] of a live process, for every signal but SIGCONT. *)
Lemma kill_run s l p e signo :
  proc_inv s → procs s !! p = Some e → state e ≠ PROC_STATE_ZOMBIE →
  signo_valid signo = true → signo ≠ PROC_SIGCONT →
  task_port e ≠ MACH_PORT_NULL → sig_default_action signo ≠ SIG_DFL_IGN →
  let send := SendSignal (signal_port e) signo PROC_PID_NONE in
  proc_S_kill p signo s l =
    if decide (signo = PROC_SIGKILL ∨ signo = PROC_SIGSTOP ∨ signal_port e = MACH_PORT_NULL)
    then act p signo (task_port e) s l
    else if decide (mach_kr l send = KERN_SUCCESS) then (PROC_OK, s, l ++ [send])
    else act p signo (task_port e) (update_pid p (set_signal_port MACH_PORT_NULL) s)
           (l ++ [send; MachPortDeallocate (signal_port e)]).
Proof.
  intros Hinv He Hst Hv Hcont Htask Hign send. unfold proc_S_kill. rewrite Hv. cbn [negb].
  rewrite run_get. destruct (procs_find s p e Hinv He) as (i & -> & _ & -> & _).
  rewrite decide_False, (decide_False (P := signo = PROC_SIGCONT)) by done.
  destruct (decide (signo = PROC_SIGKILL)) as [->|Hkill].
  { rewrite decide_True by (by left). done. }
  destruct (decide (signo = PROC_SIGSTOP)) as [->|Hstop].
  { rewrite decide_True by tauto. rewrite suspend_task_run. unfold act, effect_call.
    simpl. repeat case_decide; first [done | tauto]. }
  rewrite (decide_False (P := signo = PROC_SIGKILL ∨ signo = PROC_SIGSTOP)) by tauto.
  destruct (decide (signal_port e = MACH_PORT_NULL)) as [Hs|Hs].
  { rewrite decide_True by tauto. by apply default_disposition_run. }
  rewrite (decide_False (P := _ ∨ _ ∨ _)) by tauto. rewrite run_call. fold send.
  case_decide; [done|]. unfold mbind, M_bind. rewrite (forget_sigport_run s _ p e) by done.
  rewrite <- app_assoc. by apply default_disposition_run.
Qed.

Lemma set_stopped_keeps b e : keeps_entry (set_stopped b) e.
Proof. split; simpl; auto. Qed.
Lemma set_signal_port_keeps sp e : keeps_entry (set_signal_port sp) e.
Proof. split; simpl; auto. Qed.

(** The table after the action on the task of [p]. *)
Lemma act_spec p signo task s l e :
  proc_inv s → procs s !! p = Some e →
  let r := act p signo task s l in
  let c := effect_call signo task in
  trace r = l ++ [c] ∧
  (res r = PROC_OK ↔ mach_kr l c = KERN_SUCCESS) ∧
  procs (post r) = <[p := if decide (is_suspend c ∧ res r = PROC_OK) then set_stopped true e else e]>
                     (procs s).
Proof.
  intros Hinv He r c. subst r. unfold act. fold c. unfold trace, res, post. cbn [fst snd].
  pose proof (kr_result_ok (mach_kr l c)) as Hok. split; [done|]. split; [done|].
  destruct (decide (is_suspend c ∧ mach_kr l c = KERN_SUCCESS)) as [Hd|Hd].
  - rewrite decide_True by tauto. by rewrite (procs_update_pid s p e).
  - rewrite decide_False by tauto. by rewrite insert_id.
Qed.

(** One kill is enough (#398).  A kill of a live process with a task port,
    by a signal whose default is not to be ignored (SIGCONT apart), ends with a
    call that decides its result: success is reported exactly when that call
    succeeded.  The call is the delivery on the registered signal port, which
    then has succeeded and changed nothing; or it is the signal's action on the
    task itself: terminate, or suspend for the stop signals.  A failed delivery
    is never the end: the dead port is forgotten and the action on the task is
    carried out in the same call, and a suspended process is flagged for the
    continue. *)
Theorem kill_takes_effect s l p e signo :
  proc_inv s → procs s !! p = Some e → state e ≠ PROC_STATE_ZOMBIE →
  signo_valid signo = true → signo ≠ PROC_SIGCONT →
  task_port e ≠ MACH_PORT_NULL → sig_default_action signo ≠ SIG_DFL_IGN →
  let r := proc_S_kill p signo s l in
  let send := SendSignal (signal_port e) signo PROC_PID_NONE in
  let c := effect_call signo (task_port e) in
  (trace r = l ++ [send] ∧ mach_kr l send = KERN_SUCCESS ∧ res r = PROC_OK ∧ post r = s ∧
     signal_port e ≠ MACH_PORT_NULL ∧ signo ≠ PROC_SIGKILL ∧ signo ≠ PROC_SIGSTOP) ∨
  (∃ pre e',
     trace r = l ++ pre ++ [c] ∧
     (res r = PROC_OK ↔ mach_kr (l ++ pre) c = KERN_SUCCESS) ∧
     (pre = [] ∧ e' = e ∨
      pre = [send; MachPortDeallocate (signal_port e)] ∧ mach_kr l send ≠ KERN_SUCCESS ∧
      e' = set_signal_port MACH_PORT_NULL e) ∧
     procs (post r) =
       <[p := if decide (is_suspend c ∧ res r = PROC_OK) then set_stopped true e' else e']> (procs s)).
Proof.
  intros Hinv He Hst Hv Hcont Htask Hign r send c. subst r.
  rewrite (kill_run s l p e signo) by done. fold send.
  destruct (decide (_ ∨ _ ∨ _)) as [Hd|Hd].
  { right. exists [], e. destruct (act_spec p signo (task_port e) s l e Hinv He) as (H1 & H2 & H3).
    rewrite app_nil_r. split_and!; [done|apply H2..|by left|done]. }
  destruct (decide (mach_kr l send = KERN_SUCCESS)) as [Hk|Hk].
  { left. split_and!; [done..| | |]; intros ?; apply Hd; tauto. }
  right. exists [send; MachPortDeallocate (signal_port e)], (set_signal_port MACH_PORT_NULL e).
  pose proof (proc_inv_update_pid s p e Hinv He _ (set_signal_port_keeps MACH_PORT_NULL e)) as Hinv1.
  pose proof (procs_update_pid s p e Hinv He (set_signal_port MACH_PORT_NULL) eq_refl eq_refl) as Hp.
  destruct (act_spec p signo (task_port e) (update_pid p (set_signal_port MACH_PORT_NULL) s)
              (l ++ [send; MachPortDeallocate (signal_port e)])
              (set_signal_port MACH_PORT_NULL e)) as (H1 & H2 & H3); [done| |].
  { rewrite Hp. apply lookup_insert_eq. }
  rewrite app_assoc. split_and!; [done|apply H2..|by right|].
  rewrite H3, Hp. by rewrite insert_insert_eq.
Qed.

(** The SIGCONT branch. *)
Lemma kill_cont_run s l p e :
  proc_inv s → procs s !! p = Some e → state e ≠ PROC_STATE_ZOMBIE →
  proc_S_kill p PROC_SIGCONT s l =
    (PROC_OK, clear_stopped (pgrp_id e) s,
     l ++ (TaskResume ∘ task_port <$> filter (to_continue (pgrp_id e)) (pid_table s))).
Proof.
  intros Hinv He Hst. unfold proc_S_kill. cbn [negb signo_valid].
  destruct (procs_find s p e Hinv He) as (i & Hf & _ & Hat & _).
  change (negb (signo_valid PROC_SIGCONT)) with false. cbn iota. rewrite run_get, Hf, Hat.
  rewrite decide_False, decide_True by done. rewrite run_put, run_mfor_calls. by rewrite list_fmap_compose.
Qed.

(** SIGCONT continues the whole stopped group (#247).  A SIGCONT to any live
    member resumes the task of every live member of its group that the server
    had flagged as stopped and no other task, clears exactly those flags, makes
    no other change, and always succeeds, also when nothing was stopped. *)
Theorem kill_cont_spec s l p e :
  proc_inv s → procs s !! p = Some e → state e ≠ PROC_STATE_ZOMBIE →
  let r := proc_S_kill p PROC_SIGCONT s l in
  res r = PROC_OK ∧
  procs (post r) =
    (λ x, if decide (to_continue (pgrp_id e) x) then set_stopped false x else x) <$> procs s ∧
  ∃ resumed, trace r = l ++ resumed ∧
    ∀ c, c ∈ resumed ↔ ∃ q x, procs s !! q = Some x ∧ to_continue (pgrp_id e) x ∧
                              c = TaskResume (task_port x).
Proof.
  intros Hinv He Hst r. subst r. rewrite (kill_cont_run s l p e) by done.
  unfold res, post, trace. cbn [fst snd]. split_and!; [done| |].
  - apply procs_fmap. intros x. split; case_decide; simpl; auto.
  - eexists. split; [reflexivity|]. intros c. rewrite list_elem_of_fmap. split.
    + intros (x & -> & Hx). apply list_elem_of_filter in Hx as [Hc Hx].
      apply list_elem_of_lookup in Hx as [i Hi]. exists (pid x), x. split_and!; [|done|done].
      apply procs_of_lookup; [by apply inv_pids|]. exists i. split; [done|]. by destruct Hc.
    + intros (q & x & Hq & Hc & ->). exists x. split; [done|].
      apply list_elem_of_filter. split; [done|]. apply list_elem_of_lookup.
      destruct (procs_find s q x Hinv Hq) as (i & _ & Hi & _). by exists i.
Qed.

(** The members to continue, when [p] is the only one. *)
Lemma to_continue_sole s p e f :
  proc_inv s → procs s !! p = Some e →
  (∀ q x, procs s !! q = Some x → q ≠ p → ¬ to_continue (pgrp_id e) x) →
  to_continue (pgrp_id e) (f e) →
  filter (to_continue (pgrp_id e)) (pid_table (update_pid p f s)) = [f e].
Proof.
  intros Hinv He Hno Hc. unfold update_pid.
  destruct (procs_find s p e Hinv He) as (i & -> & Hi & _ & Hu & Hp).
  rewrite (update_at_unfold s i e Hi). cbn [set_table pid_table].
  apply filter_insert_sole; [|by eapply lookup_lt_Some|done].
  intros j x Hj Hne Hx. apply (Hno (pid x) x); [| |done].
  - apply procs_of_lookup; [by apply inv_pids|]. exists j. split; [done|]. by destruct Hx.
  - intros Hpx. apply Hne. apply (inv_pids _ Hinv j i x e); [done..|by destruct Hx|done|congruence].
Qed.

Section stop.
Context (s : proc_state) (p : Z) (e : pid_entry).
Context (Hinv : proc_inv s) (He : procs s !! p = Some e) (Hst : state e ≠ PROC_STATE_ZOMBIE).
Context (Htask : task_port e ≠ MACH_PORT_NULL).

(** A successful SIGSTOP. *)
Lemma kill_stop_run l :
  mach_kr l (TaskSuspend (task_port e)) = KERN_SUCCESS →
  proc_S_kill p PROC_SIGSTOP s l =
    (PROC_OK, update_pid p (set_stopped true) s, l ++ [TaskSuspend (task_port e)]).
Proof.
  intros Hk. rewrite (kill_run s l p e) by done. rewrite decide_True by tauto.
  unfold act. change (effect_call PROC_SIGSTOP (task_port e)) with (TaskSuspend (task_port e)).
  rewrite Hk. rewrite decide_True by done. done.
Qed.

(** SIGCONT after [p] alone was flagged. *)
Lemma kill_cont_after_stop l :
  (∀ q x, procs s !! q = Some x → q ≠ p → ¬ to_continue (pgrp_id e) x) →
  let r := proc_S_kill p PROC_SIGCONT (update_pid p (set_stopped true) s) l in
  trace r = l ++ [TaskResume (task_port e)] ∧ res r = PROC_OK ∧
  procs (post r) = <[p := set_stopped false e]> (procs s).
Proof.
  intros Hno r.
  pose proof (proc_inv_update_pid s p e Hinv He _ (set_stopped_keeps true e)) as Hinv1.
  pose proof (procs_update_pid s p e Hinv He (set_stopped true) eq_refl eq_refl) as Hp.
  assert (procs (update_pid p (set_stopped true) s) !! p = Some (set_stopped true e)) as He1
    by (rewrite Hp; apply lookup_insert_eq).
  destruct (procs_pid s p e Hinv He) as [Hpid Hu].
  subst r. rewrite (kill_cont_run _ l p (set_stopped true e)) by done. simpl pgrp_id.
  unfold trace, res, post. cbn [fst snd].
  rewrite (to_continue_sole s p e) by done. split_and!; [done|done|].
  unfold clear_stopped. rewrite procs_fmap; [|intros x; split; case_decide; simpl; auto].
  apply map_eq. intros q. rewrite lookup_fmap, Hp. destruct (decide (q = p)) as [->|Hq].
  - rewrite !lookup_insert_eq. simpl. by rewrite decide_True by done.
  - rewrite !lookup_insert_ne by done. destruct (procs s !! q) as [x|] eqn:Hx; [|done].
    simpl. by rewrite decide_False by (by apply (Hno q)).
Qed.
End stop.

(** Stop and continue undo each other.  When nothing in the group is
    stopped and the suspension succeeds, SIGSTOP followed by SIGCONT suspends and
    resumes the target's task once each, makes no other call, and leaves every
    process of the table as it was. *)
Theorem stop_cont_roundtrip s l p e :
  proc_inv s → procs s !! p = Some e → state e ≠ PROC_STATE_ZOMBIE →
  task_port e ≠ MACH_PORT_NULL →
  (∀ q x, procs s !! q = Some x → pgrp_id x = pgrp_id e → stopped x = false) →
  mach_kr l (TaskSuspend (task_port e)) = KERN_SUCCESS →
  let r := (proc_S_kill p PROC_SIGSTOP ≫= λ _, proc_S_kill p PROC_SIGCONT) s l in
  trace r = l ++ [TaskSuspend (task_port e); TaskResume (task_port e)] ∧
  res r = PROC_OK ∧ procs (post r) = procs s.
Proof.
  intros Hinv He Hst Ht Hno Hk r. subst r. unfold mbind, M_bind.
  rewrite (kill_stop_run s p e Hinv He Hst Ht l Hk).
  destruct (kill_cont_after_stop s p e Hinv He Hst (l ++ [TaskSuspend (task_port e)]))
    as (-> & -> & ->).
  { intros q x Hx _ (_ & _ & Hg & Hs). rewrite (Hno q x) in Hs; done. }
  split_and!; [by rewrite <- app_assoc|done|]. apply insert_id. rewrite He. f_equal.
  specialize (Hno p e He eq_refl). destruct e; simpl in *. by subst.
Qed.

(** ** The frame *)

Lemma clear_stopped_framed s0 g s : framed s0 s → framed s0 (clear_stopped g s).
Proof.
  apply framed_fmap.
  - intros x. split; [split|]; case_decide; simpl; auto.
  - by case_decide.
Qed.

Lemma suspend_task_framed s0 p task : preserves (framed s0) (suspend_task p task).
Proof.
  intros s l Hinv. rewrite suspend_task_run. unfold post. cbn [fst snd].
  case_decide; [|done]. apply framed_update_pid; [|done].
  intros e _. split; [apply set_stopped_keeps|done].
Qed.

Lemma default_disposition_framed s0 p signo task :
  preserves (framed s0) (apply_default_disposition p signo task).
Proof.
  unfold apply_default_disposition. case_decide; [auto with uros|].
  destruct (sig_default_action signo); [auto with uros|apply suspend_task_framed|auto with uros].
Qed.

Lemma forget_sigport_framed s0 p sp : preserves (framed s0) (forget_sigport p sp).
Proof.
  intros s l Hinv. unfold forget_sigport. rewrite run_get.
  destruct (find_by_pid_locked p s) as [i|] eqn:Hf; [|done]. case_decide; [|done].
  mrun. unfold post. cbn [fst snd].
  assert (update_at i (set_signal_port MACH_PORT_NULL) s =
          update_pid p (set_signal_port MACH_PORT_NULL) s) as ->.
  { unfold update_pid. by rewrite Hf. }
  apply framed_update_pid; [|done]. intros e _. split; [apply set_signal_port_keeps|done].
Qed.
#[local] Hint Resolve suspend_task_framed default_disposition_framed forget_sigport_framed : uros.

Lemma set_signal_port_framed s0 p sp : preserves (framed s0) (proc_S_set_signal_port p sp).
Proof.
  intros s l Hfr. rewrite set_signal_port_run by apply Hfr.
  destruct (procs s !! p) as [e|]; [|done].
  apply framed_update_pid; [|done]. intros e' _. split; [apply set_signal_port_keeps|done].
Qed.

Lemma kill_framed s0 p signo : preserves (framed s0) (proc_S_kill p signo).
Proof.
  intros s l Hinv. unfold proc_S_kill. case_match; [done|]. rewrite run_get.
  destruct (find_by_pid_locked p s) as [i|]; [|done]. case_decide; [done|].
  case_decide.
  { rewrite run_put, run_mfor_calls. by apply clear_stopped_framed. }
  cbv zeta. destruct (decide (signo = PROC_SIGKILL)); [done|].
  destruct (decide (signo = PROC_SIGSTOP)); [by apply suspend_task_framed|].
  destruct (decide (_ = MACH_PORT_NULL)); [by apply default_disposition_framed|].
  rewrite run_call. destruct (decide (mach_kr l _ = _)); [done|].
  by apply preserves_bind; auto with uros.
Qed.

Lemma killpg_framed s0 pgrp signo : preserves (framed s0) (proc_S_killpg pgrp signo).
Proof.
  assert (∀ n e, preserves (framed s0) (killpg_dfl signo n e)) as Hdfl.
  { intros n e. unfold killpg_dfl. auto with uros. }
  intros s l Hinv. unfold proc_S_killpg. case_match; [done|]. rewrite run_get.
  apply preserves_bind; [|auto with uros|done]. case_decide.
  - apply preserves_mfold. intros n e. unfold killpg_uncatch. auto with uros.
  - apply preserves_bind; intros; apply preserves_mfold; [|done].
    intros n e. unfold killpg_catch. apply preserves_bind; [auto with uros|].
    intros kr. case_decide; auto with uros.
Qed.

(** SIGCONT to a group with nothing stopped. *)
Lemma kill_cont_nothing s l p e :
  proc_inv s → procs s !! p = Some e → state e ≠ PROC_STATE_ZOMBIE →
  (∀ q x, procs s !! q = Some x → ¬ to_continue (pgrp_id e) x) →
  let r := proc_S_kill p PROC_SIGCONT s l in
  trace r = l ∧ res r = PROC_OK ∧ procs (post r) = procs s.
Proof.
  intros Hinv He Hst Hno r. subst r. rewrite (kill_cont_run s l p e) by done.
  unfold trace, res, post. cbn [fst snd]. split_and!; [|done|].
  - rewrite filter_none; [apply app_nil_r|]. intros i x Hi Hc. apply (Hno (pid x) x); [|done].
    apply procs_of_lookup; [by apply inv_pids|]. exists i. split; [done|]. by destruct Hc.
  - unfold clear_stopped. rewrite procs_fmap; [|intros x; split; case_decide; simpl; auto].
    apply map_eq. intros q. rewrite lookup_fmap. destruct (procs s !! q) as [x|] eqn:Hx; [|done].
    simpl. by rewrite decide_False by (by apply (Hno q)).
Qed.

(** SIGSTOP is not idempotent: the flag is one bit, the suspension of a Mach
    task is a count.  Two SIGSTOPs suspend the task twice; the SIGCONT that
    follows resumes it once and clears the flag; a further SIGCONT makes no call
    at all.  The process stays suspended. *)
Theorem stop_twice_not_resumed s l p e :
  proc_inv s → procs s !! p = Some e → state e ≠ PROC_STATE_ZOMBIE →
  task_port e ≠ MACH_PORT_NULL →
  (∀ q x, procs s !! q = Some x → pgrp_id x = pgrp_id e → stopped x = false) →
  (∀ l', mach_kr l' (TaskSuspend (task_port e)) = KERN_SUCCESS) →
  let t := task_port e in
  let r := (proc_S_kill p PROC_SIGSTOP ≫= λ _, proc_S_kill p PROC_SIGSTOP ≫= λ _,
            proc_S_kill p PROC_SIGCONT ≫= λ _, proc_S_kill p PROC_SIGCONT) s l in
  trace r = l ++ [TaskSuspend t; TaskSuspend t; TaskResume t] ∧ procs (post r) = procs s.
Proof.
  intros Hinv He Hst Ht Hno Hk t r. subst r t.
  assert (Hno' : ∀ q x, procs s !! q = Some x → ¬ to_continue (pgrp_id e) x).
  { intros q x Hx (_ & _ & Hg & Hs). rewrite (Hno q x) in Hs; done. }
  unfold mbind, M_bind. rewrite (kill_stop_run s p e Hinv He Hst Ht l (Hk _)).
  pose proof (proc_inv_update_pid s p e Hinv He _ (set_stopped_keeps true e)) as Hinv1.
  pose proof (procs_update_pid s p e Hinv He (set_stopped true) eq_refl eq_refl) as Hp.
  set (s1 := update_pid p (set_stopped true) s) in *.
  assert (procs s1 !! p = Some (set_stopped true e)) as He1
    by (rewrite Hp; apply lookup_insert_eq).
  rewrite (kill_stop_run s1 p (set_stopped true e) Hinv1 He1 Hst Ht _ (Hk _)).
  assert (update_pid p (set_stopped true) s1 = s1) as ->.
  { subst s1. by rewrite (update_pid_twice s p e). }
  set (l1 := (l ++ _) ++ _).
  destruct (kill_cont_after_stop s p e Hinv He Hst l1) as (Htr & Hr & Hpost); [by eauto|].
  fold s1 in Htr, Hr, Hpost. pose proof (fr_inv _ _ (kill_framed s1 p PROC_SIGCONT s1 l1 (framed_refl _ Hinv1))) as Hinv2.
  destruct (proc_S_kill p PROC_SIGCONT s1 l1) as [[r2 s2] l2]. unfold post, trace in *.
  cbn [fst snd] in *. rewrite insert_id in Hpost.
  2: { rewrite He. f_equal. specialize (Hno p e He eq_refl). destruct e; simpl in *. by subst. }
  destruct (kill_cont_nothing s2 l2 p e) as (Htr3 & _ & Hp3); [done|by rewrite Hpost|done| |].
  { intros q x. rewrite Hpost. apply Hno'. }
  unfold trace, post in Htr3, Hp3. rewrite Htr3, Hp3, Htr, Hpost. subst l1.
  by rewrite <- !app_assoc.
Qed.

(** ** Signals to a group *)

Lemma signo_valid_uncatchable signo : is_uncatchable signo → signo_valid signo = true.
Proof. intros [->|[->| ->]]; done. Qed.

Lemma run_killpg_uncatch {A} signo n e (f : Z → M proc_state A) s l :
  let c := uncatchable_call signo (task_port e) in
  (killpg_uncatch signo n e ≫= f) s l =
    f (if decide (mach_kr l c = KERN_SUCCESS) then n + 1 else n) s (l ++ [c]).
Proof. done. Qed.

Lemma killpg_uncatch_run signo s l n es :
  ∃ sent, mfold (killpg_uncatch signo) n es s l =
            (sent, s, l ++ (uncatchable_call signo ∘ task_port <$> es)) ∧
          n ≤ sent ≤ n + Z.of_nat (length es).
Proof.
  revert n l. induction es as [|e es IH]; intros n l.
  { exists n. simpl. rewrite app_nil_r. split; [done|lia]. }
  cbn [mfold]. rewrite run_killpg_uncatch.
  set (n' := if decide _ then _ else _). assert (n ≤ n' ≤ n + 1) by (subst n'; case_decide; lia).
  destruct (IH n' (l ++ [uncatchable_call signo (task_port e)])) as (sent & -> & Hs).
  exists sent. rewrite <- app_assoc. split; [done|]. simpl length. lia.
Qed.

Lemma killpg_uncatchable_run s l pgrp signo :
  is_uncatchable signo →
  ∃ sent, proc_S_killpg pgrp signo s l =
    ((sent, if decide (sent > 0) then PROC_OK else PROC_ERR_NOT_FOUND), s,
     l ++ (uncatchable_call signo ∘ task_port <$> filter (in_group pgrp) (pid_table s))) ∧
    0 ≤ sent ≤ Z.of_nat (length (filter (in_group pgrp) (pid_table s))).
Proof.
  intros Hu. unfold proc_S_killpg. rewrite (signo_valid_uncatchable signo Hu). cbn [negb].
  rewrite run_get. cbv zeta. rewrite decide_True by done.
  destruct (killpg_uncatch_run signo s l 0 (filter (in_group pgrp) (pid_table s)))
    as (sent & Hrun & Hs).
  exists sent. rewrite (run_known _ _ _ _ _ _ _ Hrun). split; [done|lia].
Qed.

(** A signal the target cannot catch, sent to a group: every live member's
    task gets exactly one terminate, suspend or resume call, in table order,
    and no other call is made; the table is not changed; the count reported is
    at most the number of members, and the result is an error exactly when no
    call succeeded. *)
Theorem killpg_uncatchable_spec s l pgrp signo :
  is_uncatchable signo →
  ∃ sent, proc_S_killpg pgrp signo s l =
    ((sent, if decide (sent > 0) then PROC_OK else PROC_ERR_NOT_FOUND), s,
     l ++ (uncatchable_call signo ∘ task_port <$> filter (in_group pgrp) (pid_table s))) ∧
    0 ≤ sent ≤ Z.of_nat (length (filter (in_group pgrp) (pid_table s))).
Proof. apply killpg_uncatchable_run. Qed.

(** A group stopped as a whole is not continued by kill: a SIGSTOP through
    killpg suspends every live member but flags none, so that the SIGCONT of
    kill, which resumes the flagged members of the group, makes no call. *)
Theorem killpg_stop_not_continued s l p e :
  proc_inv s → procs s !! p = Some e → state e ≠ PROC_STATE_ZOMBIE →
  (∀ q x, procs s !! q = Some x → pgrp_id x = pgrp_id e → stopped x = false) →
  let r := (proc_S_killpg (pgrp_id e) PROC_SIGSTOP ≫= λ _, proc_S_kill p PROC_SIGCONT) s l in
  trace r = l ++ (TaskSuspend ∘ task_port <$> filter (in_group (pgrp_id e)) (pid_table s)) ∧
  TaskSuspend (task_port e) ∈ drop (length l) (trace r) ∧ res r = PROC_OK.
Proof.
  intros Hinv He Hst Hno r. subst r.
  destruct (killpg_uncatchable_run s l (pgrp_id e) PROC_SIGSTOP) as (sent & Hrun & _);
    [right; by left|].
  rewrite (run_known _ _ _ _ _ _ _ Hrun).
  destruct (kill_cont_nothing s (l ++ (uncatchable_call PROC_SIGSTOP ∘ task_port <$>
              filter (in_group (pgrp_id e)) (pid_table s))) p e) as (-> & -> & _); [done..| |].
  { intros q x Hx (_ & _ & Hg & Hs). rewrite (Hno q x) in Hs; done. }
  split_and!; [done| |done]. rewrite drop_app_length. apply list_elem_of_fmap.
  exists e. split; [done|]. apply list_elem_of_filter.
  destruct (procs_find s p e Hinv He) as (i & _ & Hi & _ & Hu & _).
  split; [done|]. by eapply list_elem_of_lookup_2.
Qed.

Definition is_send (c : mach_call) : Prop :=
  match c with SendSignal _ _ _ => True | _ => False end.
#[global] Instance is_send_dec c : Decision (is_send c).
Proof. destruct c; simpl; apply _. Defined.

Lemma mark_stopped_emits p : emits is_send (mark_stopped p) [].
Proof.
  intros s l. unfold mark_stopped. rewrite run_get.
  destruct (find_by_pid_locked p s); unfold trace; simpl; by rewrite app_nil_r.
Qed.

Lemma default_disposition_emits p signo task :
  emits is_send (apply_default_disposition p signo task) [].
Proof.
  unfold apply_default_disposition. case_decide; [apply emits_ret|].
  destruct (sig_default_action signo); [| |apply emits_ret].
  - apply emits_nil_bind; [apply emits_nil_call; by intros []|intros; apply emits_ret].
  - apply emits_nil_bind; [apply emits_nil_call; by intros []|]. intros kr.
    apply emits_nil_bind; [|intros; apply emits_ret].
    case_decide; [apply mark_stopped_emits|apply emits_ret].
Qed.

Lemma forget_sigport_emits p sp : emits is_send (forget_sigport p sp) [].
Proof.
  intros s l. unfold forget_sigport. rewrite run_get.
  destruct (find_by_pid_locked p s) as [i|]; [|unfold trace; simpl; by rewrite app_nil_r].
  case_decide; [|unfold trace; simpl; by rewrite app_nil_r].
  mrun. unfold trace. simpl. by rewrite list_basics.list.filter_app.
Qed.

Lemma killpg_dfl_emits signo n e : emits is_send (killpg_dfl signo n e) [].
Proof.
  apply emits_nil_bind; [apply default_disposition_emits|intros; apply emits_ret].
Qed.

Lemma concat_fmap_nil {A B} (xs : list A) : concat ((λ _, [] : list B) <$> xs) = [].
Proof. by induction xs. Qed.

Lemma concat_fmap_single {A B} (f : A → B) (xs : list A) : concat ((λ x, [f x]) <$> xs) = f <$> xs.
Proof. induction xs; [done|]. simpl. by f_equal. Qed.

(** A catchable signal to a group posts exactly one message to the signal
    port of each live member that registered one, in table order, and posts
    to no other port, whatever the deliveries answer and whatever slots are
    cleared on the way. *)
Theorem killpg_catchable_sends s l pgrp signo :
  signo_valid signo = true → ¬ is_uncatchable signo →
  filter is_send (trace (proc_S_killpg pgrp signo s l)) =
    filter is_send l ++
    ((λ e, SendSignal (signal_port e) signo PROC_PID_NONE) <$>
      filter (λ e, signal_port e ≠ MACH_PORT_NULL) (filter (in_group pgrp) (pid_table s))).
Proof.
  intros Hv Hu. unfold proc_S_killpg. rewrite Hv. cbn [negb]. rewrite run_get. cbv zeta.
  rewrite decide_False by done. 
  set (es := filter (λ e, signal_port e ≠ MACH_PORT_NULL) _).
  set (ds := filter (λ e, signal_port e = MACH_PORT_NULL) _).
  rewrite <- (app_nil_r (_ <$> es)).
  apply (emits_bind is_send); [|intros; apply emits_ret].
  rewrite <- (app_nil_r (_ <$> es)). rewrite <- (concat_fmap_single _ es).
  apply (emits_bind is_send).
  - apply (emits_mfold is_send). intros n e _.
    apply (emits_bind is_send _ _ [_] []).
    { intros s' l'. unfold trace, call. simpl. by rewrite list_basics.list.filter_app. }
    intros kr.
    case_decide; [apply emits_ret|].
    apply emits_nil_bind; [apply forget_sigport_emits|intros; apply killpg_dfl_emits].
  - intros n. rewrite <- (concat_fmap_nil ds). apply (emits_mfold is_send).
    intros; apply killpg_dfl_emits.
Qed.
End run.

(** ** Instances *)

Lemma kill_takes_effect_witness :
  let r := proc_S_kill (E := env_ok) 2 PROC_SIGTERM (single_table example_entry) [] in
  ∃ pre, trace r = pre ++ [TaskTerminate 100].
Proof.
  cbv zeta.
  destruct (kill_takes_effect (E := env_ok) (single_table example_entry) [] 2 example_entry PROC_SIGTERM)
    as [H|(pre & e' & -> & _)].
  - apply example_inv.
  - by apply single_procs.
  - done.
  - done.
  - done.
  - done.
  - done.
  - by destruct H as (_ & _ & _ & _ & H & _).
  - by exists pre.
Defined.

Lemma kill_cont_spec_witness :
  res (proc_S_kill (E := env_ok) 2 PROC_SIGCONT (single_table (set_stopped true example_entry)) []) =
    PROC_OK.
Proof.
  apply (kill_cont_spec (E := env_ok) (single_table (set_stopped true example_entry)) [] 2
           (set_stopped true example_entry)).
  - by apply single_inv.
  - by apply single_procs.
  - done.
Defined.

Lemma stop_cont_roundtrip_witness :
  trace ((proc_S_kill (E := env_ok) 2 PROC_SIGSTOP ≫= λ _, proc_S_kill (E := env_ok) 2 PROC_SIGCONT)
           (single_table example_entry) []) = [TaskSuspend 100; TaskResume 100].
Proof.
  apply (stop_cont_roundtrip (E := env_ok) (single_table example_entry) [] 2 example_entry).
  - apply example_inv.
  - by apply single_procs.
  - done.
  - done.
  - by intros q x [-> ->]%example_lookup.
  - done.
Defined.

Lemma stop_twice_not_resumed_witness :
  trace ((proc_S_kill (E := env_ok) 2 PROC_SIGSTOP ≫= λ _, proc_S_kill (E := env_ok) 2 PROC_SIGSTOP ≫= λ _,
          proc_S_kill (E := env_ok) 2 PROC_SIGCONT ≫= λ _, proc_S_kill (E := env_ok) 2 PROC_SIGCONT)
           (single_table example_entry) []) =
    [TaskSuspend 100; TaskSuspend 100; TaskResume 100].
Proof.
  apply (stop_twice_not_resumed (E := env_ok) (single_table example_entry) [] 2 example_entry).
  - apply example_inv.
  - by apply single_procs.
  - done.
  - done.
  - by intros q x [-> ->]%example_lookup.
  - done.
Defined.

Lemma killpg_uncatchable_spec_witness :
  post (proc_S_killpg (E := env_ok) 2 PROC_SIGKILL (single_table example_entry) []) =
    single_table example_entry.
Proof.
  destruct (killpg_uncatchable_spec (E := env_ok) (single_table example_entry) [] 2 PROC_SIGKILL)
    as (sent & -> & _); [by left|done].
Defined.

Lemma killpg_stop_not_continued_witness :
  trace ((proc_S_killpg (E := env_ok) (pgrp_id example_entry) PROC_SIGSTOP ≫= λ _,
          proc_S_kill (E := env_ok) 2 PROC_SIGCONT) (single_table example_entry) []) =
    TaskSuspend ∘ task_port <$> filter (in_group 2) (pid_table (single_table example_entry)).
Proof.
  apply (killpg_stop_not_continued (E := env_ok) (single_table example_entry) [] 2 example_entry).
  - apply example_inv.
  - by apply single_procs.
  - done.
  - by intros q x [-> ->]%example_lookup.
Defined.

Lemma killpg_catchable_sends_witness :
  filter is_send (trace (proc_S_killpg (E := env_ok) 2 PROC_SIGTERM (single_table example_entry) [])) =
    (λ e, SendSignal (signal_port e) PROC_SIGTERM PROC_PID_NONE) <$>
      filter (λ e, signal_port e ≠ MACH_PORT_NULL)
        (filter (in_group 2) (pid_table (single_table example_entry))).
Proof.
  apply (killpg_catchable_sends (E := env_ok) (single_table example_entry) [] 2 PROC_SIGTERM);
    [done|]. by intros [?|[?|?]].
Defined.
