(* ===== verification/ProcSession.v ===== *)
(** * proc_server: sessions, groups, the controlling tty, and shutdown

    [proc_S_setsid], [proc_S_setpgid], the getters, the four controlling-tty
    handlers and [proc_S_shutdown] of [proc_server/proc_main.c]. *)

From S2P Require Import Prelude Mach ProcTable ProcLife ProcSignal.

Definition NETNAME_SUCCESS : Z := 0.
Definition PROC_SHUTDOWN_HALT : Z := 0.
Definition PROC_SHUTDOWN_REBOOT : Z := 1.
Definition HOST_REBOOT_HALT : Z := 8.
Definition PROC_DRAIN_GRACE_US : Z := 800000.
(** "/proc" *)
Definition PROC_MOUNT_PATH : list Z := [47; 112; 114; 111; 99].

Definition has_pgrp (g : Z) (e : pid_entry) : Prop := in_use e = true ∧ pgrp_id e = g.
#[global] Instance has_pgrp_dec g e : Decision (has_pgrp g e).
Proof. unfold has_pgrp. apply _. Defined.

Section handlers.
Context {E : MachEnv}.
Abbreviation handler := (M proc_state).

(** [(new_sid, result)] *)
Definition proc_S_setsid (p : Z) : handler (Z * Z) :=
  s ← get;
  match find_by_pid_locked p s with
  | None => mret (0, PROC_ERR_NOT_FOUND)
  | Some i =>
      match find_slot (has_pgrp p) (pid_table s) with
      | Some _ => mret (0, PROC_ERR_PERM)
      | None =>
          _ ← put (update_at i (set_fg_pgrp_id 0 ∘ set_ctty_port MACH_PORT_NULL ∘
                                set_pgrp_id p ∘ set_sid p) s);
          mret (p, PROC_OK)
      end
  end.

Definition proc_S_setpgid (p pgrp : Z) : handler Z :=
  s ← get;
  match find_by_pid_locked p s with
  | None => mret PROC_ERR_NOT_FOUND
  | Some i =>
      let target := if decide (pgrp = 0) then p else pgrp in
      let other := find_slot (has_pgrp target) (pid_table s) in
      match other with
      | Some j =>
          if decide (sid (entry_at s j) ≠ sid (entry_at s i)) then mret PROC_ERR_DIFF_SESS
          else _ ← put (update_at i (set_pgrp_id target) s); mret PROC_OK
      | None => _ ← put (update_at i (set_pgrp_id target) s); mret PROC_OK
      end
  end.

(** [(sid, result)] *)
Definition proc_S_getsid (p : Z) : handler (Z * Z) :=
  s ← get;
  mret match find_by_pid_locked p s with
       | Some i => (sid (entry_at s i), PROC_OK)
       | None => (0, PROC_ERR_NOT_FOUND)
       end.

(** [(pgrp, result)] *)
Definition proc_S_getpgid (p : Z) : handler (Z * Z) :=
  s ← get;
  mret match find_by_pid_locked p s with
       | Some i => (pgrp_id (entry_at s i), PROC_OK)
       | None => (0, PROC_ERR_NOT_FOUND)
       end.

Definition proc_S_set_ctty (session : Z) (tty : port) : handler Z :=
  s ← get;
  match find_session_leader_locked session s with
  | None => _ ← drop_right tty; mret PROC_ERR_NOT_FOUND
  | Some i =>
      if decide (ctty_port (entry_at s i) ≠ MACH_PORT_NULL)
      then _ ← drop_right tty; mret PROC_ERR_PERM
      else
        _ ← put (update_at i (λ e, set_fg_pgrp_id (pgrp_id e) (set_ctty_port tty e)) s);
        mret PROC_OK
  end.

Definition proc_S_clear_ctty (session : Z) : handler Z :=
  s ← get;
  match find_session_leader_locked session s with
  | None => mret PROC_ERR_NOT_FOUND
  | Some i =>
      let old := ctty_port (entry_at s i) in
      _ ← put (update_at i (set_fg_pgrp_id 0 ∘ set_ctty_port MACH_PORT_NULL) s);
      _ ← notify_ctty_release old session;
      _ ← drop_right old;
      mret PROC_OK
  end.

Definition proc_S_tcsetpgrp (session pgrp : Z) : handler Z :=
  s ← get;
  match find_session_leader_locked session s with
  | None => mret PROC_ERR_NOT_FOUND
  | Some i =>
      if decide (ctty_port (entry_at s i) = MACH_PORT_NULL) then mret PROC_ERR_NO_CTTY
      else _ ← put (update_at i (set_fg_pgrp_id pgrp) s); mret PROC_OK
  end.

(** [(pgrp, result)] *)
Definition proc_S_tcgetpgrp (session : Z) : handler (Z * Z) :=
  s ← get;
  mret match find_session_leader_locked session s with
       | None => (0, PROC_ERR_NOT_FOUND)
       | Some i =>
           if decide (ctty_port (entry_at s i) = MACH_PORT_NULL) then (0, PROC_ERR_NO_CTTY)
           else (fg_pgrp_id (entry_at s i), PROC_OK)
       end.

(** ** Shutdown *)

Definition drain_target (e : pid_entry) : Prop :=
  in_use e = true ∧ state e ≠ PROC_STATE_ZOMBIE ∧ signal_port e ≠ MACH_PORT_NULL.
#[global] Instance drain_target_dec e : Decision (drain_target e).
Proof. unfold drain_target. apply _. Defined.

(** The second scan of the code only counts, for a message on the console. *)
Definition proc_drain_sigterm_sweep : handler unit :=
  s ← get;
  let term := filter drain_target (pid_table s) in
  match term with
  | [] => mret tt
  | _ =>
      _ ← mfor (λ e, call (SendSignal (signal_port e) PROC_SIGTERM PROC_PID_NONE) ≫= λ _, mret tt) term;
      _ ← call (Usleep PROC_DRAIN_GRACE_US);
      mret tt
  end.

(** The lines the loop over the newline-separated list visits. *)
Fixpoint split_lines (cur : list Z) (l : list Z) : list (list Z) :=
  match l with
  | [] => [cur]
  | b :: l => if decide (b = 10) then cur :: split_lines [] l else split_lines (cur ++ [b]) l
  end.

Definition sync_mount (line : list Z) : handler unit :=
  if decide (line ≠ [] ∧ line ≠ PROC_MOUNT_PATH) then
    '(kr, out) ← call_out (NetnameLookUpMount line);
    let fs_port := default MACH_PORT_NULL (out !! 0%nat) in
    if decide (kr = NETNAME_SUCCESS ∧ fs_port ≠ MACH_PORT_NULL) then
      _ ← call (FsUnmount fs_port);
      _ ← call (MachPortDeallocate fs_port);
      mret tt
    else mret tt
  else mret tt.

Definition proc_drain_fs_sync : handler unit :=
  '(kr, prefixes) ← call_out NetnameListMounts;
  if decide (kr = NETNAME_SUCCESS)
  then mfor sync_mount (split_lines [] (cstr prefixes))
  else mret tt.

Definition proc_S_shutdown (mode : Z) : handler Z :=
  let go (options : Z) : handler Z :=
    _ ← proc_drain_sigterm_sweep;
    _ ← proc_drain_fs_sync;
    kr ← call (HostReboot options);
    mret (kr_result kr) in
  if decide (mode = PROC_SHUTDOWN_HALT) then go HOST_REBOOT_HALT
  else if decide (mode = PROC_SHUTDOWN_REBOOT) then go 0
  else mret PROC_ERR_INVAL.
End handlers.

(** ** What the handlers do *)

Lemma find_pgrp_Some s g j :
  proc_inv s → find_slot (has_pgrp g) (pid_table s) = Some j →
  ∃ x, procs s !! pid x = Some x ∧ entry_at s j = x ∧ pgrp_id x = g.
Proof.
  intros Hinv Hf. apply find_slot_Some in Hf as (x & Hj & [Hu Hg] & _).
  exists x. split_and!; [|by apply entry_at_lookup|done].
  apply procs_of_lookup; [by apply inv_pids|]. by exists j.
Qed.

Lemma find_pgrp_None s g :
  proc_inv s → find_slot (has_pgrp g) (pid_table s) = None →
  ∀ q x, procs s !! q = Some x → pgrp_id x ≠ g.
Proof.
  intros Hinv Hf q x Hx Hg. rewrite find_slot_None in Hf.
  destruct (procs_find s q x Hinv Hx) as (i & _ & Hi & _ & Hu & _). by apply (Hf i x).
Qed.

(** The session leader, on the map. *)
Lemma find_leader s session :
  proc_inv s →
  match find_session_leader_locked session s with
  | Some i => ∃ e, procs s !! session = Some e ∧ sid e = session ∧ entry_at s i = e ∧
                   ∀ f, update_at i f s = update_pid session f s
  | None => session = 0 ∨ ∀ e, procs s !! session = Some e → sid e ≠ session
  end.
Proof.
  intros Hinv. unfold find_session_leader_locked. case_decide; [by left|].
  destruct (find_by_pid_locked session s) as [i|] eqn:Hf.
  - destruct (find_by_pid_Some s session i Hinv Hf) as (e & _ & Hat & _ & _ & He).
    rewrite Hat. case_decide as Hs.
    + exists e. split_and!; [done..|]. intros f. unfold update_pid. by rewrite Hf.
    + right. intros e'. rewrite He. by intros [= <-].
  - right. intros e. by rewrite (find_by_pid_None s session Hinv Hf).
Qed.

(** A process is found as the leader of its session. *)
Lemma leader_found s session e :
  proc_inv s → procs s !! session = Some e → sid e = session →
  ∃ i, find_session_leader_locked session s = Some i ∧ entry_at s i = e ∧
       ∀ f, update_at i f s = update_pid session f s.
Proof.
  intros Hinv He Hs. unfold find_session_leader_locked.
  pose proof (procs_bound s session e Hinv He) as Hb. unfold PROC_PID_INIT in Hb.
  rewrite decide_False by lia.
  destruct (procs_find s session e Hinv He) as (i & Hf & _ & Hat & _). rewrite Hf, Hat.
  rewrite decide_True by done. exists i. split_and!; [done..|].
  intros f. unfold update_pid. by rewrite Hf.
Qed.

(** One session per process group, and only group ids that have been issued. *)
Record session_inv (s : proc_state) : Prop := {
  si_inv : proc_inv s;
  si_group : ∀ q x r y, procs s !! q = Some x → procs s !! r = Some y →
               pgrp_id x = pgrp_id y → sid x = sid y;
  si_issued : ∀ q x, procs s !! q = Some x → pgrp_id x < next_pid s;
  si_zero : ∀ q x, procs s !! q = Some x → pgrp_id x = 0 → sid x = 0 }.

Lemma session_inv_framed s0 s : session_inv s0 → framed s0 s → session_inv s.
Proof.
  intros [_ Hg Hi Hz] [Hinv Hn Hh Hids]. split; [done| | |].
  - intros q x r y Hx Hy Heq.
    destruct (Hids q x Hx) as (x0 & Hx0 & _ & Hxg & ->), (Hids r y Hy) as (y0 & Hy0 & _ & Hyg & ->).
    apply (Hg q x0 r y0); [done..|congruence].
  - intros q x Hx. destruct (Hids q x Hx) as (x0 & Hx0 & _ & -> & _). rewrite Hn. by eapply Hi.
  - intros q x Hx. destruct (Hids q x Hx) as (x0 & Hx0 & _ & -> & ->). by eapply Hz.
Qed.

Section run.
Context {E : MachEnv}.

Definition new_leader (p : Z) : pid_entry → pid_entry :=
  set_fg_pgrp_id 0 ∘ set_ctty_port MACH_PORT_NULL ∘ set_pgrp_id p ∘ set_sid p.

(** setsid.  It fails on an unknown pid, and with [PROC_ERR_PERM] exactly when
    some process belongs to the group named by the pid.  Otherwise the process
    becomes the leader of a session and a group of its own: nobody else is in
    that group, it has no controlling terminal, no other process changes, and
    no call is made (a controlling terminal it held is not released). *)
Theorem setsid_spec s l p :
  proc_inv s →
  let '((new, r), s', l') := proc_S_setsid p s l in
  l' = l ∧
  match procs s !! p with
  | None => r = PROC_ERR_NOT_FOUND ∧ new = 0 ∧ s' = s
  | Some e =>
      (r = PROC_ERR_PERM ∧ new = 0 ∧ s' = s ∧ ∃ q x, procs s !! q = Some x ∧ pgrp_id x = p) ∨
      (r = PROC_OK ∧ new = p ∧ (∀ q x, procs s !! q = Some x → pgrp_id x ≠ p) ∧
       procs s' = <[p := new_leader p e]> (procs s) ∧
       ∀ q x, procs s' !! q = Some x → pgrp_id x = p → q = p ∧ sid x = p)
  end.
Proof.
  intros Hinv. unfold proc_S_setsid. rewrite run_get.
  destruct (find_by_pid_locked p s) as [i|] eqn:Hf.
  2: { split; [done|]. by rewrite (find_by_pid_None s p Hinv Hf). }
  destruct (find_by_pid_Some s p i Hinv Hf) as (e & _ & _ & _ & _ & He). rewrite He.
  destruct (find_slot (has_pgrp p) (pid_table s)) as [j|] eqn:Hg.
  { split; [done|]. left. split_and!; [done..|].
    destruct (find_pgrp_Some s p j Hinv Hg) as (x & Hx & _ & Hxg). by exists (pid x), x. }
  pose proof (find_pgrp_None s p Hinv Hg) as Hno. rewrite run_put. split; [done|]. right.
  assert (update_at i (new_leader p) s = update_pid p (new_leader p) s) as Hupd
    by (unfold update_pid; by rewrite Hf).
  change (set_fg_pgrp_id 0 ∘ set_ctty_port MACH_PORT_NULL ∘ set_pgrp_id p ∘ set_sid p)
    with (new_leader p). rewrite Hupd.
  pose proof (procs_update_pid s p e Hinv He (new_leader p) eq_refl eq_refl) as Hp.
  split_and!; [done..|]. intros q x. rewrite Hp, lookup_insert_Some.
  intros [[<- <-]|[_ Hx]] Hxp; [done|]. by apply (Hno q x) in Hx.
Qed.

Lemma setsid_session_inv p : preserves session_inv (proc_S_setsid p).
Proof.
  intros s l [Hinv Hg Hi Hz0]. unfold proc_S_setsid. rewrite run_get.
  destruct (find_by_pid_locked p s) as [i|] eqn:Hf; [|done].
  destruct (find_slot (has_pgrp p) (pid_table s)) as [j|] eqn:Hgr; [done|].
  pose proof (find_pgrp_None s p Hinv Hgr) as Hno. rewrite run_put, post_ret.
  destruct (find_by_pid_Some s p i Hinv Hf) as (e & _ & _ & _ & _ & He).
  assert (update_at i (new_leader p) s = update_pid p (new_leader p) s) as Hupd
    by (unfold update_pid; by rewrite Hf).
  change (set_fg_pgrp_id 0 ∘ set_ctty_port MACH_PORT_NULL ∘ set_pgrp_id p ∘ set_sid p)
    with (new_leader p). rewrite Hupd.
  pose proof (procs_update_pid s p e Hinv He (new_leader p) eq_refl eq_refl) as Hp.
  pose proof (procs_bound s p e Hinv He) as Hb. split.
  - eapply proc_inv_update_pid; [done..|]. split; simpl; auto.
  - intros q x r y. rewrite Hp, !lookup_insert_Some.
    intros [[<- <-]|[Hq Hx]] [[<- <-]|[Hr Hy]] Heq; simpl in *; try done.
    + by destruct (Hno r y Hy).
    + by destruct (Hno q x Hx).
    + by apply (Hg q x r y).
  - intros q x. rewrite next_pid_update_pid, Hp, lookup_insert_Some.
    intros [[<- <-]|[Hq Hx]]; simpl; [lia|by apply (Hi q)].
  - intros q x. rewrite Hp, lookup_insert_Some.
    intros [[<- <-]|[Hq Hx]]; simpl; [done|by apply (Hz0 q)].
Qed.

(** [proc_S_setpgid] on the map. *)
Lemma setpgid_run s l p pgrp :
  proc_inv s →
  let g := if decide (pgrp = 0) then p else pgrp in
  match procs s !! p with
  | None => proc_S_setpgid p pgrp s l = (PROC_ERR_NOT_FOUND, s, l)
  | Some e =>
      (proc_S_setpgid p pgrp s l = (PROC_ERR_DIFF_SESS, s, l) ∧
       ∃ q x, procs s !! q = Some x ∧ pgrp_id x = g ∧ sid x ≠ sid e) ∨
      (proc_S_setpgid p pgrp s l = (PROC_OK, update_pid p (set_pgrp_id g) s, l) ∧
       ((∃ q x, procs s !! q = Some x ∧ pgrp_id x = g ∧ sid x = sid e) ∨
        ∀ q x, procs s !! q = Some x → pgrp_id x ≠ g))
  end.
Proof.
  intros Hinv g. unfold proc_S_setpgid. rewrite run_get. fold g.
  destruct (find_by_pid_locked p s) as [i|] eqn:Hf; [|by rewrite (find_by_pid_None s p Hinv Hf)].
  destruct (find_by_pid_Some s p i Hinv Hf) as (e & _ & Hat & _ & _ & He). rewrite He, Hat.
  assert (update_at i (set_pgrp_id g) s = update_pid p (set_pgrp_id g) s) as ->
    by (unfold update_pid; by rewrite Hf). cbv zeta.
  destruct (find_slot (has_pgrp g) (pid_table s)) as [j|] eqn:Hg.
  - destruct (find_pgrp_Some s g j Hinv Hg) as (x & Hx & -> & Hxg).
    destruct (decide (sid x ≠ sid e)) as [Hs|Hs%dec_stable].
    + left. split; [done|]. by exists (pid x), x.
    + right. split; [done|]. left. by exists (pid x), x.
  - right. split; [done|]. right. by apply find_pgrp_None.
Qed.

(** setpgid keeps every process group within one session, provided the group
    named has been issued as a pid: a process is moved only into a group of its
    own session or into one that does not exist yet. *)
Lemma setpgid_session_inv s l p pgrp :
  session_inv s → p < next_pid s → pgrp < next_pid s →
  session_inv (post (proc_S_setpgid p pgrp s l)).
Proof.
  intros [Hinv Hg Hi Hz0] Hpn Hgn. pose proof (setpgid_run s l p pgrp Hinv) as Hrun.
  set (g := if decide (pgrp = 0) then p else pgrp) in *.
  assert (g < next_pid s) as Hgn' by (subst g; by case_decide).
  destruct (procs s !! p) as [e|] eqn:He; [|by rewrite Hrun].
  destruct Hrun as [[-> _]|[-> Hsame]]; [done|]. unfold post. cbn [fst snd].
  pose proof (procs_update_pid s p e Hinv He (set_pgrp_id g) eq_refl eq_refl) as Hp.
  assert (∀ q x, procs s !! q = Some x → pgrp_id x = g → sid x = sid e) as Hsess.
  { intros q x Hx Hxg. destruct Hsame as [(r & y & Hy & Hyg & <-)|Hno].
    - apply (Hg q x r y); [done..|congruence].
    - by destruct (Hno q x Hx). }
  split.
  - eapply proc_inv_update_pid; [done..|]. split; simpl; auto.
  - intros q x r y. rewrite Hp, !lookup_insert_Some.
    intros [[<- <-]|[Hq Hx]] [[<- <-]|[Hr Hy]] Heq; simpl in *; try done.
    + symmetry. by apply (Hsess r y).
    + by apply (Hsess q x).
    + by apply (Hg q x r y).
  - intros q x. rewrite next_pid_update_pid, Hp, lookup_insert_Some.
    intros [[<- <-]|[Hq Hx]]; simpl; [done|by apply (Hi q)].
  - intros q x. rewrite Hp, lookup_insert_Some.
    intros [[<- <-]|[Hq Hx]]; simpl; [|by apply (Hz0 q)]. intros Hg0.
    pose proof (procs_bound s p e Hinv He) as Hb. unfold PROC_PID_INIT in Hb.
    subst g. case_decide; lia.
Qed.

(** ** The controlling tty *)

Section leader.
Context (s : proc_state) (l : list mach_call) (p : Z) (e : pid_entry).
Context (Hinv : proc_inv s) (He : procs s !! p = Some e) (Hs : sid e = p).

Definition claim_tty (tty : port) (e : pid_entry) : pid_entry :=
  set_fg_pgrp_id (pgrp_id e) (set_ctty_port tty e).

Lemma set_ctty_run tty :
  proc_S_set_ctty p tty s l =
    if decide (ctty_port e ≠ MACH_PORT_NULL) then (PROC_ERR_PERM, s, l ++ dropped tty)
    else (PROC_OK, update_pid p (claim_tty tty) s, l).
Proof.
  unfold proc_S_set_ctty. rewrite run_get.
  destruct (leader_found s p e Hinv He Hs) as (i & -> & -> & Hupd).
  case_decide; mrun; [done|]. by rewrite Hupd.
Qed.

Lemma clear_ctty_run :
  proc_S_clear_ctty p s l =
    (PROC_OK, update_pid p (set_fg_pgrp_id 0 ∘ set_ctty_port MACH_PORT_NULL) s,
     l ++ ctty_msg (ctty_port e) p ++ dropped (ctty_port e)).
Proof.
  unfold proc_S_clear_ctty. rewrite run_get.
  destruct (leader_found s p e Hinv He Hs) as (i & -> & -> & Hupd).
  rewrite run_put, run_ctty. mrun. by rewrite Hupd, <- app_assoc.
Qed.

Lemma tcsetpgrp_run g :
  proc_S_tcsetpgrp p g s l =
    if decide (ctty_port e = MACH_PORT_NULL) then (PROC_ERR_NO_CTTY, s, l)
    else (PROC_OK, update_pid p (set_fg_pgrp_id g) s, l).
Proof.
  unfold proc_S_tcsetpgrp. rewrite run_get.
  destruct (leader_found s p e Hinv He Hs) as (i & -> & -> & Hupd).
  case_decide; mrun; [done|]. by rewrite Hupd.
Qed.

Lemma tcgetpgrp_run :
  proc_S_tcgetpgrp p s l =
    (if decide (ctty_port e = MACH_PORT_NULL) then (0, PROC_ERR_NO_CTTY)
     else (fg_pgrp_id e, PROC_OK), s, l).
Proof.
  unfold proc_S_tcgetpgrp. rewrite run_get.
  by destruct (leader_found s p e Hinv He Hs) as (i & -> & -> & Hupd).
Qed.
End leader.

(** The leader after a write that keeps it one. *)
Lemma leader_update s p e f :
  proc_inv s → procs s !! p = Some e → frames_entry f e →
  proc_inv (update_pid p f s) ∧ procs (update_pid p f s) = <[p := f e]> (procs s) ∧
  procs (update_pid p f s) !! p = Some (f e) ∧ sid (f e) = sid e.
Proof.
  intros Hinv He (Hk & _ & _ & Hs). destruct (Hk) as [Hu Hp _ _].
  rewrite (procs_update_pid s p e) by done. rewrite lookup_insert_eq.
  split_and!; [by eapply proc_inv_update_pid|done..].
Qed.

Lemma claim_tty_frames tty e : frames_entry (claim_tty tty) e.
Proof. split; [split|]; simpl; auto. Qed.
Lemma set_fg_frames g e : frames_entry (set_fg_pgrp_id g) e.
Proof. split; [split|]; simpl; auto. Qed.
Lemma release_tty_frames e :
  frames_entry (set_fg_pgrp_id 0 ∘ set_ctty_port MACH_PORT_NULL) e.
Proof. split; [split|]; simpl; auto. Qed.

(** The controlling terminal of a session (#247), from a leader without one.
    Claiming a tty makes the leader's own group the foreground group; a
    second claim is refused with [PROC_ERR_PERM], drops the new right and changes
    nothing; the foreground group set last is the one read back; releasing it
    tells the tty's owner once, drops the right once, and leaves the session
    without controlling terminal; releasing again makes no call. *)
Theorem ctty_lifecycle s l p e tty tty' g :
  proc_inv s → procs s !! p = Some e → sid e = p → ctty_port e = MACH_PORT_NULL →
  tty ≠ MACH_PORT_NULL →
  let claimed := proc_S_set_ctty p tty s l in
  let s1 := post claimed in
  res claimed = PROC_OK ∧ trace claimed = l ∧
  res (proc_S_tcgetpgrp p s1 l) = (pgrp_id e, PROC_OK) ∧
  proc_S_set_ctty p tty' s1 l = (PROC_ERR_PERM, s1, l ++ dropped tty') ∧
  res ((proc_S_tcsetpgrp p g ≫= λ _, proc_S_tcgetpgrp p) s1 l) = (g, PROC_OK) ∧
  (let released := proc_S_clear_ctty p s1 l in
   res released = PROC_OK ∧ trace released = l ++ [CttyRelease tty p; MachPortDeallocate tty] ∧
   res (proc_S_tcgetpgrp p (post released) l) = (0, PROC_ERR_NO_CTTY) ∧
   res (proc_S_tcsetpgrp p g (post released) l) = PROC_ERR_NO_CTTY ∧
   trace (proc_S_clear_ctty p (post released) l) = l).
Proof.
  intros Hinv He Hs Hno Htty claimed s1. subst s1 claimed.
  rewrite (set_ctty_run s l p e) by done. rewrite decide_False by tauto.
  unfold post. cbn [fst snd].
  destruct (leader_update s p e _ Hinv He (claim_tty_frames tty e)) as (Hinv1 & Hp1 & He1 & Hs1).
  set (s1 := update_pid p (claim_tty tty) s) in *. set (e1 := claim_tty tty e) in *.
  rewrite Hs in Hs1.
  destruct (leader_update s1 p e1 _ Hinv1 He1 (set_fg_frames g e1)) as (Hinv2 & _ & He2 & Hs2).
  destruct (leader_update s1 p e1 _ Hinv1 He1 (release_tty_frames e1)) as (Hinv3 & _ & He3 & Hs3).
  rewrite Hs1 in Hs2, Hs3.
  refine (conj eq_refl (conj eq_refl (conj _ (conj _ (conj _ _))))).

  - rewrite (tcgetpgrp_run s1 l p e1) by done. unfold res. simpl. by rewrite decide_False.
  - rewrite (set_ctty_run s1 l p e1) by done. by rewrite decide_True.
  - unfold mbind, M_bind. rewrite (tcsetpgrp_run s1 l p e1) by done.
    rewrite decide_False by done. rewrite (tcgetpgrp_run _ l p _ Hinv2 He2 Hs2).
    unfold res. simpl. by rewrite decide_False.
  - rewrite (clear_ctty_run s1 l p e1) by done. unfold res, trace, post. cbn [fst snd].
    split_and!; [done| | | |].
    + unfold ctty_msg, dropped. by rewrite !decide_False by done.
    + rewrite (tcgetpgrp_run _ l p _ Hinv3 He3 Hs3). done.
    + rewrite (tcsetpgrp_run _ l p _ Hinv3 He3 Hs3). by rewrite decide_True by done.
    + rewrite (clear_ctty_run _ l p _ Hinv3 He3 Hs3). cbn [snd]. unfold ctty_msg, dropped.
      rewrite !decide_True by done. by rewrite app_nil_r.
Qed.

(** ** Shutdown *)

(** The calls of the filesystem phase. *)
Definition fs_call (c : mach_call) : Prop :=
  match c with
  | NetnameListMounts | FsUnmount _ | MachPortDeallocate _ => True
  | NetnameLookUpMount line => line ≠ PROC_MOUNT_PATH
  | _ => False
  end.
Definition is_lookup (c : mach_call) : Prop :=
  match c with NetnameLookUpMount _ => True | _ => False end.
#[local] Instance is_lookup_dec c : Decision (is_lookup c).
Proof. destruct c; simpl; apply _. Defined.
Definition wanted (line : list Z) : Prop := line ≠ [] ∧ line ≠ PROC_MOUNT_PATH.
#[local] Instance wanted_dec line : Decision (wanted line).
Proof. unfold wanted. apply _. Defined.

Lemma sync_mount_run line s l :
  ∃ k, sync_mount line s l = (tt, s, l ++ k) ∧ Forall fs_call k ∧
       filter is_lookup k = if decide (wanted line) then [NetnameLookUpMount line] else [].
Proof.
  unfold sync_mount. destruct (decide (line ≠ [] ∧ line ≠ PROC_MOUNT_PATH)) as [Hw|Hw].
  2: { exists []. rewrite app_nil_r, decide_False by done. by split_and!. }
  rewrite (decide_True (P := wanted line)) by done. rewrite run_call_out. cbv zeta. destruct Hw as [_ Hw]. case_decide.
  - eexists. rewrite !run_call, <- !app_assoc. split; [done|].
    split; [|done]. by do 3 (apply Forall_cons_2; [done|]).
  - eexists. split; [done|]. split; [|done]. by apply Forall_cons_2.
Qed.

Lemma sync_mounts_run lines s l :
  ∃ k, mfor sync_mount lines s l = (tt, s, l ++ k) ∧ Forall fs_call k ∧
       filter is_lookup k = NetnameLookUpMount <$> filter wanted lines.
Proof.
  revert l. induction lines as [|line lines IH]; intros l.
  { exists []. by rewrite app_nil_r. }
  cbn [mfor]. destruct (sync_mount_run line s l) as (k & Hk & Hf & Hl).
  rewrite (run_known _ _ _ _ _ _ _ Hk). destruct (IH (l ++ k)) as (k' & -> & Hf' & Hl').
  exists (k ++ k'). rewrite app_assoc. split_and!; [done|by apply Forall_app|].
  rewrite list_basics.list.filter_app, Hl, Hl', filter_cons. by case_decide.
Qed.

(** The calls of the SIGTERM sweep. *)
Definition sweep_calls (s : proc_state) : list mach_call :=
  match filter drain_target (pid_table s) with
  | [] => []
  | es => ((λ e, SendSignal (signal_port e) PROC_SIGTERM PROC_PID_NONE) <$> es) ++
          [Usleep PROC_DRAIN_GRACE_US]
  end.

Lemma sweep_run s l : proc_drain_sigterm_sweep s l = (tt, s, l ++ sweep_calls s).
Proof.
  unfold proc_drain_sigterm_sweep, sweep_calls. rewrite run_get. cbv zeta.
  destruct (filter drain_target (pid_table s)) as [|e es]; [by rewrite app_nil_r|].
  rewrite run_mfor_calls, run_call, <- app_assoc. done.
Qed.

(** Shutdown drains first (#284).  For the two valid modes, the server posts
    SIGTERM to exactly the live processes with a signal port and, if there are
    any, waits the grace period; then it walks the mounts, looking up every
    listed mount except its own /proc exactly once, with no call but look-ups,
    unmounts and drops; the reboot call comes last, and nothing is terminated.
    Any other mode is refused without a call. *)
Theorem shutdown_drains_first s l mode :
  let r := proc_S_shutdown mode s l in
  post r = s ∧
  (mode ≠ PROC_SHUTDOWN_HALT → mode ≠ PROC_SHUTDOWN_REBOOT →
     res r = PROC_ERR_INVAL ∧ trace r = l) ∧
  (mode = PROC_SHUTDOWN_HALT ∨ mode = PROC_SHUTDOWN_REBOOT →
     let l1 := l ++ sweep_calls s in
     ∃ mid options,
       trace r = l1 ++ NetnameListMounts :: mid ++ [HostReboot options] ∧
       options = (if decide (mode = PROC_SHUTDOWN_HALT) then HOST_REBOOT_HALT else 0) ∧
       Forall fs_call mid ∧
       filter is_lookup mid =
         NetnameLookUpMount <$> (if decide (mach_kr l1 NetnameListMounts = NETNAME_SUCCESS)
           then filter wanted (split_lines [] (cstr (mach_out l1 NetnameListMounts))) else [])).
Proof.
  set (l1 := l ++ sweep_calls s).
  assert (∀ options, ∃ mid kr,
    (proc_drain_sigterm_sweep ≫= λ _, proc_drain_fs_sync ≫= λ _,
       call (HostReboot options) ≫= λ kr, mret (kr_result kr)) s l =
      (kr, s, l1 ++ NetnameListMounts :: mid ++ [HostReboot options]) ∧
    Forall fs_call mid ∧
    filter is_lookup mid =
      NetnameLookUpMount <$> (if decide (mach_kr l1 NetnameListMounts = NETNAME_SUCCESS)
        then filter wanted (split_lines [] (cstr (mach_out l1 NetnameListMounts))) else [])) as Hgo.
  { intros options. rewrite (run_known _ _ _ _ _ _ _ (sweep_run s l)). fold l1.
    unfold proc_drain_fs_sync. rewrite bind_assoc, run_call_out. case_decide.
    - destruct (sync_mounts_run (split_lines [] (cstr (mach_out l1 NetnameListMounts))) s
                  (l1 ++ [NetnameListMounts])) as (k & Hk & Hf & Hl).
      exists k. rewrite (run_known _ _ _ _ _ _ _ Hk). rewrite run_call, <- !app_assoc.
      eexists. split; [done|]. by split.
    - exists []. rewrite run_ret, run_call, <- app_assoc. eexists. by split. }
  intros r. subst r. unfold proc_S_shutdown.
  destruct (decide (mode = PROC_SHUTDOWN_HALT)) as [->|Hh];
    [|destruct (decide (mode = PROC_SHUTDOWN_REBOOT)) as [->|Hr]].
  - destruct (Hgo HOST_REBOOT_HALT) as (mid & kr & -> & Hf & Hl).
    split_and!; [done|done|]. intros _. by exists mid, HOST_REBOOT_HALT.
  - destruct (Hgo 0) as (mid & kr & -> & Hf & Hl). split_and!; [done|done|]. intros _.
    by exists mid, 0.
  - split_and!; [done|done|]. by intros [?|?].
Qed.

(** ** Frames *)

Lemma leader_write_framed s0 s session f i :
  framed s0 s → find_session_leader_locked session s = Some i →
  (∀ e, frames_entry f e) → framed s0 (update_at i f s).
Proof.
  intros Hfr Hf Hk. pose proof (find_leader s session (fr_inv _ _ Hfr)) as Hl.
  rewrite Hf in Hl. destruct Hl as (e & _ & _ & _ & ->).
  apply framed_update_pid; [by intros; apply Hk|done].
Qed.

Lemma set_ctty_framed s0 session tty : preserves (framed s0) (proc_S_set_ctty session tty).
Proof.
  intros s l Hfr. unfold proc_S_set_ctty. rewrite run_get.
  destruct (find_session_leader_locked session s) as [i|] eqn:Hf; [|by rewrite run_drop].
  case_decide; [by rewrite run_drop|]. rewrite run_put, post_ret.
  by eapply leader_write_framed; [| |apply claim_tty_frames].
Qed.

Lemma clear_ctty_framed s0 session : preserves (framed s0) (proc_S_clear_ctty session).
Proof.
  intros s l Hfr. unfold proc_S_clear_ctty. rewrite run_get.
  destruct (find_session_leader_locked session s) as [i|] eqn:Hf; [|done].
  rewrite run_put, run_ctty, run_drop, post_ret.
  by eapply leader_write_framed; [| |apply release_tty_frames].
Qed.

Lemma tcsetpgrp_framed s0 session g : preserves (framed s0) (proc_S_tcsetpgrp session g).
Proof.
  intros s l Hfr. unfold proc_S_tcsetpgrp. rewrite run_get.
  destruct (find_session_leader_locked session s) as [i|] eqn:Hf; [|done].
  case_decide; [done|]. rewrite run_put, post_ret.
  by eapply leader_write_framed; [| |apply set_fg_frames].
Qed.

Lemma shutdown_framed s0 mode : preserves (framed s0) (proc_S_shutdown mode).
Proof.
  assert (∀ o, preserves (framed s0) (proc_drain_sigterm_sweep ≫= λ _, proc_drain_fs_sync ≫= λ _,
       call (HostReboot o) ≫= λ kr, mret (kr_result kr))) as Hgo.
  { intros o. apply preserves_bind; [|intros; apply preserves_bind; [|auto with uros]].
    - intros s l Hfr. by rewrite sweep_run.
    - intros s l Hfr. unfold proc_drain_fs_sync. rewrite run_call_out. case_decide; [|done].
      by edestruct sync_mounts_run as (k & -> & _). }
  intros s l Hfr. unfold proc_S_shutdown. case_decide; [by apply Hgo|].
  case_decide; [by apply Hgo|done].
Qed.

Lemma setsid_inv p : preserves proc_inv (proc_S_setsid p).
Proof.
  intros s l Hinv. unfold proc_S_setsid. rewrite run_get.
  destruct (find_by_pid_locked p s) as [i|] eqn:Hf; [|done].
  destruct (find_slot _ _); [done|]. rewrite run_put, post_ret.
  destruct (find_by_pid_Some s p i Hinv Hf) as (e & Hi & _ & Hu & _).
  destruct (inv_entry _ Hinv i e Hi) as [_ H]. destruct (H Hu) as (_ & ? & ? & _).
  by eapply proc_inv_update.
Qed.

Lemma setpgid_inv p pgrp : preserves proc_inv (proc_S_setpgid p pgrp).
Proof.
  intros s l Hinv. pose proof (setpgid_run s l p pgrp Hinv) as Hrun. cbv zeta in Hrun.
  destruct (procs s !! p) as [e|] eqn:He; [|by rewrite Hrun].
  destruct Hrun as [[-> _]|[-> _]]; [done|]. eapply proc_inv_update_pid; [done..|].
  split; simpl; auto.
Qed.
End run.

(** setpgid accepts a group id that no process has yet: a process may enter
    the group of a pid that will be assigned later.  The process that then
    receives the pid leads its own session, and one group spans two sessions. *)
Theorem setpgid_future_group :
  let E := env_ok in
  let s := post ((proc_S_register 0 100 [] ≫= λ _, proc_S_setpgid 2 3 ≫= λ _,
                  proc_S_register 0 101 []) (proc_init 9) []) in
  ∃ x y, procs s !! 2 = Some x ∧ procs s !! 3 = Some y ∧ pgrp_id x = 3 ∧ pgrp_id y = 3 ∧
         sid x = 2 ∧ sid y = 3.
Proof. do 2 eexists. vm_compute. by split_and!. Qed.

(** ** Instances *)

Lemma setsid_spec_witness :
  trace (proc_S_setsid 2 (single_table (set_pgrp_id 7 example_entry)) []) = [].
Proof.
  pose proof (setsid_spec (single_table (set_pgrp_id 7 example_entry)) [] 2
                (single_inv (set_pgrp_id 7 example_entry) eq_refl eq_refl eq_refl eq_refl)) as H.
  revert H. generalize (proc_S_setsid 2 (single_table (set_pgrp_id 7 example_entry)) []).
  intros [[[new r] s'] l'] H. exact (proj1 H).
Defined.

Lemma ctty_lifecycle_witness :
  res (proc_S_set_ctty (E := env_ok) 2 30 (single_table example_entry) []) = PROC_OK.
Proof.
  apply (ctty_lifecycle (E := env_ok) (single_table example_entry) [] 2 example_entry 30 31 4).
  - apply example_inv.
  - by apply single_procs.
  - done.
  - done.
  - done.
Defined.
