(* ===== verification/ProcFs.v ===== *)
(** * proc_server: resource usage and /proc

    The accounting handlers ([query_kernel_rusage], [refresh_rusage_for_pid],
    [proc_S_getrusage]) and the read-only filesystem in which
    [/proc/<pid>/stat] is the only file: path parsing, the one stat handle a
    process can have open, the formatted line and reads from it. *)

From Stdlib Require Import String.
From S2P Require Import Prelude Mach ProcTable ProcLife.

Definition TASK_BASIC_INFO : Z := 4.
Definition TASK_EVENTS_INFO : Z := 2.
Definition VFS_FT_UNKNOWN : Z := 0.
Definition VFS_FT_REG : Z := 1.

(** ** Paths *)

(** [while ( *p >= '0' && *p <= '9') pid = pid * 10 + ( *p++ - '0');] *)
Fixpoint parse_digits (acc : Z) (p : list Z) : Z * list Z :=
  match p with
  | b :: p' => if decide (is_digit b) then parse_digits (u32 (acc * 10 + (b - 48))) p' else (acc, p)
  | [] => (acc, [])
  end.

(** The part of [parse_proc_path] after the prefix: digits, then the end or a
    slash and the trailing component. *)
Definition parse_pid_component (p : list Z) : option (Z * list Z) :=
  match p with
  | b :: _ =>
      if decide (is_digit b) then
        let '(n, rest) := parse_digits 0 p in
        match rest with
        | [] => Some (n, [])
        | c :: tail => if decide (c = 47) then Some (n, tail) else None
        end
      else None
  | [] => None
  end.

(** [parse_proc_path]: the pid and the trailing component, [None] for [NULL]. *)
Definition parse_proc_path (path : list Z) : option (Z * list Z) :=
  let p := match path with 47 :: r => r | _ => path end in
  let p := if decide (take 5 p = bytes "proc/") then drop 5 p else p in
  parse_pid_component p.

Definition is_handle (h : Z) (e : pid_entry) : Prop :=
  in_use e = true ∧ stat_handle_in_use e = true ∧ stat_handle_id e = h.
#[global] Instance is_handle_dec h e : Decision (is_handle h e).
Proof. unfold is_handle. apply _. Defined.

Definition find_by_handle_locked (h : Z) (s : proc_state) : option nat :=
  find_slot (is_handle h) (pid_table s).

(** The line [snprintf] would write, without the bound. *)
Definition stat_line (e : pid_entry) : list Z :=
  let r := last_rusage e in
  let utime_ticks := u32 (utime_sec r * 100 + utime_usec r / 10000) in
  let stime_ticks := u32 (stime_sec r * 100 + stime_usec r / 10000) in
  let vsize_bytes := u32 (virtual_kb r * 1024) in
  let rss_pages := maxrss_kb r / 4 in
  dec (pid e) ++ bytes " (" ++ cmdline e ++ bytes ") " ++ cstr [state e] ++ bytes " " ++
  dec (ppid e) ++ bytes " " ++ dec (pgrp_id e) ++ bytes " " ++ dec (sid e) ++
  bytes " 0 -1 0 " ++ dec (minflt r) ++ bytes " 0 " ++ dec (majflt r) ++ bytes " 0 " ++
  dec utime_ticks ++ bytes " " ++ dec stime_ticks ++ bytes " 0 0 0 0 0 0 0 " ++
  dec vsize_bytes ++ bytes " " ++ dec rss_pages ++
  bytes " 0 0 0 0 0 0 0 0 0 0 0 0 0 0 0 0 0 0" ++ [10].

(** [format_stat(e, buf, max)]: what is in [buf] up to the returned length. *)
Definition format_stat (e : pid_entry) (max : nat) : list Z := take (max - 1) (stat_line e).

Definition STAT_BUF : nat := 512.

(** [vfs_stat_t], the fields that are set. *)
Record vfs_stat_buf := VfsStat {
  st_size : Z; st_blksize : Z; st_nlink : Z; st_mode : Z; st_type : Z }.

Definition stat_of (text : list Z) : vfs_stat_buf :=
  VfsStat (Z.of_nat (length text)) 4096 1 292 VFS_FT_REG.  (* 0444 *)

Section handlers.
Context {E : MachEnv}.
Abbreviation handler := (M proc_state).

(** ** Resource accounting *)

(** The [i]-th word of a [task_info] reply. *)
Definition word (out : list Z) (i : nat) : Z := u32 (default 0 (out !! i)).

(** [query_kernel_rusage]: the code and the filled buffer.  The basic reply is
    suspend count, virtual size, resident size, user seconds and microseconds,
    system seconds and microseconds, policy; the events reply is faults, zero
    fills, reactivations, pageins, copy-on-write faults, messages sent and
    received. *)
Definition query_kernel_rusage (task : port) : handler (Z * proc_rusage) :=
  '(kr_basic, basic) ← call_out (TaskInfo task TASK_BASIC_INFO);
  if decide (kr_basic = KERN_SUCCESS) then
    let with_events (minflt majflt snd rcv : Z) : proc_rusage :=
      Rusage (word basic 3) (word basic 4) (word basic 5) (word basic 6)
        (word basic 2 / 1024) (word basic 1 / 1024) minflt majflt snd rcv in
    '(kr_events, events) ← call_out (TaskInfo task TASK_EVENTS_INFO);
    mret (KERN_SUCCESS,
          if decide (kr_events = KERN_SUCCESS)
          then with_events (word events 1 +32 word events 4) (word events 3)
                 (word events 5) (word events 6)
          else with_events 0 0 0 0)
  else mret (kr_basic, rusage_zero).

Definition refresh_rusage_for_pid (p : Z) : handler unit :=
  s ← get;
  match find_by_pid_locked p s with
  | None => mret tt
  | Some i =>
      let e := entry_at s i in
      if decide (state e = PROC_STATE_ZOMBIE ∨ task_port e = MACH_PORT_NULL) then mret tt
      else
        '(kr, fresh) ← query_kernel_rusage (task_port e);
        if decide (kr = KERN_SUCCESS) then
          s' ← get;
          match find_by_pid_locked p s' with
          | Some j => put (update_at j (set_last_rusage fresh) s')
          | None => mret tt
          end
        else mret tt
  end.

(** [(usage, result)] *)
Definition proc_S_getrusage (p : Z) : handler (proc_rusage * Z) :=
  _ ← refresh_rusage_for_pid p;
  s ← get;
  mret match find_by_pid_locked p s with
       | Some i => (last_rusage (entry_at s i), PROC_OK)
       | None => (rusage_zero, PROC_ERR_NOT_FOUND)
       end.

(** ** Files *)

(** [vfs_open]: [(handle, type, kr)]. *)
Definition vfs_open (client_task : port) (path : list Z) : handler (Z * Z * Z) :=
  _ ← call (MachPortDeallocate client_task);
  match parse_proc_path path with
  | Some (p, tail) =>
      if decide (tail = bytes "stat") then
        s ← get;
        match find_by_pid_locked p s with
        | Some i =>
            if stat_handle_in_use (entry_at s i) then mret (0, VFS_FT_UNKNOWN, KERN_FAILURE)
            else
              let h := next_stat_handle s in
              _ ← put (update_at i (set_stat_offset 0 ∘ set_stat_handle_id h ∘
                                    set_stat_handle_in_use true)
                         (ProcState (pid_table s) (next_pid s) (u64 (h + 1)) (notify_port s)));
              mret (h, VFS_FT_REG, KERN_SUCCESS)
        | None => mret (0, VFS_FT_UNKNOWN, KERN_FAILURE)
        end
      else mret (0, VFS_FT_UNKNOWN, KERN_FAILURE)
  | None => mret (0, VFS_FT_UNKNOWN, KERN_FAILURE)
  end.

Definition vfs_close (h : Z) : handler Z :=
  s ← get;
  match find_by_handle_locked h s with
  | Some i =>
      _ ← put (update_at i (set_stat_handle_id 0 ∘ set_stat_handle_in_use false) s);
      mret KERN_SUCCESS
  | None => mret KERN_INVALID_ARGUMENT
  end.

(** The refresh [vfs_read] and [vfs_fstat] start with. *)
Definition refresh_by_handle (h : Z) : handler unit :=
  s ← get;
  let target := match find_by_handle_locked h s with
                | Some i => pid (entry_at s i)
                | None => 0
                end in
  if decide (target = 0) then mret tt else refresh_rusage_for_pid target.

(** [vfs_read]: [(data, kr)]. *)
Definition vfs_read (h offset count : Z) : handler (list Z * Z) :=
  _ ← refresh_by_handle h;
  s ← get;
  match find_by_handle_locked h s with
  | None => mret ([], KERN_INVALID_ARGUMENT)
  | Some i =>
      let text := format_stat (entry_at s i) STAT_BUF in
      let len := Z.of_nat (length text) in
      if decide (offset >= len) then mret ([], KERN_SUCCESS)
      else
        let left := len - offset in
        let to_copy := if decide (left > count) then count else left in
        kr ← call (VmAllocate to_copy);
        if decide (kr = KERN_SUCCESS)
        then mret (take (Z.to_nat to_copy) (drop (Z.to_nat offset) text), KERN_SUCCESS)
        else mret ([], kr)
  end.

(** [(stat, kr)] *)
Definition vfs_fstat (h : Z) : handler (option vfs_stat_buf * Z) :=
  _ ← refresh_by_handle h;
  s ← get;
  mret match find_by_handle_locked h s with
       | None => (None, KERN_INVALID_ARGUMENT)
       | Some i => (Some (stat_of (format_stat (entry_at s i) STAT_BUF)), KERN_SUCCESS)
       end.

Definition vfs_stat (path : list Z) : handler (option vfs_stat_buf * Z) :=
  match parse_proc_path path with
  | Some (p, tail) =>
      if decide (tail = bytes "stat") then
        _ ← refresh_rusage_for_pid p;
        s ← get;
        mret match find_by_pid_locked p s with
             | None => (None, KERN_FAILURE)
             | Some i => (Some (stat_of (format_stat (entry_at s i) STAT_BUF)), KERN_SUCCESS)
             end
      else mret (None, KERN_FAILURE)
  | None => mret (None, KERN_FAILURE)
  end.
End handlers.

(** ** Paths: the round trip and the wrap *)

Lemma parse_digits_spec ds rest acc :
  Forall is_digit ds → (∀ b r, rest = b :: r → ¬ is_digit b) →
  parse_digits (u32 acc) (ds ++ rest) =
    (u32 (fold_left (λ a b, a * 10 + (b - 48)) ds acc), rest).
Proof.
  intros Hds Hrest. revert acc. induction Hds as [|d ds Hd Hds IH]; intros acc; simpl.
  - destruct rest as [|b r]; [done|]. simpl. by rewrite decide_False by (by eapply Hrest).
  - rewrite decide_True by done. rewrite <- IH. f_equal.
    unfold u32. rewrite <- (Z.add_mod_idemp_l (acc mod _ * 10)) by done.
    rewrite Z.mul_mod_idemp_l by done. by rewrite Z.add_mod_idemp_l by done.
Qed.

(** The mount prefix is optional. *)
Definition mount_prefix (full : bool) : list Z := if full then bytes "/proc/" else bytes "/".

Lemma parse_pid_component_digits ds tail :
  ds ≠ [] → Forall is_digit ds →
  parse_pid_component (ds ++ 47 :: tail) = Some (u32 (digits_value ds), tail).
Proof.
  intros Hne Hds. unfold parse_pid_component.
  destruct ds as [|d ds']; [done|]. rewrite <- app_comm_cons.
  rewrite decide_True by (by apply Forall_cons_1 in Hds as [Hd _]).
  change 0 with (u32 0) at 1. rewrite app_comm_cons, parse_digits_spec; [done|done|].
  intros b r [= <- _]. unfold is_digit. lia.
Qed.

(** Paths of /proc.  For any string of digits, with or without the mount
    prefix, the parser accepts [<digits>/<tail>], hands back the tail, and the
    number reduced modulo 2^32: numbers that fit in 32 bits are read exactly,
    and larger ones alias a small pid. *)
Theorem parse_proc_path_spec full ds tail :
  ds ≠ [] → Forall is_digit ds →
  parse_proc_path (mount_prefix full ++ ds ++ 47 :: tail) = Some (digits_value ds mod 2 ^ 32, tail).
Proof.
  intros Hne Hds. change (digits_value ds mod 2 ^ 32) with (u32 (digits_value ds)).
  rewrite <- parse_pid_component_digits by done. unfold parse_proc_path. destruct full; simpl.
  - done.
  - destruct ds as [|d ds']; [done|]. simpl. apply Forall_cons_1 in Hds as [Hd _].
    rewrite decide_False; [done|]. intros [= Hp _]. unfold is_digit in Hd. lia.
Qed.

Lemma parse_proc_path_spec_witness :
  parse_proc_path (mount_prefix true ++ bytes "4294967298" ++ 47 :: bytes "stat") =
    Some (2, bytes "stat").
Proof.
  change (Some (2, bytes "stat")) with
    (Some (digits_value (bytes "4294967298") mod 2 ^ 32, bytes "stat")).
  apply parse_proc_path_spec; [done|].
  repeat (apply Forall_cons_2; [unfold is_digit; simpl; lia|]). apply Forall_nil_2.
Defined.

(** The line of a process is shorter than the buffer. *)
Lemma stat_line_length e :
  (length (cmdline e) < PROC_CMDLINE_MAX)%nat → (length (stat_line e) < STAT_BUF)%nat.
Proof.
  intros Hc. unfold PROC_CMDLINE_MAX in Hc. unfold stat_line.
  assert (length (cstr [state e]) ≤ 1)%nat as Hs by (simpl; case_decide; simpl; lia).
  repeat match goal with
  | |- context [dec ?x] => lazymatch goal with
                           | _ : (length (dec x) ≤ 10)%nat |- _ => fail
                           | _ => let H := fresh in
                                  assert (length (dec x) ≤ 10)%nat as H by apply dec_spec;
                                  generalize dependent (dec x); intros
                           end
  end.
  rewrite !length_app. cbn [length]. unfold STAT_BUF. simpl (length (bytes _)). lia.
Qed.

(** ** What the handlers do *)

Lemma set_rusage_frames u e : frames_entry (set_last_rusage u) e.
Proof. split; [split|]; simpl; auto. Qed.

Lemma set_rusage_id e : set_last_rusage (last_rusage e) e = e.
Proof. by destruct e. Qed.

(** The stat handle lookup, on the map. *)
Lemma find_by_handle_Some s h i :
  proc_inv s → find_by_handle_locked h s = Some i →
  ∃ e, procs s !! pid e = Some e ∧ entry_at s i = e ∧ pid_table s !! i = Some e ∧
       stat_handle_in_use e = true ∧ stat_handle_id e = h ∧
       find_by_pid_locked (pid e) s = Some i.
Proof.
  intros Hinv Hf. apply find_slot_Some in Hf as (e & Hi & (Hu & Ho & Hh) & _).
  assert (procs s !! pid e = Some e) as He.
  { apply procs_of_lookup; [by apply inv_pids|]. by exists i. }
  exists e. split_and!; [done|by apply entry_at_lookup|done|done|done|].
  eapply find_slot_unique; [done|done|]. intros j y Hj [Hy Hpy].
  by apply (inv_pids _ Hinv j i y e).
Qed.

(** A process with an open handle is the one found. *)
Lemma find_by_handle_open s p e h :
  proc_inv s → procs s !! p = Some e → stat_handle_in_use e = true → stat_handle_id e = h →
  ∃ i, find_by_handle_locked h s = Some i ∧ find_by_pid_locked p s = Some i ∧ entry_at s i = e.
Proof.
  intros Hinv He Ho Hh. destruct (procs_find s p e Hinv He) as (i & Hf & Hi & Hat & Hu & Hp).
  exists i. split_and!; [|done|done]. eapply find_slot_unique; [done|done|].
  intros j y Hj (Hy & Hoy & Hhy). apply (inv_handles _ Hinv j i y e); [done..|by split|by split|].
  congruence.
Qed.

Lemma find_by_handle_closed s h :
  proc_inv s →
  (∀ q x, procs s !! q = Some x → stat_handle_in_use x = true → stat_handle_id x ≠ h) →
  find_by_handle_locked h s = None.
Proof.
  intros Hinv Hno. apply find_slot_None. intros i x Hi (Hu & Ho & Hh).
  apply (Hno (pid x) x); [|done..]. apply procs_of_lookup; [by apply inv_pids|]. by exists i.
Qed.

Section run.
Context {E : MachEnv}.

(** A refresh replaces at most the cached usage of its process. *)
Lemma refresh_run s l p :
  ∃ l', refresh_rusage_for_pid p s l = (tt, s, l') ∨
        ∃ u, refresh_rusage_for_pid p s l = (tt, update_pid p (set_last_rusage u) s, l').
Proof.
  unfold refresh_rusage_for_pid. rewrite run_get.
  destruct (find_by_pid_locked p s) as [i|] eqn:Hf; [|by eexists; left].
  case_decide; [by eexists; left|].
  unfold query_kernel_rusage. rewrite bind_assoc, run_call_out. case_decide as Hk.
  - rewrite bind_assoc, run_call_out, run_ret, decide_True by done.
    rewrite run_get, Hf. eexists. right. eexists. unfold update_pid. rewrite Hf. done.
  - rewrite run_ret, decide_False by done. by eexists; left.
Qed.

Lemma refresh_framed s0 p : preserves (framed s0) (refresh_rusage_for_pid p).
Proof.
  intros s l Hfr. destruct (refresh_run s l p) as (l' & [->|[u ->]]); [done|].
  apply framed_update_pid; [|done]. intros; apply set_rusage_frames.
Qed.

(** The refresh of a process in the map, as a write to its entry. *)
Lemma refresh_procs s l p e :
  proc_inv s → procs s !! p = Some e →
  ∃ u s' l', refresh_rusage_for_pid p s l = (tt, s', l') ∧ proc_inv s' ∧
             procs s' = <[p := set_last_rusage u e]> (procs s).
Proof.
  intros Hinv He. destruct (refresh_run s l p) as (l' & [->|[u ->]]).
  - exists (last_rusage e), s, l'. rewrite set_rusage_id. split_and!; [done..|].
    by rewrite insert_id.
  - exists u, (update_pid p (set_last_rusage u) s), l'. split_and!; [done| |].
    + eapply proc_inv_update_pid; [done..|apply set_rusage_frames].
    + by rewrite (procs_update_pid s p e).
Qed.

Lemma refresh_by_handle_framed s0 h : preserves (framed s0) (refresh_by_handle h).
Proof.
  intros s l Hfr. unfold refresh_by_handle. rewrite run_get. cbv zeta.
  case_decide; [done|]. by apply refresh_framed.
Qed.

Lemma refresh_by_handle_procs s l p e h :
  proc_inv s → procs s !! p = Some e → stat_handle_in_use e = true → stat_handle_id e = h →
  ∃ u s' l', refresh_by_handle h s l = (tt, s', l') ∧ proc_inv s' ∧
             procs s' = <[p := set_last_rusage u e]> (procs s).
Proof.
  intros Hinv He Ho Hh. unfold refresh_by_handle. rewrite run_get.
  destruct (find_by_handle_open s p e h Hinv He Ho Hh) as (i & -> & _ & ->). cbv zeta.
  destruct (procs_pid s p e Hinv He) as [Hp _]. pose proof (procs_bound s p e Hinv He) as Hb.
  unfold PROC_PID_INIT in Hb. rewrite Hp, decide_False by lia. by apply refresh_procs.
Qed.

(** Reading /proc/<pid>/stat.  With a handle that is open on a process, a read
    returns the part of the process's line from the offset, cut at the count and
    at the end of the line, where the line shows the process with some fresh or
    cached resource usage, and is never cut short by the server's buffer; past
    the end the read is empty; only the cached usage may change.  The one way
    to fail is the allocation of the reply. *)
Theorem vfs_read_spec s l p e h offset count :
  proc_inv s → procs s !! p = Some e → stat_handle_in_use e = true → stat_handle_id e = h →
  (length (cmdline e) < PROC_CMDLINE_MAX)%nat → 0 ≤ offset → 0 ≤ count →
  let r := vfs_read h offset count s l in
  ∃ u, procs (post r) = <[p := set_last_rusage u e]> (procs s) ∧
    let line := stat_line (set_last_rusage u e) in
    (res r = (take (Z.to_nat count) (drop (Z.to_nat offset) line), KERN_SUCCESS) ∨
     ∃ kr, kr ≠ KERN_SUCCESS ∧ res r = ([], kr)).
Proof.
  intros Hinv He Ho Hh Hc Hoff Hcnt r. subst r. unfold vfs_read.
  destruct (refresh_by_handle_procs s l p e h Hinv He Ho Hh) as (u & s' & l' & Hrun & Hinv' & Hp).
  rewrite (run_known _ _ _ _ _ _ _ Hrun), run_get.
  assert (procs s' !! p = Some (set_last_rusage u e)) as He' by (rewrite Hp; apply lookup_insert_eq).
  destruct (find_by_handle_open s' p _ h Hinv' He' Ho Hh) as (i & -> & _ & ->).
  exists u. set (e' := set_last_rusage u e).
  assert (format_stat e' STAT_BUF = stat_line e') as Hline.
  { apply take_ge. pose proof (stat_line_length e' Hc). unfold STAT_BUF in *. lia. }
  rewrite Hline. cbv zeta. set (len := length (stat_line e')).
  case_decide as Hend.
  { split; [done|]. left. rewrite drop_ge by lia. by rewrite take_nil. }
  rewrite run_call. destruct (decide (mach_kr l' _ = _)) as [Hkr|Hkr].
  2: { split; [done|]. right. eexists. by split. }
  split; [done|]. left. unfold mret, M_ret, res. cbn [fst snd]. f_equal.
  case_decide; [done|]. rewrite (take_ge _ (Z.to_nat count)) by (rewrite length_drop; fold len; lia).
  apply take_ge. rewrite length_drop. fold len. lia.
Qed.

(** ** Opening and closing *)

Definition opened (h : Z) : pid_entry → pid_entry :=
  set_stat_offset 0 ∘ set_stat_handle_id h ∘ set_stat_handle_in_use true.

Definition bump_handle (s : proc_state) : proc_state :=
  ProcState (pid_table s) (next_pid s) (next_stat_handle s + 1) (notify_port s).

Lemma bump_handle_inv s : proc_inv s → proc_inv (bump_handle s).
Proof.
  intros [Hlen Hn Hh Hent Hpids Hhs]. split; simpl; try done; [lia|].
  intros i e Hi. destruct (Hent i e Hi) as [H1 H2]. split; [done|]. intros Hu.
  destruct (H2 Hu) as (? & ? & ? & Ho). split_and!; [lia|lia|done|done|].
  intros Hs. specialize (Ho Hs). simpl. lia.
Qed.

(** Marking the handle open keeps the invariant: its id is new. *)
Lemma opened_inv s p e :
  proc_inv s → procs s !! p = Some e →
  proc_inv (update_pid p (opened (next_stat_handle s)) (bump_handle s)) ∧
  procs (update_pid p (opened (next_stat_handle s)) (bump_handle s)) =
    <[p := opened (next_stat_handle s) e]> (procs s).
Proof.
  intros Hinv He. pose proof (bump_handle_inv s Hinv) as Hb.
  split; [|by rewrite (procs_update_pid (bump_handle s) p e)].
  unfold update_pid. destruct (procs_find (bump_handle s) p e Hb He) as (i & -> & Hi & _ & Hu & Hp).
  rewrite (update_at_unfold _ i e Hi). destruct Hb as [Hlen Hn Hh Hent Hpids Hhs].
  split; cbn [set_table pid_table next_pid next_stat_handle]; try done.
  - by rewrite length_insert.
  - intros j x Hx. apply insert_lookup_inv in Hx as [(<- & <- & _)|[_ Hx]]; [|eauto].
    destruct (Hent i e Hi) as [_ H]. destruct (H Hu) as (? & ? & ? & _).
    split; [simpl; congruence|]. intros _. simpl in *. pose proof (inv_handle _ Hinv).
    split_and!; [lia|lia|done|done|intros _; lia].
  - apply inj_on_insert; [done|]. intros _ j x Hx Hxu Hk. by apply (Hpids j i x e).
  - apply inj_on_insert; [done|]. intros _ j x Hx [Hxu Hxo] Hk. exfalso. simpl in Hk.
    destruct (inv_entry _ Hinv j x Hx) as [_ H]. destruct (H Hxu) as (_ & _ & _ & Ho).
    specialize (Ho Hxo). lia.
Qed.

(** The path of the stat file of [p]. *)
Definition stat_path (full : bool) (p : Z) : list Z :=
  mount_prefix full ++ dec p ++ 47 :: bytes "stat".

Lemma parse_stat_path full p : is_u32 p → parse_proc_path (stat_path full p) = Some (p, bytes "stat").
Proof.
  intros Hp. destruct (dec_spec p) as (Hv & Hd & Hl). unfold stat_path.
  assert (dec p ≠ []) as Hne by (destruct (dec p); [simpl in Hl; lia|done]).
  transitivity (Some (u32 (digits_value (dec p)), bytes "stat")).
  - rewrite <- parse_pid_component_digits by done. unfold parse_proc_path. destruct full; [done|].
    destruct (dec p) as [|d ds']; [done|]. simpl. apply Forall_cons_1 in Hd as [Hd _].
    rewrite decide_False; [done|]. intros [= Hp' _]. unfold is_digit in Hd. lia.
  - rewrite Hv. by rewrite !u32_small by (done || by rewrite u32_small).
Qed.

Lemma vfs_open_run s l task p full :
  proc_inv s → is_u32 p → next_stat_handle s + 1 < 2 ^ 64 →
  vfs_open task (stat_path full p) s l =
    match procs s !! p with
    | None => ((0, VFS_FT_UNKNOWN, KERN_FAILURE), s, l ++ [MachPortDeallocate task])
    | Some e =>
        if stat_handle_in_use e
        then ((0, VFS_FT_UNKNOWN, KERN_FAILURE), s, l ++ [MachPortDeallocate task])
        else ((next_stat_handle s, VFS_FT_REG, KERN_SUCCESS),
              update_pid p (opened (next_stat_handle s)) (bump_handle s),
              l ++ [MachPortDeallocate task])
    end.
Proof.
  intros Hinv Hp Hh. unfold vfs_open. rewrite run_call, parse_stat_path, decide_True by done.
  rewrite run_get. destruct (find_by_pid_locked p s) as [i|] eqn:Hf.
  - destruct (find_by_pid_Some s p i Hinv Hf) as (e & Hi & -> & Hu & Hpe & ->).
    destruct (stat_handle_in_use e); [done|]. cbv zeta. rewrite run_put.
    rewrite u64_small by (pose proof (inv_handle _ Hinv); unfold is_u64; lia).
    unfold update_pid. change (find_by_pid_locked p (bump_handle s)) with (find_by_pid_locked p s).
    by rewrite Hf.
  - by rewrite (find_by_pid_None s p Hinv Hf).
Qed.

Lemma vfs_close_run s l p e h :
  proc_inv s → procs s !! p = Some e → stat_handle_in_use e = true → stat_handle_id e = h →
  vfs_close h s l =
    (KERN_SUCCESS, update_pid p (set_stat_handle_id 0 ∘ set_stat_handle_in_use false) s, l).
Proof.
  intros Hinv He Ho Hh. unfold vfs_close. rewrite run_get.
  destruct (find_by_handle_open s p e h Hinv He Ho Hh) as (i & -> & Hf & _).
  rewrite run_put. unfold update_pid. by rewrite Hf.
Qed.

Lemma close_keeps e :
  frames_entry (set_stat_handle_id 0 ∘ set_stat_handle_in_use false) e.
Proof. split; [split|]; simpl; auto. done. Qed.

(** The stat handle of a process.  Opening its stat file, under either form of
    the path, gives a handle that no open file has, and marks the process; a
    second open of the same process fails and changes nothing; the handle is
    accepted by close exactly once, after which it is unknown to close and to
    read, and the table is back to where it was but for the retired handle. *)
Theorem stat_handle_protocol s l task p e full full' :
  proc_inv s → procs s !! p = Some e → stat_handle_in_use e = false →
  next_pid s ≤ 2 ^ 32 → next_stat_handle s + 2 < 2 ^ 64 →
  let r := vfs_open task (stat_path full p) s l in
  let h := next_stat_handle s in
  let s1 := post r in
  res r = (h, VFS_FT_REG, KERN_SUCCESS) ∧
  (∀ q x, procs s !! q = Some x → stat_handle_in_use x = true → stat_handle_id x ≠ h) ∧
  proc_inv s1 ∧ procs s1 = <[p := opened h e]> (procs s) ∧
  (∀ l', res (vfs_open task (stat_path full' p) s1 l') = (0, VFS_FT_UNKNOWN, KERN_FAILURE) ∧
         post (vfs_open task (stat_path full' p) s1 l') = s1) ∧
  (∀ l', let c := vfs_close h s1 l' in
     res c = KERN_SUCCESS ∧
     procs (post c) = <[p := set_stat_offset 0 (set_stat_handle_id 0 e)]> (procs s) ∧
     res (vfs_close h (post c) l') = KERN_INVALID_ARGUMENT ∧
     ∀ o n, res (vfs_read h o n (post c) l') = ([], KERN_INVALID_ARGUMENT)).
Proof.
  intros Hinv He Ho Hnp Hnh r h s1.
  pose proof (procs_bound s p e Hinv He) as Hb. unfold PROC_PID_INIT in Hb.
  assert (is_u32 p) as Hp32 by (unfold is_u32; lia).
  destruct (opened_inv s p e Hinv He) as [Hinv1 Hp1]. fold h in Hinv1, Hp1.
  assert (∀ q x, procs s !! q = Some x → stat_handle_in_use x = true → stat_handle_id x ≠ h) as Hfresh.
  { intros q x Hx Hxo. destruct (procs_find s q x Hinv Hx) as (i & _ & Hi & _ & Hu & _).
    destruct (inv_entry _ Hinv i x Hi) as [_ H]. destruct (H Hu) as (_ & _ & _ & Hlt).
    specialize (Hlt Hxo). subst h. lia. }
  assert (r = ((h, VFS_FT_REG, KERN_SUCCESS), update_pid p (opened h) (bump_handle s),
               l ++ [MachPortDeallocate task])) as Hr.
  { subst r. rewrite vfs_open_run, He, Ho by (done || lia). done. }
  assert (s1 = update_pid p (opened h) (bump_handle s)) as Hs1 by (subst s1; by rewrite Hr).
  rewrite <- Hs1 in Hinv1, Hp1. rewrite Hr.
  assert (procs s1 !! p = Some (opened h e)) as He1 by (rewrite Hp1; apply lookup_insert_eq).
  assert (next_stat_handle s1 = h + 1) as Hn1 by (by rewrite Hs1, next_handle_update_pid).
  refine (conj eq_refl (conj Hfresh (conj Hinv1 (conj Hp1 (conj _ _))))).
  - intros l'. rewrite vfs_open_run, He1 by (done || lia). done.
  - intros l' c. subst c. rewrite (vfs_close_run s1 l' p (opened h e)) by done.
    unfold res at 1, post. cbn [fst snd].
    pose proof (proc_inv_update_pid s1 p _ Hinv1 He1 _ (proj1 (close_keeps (opened h e)))) as Hinv2.
    pose proof (procs_update_pid s1 p _ Hinv1 He1 (set_stat_handle_id 0 ∘ set_stat_handle_in_use false)
      eq_refl eq_refl) as Hp2.
    set (s2 := update_pid p _ s1) in *. rewrite Hp1, insert_insert_eq in Hp2.
    assert (find_by_handle_locked h s2 = None) as Hnone.
    { apply find_by_handle_closed; [done|]. intros q x. rewrite Hp2, lookup_insert_Some.
      intros [[<- <-]|[_ Hx]]; [done|by apply (Hfresh q)]. }
    split_and!; [done| | |].
    + rewrite Hp2. f_equal. destruct e; simpl in *. by subst.
    + unfold vfs_close. rewrite run_get, Hnone. done.
    + intros o n. unfold vfs_read, refresh_by_handle. rewrite bind_assoc, run_get, Hnone.
      cbv zeta. rewrite decide_True by done. rewrite run_ret, run_get, Hnone. done.
Qed.

(** ** The invariant *)

Lemma vfs_open_inv task path s l :
  proc_inv s → next_stat_handle s + 1 < 2 ^ 64 → proc_inv (post (vfs_open task path s l)).
Proof.
  intros Hinv Hh. unfold vfs_open. rewrite run_call.
  destruct (parse_proc_path path) as [[p tail]|]; [|done]. case_decide; [|done].
  rewrite run_get. destruct (find_by_pid_locked p s) as [i|] eqn:Hf; [|done].
  destruct (find_by_pid_Some s p i Hinv Hf) as (e & Hi & -> & Hu & Hpe & He).
  destruct (stat_handle_in_use e); [done|]. cbv zeta. rewrite run_put, post_ret.
  rewrite u64_small by (pose proof (inv_handle _ Hinv); unfold is_u64; lia).
  destruct (opened_inv s p e Hinv He) as [Hinv1 _].
  unfold update_pid in Hinv1.
  change (find_by_pid_locked p (bump_handle s)) with (find_by_pid_locked p s) in Hinv1.
  by rewrite Hf in Hinv1.
Qed.

Lemma vfs_close_framed s0 h : preserves (framed s0) (vfs_close h).
Proof.
  intros s l Hfr. unfold vfs_close. rewrite run_get.
  destruct (find_by_handle_locked h s) as [i|] eqn:Hf; [|done]. rewrite run_put, post_ret.
  destruct (find_by_handle_Some s h i (fr_inv _ _ Hfr) Hf) as (e & He & _ & _ & _ & _ & Hfp).
  assert (∀ f, update_at i f s = update_pid (pid e) f s) as ->.
  { intros f. unfold update_pid. by rewrite Hfp. }
  apply framed_update_pid; [|done]. intros; apply close_keeps.
Qed.

Lemma vfs_read_framed s0 h o n : preserves (framed s0) (vfs_read h o n).
Proof.
  apply preserves_bind; [apply refresh_by_handle_framed|]. intros _ s l Hfr. rewrite run_get.
  destruct (find_by_handle_locked h s); [|done]. cbv zeta. case_decide; [done|].
  rewrite run_call. by destruct (decide (mach_kr l _ = _)).
Qed.

Lemma vfs_fstat_framed s0 h : preserves (framed s0) (vfs_fstat h).
Proof. apply preserves_bind; [apply refresh_by_handle_framed|]. by intros _ s l Hfr. Qed.

Lemma vfs_stat_framed s0 path : preserves (framed s0) (vfs_stat path).
Proof.
  unfold vfs_stat. destruct (parse_proc_path path) as [[p tail]|]; [|auto with uros].
  case_decide; [|auto with uros]. apply preserves_bind; [apply refresh_framed|].
  by intros _ s l Hfr.
Qed.

Lemma getrusage_framed s0 p : preserves (framed s0) (proc_S_getrusage p).
Proof. apply preserves_bind; [apply refresh_framed|]. by intros _ s l Hfr. Qed.
End run.

(** ** Instances *)

Lemma vfs_read_spec_witness :
  ∃ u, procs (post (vfs_read (E := env_ok) 1 0 512
                (post (vfs_open (E := env_ok) 50 (stat_path true 2) (single_table example_entry) [])) [])) =
       <[2 := set_last_rusage u (opened 1 example_entry)]>
         (procs (post (vfs_open (E := env_ok) 50 (stat_path true 2) (single_table example_entry) []))).
Proof.
  assert (He : procs (single_table example_entry) !! 2 = Some example_entry) by (by apply single_procs).
  rewrite (vfs_open_run (single_table example_entry) [] 50 2 true example_inv) by done.
  rewrite He. cbn [stat_handle_in_use example_entry]. unfold post at 2 3. cbn [fst snd].
  destruct (opened_inv (single_table example_entry) 2 example_entry example_inv He) as [Hinv Hp].
  destruct (vfs_read_spec (E := env_ok)
    (update_pid 2 (opened 1) (bump_handle (single_table example_entry))) [] 2
    (opened 1 example_entry) 1 0 512) as (u & Hu & _); [done| |done|done|apply Nat.lt_0_succ|done|done|].
  - change 1 with (next_stat_handle (single_table example_entry)) at 1.
    rewrite Hp. apply lookup_insert_eq.
  - by exists u.
Defined.

Lemma stat_handle_protocol_witness :
  res (vfs_open (E := env_ok) 50 (stat_path true 2) (single_table example_entry) []) =
    (1, VFS_FT_REG, KERN_SUCCESS).
Proof.
  apply (stat_handle_protocol (E := env_ok) (single_table example_entry) [] 50 2 example_entry true false).
  - apply example_inv.
  - by apply single_procs.
  - done.
  - done.
  - done.
Defined.
