(* ===== verification/ProcSystem.v ===== *)
(** * proc_server: the server

    The handlers composed into the message loop of [proc_server/proc_main.c]:
    [proc_demux] passes a message to the handler of its subsystem (proc, vfs or
    notify), and [mach_msg_server] handles one message after the other. *)

From S2P Require Import Prelude Mach ProcTable ProcLife ProcSignal ProcSession ProcFs.

(** The messages, one constructor per handler. *)
Inductive proc_msg :=
  | MRegister (parent_pid : Z) (task : port) (cmd : list Z)
  | MExecHandoff (old_pid : Z) (task : port) (cmd : list Z)
  | MSubscribeExit (p : Z) (notify : port)
  | MReapZombie (parent_pid : Z)
  | MList
  | MSetSignalPort (p : Z) (sigport : port)
  | MKill (p signo : Z)
  | MSetsid (p : Z)
  | MSetpgid (p pgrp : Z)
  | MGetsid (p : Z)
  | MGetpgid (p : Z)
  | MKillpg (pgrp signo : Z)
  | MSetCtty (session : Z) (tty : port)
  | MClearCtty (session : Z)
  | MTcsetpgrp (session pgrp : Z)
  | MTcgetpgrp (session : Z)
  | MShutdown (mode : Z)
  | MGetrusage (p : Z)
  | MSetExitCode (p code : Z)
  | MOpen (client_task : port) (path : list Z)
  | MClose (h : Z)
  | MRead (h offset count : Z)
  | MFstat (h : Z)
  | MStat (path : list Z)
  | MDeadName (name : port).

Section server.
Context {E : MachEnv}.

(** Handle one message.  Of the reply only the reaped pid is kept: what the
    reply of [proc_reap_zombie] hands to its caller. *)
Definition proc_demux (m : proc_msg) : M proc_state (option Z) :=
  let quiet {A} (h : M proc_state A) : M proc_state (option Z) := h ≫= λ _, mret None in
  match m with
  | MRegister pp task cmd => quiet (proc_S_register pp task cmd)
  | MExecHandoff p task cmd => quiet (proc_S_exec_handoff p task cmd)
  | MSubscribeExit p n => quiet (proc_S_subscribe_exit p n)
  | MReapZombie pp =>
      '(p, _, r) ← proc_S_reap_zombie pp;
      mret (if decide (r = PROC_OK) then Some p else None)
  | MList => quiet proc_S_list
  | MSetSignalPort p sp => quiet (proc_S_set_signal_port p sp)
  | MKill p signo => quiet (proc_S_kill p signo)
  | MSetsid p => quiet (proc_S_setsid p)
  | MSetpgid p g => quiet (proc_S_setpgid p g)
  | MGetsid p => quiet (proc_S_getsid p)
  | MGetpgid p => quiet (proc_S_getpgid p)
  | MKillpg g signo => quiet (proc_S_killpg g signo)
  | MSetCtty ses tty => quiet (proc_S_set_ctty ses tty)
  | MClearCtty ses => quiet (proc_S_clear_ctty ses)
  | MTcsetpgrp ses g => quiet (proc_S_tcsetpgrp ses g)
  | MTcgetpgrp ses => quiet (proc_S_tcgetpgrp ses)
  | MShutdown mode => quiet (proc_S_shutdown mode)
  | MGetrusage p => quiet (proc_S_getrusage p)
  | MSetExitCode p code => quiet (proc_S_set_exit_code p code)
  | MOpen task path => quiet (vfs_open task path)
  | MClose h => quiet (vfs_close h)
  | MRead h o n => quiet (vfs_read h o n)
  | MFstat h => quiet (vfs_fstat h)
  | MStat path => quiet (vfs_stat path)
  | MDeadName name => quiet (do_mach_notify_dead_name name)
  end.

(** The server after a number of messages, each admitted by [ok] in the state it
    meets: its state, its history, and the pids its replies have handed to
    reapers. *)
Inductive served (ok : proc_msg → proc_state → Prop) (notify : port) :
    nat → proc_state → list mach_call → list Z → Prop :=
  | served_init : served ok notify 0 (proc_init notify) [] []
  | served_step n s l d m r s' l' :
      served ok notify n s l d → ok m s → proc_demux m s l = (r, s', l') →
      served ok notify (S n) s' l' (d ++ option_list r).

(** ** Accounting for exits *)

Definition exit_of (p : Z) (c : mach_call) : Prop :=
  match c with SendExit _ q _ => q = p | _ => False end.
#[local] Instance exit_of_dec p c : Decision (exit_of p c).
Proof. destruct c; simpl; apply _. Defined.

Definition exits_of (p : Z) (l : list mach_call) : nat := length (filter (exit_of p) l).

Definition present (p : Z) (s : proc_state) : nat :=
  if decide (is_Some (procs s !! p)) then 1 else 0.

(** How often [p] has been, or can still be, handed to somebody as exited. *)
Definition weight (p : Z) (r : option Z) (s : proc_state) (l : list mach_call) : nat :=
  exits_of p l + (if decide (r = Some p) then 1 else 0) + present p s.

Record step_good (s : proc_state) (l : list mach_call) (out : option Z * proc_state * list mach_call) :
    Prop := {
  sg_inv : proc_inv (post out);
  sg_next : next_pid s ≤ next_pid (post out) ≤ next_pid s + 1;
  sg_handle : next_stat_handle s ≤ next_stat_handle (post out) ≤ next_stat_handle s + 1;
  sg_weight : ∀ p, (weight p (res out) (post out) (trace out) ≤ weight p None s l +
    (if decide (p = next_pid s ∧ next_pid (post out) = next_pid s + 1)%Z then 1 else 0))%nat;
  sg_pids : ∀ p, is_Some (procs (post out) !! p) →
    is_Some (procs s !! p) ∨ p = next_pid s ∧ next_pid (post out) = next_pid s + 1 }.

Lemma exits_of_app p l k : exits_of p (l ++ k) = (exits_of p l + exits_of p k)%nat.
Proof. unfold exits_of. by rewrite list_basics.list.filter_app, length_app. Qed.

Lemma exits_of_msg p n q c : (exits_of p (exit_msg n q c) ≤ if decide (q = p) then 1 else 0)%nat.
Proof.
  unfold exit_msg, exits_of. case_decide; simpl; [lia|].
  rewrite filter_cons, filter_nil. simpl. by repeat case_decide.
Qed.
Lemma exits_of_dropped p q : exits_of p (dropped q) = 0%nat.
Proof. unfold dropped. by case_decide. Qed.
Lemma exits_of_ctty p c q : exits_of p (ctty_msg c q) = 0%nat.
Proof. unfold ctty_msg. by case_decide. Qed.
Lemma exits_of_sigchld p c q : exits_of p (sigchld_msg c q) = 0%nat.
Proof. unfold sigchld_msg. by case_decide. Qed.

Lemma present_le p s s' :
  (is_Some (procs s' !! p) → is_Some (procs s !! p)) → (present p s' ≤ present p s)%nat.
Proof. unfold present. intros H. repeat case_decide; first [lia|tauto]. Qed.

(** A handler within its frame that sends no exit message. *)
Lemma framed_silent {A} (h : M proc_state A) s l :
  preserves (framed s) h → (∀ p, emits (exit_of p) h []) → proc_inv s →
  step_good s l ((h ≫= λ _, mret None) s l).
Proof.
  intros Hfr Hsil Hinv. specialize (Hfr s l (framed_refl _ Hinv)).
  assert (∀ p, exits_of p (trace (h s l)) = exits_of p l) as Hex.
  { intros p. unfold exits_of. by rewrite Hsil, app_nil_r. }
  destruct (h s l) as [[a s'] l'] eqn:Hh. unfold post, trace in *. cbn [fst snd] in *.
  rewrite (run_known _ _ _ _ _ _ _ Hh). destruct Hfr as [Hi Hn Hnh Hids].
  assert (∀ p, is_Some (procs s' !! p) → is_Some (procs s !! p)) as Hdom.
  { intros p [x Hx]. destruct (Hids p x Hx) as (x0 & -> & _). eauto. }
  split; unfold mret, M_ret, post, res, trace; cbn [fst snd]; [done|lia|lia| |by left; apply Hdom].
  intros p. unfold weight. rewrite Hex. pose proof (present_le p s s' (Hdom p)).
  rewrite (decide_False (P := None = Some p)) by done. lia.
Qed.

(** A handler that keeps the set of pids and sends no exit message. *)
Lemma same_pids_good s l r s' l' :
  proc_inv s' → next_pid s' = next_pid s →
  next_stat_handle s ≤ next_stat_handle s' ≤ next_stat_handle s + 1 →
  (∀ p, exits_of p l' = exits_of p l) → (∀ p, is_Some (procs s' !! p) → is_Some (procs s !! p)) →
  r = None → step_good s l (r, s', l').
Proof.
  intros Hi Hn Hh Hex Hdom ->.
  split; unfold post, res, trace; cbn [fst snd]; [done|lia|lia| |by left; apply Hdom].
  intros p. unfold weight. rewrite Hex. pose proof (present_le p s s' (Hdom p)).
  rewrite (decide_False (P := None = Some p)) by done. lia.
Qed.

(** A handler that hands one process over and frees its slot. *)
Lemma reaped_good s l q e r l' :
  proc_inv s → procs s !! q = Some e →
  (∀ p, exits_of p l' + (if decide (r = Some p) then 1 else 0) ≤
        exits_of p l + (if decide (q = p) then 1 else 0))%nat →
  step_good s l (r, clear_pid q s, l').
Proof.
  intros Hinv Hq Hex. split; unfold post, res, trace; cbn [fst snd].
  - by eapply proc_inv_clear_pid.
  - unfold clear_pid. rewrite next_pid_update_pid. lia.
  - unfold clear_pid. rewrite next_handle_update_pid. lia.
  - intros p. unfold weight, present. specialize (Hex p).
    rewrite (procs_clear_pid s q e) by done. rewrite (decide_False (P := None = Some p)) by done.
    destruct (decide (q = p)) as [->|Hqp].
    + rewrite lookup_delete_eq, Hq. rewrite (decide_True (P := is_Some (Some e))) by eauto.
      rewrite (decide_False (P := is_Some None)) by (by intros [? ?]). lia.
    + rewrite lookup_delete_ne by done. lia.
  - intros p. rewrite (procs_clear_pid s q e) by done. intros [_ ?]%lookup_delete_is_Some. by left.
Qed.

(** ** The silent handlers *)

Lemma fire_free_default p q signo task : emits (exit_of q) (apply_default_disposition p signo task) [].
Proof. unfold apply_default_disposition, suspend_task, mark_stopped. emits_nothing. Qed.
Lemma fire_free_forget p q sp : emits (exit_of q) (forget_sigport p sp) [].
Proof. unfold forget_sigport. emits_nothing. Qed.
Lemma fire_free_refresh p q : emits (exit_of q) (refresh_rusage_for_pid p) [].
Proof. unfold refresh_rusage_for_pid, query_kernel_rusage. emits_nothing. Qed.
Lemma fire_free_refresh_h h q : emits (exit_of q) (refresh_by_handle h) [].
Proof.
  apply emits_nil_bind; [apply emits_get|]. intros s. cbv zeta.
  case_decide; [apply emits_ret|apply fire_free_refresh].
Qed.

Lemma kill_silent p signo q : emits (exit_of q) (proc_S_kill p signo) [].
Proof.
  unfold proc_S_kill, suspend_task, mark_stopped.
  emits_nothing; apply fire_free_default || apply fire_free_forget.
Qed.

Lemma killpg_silent g signo q : emits (exit_of q) (proc_S_killpg g signo) [].
Proof.
  unfold proc_S_killpg, killpg_uncatch, killpg_catch, killpg_dfl, uncatchable_call.
  emits_nothing; (apply fire_free_default || apply fire_free_forget).
Qed.

Lemma watch_silent task q : emits (exit_of q) (watch_task task) [].
Proof. unfold watch_task. emits_nothing. Qed.

Lemma register_silent pp task cmd q : emits (exit_of q) (proc_S_register pp task cmd) [].
Proof. unfold proc_S_register. emits_nothing; apply watch_silent. Qed.

Lemma exec_handoff_silent p task cmd q : emits (exit_of q) (proc_S_exec_handoff p task cmd) [].
Proof. unfold proc_S_exec_handoff. emits_nothing; apply watch_silent. Qed.

Lemma shutdown_silent mode q : emits (exit_of q) (proc_S_shutdown mode) [].
Proof.
  unfold proc_S_shutdown, proc_drain_sigterm_sweep, proc_drain_fs_sync, sync_mount. emits_nothing.
Qed.

Lemma read_silent h o n q : emits (exit_of q) (vfs_read h o n) [].
Proof. unfold vfs_read. emits_nothing; apply fire_free_refresh_h. Qed.

Lemma ctty_silent c p q : emits (exit_of q) (notify_ctty_release c p) [].
Proof. unfold notify_ctty_release. emits_nothing. Qed.

(** ** One message *)

Lemma exits_same {A} (h : M proc_state A) s l p :
  emits (exit_of p) h [] → exits_of p (trace (h s l)) = exits_of p l.
Proof. intros H. unfold exits_of. by rewrite H, app_nil_r. Qed.

Lemma register_good pp task cmd s l :
  proc_inv s → next_pid s + 1 < 2 ^ 32 →
  step_good s l (proc_demux (MRegister pp task cmd) s l).
Proof.
  intros Hinv Hnp. cbn [proc_demux].
  pose proof (λ p, exits_same _ s l p (register_silent pp task cmd p)) as Hex.
  pose proof (register_inv s l pp task cmd Hinv Hnp) as Hinv'.
  pose proof (register_run s l pp task cmd Hinv Hnp) as Hrun.
  destruct (proc_S_register pp task cmd s l) as [[a s'] l'] eqn:Hr.
  rewrite (run_known _ _ _ _ _ _ _ Hr). unfold post, trace in Hex, Hinv'. cbn [fst snd] in *.
  destruct (find_by_task_locked task s) as [i|].
  { injection Hrun as -> -> ->. apply same_pids_good; auto; lia. }
  destruct (find_slot _ _) as [i|] eqn:Hf.
  2: { injection Hrun as -> -> ->. apply same_pids_good; auto; lia. }
  injection Hrun as -> -> ->. apply find_slot_Some in Hf as (e0 & Hi & Hu & _).
  destruct (inv_entry _ Hinv i e0 Hi) as [Hz _]. rewrite (Hz Hu) in Hi.
  split; unfold mret, M_ret, post, res, trace; cbn [fst snd]; [done|simpl; lia|simpl; lia| |].
  2: { intros p. rewrite register_at_procs by done. intros [<-|[_ ?]]%lookup_insert_is_Some; auto. }
  intros p. unfold weight, present. rewrite Hex, register_at_procs by done.
  rewrite (decide_False (P := None = Some p)) by done.
  destruct (decide (p = next_pid s)) as [->|Hp].
  - rewrite lookup_insert_eq, (decide_True (P := _ ∧ _)) by done. case_decide; case_decide; lia.
  - rewrite lookup_insert_ne by done. lia.
Qed.

Lemma subscribe_good q n s l :
  proc_inv s → step_good s l (proc_demux (MSubscribeExit q n) s l).
Proof.
  intros Hinv. cbn [proc_demux]. pose proof (subscribe_exit_run s l q n Hinv) as Hrun.
  destruct (procs s !! q) as [e|] eqn:He.
  2: { rewrite (run_known _ _ _ _ _ _ _ Hrun). apply same_pids_good; auto; [lia|].
       intros p. rewrite exits_of_app, exits_of_dropped. lia. }
  destruct (decide (state e = PROC_STATE_ZOMBIE)); rewrite (run_known _ _ _ _ _ _ _ Hrun).
  - apply (reaped_good s l q e); [done..|]. intros p.
    rewrite !exits_of_app, exits_of_dropped. rewrite (decide_False (P := None = Some p)) by done.
    pose proof (exits_of_msg p n q (exit_code e)). lia.
  - apply same_pids_good; auto.
    + apply (fr_inv s). apply framed_update_pid; [|by apply framed_refl].
      intros e' He'. rewrite He in He'. simplify_eq. split; [|done]. split; simpl; auto. by intros.
    + by rewrite next_pid_update_pid.
    + rewrite next_handle_update_pid. lia.
    + intros p. rewrite exits_of_app, exits_of_dropped. lia.
    + intros p. rewrite (procs_update_pid s q e) by done.
      rewrite lookup_insert_is_Some. intros [->|[_ ?]]; eauto.
Qed.

Lemma reap_good pp s l : proc_inv s → step_good s l (proc_demux (MReapZombie pp) s l).
Proof.
  intros Hinv. cbn [proc_demux].
  destruct (reap_zombie_run s l pp Hinv) as [(q & e & He & _ & _ & Hrun)|(_ & r & Hrun & Hr)];
    rewrite (run_known _ _ _ _ _ _ _ Hrun).
  - apply (reaped_good s l q e); [done..|]. intros p. rewrite exits_of_app, exits_of_dropped.
    rewrite (decide_True (P := PROC_OK = PROC_OK)) by done.
    destruct (decide (Some q = Some p)), (decide (q = p)); simplify_eq; lia.
  - apply same_pids_good; auto; [lia|]. by destruct Hr as [[-> _]|[-> _]].
Qed.

Lemma dead_name_good name s l : proc_inv s → step_good s l (proc_demux (MDeadName name) s l).
Proof.
  intros Hinv. cbn [proc_demux]. pose proof (dead_name_run s l name Hinv) as Hrun.
  pose proof (dead_name_framed s name s l (framed_refl _ Hinv)) as Hfr.
  destruct (find_by_task_locked name s) as [i|] eqn:Hf.
  2: { rewrite (run_known _ _ _ _ _ _ _ Hrun). apply same_pids_good; auto; [lia|].
       intros p. by rewrite exits_of_app, Nat.add_0_r. }
  destruct (find_by_task_Some s name i Hinv Hf) as (e & He & _ & _ & Hat). rewrite Hat in Hrun.
  cbv zeta in Hrun. rewrite Hrun in Hfr. rewrite (run_known _ _ _ _ _ _ _ Hrun).
  assert (∀ p k, exits_of p (l ++ [MachPortDeallocate name] ++ k ++ ctty_msg (ctty_port e) (pid e) ++
    dropped (ctty_port e) ++ exit_msg (exit_notify e) (pid e) (exit_code e) ++
    sigchld_msg (parent_sigport s e) (pid e)) =
    (exits_of p l + exits_of p k + exits_of p (exit_msg (exit_notify e) (pid e) (exit_code e)))%nat)
    as Hex.
  { intros p k. rewrite !exits_of_app, exits_of_ctty, exits_of_dropped, exits_of_sigchld.
    change (exits_of p [MachPortDeallocate name]) with 0%nat. lia. }
  unfold post in Hfr. cbn [fst snd] in Hfr.
  destruct (decide (exit_notify e = MACH_PORT_NULL)) as [Hn|Hn].
  - destruct Hfr as [Hi Hnx Hnh Hids]. apply same_pids_good; auto; [lia| |].
    + intros p. rewrite Hex. unfold exit_msg. rewrite decide_True by done. cbn. lia.
    + intros p [x Hx]. destruct (Hids p x Hx) as (x0 & -> & _). eauto.
  - apply (reaped_good s l (pid e) e); [done..|]. intros p. rewrite Hex, exits_of_dropped.
    rewrite (decide_False (P := None = Some p)) by done.
    pose proof (exits_of_msg p (exit_notify e) (pid e) (exit_code e)). lia.
Qed.

Lemma open_good task path s l :
  proc_inv s → next_stat_handle s + 1 < 2 ^ 64 → step_good s l (proc_demux (MOpen task path) s l).
Proof.
  intros Hinv Hnh. cbn [proc_demux].
  assert (∀ p, emits (exit_of p) (vfs_open task path) []) as Hsil.
  { intros p. unfold vfs_open. emits_nothing. }
  pose proof (λ p, exits_same _ s l p (Hsil p)) as Hex.
  pose proof (vfs_open_inv task path s l Hinv Hnh) as Hinv'.
  assert (next_pid (post (vfs_open task path s l)) = next_pid s ∧
    next_stat_handle s ≤ next_stat_handle (post (vfs_open task path s l)) ≤ next_stat_handle s + 1 ∧
    ∀ p, is_Some (procs (post (vfs_open task path s l)) !! p) → is_Some (procs s !! p))
    as (H1 & H2 & H3).
  { unfold vfs_open. rewrite run_call.
    destruct (parse_proc_path path) as [[p tail]|]; [|rewrite post_ret; split_and!; [done|lia|lia|done]].
    case_decide; [|rewrite post_ret; split_and!; [done|lia|lia|done]]. rewrite run_get.
    destruct (find_by_pid_locked p s) as [i|] eqn:Hf; [|rewrite post_ret; split_and!; [done|lia|lia|done]].
    destruct (find_by_pid_Some s p i Hinv Hf) as (e & Hi & -> & Hu & Hpe & He).
    destruct (stat_handle_in_use e); [rewrite post_ret; split_and!; [done|lia|lia|done]|]. rewrite run_put, post_ret.
    rewrite u64_small by (pose proof (inv_handle _ Hinv); unfold is_u64; lia).
    split_and!; [done|simpl; lia|simpl; lia|]. intros q.
    destruct (opened_inv s p e Hinv He) as [_ Hp]. unfold update_pid in Hp.
    change (find_by_pid_locked p (bump_handle s)) with (find_by_pid_locked p s) in Hp.
    rewrite Hf in Hp. unfold bump_handle, opened in Hp. rewrite Hp, lookup_insert_is_Some.
    intros [->|[_ ?]]; eauto. }
  destruct (vfs_open task path s l) as [[a s'] l'] eqn:Ho. rewrite (run_known _ _ _ _ _ _ _ Ho).
  by apply same_pids_good.
Qed.

Lemma setsid_good q s l : proc_inv s → step_good s l (proc_demux (MSetsid q) s l).
Proof.
  intros Hinv. cbn [proc_demux]. pose proof (setsid_inv q s l Hinv) as Hinv'.
  unfold proc_S_setsid in *. rewrite bind_assoc, run_get. rewrite run_get in Hinv'.
  destruct (find_by_pid_locked q s) as [i|] eqn:Hf.
  2: { rewrite run_ret. apply same_pids_good; auto; lia. }
  destruct (find_slot _ _). { rewrite run_ret. apply same_pids_good; auto; lia. }
  rewrite bind_assoc, run_put, run_ret. rewrite run_put, post_ret in Hinv'.
  destruct (find_by_pid_Some s q i Hinv Hf) as (e & Hi & _ & Hu & <- & He).
  apply same_pids_good; auto; [simpl; lia|]. intros p.
  rewrite (procs_update s i e) by done. rewrite lookup_insert_is_Some. intros [<-|[_ ?]]; eauto.
Qed.

Lemma setpgid_good q g s l : proc_inv s → step_good s l (proc_demux (MSetpgid q g) s l).
Proof.
  intros Hinv. cbn [proc_demux]. pose proof (setpgid_inv q g s l Hinv) as Hinv'.
  pose proof (setpgid_run s l q g Hinv) as Hrun. cbv zeta in Hrun.
  destruct (procs s !! q) as [e|] eqn:He; [destruct Hrun as [[Hrun _]|[Hrun _]]|];
    rewrite Hrun in Hinv'; rewrite (run_known _ _ _ _ _ _ _ Hrun); unfold post in Hinv';
    cbn [fst snd] in Hinv'; apply same_pids_good; auto; try lia.
  - by rewrite next_pid_update_pid.
  - rewrite next_handle_update_pid. lia.
  - intros p. rewrite (procs_update_pid s q e) by done.
    rewrite lookup_insert_is_Some. intros [->|[_ ?]]; eauto.
Qed.

#[local] Hint Resolve exec_handoff_framed proc_list_framed set_signal_port_framed kill_framed
  killpg_framed set_ctty_framed clear_ctty_framed tcsetpgrp_framed shutdown_framed getrusage_framed
  set_exit_code_framed vfs_close_framed vfs_read_framed vfs_fstat_framed vfs_stat_framed : uros.
#[local] Hint Resolve kill_silent killpg_silent exec_handoff_silent shutdown_silent read_silent : uros.

Lemma demux_good m s l :
  proc_inv s → next_pid s + 1 < 2 ^ 32 → next_stat_handle s + 1 < 2 ^ 64 →
  step_good s l (proc_demux m s l).
Proof.
  intros Hinv Hnp Hnh. destruct m.
  - by apply register_good.
  - apply framed_silent; auto with uros.
  - by apply subscribe_good.
  - by apply reap_good.
  - apply framed_silent; auto with uros. intros q. unfold proc_S_list. emits_nothing.
  - apply framed_silent; auto with uros. intros q. unfold proc_S_set_signal_port. emits_nothing.
  - apply framed_silent; auto with uros.
  - by apply setsid_good.
  - by apply setpgid_good.
  - apply framed_silent; [by intros ???|intros q; unfold proc_S_getsid; emits_nothing|done].
  - apply framed_silent; [by intros ???|intros q; unfold proc_S_getpgid; emits_nothing|done].
  - apply framed_silent; auto with uros.
  - apply framed_silent; auto with uros. intros q. unfold proc_S_set_ctty. emits_nothing.
  - apply framed_silent; auto with uros. intros q. unfold proc_S_clear_ctty.
    emits_nothing; apply ctty_silent.
  - apply framed_silent; auto with uros. intros q. unfold proc_S_tcsetpgrp. emits_nothing.
  - apply framed_silent; [by intros ???|intros q; unfold proc_S_tcgetpgrp; emits_nothing|done].
  - apply framed_silent; auto with uros.
  - apply framed_silent; auto with uros. intros q. unfold proc_S_getrusage.
    emits_nothing; apply fire_free_refresh.
  - apply framed_silent; auto with uros. intros q. unfold proc_S_set_exit_code. emits_nothing.
  - by apply open_good.
  - apply framed_silent; auto with uros. intros q. unfold vfs_close. emits_nothing.
  - apply framed_silent; auto with uros.
  - apply framed_silent; auto with uros. intros q. unfold vfs_fstat.
    emits_nothing; apply fire_free_refresh_h.
  - apply framed_silent; auto with uros. intros q. unfold vfs_stat.
    emits_nothing; apply fire_free_refresh.
  - by apply dead_name_good.
Qed.

(** ** The server as a whole *)

Definition handed (p : Z) (d : list Z) : nat := length (filter (λ q, q = p) d).

Lemma procs_init p notify : procs (proc_init notify) !! p = None.
Proof.
  unfold procs, proc_init. cbn [pid_table]. induction PROC_MAX_TASKS; [done|]. done.
Qed.

(** The invariant of the loop. *)
Lemma served_account ok notify n s l d :
  served ok notify n s l d → Z.of_nat n < 2 ^ 32 - 3 →
  proc_inv s ∧ next_pid s ≤ 2 + Z.of_nat n ∧ next_stat_handle s ≤ 1 + Z.of_nat n ∧
  ∀ p, (exits_of p l + handed p d + present p s ≤ 1)%nat ∧
       (next_pid s ≤ p → (exits_of p l + handed p d + present p s = 0)%nat).
Proof.
  induction 1 as [|n s l d m r s' l' _ IH _ Hstep]; intros Hn.
  { split_and!; [apply proc_init_inv|done|done|]. intros p. unfold present.
    rewrite procs_init, decide_False by (by intros [? ?]). cbn. split; lia. }
  destruct IH as (Hinv & Hnp & Hnh & Hacc); [lia|].
  pose proof (demux_good m s l Hinv ltac:(lia) ltac:(lia)) as Hgood. rewrite Hstep in Hgood.
  destruct Hgood as [Hi Hx Hh Hw _]. unfold post, res, trace in *. cbn [fst snd] in *.
  split_and!; [done|lia|lia|]. intros p. destruct (Hacc p) as [H1 H2]. specialize (Hw p).
  unfold weight in Hw. rewrite (decide_False (P := None = Some p)) in Hw by done.
  assert (handed p (d ++ option_list r) = (handed p d + if decide (r = Some p) then 1 else 0)%nat) as ->.
  { unfold handed. rewrite list_basics.list.filter_app, length_app. f_equal.
    destruct r as [q|]; simpl; [|done]. rewrite filter_cons, filter_nil.
    destruct (decide (q = p)), (decide (Some q = Some p)); simplify_eq; done. }
  destruct (decide (_ ∧ _)) as [[-> Hinc]|Hno].
  - specialize (H2 ltac:(lia)). split; lia.
  - split; [lia|]. intros Hp. specialize (H2 ltac:(lia)). lia.
Qed.

(** One more message, whatever was called before. *)
Definition serves (s s' : proc_state) : Prop := ∃ m l r l', proc_demux m s l = (r, s', l').

(** No pid comes back. *)
Lemma pids_not_reused k s s' :
  nsteps serves k s s' → proc_inv s →
  next_pid s + Z.of_nat k < 2 ^ 32 - 1 → next_stat_handle s + Z.of_nat k < 2 ^ 32 - 1 →
  ∀ p, is_Some (procs s' !! p) → is_Some (procs s !! p) ∨ next_pid s ≤ p.
Proof.
  induction 1 as [s|k s s1 s2 (m & l & r & l' & Hd) _ IH]; intros Hinv Hn Hh p Hp; [by left|].
  pose proof (demux_good m s l Hinv ltac:(lia) ltac:(lia)) as Hgood. rewrite Hd in Hgood.
  destruct Hgood as [Hi Hx Hxh _ Hpids]. unfold post in *. cbn [fst snd] in *.
  destruct (IH Hi ltac:(lia) ltac:(lia) p Hp) as [H1|?]; [|right; lia].
  destruct (Hpids p H1) as [?|[-> _]]; [by left|right; lia].
Qed.

(** C22. The table stays well formed.  After any sequence of fewer than 2^32 - 3
    messages of any kind, with any arguments, in any environment: the table has
    its fixed length, free slots are zeroed, no two processes share a pid, pids
    are above the reserved ones and below the next to be assigned, every process
    runs or is a zombie, no zombie has a waiter left, and no two open stat
    handles share an id.  And no pid is assigned twice: a process that is in the table
    after any further messages, within the same total, is in it now or has a pid that has
    not been assigned yet. *)
Theorem served_inv ok notify n s l d :
  served ok notify n s l d → Z.of_nat n < 2 ^ 32 - 3 →
  proc_inv s ∧
  ∀ k s' p, nsteps serves k s s' → Z.of_nat (n + k) < 2 ^ 32 - 3 →
    is_Some (procs s' !! p) → is_Some (procs s !! p) ∨ next_pid s ≤ p.
Proof.
  intros Hs Hn. destruct (served_account _ _ _ _ _ _ Hs Hn) as (Hinv & Hnp & Hnh & _).
  split; [done|]. intros k s' p Hk Hnk. apply (pids_not_reused k); [done..|lia|lia].
Qed.

(** C3. An exit is reported at most once.  Over the whole life of the server, for
    every pid, the exit messages sent for it and the replies that hand it to a
    reaper number at most one together; once there is one, the process is gone
    from the table, and a process in the table has not been reported yet. *)
Theorem exit_reported_once ok notify n s l d p :
  served ok notify n s l d → Z.of_nat n < 2 ^ 32 - 3 →
  (exits_of p l + handed p d ≤ 1)%nat ∧
  ((exits_of p l + handed p d = 1)%nat → procs s !! p = None).
Proof.
  intros Hs Hn. destruct (served_account _ _ _ _ _ _ Hs Hn) as (_ & _ & _ & Hacc).
  destruct (Hacc p) as [H1 _]. split; [lia|]. intros Heq. unfold present in H1.
  destruct (procs s !! p); [|done]. rewrite decide_True in H1 by eauto. lia.
Qed.

(** ** Sessions *)

(** The requests that keep to issued group ids. *)
Definition setpgid_issued (m : proc_msg) (s : proc_state) : Prop :=
  match m with MSetpgid p g => p < next_pid s ∧ g < next_pid s | _ => True end.

Lemma register_session_inv pp task cmd s l :
  session_inv s → next_pid s + 1 < 2 ^ 32 → session_inv (post (proc_S_register pp task cmd s l)).
Proof.
  intros Hsi Hnp. pose proof (register_inv s l pp task cmd (si_inv _ Hsi) Hnp) as Hinv'.
  rewrite register_run in Hinv' |- * by (done || by apply Hsi).
  destruct (find_by_task_locked task s); [done|].
  destruct (find_slot _ _) as [i|] eqn:Hf; [|done]. unfold post in *. cbn [fst snd] in *.
  destruct Hsi as [Hinv Hg Hi Hz0]. apply find_slot_Some in Hf as (e0 & Hi0 & Hu & _).
  destruct (inv_entry _ Hinv i e0 Hi0) as [Hz _]. rewrite (Hz Hu) in Hi0.
  set (e := child_entry _ _ _ _ _) in *.
  pose proof (register_at_procs s i e Hinv Hi0 eq_refl eq_refl) as Hp.
  pose proof (inv_next _ Hinv) as Hnx. unfold PROC_PID_INIT in Hnx.
  assert (pgrp_id e = next_pid s ∧ sid e = next_pid s ∨ pgrp_id e = 0 ∧ sid e = 0 ∨
          ∃ q x, procs s !! q = Some x ∧ pgrp_id e = pgrp_id x ∧ sid e = sid x) as He.
  { subst e. unfold parent_of. case_decide; [by left|]. simpl.
    destruct (decide (pp = next_pid s)) as [->|Hpp].
    - rewrite lookup_insert_eq. by right; left.
    - rewrite lookup_insert_ne by done. destruct (procs s !! pp) as [x|] eqn:Hx; [|by left].
      right; right. by exists pp, x. }
  assert (∀ q x, procs s !! q = Some x → pgrp_id x = pgrp_id e → sid x = sid e) as Hsame.
  { intros q x Hx Hxe. destruct He as [[Hge Hse]|[[Hge Hse]|(r & y & Hy & Hge & Hse)]].
    - pose proof (Hi q x Hx). lia.
    - rewrite Hse. apply (Hz0 q x Hx). congruence.
    - rewrite Hse. apply (Hg q x r y); [done..|congruence]. }
  split; [done| | |].
  - intros q x r y. rewrite Hp, !lookup_insert_Some.
    intros [[<- <-]|[Hq Hx]] [[<- <-]|[Hr Hy]] Heq; [done| | |].
    + symmetry. by apply (Hsame r y).
    + by apply (Hsame q x).
    + by apply (Hg q x r y).
  - intros q x. rewrite Hp, lookup_insert_Some. cbn [register_at next_pid].
    intros [[<- <-]|[Hq Hx]]; [|pose proof (Hi q x Hx); lia].
    destruct He as [[-> _]|[[-> _]|(r & y & Hy & -> & _)]]; [lia|lia|].
    pose proof (Hi r y Hy). lia.
  - intros q x. rewrite Hp, lookup_insert_Some.
    intros [[<- <-]|[Hq Hx]]; [|by apply (Hz0 q)]. intros Hg0.
    destruct He as [[He _]|[[_ He]|(r & y & Hy & Hge & ->)]]; [lia|done|].
    apply (Hz0 r y Hy). congruence.
Qed.

Lemma open_session_inv task path s l :
  session_inv s → next_stat_handle s + 1 < 2 ^ 64 → session_inv (post (vfs_open task path s l)).
Proof.
  intros Hsi Hnh. pose proof (vfs_open_inv task path s l (si_inv _ Hsi) Hnh) as Hinv'.
  unfold vfs_open in *. rewrite run_call in Hinv' |- *.
  destruct (parse_proc_path path) as [[p tail]|]; [|done]. case_decide; [|done].
  rewrite run_get in Hinv' |- *.
  destruct (find_by_pid_locked p s) as [i|] eqn:Hf; [|done].
  destruct (find_by_pid_Some s p i (si_inv _ Hsi) Hf) as (e & Hi & Hat & Hu & Hpe & He).
  rewrite Hat in Hinv' |- *. destruct (stat_handle_in_use e); [done|].
  cbv zeta in *. rewrite run_put, post_ret in Hinv' |- *.
  assert (u64 (next_stat_handle s + 1) = next_stat_handle s + 1) as Hu64.
  { apply u64_small. pose proof (inv_handle _ (si_inv _ Hsi)). unfold is_u64. lia. }
  rewrite Hu64 in *. destruct (opened_inv s p e (si_inv _ Hsi) He) as [_ Hp].
  unfold update_pid in Hp.
  change (find_by_pid_locked p (bump_handle s)) with (find_by_pid_locked p s) in Hp.
  rewrite Hf in Hp. unfold bump_handle, opened in Hp. destruct Hsi as [_ Hg Hiss Hz0].
  assert (∀ q x, <[p := opened (next_stat_handle s) e]> (procs s) !! q = Some x →
    ∃ x0, procs s !! q = Some x0 ∧ pgrp_id x = pgrp_id x0 ∧ sid x = sid x0) as Hsame.
  { intros q x. rewrite lookup_insert_Some. intros [[<- <-]|[_ Hx]]; eauto. }
  split; [done| | |]; unfold opened in Hsame; rewrite Hp.
  - intros q x r y (x0 & Hx0 & -> & ->)%Hsame (y0 & Hy0 & -> & ->)%Hsame. by apply (Hg q x0 r y0).
  - intros q x (x0 & Hx0 & -> & _)%Hsame. by apply (Hiss q x0).
  - intros q x (x0 & Hx0 & -> & ->)%Hsame. by apply (Hz0 q x0).
Qed.

Lemma framed_session {A} (h : M proc_state A) s l :
  preserves (framed s) h → session_inv s → session_inv (post ((h ≫= λ _, mret (@None Z)) s l)).
Proof.
  intros Hfr Hsi. apply (session_inv_framed s); [done|].
  apply preserves_bind; [done|auto with uros|by apply framed_refl, si_inv].
Qed.

Lemma demux_session m s l :
  session_inv s → setpgid_issued m s → next_pid s + 1 < 2 ^ 32 →
  next_stat_handle s + 1 < 2 ^ 64 → session_inv (post (proc_demux m s l)).
Proof.
  intros Hsi Hiss Hnp Hnh.
  assert (∀ A (h : M proc_state A), session_inv (post (h s l)) →
            session_inv (post ((h ≫= λ _, mret (@None Z)) s l))) as Hq.
  { intros A h Hh. destruct (h s l) as [[a s'] l'] eqn:Hr.
    by rewrite (run_known _ _ _ _ _ _ _ Hr). }
  destruct m; try (apply framed_session; [|done]; auto with uros; fail); cbn [proc_demux].
  - by apply Hq, register_session_inv.
  - apply framed_session; [apply subscribe_exit_framed|done].
  - apply (session_inv_framed s); [done|]. apply preserves_bind; [apply reap_zombie_framed| |].
    + intros [[? ?] ?]. auto with uros.
    + by apply framed_refl, si_inv.
  - by apply Hq, setsid_session_inv.
  - destruct Hiss. by apply Hq, setpgid_session_inv.
  - apply framed_session; [by intros ???|done].
  - apply framed_session; [by intros ???|done].
  - apply framed_session; [by intros ???|done].
  - by apply Hq, open_session_inv.
  - apply framed_session; [apply dead_name_framed|done].
Qed.

(** Process groups and sessions.  As long as setpgid is only asked for group ids
    already issued as pids, after any sequence of messages every process group
    lies within one session. *)
Theorem groups_within_sessions notify n s l d q x r y :
  served setpgid_issued notify n s l d → Z.of_nat n < 2 ^ 32 - 3 →
  procs s !! q = Some x → procs s !! r = Some y → pgrp_id x = pgrp_id y → sid x = sid y.
Proof.
  intros Hs Hn. enough (session_inv s) as Hsi by apply (si_group _ Hsi).
  induction Hs as [|n s l d m re s' l' Hs IH Hok Hstep].
  { split; [apply proc_init_inv|..]; intros ? ?; by rewrite procs_init. }
  destruct (served_account _ _ _ _ _ _ Hs) as (_ & Hnp & Hnh & _); [lia|].
  pose proof (demux_session m s l (IH ltac:(lia)) Hok ltac:(lia) ltac:(lia)) as H.
  by rewrite Hstep in H.
Qed.
End server.

(** ** Instances *)

(** One process, registered by the first message. *)
Lemma served_example ok :
  (∀ m s, ok m s) ∨ ok = setpgid_issued →
  served (E := env_ok) ok 9 1 (post (proc_demux (E := env_ok) (MRegister 0 100 []) (proc_init 9) []))
    (trace (proc_demux (E := env_ok) (MRegister 0 100 []) (proc_init 9) [])) [].
Proof.
  intros Hok. apply (served_step (E := env_ok) ok 9 0 (proc_init 9) [] [] (MRegister 0 100 []) None).
  - apply served_init.
  - destruct Hok as [Hok| ->]; [apply Hok|exact I].
  - vm_compute. reflexivity.
Qed.

(** Its task dies and it is reaped; the next process has another pid. *)
Definition after_msgs (ms : list proc_msg) (s : proc_state) : proc_state :=
  foldl (λ s m, post (proc_demux (E := env_ok) m s [])) s ms.

Lemma after_msgs_serves ms s : nsteps (serves (E := env_ok)) (length ms) s (after_msgs ms s).
Proof.
  revert s. induction ms as [|m ms IH]; intros s; [constructor|]. econstructor; [|apply IH].
  exists m, [], (res (proc_demux (E := env_ok) m s [])), (trace (proc_demux (E := env_ok) m s [])).
  unfold post, res, trace. by destruct (proc_demux m s []) as [[? ?] ?].
Qed.

Lemma served_inv_witness :
  let s := post (proc_demux (E := env_ok) (MRegister 0 100 []) (proc_init 9) []) in
  let s' := after_msgs [MDeadName 100; MReapZombie 0; MRegister 0 101 []] s in
  proc_inv s ∧ procs s' !! 2 = None ∧ is_Some (procs s' !! 3) ∧ next_pid s ≤ 3.
Proof.
  intros s s'.
  destruct (served_inv (E := env_ok) (λ _ _, True) 9 1 s
    (trace (proc_demux (E := env_ok) (MRegister 0 100 []) (proc_init 9) [])) []) as [Hi Hk];
    [apply served_example; by left|done|].
  assert (is_Some (procs s' !! 3)) as H3 by (eexists; vm_compute; reflexivity).
  split; [exact Hi|]. split; [vm_compute; reflexivity|]. split; [exact H3|].
  destruct (Hk 3%nat s' 3 (after_msgs_serves [MDeadName 100; MReapZombie 0; MRegister 0 101 []] s)
    ltac:(done) H3) as [[x Hx]|?]; [|done].
  vm_compute in Hx. discriminate Hx.
Defined.

Lemma exit_reported_once_witness :
  (exits_of 2 (trace (proc_demux (E := env_ok) (MRegister 0 100 [])%Z (proc_init 9%Z) [])) +
   handed 2 [] ≤ 1)%nat.
Proof.
  eapply (exit_reported_once (E := env_ok) (λ _ _, True) 9 1); [|done].
  apply served_example. by left.
Defined.

Lemma groups_within_sessions_witness :
  ∃ x, procs (post (proc_demux (E := env_ok) (MRegister 0 100 []) (proc_init 9) [])) !! 2 = Some x ∧
       sid x = sid x.
Proof.
  eexists. split; [vm_compute; reflexivity|].
  eapply (groups_within_sessions (E := env_ok) 9 1 _ _ _ 2 _ 2); [| | | |reflexivity].
  - apply served_example. by right.
  - done.
  - vm_compute. reflexivity.
  - vm_compute. reflexivity.
Defined.
