(* ===== verification/CapTypes.v ===== *)
(** * Capability tokens

    [struct uros_cap] of [uapi/mach/cap_types.h], its wire image, the signature
    that cap_server ([cap_sign], [cap_verify_hmac] in [cap_server/cap_table.c])
    and the kernel ([cap_hmac_check] in [kern/cap.c]) put on it and check, and the
    name hash.  The image is the i386 one: 64-bit fields are aligned to four
    bytes, the struct has no implicit padding, [hmac] is at offset 156 and the
    size is 188. *)

From S2P Require Import Prelude Sha256.
Export Sha256.

#[global] Opaque hmac_sha256.

Definition CAP_MAX_DEPTH : Z := 16.
Definition CAP_HMAC_SIZE : nat := 32.
Definition CAP_OWNER_NAME_LEN : nat := 64.
Definition CAP_SIGNED_SIZE : nat := 156.  (** [offsetof(struct uros_cap, hmac)] *)
Definition CAP_TOKEN_SIZE : nat := 188.

Definition CAP_ERR_NONE : Z := 0.
Definition CAP_ERR_UNAUTHORIZED : Z := 2401.
Definition CAP_ERR_POLICY_DENIED : Z := 2402.
Definition CAP_ERR_INVALID_TOKEN : Z := 2403.
Definition CAP_ERR_REVOKED : Z := 2405.
Definition CAP_ERR_EXHAUSTED : Z := 2406.
Definition CAP_ERR_NOT_DELEGABLE : Z := 2407.
Definition CAP_ERR_DEPTH_EXCEEDED : Z := 2408.
Definition CAP_ERR_OP_NOT_ALLOWED : Z := 2409.
Definition CAP_ERR_RESOURCE_MISMATCH : Z := 2410.
Definition CAP_ERR_NO_MEMORY : Z := 2411.
Definition CAP_ERR_INTERNAL : Z := 2412.
Definition CAP_ERR_NOT_IN_MANIFEST : Z := 2413.
Definition CAP_ERR_MANIFEST_INVALID : Z := 2414.
Definition CAP_ERR_NO_MANIFEST_SLOT : Z := 2415.

(** [struct uros_cap]. *)
Record uros_cap := Cap {
  cap_id : Z;
  resource_type : Z;
  pad0 : Z;
  resource_id : Z;
  allowed_ops : Z;
  owner : Z;
  owner_name : list Z;
  parent_cap_id : Z;
  depth : Z;
  delegable : Z;
  pad1 : list Z;
  expires : Z;
  max_uses : Z;
  current_uses : Z;
  revoked : Z;
  is_generic : Z;
  pad2 : list Z;
  first_child_cap_id : Z;
  next_sibling_cap_id : Z;
  hmac : list Z }.

(** The bytes [&token .. &token.hmac) that are signed. *)
Definition signed_bytes (t : uros_cap) : list Z :=
  le_bytes 8 (cap_id t) ++ le_bytes 4 (resource_type t) ++ le_bytes 4 (pad0 t) ++
  le_bytes 8 (resource_id t) ++ le_bytes 8 (allowed_ops t) ++ le_bytes 4 (owner t) ++
  owner_name t ++ le_bytes 8 (parent_cap_id t) ++ le_bytes 1 (depth t) ++
  le_bytes 1 (delegable t) ++ pad1 t ++ le_bytes 8 (expires t) ++ le_bytes 4 (max_uses t) ++
  le_bytes 4 (current_uses t) ++ le_bytes 1 (revoked t) ++ le_bytes 1 (is_generic t) ++
  pad2 t ++ le_bytes 8 (first_child_cap_id t) ++ le_bytes 8 (next_sibling_cap_id t).

(** [memcpy(buf, &token, sizeof token)]. *)
Definition token_bytes (t : uros_cap) : list Z := signed_bytes t ++ hmac t.

(** Split the next field off an image. *)
Definition next_num (n : nat) (b : list Z) : Z * list Z := (le_decode (take n b), drop n b).
Definition next_raw (n : nat) (b : list Z) : list Z * list Z := (take n b, drop n b).

(** [memcpy(&token, buf, sizeof token)]. *)
Definition token_of_bytes (b : list Z) : uros_cap :=
  let '(cap_id, b) := next_num 8 b in
  let '(resource_type, b) := next_num 4 b in
  let '(pad0, b) := next_num 4 b in
  let '(resource_id, b) := next_num 8 b in
  let '(allowed_ops, b) := next_num 8 b in
  let '(owner, b) := next_num 4 b in
  let '(owner_name, b) := next_raw CAP_OWNER_NAME_LEN b in
  let '(parent_cap_id, b) := next_num 8 b in
  let '(depth, b) := next_num 1 b in
  let '(delegable, b) := next_num 1 b in
  let '(pad1, b) := next_raw 6 b in
  let '(expires, b) := next_num 8 b in
  let '(max_uses, b) := next_num 4 b in
  let '(current_uses, b) := next_num 4 b in
  let '(revoked, b) := next_num 1 b in
  let '(is_generic, b) := next_num 1 b in
  let '(pad2, b) := next_raw 6 b in
  let '(first_child, b) := next_num 8 b in
  let '(next_sibling, b) := next_num 8 b in
  let '(hmac, _) := next_raw CAP_HMAC_SIZE b in
  Cap cap_id resource_type pad0 resource_id allowed_ops owner owner_name parent_cap_id depth
    delegable pad1 expires max_uses current_uses revoked is_generic pad2 first_child
    next_sibling hmac.

Definition set_hmac (h : list Z) (t : uros_cap) : uros_cap :=
  Cap (cap_id t) (resource_type t) (pad0 t) (resource_id t) (allowed_ops t) (owner t)
    (owner_name t) (parent_cap_id t) (depth t) (delegable t) (pad1 t) (expires t) (max_uses t)
    (current_uses t) (revoked t) (is_generic t) (pad2 t) (first_child_cap_id t)
    (next_sibling_cap_id t) h.
Definition set_revoked (v : Z) (t : uros_cap) : uros_cap :=
  Cap (cap_id t) (resource_type t) (pad0 t) (resource_id t) (allowed_ops t) (owner t)
    (owner_name t) (parent_cap_id t) (depth t) (delegable t) (pad1 t) (expires t) (max_uses t)
    (current_uses t) v (is_generic t) (pad2 t) (first_child_cap_id t)
    (next_sibling_cap_id t) (hmac t).
Definition set_first_child (v : Z) (t : uros_cap) : uros_cap :=
  Cap (cap_id t) (resource_type t) (pad0 t) (resource_id t) (allowed_ops t) (owner t)
    (owner_name t) (parent_cap_id t) (depth t) (delegable t) (pad1 t) (expires t) (max_uses t)
    (current_uses t) (revoked t) (is_generic t) (pad2 t) v
    (next_sibling_cap_id t) (hmac t).

(** [cap_sign]. *)
Definition cap_sign (key : list Z) (t : uros_cap) : uros_cap :=
  set_hmac (hmac_sha256 key (signed_bytes t)) t.

(** [cap_verify_hmac]; the kernel's [cap_hmac_check] is the same function. *)
Definition cap_verify_hmac (key : list Z) (t : uros_cap) : bool :=
  hmac_sha256_equal (hmac_sha256 key (signed_bytes t)) (hmac t).

(** [cap_name_hash]: FNV-1a, 64 bit. *)
Definition cap_name_hash (name : list Z) : Z :=
  fold_left (λ h b, u64 (Z.lxor h (u8 b) * 0x100000001b3)) (cstr name) 0xcbf29ce484222325.

(** ** Round trips *)

(** The field widths. *)
Record wf_token (t : uros_cap) : Prop := {
  wf_cap_id : 0 ≤ cap_id t < 256 ^ 8;
  wf_resource_type : 0 ≤ resource_type t < 256 ^ 4;
  wf_pad0 : 0 ≤ pad0 t < 256 ^ 4;
  wf_resource_id : 0 ≤ resource_id t < 256 ^ 8;
  wf_allowed_ops : 0 ≤ allowed_ops t < 256 ^ 8;
  wf_owner : 0 ≤ owner t < 256 ^ 4;
  wf_owner_name : length (owner_name t) = CAP_OWNER_NAME_LEN;
  wf_parent : 0 ≤ parent_cap_id t < 256 ^ 8;
  wf_depth : 0 ≤ depth t < 256 ^ 1;
  wf_delegable : 0 ≤ delegable t < 256 ^ 1;
  wf_pad1 : length (pad1 t) = 6%nat;
  wf_expires : 0 ≤ expires t < 256 ^ 8;
  wf_max_uses : 0 ≤ max_uses t < 256 ^ 4;
  wf_current_uses : 0 ≤ current_uses t < 256 ^ 4;
  wf_revoked : 0 ≤ revoked t < 256 ^ 1;
  wf_is_generic : 0 ≤ is_generic t < 256 ^ 1;
  wf_pad2 : length (pad2 t) = 6%nat;
  wf_first_child : 0 ≤ first_child_cap_id t < 256 ^ 8;
  wf_next_sibling : 0 ≤ next_sibling_cap_id t < 256 ^ 8;
  wf_hmac : length (hmac t) = CAP_HMAC_SIZE }.

Lemma next_num_app n x b : 0 ≤ x < 256 ^ Z.of_nat n → next_num n (le_bytes n x ++ b) = (x, b).
Proof.
  intros Hx. unfold next_num. rewrite take_app_length', drop_app_length' by (by rewrite length_le_bytes).
  by rewrite le_decode_bytes.
Qed.

Lemma next_raw_app n l b : length l = n → next_raw n (l ++ b) = (l, b).
Proof. intros <-. unfold next_raw. by rewrite take_app_length, drop_app_length. Qed.

Lemma length_signed_bytes t : wf_token t → length (signed_bytes t) = CAP_SIGNED_SIZE.
Proof.
  intros H. unfold signed_bytes. rewrite !length_app, !length_le_bytes.
  by rewrite (wf_owner_name t H), (wf_pad1 t H), (wf_pad2 t H).
Qed.

Lemma length_token_bytes t : wf_token t → length (token_bytes t) = CAP_TOKEN_SIZE.
Proof.
  intros H. unfold token_bytes. rewrite length_app, length_signed_bytes, (wf_hmac t) by done. done.
Qed.

(** The image determines the token. *)
Lemma token_of_token_bytes t : wf_token t → token_of_bytes (token_bytes t) = t.
Proof.
  intros []. unfold token_bytes, signed_bytes, token_of_bytes.
  rewrite <- !app_assoc.
  repeat first [rewrite next_num_app by done | rewrite next_raw_app by done].
  rewrite <- (app_nil_r (hmac t)), next_raw_app by done. by destruct t.
Qed.

(** Read a field off the front of a byte string. *)
Lemma split_num n k b : Forall is_u8 b → length b = (n + k)%nat →
  ∃ x b', b = le_bytes n x ++ b' ∧ Forall is_u8 b' ∧ length b' = k ∧ 0 ≤ x < 256 ^ Z.of_nat n.
Proof.
  intros Hb Hn. assert (Forall is_u8 (take n b)) as Ht by (by apply Forall_take).
  assert (length (take n b) = n) as Hl by (rewrite length_take; lia).
  exists (le_decode (take n b)), (drop n b).
  pose proof (le_bytes_decode _ Ht) as He. rewrite Hl in He. rewrite He.
  pose proof (le_decode_range _ Ht) as Hr. rewrite Hl in Hr.
  split_and!; [by rewrite take_drop|by apply Forall_drop|rewrite length_drop; lia|lia|lia].
Qed.

Lemma split_raw n k b : Forall is_u8 b → length b = (n + k)%nat →
  ∃ x b', b = x ++ b' ∧ Forall is_u8 b' ∧ length b' = k ∧ length x = n.
Proof.
  intros Hb Hn. exists (take n b), (drop n b).
  split_and!; [by rewrite take_drop|by apply Forall_drop|rewrite length_drop; lia|
    rewrite length_take; lia].
Qed.

(** Any 188 bytes are the image of a token. *)
Lemma bytes_are_token b :
  Forall is_u8 b → length b = CAP_TOKEN_SIZE → ∃ t, wf_token t ∧ b = token_bytes t.
Proof.
  intros Hb Hl.
  destruct (split_num 8 180 b Hb Hl) as (x1 & b1 & -> & H1 & L1 & Q1).
  destruct (split_num 4 176 b1 H1 L1) as (x2 & b2 & -> & H2 & L2 & Q2).
  destruct (split_num 4 172 b2 H2 L2) as (x3 & b3 & -> & H3 & L3 & Q3).
  destruct (split_num 8 164 b3 H3 L3) as (x4 & b4 & -> & H4 & L4 & Q4).
  destruct (split_num 8 156 b4 H4 L4) as (x5 & b5 & -> & H5 & L5 & Q5).
  destruct (split_num 4 152 b5 H5 L5) as (x6 & b6 & -> & H6 & L6 & Q6).
  destruct (split_raw 64 88 b6 H6 L6) as (x7 & b7 & -> & H7 & L7 & Q7).
  destruct (split_num 8 80 b7 H7 L7) as (x8 & b8 & -> & H8 & L8 & Q8).
  destruct (split_num 1 79 b8 H8 L8) as (x9 & b9 & -> & H9 & L9 & Q9).
  destruct (split_num 1 78 b9 H9 L9) as (y1 & c1 & -> & I1 & M1 & Q10).
  destruct (split_raw 6 72 c1 I1 M1) as (y2 & c2 & -> & I2 & M2 & Q11).
  destruct (split_num 8 64 c2 I2 M2) as (y3 & c3 & -> & I3 & M3 & Q12).
  destruct (split_num 4 60 c3 I3 M3) as (y4 & c4 & -> & I4 & M4 & Q13).
  destruct (split_num 4 56 c4 I4 M4) as (y5 & c5 & -> & I5 & M5 & Q14).
  destruct (split_num 1 55 c5 I5 M5) as (y6 & c6 & -> & I6 & M6 & Q15).
  destruct (split_num 1 54 c6 I6 M6) as (y7 & c7 & -> & I7 & M7 & Q16).
  destruct (split_raw 6 48 c7 I7 M7) as (y8 & c8 & -> & I8 & M8 & Q17).
  destruct (split_num 8 40 c8 I8 M8) as (y9 & c9 & -> & I9 & M9 & Q18).
  destruct (split_num 8 32 c9 I9 M9) as (z1 & d1 & -> & J1 & N1 & Q19).
  exists (Cap x1 x2 x3 x4 x5 x6 x7 x8 x9 y1 y2 y3 y4 y5 y6 y7 y8 y9 z1 d1).
  split; [by split|]. unfold token_bytes, signed_bytes. by rewrite <- !app_assoc.
Qed.

(** What is hashed is what was received. *)
Lemma token_bytes_of b :
  Forall is_u8 b → length b = CAP_TOKEN_SIZE →
  wf_token (token_of_bytes b) ∧ token_bytes (token_of_bytes b) = b.
Proof.
  intros Hb Hl. destruct (bytes_are_token b Hb Hl) as (t & Hwf & ->).
  by rewrite token_of_token_bytes.
Qed.

(** ** Signatures *)

Lemma cap_verify_hmac_spec key t :
  length (hmac t) = CAP_HMAC_SIZE →
  cap_verify_hmac key t = true ↔ hmac t = hmac_sha256 key (signed_bytes t).
Proof.
  intros Hl. unfold cap_verify_hmac. rewrite hmac_sha256_equal_spec; [done| |done].
  apply length_hmac_sha256.
Qed.

Lemma signed_bytes_sign key t : signed_bytes (cap_sign key t) = signed_bytes t.
Proof. done. Qed.

Lemma cap_sign_wf key t : wf_token t → wf_token (cap_sign key t).
Proof. intros []. split; simpl; try done. apply length_hmac_sha256. Qed.

(** A token just signed verifies. *)
Lemma cap_sign_verifies key t : cap_verify_hmac key (cap_sign key t) = true.
Proof. apply cap_verify_hmac_spec; [apply length_hmac_sha256|done]. Qed.

(** Tokens with the same signed bytes are equal up to the signature. *)
Lemma signed_bytes_inj t t' :
  wf_token t → wf_token t' → signed_bytes t = signed_bytes t' → t = set_hmac (hmac t) t'.
Proof.
  intros Hw Hw' Heq. transitivity (token_of_bytes (token_bytes t)).
  { by rewrite token_of_token_bytes. }
  transitivity (token_of_bytes (token_bytes (set_hmac (hmac t) t'))).
  - f_equal. unfold token_bytes. by rewrite Heq.
  - apply token_of_token_bytes. destruct Hw', Hw. by split.
Qed.
