(* ===== verification/CapTable.v ===== *)
(** * cap_server: the table of issued capabilities

    [cap_server/cap_table.c]: entries on the heap, linked into three hash
    indexes.  An entry's address is its position in the list of allocations;
    chain pointers are addresses.  The indexes are proved to be complete for any
    key ([index_ok]), and the search by id to find the entry it is asked for,
    within as many steps as there are entries. *)

From S2P Require Import Prelude CapTypes.

Definition CAP_BUCKETS : nat := 256.

(** [struct cap_entry]. *)
Record cap_entry := CapEntry {
  token : uros_cap;
  sender : Z;
  next_by_id : option nat;
  next_by_owner : option nat;
  next_by_parent : option nat }.

Record cap_table := CapTable {
  heap : list cap_entry;
  bucket_by_id : list (option nat);
  bucket_by_owner : list (option nat);
  bucket_by_parent : list (option nat);
  next_cap_id : Z }.

Definition hash64 (x : Z) : nat :=
  let x := Z.lxor x (Z.shiftr x 33) in
  let x := x *64 0xff51afd7ed558ccd in
  let x := Z.lxor x (Z.shiftr x 33) in
  let x := x *64 0xc4ceb9fe1a85ec53 in
  let x := Z.lxor x (Z.shiftr x 33) in
  Z.to_nat (Z.land x 255).

Definition hash_port (p : Z) : nat := hash64 p.

Definition cap_table_init : cap_table :=
  CapTable [] (replicate CAP_BUCKETS None) (replicate CAP_BUCKETS None)
    (replicate CAP_BUCKETS None) 1.

(** [cap_table_alloc_id]: the id handed out and the table after the increment. *)
Definition cap_table_alloc_id (t : cap_table) : Z * cap_table :=
  (next_cap_id t,
   CapTable (heap t) (bucket_by_id t) (bucket_by_owner t) (bucket_by_parent t)
     (u64 (next_cap_id t + 1))).

(** The head of a chain. *)
Definition head_of (buckets : list (option nat)) (h : nat) : option nat :=
  default None (buckets !! h).

(** [cap_table_insert] of a freshly allocated entry with this token and sender;
    the entry's address is the next one of the heap. *)
Definition cap_table_insert (tok : uros_cap) (snd : Z) (t : cap_table) : cap_table :=
  let a := length (heap t) in
  let hi := hash64 (cap_id tok) in
  let ho := hash_port snd in
  let hp := hash64 (parent_cap_id tok) in
  let has_parent := negb (parent_cap_id tok =? 0) in
  CapTable
    (heap t ++ [CapEntry tok snd (head_of (bucket_by_id t) hi) (head_of (bucket_by_owner t) ho)
                  (if has_parent then head_of (bucket_by_parent t) hp else None)])
    (<[hi := Some a]> (bucket_by_id t))
    (<[ho := Some a]> (bucket_by_owner t))
    (if has_parent then <[hp := Some a]> (bucket_by_parent t) else bucket_by_parent t)
    (next_cap_id t).

(** Walk a chain for the first entry that passes a test. *)
Fixpoint walk (next : cap_entry → option nat) (test : cap_entry → bool) (hp : list cap_entry)
    (fuel : nat) (p : option nat) : option nat :=
  match fuel, p with
  | S fuel, Some a =>
      match hp !! a with
      | Some e => if test e then Some a else walk next test hp fuel (next e)
      | None => None
      end
  | _, _ => None
  end.

(** [cap_table_find_by_id]. *)
Definition cap_table_find_by_id (id : Z) (t : cap_table) : option nat :=
  walk next_by_id (λ e, cap_id (token e) =? id) (heap t) (length (heap t))
    (head_of (bucket_by_id t) (hash64 id)).

(** [cap_table_find_children]: the head of the parent chain. *)
Definition cap_table_find_children (parent_id : Z) (t : cap_table) : option nat :=
  head_of (bucket_by_parent t) (hash64 parent_id).

(** A write to the token of the entry at address [a]. *)
Definition update_token (a : nat) (f : uros_cap → uros_cap) (t : cap_table) : cap_table :=
  CapTable
    (alter (λ e, CapEntry (f (token e)) (sender e) (next_by_id e) (next_by_owner e) (next_by_parent e))
       a (heap t))
    (bucket_by_id t) (bucket_by_owner t) (bucket_by_parent t) (next_cap_id t).

(** [cap_table_mark_revoked]. *)
Definition cap_table_mark_revoked (key : list Z) (a : nat) (t : cap_table) : cap_table :=
  update_token a (λ tok, cap_sign key (set_revoked 1 tok)) t.

(** ** Complete hash chains *)

Section index.
Context (key : cap_entry → option nat) (next : cap_entry → option nat).
Implicit Types (hp : list cap_entry) (n h : nat).

(** The youngest of the first [n] entries that is filed under [h]. *)
Fixpoint youngest hp (h n : nat) : option nat :=
  match n with
  | O => None
  | S n => match hp !! n with
           | Some e => if decide (key e = Some h) then Some n else youngest hp h n
           | None => youngest hp h n
           end
  end.

(** Every bucket starts at the youngest entry filed under it, and every entry
    points to the next older one of its bucket. *)
Record index_ok (hp : list cap_entry) (buckets : list (option nat)) : Prop := {
  index_len : length buckets = CAP_BUCKETS;
  index_head : ∀ h, (h < CAP_BUCKETS)%nat → head_of buckets h = youngest hp h (length hp);
  index_next : ∀ a e h, hp !! a = Some e → key e = Some h → next e = youngest hp h a }.

Lemma youngest_app hp e h n : (n ≤ length hp)%nat → youngest (hp ++ [e]) h n = youngest hp h n.
Proof.
  induction n as [|n IH]; intros Hn; [done|]. simpl. rewrite lookup_app_l by lia.
  rewrite IH by lia. done.
Qed.

Lemma youngest_alter hp f a h n :
  (∀ e, key (f e) = key e) → youngest (alter f a hp) h n = youngest hp h n.
Proof.
  intros Hk. induction n as [|n IH]; [done|]. simpl. rewrite IH.
  destruct (decide (n = a)) as [->|Hne].
  - rewrite list_lookup_alter_eq. destruct (hp !! a); simpl; [|done]. by rewrite Hk.
  - by rewrite list_lookup_alter_ne.
Qed.

Lemma index_ok_empty : index_ok [] (replicate CAP_BUCKETS None).
Proof.
  split; [by rewrite length_replicate| |done]. intros h Hh. unfold head_of.
  by rewrite lookup_replicate_2.
Qed.

(** Linking a new entry in at the head of its chain. *)
Lemma index_ok_insert hp buckets e h :
  index_ok hp buckets → key e = Some h → (h < CAP_BUCKETS)%nat → next e = head_of buckets h →
  index_ok (hp ++ [e]) (<[h := Some (length hp)]> buckets).
Proof.
  intros [Hl Hh Hn] Hk Hlt Hne. split.
  - by rewrite length_insert.
  - intros h' Hh'. rewrite length_app, Nat.add_1_r. simpl.
    rewrite lookup_app_r, Nat.sub_diag by lia. simpl. unfold head_of.
    destruct (decide (h = h')) as [->|Hd].
    + rewrite list_lookup_insert_eq by lia. simpl. by rewrite decide_True.
    + rewrite list_lookup_insert_ne by done. rewrite decide_False by congruence.
      rewrite youngest_app by lia. by apply Hh.
  - intros a x h' Ha Hx. rewrite lookup_app in Ha. destruct (hp !! a) as [y|] eqn:Hy.
    + simplify_eq. apply lookup_lt_Some in Hy as Hlen. rewrite youngest_app by lia. by apply Hn.
    + apply list_lookup_singleton_Some in Ha as [Hz ->]. rewrite Hk in Hx. simplify_eq.
      apply lookup_ge_None in Hy. replace a with (length hp) by lia.
      rewrite youngest_app by lia. rewrite Hne. by apply Hh.
Qed.

(** An entry that is not filed leaves the index alone. *)
Lemma index_ok_skip hp buckets e :
  index_ok hp buckets → key e = None → index_ok (hp ++ [e]) buckets.
Proof.
  intros [Hl Hh Hn] Hk. split; [done| |].
  - intros h' Hh'. rewrite length_app, Nat.add_1_r. simpl.
    rewrite lookup_app_r, Nat.sub_diag by lia. simpl. rewrite decide_False by congruence.
    rewrite youngest_app by lia. by apply Hh.
  - intros a x h' Ha Hx. rewrite lookup_app in Ha. destruct (hp !! a) as [y|] eqn:Hy.
    + simplify_eq. apply lookup_lt_Some in Hy as Hlen. rewrite youngest_app by lia. by apply Hn.
    + apply list_lookup_singleton_Some in Ha as [Hz ->]. congruence.
Qed.

Lemma index_ok_alter hp buckets f a :
  (∀ e, key (f e) = key e) → (∀ e, next (f e) = next e) →
  index_ok hp buckets → index_ok (alter f a hp) buckets.
Proof.
  intros Hk Hnx [Hl Hh Hn]. split; [done| |].
  - intros h Hlt. rewrite length_alter, youngest_alter by done. by apply Hh.
  - intros b x h Hb Hx. rewrite youngest_alter by done. destruct (decide (b = a)) as [->|Hne].
    + rewrite list_lookup_alter_eq in Hb. destruct (hp !! a) as [y|] eqn:Hy; simplify_eq/=.
      rewrite Hnx. rewrite Hk in Hx. by apply (Hn a y).
    + rewrite list_lookup_alter_ne in Hb by done. by apply (Hn b x).
Qed.

(** [m] is where the search downwards from [n] stops. *)
Lemma youngest_spec hp h n : ∃ m,
  (m ≤ n)%nat ∧ (∀ b e, (m ≤ b < n)%nat → hp !! b = Some e → key e ≠ Some h) ∧
  match youngest hp h n with
  | Some a => m = S a ∧ ∃ e, hp !! a = Some e ∧ key e = Some h
  | None => m = 0%nat
  end.
Proof.
  induction n as [|n IHn]; [exists 0%nat; split_and!; [lia|lia|done]|].
  simpl. destruct (hp !! n) as [e|] eqn:He; [case_decide as Hk|].
  - exists (S n). split_and!; [lia|lia|done|eauto].
  - destruct IHn as (m & Hm & Hs & Hy). exists m. split_and!; [lia| |done].
    intros b x Hb Hx. destruct (decide (b = n)) as [->|]; [congruence|by apply (Hs b); [lia|]].
  - destruct IHn as (m & Hm & Hs & Hy). exists m. split_and!; [lia| |done].
    intros b x Hb Hx. destruct (decide (b = n)) as [->|]; [congruence|by apply (Hs b); [lia|]].
Qed.

(** Walking a chain finds the youngest entry of the bucket with the property,
    if the bucket holds all entries with it; one step per entry is enough. *)
Lemma walk_youngest hp buckets test h n fuel :
  index_ok hp buckets → (∀ a e, hp !! a = Some e → test e = true → key e = Some h) →
  (n ≤ fuel)%nat → (n ≤ length hp)%nat →
  match walk next test hp fuel (youngest hp h n) with
  | Some a => (a < n)%nat ∧ (∃ e, hp !! a = Some e ∧ test e = true) ∧
              ∀ b e, (a < b < n)%nat → hp !! b = Some e → test e = false
  | None => ∀ b e, (b < n)%nat → hp !! b = Some e → test e = false
  end.
Proof.
  intros Hok Htest. revert n. induction fuel as [|fuel IH]; intros n Hn Hl.
  { replace n with 0%nat by lia. simpl. intros. lia. }
  destruct (youngest_spec hp h n) as (m & Hm & Hskip & Hy).
  assert (∀ b e, (m ≤ b < n)%nat → hp !! b = Some e → test e = false) as Hfalse.
  { intros b e Hb He. destruct (test e) eqn:Ht; [|done]. by destruct (Hskip b e Hb He), (Htest b e). }
  destruct (youngest hp h n) as [a|]; cbn [walk].
  - destruct Hy as (-> & e & He & Hk). rewrite He. destruct (test e) eqn:Ht.
    + split_and!; [lia|eauto|]. intros b x Hb Hx. apply (Hfalse b); [lia|done].
    + rewrite (index_next _ _ Hok a e h He Hk). specialize (IH a ltac:(lia) ltac:(lia)).
      destruct (walk next test hp fuel (youngest hp h a)) as [c|].
      * destruct IH as (Hc & Hex & Hno). split_and!; [lia|done|]. intros b x Hb Hx.
        destruct (decide (b < a)%nat); [apply (Hno b x); [lia|done]|].
        destruct (decide (b = a)) as [->|]; [congruence|]. apply (Hfalse b); [lia|done].
      * intros b x Hb Hx. destruct (decide (b < a)%nat); [by apply (IH b x)|].
        destruct (decide (b = a)) as [->|]; [congruence|]. apply (Hfalse b); [lia|done].
  - subst m. intros b x Hb Hx. apply (Hfalse b); [lia|done].
Qed.
End index.

(** ** The table *)

Definition id_key (e : cap_entry) : option nat := Some (hash64 (cap_id (token e))).
Definition owner_key (e : cap_entry) : option nat := Some (hash_port (sender e)).
Definition parent_key (e : cap_entry) : option nat :=
  if parent_cap_id (token e) =? 0 then None else Some (hash64 (parent_cap_id (token e))).

(** The three indexes are complete; ids are handed out one after the other, so
    that the entry at address [a] has id [a + 1]. *)
Record table_ok (t : cap_table) : Prop := {
  ok_by_id : index_ok id_key next_by_id (heap t) (bucket_by_id t);
  ok_by_owner : index_ok owner_key next_by_owner (heap t) (bucket_by_owner t);
  ok_by_parent : index_ok parent_key next_by_parent (heap t) (bucket_by_parent t);
  ok_ids : ∀ a e, heap t !! a = Some e → cap_id (token e) = Z.of_nat a + 1;
  ok_next_id : next_cap_id t = Z.of_nat (length (heap t)) + 1 }.

(** The token kept for an id. *)
Definition kept (t : cap_table) (id : Z) : option uros_cap :=
  if decide (1 ≤ id) then token <$> heap t !! Z.to_nat (id - 1) else None.

Lemma hash64_bound x : (hash64 x < CAP_BUCKETS)%nat.
Proof.
  unfold hash64, CAP_BUCKETS. set (y := Z.lxor _ _). change 255 with (Z.ones 8).
  rewrite Z.land_ones by lia. pose proof (Z.mod_pos_bound y (2 ^ 8) ltac:(lia)). lia.
Qed.

Lemma table_ok_init : table_ok cap_table_init.
Proof. split; try apply index_ok_empty; [intros a e Ha; by destruct a|done]. Qed.

(** The step of [cap_acquire] and [cap_derive] on the table: allocate the next
    id and insert an entry whose token carries it. *)
Lemma table_ok_insert t tok snd :
  table_ok t → Z.of_nat (length (heap t)) + 2 < 2 ^ 64 → cap_id tok = next_cap_id t →
  table_ok (cap_table_insert tok snd (cap_table_alloc_id t).2).
Proof.
  intros [Hi Ho Hp Hids Hn] Hlen Hid. unfold cap_table_alloc_id, cap_table_insert; simpl.
  split; simpl.
  - apply index_ok_insert; [done|done|apply hash64_bound|done].
  - apply index_ok_insert; [done|done|apply hash64_bound|done].
  - destruct (parent_cap_id tok =? 0) eqn:H0; simpl.
    + apply index_ok_skip; [done|]. unfold parent_key; simpl. by rewrite H0.
    + apply index_ok_insert; [done| |apply hash64_bound|done]. unfold parent_key; simpl. by rewrite H0.
  - intros a e Ha. rewrite lookup_app in Ha. destruct (heap t !! a) eqn:Hy; [simplify_eq; by apply Hids|].
    apply list_lookup_singleton_Some in Ha as [Hz <-]. apply lookup_ge_None in Hy. simpl. lia.
  - rewrite length_app; simpl. rewrite Hn. unfold u64. rewrite Z.mod_small; lia.
Qed.

Lemma table_ok_update t a f :
  (∀ tok, cap_id (f tok) = cap_id tok) → (∀ tok, parent_cap_id (f tok) = parent_cap_id tok) →
  table_ok t → table_ok (update_token a f t).
Proof.
  intros Hc Hp [Hi Ho Hpa Hids Hn]. split; simpl.
  - apply index_ok_alter; [|done|done]. intros e. unfold id_key; simpl. by rewrite Hc.
  - by apply index_ok_alter.
  - apply index_ok_alter; [|done|done]. intros e. unfold parent_key; simpl. by rewrite Hp.
  - intros b e Hb. destruct (decide (b = a)) as [->|].
    + rewrite list_lookup_alter_eq in Hb. destruct (heap t !! a) eqn:Ha; simplify_eq/=.
      rewrite Hc. by apply Hids.
    + rewrite list_lookup_alter_ne in Hb by done. by apply Hids.
  - by rewrite length_alter.
Qed.

(** The search by id finds the entry with the id, if there is one. *)
Lemma find_by_id_spec t id a :
  table_ok t → cap_table_find_by_id id t = Some a ↔ (a < length (heap t))%nat ∧ id = Z.of_nat a + 1.
Proof.
  intros Hok. unfold cap_table_find_by_id.
  rewrite (index_head _ _ _ _ (ok_by_id t Hok)) by apply hash64_bound.
  pose proof (walk_youngest id_key next_by_id (heap t) (bucket_by_id t) (λ e, cap_id (token e) =? id)
    (hash64 id) (length (heap t)) (length (heap t)) (ok_by_id t Hok)) as W.
  ospecialize (W _ _ _); [|done|done|].
  { intros b e _ Ht. apply Z.eqb_eq in Ht. unfold id_key. by rewrite Ht. }
  destruct (walk _ _ _ _ _) as [b|].
  - destruct W as (Hb & (e & He & Ht) & _). apply Z.eqb_eq in Ht.
    pose proof (ok_ids t Hok b e He). split; [intros [= <-]; split; lia|].
    intros [_ ->]. f_equal. lia.
  - split; [done|]. intros [Ha ->]. destruct (lookup_lt_is_Some_2 (heap t) a Ha) as [e He].
    specialize (W a e Ha He). pose proof (ok_ids t Hok a e He). lia.
Qed.

Lemma find_by_id_kept t id :
  table_ok t →
  match cap_table_find_by_id id t with
  | Some a => ∃ e, heap t !! a = Some e ∧ kept t id = Some (token e) ∧ id = Z.of_nat a + 1
  | None => kept t id = None
  end.
Proof.
  intros Hok. unfold kept.
  destruct (cap_table_find_by_id id t) as [a|] eqn:Hf; pose proof (find_by_id_spec t id) as W.
  - apply W in Hf as [Ha ->]; [|done]. destruct (lookup_lt_is_Some_2 (heap t) a Ha) as [e He].
    exists e. rewrite decide_True by lia. replace (Z.to_nat (Z.of_nat a + 1 - 1)) with a by lia.
    by rewrite He.
  - case_decide; [|done]. destruct (heap t !! Z.to_nat (id - 1)) as [e|] eqn:He; [|done].
    destruct (W (Z.to_nat (id - 1)) Hok) as [_ W']. rewrite Hf in W'.
    discriminate W'. apply lookup_lt_Some in He. split; lia.
Qed.

Lemma kept_Some t id tok : table_ok t → kept t id = Some tok → cap_id tok = id ∧ 1 ≤ id ≤ Z.of_nat (length (heap t)).
Proof.
  intros Hok. unfold kept. case_decide; [|done]. intros (e & He & ->)%fmap_Some.
  pose proof (ok_ids t Hok _ _ He). apply lookup_lt_Some in He. lia.
Qed.

Lemma kept_is_Some t id : 1 ≤ id ≤ Z.of_nat (length (heap t)) → is_Some (kept t id).
Proof.
  intros Hid. unfold kept. rewrite decide_True by lia. rewrite fmap_is_Some.
  apply lookup_lt_is_Some_2. lia.
Qed.

Lemma kept_insert t tok snd id :
  kept (cap_table_insert tok snd (cap_table_alloc_id t).2) id =
    if decide (id = Z.of_nat (length (heap t)) + 1) then Some tok else kept t id.
Proof.
  unfold kept; simpl. repeat case_decide; try lia; try done.
  - subst. rewrite lookup_app_r by lia.
    by replace (Z.to_nat _ - length (heap t))%nat with 0%nat by lia.
  - destruct (decide (Z.to_nat (id - 1) < length (heap t))%nat).
    + by rewrite lookup_app_l by lia.
    + rewrite lookup_app_r by lia. rewrite (lookup_ge_None_2 (heap t)) by lia.
      by rewrite (lookup_ge_None_2 [_]) by (simpl; lia).
Qed.

Lemma kept_update t a f id :
  kept (update_token a f t) id =
    if decide (id = Z.of_nat a + 1) then f <$> kept t id else kept t id.
Proof.
  unfold kept; simpl. repeat case_decide; try lia; try done.
  - subst. replace (Z.to_nat _) with a by lia. rewrite list_lookup_alter_eq. by destruct (heap t !! a).
  - rewrite list_lookup_alter_ne; [done|lia].
Qed.
