(* ===== verification/CapManifest.v ===== *)
(** * Capability manifests

    The compiled manifest ([uapi/mach/cap_manifest.h]), the build-time writer
    ([emit] of [tools/mkmanifest/mkmanifest.c]) and the consumer in cap_server
    ([cap_server/cap_manifest_table.c]): validation of a blob received in a
    message, the table of manifests by per-task port, and the predicate that
    decides whether a request is declared. *)

From S2P Require Import Prelude Mach CapTypes.

Definition CAP_MANIFEST_MAGIC : Z := 0x464D4355.
Definition CAP_MANIFEST_VERSION : Z := 1.
Definition CAP_MANIFEST_MAX_BYTES : Z := 16 * 1024.
Definition CAP_MANIFEST_MAX_NAME : Z := 64.
Definition CAP_MANIFEST_MAX_ENTRIES : Z := 64.
Definition CAP_MANIFEST_TABLE_SIZE : nat := 64.
Definition HEADER_SIZE : Z := 48.  (** [sizeof(cap_manifest_header_t)] *)
Definition ENTRY_SIZE : Z := 16.   (** [sizeof(cap_manifest_entry_t)] *)

(** [cap_manifest_entry_t]. *)
Record cap_manifest_entry := Entry { etype : Z; epad : Z; eops : Z }.

(** [cap_manifest_header_t]. *)
Record cap_manifest_header := Header {
  magic : Z; version : Z; header_size : Z; total_size : Z; flags : Z;
  name_offset : Z; name_length : Z;
  required_offset : Z; required_count : Z;
  delegatable_offset : Z; delegatable_count : Z;
  reserved0 : Z; reserved1 : Z }.

Definition entry_bytes (e : cap_manifest_entry) : list Z :=
  le_bytes 4 (etype e) ++ le_bytes 4 (epad e) ++ le_bytes 8 (eops e).

Definition header_bytes (h : cap_manifest_header) : list Z :=
  le_bytes 4 (magic h) ++ le_bytes 2 (version h) ++ le_bytes 2 (header_size h) ++
  le_bytes 4 (total_size h) ++ le_bytes 4 (flags h) ++ le_bytes 4 (name_offset h) ++
  le_bytes 4 (name_length h) ++ le_bytes 4 (required_offset h) ++ le_bytes 4 (required_count h) ++
  le_bytes 4 (delegatable_offset h) ++ le_bytes 4 (delegatable_count h) ++
  le_bytes 4 (reserved0 h) ++ le_bytes 4 (reserved1 h).

(** The header and the entries as the consumer reads them from the blob. *)
Definition header_of (b : list Z) : cap_manifest_header :=
  let '(magic, b) := next_num 4 b in
  let '(version, b) := next_num 2 b in
  let '(header_size, b) := next_num 2 b in
  let '(total_size, b) := next_num 4 b in
  let '(flags, b) := next_num 4 b in
  let '(name_offset, b) := next_num 4 b in
  let '(name_length, b) := next_num 4 b in
  let '(required_offset, b) := next_num 4 b in
  let '(required_count, b) := next_num 4 b in
  let '(delegatable_offset, b) := next_num 4 b in
  let '(delegatable_count, b) := next_num 4 b in
  let '(reserved0, b) := next_num 4 b in
  let '(reserved1, _) := next_num 4 b in
  Header magic version header_size total_size flags name_offset name_length required_offset
    required_count delegatable_offset delegatable_count reserved0 reserved1.

Definition entry_at (b : list Z) (off : Z) : cap_manifest_entry :=
  let '(ty, b) := next_num 4 (drop (Z.to_nat off) b) in
  let '(pad, b) := next_num 4 b in
  let '(ops, _) := next_num 8 b in
  Entry ty pad ops.

(** ** Validation *)

(** The arithmetic of [range_ok] is on [uint32_t]. *)
Definition range_ok (off len total : Z) : bool :=
  if decide (off > total) then false
  else if decide (len > u32 (total - off)) then false
  else true.

Definition cap_manifest_validate (blob : list Z) : Z :=
  let blob_len := Z.of_nat (length blob) in
  let h := header_of blob in
  if decide (blob_len < HEADER_SIZE) then CAP_ERR_MANIFEST_INVALID
  else if decide (blob_len > CAP_MANIFEST_MAX_BYTES) then CAP_ERR_MANIFEST_INVALID
  else if decide (magic h ≠ CAP_MANIFEST_MAGIC) then CAP_ERR_MANIFEST_INVALID
  else if decide (version h ≠ CAP_MANIFEST_VERSION) then CAP_ERR_MANIFEST_INVALID
  else if decide (header_size h < HEADER_SIZE) then CAP_ERR_MANIFEST_INVALID
  else if decide (total_size h ≠ blob_len) then CAP_ERR_MANIFEST_INVALID
  else if decide (flags h ≠ 0) then CAP_ERR_MANIFEST_INVALID
  else if decide (required_count h > CAP_MANIFEST_MAX_ENTRIES) then CAP_ERR_MANIFEST_INVALID
  else if decide (delegatable_count h > CAP_MANIFEST_MAX_ENTRIES) then CAP_ERR_MANIFEST_INVALID
  else if negb (range_ok (required_offset h) (u32 (required_count h * ENTRY_SIZE)) blob_len)
    then CAP_ERR_MANIFEST_INVALID
  else if negb (range_ok (delegatable_offset h) (u32 (delegatable_count h * ENTRY_SIZE)) blob_len)
    then CAP_ERR_MANIFEST_INVALID
  else if decide (name_length h = 0 ∨ name_length h > CAP_MANIFEST_MAX_NAME)
    then CAP_ERR_MANIFEST_INVALID
  else if negb (range_ok (name_offset h) (name_length h) blob_len) then CAP_ERR_MANIFEST_INVALID
  else if decide (blob !! Z.to_nat (name_offset h + name_length h - 1) ≠ Some 0)
    then CAP_ERR_MANIFEST_INVALID
  else CAP_ERR_NONE.

(** ** The table *)

(** A slot that is in use holds the port and the copy of the blob. *)
Abbreviation manifest_table := (list (option (port * list Z))) (only parsing).

Definition cap_manifest_table_init : manifest_table := replicate CAP_MANIFEST_TABLE_SIZE None.

Definition slot_of (p : port) (s : option (port * list Z)) : Prop := fst <$> s = Some p.
#[global] Instance slot_of_dec p s : Decision (slot_of p s).
Proof. unfold slot_of. apply _. Defined.

(** The scan of [cap_manifest_table_install]: the slot of this port if there is
    one, else the first free slot. *)
Fixpoint install_slot (p : port) (i : nat) (slot : option nat) (g : manifest_table) : option nat :=
  match g with
  | [] => slot
  | None :: g => install_slot p (S i) (match slot with None => Some i | Some _ => slot end) g
  | Some (q, _) :: g => if decide (q = p) then Some i else install_slot p (S i) slot g
  end.

Definition cap_manifest_table_install {E : MachEnv} (p : port) (blob : list Z) :
    M manifest_table Z :=
  g ← get;
  match install_slot p 0 None g with
  | None => mret CAP_ERR_NO_MANIFEST_SLOT
  | Some i =>
      (* the slot is free, or its old blob is freed and the slot cleared *)
      put (<[i := None]> g);;
      kr ← call (Malloc (Z.of_nat (length blob)));
      if decide (kr ≠ KERN_SUCCESS) then mret CAP_ERR_NO_MEMORY
      else put (<[i := Some (p, blob)]> g);; mret CAP_ERR_NONE
  end.

Definition cap_manifest_table_get (p : port) (g : manifest_table) : option (list Z) :=
  i ← find_slot (slot_of p) g; s ← g !! i; snd <$> s.

(** ** The predicate *)

Definition cap_manifest_allows (m : option (list Z)) (type ops : Z) : bool :=
  match m with
  | None => true
  | Some b =>
      existsb (λ i : nat,
        let e := entry_at b (required_offset (header_of b) + ENTRY_SIZE * Z.of_nat i) in
        bool_decide (etype e = type) && mask_subset ops (eops e))
        (seq 0 (Z.to_nat (required_count (header_of b))))
  end.

(** ** The writer *)

(** What mkmanifest has accumulated from the source file. *)
Record manifest_src := Src {
  g_name : list Z;   (** without the terminator *)
  g_required : list cap_manifest_entry;
  g_delegatable : list cap_manifest_entry }.

(** [while (off & 3u) off++]; three rounds reach a multiple of four. *)
Fixpoint pad4 (fuel : nat) (off : Z) : Z :=
  match fuel with
  | O => off
  | S fuel => if decide (Z.land off 3 = 0) then off else pad4 fuel (off + 1)
  end.

(** [emit]; [None] when the tool dies.  The [uint32_t] sums stay below 2200 for
    what the parser accepts ([src_ok]), and do not wrap. *)
Definition emit (m : manifest_src) : option (list Z) :=
  let name_len := Z.of_nat (length (g_name m)) + 1 in
  let req_bytes := Z.of_nat (length (g_required m)) * ENTRY_SIZE in
  let del_bytes := Z.of_nat (length (g_delegatable m)) * ENTRY_SIZE in
  let off1 := HEADER_SIZE + req_bytes in
  let off2 := off1 + del_bytes in
  let total := pad4 3 (off2 + name_len) in
  let h := Header CAP_MANIFEST_MAGIC CAP_MANIFEST_VERSION HEADER_SIZE total 0 off2 name_len
             HEADER_SIZE (Z.of_nat (length (g_required m)))
             off1 (Z.of_nat (length (g_delegatable m))) 0 0 in
  if decide (total > CAP_MANIFEST_MAX_BYTES) then None
  else Some (header_bytes h ++ concat (entry_bytes <$> g_required m) ++
             concat (entry_bytes <$> g_delegatable m) ++ g_name m ++ [0] ++
             replicate (Z.to_nat (total - (off2 + name_len))) 0).

(** ** Correctness *)

Lemma range_ok_spec off len total :
  is_u32 off → is_u32 len → is_u32 total → range_ok off len total = true ↔ off + len ≤ total.
Proof.
  unfold is_u32, range_ok. intros. destruct (decide (off > total)); [split; [done|lia]|].
  unfold u32. rewrite Z.mod_small by lia. case_decide; split; try done; lia.
Qed.

(** A header read from bytes has fields of their widths. *)
Lemma header_of_ranges b :
  Forall is_u8 b →
  let h := header_of b in
  is_u32 (total_size h) ∧ is_u32 (name_offset h) ∧ is_u32 (name_length h) ∧
  is_u32 (required_offset h) ∧ is_u32 (required_count h) ∧
  is_u32 (delegatable_offset h) ∧ is_u32 (delegatable_count h).
Proof.
  intros Hb. assert (∀ b, Forall is_u8 b → is_u32 (le_decode (take 4 b))) as H.
  { intros c Hc. pose proof (le_decode_range (take 4 c) (Forall_take _ _ _ Hc)) as Hr.
    rewrite length_take in Hr. unfold is_u32. split; [lia|].
    apply (Z.lt_le_trans _ _ _ (proj2 Hr)).
    apply (Z.le_trans _ (256 ^ 4)); [apply Z.pow_le_mono_r; lia|done]. }
  simpl. split_and!; apply H; repeat apply Forall_drop; done.
Qed.

(** What a blob that passes validation guarantees. *)
Record valid_blob (b : list Z) : Prop := {
  vb_len : HEADER_SIZE ≤ Z.of_nat (length b) ≤ CAP_MANIFEST_MAX_BYTES;
  vb_total : total_size (header_of b) = Z.of_nat (length b);
  vb_counts : required_count (header_of b) ≤ CAP_MANIFEST_MAX_ENTRIES ∧
              delegatable_count (header_of b) ≤ CAP_MANIFEST_MAX_ENTRIES;
  vb_required : required_offset (header_of b) + required_count (header_of b) * ENTRY_SIZE
                ≤ Z.of_nat (length b);
  vb_delegatable : delegatable_offset (header_of b) + delegatable_count (header_of b) * ENTRY_SIZE
                   ≤ Z.of_nat (length b);
  vb_name : 1 ≤ name_length (header_of b) ≤ CAP_MANIFEST_MAX_NAME ∧
            name_offset (header_of b) + name_length (header_of b) ≤ Z.of_nat (length b) ∧
            b !! Z.to_nat (name_offset (header_of b) + name_length (header_of b) - 1) = Some 0;
  vb_format : magic (header_of b) = CAP_MANIFEST_MAGIC ∧ version (header_of b) = CAP_MANIFEST_VERSION ∧
              HEADER_SIZE ≤ header_size (header_of b) ∧ flags (header_of b) = 0 }.

(** One test of the validator against the fact that it tests. *)
Lemma check_fact (P Q : Prop) `{Decision P} (x : Z) :
  (Q → ¬ P) → (¬ P → (x = CAP_ERR_NONE ↔ Q)) →
  (if decide P then CAP_ERR_MANIFEST_INVALID else x) = CAP_ERR_NONE ↔ Q.
Proof. intros HQ HP. case_decide as Hd; [|by apply HP]. split; [done|]. intros HQ'. by apply HQ in HQ'. Qed.

Lemma check_range off len total (Q : Prop) (x : Z) :
  is_u32 off → is_u32 len → is_u32 total → (Q → off + len ≤ total) →
  (off + len ≤ total → (x = CAP_ERR_NONE ↔ Q)) →
  (if negb (range_ok off len total) then CAP_ERR_MANIFEST_INVALID else x) = CAP_ERR_NONE ↔ Q.
Proof.
  intros Ho Hl Ht HQ Hx. pose proof (range_ok_spec off len total Ho Hl Ht) as W.
  destruct (range_ok off len total); simpl; [apply Hx; by apply W|].
  split; [done|]. intros HQ'. apply HQ, W in HQ'. done.
Qed.

Lemma validate_valid b :
  Forall is_u8 b → cap_manifest_validate b = CAP_ERR_NONE ↔ valid_blob b.
Proof.
  intros Hb. pose proof (header_of_ranges b Hb) as (Ht & Hno & Hnl & Hro & Hrc & Hdo & Hdc).
  unfold cap_manifest_validate. cbv zeta.
  assert (∀ c, is_u32 c → c ≤ CAP_MANIFEST_MAX_ENTRIES → u32 (c * ENTRY_SIZE) = c * ENTRY_SIZE ∧
    is_u32 (c * ENTRY_SIZE)) as Hmul.
  { unfold is_u32, CAP_MANIFEST_MAX_ENTRIES, ENTRY_SIZE, u32. intros c ? ?.
    rewrite Z.mod_small; lia. }
  do 9 (apply check_fact;
    [intros [? ? [? ?] ? ? ? (? & ? & ? & ?)]; try done; unfold HEADER_SIZE in *; lia|intros]).
  assert (is_u32 (Z.of_nat (length b))) as Hlen.
  { unfold is_u32, CAP_MANIFEST_MAX_BYTES in *. lia. }
  destruct (Hmul (required_count (header_of b))) as [-> ?]; [done|lia|].
  destruct (Hmul (delegatable_count (header_of b))) as [-> ?]; [done|lia|].
  do 2 (apply check_range; [done|done|done|by intros []|intros]).
  apply check_fact; [intros [? ? ? ? ? [? ?] ?]; lia|intros].
  apply check_range; [done|done|done|by intros [? ? ? ? ? (? & ? & ?) ?]|intros].
  apply check_fact; [intros [? ? ? ? ? (? & ? & ?) ?]; intros Hn; contradiction|intros Hz].
  split; [|done]. intros _. split; try done; unfold is_u32 in *; try lia.
  - split_and!; [lia|lia|done|]. by apply dec_stable.
Qed.

(** What the parser of mkmanifest lets through. *)
Record src_ok (m : manifest_src) : Prop := {
  so_name : (1 ≤ length (g_name m) < Z.to_nat CAP_MANIFEST_MAX_NAME)%nat;
  so_name_bytes : Forall (λ c, is_u8 c ∧ c ≠ 0) (g_name m);
  so_required : (length (g_required m) ≤ Z.to_nat CAP_MANIFEST_MAX_ENTRIES)%nat;
  so_delegatable : (length (g_delegatable m) ≤ Z.to_nat CAP_MANIFEST_MAX_ENTRIES)%nat;
  so_entries : Forall (λ e, is_u32 (etype e) ∧ epad e = 0 ∧ is_u64 (eops e)) (g_required m) }.

Lemma pad4_spec off : 0 ≤ off → off ≤ pad4 3 off < off + 4.
Proof. intros Ho. simpl. repeat case_decide; lia. Qed.

Lemma length_entries es : length (concat (entry_bytes <$> es)) = (16 * length es)%nat.
Proof.
  induction es as [|e es IH]; [done|]. cbn [fmap list_fmap concat length].
  rewrite length_app, IH. unfold entry_bytes. rewrite !length_app, !length_le_bytes. lia.
Qed.

Lemma length_header h : length (header_bytes h) = 48%nat.
Proof. unfold header_bytes. rewrite !length_app, !length_le_bytes. done. Qed.

(** Reading back the header and the entries. *)
Lemma header_of_bytes h r :
  Forall is_u32 [magic h; total_size h; flags h; name_offset h; name_length h; required_offset h;
    required_count h; delegatable_offset h; delegatable_count h; reserved0 h; reserved1 h] →
  0 ≤ version h < 65536 → 0 ≤ header_size h < 65536 →
  header_of (header_bytes h ++ r) = h.
Proof.
  intros Hr Hv Hs. rewrite !Forall_cons_iff in Hr. unfold is_u32 in Hr. unfold header_of, header_bytes.
  rewrite <- !(assoc_L (++)).
  repeat (rewrite next_num_app; [|change (256 ^ Z.of_nat 4) with 4294967296;
    change (256 ^ Z.of_nat 2) with 65536; tauto]).
  by destruct h.
Qed.

Lemma entry_at_concat hd es r i e off :
  es !! i = Some e → is_u32 (etype e) → is_u32 (epad e) → is_u64 (eops e) →
  off = Z.of_nat (length hd) + ENTRY_SIZE * Z.of_nat i →
  entry_at (hd ++ concat (entry_bytes <$> es) ++ r) off = e.
Proof.
  intros Hi Ht Hp Ho ->. unfold entry_at, ENTRY_SIZE. rewrite drop_app_ge by lia.
  replace (Z.to_nat _ - length hd)%nat with (16 * i)%nat by lia.
  assert (i < length es)%nat by by eapply lookup_lt_Some.
  rewrite <- (take_drop_middle es i e Hi), fmap_app, concat_app.
  rewrite <- (assoc_L (++)), drop_app_length'.
  2: { rewrite length_entries, length_take. lia. }
  cbn [fmap list_fmap concat]. unfold entry_bytes at 1. rewrite <- !(assoc_L (++)).
  rewrite !next_num_app; [by destruct e|done|done|done].
Qed.

Lemma existsb_seq {A} (l : list A) (f : nat → bool) (g : A → bool) :
  (∀ i x, l !! i = Some x → f i = g x) → existsb f (seq 0 (length l)) = existsb g l.
Proof.
  intros H. apply eq_true_iff_eq. rewrite !existsb_exists. split.
  - intros (i & Hi & Hf). apply in_seq in Hi. destruct (lookup_lt_is_Some_2 l i) as [x Hx]; [lia|].
    exists x. rewrite <- (H i x Hx). split; [|done]. apply list_elem_of_In. by eapply list_elem_of_lookup_2.
  - intros (x & Hx & Hg). apply list_elem_of_In, list_elem_of_lookup in Hx as [i Hi].
    exists i. rewrite (H i x Hi). split; [|done]. apply in_seq. apply lookup_lt_Some in Hi. lia.
Qed.

Lemma header_u8 h : Forall is_u8 (header_bytes h).
Proof. unfold header_bytes. repeat (apply Forall_app_2 || apply le_bytes_u8). Qed.
Lemma entries_u8 es : Forall is_u8 (concat (entry_bytes <$> es)).
Proof.
  apply Forall_concat, Forall_fmap, Forall_true. intros e. change (Forall is_u8 (entry_bytes e)). unfold entry_bytes.
  rewrite !Forall_app. split_and!; apply le_bytes_u8.
Qed.

Lemma cstr_app_nul l r : Forall (λ c, is_u8 c ∧ c ≠ 0) l → cstr (l ++ 0 :: r) = l.
Proof. induction 1 as [|c l [_ Hc] _ IH]; simpl; [done|]. rewrite decide_False by done. by rewrite IH. Qed.

(** The blob that [emit] writes, in the shape the lemmas above read it. *)
Lemma emit_shape m :
  src_ok m → ∃ h pad,
  emit m = Some (header_bytes h ++ concat (entry_bytes <$> g_required m) ++
             concat (entry_bytes <$> g_delegatable m) ++ g_name m ++ 0 :: replicate pad 0) ∧
  (∀ r, header_of (header_bytes h ++ r) = h) ∧ (pad < 4)%nat ∧
  magic h = CAP_MANIFEST_MAGIC ∧ version h = CAP_MANIFEST_VERSION ∧ header_size h = HEADER_SIZE ∧
  flags h = 0 ∧ required_offset h = HEADER_SIZE ∧
  required_count h = Z.of_nat (length (g_required m)) ∧
  delegatable_offset h = HEADER_SIZE + ENTRY_SIZE * required_count h ∧
  delegatable_count h = Z.of_nat (length (g_delegatable m)) ∧
  name_offset h = delegatable_offset h + ENTRY_SIZE * delegatable_count h ∧
  name_length h = Z.of_nat (length (g_name m)) + 1 ∧
  total_size h = name_offset h + name_length h + Z.of_nat pad.
Proof.
  intros [Hn _ Hr Hd _]. unfold emit. cbv zeta.
  unfold CAP_MANIFEST_MAX_NAME, CAP_MANIFEST_MAX_ENTRIES, HEADER_SIZE, ENTRY_SIZE in *.
  match goal with |- context [pad4 3 ?o] => pose proof (pad4_spec o ltac:(lia)) as Hp;
    set (off := o) in *; set (tot := pad4 3 off) in * end.
  rewrite decide_False by (unfold CAP_MANIFEST_MAX_BYTES; lia).
  eexists (Header _ _ _ _ _ _ _ _ _ _ _ _ _), _. split; [reflexivity|]. split.
  - intros r. apply header_of_bytes; [|done|done].
    clearbody tot. cbn. rewrite !Forall_cons_iff. unfold is_u32, CAP_MANIFEST_MAGIC.
    split_and!; try lia. apply Forall_nil_2.
  - clearbody tot. cbn. split_and!; try done; lia.
Qed.

(** C32. A manifest compiled by mkmanifest is accepted by cap_server, and grants
    what its source declares: whatever name and entries the parser accepted,
    [emit] succeeds, the blob passes [cap_manifest_validate], and
    [cap_manifest_allows] admits a request exactly when one declared [required]
    entry has the type and covers every requested operation; the server name is
    read back from the name region. *)
Theorem emit_accepted m :
  src_ok m → ∃ b, emit m = Some b ∧ cap_manifest_validate b = CAP_ERR_NONE ∧
  (∀ type ops, is_u64 ops →
    cap_manifest_allows (Some b) type ops = true ↔
      ∃ e, e ∈ g_required m ∧ etype e = type ∧ ∀ i, has_bit ops i → has_bit (eops e) i) ∧
  cstr (drop (Z.to_nat (name_offset (header_of b))) b) = g_name m.
Proof.
  intros Hok. destruct (emit_shape m Hok) as (h & pad & -> & Hh & Hf).
  set (b := _ ++ _). exists b. assert (header_of b = h) as Hb by apply Hh.
  destruct Hok as [Hn Hnb Hr Hd He].
  assert (Z.of_nat (length b) = name_offset h + name_length h + Z.of_nat pad) as Hl.
  { unfold b. rewrite !length_app, length_header, !length_entries. simpl. rewrite length_replicate.
    unfold HEADER_SIZE, ENTRY_SIZE in *. lia. }
  assert (b !! Z.to_nat (name_offset h + name_length h - 1) = Some 0) as Hnul.
  { unfold b, HEADER_SIZE, ENTRY_SIZE in *. rewrite !app_assoc. apply list_lookup_middle.
    rewrite !length_app, length_header, !length_entries. lia. }
  split; [done|]. split; [|split].
  - apply validate_valid.
    + unfold b. rewrite !Forall_app, Forall_cons_iff.
      split_and!; [apply header_u8|apply entries_u8|apply entries_u8| |done|by apply Forall_replicate].
      eapply Forall_impl; [|exact Hnb]. naive_solver.
    + split; rewrite ?Hb, ?Hl; unfold CAP_MANIFEST_MAX_BYTES, CAP_MANIFEST_MAX_ENTRIES,
        CAP_MANIFEST_MAX_NAME, HEADER_SIZE, ENTRY_SIZE in *; split_and?; try done; try lia; naive_solver lia.
  - intros ty ops Hops. unfold cap_manifest_allows. rewrite Hb.
    destruct Hf as (_ & _ & _ & _ & _ & Hro & -> & _). rewrite Nat2Z.id.
    rewrite (existsb_seq (g_required m) _ (λ e, bool_decide (etype e = ty) && mask_subset ops (eops e))).
    + rewrite existsb_exists. setoid_rewrite andb_true_iff. setoid_rewrite bool_decide_eq_true.
      setoid_rewrite mask_subset_spec; [|done]. setoid_rewrite list_elem_of_In. naive_solver.
    + intros i e Hi. rewrite Forall_lookup in He. destruct (He i e Hi) as (? & Hpad & ?).
      unfold b. rewrite (entry_at_concat _ _ _ i e); try done; [by rewrite Hpad|].
      by rewrite length_header, Hro.
  - rewrite Hb. destruct Hf as (_ & _ & _ & _ & _ & Hro & Hrc & Hdo & Hdc & -> & _).
    unfold b. rewrite !app_assoc, <- (app_assoc _ (g_name m)).
    rewrite drop_app_length'; [by apply cstr_app_nul|].
    rewrite !length_app, length_header, !length_entries. unfold HEADER_SIZE, ENTRY_SIZE in *. lia.
Qed.

(** A concrete manifest: block device read and write. *)
Definition example_src : manifest_src := Src [98; 108; 107] [Entry 4 0 3] [].

Lemma emit_accepted_witness : ∃ b, emit example_src = Some b ∧
  cap_manifest_validate b = CAP_ERR_NONE ∧
  cap_manifest_allows (Some b) 4 1 = true ∧ cap_manifest_allows (Some b) 4 4 = false.
Proof.
  assert (src_ok example_src) as Hok.
  { split; [vm_compute; lia| |vm_compute; lia|vm_compute; lia|];
      repeat constructor; vm_compute; congruence. }
  destruct (emit_accepted example_src Hok) as (b & He & Hv & _).
  exists b. split; [done|]. split; [done|]. vm_compute in He. injection He as <-. done.
Defined.

(** ** Reads stay inside the blob *)

Lemma header_of_app b r : HEADER_SIZE ≤ Z.of_nat (length b) → header_of (b ++ r) = header_of b.
Proof.
  unfold HEADER_SIZE. intros Hl. unfold header_of, next_num. cbv beta iota zeta.
  rewrite !drop_app_le, !take_app_le by (rewrite ?length_drop; simpl; lia). done.
Qed.

Lemma entry_at_app b r off :
  0 ≤ off → off + ENTRY_SIZE ≤ Z.of_nat (length b) → entry_at (b ++ r) off = entry_at b off.
Proof.
  unfold ENTRY_SIZE. intros Ho Hl. unfold entry_at, next_num. cbv beta iota zeta.
  rewrite !drop_app_le, !take_app_le by (rewrite ?length_drop; simpl; lia). done.
Qed.

Lemma cstr_app_stop l r i : l !! i = Some 0 → cstr (l ++ r) = cstr l.
Proof.
  revert i. induction l as [|x l IH]; intros i Hi; [done|]. simpl. case_decide; [done|].
  destruct i; simplify_eq/=. by rewrite (IH i).
Qed.

(** C31. A blob that passes [cap_manifest_validate] is read in bounds, whatever
    its offsets and counts are: the bytes that follow the copy in memory have no
    influence on the answer of [cap_manifest_allows] for any request, nor on the
    server name, which ends inside the blob.  In particular the range checks on
    [uint32_t] cannot be passed by values that wrap. *)
Theorem validated_no_overread b r type ops :
  Forall is_u8 b → cap_manifest_validate b = CAP_ERR_NONE →
  cap_manifest_allows (Some (b ++ r)) type ops = cap_manifest_allows (Some b) type ops ∧
  cstr (drop (Z.to_nat (name_offset (header_of b))) (b ++ r)) =
    cstr (drop (Z.to_nat (name_offset (header_of b))) b).
Proof.
  intros Hb Hv. pose proof (header_of_ranges b Hb) as (_ & Hno & _ & Hro & Hrc & _).
  apply validate_valid in Hv as [Hlen _ _ Hreq _ (Hnl & Hn & Hnul) _]; [|done].
  unfold is_u32 in *. split.
  - unfold cap_manifest_allows. rewrite header_of_app by lia. apply eq_true_iff_eq.
    rewrite !existsb_exists. setoid_rewrite in_seq.
    assert (∀ i : nat, (i < Z.to_nat (required_count (header_of b)))%nat →
      entry_at (b ++ r) (required_offset (header_of b) + ENTRY_SIZE * Z.of_nat i) =
      entry_at b (required_offset (header_of b) + ENTRY_SIZE * Z.of_nat i)) as He.
    { intros i Hi. unfold ENTRY_SIZE in *. apply entry_at_app; unfold ENTRY_SIZE; lia. }
    split; intros (i & Hi & Hx); exists i; (split; [done|]);
      [rewrite <- He by lia|rewrite He by lia]; done.
  - rewrite drop_app_le by lia.
    apply (cstr_app_stop _ _ (Z.to_nat (name_length (header_of b) - 1))).
    rewrite lookup_drop, <- Hnul. f_equal. lia.
Qed.

Lemma validated_no_overread_witness : ∃ b, emit example_src = Some b ∧
  cap_manifest_allows (Some (b ++ [1; 2; 3])) 4 3 = true.
Proof.
  destruct (emit example_src) as [b|] eqn:He; [|by vm_compute in He].
  exists b. split; [done|].
  destruct (validated_no_overread b [1; 2; 3] 4 3) as [-> _];
    vm_compute in He; injection He as <-; [|done|done].
  repeat constructor; vm_compute; congruence.
Defined.

(** ** The table by port *)

Lemma find_slot_cons {A} (P : A → Prop) `{∀ x, Decision (P x)} x t :
  find_slot P (x :: t) = if decide (P x) then Some O else S <$> find_slot P t.
Proof. unfold find_slot. simpl. case_decide; [done|]. by destruct (list_find P t) as [[i y]|]. Qed.

Lemma install_slot_spec p i slot g :
  install_slot p i slot g =
    match find_slot (slot_of p) g with
    | Some j => Some (i + j)%nat
    | None => match slot with
              | Some _ => slot
              | None => Nat.add i <$> find_slot (λ s, s = None) g
              end
    end.
Proof.
  revert i slot. induction g as [|s g IH]; intros i slot; [by destruct slot|].
  rewrite !find_slot_cons. destruct s as [[q b]|]; cbn [install_slot].
  - destruct (decide (q = p)) as [->|Hq].
    + rewrite decide_True by done. f_equal. lia.
    + rewrite (decide_False (P := slot_of p _)) by (unfold slot_of; simpl; congruence). rewrite IH.
      destruct (find_slot (slot_of p) g); simpl; [f_equal; lia|].
      destruct slot; [done|].
      destruct (find_slot _ g); simpl; [f_equal; lia|done].
  - rewrite (decide_False (P := slot_of p _)) by done. rewrite IH.
    destruct (find_slot (slot_of p) g); simpl; [f_equal; lia|].
    destruct slot; [done|]. f_equal. lia.
Qed.

(** At most one slot per port. *)
Definition manifest_ok (g : manifest_table) : Prop :=
  ∀ i j p b b', g !! i = Some (Some (p, b)) → g !! j = Some (Some (p, b')) → i = j.

Lemma get_spec p b g :
  manifest_ok g → cap_manifest_table_get p g = Some b ↔ ∃ i, g !! i = Some (Some (p, b)).
Proof.
  intros Hok. unfold cap_manifest_table_get. split.
  - intros (i & Hi & (s & Hs & Hb)%bind_Some)%bind_Some.
    apply find_slot_Some in Hi as (x & Hx & Hp & _). simplify_eq.
    destruct x as [[q c]|]; [|done]. unfold slot_of in Hp. simpl in *. simplify_eq. by exists i.
  - intros (i & Hi). rewrite (find_slot_unique _ _ i (Some (p, b))); [|done|done|].
    + simpl. by rewrite Hi.
    + intros j [[q c]|] Hj; unfold slot_of; simpl; [|done]. intros [= ->]. eauto.
Qed.

Lemma get_None p g :
  cap_manifest_table_get p g = None ↔ ∀ i b, g !! i ≠ Some (Some (p, b)).
Proof.
  unfold cap_manifest_table_get. destruct (find_slot (slot_of p) g) as [i|] eqn:Hf; simpl.
  - apply find_slot_Some in Hf as ([[q c]|] & Hi & Hp & _); [|done].
    unfold slot_of in Hp. simplify_eq/=. rewrite Hi. simpl. split; [done|]. intros H. by destruct (H i c).
  - rewrite find_slot_None in Hf. split; [|done]. intros _ i b Hi. by apply (Hf i _ Hi).
Qed.

(** Writing a slot that is free or belongs to [p]. *)
Lemma manifest_ok_insert g i p s :
  manifest_ok g →
  (∀ j b, g !! j = Some (Some (p, b)) → j = i) →
  (∀ q b, s = Some (q, b) → q = p) → manifest_ok (<[i := s]> g).
Proof.
  intros Hok Hp Hs j k q b b' Hj Hk. apply insert_lookup_inv in Hj, Hk.
  destruct Hj as [(<- & -> & _)|(Hne & Hj)], Hk as [(<- & Hk & _)|(Hne' & Hk)]; try done.
  - rewrite (Hs q b) in Hk by done. symmetry. eauto.
  - rewrite (Hs q b') in Hj by done. eauto.
  - eauto.
Qed.

(** Where [cap_manifest_table_install] puts the manifest of [p]. *)
Definition install_at (p : port) (g : manifest_table) (i : nat) : Prop :=
  (i < length g)%nat ∧ (∀ q b, g !! i = Some (Some (q, b)) → q = p) ∧
  ∀ j b, g !! j = Some (Some (p, b)) → j = i.

Lemma install_target p g :
  manifest_ok g →
  (install_slot p 0 None g = None ∧ ∀ i s, g !! i = Some s → ∃ q c, s = Some (q, c) ∧ q ≠ p) ∨
  ∃ i, install_slot p 0 None g = Some i ∧ install_at p g i.
Proof.
  intros Hok. rewrite install_slot_spec. destruct (find_slot (slot_of p) g) as [i|] eqn:Hf.
  - right. exists i. split; [done|]. apply find_slot_Some in Hf as (x & Hi & Hp & _).
    destruct x as [[q c]|]; [|done]. unfold slot_of in Hp. simplify_eq/=.
    split_and!; [by eapply lookup_lt_Some|naive_solver|]. intros j b Hj. by eapply Hok.
  - rewrite find_slot_None in Hf. destruct (find_slot (λ s, s = None) g) as [i|] eqn:Hn; simpl.
    + right. exists i. split; [done|]. apply find_slot_Some in Hn as (x & Hi & -> & _).
      split_and!; [by eapply lookup_lt_Some|naive_solver|]. intros j b Hj. by destruct (Hf j _ Hj).
    + left. split; [done|]. rewrite find_slot_None in Hn. intros i [[q c]|] Hi; [|by destruct (Hn i None)].
      exists q, c. split; [done|]. intros ->. by destruct (Hf i _ Hi).
Qed.

Lemma get_insert_ne p q g i s :
  manifest_ok g → install_at p g i → (∀ q b, s = Some (q, b) → q = p) → q ≠ p →
  cap_manifest_table_get q (<[i := s]> g) = cap_manifest_table_get q g.
Proof.
  intros Hok (Hi & Hfree & Hp) Hs Hq. apply option_eq. intros b.
  rewrite !get_spec by (done || by apply (manifest_ok_insert g i p)). split; intros (j & Hj).
  - apply insert_lookup_inv in Hj as [(<- & -> & _)|(? & ?)]; [|eauto]. by destruct Hq, (Hs q b).
  - exists j. rewrite list_lookup_insert_ne; [done|]. intros ->. by destruct Hq, (Hfree q b).
Qed.

Lemma manifest_ok_init : manifest_ok cap_manifest_table_init.
Proof. intros i j p b b' Hi. by apply lookup_replicate_1 in Hi as [? _]. Qed.

Lemma install_manifest_ok {E : MachEnv} p b g l :
  manifest_ok g → manifest_ok (post (cap_manifest_table_install p b g l)).
Proof.
  intros Hok. unfold cap_manifest_table_install. mrun.
  destruct (install_target p g) as [[-> Hfull]|(i & -> & Hi & Hfree & Hp)]; [done|done|..].
  mrun. case_decide; mrun; apply (manifest_ok_insert g i p); naive_solver.
Qed.

(** [cap_manifest_table_install] keeps one slot per port and, whatever
    happens, leaves the manifests of all other ports alone.  It succeeds exactly
    when it has a slot and memory, and then [cap_manifest_table_get] returns the
    new blob, also when the port had one before; it reports a full table only if
    every slot is taken by another port, without touching anything; when the
    allocation fails the port is left without a manifest. *)
Theorem install_spec {E : MachEnv} p b g l :
  manifest_ok g →
  let r := cap_manifest_table_install p b g l in
  manifest_ok (post r) ∧
  (∀ q, q ≠ p → cap_manifest_table_get q (post r) = cap_manifest_table_get q g) ∧
  ((res r = CAP_ERR_NONE ∧ cap_manifest_table_get p (post r) = Some b) ∨
   (res r = CAP_ERR_NO_MEMORY ∧ mach_kr l (Malloc (Z.of_nat (length b))) ≠ KERN_SUCCESS ∧
      cap_manifest_table_get p (post r) = None) ∨
   (res r = CAP_ERR_NO_MANIFEST_SLOT ∧ post r = g ∧
      ∀ i s, g !! i = Some s → ∃ q c, s = Some (q, c) ∧ q ≠ p)).
Proof.
  intros Hok. unfold cap_manifest_table_install. mrun.
  destruct (install_target p g) as [[-> Hfull]|(i & -> & Hat)]; [done|..].
  { cbn. split_and!; [done..|]. right; right. by split_and!. }
  mrun. pose proof Hat as (Hi & Hfree & Hp).
  assert (∀ s, (∀ q b, s = Some (q, b) → q = p) → manifest_ok (<[i := s]> g)) as Hins
    by (intros; by apply (manifest_ok_insert g i p)).
  case_decide as Hkr; mrun; unfold res, post; cbn [fst snd mret M_ret].
  - split_and!; [by apply Hins|by intros; apply (get_insert_ne p)|].
    right; left. split_and!; [done..|]. apply get_None. intros j c Hj.
    apply insert_lookup_inv in Hj as [(? & ? & _)|(Hne & Hj)]; [done|]. by destruct Hne, (Hp j c).
  - split_and!; [apply Hins; naive_solver|intros; apply (get_insert_ne p); naive_solver|].
    left. split; [done|]. apply get_spec; [apply Hins; naive_solver|].
    exists i. by rewrite list_lookup_insert_eq.
Qed.

Lemma install_spec_witness :
  let r := cap_manifest_table_install (E := env_ok) 7 [1] cap_manifest_table_init [] in
  res r = CAP_ERR_NONE ∧ cap_manifest_table_get 7 (post r) = Some [1].
Proof.
  destruct (install_spec (E := env_ok) 7 [1] cap_manifest_table_init []) as (_ & _ & H).
  - apply manifest_ok_init.
  - split; [by vm_compute|]. destruct H as [[_ H]|[[H _]|[H _]]]; [exact H|..]; by vm_compute in H.
Defined.
