(* ===== verification/CapServer.v ===== *)
(** * cap_server: the request handlers

    [cap_server/cap_server.c]: issuing tokens ([cap_acquire], [cap_derive]),
    revoking a token with everything derived from it ([cap_revoke]) and telling
    the subscribed resource servers, checking a token ([cap_verify]), and giving a
    task its own port with a manifest ([cap_provision_task]). *)

From S2P Require Import Prelude Mach CapTypes CapTable CapManifest.

Definition CAP_MAX_REVOKE_SUBSCRIBERS : nat := 8.
Definition MACH_PORT_RIGHT_RECEIVE : Z := 1.

(** The globals of cap_server. *)
Record cap_server := CapServer {
  table : cap_table;
  revoke_subscribers : list port;    (** the first [n_revoke_subscribers] slots *)
  manifests : manifest_table;
  g_request_local_port : port }.

Definition set_table (t : cap_table) (s : cap_server) : cap_server :=
  CapServer t (revoke_subscribers s) (manifests s) (g_request_local_port s).
Definition set_subscribers (l : list port) (s : cap_server) : cap_server :=
  CapServer (table s) l (manifests s) (g_request_local_port s).
Definition set_manifests (g : manifest_table) (s : cap_server) : cap_server :=
  CapServer (table s) (revoke_subscribers s) g (g_request_local_port s).
Definition set_local_port (p : port) (s : cap_server) : cap_server :=
  CapServer (table s) (revoke_subscribers s) (manifests s) p.

(** The state after the initialisation in [main]. *)
Definition cap_server_init : cap_server :=
  CapServer cap_table_init [] cap_manifest_table_init MACH_PORT_NULL.

(** The values fixed at startup: the key ([cap_key_init]), the well-known port
    and the port set. *)
Class CapConfig := {
  cap_hmac_key : list Z;
  cap_port : port;
  cap_port_set : port }.

(** The seed of [cap_key_init]: time stamp counter, task port, constant salt. *)
Definition cap_key_init (tsc self : Z) : list Z :=
  sha256 (le_bytes 8 tsc ++ le_bytes 4 self ++
          concat (le_bytes 4 <$> [0x4d724855; 0x635f6863; 0x765f7061; 0x00003100;
                                  0x51b2a64f; 0x9e87cd32])).

(** The setup token of [cap_key_export_to_kernel]: all zero but for the key in
    the place of the signature. *)
Definition setup_token (key : list Z) : uros_cap :=
  Cap 0 0 0 0 0 0 (replicate 64 0) 0 0 0 (replicate 6 0) 0 0 0 0 0 (replicate 6 0) 0 0 key.

(** The token that [cap_acquire] fills in. *)
Definition fresh_token (id rtype rid ops : Z) : uros_cap :=
  Cap id rtype 0 rid ops MACH_PORT_NULL (replicate 64 0) 0 0 1 (replicate 6 0) 0 0 0 0 0
    (replicate 6 0) 0 0 (replicate 32 0).

(** The token that [cap_derive] makes from the presented parent. *)
Definition derived_token (id ops sibling : Z) (p : uros_cap) : uros_cap :=
  Cap id (resource_type p) (pad0 p) (resource_id p) ops (owner p) (owner_name p) (cap_id p)
    (u8 (depth p + 1)) (delegable p) (pad1 p) (expires p) (max_uses p) (current_uses p)
    (revoked p) (is_generic p) (pad2 p) 0 sibling (hmac p).

Definition policy_allows_v1 (sender resource_type ops : Z) : bool := true.

Section handlers.
Context {E : MachEnv} {C : CapConfig}.

(** ** Issuing *)

(** The manifest gate of [cap_acquire]. *)
Definition manifest_admits (rtype ops : Z) (s : cap_server) : bool :=
  if decide (g_request_local_port s ≠ MACH_PORT_NULL ∧ g_request_local_port s ≠ cap_port)
  then match cap_manifest_table_get (g_request_local_port s) (manifests s) with
       | Some m => cap_manifest_allows (Some m) rtype ops
       | None => true
       end
  else true.

Definition cap_acquire (rtype rid ops lifetime_ms token_len : Z) : M cap_server (Z * list Z) :=
  if decide (token_len < Z.of_nat CAP_TOKEN_SIZE) then mret (CAP_ERR_NO_MEMORY, [])
  else if negb (policy_allows_v1 MACH_PORT_NULL rtype ops) then mret (CAP_ERR_POLICY_DENIED, [])
  else
    s ← get;
    if negb (manifest_admits rtype ops s) then mret (CAP_ERR_NOT_IN_MANIFEST, [])
    else
      kr ← call (Malloc 204);
      if decide (kr ≠ KERN_SUCCESS) then mret (CAP_ERR_NO_MEMORY, [])
      else
        let '(id, t) := cap_table_alloc_id (table s) in
        let tok := cap_sign cap_hmac_key (fresh_token id rtype rid ops) in
        put (set_table (cap_table_insert tok MACH_PORT_NULL t) s);;
        mret (KERN_SUCCESS, token_bytes tok).

Definition cap_derive (parent_buf : list Z) (reduced_ops lifetime_ms child_len : Z) :
    M cap_server (Z * list Z) :=
  if decide (length parent_buf ≠ CAP_TOKEN_SIZE) then mret (CAP_ERR_INVALID_TOKEN, [])
  else if decide (child_len < Z.of_nat CAP_TOKEN_SIZE) then mret (CAP_ERR_NO_MEMORY, [])
  else
    let parent := token_of_bytes parent_buf in
    if negb (cap_verify_hmac cap_hmac_key parent) then mret (CAP_ERR_INVALID_TOKEN, [])
    else if decide (revoked parent ≠ 0) then mret (CAP_ERR_REVOKED, [])
    else if decide (delegable parent = 0) then mret (CAP_ERR_NOT_DELEGABLE, [])
    else if decide (depth parent + 1 > CAP_MAX_DEPTH) then mret (CAP_ERR_DEPTH_EXCEEDED, [])
    else if negb (mask_subset reduced_ops (allowed_ops parent)) then mret (CAP_ERR_OP_NOT_ALLOWED, [])
    else
      s ← get;
      match cap_table_find_by_id (cap_id parent) (table s) ≫= λ a, pair a <$> heap (table s) !! a with
      | None => mret (CAP_ERR_REVOKED, [])
      | Some (a, pe) =>
          if decide (revoked (token pe) ≠ 0) then mret (CAP_ERR_REVOKED, [])
          else
            kr ← call (Malloc 204);
            if decide (kr ≠ KERN_SUCCESS) then mret (CAP_ERR_NO_MEMORY, [])
            else
              let '(id, t) := cap_table_alloc_id (table s) in
              let tok := cap_sign cap_hmac_key
                (derived_token id reduced_ops (first_child_cap_id (token pe)) parent) in
              let t := cap_table_insert tok MACH_PORT_NULL t in
              let t := update_token a (λ p, cap_sign cap_hmac_key (set_first_child id p)) t in
              put (set_table t s);;
              mret (KERN_SUCCESS, token_bytes tok)
      end.

(** ** Subscribers *)

Definition revoke_subscribers_remove_at (i : nat) : M cap_server unit :=
  s ← get;
  match revoke_subscribers s !! i with
  | None => mret tt
  | Some p =>
      call (MachPortDeallocate p);;
      let n := (length (revoke_subscribers s) - 1)%nat in
      let moved := default MACH_PORT_NULL (revoke_subscribers s !! n) in
      put (set_subscribers (take n (<[i := moved]> (revoke_subscribers s))) s)
  end.

(** The loop of [fanout_revoke_notify]: a subscriber whose notification fails is
    replaced by the last one, which is then tried at the same index. *)
Fixpoint fanout_loop (fuel i : nat) (id : Z) : M cap_server unit :=
  match fuel with
  | O => mret tt
  | S fuel =>
      s ← get;
      match revoke_subscribers s !! i with
      | None => mret tt
      | Some p =>
          kr ← call (CapRevokeNotify p id);
          if decide (kr ≠ KERN_SUCCESS) then revoke_subscribers_remove_at i;; fanout_loop fuel i id
          else fanout_loop fuel (S i) id
      end
  end.

Definition fanout_revoke_notify (id : Z) : M cap_server unit :=
  s ← get; fanout_loop (length (revoke_subscribers s)) 0 id.

Definition cap_subscribe_revoke (notify : port) : M cap_server Z :=
  if decide (notify = MACH_PORT_NULL) then mret CAP_ERR_INVALID_TOKEN
  else
    s ← get;
    if decide (notify ∈ revoke_subscribers s) then
      call (MachPortDeallocate notify);; mret KERN_SUCCESS
    else if decide (CAP_MAX_REVOKE_SUBSCRIBERS ≤ length (revoke_subscribers s))%nat then
      call (MachPortDeallocate notify);; mret CAP_ERR_NO_MEMORY
    else put (set_subscribers (revoke_subscribers s ++ [notify]) s);; mret KERN_SUCCESS.

(** ** Revocation *)

(** Push the sibling chain starting at [child] while the stack, whose head is its
    top, has room: [room] is [CAP_MAX_DEPTH + 1 - top]. *)
Fixpoint push_siblings (room : nat) (t : cap_table) (child : Z) (stack : list Z) : list Z :=
  match room with
  | O => stack
  | S room =>
      if decide (child = 0) then stack
      else match cap_table_find_by_id child t ≫= λ a, heap t !! a with
           | None => child :: stack
           | Some c => push_siblings room t (next_sibling_cap_id (token c)) (child :: stack)
           end
  end.

Definition stack_room (stack : list Z) : nat := Z.to_nat (CAP_MAX_DEPTH + 1) - length stack.

(** The first walk of [cap_revoke]: mark what is found and not yet revoked.
    Result: the table, the number of marked entries, what is left on the stack. *)
Fixpoint cascade (fuel : nat) (t : cap_table) (stack : list Z) (n : nat) : cap_table * nat * list Z :=
  match fuel, stack with
  | S fuel, id :: stack =>
      match cap_table_find_by_id id t ≫= λ a, pair a <$> heap t !! a with
      | None => cascade fuel t stack n
      | Some (a, e) =>
          if decide (revoked (token e) ≠ 0) then cascade fuel t stack n
          else
            let t := cap_table_mark_revoked cap_hmac_key a t in
            cascade fuel t
              (push_siblings (stack_room stack) t (first_child_cap_id (token e)) stack) (S n)
      end
  | _, _ => (t, n, stack)
  end.

(** The second walk: the ids to notify, and what is left on the stack. *)
Fixpoint rewalk (fuel : nat) (t : cap_table) (stack : list Z) : list Z * list Z :=
  match fuel, stack with
  | S fuel, id :: stack =>
      match cap_table_find_by_id id t ≫= λ a, heap t !! a with
      | None => rewalk fuel t stack
      | Some e =>
          let '(ids, rest) := rewalk fuel t
            (push_siblings (stack_room stack) t (first_child_cap_id (token e)) stack) in
          (id :: ids, rest)
      end
  | _, _ => ([], stack)
  end.

(** Both walks visit an entry at most once, so as many rounds as there are
    entries are enough.  The notifications do not change the table, so the ids
    can be listed first. *)
Definition cap_revoke (id : Z) : M cap_server Z :=
  s ← get;
  match cap_table_find_by_id id (table s) with
  | None => mret CAP_ERR_INVALID_TOKEN
  | Some _ =>
      let fuel := length (heap (table s)) in
      let '(t, n, _) := cascade fuel (table s) [id] 0 in
      put (set_table t s);;
      if decide (revoke_subscribers s ≠ [] ∧ n ≠ 0%nat) then
        mfor fanout_revoke_notify (rewalk fuel t [id]).1;; mret KERN_SUCCESS
      else mret KERN_SUCCESS
  end.

(** ** Provisioning and verification *)

(** The new port is the first word that the allocation hands back. *)
Definition cap_provision_task (task_port : port) (manifest_buf : list Z) : M cap_server (Z * port) :=
  let vrc := cap_manifest_validate manifest_buf in
  if decide (vrc ≠ CAP_ERR_NONE) then mret (vrc, MACH_PORT_NULL)
  else
    '(kr, out) ← call_out (MachPortAllocate MACH_PORT_RIGHT_RECEIVE);
    if decide (kr ≠ KERN_SUCCESS) then mret (CAP_ERR_NO_MEMORY, MACH_PORT_NULL)
    else
      let new_port := default MACH_PORT_NULL (out !! 0%nat) in
      kr ← call (MachPortMoveMember new_port cap_port_set);
      if decide (kr ≠ KERN_SUCCESS) then
        call (MachPortDestroy new_port);; mret (CAP_ERR_INTERNAL, MACH_PORT_NULL)
      else
        vrc ← zoom manifests set_manifests (cap_manifest_table_install new_port manifest_buf);
        if decide (vrc ≠ CAP_ERR_NONE) then
          call (MachPortDestroy new_port);; mret (vrc, MACH_PORT_NULL)
        else
          kr ← call (MachPortInsertRight 0 new_port new_port);
          if decide (kr ≠ KERN_SUCCESS) then
            call (MachPortDestroy new_port);; mret (CAP_ERR_INTERNAL, MACH_PORT_NULL)
          else mret (KERN_SUCCESS, new_port).

Definition cap_verify (token_buf : list Z) (op rid : Z) (s : cap_server) : Z :=
  if decide (length token_buf ≠ CAP_TOKEN_SIZE) then CAP_ERR_INVALID_TOKEN
  else
    let tok := token_of_bytes token_buf in
    if negb (cap_verify_hmac cap_hmac_key tok) then CAP_ERR_INVALID_TOKEN
    else if decide (revoked tok ≠ 0) then CAP_ERR_REVOKED
    else if decide (resource_id tok ≠ rid) then CAP_ERR_RESOURCE_MISMATCH
    else if negb (mask_subset op (allowed_ops tok)) then CAP_ERR_OP_NOT_ALLOWED
    else
      match cap_table_find_by_id (cap_id tok) (table s) ≫= λ a, heap (table s) !! a with
      | Some live => if decide (revoked (token live) ≠ 0) then CAP_ERR_REVOKED else KERN_SUCCESS
      | None => KERN_SUCCESS
      end.
End handlers.
