(* ===== verification/CapTree.v ===== *)
(** * cap_server: the delegation tree and the walks of [cap_revoke]

    The tokens of the table form a forest in left-child right-sibling form.
    [tree_ok] says that the links are the children of an entry, youngest first.
    The two walks of [cap_revoke] are related to one depth-first search with a
    stack of seventeen ids ([dfs]); it always ends, and it is complete when the
    subtree has at most seventeen proper descendants. *)

From S2P Require Import Prelude Mach CapTypes CapTable CapManifest CapServer.

(** ** Depth-first search with a bounded stack *)

Section dfs.
Context (kids : Z → list Z).

(** What is expanded, in order, and what is left on the stack. *)
Fixpoint dfs (expand : Z → bool) (fuel : nat) (stack : list Z) : list Z * list Z :=
  match fuel, stack with
  | S fuel, x :: st =>
      if expand x then
        let '(v, rest) := dfs expand fuel (reverse (take (stack_room st) (kids x)) ++ st) in (x :: v, rest)
      else dfs expand fuel st
  | _, _ => ([], stack)
  end.

(** The children lists of a forest over the ids [1 .. N], with parents older
    than their children. *)
Record forest (N : Z) : Prop := {
  kids_nodup : ∀ p, NoDup (kids p);
  kids_range : ∀ p c, c ∈ kids p → p < c ≤ N;
  kids_parent : ∀ p q c, c ∈ kids p → c ∈ kids q → p = q }.

Definition desc : Z → Z → Prop := rtc (λ p c, c ∈ kids p).

(** The search from [r] has popped [V] and has [st] on its stack. *)
Record searching (r : Z) (V st : list Z) : Prop := {
  se_nodup : NoDup (V ++ st);
  se_desc : ∀ y, y ∈ V ++ st → desc r y;
  se_parent : ∀ y, y ∈ V ++ st → y = r ∨ ∃ p, p ∈ V ∧ y ∈ kids p;
  se_root : r ∈ V ∨ st = [r] }.

(** What is expanded is reached from the stack by expanded ids. *)
Definition reach (expand : Z → bool) : Z → Z → Prop :=
  rtc (λ p c, c ∈ kids p ∧ expand c = true).

Lemma reach_desc expand x y : reach expand x y → desc x y.
Proof. apply rtc_subrel. by intros p c [? _]. Qed.

Lemma dfs_from_stack expand fuel st y :
  y ∈ (dfs expand fuel st).1 → ∃ z, z ∈ st ∧ expand z = true ∧ reach expand z y.
Proof.
  revert st. induction fuel as [|fuel IH]; intros st Hy; [by destruct st; apply not_elem_of_nil in Hy|].
  destruct st as [|x st]; [by apply not_elem_of_nil in Hy|]. cbn [dfs] in Hy.
  destruct (expand x) eqn:Hx.
  - pose proof (IH (reverse (take (stack_room st) (kids x)) ++ st)) as IH'.
    destruct (dfs expand fuel _) as [v rest]. cbn [fst] in *. apply elem_of_cons in Hy as [->|Hy].
    { exists x. split_and!; [by left|done|]. apply rtc_refl. }
    destruct (IH' Hy) as (z & [Hz|Hz]%elem_of_app & He & Hd).
    + exists x. split_and!; [by left|done|]. eapply rtc_l; [|exact Hd]. apply elem_of_reverse in Hz.
      split; [|done]. rewrite <- (take_drop (stack_room st)). set_solver.
    + exists z. split_and!; [by right|done|done].
  - destruct (IH st Hy) as (z & Hz & Hd). exists z. split; [by right|done].
Qed.

Section facts.
Context (N r : Z) (F : forest N) (Hr : 1 ≤ r ≤ N).

Lemma desc_range y : desc r y → r ≤ y ≤ N.
Proof.
  revert y. apply (rtc_ind_r (λ y, r ≤ y ≤ N)); [lia|].
  intros y z _ Hz IH. pose proof (kids_range N F _ _ Hz). lia.
Qed.

(** No child of the popped id has been seen. *)
Lemma child_new V x st c : searching r V (x :: st) → c ∈ kids x → c ∉ V ++ x :: st.
Proof.
  intros [Hnd Hd Hp _] Hc Hin. pose proof (kids_range N F _ _ Hc).
  destruct (Hp c Hin) as [->|(p & HpV & Hcp)].
  - assert (r ≤ x ≤ N) by (apply desc_range, Hd; apply elem_of_app; right; by left). lia.
  - rewrite (kids_parent N F p x c) in HpV by done.
    apply list.NoDup_app in Hnd as (_ & Hdisj & _). apply (Hdisj x HpV). set_solver.
Qed.

Lemma searching_skip V x st : searching r V (x :: st) → searching r (x :: V) st.
Proof.
  intros [Hnd Hd Hp Hroot].
  assert (x :: V ++ st ≡ₚ V ++ x :: st) as Hperm by by rewrite <- Permutation_middle.
  split; simpl.
  - by rewrite Hperm.
  - intros y. rewrite Hperm. apply Hd.
  - intros y. rewrite Hperm. intros Hy. destruct (Hp y Hy) as [|(p & ? & ?)]; [by left|].
    right. exists p. set_solver.
  - left. destruct Hroot as [?|[= -> ->]]; set_solver.
Qed.

Lemma searching_step V x st k :
  searching r V (x :: st) → searching r (x :: V) (reverse (take k (kids x)) ++ st).
Proof.
  intros Hs. pose proof (searching_skip _ _ _ Hs) as [Hnd Hd Hp Hroot].
  assert (∀ y, y ∈ reverse (take k (kids x)) → y ∈ kids x) as Hrev.
  { intros y. rewrite elem_of_reverse. intros Hy.
    rewrite <- (take_drop k). set_solver. }
  assert (x :: V ++ reverse (take k (kids x)) ++ st ≡ₚ reverse (take k (kids x)) ++ (x :: V) ++ st) as Hperm.
  { change (((x :: V) ++ reverse (take k (kids x)) ++ st) ≡ₚ reverse (take k (kids x)) ++ (x :: V) ++ st).
    by rewrite !(assoc_L (++)), (comm (++) (x :: V)). }
  split; simpl.
  - rewrite Hperm. apply list.NoDup_app. split_and!; [|  |done].
    + rewrite reverse_Permutation. apply (sublist_NoDup _ (kids x)); [apply F|]. apply sublist_take.
    + intros y Hy Hin. apply (child_new V x st y Hs); [by apply Hrev|].
      rewrite <- Permutation_middle. exact Hin.
  - intros y. rewrite Hperm, elem_of_app. intros [Hy|Hy]; [|by apply Hd].
    eapply rtc_r; [apply (Hd x); set_solver|]. by apply Hrev.
  - intros y. rewrite Hperm, elem_of_app. intros [Hy|Hy]; [|by apply Hp].
    right. exists x. split; [set_solver|]. by apply Hrev.
  - left. destruct Hroot as [?|Hst]; [done|]. destruct Hs as [_ _ _ [?|[= -> ->]]]; set_solver.
Qed.

(** ids in a range, without repetition *)
Lemma nodup_range_length (l : list Z) : NoDup l → (∀ y, y ∈ l → 1 ≤ y ≤ N) → Z.of_nat (length l) ≤ N.
Proof.
  intros Hnd Hl. assert (l ⊆+ seqZ 1 N) as Hsub.
  { apply NoDup_submseteq; [done|]. intros y Hy. apply elem_of_seqZ. specialize (Hl y Hy). lia. }
  apply submseteq_length in Hsub. rewrite length_seqZ in Hsub. lia.
Qed.

Lemma searching_length V st : searching r V st → Z.of_nat (length V + length st) ≤ N.
Proof.
  intros [Hnd Hd _ _]. rewrite <- length_app. apply nodup_range_length; [done|].
  intros y Hy. specialize (Hd y Hy). apply desc_range in Hd. lia.
Qed.

(** One round per id of the table empties the stack. *)
Lemma dfs_ends expand fuel V st :
  searching r V st → N ≤ Z.of_nat (length V + fuel) → (dfs expand fuel st).2 = [].
Proof.
  revert V st. induction fuel as [|fuel IH]; intros V st Hs Hf.
  - apply searching_length in Hs. destruct st; simpl in *; [done|lia].
  - destruct st as [|x st]; [done|]. cbn [dfs]. destruct (expand x).
    + destruct (dfs expand fuel _) as [v rest] eqn:Hd. change ((v, rest).2 = []). rewrite <- Hd.
      apply (IH (x :: V)); [by apply searching_step|simpl; lia].
    + apply (IH (x :: V)); [by apply searching_skip|simpl; lia].
Qed.

Lemma dfs_sound expand fuel V st y :
  searching r V st → y ∈ (dfs expand fuel st).1 → desc r y ∧ expand y = true ∧ y ∉ V.
Proof.
  revert V st. induction fuel as [|fuel IH]; intros V st Hs Hy; [by destruct st; apply not_elem_of_nil in Hy|].
  destruct st as [|x st]; [by apply not_elem_of_nil in Hy|]. cbn [dfs] in Hy.
  destruct (expand x) eqn:Hx.
  - pose proof (IH (x :: V) _ (searching_step V x st (stack_room st) Hs)) as IH'.
    destruct (dfs expand fuel _) as [v rest]. simpl in *. rewrite elem_of_cons in Hy.
    destruct Hy as [->|Hy]; [|destruct (IH' Hy) as (? & ? & ?); set_solver].
    split_and!; [apply (se_desc _ _ _ Hs); set_solver|done|].
    pose proof (se_nodup _ _ _ Hs) as Hnd. apply list.NoDup_app in Hnd as (_ & Hdisj & _). set_solver.
  - destruct (IH (x :: V) st) as (? & ? & ?); [by apply searching_skip|done|set_solver].
Qed.

(** The stack never overflows in a subtree of at most seventeen proper
    descendants. *)
Definition small : Prop :=
  ∀ l, NoDup l → (∀ y, y ∈ l → desc r y ∧ y ≠ r) → (length l ≤ 17)%nat.

Lemma small_room V x st : small → searching r V (x :: st) → (length (kids x) ≤ stack_room st)%nat.
Proof.
  intros Hsm Hs. assert (length (kids x ++ st) ≤ 17)%nat as Hl.
  { assert (r ∉ st) as Hrst.
    { destruct Hs as [Hnd _ _ [Hr'|[= -> ->]]]; [|set_solver].
      apply list.NoDup_app in Hnd as (_ & Hdisj & _). specialize (Hdisj r Hr'). set_solver. }
    assert (desc r x) as Hx by (apply (se_desc _ _ _ Hs); set_solver).
    apply Hsm.
    - apply list.NoDup_app. split_and!; [apply F| |].
      + intros c Hc Hin. apply (child_new V x st c Hs Hc). set_solver.
      + pose proof (se_nodup _ _ _ Hs) as Hnd. apply list.NoDup_app in Hnd as (_ & _ & Hnd).
        by apply list.NoDup_cons in Hnd as [_ ?].
    - intros y [Hy|Hy]%elem_of_app.
      + split; [by eapply rtc_r|]. pose proof (kids_range N F _ _ Hy). apply desc_range in Hx. lia.
      + split; [apply (se_desc _ _ _ Hs); set_solver|]. set_solver. }
  rewrite length_app in Hl. unfold stack_room, CAP_MAX_DEPTH. lia.
Qed.

(** Then everything on the stack, and every child of what is expanded, is
    expanded if it can be. *)
Lemma dfs_complete expand fuel V st :
  small → searching r V st → (dfs expand fuel st).2 = [] →
  (∀ y, y ∈ st → expand y = true → y ∈ (dfs expand fuel st).1) ∧
  (∀ x c, x ∈ (dfs expand fuel st).1 → c ∈ kids x → expand c = true → c ∈ (dfs expand fuel st).1).
Proof.
  intros Hsm. revert V st. induction fuel as [|fuel IH]; intros V st Hs He.
  { destruct st; simpl in *; [|done]. split; set_solver. }
  destruct st as [|x st]; [simpl; split; set_solver|]. cbn [dfs] in *.
  destruct (expand x) eqn:Hx.
  - pose proof (IH (x :: V) _ (searching_step V x st (stack_room st) Hs)) as IH'.
    rewrite take_ge in * by (by eapply small_room).
    destruct (dfs expand fuel _) as [v rest]. simpl in *. destruct (IH' He) as [Hst Hk].
    split; [set_solver|]. intros p c Hp Hc Hec. rewrite elem_of_cons in Hp.
    apply elem_of_cons. right. destruct Hp as [->|Hp]; [|by eapply Hk].
    apply Hst; [|done]. set_solver.
  - destruct (IH (x :: V) st) as [Hst Hk]; [by apply searching_skip|done|].
    split; [|done]. intros y [->|Hy]%elem_of_cons Hey; [congruence|by apply Hst].
Qed.
End facts.
End dfs.

(** ** The links of the table *)

(** The ids of the children of [p] among the first [n] entries, youngest first. *)
Fixpoint kids_below (hp : list cap_entry) (p : Z) (n : nat) : list Z :=
  match n with
  | O => []
  | S n => match hp !! n with
           | Some e => if decide (parent_cap_id (token e) = p)
                       then Z.of_nat n + 1 :: kids_below hp p n else kids_below hp p n
           | None => kids_below hp p n
           end
  end.

Definition kids_of (t : cap_table) (p : Z) : list Z :=
  if decide (p = 0) then [] else kids_below (heap t) p (length (heap t)).

Definition first_id (l : list Z) : Z := default 0 (head l).

Record tree_ok (t : cap_table) : Prop := {
  tr_parent : ∀ a e, heap t !! a = Some e → 0 ≤ parent_cap_id (token e) ≤ Z.of_nat a;
  tr_first : ∀ a e, heap t !! a = Some e →
    first_child_cap_id (token e) = first_id (kids_below (heap t) (Z.of_nat a + 1) (length (heap t)));
  tr_sibling : ∀ a e, heap t !! a = Some e → parent_cap_id (token e) ≠ 0 →
    next_sibling_cap_id (token e) = first_id (kids_below (heap t) (parent_cap_id (token e)) a) }.

Lemma elem_of_kids_below hp p n c :
  c ∈ kids_below hp p n ↔
    ∃ a e, c = Z.of_nat a + 1 ∧ (a < n)%nat ∧ hp !! a = Some e ∧ parent_cap_id (token e) = p.
Proof.
  induction n as [|n IH]; simpl.
  { split; [by intros ?%not_elem_of_nil|]. intros (a & e & _ & ? & _). lia. }
  assert ((∃ a e, c = Z.of_nat a + 1 ∧ (a < S n)%nat ∧ hp !! a = Some e ∧ parent_cap_id (token e) = p) ↔
    (∃ e, c = Z.of_nat n + 1 ∧ hp !! n = Some e ∧ parent_cap_id (token e) = p) ∨ c ∈ kids_below hp p n) as ->.
  { rewrite IH. split.
    - intros (a & e & ? & ? & ? & ?). destruct (decide (a = n)) as [->|]; [by left; eauto|].
      right. exists a, e. split_and!; [done|lia|done|done].
    - intros [(e & ? & ? & ?)|(a & e & ? & ? & ? & ?)]; [exists n, e|exists a, e]; split_and!; try done; lia. }
  destruct (hp !! n) as [e|] eqn:He; [case_decide|]; rewrite ?elem_of_cons; naive_solver.
Qed.

Lemma kids_below_nodup hp p n : NoDup (kids_below hp p n).
Proof.
  induction n as [|n IH]; simpl; [by apply list.NoDup_nil|].
  destruct (hp !! n); [case_decide|]; [|done|done]. apply list.NoDup_cons. split; [|done].
  rewrite elem_of_kids_below. intros (a & e & ? & ? & _). lia.
Qed.

(** The head of the list and the rest. *)
Lemma kids_below_cases hp p n :
  kids_below hp p n = [] ∨
  ∃ a e, (a < n)%nat ∧ hp !! a = Some e ∧ parent_cap_id (token e) = p ∧
    kids_below hp p n = Z.of_nat a + 1 :: kids_below hp p a.
Proof.
  induction n as [|n IH]; simpl; [by left|].
  assert (kids_below hp p n = [] ∨ ∃ a e, (a < S n)%nat ∧ hp !! a = Some e ∧
    parent_cap_id (token e) = p ∧ kids_below hp p n = Z.of_nat a + 1 :: kids_below hp p a) as IH'.
  { destruct IH as [?|(a & e & ? & ?)]; [by left|]. right. exists a, e. split; [lia|done]. }
  destruct (hp !! n) as [e|] eqn:He; [case_decide|]; [|done|done].
  right. exists n, e. split_and!; [lia|done..].
Qed.

Lemma kids_below_app hp e p n : (n ≤ length hp)%nat → kids_below (hp ++ [e]) p n = kids_below hp p n.
Proof.
  induction n as [|n IH]; intros Hn; [done|]. simpl. rewrite lookup_app_l by lia.
  by rewrite IH by lia.
Qed.

Lemma kids_below_alter hp f a p n :
  (∀ e, parent_cap_id (token (f e)) = parent_cap_id (token e)) →
  kids_below (alter f a hp) p n = kids_below hp p n.
Proof.
  intros Hf. induction n as [|n IH]; [done|]. simpl. rewrite IH.
  destruct (decide (n = a)) as [->|].
  - rewrite list_lookup_alter_eq. destruct (hp !! a); simpl; [|done]. by rewrite Hf.
  - by rewrite list_lookup_alter_ne.
Qed.

Lemma kids_forest t : tree_ok t → forest (kids_of t) (Z.of_nat (length (heap t))).
Proof.
  intros Ht. unfold kids_of. split.
  - intros p. case_decide; [by apply list.NoDup_nil|apply kids_below_nodup].
  - intros p c. case_decide; [by intros ?%not_elem_of_nil|].
    intros (a & e & -> & Ha & He & <-)%elem_of_kids_below. pose proof (tr_parent t Ht a e He). lia.
  - intros p q c. case_decide; [by intros ?%not_elem_of_nil|].
    case_decide; [by intros _ ?%not_elem_of_nil|].
    intros (a & e & -> & Ha & He & <-)%elem_of_kids_below (b & e' & ? & Hb & He' & <-)%elem_of_kids_below.
    replace b with a in * by lia. congruence.
Qed.

Section walk.
Context {C : CapConfig}.

(** Following the sibling links lists the children. *)
Lemma push_siblings_kids t room p n stack :
  table_ok t → tree_ok t → p ≠ 0 → (n ≤ length (heap t))%nat →
  push_siblings room t (first_id (kids_below (heap t) p n)) stack =
    reverse (take room (kids_below (heap t) p n)) ++ stack.
Proof.
  intros Hok Ht Hp. revert n stack. induction room as [|room IH]; intros n stack Hn; [done|].
  destruct (kids_below_cases (heap t) p n) as [->|(a & e & Ha & He & Hpe & ->)]; [done|].
  change (first_id (Z.of_nat a + 1 :: kids_below (heap t) p a)) with (Z.of_nat a + 1).
  cbn [push_siblings].
  rewrite decide_False by lia.
  rewrite (proj2 (find_by_id_spec t (Z.of_nat a + 1) a Hok)) by (split; [lia|done]). simpl.
  rewrite He. rewrite (tr_sibling t Ht a e He) by congruence. rewrite Hpe, IH by lia.
  by rewrite reverse_cons, <- app_assoc.
Qed.

(** Marking an entry leaves the tree alone. *)
Lemma tree_ok_update t a f :
  (∀ p, parent_cap_id (f p) = parent_cap_id p) →
  (∀ p, first_child_cap_id (f p) = first_child_cap_id p) →
  (∀ p, next_sibling_cap_id (f p) = next_sibling_cap_id p) →
  tree_ok t → tree_ok (update_token a f t).
Proof.
  intros Hp Hf Hs [Tp Tf Ts].
  assert (∀ b e, heap (update_token a f t) !! b = Some e → ∃ e0, heap t !! b = Some e0 ∧
    parent_cap_id (token e) = parent_cap_id (token e0) ∧
    first_child_cap_id (token e) = first_child_cap_id (token e0) ∧
    next_sibling_cap_id (token e) = next_sibling_cap_id (token e0)) as Hb.
  { intros b e He. simpl in He. destruct (decide (b = a)) as [->|].
    - rewrite list_lookup_alter_eq in He. destruct (heap t !! a) as [e0|]; simplify_eq/=.
      exists e0. by rewrite Hp, Hf, Hs.
    - rewrite list_lookup_alter_ne in He by done. eauto. }
  split; intros b e He; destruct (Hb b e He) as (e0 & He0 & E1 & E2 & E3); simpl;
    rewrite ?E1, ?E2, ?E3, ?length_alter, ?kids_below_alter by (intros; apply Hp); eauto.
Qed.

Lemma kids_of_update t a f p :
  (∀ q, parent_cap_id (f q) = parent_cap_id q) → kids_of (update_token a f t) p = kids_of t p.
Proof.
  intros Hp. unfold kids_of. simpl. rewrite length_alter, kids_below_alter; [done|]. intros; apply Hp.
Qed.
(** ** The walks as searches *)

Definition live (t : cap_table) (x : Z) : bool :=
  match kept t x with Some tok => bool_decide (revoked tok = 0) | None => false end.

Definition revoke_token (tok : uros_cap) : uros_cap := cap_sign cap_hmac_key (set_revoked 1 tok).

Definition mark_ids (v : list Z) (t : cap_table) : cap_table :=
  fold_left (λ t x, cap_table_mark_revoked cap_hmac_key (Z.to_nat (x - 1)) t) v t.

Lemma table_ok_mark t a : table_ok t → table_ok (cap_table_mark_revoked cap_hmac_key a t).
Proof. by apply table_ok_update. Qed.
Lemma tree_ok_mark t a : tree_ok t → tree_ok (cap_table_mark_revoked cap_hmac_key a t).
Proof. by apply tree_ok_update. Qed.
Lemma length_mark t a : length (heap (cap_table_mark_revoked cap_hmac_key a t)) = length (heap t).
Proof. apply length_alter. Qed.

Lemma mark_ids_ok v t :
  table_ok t → tree_ok t →
  table_ok (mark_ids v t) ∧ tree_ok (mark_ids v t) ∧
  length (heap (mark_ids v t)) = length (heap t) ∧ (∀ p, kids_of (mark_ids v t) p = kids_of t p).
Proof.
  revert t. induction v as [|x v IH]; intros t Hok Ht; [done|]. simpl.
  destruct (IH (cap_table_mark_revoked cap_hmac_key (Z.to_nat (x - 1)) t)) as (? & ? & Hl & Hk);
    [by apply table_ok_mark|by apply tree_ok_mark|].
  split_and!; [done|done|by rewrite Hl, length_mark|]. intros p. rewrite Hk. by apply kids_of_update.
Qed.

Lemma kept_mark_ids v t y :
  (∀ x, x ∈ v → 1 ≤ x) →
  kept (mark_ids v t) y = if decide (y ∈ v) then revoke_token <$> kept t y else kept t y.
Proof.
  revert t. induction v as [|x v IH]; intros t Hv.
  { rewrite decide_False by apply not_elem_of_nil. done. }
  simpl. rewrite IH by set_solver. unfold cap_table_mark_revoked. rewrite kept_update.
  assert (1 ≤ x) by (apply Hv; set_solver).
  replace (Z.of_nat (Z.to_nat (x - 1)) + 1) with x by lia.
  destruct (decide (y = x)) as [->|Hne].
  - rewrite (decide_True (P := x ∈ x :: v)) by set_solver.
    case_decide; [|done]. by destruct (kept t x).
  - destruct (decide (y ∈ v)).
    + by rewrite decide_True by set_solver.
    + by rewrite decide_False by set_solver.
Qed.

(** An id on the stack is the id of an entry. *)
Lemma find_in_range t x :
  table_ok t → 1 ≤ x ≤ Z.of_nat (length (heap t)) →
  ∃ e, cap_table_find_by_id x t = Some (Z.to_nat (x - 1)) ∧ heap t !! Z.to_nat (x - 1) = Some e ∧
    kept t x = Some (token e).
Proof.
  intros Hok Hx. destruct (lookup_lt_is_Some_2 (heap t) (Z.to_nat (x - 1))) as [e He]; [lia|].
  exists e. split_and!; [|done|].
  - apply find_by_id_spec; [done|]. split; lia.
  - unfold kept. rewrite decide_True by lia. by rewrite He.
Qed.

Section cascade.
Context (t0 : cap_table) (r : Z) (F : forest (kids_of t0) (Z.of_nat (length (heap t0))))
  (Hr : 1 ≤ r ≤ Z.of_nat (length (heap t0))).

(** A table that differs from [t0] only in marks. *)
Definition marked_from (t : cap_table) : Prop :=
  table_ok t ∧ tree_ok t ∧ length (heap t) = length (heap t0) ∧ ∀ p, kids_of t p = kids_of t0 p.

Lemma marked_from_mark t a : marked_from t → marked_from (cap_table_mark_revoked cap_hmac_key a t).
Proof.
  intros (? & ? & ? & Hk). split_and!; [by apply table_ok_mark|by apply tree_ok_mark|by rewrite length_mark|].
  intros p. rewrite <- Hk. by apply kids_of_update.
Qed.

(** What pushing the children of [x] does to the stack; the first child may
    have been read before the last mark. *)
Lemma push_children t t' x e room st :
  marked_from t → marked_from t' → heap t !! Z.to_nat (x - 1) = Some e → 1 ≤ x →
  push_siblings room t' (first_child_cap_id (token e)) st = reverse (take room (kids_of t0 x)) ++ st.
Proof.
  intros (Hok & Ht & Hl & Hk) (Hok' & Ht' & Hl' & Hk') He Hx. rewrite (tr_first t Ht _ e He).
  replace (Z.of_nat (Z.to_nat (x - 1)) + 1) with x by lia.
  assert (∀ u, kids_below (heap u) x (length (heap u)) = kids_of u x) as Hu.
  { intros u. unfold kids_of. by rewrite decide_False by lia. }
  rewrite Hu, Hk, <- Hk', <- Hu. by apply push_siblings_kids; [..|lia|].
Qed.

Lemma cascade_dfs fuel t V st n :
  marked_from t → searching (kids_of t0) r V st → (∀ y, y ∉ V → live t y = live t0 y) →
  cascade fuel t st n =
    let '(v, rest) := dfs (kids_of t0) (live t0) fuel st in (mark_ids v t, (n + length v)%nat, rest).
Proof.
  revert t V st n. induction fuel as [|fuel IH]; intros t V st n Hm Hs Hl.
  { simpl. by destruct st; rewrite Nat.add_0_r. }
  destruct st as [|x st]; [simpl; by rewrite Nat.add_0_r|]. cbn [cascade dfs].
  assert (1 ≤ x ≤ Z.of_nat (length (heap t0))) as Hx.
  { assert (desc (kids_of t0) r x) as Hd by (apply (se_desc _ _ _ _ Hs); set_solver).
    eapply desc_range in Hd; [|done|done]; lia. }
  pose proof Hm as (Hok & Ht & Hlen & Hk).
  destruct (find_in_range t x Hok) as (e & -> & He & Hkept); [lia|]. simpl. rewrite He. simpl.
  assert (x ∉ V) as HxV.
  { pose proof (se_nodup _ _ _ _ Hs) as Hnd. apply list.NoDup_app in Hnd as (_ & Hdisj & _). set_solver. }
  rewrite <- (Hl x HxV). unfold live at 1. rewrite Hkept.
  destruct (decide (revoked (token e) = 0)) as [H0|H0].
  - rewrite decide_False by lia. rewrite (bool_decide_eq_true_2 _ H0).
    rewrite (push_children t _ x e) by first [done | lia | by apply marked_from_mark].
    rewrite (IH _ (x :: V)).
    + destruct (dfs _ _ fuel _) as [v rest]. simpl. by rewrite Nat.add_succ_r.
    + by apply marked_from_mark.
    + by eapply searching_step.
    + intros y Hy. rewrite <- Hl by set_solver. unfold live, cap_table_mark_revoked.
      rewrite kept_update, decide_False; [done|]. apply not_elem_of_cons in Hy as [? _]. lia.
  - rewrite decide_True by done. rewrite (bool_decide_eq_false_2 _ H0).
    apply (IH _ (x :: V)); [done|by eapply searching_skip|set_solver].
Qed.

Lemma rewalk_dfs fuel t V st :
  marked_from t → searching (kids_of t0) r V st →
  rewalk fuel t st = dfs (kids_of t0) (λ _, true) fuel st.
Proof.
  intros Hm. revert V st. induction fuel as [|fuel IH]; intros V st Hs; [by destruct st|].
  destruct st as [|x st]; [done|]. cbn [rewalk dfs].
  assert (1 ≤ x ≤ Z.of_nat (length (heap t0))) as Hx.
  { assert (desc (kids_of t0) r x) as Hd by (apply (se_desc _ _ _ _ Hs); set_solver).
    eapply desc_range in Hd; [|done|done]; lia. }
  pose proof Hm as (Hok & Ht & Hlen & Hk).
  destruct (find_in_range t x Hok) as (e & -> & He & Hkept); [lia|]. simpl. rewrite He. simpl.
  rewrite (push_children t t x e) by (done || lia).
  rewrite (IH (x :: V)); [done|by eapply searching_step].
Qed.
End cascade.
End walk.

(** ** New tokens in the tree *)

Lemma kids_below_new hp e p :
  kids_below (hp ++ [e]) p (length (hp ++ [e])) =
    if decide (parent_cap_id (token e) = p) then Z.of_nat (length hp) + 1 :: kids_below hp p (length hp)
    else kids_below hp p (length hp).
Proof.
  rewrite length_app, Nat.add_1_r. simpl. rewrite lookup_app_r, Nat.sub_diag by lia. simpl.
  by rewrite kids_below_app by lia.
Qed.

(** No entry is a child of an id that is not handed out yet. *)
Lemma kids_below_fresh t n :
  tree_ok t → (n ≤ length (heap t))%nat → kids_below (heap t) (Z.of_nat (length (heap t)) + 1) n = [].
Proof.
  intros Ht Hn. destruct (kids_below_cases (heap t) (Z.of_nat (length (heap t)) + 1) n)
    as [?|(a & e & Ha & He & Hp & _)]; [done|]. pose proof (tr_parent t Ht a e He). lia.
Qed.

(** The links after appending [e] and pointing its parent's first-child link to
    it; [f] is the write to the entry at [a], which is not there for a token
    without parent. *)
Lemma tree_ok_append t e :
  tree_ok t → 0 ≤ parent_cap_id (token e) ≤ Z.of_nat (length (heap t)) →
  first_child_cap_id (token e) = 0 →
  (parent_cap_id (token e) ≠ 0 → next_sibling_cap_id (token e) =
    first_id (kids_below (heap t) (parent_cap_id (token e)) (length (heap t)))) →
  ∀ t', heap t' = heap t ++ [e] →
  (∀ a x, heap t' !! a = Some x → 0 ≤ parent_cap_id (token x) ≤ Z.of_nat a) ∧
  (∀ a x, heap t' !! a = Some x → Z.of_nat a + 1 ≠ parent_cap_id (token e) →
    first_child_cap_id (token x) = first_id (kids_below (heap t') (Z.of_nat a + 1) (length (heap t')))) ∧
  (∀ a x, heap t' !! a = Some x → parent_cap_id (token x) ≠ 0 →
    next_sibling_cap_id (token x) = first_id (kids_below (heap t') (parent_cap_id (token x)) a)).
Proof.
  intros Ht Hp Hf Hs t' ->.
  assert (∀ a x, (heap t ++ [e]) !! a = Some x →
    heap t !! a = Some x ∧ (a < length (heap t))%nat ∨ a = length (heap t) ∧ x = e) as Hcase.
  { intros a x Ha. rewrite lookup_app in Ha. destruct (heap t !! a) as [y|] eqn:Hy.
    - simplify_eq. left. split; [done|by eapply lookup_lt_Some].
    - apply list_lookup_singleton_Some in Ha as [Hz ->]. apply lookup_ge_None in Hy. right. split; [lia|done]. }
  split_and!; intros a x Ha; destruct (Hcase a x Ha) as [[Hx Hlt]|[-> ->]].
  - by apply (tr_parent t Ht).
  - lia.
  - intros Hne. rewrite kids_below_new, decide_False by lia. by apply (tr_first t Ht).
  - intros Hne. rewrite kids_below_new, decide_False by lia. by rewrite kids_below_fresh by (done || lia).
  - intros H0. rewrite kids_below_app by lia. by apply (tr_sibling t Ht).
  - intros H0. rewrite kids_below_app by lia. by apply Hs.
Qed.

Lemma tree_ok_acquire t tok snd :
  tree_ok t → parent_cap_id tok = 0 → first_child_cap_id tok = 0 →
  tree_ok (cap_table_insert tok snd (cap_table_alloc_id t).2).
Proof.
  intros Ht Hp Hf. set (t' := cap_table_insert _ _ _).
  edestruct (tree_ok_append t) with (t' := t') as (H1 & H2 & H3); [done|..|reflexivity|]; simpl; try lia; try done.
  split; [done| |done]. intros a x Ha. apply H2; [done|]. simpl. lia.
Qed.

Lemma tree_ok_derive `{C : CapConfig} t tok snd a pe :
  table_ok t → tree_ok t → heap t !! a = Some pe → parent_cap_id tok = Z.of_nat a + 1 →
  first_child_cap_id tok = 0 → next_sibling_cap_id tok = first_child_cap_id (token pe) →
  tree_ok (update_token a (λ p, cap_sign cap_hmac_key (set_first_child (Z.of_nat (length (heap t)) + 1) p))
    (cap_table_insert tok snd (cap_table_alloc_id t).2)).
Proof.
  intros Hok Ht Ha Hp Hf Hs. set (t' := cap_table_insert _ _ _).
  pose proof (lookup_lt_Some _ _ _ Ha) as Hlt.
  edestruct (tree_ok_append t) with (t' := t') as (H1 & H2 & H3); [done|..|reflexivity|]; simpl; try lia; try done.
  { intros _. rewrite Hs, Hp. by apply (tr_first t Ht). }
  set (f := λ p, cap_sign cap_hmac_key _).
  assert (∀ b x, heap (update_token a f t') !! b = Some x → ∃ y, heap t' !! b = Some y ∧
    parent_cap_id (token x) = parent_cap_id (token y) ∧
    next_sibling_cap_id (token x) = next_sibling_cap_id (token y) ∧
    first_child_cap_id (token x) =
      if decide (b = a) then Z.of_nat (length (heap t)) + 1 else first_child_cap_id (token y)) as Hb.
  { intros b x Hb. cbn [heap update_token] in Hb. destruct (decide (b = a)) as [->|].
    - rewrite list_lookup_alter_eq in Hb. destruct (heap t' !! a) as [y|]; [|done].
      injection Hb as <-. by exists y.
    - rewrite list_lookup_alter_ne in Hb by done. by exists x. }
  split; intros b x Hx; destruct (Hb b x Hx) as (y & Hy & E1 & E2 & E3); rewrite ?E1, ?E2, ?E3.
  - by apply H1.
  - cbn [heap update_token]. rewrite length_alter, kids_below_alter by done. case_decide as Hd.
    + subst b. unfold t'. simpl. rewrite kids_below_new. simpl. rewrite decide_True by done. done.
    + apply H2; [done|]. simpl. lia.
  - intros H0. cbn [heap update_token]. rewrite kids_below_alter by done. by apply H3.
Qed.
