(* ===== verification/CapRevoke.v ===== *)
(** * cap_server: what [cap_revoke] achieves

    The effect of a revocation on the table and on the subscribers, from the
    relation of its walks to the depth-first search of [CapTree]. *)

From S2P Require Import Prelude Mach CapTypes CapTable CapManifest CapServer CapTree.

Section revoke.
Context {E : MachEnv} {C : CapConfig}.
Implicit Types (t : cap_table) (s : cap_server).

(** ** The table *)

Definition revoked_by (t : cap_table) (id : Z) : list Z :=
  (dfs (kids_of t) (live t) (length (heap t)) [id]).1.

Lemma searching_start t id : searching (kids_of t) id [] [id].
Proof.
  split; simpl; [apply list.NoDup_singleton| | |by right].
  - intros y ->%list_elem_of_singleton. apply rtc_refl.
  - intros y ->%list_elem_of_singleton. by left.
Qed.

Lemma cascade_result t id :
  table_ok t → tree_ok t → 1 ≤ id ≤ Z.of_nat (length (heap t)) →
  cascade (length (heap t)) t [id] 0 = (mark_ids (revoked_by t id) t, length (revoked_by t id), []).
Proof.
  intros Hok Ht Hid. pose proof (kids_forest t Ht) as F. unfold revoked_by.
  rewrite (cascade_dfs t id F Hid _ t [] _ _) by (done || apply searching_start).
  pose proof (dfs_ends (kids_of t) _ id F Hid (live t) (length (heap t)) [] [id] (searching_start t id)) as He.
  destruct (dfs _ _ _ _) as [v rest]. simpl in *. by rewrite He by lia.
Qed.

Lemma revoked_by_desc t id y :
  tree_ok t → 1 ≤ id ≤ Z.of_nat (length (heap t)) → y ∈ revoked_by t id →
  desc (kids_of t) id y ∧ live t y = true.
Proof.
  intros Ht Hid Hy. pose proof (kids_forest t Ht) as F.
  destruct (dfs_sound (kids_of t) _ id F Hid (live t) _ [] [id] y (searching_start t id) Hy) as (? & ? & _). done.
Qed.

Lemma revoked_by_root t id :
  live t id = true → 1 ≤ id ≤ Z.of_nat (length (heap t)) → id ∈ revoked_by t id.
Proof.
  intros Hl Hid. unfold revoked_by. destruct (length (heap t)) eqn:Hn; [lia|]. cbn [dfs]. rewrite Hl.
  destruct (dfs _ _ _ _). by left.
Qed.

Lemma kept_after t id y :
  table_ok t → tree_ok t → 1 ≤ id ≤ Z.of_nat (length (heap t)) →
  kept (mark_ids (revoked_by t id) t) y =
    if decide (y ∈ revoked_by t id) then revoke_token <$> kept t y else kept t y.
Proof.
  intros Hok Ht Hid. apply kept_mark_ids. intros x Hx.
  apply revoked_by_desc in Hx as [Hd _]; [|done|done].
  eapply desc_range in Hd; [|by apply kids_forest|done]. lia.
Qed.

(** ** The subscribers *)

Definition is_notify (c : mach_call) : Prop :=
  match c with CapRevokeNotify _ _ => True | _ => False end.
#[global] Instance is_notify_dec c : Decision (is_notify c).
Proof. destruct c; apply _. Defined.

(** Dropping the subscriber at [i] moves the last one into its place. *)
Lemma take_insert_last (l : list port) i p :
  l !! i = Some p →
  ∃ q, take (length l - 1) (<[i := default MACH_PORT_NULL (l !! (length l - 1)%nat)]> l) = take i l ++ q ∧
    drop i l ≡ₚ p :: q.
Proof.
  intros Hi. destruct (exists_last (l := drop i l)) as (m & x & Hm).
  { intros Hd. apply lookup_lt_Some in Hi. apply (f_equal length) in Hd. rewrite length_drop in Hd. simpl in Hd. lia. }
  assert (l = take i l ++ m ++ [x]) as Hl by (rewrite <- Hm; by rewrite take_drop).
  assert (length (take i l) = i) as Hti.
  { rewrite length_take. apply lookup_lt_Some in Hi. lia. }
  assert (length l = i + length m + 1)%nat as Hlen.
  { rewrite Hl at 1. rewrite !length_app, Hti. simpl. lia. }
  assert (l !! (length l - 1)%nat = Some x) as ->.
  { rewrite Hlen. rewrite Hl at 1. rewrite app_assoc. apply list_lookup_middle. rewrite length_app, Hti. lia. }
  destruct m as [|y m].
  - exists []. simpl in *. split.
    + rewrite Hlen, app_nil_r. replace (i + 0 + 1 - 1)%nat with i by lia. by rewrite take_insert_ge.
    + rewrite Hm. rewrite Hl in Hi. rewrite lookup_app_r in Hi by lia.
      rewrite Hti, Nat.sub_diag in Hi. by simplify_eq/=.
  - exists (x :: m). rewrite Hl in Hi. rewrite lookup_app_r in Hi by lia.
    rewrite Hti, Nat.sub_diag in Hi. simplify_eq/=. split.
    + rewrite Hl at 2. rewrite insert_app_r_alt by lia. rewrite Hti, Nat.sub_diag. simpl.
      rewrite Hlen. simpl. change (x :: m ++ [x]) with ((x :: m) ++ [x]). rewrite app_assoc.
      rewrite take_app_length'; [done|]. rewrite length_app, Hti. simpl. lia.
    + rewrite Hm. simpl. constructor. rewrite (comm (++)). done.
Qed.

Definition notify (id : Z) (p : port) : mach_call := CapRevokeNotify p id.

(** The loop from index [i]: the subscribers from there on are told once each;
    those that fail are dropped and their right is released. *)
Lemma fanout_loop_spec fuel i id s l :
  (i ≤ length (revoke_subscribers s))%nat → (length (revoke_subscribers s) - i ≤ fuel)%nat →
  ∃ left dead tr,
    fanout_loop fuel i id s l =
      (tt, set_subscribers (take i (revoke_subscribers s) ++ left) s, l ++ tr) ∧
    drop i (revoke_subscribers s) ≡ₚ left ++ dead ∧
    filter is_notify tr ≡ₚ notify id <$> drop i (revoke_subscribers s) ∧
    ∀ p, p ∈ dead → MachPortDeallocate p ∈ tr.
Proof.
  revert i s l. induction fuel as [|fuel IH]; intros i s l Hi Hf.
  { exists [], [], []. rewrite (drop_ge _ i), (take_ge _ i) by lia. rewrite !app_nil_r. simpl.
    split_and!; [by destruct s|done|done|]. by intros p ?%not_elem_of_nil. }
  cbn [fanout_loop]. mrun. destruct (revoke_subscribers s !! i) as [p|] eqn:Hp; [mrun; case_decide as Hkr|].
  - destruct (take_insert_last _ _ _ Hp) as (q & Htake & Hperm).
    assert (length (take i (revoke_subscribers s)) = i) as Hti by (rewrite length_take; lia).
    unfold revoke_subscribers_remove_at. mrun. rewrite Hp. mrun. rewrite Htake.
    destruct (IH i (set_subscribers (take i (revoke_subscribers s) ++ q) s)
      ((l ++ [CapRevokeNotify p id]) ++ [MachPortDeallocate p])) as (left & dead & tr & -> & Hd & Hn & Hdead).
    { simpl. rewrite length_app. lia. }
    { simpl. rewrite length_app. apply Permutation_length in Hperm. rewrite length_drop in Hperm. simpl in Hperm. lia. }
    simpl in *. rewrite drop_app_length' in Hd, Hn by done. rewrite take_app_length' by done.
    exists left, (p :: dead), (CapRevokeNotify p id :: MachPortDeallocate p :: tr).
    split_and!; [by rewrite <- !app_assoc| | |].
    + rewrite Hperm, Hd. by rewrite Permutation_middle.
    + rewrite Hperm. rewrite filter_cons_True by done. rewrite filter_cons_False by (by intros []).
      simpl. by rewrite Hn.
    + intros x [->|Hx]%elem_of_cons; [by right; left|]. right; right. by apply Hdead.
  - destruct (IH (S i) s (l ++ [CapRevokeNotify p id])) as (left & dead & tr & -> & Hd & Hn & Hdead).
    { apply lookup_lt_Some in Hp. lia. } { lia. }
    exists (p :: left), dead, (CapRevokeNotify p id :: tr).
    rewrite (drop_S _ p i Hp). rewrite (take_S_r _ i p Hp), <- !app_assoc.
    split_and!; [done|by rewrite Hd| |].
    + rewrite filter_cons_True by done. simpl. by rewrite Hn.
    + intros x Hx. right. by apply Hdead.
  - apply lookup_ge_None in Hp. exists [], [], []. rewrite (drop_ge _ i), (take_ge _ i) by lia.
    rewrite !app_nil_r. simpl. split_and!; [by destruct s|done|done|]. by intros x ?%not_elem_of_nil.
Qed.

Lemma fanout_spec id s l :
  ∃ left dead tr,
    fanout_revoke_notify id s l = (tt, set_subscribers left s, l ++ tr) ∧
    revoke_subscribers s ≡ₚ left ++ dead ∧
    filter is_notify tr ≡ₚ notify id <$> revoke_subscribers s ∧
    ∀ p, p ∈ dead → MachPortDeallocate p ∈ tr.
Proof.
  unfold fanout_revoke_notify. mrun.
  destruct (fanout_loop_spec (length (revoke_subscribers s)) 0 id s l) as (left & dead & tr & H); [lia|lia|].
  exists left, dead, tr. exact H.
Qed.

Lemma fanouts_spec ids s l :
  ∃ left dead tr,
    mfor fanout_revoke_notify ids s l = (tt, set_subscribers left s, l ++ tr) ∧
    revoke_subscribers s ≡ₚ left ++ dead ∧
    (∀ p y, p ∈ left → y ∈ ids → notify y p ∈ tr) ∧
    (∀ p y, notify y p ∈ tr → y ∈ ids) ∧
    ∀ p, p ∈ dead → MachPortDeallocate p ∈ tr.
Proof.
  revert s l. induction ids as [|y ids IH]; intros s l.
  { exists (revoke_subscribers s), [], []. rewrite !app_nil_r. split_and!; [by destruct s|done|..];
      intros; set_solver. }
  destruct (fanout_spec y s l) as (left & dead & tr & Hr & Hperm & Hn & Hdead).
  destruct (IH (set_subscribers left s) (l ++ tr)) as (left' & dead' & tr' & Hr' & Hperm' & Hn' & Ho' & Hdead').
  assert (∀ p x, notify x p ∈ tr ↔ x = y ∧ p ∈ revoke_subscribers s) as Htr.
  { intros p x. assert (notify x p ∈ tr ↔ notify x p ∈ filter is_notify tr) as ->.
    { rewrite list_elem_of_filter. naive_solver. }
    rewrite Hn, list_elem_of_fmap. unfold notify. naive_solver. }
  exists left', (dead ++ dead'), (tr ++ tr'). cbn [mfor]. rewrite (run_known _ _ _ _ _ _ _ Hr), Hr'.
  simpl in Hperm'. rewrite app_assoc. split_and!; [done| | | |].
  - rewrite Hperm, Hperm', <- app_assoc, (comm (++) dead'). done.
  - intros p x Hp [->|Hx]%elem_of_cons; apply elem_of_app.
    + left. apply Htr. split; [done|]. rewrite Hperm, Hperm'. set_solver.
    + right. by apply Hn'.
  - intros p x [Hx|Hx]%elem_of_app; apply elem_of_cons; [left; by apply Htr in Hx as [-> _]|right; by eapply Ho'].
  - intros p [Hp|Hp]%elem_of_app; apply elem_of_app; [left|right]; by auto.
Qed.

(** ** The handler *)

Definition walked (t : cap_table) (id : Z) : list Z :=
  (dfs (kids_of t) (λ _, true) (length (heap t)) [id]).1.

(** The outcome for a known id. *)
Lemma revoke_run id s l :
  table_ok (table s) → tree_ok (table s) → 1 ≤ id ≤ Z.of_nat (length (heap (table s))) →
  let t := table s in
  ∃ left dead tr,
    cap_revoke id s l =
      (KERN_SUCCESS, set_subscribers left (set_table (mark_ids (revoked_by t id) t) s), l ++ tr) ∧
    revoke_subscribers s ≡ₚ left ++ dead ∧
    (∀ p y, p ∈ left → live t id = true → y ∈ walked t id → notify y p ∈ tr) ∧
    (∀ p y, notify y p ∈ tr → y ∈ walked t id) ∧
    ∀ p, p ∈ dead → MachPortDeallocate p ∈ tr.
Proof.
  intros Hok Ht Hid. cbv zeta. unfold cap_revoke. mrun.
  destruct (find_in_range _ _ Hok Hid) as (e & -> & He & Hk).
  rewrite cascade_result by done. mrun. case_decide as Hn.
  - destruct (mark_ids_ok (revoked_by (table s) id) (table s) Hok Ht) as (Hok' & Ht' & Hl' & Hkids').
    rewrite (rewalk_dfs (table s) id (kids_forest _ Ht) Hid _ _ []) by (done || apply searching_start).
    destruct (fanouts_spec (walked (table s) id)
      (set_table (mark_ids (revoked_by (table s) id) (table s)) s) l) as (left & dead & tr & Hr & Hp & Hn1 & Hn2 & Hd).
    exists left, dead, tr. rewrite (run_known _ _ _ _ _ _ _ Hr). split_and!; try done. intros; by apply Hn1.
  - exists (revoke_subscribers s), [], []. rewrite !app_nil_r. split_and!; [by destruct s|done|..]; try set_solver.
    intros p y Hp Hlive _. destruct Hn. split; [intros Hs; rewrite Hs in Hp; by apply not_elem_of_nil in Hp|].
    pose proof (revoked_by_root _ _ Hlive Hid) as Hin. intros H0. apply nil_length_inv in H0.
    rewrite H0 in Hin. by apply not_elem_of_nil in Hin.
Qed.

(** Entries whose parent is revoked are revoked. *)
Definition down_closed (t : cap_table) : Prop :=
  ∀ p c, c ∈ kids_of t p → live t c = true → live t p = true.

Lemma revoked_by_exact t id y :
  table_ok t → tree_ok t → 1 ≤ id ≤ Z.of_nat (length (heap t)) → small (kids_of t) id →
  y ∈ revoked_by t id ↔ live t id = true ∧ reach (kids_of t) (live t) id y.
Proof.
  intros Hok Ht Hid Hsm. pose proof (kids_forest t Ht) as F. split.
  - intros (z & ->%list_elem_of_singleton & ? & ?)%dfs_from_stack. done.
  - intros [Hl Hreach]. revert y Hreach. apply (rtc_ind_r (λ y, y ∈ revoked_by t id)).
    + by apply revoked_by_root.
    + intros p c _ [Hc Hlc] Hp.
      destruct (dfs_complete (kids_of t) _ id F Hid (live t) (length (heap t)) [] [id] Hsm (searching_start t id))
        as [_ Hk]; [|by apply (Hk p)].
      apply (dfs_ends (kids_of t) _ id F Hid (live t) _ []); [apply searching_start|simpl; lia].
Qed.

Lemma walked_exact t id y :
  table_ok t → tree_ok t → 1 ≤ id ≤ Z.of_nat (length (heap t)) → small (kids_of t) id →
  y ∈ walked t id ↔ desc (kids_of t) id y.
Proof.
  intros Hok Ht Hid Hsm. pose proof (kids_forest t Ht) as F. split.
  - intros (z & ->%list_elem_of_singleton & _ & Hr)%dfs_from_stack. by apply reach_desc in Hr.
  - destruct (dfs_complete (kids_of t) _ id F Hid (λ _, true) (length (heap t)) [] [id] Hsm (searching_start t id))
      as [Hst Hk].
    { apply (dfs_ends (kids_of t) _ id F Hid _ _ []); [apply searching_start|simpl; lia]. }
    revert y. apply (rtc_ind_r (λ y, y ∈ walked t id)).
    + apply Hst; [by left|done].
    + intros p c _ Hc Hp. by apply (Hk p).
Qed.

Lemma live_after t id y :
  table_ok t → tree_ok t → 1 ≤ id ≤ Z.of_nat (length (heap t)) →
  live (mark_ids (revoked_by t id) t) y = live t y && negb (bool_decide (y ∈ revoked_by t id)).
Proof.
  intros Hok Ht Hid. unfold live. rewrite kept_after by done. case_decide as Hy.
  - rewrite (bool_decide_eq_true_2 _ Hy), andb_false_r. by destruct (kept t y).
  - by rewrite (bool_decide_eq_false_2 _ Hy), andb_true_r.
Qed.

(** Along a chain of live tokens. *)
Lemma down_closed_reach t id y :
  down_closed t → desc (kids_of t) id y → live t y = true →
  live t id = true ∧ reach (kids_of t) (live t) id y.
Proof.
  intros Hdc Hd. revert y Hd. apply (rtc_ind_r (λ y, live t y = true → live t id = true ∧ reach _ _ id y)).
  - intros Hl. split; [done|apply rtc_refl].
  - intros p c _ Hc IH Hl. destruct (IH (Hdc p c Hc Hl)) as [? ?]. split; [done|]. by eapply rtc_r.
Qed.

(** C39. Both walks of [cap_revoke] end, whatever the shape of the delegation tree,
    also when their stack overflows: after as many rounds as the table has entries
    the stack is empty, for the walk that marks and for the walk that notifies. *)
Theorem revoke_walks_end t id :
  table_ok t → tree_ok t → 1 ≤ id ≤ Z.of_nat (length (heap t)) →
  let '(t', _, rest) := cascade (length (heap t)) t [id] 0 in
  rest = [] ∧ (rewalk (length (heap t)) t' [id]).2 = [].
Proof.
  intros Hok Ht Hid. rewrite cascade_result by done. split; [done|].
  destruct (mark_ids_ok (revoked_by t id) t Hok Ht) as (Hok' & Ht' & Hl' & Hkids').
  rewrite (rewalk_dfs t id (kids_forest _ Ht) Hid _ _ []) by (done || apply searching_start).
  eapply dfs_ends; [by apply kids_forest|exact Hid|apply searching_start|simpl; lia].
Qed.

(** C23. [cap_revoke] on a token with at most seventeen proper descendants.  It
    succeeds; the tokens that become revoked are exactly those that are reached
    from the given one through tokens that were not yet revoked, and no other
    token of the table is changed.  If before the call every token derived from a
    revoked one was revoked, then after it the whole subtree is revoked, and the
    same holds of the table again. *)
Theorem revoke_subtree id s l :
  table_ok (table s) → tree_ok (table s) → 1 ≤ id ≤ Z.of_nat (length (heap (table s))) →
  small (kids_of (table s)) id →
  let t := table s in let t' := table (post (cap_revoke id s l)) in
  res (cap_revoke id s l) = KERN_SUCCESS ∧
  (∀ y, live t id = true → reach (kids_of t) (live t) id y → kept t' y = revoke_token <$> kept t y) ∧
  (∀ y, ¬ (live t id = true ∧ reach (kids_of t) (live t) id y) → kept t' y = kept t y) ∧
  (down_closed t → down_closed t' ∧ ∀ y, desc (kids_of t) id y → live t' y = false).
Proof.
  intros Hok Ht Hid Hsm. destruct (revoke_run id s l Hok Ht Hid) as (left & dead & tr & -> & _).
  unfold res, post; simpl. pose proof (λ y, revoked_by_exact (table s) id y Hok Ht Hid Hsm) as Hex.
  split_and!; [done|..].
  - intros y Hl Hr. rewrite kept_after by done. rewrite decide_True; [done|]. by apply Hex.
  - intros y Hn. rewrite kept_after by done. rewrite decide_False; [done|]. by rewrite Hex.
  - intros Hdc. assert (∀ y, live (mark_ids (revoked_by (table s) id) (table s)) y = true ↔
      live (table s) y = true ∧ ¬ desc (kids_of (table s)) id y) as Hlive.
    { intros y. rewrite live_after by done. rewrite andb_true_iff, negb_true_iff, bool_decide_eq_false, Hex.
      split; intros [Hl Hn]; (split; [done|]); intros Hd; apply Hn.
      - by apply down_closed_reach.
      - by destruct Hd as [_ ?%reach_desc]. }
    split.
    + intros p c. destruct (mark_ids_ok (revoked_by (table s) id) (table s) Hok Ht) as (_ & _ & _ & ->).
      intros Hc. rewrite !Hlive. intros [Hl Hn]. split; [by apply (Hdc p c)|]. intros Hd. apply Hn.
      by eapply rtc_r.
    + intros y Hd. apply not_true_is_false. rewrite Hlive. tauto.
Qed.

(** In the same situation every resource server learns what was revoked:
    when the call revoked the given token, each subscriber that is still
    registered afterwards has been sent [cap_revoke_notify] for the token and for
    every token below it; only tokens of that subtree are reported; and a
    subscriber that was removed has had its send right released. *)
Theorem revoke_notifies id s l :
  table_ok (table s) → tree_ok (table s) → 1 ≤ id ≤ Z.of_nat (length (heap (table s))) →
  small (kids_of (table s)) id → live (table s) id = true →
  let s' := post (cap_revoke id s l) in
  ∃ dead tr,
    trace (cap_revoke id s l) = l ++ tr ∧
    revoke_subscribers s ≡ₚ revoke_subscribers s' ++ dead ∧
    (∀ p y, p ∈ revoke_subscribers s' → desc (kids_of (table s)) id y → CapRevokeNotify p y ∈ tr) ∧
    (∀ p y, CapRevokeNotify p y ∈ tr → desc (kids_of (table s)) id y) ∧
    (∀ p, p ∈ dead → MachPortDeallocate p ∈ tr).
Proof.
  intros Hok Ht Hid Hsm Hl.
  destruct (revoke_run id s l Hok Ht Hid) as (left & dead & tr & -> & Hp & Hn1 & Hn2 & Hd).
  pose proof (λ y, walked_exact (table s) id y Hok Ht Hid Hsm) as Hex.
  exists dead, tr. unfold post, trace; simpl. split_and!; try done.
  - intros p y Hpl Hy. apply Hn1; [done|done|]. by apply Hex.
  - intros p y Hy. apply Hex. by eapply Hn2.
Qed.

(** [cap_verify] in terms of the token kept for the id. *)
Lemma cap_verify_kept buf op rid s s' :
  table_ok (table s) → table_ok (table s') →
  kept (table s') (cap_id (token_of_bytes buf)) = kept (table s) (cap_id (token_of_bytes buf)) →
  cap_verify buf op rid s' = cap_verify buf op rid s.
Proof.
  intros Hok Hok' Hk. unfold cap_verify.
  pose proof (find_by_id_kept _ (cap_id (token_of_bytes buf)) Hok) as H1.
  pose proof (find_by_id_kept _ (cap_id (token_of_bytes buf)) Hok') as H2.
  repeat (case_match; [done|]). generalize dependent (cap_id (token_of_bytes buf)). intros id Hk H1 H2.
  destruct (cap_table_find_by_id id (table s)) as [a|], (cap_table_find_by_id id (table s')) as [a'|];
    cbn [mbind option_bind].
  - destruct H1 as (e & -> & K1 & _), H2 as (e' & -> & K2 & _). rewrite Hk, K1 in K2. injection K2 as K2. by rewrite K2.
  - destruct H1 as (e & _ & K1 & _). congruence.
  - destruct H2 as (e & _ & K2 & _). congruence.
  - done.
Qed.

Lemma missed_child t id y :
  tree_ok t → 1 ≤ id ≤ Z.of_nat (length (heap t)) → y ∈ drop 17 (kids_of t id) → y ∉ revoked_by t id.
Proof.
  intros Ht Hid Hy Hin. pose proof (kids_forest _ Ht) as F.
  assert (y ∈ kids_of t id) as Hk by (rewrite <- (take_drop 17); set_solver).
  unfold revoked_by in Hin. destruct (length (heap t)) as [|n] eqn:Hn; [lia|]. cbn [dfs] in Hin.
  destruct (live t id); [|by destruct n; apply not_elem_of_nil in Hin].
  destruct (dfs _ _ _ _) as [v rest] eqn:Hd. apply elem_of_cons in Hin as [->|Hin].
  { apply (kids_range _ _ F) in Hk. lia. }
  assert (y ∈ (v, rest).1) as Hin' by done. rewrite <- Hd in Hin'.
  apply dfs_from_stack in Hin' as (z & Hz & _ & Hzy). rewrite app_nil_r, elem_of_reverse in Hz.
  change (stack_room []) with 17%nat in Hz.
  assert (NoDup (take 17 (kids_of t id) ++ drop 17 (kids_of t id))) as Hnd by (rewrite take_drop; apply F).
  apply list.NoDup_app in Hnd as (_ & Hdisj & _).
  assert (z ∈ kids_of t id) as Hzk by (rewrite <- (take_drop 17); set_solver).
  apply (kids_range _ _ F) in Hzk. apply reach_desc in Hzy. apply rtc_inv_r in Hzy as [<-|(p & Hp & Hc)].
  - by apply (Hdisj z).
  - rewrite (kids_parent _ _ F p id y Hc Hk) in Hp.
    eapply desc_range in Hp; [|done|lia]. lia.
Qed.

(** The walk of [cap_revoke] has room for seventeen ids.  When a token has
    more children than that, the older ones are not pushed: the revocation
    succeeds, but the entries of those children are as before, and [cap_verify]
    gives the same answer for their tokens as before the revocation. *)
Theorem revoke_misses_children id s l y :
  table_ok (table s) → tree_ok (table s) → 1 ≤ id ≤ Z.of_nat (length (heap (table s))) →
  y ∈ drop 17 (kids_of (table s) id) →
  let s' := post (cap_revoke id s l) in
  res (cap_revoke id s l) = KERN_SUCCESS ∧
  kept (table s') y = kept (table s) y ∧
  ∀ buf op rid, cap_id (token_of_bytes buf) = y → cap_verify buf op rid s' = cap_verify buf op rid s.
Proof.
  intros Hok Ht Hid Hy. destruct (revoke_run id s l Hok Ht Hid) as (left & dead & tr & -> & _).
  unfold res, post; simpl. pose proof (missed_child _ _ _ Ht Hid Hy) as Hm.
  assert (kept (mark_ids (revoked_by (table s) id) (table s)) y = kept (table s) y) as Hk.
  { rewrite kept_after by done. by rewrite decide_False. }
  split_and!; [done|done|]. intros buf op rid <-.
  apply cap_verify_kept; [done|by apply mark_ids_ok|done].
Qed.
End revoke.
