(* ===== verification/CapSystem.v ===== *)
(** * cap_server as a whole

    The message loop ([cap_demux] in front of the dispatcher), the states it can
    reach from [main], and what holds in all of them.  The clients may present
    any bytes; what is assumed of them is that they cannot compute a signature
    ([authentic]): a token that carries a correct HMAC is one that the server
    has signed before. *)

From S2P Require Import Prelude Mach CapTypes CapTable CapManifest CapServer CapTree CapRevoke.

(** The requests of [cap_server.defs]. *)
Inductive cap_msg :=
  | MAcquire (rtype rid ops lifetime_ms token_len : Z)
  | MDerive (parent_buf : list Z) (reduced_ops lifetime_ms child_len : Z)
  | MRevoke (cap_id : Z)
  | MSubscribe (notify : port)
  | MProvision (task_port : port) (manifest_buf : list Z)
  | MVerify (token_buf : list Z) (op rid : Z).

Section system.
Context {E : MachEnv} {C : CapConfig}.
Implicit Types (t : cap_table) (s : cap_server) (tok : uros_cap).

(** The dispatcher: the return code and the out words of the reply. *)
Definition cap_server_server (m : cap_msg) : M cap_server (Z * list Z) :=
  match m with
  | MAcquire rtype rid ops ms len => cap_acquire rtype rid ops ms len
  | MDerive buf ops ms len => cap_derive buf ops ms len
  | MRevoke id => kr ← cap_revoke id; mret (kr, [])
  | MSubscribe p => kr ← cap_subscribe_revoke p; mret (kr, [])
  | MProvision tp buf => '(kr, p) ← cap_provision_task tp buf; mret (kr, [p])
  | MVerify buf op rid => s ← get; mret (cap_verify buf op rid s, [])
  end.

(** [cap_demux]: remember on which port the request arrived. *)
Definition cap_demux (local : port) (m : cap_msg) : M cap_server (Z * list Z) :=
  modify (set_local_port local);;
  r ← cap_server_server m;
  modify (set_local_port MACH_PORT_NULL);;
  mret r.

(** ** Reachable states *)

(** The tokens in the table; all of them carry a signature of the server. *)
Definition tokens (t : cap_table) : list uros_cap := token <$> heap t.

(** The C types of the arguments. *)
Definition wf_msg (m : cap_msg) : Prop :=
  match m with
  | MAcquire rtype rid ops _ _ => is_u32 rtype ∧ is_u64 rid ∧ is_u64 ops
  | MDerive buf ops _ _ => Forall is_u8 buf ∧ is_u64 ops
  | MVerify buf op rid => Forall is_u8 buf ∧ is_u64 op ∧ is_u64 rid
  | MProvision _ buf => Forall is_u8 buf
  | _ => True
  end.

Definition authentic_buf (G : list uros_cap) (buf : list Z) : Prop :=
  cap_verify_hmac cap_hmac_key (token_of_bytes buf) = true → token_of_bytes buf ∈ G.

Definition authentic (G : list uros_cap) (m : cap_msg) : Prop :=
  match m with
  | MDerive buf _ _ _ | MVerify buf _ _ => authentic_buf G buf
  | _ => True
  end.

(** [reachable s G l]: after some requests the server is in state [s], [G] are
    the tokens it has signed so far, and [l] is the history of its Mach calls.
    Ids are [uint64_t]; a run is followed until they are used up. *)
Inductive reachable : cap_server → list uros_cap → list mach_call → Prop :=
  | reach_init l : reachable cap_server_init [] l
  | reach_msg s G l local m :
      reachable s G l → wf_msg m → authentic G m →
      Z.of_nat (length (heap (table s))) + 2 < 2 ^ 64 →
      reachable (post (cap_demux local m s l)) (G ++ tokens (table (post (cap_demux local m s l))))
        (trace (cap_demux local m s l)).

(** ** The changes to the table *)

Inductive issue_step (G : list uros_cap) (t : cap_table) : cap_table → Prop :=
  | step_same : issue_step G t t
  | step_acquire rtype rid ops :
      is_u32 rtype → is_u64 rid → is_u64 ops →
      issue_step G t (cap_table_insert (cap_sign cap_hmac_key (fresh_token (next_cap_id t) rtype rid ops))
        MACH_PORT_NULL (cap_table_alloc_id t).2)
  | step_derive p a pe ops :
      p ∈ G → revoked p = 0 → delegable p ≠ 0 → depth p + 1 ≤ CAP_MAX_DEPTH →
      mask_subset ops (allowed_ops p) = true → is_u64 ops →
      heap t !! a = Some pe → cap_id p = Z.of_nat a + 1 → revoked (token pe) = 0 →
      issue_step G t
        (update_token a (λ p, cap_sign cap_hmac_key (set_first_child (next_cap_id t) p))
          (cap_table_insert (cap_sign cap_hmac_key
              (derived_token (next_cap_id t) ops (first_child_cap_id (token pe)) p))
            MACH_PORT_NULL (cap_table_alloc_id t).2))
  | step_revoke id :
      1 ≤ id ≤ Z.of_nat (length (heap t)) → issue_step G t (mark_ids (revoked_by t id) t).

Lemma acquire_table rtype rid ops ms len s l :
  is_u32 rtype → is_u64 rid → is_u64 ops → ∀ G,
  issue_step G (table s) (table (post (cap_acquire rtype rid ops ms len s l))).
Proof.
  intros Hr Hi Ho G. unfold cap_acquire. case_decide; [apply step_same|]. cbn [negb policy_allows_v1]. mrun.
  destruct (negb _); [apply step_same|]. mrun. case_decide; [apply step_same|].
  unfold cap_table_alloc_id. mrun. by apply step_acquire.
Qed.

Lemma derive_table buf ops ms len s l G :
  is_u64 ops → authentic_buf G buf → table_ok (table s) →
  issue_step G (table s) (table (post (cap_derive buf ops ms len s l))).
Proof.
  intros Ho Ha Hok. unfold cap_derive. do 2 (case_decide; [apply step_same|]). cbv zeta.
  unfold authentic_buf in Ha. generalize dependent (token_of_bytes buf). intros p Ha.
  destruct (cap_verify_hmac _ p); cbn [negb]; [|apply step_same]. specialize (Ha eq_refl).
  do 3 (case_decide; [apply step_same|]).
  destruct (mask_subset ops (allowed_ops p)) eqn:Hm; cbn [negb]; [|apply step_same]. mrun.
  pose proof (find_by_id_kept _ (cap_id p) Hok) as Hf.
  destruct (cap_table_find_by_id (cap_id p) (table s)) as [a|]; [|apply step_same].
  destruct Hf as (pe & He & _ & Hid). cbn [mbind option_bind]. rewrite He. cbn [fmap option_fmap option_map].
  case_decide; [apply step_same|]. mrun. case_decide; [apply step_same|].
  unfold cap_table_alloc_id. mrun. apply step_derive; try done; try lia; by apply dec_stable.
Qed.

Lemma demux_run local m s l :
  let r := cap_server_server m (set_local_port local s) l in
  cap_demux local m s l = (res r, set_local_port MACH_PORT_NULL (post r), trace r).
Proof.
  cbv zeta. unfold cap_demux, mbind, M_bind, modify. cbn beta iota.
  by destruct (cap_server_server m (set_local_port local s) l) as [[r s'] l'].
Qed.

Lemma bind_ret_post {A B} (m : M cap_server A) (f : A → B) s l :
  post ((m ≫= λ a, mret (f a)) s l) = post (m s l).
Proof. unfold mbind, M_bind, post. by destruct (m s l) as [[a s'] l']. Qed.

Lemma revoke_unknown id s l :
  table_ok (table s) → ¬ (1 ≤ id ≤ Z.of_nat (length (heap (table s)))) →
  cap_revoke id s l = (CAP_ERR_INVALID_TOKEN, s, l).
Proof.
  intros Hok Hid. unfold cap_revoke. mrun.
  destruct (cap_table_find_by_id id (table s)) as [a|] eqn:Hf; [|done].
  apply find_by_id_spec in Hf as [? ?]; [lia|done].
Qed.

Lemma subscribe_run p s l :
  post (cap_subscribe_revoke p s l) = s ∨
  post (cap_subscribe_revoke p s l) = set_subscribers (revoke_subscribers s ++ [p]) s ∧
    p ≠ MACH_PORT_NULL ∧ (p ∉ revoke_subscribers s) ∧
    (length (revoke_subscribers s) < CAP_MAX_REVOKE_SUBSCRIBERS)%nat.
Proof.
  unfold cap_subscribe_revoke. case_decide; [by left|]. mrun.
  case_decide; [by left|]. case_decide; [by left|]. right. split_and!; [done|done|done|lia].
Qed.

Lemma provision_run tp buf s l :
  post (cap_provision_task tp buf s l) = s ∨
  ∃ p l', post (cap_provision_task tp buf s l) =
    set_manifests (post (cap_manifest_table_install p buf (manifests s) l')) s.
Proof.
  unfold cap_provision_task. cbv zeta. case_decide; [by left|]. mrun. case_decide; [by left|].
  mrun. case_decide; [by left|]. rewrite run_zoom.
  destruct (cap_manifest_table_install _ _ _ _) as [[vrc g] l2] eqn:Hi. right.
  eexists _, _. rewrite Hi. unfold res, post, trace; cbn [fst snd]. case_decide; [done|].
  mrun. by case_decide.
Qed.

Lemma demux_table local m s l G :
  wf_msg m → authentic G m → table_ok (table s) → tree_ok (table s) →
  issue_step G (table s) (table (post (cap_demux local m s l))).
Proof.
  intros Hwf Hau Hok Ht. rewrite demux_run. unfold post at 1. cbn [fst snd table set_local_port].
  change (table s) with (table (set_local_port local s)) in Hok, Ht |- * at 1.
  generalize dependent (set_local_port local s). clear s. intros s Hok Ht. destruct m; cbn [cap_server_server].
  - destruct Hwf as (? & ? & ?). by apply acquire_table.
  - destruct Hwf as (? & ?). by apply derive_table.
  - rewrite (bind_ret_post (cap_revoke cap_id) (λ kr, (kr, []))).
    destruct (decide (1 ≤ cap_id ≤ Z.of_nat (length (heap (table s))))) as [Hid|Hid].
    + destruct (revoke_run cap_id s l Hok Ht Hid) as (left & dead & tr & -> & _). by apply step_revoke.
    + rewrite revoke_unknown by done. apply step_same.
  - rewrite (bind_ret_post (cap_subscribe_revoke notify) (λ kr, (kr, []))).
    destruct (subscribe_run notify s l) as [->|[-> _]]; apply step_same.
  - replace (post _) with (post (cap_provision_task task_port manifest_buf s l)).
    + destruct (provision_run task_port manifest_buf s l) as [->|(p & l' & ->)]; apply step_same.
    + unfold mbind, M_bind, post. by destruct (cap_provision_task task_port manifest_buf s l) as [[[kr p] s'] l'].
  - apply step_same.
Qed.

(** ** The invariant of the issued tokens *)

(** What a token grants: everything but the mark, the link to the first child
    and the signature, which change while the token is in the table. *)
Definition grant tok : uros_cap := set_hmac [] (set_first_child 0 (set_revoked 0 tok)).

Definition attenuates (c p : uros_cap) : Prop :=
  mask_subset (allowed_ops c) (allowed_ops p) = true ∧
  resource_type c = resource_type p ∧ resource_id c = resource_id p ∧
  depth c = depth p + 1 ∧ depth c ≤ CAP_MAX_DEPTH ∧ delegable p ≠ 0.

Record issued_ok (t : cap_table) (G : list uros_cap) : Prop := {
  io_table : table_ok t;
  io_tree : tree_ok t;
  io_kept : ∀ id tok, kept t id = Some tok → wf_token tok ∧ cap_verify_hmac cap_hmac_key tok = true ∧ tok ∈ G;
  io_signed : ∀ tok, tok ∈ G → wf_token tok ∧ cap_verify_hmac cap_hmac_key tok = true ∧ ∃ cur, kept t (cap_id tok) = Some cur ∧
    grant tok = grant cur ∧ (revoked tok ≠ 0 → revoked cur ≠ 0);
  io_root : ∀ id tok, kept t id = Some tok → parent_cap_id tok = 0 → depth tok = 0;
  io_derived : ∀ id tok p, kept t id = Some tok → kept t (parent_cap_id tok) = Some p → attenuates tok p }.

Lemma grant_fields a b :
  grant a = grant b →
  cap_id a = cap_id b ∧ resource_type a = resource_type b ∧ resource_id a = resource_id b ∧
  allowed_ops a = allowed_ops b ∧ parent_cap_id a = parent_cap_id b ∧ depth a = depth b ∧
  delegable a = delegable b.
Proof. unfold grant, set_hmac, set_first_child, set_revoked. cbn. by intros [=]. Qed.

Lemma attenuates_grant c p c' p' :
  grant c = grant c' → grant p = grant p' → attenuates c p → attenuates c' p'.
Proof.
  intros (? & ? & ? & ? & ? & ? & ?)%grant_fields (? & ? & ? & ? & ? & ? & ?)%grant_fields
    (? & ? & ? & ? & ? & ?). unfold attenuates. split_and!; congruence.
Qed.

Lemma tokens_kept t tok : tok ∈ tokens t ↔ ∃ id, kept t id = Some tok.
Proof.
  unfold tokens, kept. rewrite list_elem_of_fmap. setoid_rewrite list_elem_of_lookup. split.
  - intros (e & -> & a & Ha). exists (Z.of_nat a + 1). rewrite decide_True by lia.
    replace (Z.to_nat (Z.of_nat a + 1 - 1)) with a by lia. by rewrite Ha.
  - intros (id & Hk). case_decide; [|done]. apply fmap_Some in Hk as (e & He & ->). eauto.
Qed.

(** Every token stays, with what it grants and, if it is revoked, revoked. *)
Definition evolves (t t' : cap_table) : Prop :=
  ∀ id tok, kept t id = Some tok →
    ∃ tok', kept t' id = Some tok' ∧ grant tok = grant tok' ∧ (revoked tok ≠ 0 → revoked tok' ≠ 0).

Lemma issued_ok_evolves t t' G :
  issued_ok t G → evolves t t' → table_ok t' → tree_ok t' →
  (∀ id tok, kept t' id = Some tok → wf_token tok ∧ cap_verify_hmac cap_hmac_key tok = true) →
  (∀ id tok, kept t id = None → kept t' id = Some tok →
    (parent_cap_id tok = 0 → depth tok = 0) ∧
    ∀ p, kept t' (parent_cap_id tok) = Some p → attenuates tok p) →
  issued_ok t' (G ++ tokens t').
Proof.
  intros [Hok Ht Hk Hs Hr Hd] Hev Hok' Ht' Hwf Hnew. split; [done|done|..].
  - intros id tok Hid. destruct (Hwf id tok Hid) as [? ?]. split_and!; [done|done|].
    apply elem_of_app. right. apply tokens_kept. eauto.
  - intros tok [Htok|Htok]%elem_of_app.
    + destruct (Hs tok Htok) as (? & ? & cur & Hcur & Hg & Hrev). split_and!; [done|done|].
      destruct (Hev _ _ Hcur) as (cur' & ? & ? & ?). exists cur'. split_and!; [done|congruence|auto].
    + apply tokens_kept in Htok as [id Hid]. split_and!; [by apply (Hwf id)|by apply (Hwf id)|].
      exists tok. split_and!; [|done|done]. by destruct (kept_Some _ _ _ Hok' Hid) as [-> _].
  - intros id tok Hid H0. destruct (kept t id) as [old|] eqn:Hold; [|by apply (Hnew id tok)].
    destruct (Hev _ _ Hold) as (tok' & Htok' & (_ & _ & _ & _ & Hpar & Hdep & _)%grant_fields & _).
    simplify_eq. rewrite <- Hdep. apply (Hr id); congruence.
  - intros id tok p Hid Hp. destruct (kept t id) as [old|] eqn:Hold; [|by apply (Hnew id tok)].
    destruct (Hev _ _ Hold) as (tok' & Htok' & Hg & _).
    assert (tok' = tok) as -> by congruence.
    pose proof (grant_fields _ _ Hg) as (_ & _ & _ & _ & Hpar & _).
    destruct (kept_Some _ _ _ Hok Hold) as [Hido Hrange].
    assert (1 ≤ parent_cap_id old ≤ Z.of_nat (length (heap t))) as Hpr.
    { rewrite Hpar. destruct (kept_Some _ _ _ Hok' Hp) as [_ ?].
      unfold kept in Hold. case_decide; [|done]. apply fmap_Some in Hold as (e & He & ->).
      pose proof (tr_parent t Ht _ _ He). lia. }
    destruct (kept_is_Some t _ Hpr) as [po Hpo].
    destruct (Hev _ _ Hpo) as (p' & Hp' & Hgp & _). rewrite Hpar in Hp'.
    assert (p' = p) as -> by congruence.
    eapply attenuates_grant; [exact Hg|exact Hgp|]. by eapply Hd.
Qed.

(** Field widths of what the handlers write. *)
Lemma fresh_token_wf id rtype rid ops :
  0 ≤ id < 2 ^ 64 → is_u32 rtype → is_u64 rid → is_u64 ops → wf_token (fresh_token id rtype rid ops).
Proof. unfold is_u32, is_u64. intros. split; cbn; done || lia. Qed.

Lemma derived_token_wf id ops sib p :
  0 ≤ id < 2 ^ 64 → is_u64 ops → 0 ≤ sib < 2 ^ 64 → wf_token p → wf_token (derived_token id ops sib p).
Proof.
  unfold is_u64. intros Hid Ho Hs []. pose proof (u8_range (depth p + 1)) as Hu. unfold is_u8 in Hu.
  split; cbn; done || lia.
Qed.

Lemma set_first_child_wf id p : 0 ≤ id < 2 ^ 64 → wf_token p → wf_token (set_first_child id p).
Proof. intros Hid []. split; cbn; done || lia. Qed.

Lemma revoke_token_wf p : wf_token p → wf_token (revoke_token p).
Proof. intros []. apply cap_sign_wf. split; cbn; done || lia. Qed.

Lemma kept_lookup t id tok : kept t id = Some tok → ∃ e, heap t !! Z.to_nat (id - 1) = Some e ∧ tok = token e ∧ 1 ≤ id.
Proof. unfold kept. case_decide; [|done]. intros (e & He & ->)%fmap_Some. eauto. Qed.

Lemma issued_ok_acquire t G rtype rid ops :
  issued_ok t G → Z.of_nat (length (heap t)) + 2 < 2 ^ 64 → is_u32 rtype → is_u64 rid → is_u64 ops →
  let t' := cap_table_insert (cap_sign cap_hmac_key (fresh_token (next_cap_id t) rtype rid ops))
        MACH_PORT_NULL (cap_table_alloc_id t).2 in
  issued_ok t' (G ++ tokens t').
Proof.
  intros Hio Hlen Hr Hi Ho. pose proof Hio as [Hok Ht Hk _ _ _]. pose proof (ok_next_id t Hok) as Hn.
  apply (issued_ok_evolves t); [done|..].
  - intros id tok Hid. rewrite kept_insert. destruct (kept_Some _ _ _ Hok Hid) as [_ ?].
    rewrite decide_False by lia. eauto.
  - by apply table_ok_insert.
  - by apply tree_ok_acquire.
  - intros id tok. rewrite kept_insert. case_decide.
    + intros [= <-]. split; [|apply cap_sign_verifies]. apply cap_sign_wf, fresh_token_wf; try done. lia.
    + intros Hid. by destruct (Hk id tok Hid) as (? & ? & _).
  - intros id tok Hid. rewrite kept_insert. case_decide; [|congruence]. intros [= <-]. split; [done|].
    cbn [parent_cap_id cap_sign set_hmac fresh_token]. intros p Hp. by apply kept_lookup in Hp as (? & _ & _ & ?).
Qed.

Lemma issued_ok_derive t G p a pe ops :
  issued_ok t G → Z.of_nat (length (heap t)) + 2 < 2 ^ 64 →
  p ∈ G → delegable p ≠ 0 → depth p + 1 ≤ CAP_MAX_DEPTH →
  mask_subset ops (allowed_ops p) = true → is_u64 ops →
  heap t !! a = Some pe → cap_id p = Z.of_nat a + 1 →
  let t' := update_token a (λ p, cap_sign cap_hmac_key (set_first_child (next_cap_id t) p))
          (cap_table_insert (cap_sign cap_hmac_key
              (derived_token (next_cap_id t) ops (first_child_cap_id (token pe)) p))
            MACH_PORT_NULL (cap_table_alloc_id t).2) in
  issued_ok t' (G ++ tokens t').
Proof.
  intros Hio Hlen HpG Hdel Hdep Hm Ho Ha Hid t'. pose proof Hio as [Hok Ht Hk Hs _ _].
  pose proof (ok_next_id t Hok) as Hn. pose proof (lookup_lt_Some _ _ _ Ha) as Hlt.
  destruct (Hs p HpG) as (Hwfp & _ & cur & Hcur & Hg & _). rewrite Hid in Hcur.
  assert (cur = token pe) as ->.
  { apply kept_lookup in Hcur as (e & He & -> & _). replace (Z.to_nat _) with a in He by lia. congruence. }
  assert (∀ id, kept t' id =
    if decide (id = Z.of_nat (length (heap t)) + 1) then
      Some (cap_sign cap_hmac_key (derived_token (next_cap_id t) ops (first_child_cap_id (token pe)) p))
    else if decide (id = Z.of_nat a + 1) then
      Some (cap_sign cap_hmac_key (set_first_child (next_cap_id t) (token pe)))
    else kept t id) as Hk'.
  { intros id. unfold t'. rewrite kept_update, kept_insert.
    destruct (decide (id = Z.of_nat (length (heap t)) + 1)) as [->|].
    - by rewrite decide_False by lia.
    - case_decide; [|done]. subst. by rewrite Hcur. }
  destruct (Hk _ _ Hcur) as (Hwfpe & _ & _).
  apply (issued_ok_evolves t); [done|..].
  - intros id tok Htok. rewrite Hk'. destruct (kept_Some _ _ _ Hok Htok) as [_ ?].
    rewrite decide_False by lia. case_decide; [|eauto]. subst. rewrite Hcur in Htok. injection Htok as <-. eauto.
  - apply table_ok_update; [done|done|]. by apply table_ok_insert.
  - unfold t'. rewrite Hn. by apply (tree_ok_derive t _ _ a pe).
  - intros id tok. rewrite Hk'. repeat case_decide.
    + intros [= <-]. split; [|apply cap_sign_verifies]. apply cap_sign_wf, derived_token_wf; try done; [lia|].
      destruct Hwfpe. lia.
    + intros [= <-]. split; [|apply cap_sign_verifies]. apply cap_sign_wf, set_first_child_wf; [lia|done].
    + intros Htok. by destruct (Hk id tok Htok) as (? & ? & _).
  - intros id tok Hnone. rewrite Hk'. repeat case_decide; [|subst; congruence|congruence]. intros [= <-].
    cbn [parent_cap_id depth cap_sign set_hmac derived_token]. split; [lia|]. intros q. rewrite Hk', Hid.
    rewrite decide_False, decide_True by lia. intros [= <-].
    apply grant_fields in Hg as (_ & Hg1 & Hg2 & Hg3 & _ & Hg4 & Hg5). unfold attenuates, CAP_MAX_DEPTH in *.
    cbn [allowed_ops resource_type resource_id depth delegable cap_sign set_hmac set_first_child derived_token].
    rewrite u8_small by (destruct Hwfp; unfold is_u8; lia).
    rewrite <- Hg3, <- Hg4, <- Hg5. split_and!; try done; lia.
Qed.

Lemma issued_ok_revoke t G id :
  issued_ok t G → 1 ≤ id ≤ Z.of_nat (length (heap t)) →
  let t' := mark_ids (revoked_by t id) t in issued_ok t' (G ++ tokens t').
Proof.
  intros Hio Hid. pose proof Hio as [Hok Ht Hk Hs _ _].
  destruct (mark_ids_ok (revoked_by t id) t Hok Ht) as (Hok' & Ht' & _ & _).
  apply (issued_ok_evolves t); [done| |done|done| |].
  - intros y tok Hy. rewrite kept_after by done. case_decide; [|eauto].
    rewrite Hy. exists (revoke_token tok). by split_and!.
  - intros y tok. rewrite kept_after by done. case_decide.
    + intros (old & Hold & ->)%fmap_Some. destruct (Hk y old Hold) as (? & _).
      split; [by apply revoke_token_wf|apply cap_sign_verifies].
    + intros Hy. by destruct (Hk y tok Hy) as (? & ? & _).
  - intros y tok Hnone. rewrite kept_after, Hnone by done. by case_decide.
Qed.

Lemma issued_ok_same t G : issued_ok t G → issued_ok t (G ++ tokens t).
Proof.
  intros Hio. pose proof Hio as [? ? Hk _ _ _]. apply (issued_ok_evolves t); try done.
  - intros id tok Hid. eauto.
  - intros id tok Hid. by destruct (Hk id tok Hid) as (? & ? & _).
  - intros id tok Hnone Hid. congruence.
Qed.

Lemma issued_ok_step t t' G :
  issued_ok t G → Z.of_nat (length (heap t)) + 2 < 2 ^ 64 → issue_step G t t' →
  issued_ok t' (G ++ tokens t').
Proof.
  intros Hio Hlen [].
  - by apply issued_ok_same.
  - by apply issued_ok_acquire.
  - by apply issued_ok_derive.
  - by apply issued_ok_revoke.
Qed.

Lemma issued_ok_init : issued_ok cap_table_init [].
Proof.
  assert (∀ id, kept cap_table_init id = None) as Hn.
  { intros id. unfold kept. by case_decide. }
  split; [apply table_ok_init| | | | |]; try (intros id tok; rewrite Hn; done).
  - split; intros a e Ha; by destruct a.
  - by intros tok ?%not_elem_of_nil.
Qed.

Lemma reachable_issued s G l : reachable s G l → issued_ok (table s) G.
Proof.
  induction 1 as [l|s G l local m _ IH Hwf Hau Hlen]; [apply issued_ok_init|].
  eapply issued_ok_step; [exact IH|done|]. apply demux_table; [done|done|apply IH|apply IH].
Qed.

(** ** Subscribers and manifests *)

Record server_ok (s : cap_server) : Prop := {
  so_subs_nodup : NoDup (revoke_subscribers s);
  so_subs_len : (length (revoke_subscribers s) ≤ CAP_MAX_REVOKE_SUBSCRIBERS)%nat;
  so_subs_null : MACH_PORT_NULL ∉ revoke_subscribers s;
  so_manifests : manifest_ok (manifests s);
  so_local : g_request_local_port s = MACH_PORT_NULL }.

(** The two handlers that issue tokens touch nothing but the table. *)
Lemma acquire_frame rtype rid ops ms len s l :
  let s' := post (cap_acquire rtype rid ops ms len s l) in
  revoke_subscribers s' = revoke_subscribers s ∧ manifests s' = manifests s.
Proof.
  unfold cap_acquire. case_decide; [done|]. cbn [negb policy_allows_v1]. mrun.
  destruct (negb _); [done|]. mrun. by case_decide.
Qed.
Lemma derive_frame buf ops ms len s l :
  let s' := post (cap_derive buf ops ms len s l) in
  revoke_subscribers s' = revoke_subscribers s ∧ manifests s' = manifests s.
Proof.
  unfold cap_derive. generalize (token_of_bytes buf) as p. intros p. do 2 (case_decide; [done|]). cbv zeta.
  destruct (negb _); [done|]. do 3 (case_decide; [done|]). destruct (negb _); [done|]. mrun.
  destruct (cap_table_find_by_id _ _ ≫= _) as [[a pe]|]; [|done]. case_decide; [done|]. mrun. by case_decide.
Qed.

(** What the dispatcher does to subscribers and manifests. *)
Lemma server_frame m s l :
  table_ok (table s) → tree_ok (table s) →
  let s' := post (cap_server_server m s l) in
  ((∃ dead, revoke_subscribers s ≡ₚ revoke_subscribers s' ++ dead) ∨
   (∃ p, revoke_subscribers s' = revoke_subscribers s ++ [p] ∧ p ≠ MACH_PORT_NULL ∧
     (p ∉ revoke_subscribers s) ∧ (length (revoke_subscribers s) < CAP_MAX_REVOKE_SUBSCRIBERS)%nat)) ∧
  (manifests s' = manifests s ∨
   ∃ p buf l', manifests s' = post (cap_manifest_table_install p buf (manifests s) l')).
Proof.
  intros Hok Ht. assert (∀ l : list port, ∃ dead, l ≡ₚ l ++ dead) as Hnil.
  { intros k. exists []. by rewrite app_nil_r. }
  destruct m; cbn [cap_server_server].
  - destruct (acquire_frame rtype rid ops lifetime_ms token_len s l) as [-> ->]. eauto.
  - destruct (derive_frame parent_buf reduced_ops lifetime_ms child_len s l) as [-> ->]. eauto.
  - cbv zeta. rewrite (bind_ret_post (cap_revoke cap_id) (λ kr, (kr, []))).
    destruct (decide (1 ≤ cap_id ≤ Z.of_nat (length (heap (table s))))) as [Hid|Hid].
    + destruct (revoke_run cap_id s l Hok Ht Hid) as (left & dead & tr & -> & Hp & _).
      split; [left; by exists dead|by left].
    + rewrite revoke_unknown by done. split; left; [apply Hnil|done].
  - cbv zeta. rewrite (bind_ret_post (cap_subscribe_revoke notify) (λ kr, (kr, []))).
    destruct (subscribe_run notify s l) as [->|(-> & ? & ? & ?)]; [split; left; [apply Hnil|done]|].
    split; [|by left]. right. by exists notify.
  - cbv zeta. replace (post _) with (post (cap_provision_task task_port manifest_buf s l)).
    + destruct (provision_run task_port manifest_buf s l) as [->|(p & l' & ->)];
        (split; [left; apply Hnil|]); [by left|right; by exists p, manifest_buf, l'].
    + unfold mbind, M_bind, post. by destruct (cap_provision_task task_port manifest_buf s l) as [[[kr p] s'] l'].
  - split; left; [apply Hnil|done].
Qed.

Lemma server_ok_step local m s l :
  table_ok (table s) → tree_ok (table s) → server_ok s → server_ok (post (cap_demux local m s l)).
Proof.
  intros Hok Ht [Hnd Hlen Hnull Hm Hloc].
  destruct (server_frame m (set_local_port local s) l Hok Ht) as [Hsub Hman].
  rewrite demux_run. unfold post at 1. cbn [fst snd]. generalize dependent (post (cap_server_server m (set_local_port local s) l)).
  cbn [set_local_port revoke_subscribers manifests]. intros s' Hsub Hman.
  assert (manifest_ok (manifests s')) as Hm'.
  { destruct Hman as [->|(p & buf & l' & ->)]; [done|]. by apply install_manifest_ok. }
  destruct Hsub as [(dead & Hp)|(p & Hp & Hnz & Hni & Hlt)].
  - rewrite Hp in Hnd, Hnull. apply Permutation_length in Hp. rewrite length_app in Hp.
    apply list.NoDup_app in Hnd as (? & _ & _). split; cbn; try done; [lia|set_solver].
  - split; cbn; rewrite ?Hp; try done.
    + apply list.NoDup_app. split_and!; [done|set_solver|apply list.NoDup_singleton].
    + rewrite length_app. simpl. lia.
    + set_solver.
Qed.

Lemma reachable_server s G l : reachable s G l → server_ok s.
Proof.
  induction 1 as [l|s G l local m Hr IH Hwf Hau Hlen].
  - split; cbn; try done; [by apply list.NoDup_nil|unfold CAP_MAX_REVOKE_SUBSCRIBERS; lia|apply not_elem_of_nil|].
    exact manifest_ok_init.
  - apply reachable_issued in Hr. apply server_ok_step; [apply Hr|apply Hr|done].
Qed.

(** ** The properties of the server *)

(** C21. In every reachable state of cap_server: the three hash indexes of the
    table are complete and its ids are consecutive; the links of the delegation
    tree are the children, youngest first; every token in the table has its field
    widths, a correct signature and is one the server has signed; every signed
    token is still in the table under its id, with the same grant, and revoked if
    it ever was; a root has depth zero and a derived token has a subset of its
    parent's operations on the same resource, at one more than its depth.  The
    subscribers are at most eight distinct ports, there is one manifest per port,
    and between requests no request port is recorded. *)
Theorem cap_server_inv s G l : reachable s G l → issued_ok (table s) G ∧ server_ok s.
Proof. intros H. split; [by eapply reachable_issued|by eapply reachable_server]. Qed.

(** Descent in the tree and the kept tokens. *)
Lemma kids_of_kept t p c :
  c ∈ kids_of t p ↔ p ≠ 0 ∧ ∃ tok, kept t c = Some tok ∧ parent_cap_id tok = p.
Proof.
  unfold kids_of. case_decide; [split; [by intros ?%not_elem_of_nil|tauto]|].
  rewrite elem_of_kids_below. split.
  - intros (a & e & -> & Ha & He & Hp). split; [done|]. exists (token e). split; [|done].
    unfold kept. rewrite decide_True by lia. replace (Z.to_nat _) with a by lia. by rewrite He.
  - intros (_ & tok & Hk & Hp). apply kept_lookup in Hk as (e & He & -> & ?).
    exists (Z.to_nat (c - 1)), e. split_and!; [lia|by eapply lookup_lt_Some|done|done].
Qed.

Lemma attenuates_desc t G x y p c :
  issued_ok t G → desc (kids_of t) x y → kept t x = Some p → kept t y = Some c →
  mask_subset (allowed_ops c) (allowed_ops p) = true ∧
  resource_type c = resource_type p ∧ resource_id c = resource_id p ∧ depth p ≤ depth c.
Proof.
  intros Hio Hd Hp. pose proof Hio as [Hok Ht Hk _ _ Hder].
  assert (∀ id tok, kept t id = Some tok → is_u64 (allowed_ops tok)) as Hu.
  { intros id tok Hid. by destruct (Hk id tok Hid) as ([] & _). }
  revert y Hd c. apply (rtc_ind_r (λ y, ∀ c, kept t y = Some c → _)).
  - intros c Hc. rewrite Hp in Hc. injection Hc as <-. split_and!; try done.
    apply mask_subset_refl. by eapply Hu.
  - intros y z _ (Hy0 & tok & Hz & Hpar)%kids_of_kept IH c Hc. rewrite Hz in Hc. injection Hc as <-.
    assert (is_Some (kept t y)) as [m Hm].
    { apply kept_is_Some. apply kept_lookup in Hz as (e & He & -> & ?).
      pose proof (tr_parent t Ht _ _ He). apply lookup_lt_Some in He. lia. }
    destruct (IH m Hm) as (? & ? & ? & ?). rewrite <- Hpar in Hm.
    destruct (Hder z tok m Hz Hm) as (? & ? & ? & ? & ? & ?).
    split_and!; [|congruence|congruence|lia]. eapply mask_subset_trans; [by eapply Hu|by eapply Hu|done|done].
Qed.

(** C27. Delegation never adds authority.  Take any two tokens the server has
    signed, in any reachable state, the second one derived from the first by any
    number of [cap_derive] steps: it allows a subset of the operations, on the
    same resource, its depth is at least that of the first, and no depth exceeds
    [CAP_MAX_DEPTH]. *)
Theorem derivation_attenuates s G l p c :
  reachable s G l → p ∈ G → c ∈ G → desc (kids_of (table s)) (cap_id p) (cap_id c) →
  (∀ i, has_bit (allowed_ops c) i → has_bit (allowed_ops p) i) ∧
  resource_type c = resource_type p ∧ resource_id c = resource_id p ∧
  depth p ≤ depth c ≤ CAP_MAX_DEPTH.
Proof.
  intros Hr%reachable_issued Hp Hc Hd. pose proof Hr as [Hok Ht Hk Hs Hroot Hder].
  destruct (Hs p Hp) as (_ & _ & p' & Hp' & (_ & Ep1 & Ep2 & Ep3 & _ & Ep4 & _)%grant_fields & _).
  destruct (Hs c Hc) as (Hwc & _ & c' & Hc' & (_ & Ec1 & Ec2 & Ec3 & Ec5 & Ec4 & _)%grant_fields & _).
  destruct (attenuates_desc _ _ _ _ _ _ Hr Hd Hp' Hc') as (Hm & ? & ? & ?).
  rewrite <- Ec3, <- Ep3, mask_subset_spec in Hm by (by destruct Hwc).
  split_and!; [done|congruence|congruence|lia|]. rewrite Ec4.
  destruct (decide (parent_cap_id c' = 0)) as [H0|H0].
  - rewrite (Hroot _ _ Hc' H0). done.
  - assert (is_Some (kept (table s) (parent_cap_id c'))) as [q Hq].
    { apply kept_is_Some. apply kept_lookup in Hc' as (e & He & -> & ?).
      pose proof (tr_parent _ Ht _ _ He). apply lookup_lt_Some in He. lia. }
    by destruct (Hder _ _ _ Hc' Hq) as (_ & _ & _ & _ & ? & _).
Qed.

(** The presented token as an issued one. *)
Lemma verify_iff s G buf op rid :
  issued_ok (table s) G → authentic_buf G buf → is_u64 op →
  cap_verify buf op rid s = KERN_SUCCESS ↔
    length buf = CAP_TOKEN_SIZE ∧ token_of_bytes buf ∈ G ∧ revoked (token_of_bytes buf) = 0 ∧
    live (table s) (cap_id (token_of_bytes buf)) = true ∧ resource_id (token_of_bytes buf) = rid ∧
    ∀ i, has_bit op i → has_bit (allowed_ops (token_of_bytes buf)) i.
Proof.
  intros Hio Hau Hop. unfold cap_verify. unfold authentic_buf in Hau. cbv zeta.
  case_decide as Hlen; [split; [done|tauto]|].
  generalize dependent (token_of_bytes buf). intros tok Hau.
  pose proof Hio as [Hok Ht Hk Hs _ _].
  destruct (cap_verify_hmac cap_hmac_key tok) eqn:Hv; cbn [negb].
  2: { split; [done|]. intros (_ & HG & _). apply Hs in HG as (_ & ? & _). congruence. }
  specialize (Hau eq_refl). case_decide; [naive_solver|]. case_decide; [naive_solver|].
  destruct (mask_subset op (allowed_ops tok)) eqn:Hm; cbn [negb].
  2: { split; [done|]. intros (_ & _ & _ & _ & _ & Hbit). apply mask_subset_spec in Hbit; [congruence|done]. }
  rewrite mask_subset_spec in Hm by done. pose proof (find_by_id_kept _ (cap_id tok) Hok) as Hf. unfold live.
  destruct (cap_table_find_by_id (cap_id tok) (table s)) as [a|]; cbn [mbind option_bind].
  - destruct Hf as (e & -> & -> & _). case_decide as Hrev.
    + rewrite bool_decide_eq_false_2 by done. naive_solver.
    + rewrite bool_decide_eq_true_2 by lia. naive_solver lia.
  - destruct (Hs tok Hau) as (_ & _ & cur & Hcur & _). congruence.
Qed.

(** C1. [cap_verify] decides exactly the abstract meaning of a capability.  In a
    reachable state, for any bytes a client can present, it answers
    [KERN_SUCCESS] if and only if they are the image of a token the server has
    issued, which was not revoked when it was handed out and has not been revoked
    since, for this resource, with every requested operation among the allowed
    ones. *)
Theorem verify_refines s G l buf op rid :
  reachable s G l → Forall is_u8 buf → authentic_buf G buf → is_u64 op →
  cap_verify buf op rid s = KERN_SUCCESS ↔
    ∃ tok, buf = token_bytes tok ∧ tok ∈ G ∧ revoked tok = 0 ∧ live (table s) (cap_id tok) = true ∧
      resource_id tok = rid ∧ ∀ i, has_bit op i → has_bit (allowed_ops tok) i.
Proof.
  intros Hr%reachable_issued Hb Hau Hop. rewrite (verify_iff s G) by done. split.
  - intros (Hl & HG & ?). exists (token_of_bytes buf). split; [|done]. symmetry. by apply token_bytes_of.
  - intros (tok & -> & HG & Hrest). pose proof (io_signed _ _ Hr tok HG) as (Hwf & _ & _).
    rewrite token_of_token_bytes by done. split_and!; [by apply length_token_bytes|done|apply Hrest..].
Qed.

(** Further requests from a given point on. *)
Inductive continues (s : cap_server) (G : list uros_cap) (l : list mach_call) :
    cap_server → list uros_cap → list mach_call → Prop :=
  | cont_refl : continues s G l s G l
  | cont_msg s' G' l' local m :
      continues s G l s' G' l' → wf_msg m → authentic G' m →
      Z.of_nat (length (heap (table s'))) + 2 < 2 ^ 64 →
      continues s G l (post (cap_demux local m s' l'))
        (G' ++ tokens (table (post (cap_demux local m s' l')))) (trace (cap_demux local m s' l')).

Lemma continues_reachable s G l s' G' l' :
  reachable s G l → continues s G l s' G' l' → reachable s' G' l' ∧ G ⊆ G'.
Proof.
  intros Hr. induction 1 as [|s' G' l' local m _ [IH1 IH2]]; [done|].
  split; [by apply reach_msg|]. set_solver.
Qed.

(** C25. Revocation is permanent.  Once the table has marked an id as revoked, in
    every state the server reaches afterwards, and for every buffer that names
    this id, be it the token as it was issued, as it was re-signed, or a forgery:
    [cap_verify] refuses it for every operation and resource, and [cap_derive]
    refuses to derive from it and changes nothing. *)
Theorem revoked_forever s G l s' G' l' id buf :
  reachable s G l → is_Some (kept (table s) id) → live (table s) id = false →
  continues s G l s' G' l' → cap_id (token_of_bytes buf) = id →
  (∀ op rid, cap_verify buf op rid s' ≠ KERN_SUCCESS) ∧
  (∀ ops ms len, let r := cap_derive buf ops ms len s' l' in
    (res r).1 ≠ KERN_SUCCESS ∧ post r = s').
Proof.
  intros Hr [tok Htok] Hdead Hc Hid. pose proof (reachable_issued _ _ _ Hr) as Hio.
  destruct (continues_reachable _ _ _ _ _ _ Hr Hc) as [Hr' Hsub]. apply reachable_issued in Hr'.
  destruct (io_kept _ _ Hio _ _ Htok) as (_ & _ & HG).
  destruct (io_signed _ _ Hr' tok (Hsub _ HG)) as (_ & _ & cur & Hcur & _ & Hrev).
  destruct (kept_Some _ _ _ (io_table _ _ Hio) Htok) as [Eid _]. rewrite Eid in Hcur.
  unfold live in Hdead. rewrite Htok in Hdead. apply bool_decide_eq_false in Hdead. specialize (Hrev Hdead).
  pose proof (find_by_id_kept _ id (io_table _ _ Hr')) as Hf. unfold cap_verify, cap_derive.
  generalize dependent (token_of_bytes buf). intros p Hid. rewrite Hid.
  destruct (cap_table_find_by_id id (table s')) as [a|] eqn:Hfind; [|congruence].
  destruct Hf as (e & He & Hk & _). rewrite Hk in Hcur. injection Hcur as <-. split.
  - intros op rid. cbv zeta. cbn [mbind option_bind]. rewrite He. by repeat case_match.
  - intros ops ms len. cbv zeta. do 2 (case_decide; [done|]). destruct (negb _); [done|].
    do 3 (case_decide; [done|]). destruct (negb _); [done|]. mrun. rewrite Hfind. cbn [mbind option_bind].
    rewrite He. cbn [fmap option_fmap option_map]. by rewrite decide_True.
Qed.

Lemma acquire_success rtype rid ops ms len s l :
  (res (cap_acquire rtype rid ops ms len s l)).1 = KERN_SUCCESS →
  let tok := cap_sign cap_hmac_key (fresh_token (next_cap_id (table s)) rtype rid ops) in
  (res (cap_acquire rtype rid ops ms len s l)).2 = token_bytes tok ∧
  table (post (cap_acquire rtype rid ops ms len s l)) =
    cap_table_insert tok MACH_PORT_NULL (cap_table_alloc_id (table s)).2.
Proof.
  unfold cap_acquire. case_decide; [done|]. cbn [negb policy_allows_v1]. mrun.
  destruct (negb _); [done|]. mrun. by case_decide.
Qed.

(** Acquiring and verifying.  When [cap_acquire] succeeds, in whatever state
    and on whatever port, the bytes it returns verify at once for exactly the
    requested operations on exactly the requested resource. *)
Theorem acquire_verifies s G l rtype rid ops ms len :
  reachable s G l → is_u32 rtype → is_u64 rid → is_u64 ops →
  Z.of_nat (length (heap (table s))) + 2 < 2 ^ 64 →
  ∀ local, let r := cap_demux local (MAcquire rtype rid ops ms len) s l in
  (res r).1 = KERN_SUCCESS →
  ∀ op rid', is_u64 op →
    cap_verify (res r).2 op rid' (post r) = KERN_SUCCESS ↔
      rid' = rid ∧ ∀ i, has_bit op i → has_bit ops i.
Proof.
  intros Hr Hrt Hri Ho Hlen local r. pose proof (reachable_issued _ _ _ Hr) as Hio.
  assert (reachable (post r) (G ++ tokens (table (post r))) (trace r)) as Hr' by (by apply reach_msg).
  set (r0 := cap_acquire rtype rid ops ms len (set_local_port local s) l).
  assert (res r = res r0 ∧ table (post r) = table (post r0)) as [-> Ht] by (unfold r; by rewrite demux_run).
  intros Hs op rid' Hop. destruct (acquire_success _ _ _ _ _ _ _ Hs) as [E1 Ht0].
  fold r0 in E1, Ht0. rewrite E1.
  set (tok := cap_sign _ _) in *. set (s' := post r) in *.
  assert (kept (table s') (cap_id tok) = Some tok) as Hk.
  { rewrite Ht, Ht0, kept_insert, decide_True; [done|]. apply (ok_next_id _ (io_table _ _ Hio)). }
  apply reachable_issued in Hr'. destruct (io_kept _ _ Hr' _ _ Hk) as (Hwf & Hv & HG).
  rewrite (verify_iff _ _ _ _ _ Hr'); [|by intros _; rewrite token_of_token_bytes|done].
  rewrite token_of_token_bytes by done. unfold live. rewrite Hk. split.
  - intros (_ & _ & _ & _ & <- & ?). done.
  - intros [-> ?]. split_and!; try done. by apply length_token_bytes.
Qed.

(** The success path of [cap_derive]. *)
Lemma derive_success buf ops ms len s l p a pe :
  length buf = CAP_TOKEN_SIZE → Z.of_nat CAP_TOKEN_SIZE ≤ len → token_of_bytes buf = p →
  cap_verify_hmac cap_hmac_key p = true → revoked p = 0 → delegable p ≠ 0 →
  depth p + 1 ≤ CAP_MAX_DEPTH → mask_subset ops (allowed_ops p) = true →
  cap_table_find_by_id (cap_id p) (table s) = Some a → heap (table s) !! a = Some pe →
  revoked (token pe) = 0 → mach_kr l (Malloc 204) = KERN_SUCCESS →
  let id := next_cap_id (table s) in
  let tok := cap_sign cap_hmac_key (derived_token id ops (first_child_cap_id (token pe)) p) in
  cap_derive buf ops ms len s l =
    ((KERN_SUCCESS, token_bytes tok),
     set_table (update_token a (λ p, cap_sign cap_hmac_key (set_first_child id p))
       (cap_table_insert tok MACH_PORT_NULL (cap_table_alloc_id (table s)).2)) s,
     l ++ [Malloc 204]).
Proof.
  intros Hb Hlen Hp Hv Hr Hd Hdep Hm Hf He Hrev Hkr. unfold cap_derive. rewrite Hp. clear Hp.
  rewrite decide_False by congruence. rewrite decide_False by lia. cbv zeta. rewrite Hv. cbn [negb].
  rewrite decide_False by lia. rewrite decide_False by done. rewrite decide_False by lia.
  rewrite Hm. cbn [negb]. mrun. rewrite Hf. cbn [mbind option_bind]. rewrite He.
  cbn [fmap option_fmap option_map]. rewrite decide_False by lia. mrun. rewrite decide_False by congruence. done.
Qed.

(** [cap_derive] on every branch.  In a reachable state it succeeds exactly
    when the buffer is the image of an issued token that is not revoked, neither
    in the copy nor in the table, may be delegated, is not at the maximal depth and
    allows every requested operation, the reply has room and there is memory.  If
    it does not succeed it changes nothing.  If it does, it returns the image of a
    new token that is now in the table, a child of the presented one, with exactly
    the requested operations, on the same resource, one level deeper. *)
Theorem derive_spec s G l buf ops ms len :
  reachable s G l → authentic_buf G buf → is_u64 ops →
  let p := token_of_bytes buf in let r := cap_derive buf ops ms len s l in
  ((res r).1 = KERN_SUCCESS ↔
    length buf = CAP_TOKEN_SIZE ∧ Z.of_nat CAP_TOKEN_SIZE ≤ len ∧ p ∈ G ∧ revoked p = 0 ∧
    live (table s) (cap_id p) = true ∧ delegable p ≠ 0 ∧ depth p < CAP_MAX_DEPTH ∧
    (∀ i, has_bit ops i → has_bit (allowed_ops p) i) ∧ mach_kr l (Malloc 204) = KERN_SUCCESS) ∧
  ((res r).1 ≠ KERN_SUCCESS → post r = s) ∧
  ((res r).1 = KERN_SUCCESS → ∃ c,
    (res r).2 = token_bytes c ∧ kept (table (post r)) (cap_id c) = Some c ∧ kept (table s) (cap_id c) = None ∧
    parent_cap_id c = cap_id p ∧ allowed_ops c = ops ∧ resource_type c = resource_type p ∧
    resource_id c = resource_id p ∧ depth c = depth p + 1 ∧ revoked c = 0).
Proof.
  intros Hr%reachable_issued Hau Ho. cbv zeta. unfold cap_derive, authentic_buf in *.
  generalize dependent (token_of_bytes buf). intros p Hau.
  pose proof Hr as [Hok Ht Hk Hs _ _].
  case_decide; [by split_and!; [split; [done|tauto]|..]|].
  case_decide; [by split_and!; [split; [done|lia]|..]|]. cbv zeta.
  destruct (cap_verify_hmac cap_hmac_key p) eqn:Hv; cbn [negb].
  2: { split_and!; [|done|done]. split; [done|]. intros (_ & _ & HG & _). apply Hs in HG as (_ & ? & _). congruence. }
  specialize (Hau eq_refl). destruct (Hs p Hau) as (Hwfp & _ & cur & Hcur & Hg & _).
  case_decide; [by split_and!; [split; [done|tauto]|..]|].
  case_decide; [by split_and!; [split; [done|tauto]|..]|].
  case_decide; [by split_and!; [split; [done|lia]|..]|].
  destruct (mask_subset ops (allowed_ops p)) eqn:Hm; cbn [negb].
  2: { split_and!; [|done|done]. split; [done|]. intros (_ & _ & _ & _ & _ & _ & _ & Hbit & _).
       apply mask_subset_spec in Hbit; [congruence|done]. }
  rewrite mask_subset_spec in Hm by done. mrun.
  pose proof (find_by_id_kept _ (cap_id p) Hok) as Hf. unfold live.
  destruct (cap_table_find_by_id (cap_id p) (table s)) as [a|]; [|congruence].
  destruct Hf as (pe & He & Hkp & Hid). rewrite Hkp in *. cbn [mbind option_bind]. rewrite He.
  cbn [fmap option_fmap option_map]. case_decide as Hrev.
  { split_and!; [|done|done]. split; [done|]. rewrite bool_decide_eq_false_2 by done. naive_solver. }
  mrun. case_decide as Hkr; [by split_and!; [split; [done|tauto]|..]|].
  unfold cap_table_alloc_id. mrun. unfold res, post; cbn [fst snd mret M_ret]. split_and!; [|done|].
  - split; [intros _|done]. rewrite bool_decide_eq_true_2 by lia. unfold CAP_MAX_DEPTH in *.
    split_and!; try done; try lia.
  - intros _. eexists. split; [reflexivity|]. cbn [table set_table]. rewrite kept_update.
    pose proof (lookup_lt_Some _ _ _ He) as Hlt. pose proof (ok_next_id _ Hok) as Hn.
    cbn [cap_id cap_sign set_hmac derived_token parent_cap_id allowed_ops resource_type resource_id depth revoked].
    rewrite decide_False by lia. rewrite (kept_insert (table s)), decide_True by done.
    split_and!; try done.
    + unfold kept. rewrite decide_True by lia. rewrite lookup_ge_None_2 by lia. done.
    + apply u8_small. destruct Hwfp. unfold is_u8, CAP_MAX_DEPTH in *. lia.
Qed.
End system.
