(* ===== verification/CapRuns.v ===== *)
(** * cap_server: concrete runs

    A server with a fixed key, one token and tokens derived from it, and the
    properties of [CapRevoke] and [CapSystem] at these states.  The states are
    followed symbolically: no signature has to be computed. *)

From S2P Require Import Prelude Mach CapTypes CapTable CapManifest CapServer CapTree CapRevoke CapSystem.

#[local] Instance cfg : CapConfig :=
  {| cap_hmac_key := replicate 32 7; cap_port := 3; cap_port_set := 4 |}.
#[local] Instance env : MachEnv := env_ok.

(** ** A token with [n] children *)

Definition root_token : uros_cap := cap_sign cap_hmac_key (fresh_token 1 4 9 3).

Fixpoint star (n : nat) : cap_table :=
  match n with
  | O => cap_table_insert root_token 0 (cap_table_alloc_id cap_table_init).2
  | S n =>
      match heap (star n) !! 0%nat with
      | None => star n
      | Some pe =>
          update_token 0 (λ p, cap_sign cap_hmac_key (set_first_child (Z.of_nat (length (heap (star n))) + 1) p))
            (cap_table_insert (cap_sign cap_hmac_key (derived_token (Z.of_nat (length (heap (star n))) + 1) 1
                (first_child_cap_id (token pe)) root_token)) 0 (cap_table_alloc_id (star n)).2)
      end
  end.

Lemma length_star n : length (heap (star n)) = S n.
Proof.
  induction n as [|n IH]; [done|]. cbn [star]. destruct (heap (star n) !! 0%nat) eqn:H0.
  - simpl. rewrite length_alter, length_app, IH. simpl. lia.
  - apply lookup_ge_None in H0. lia.
Qed.

Lemma star_ok n : Z.of_nat n + 3 < 2 ^ 64 → table_ok (star n) ∧ tree_ok (star n).
Proof.
  induction n as [|n IH]; intros Hn.
  - split; [by apply table_ok_insert; [apply table_ok_init|..]|].
    apply tree_ok_acquire; [apply issued_ok_init|done|done].
  - destruct IH as [Hok Ht]; [lia|]. pose proof (length_star n) as Hl. cbn [star].
    destruct (heap (star n) !! 0%nat) as [pe|] eqn:H0; [|done]. split.
    + apply table_ok_update; [done|done|]. apply table_ok_insert; [done|lia|]. symmetry. by apply ok_next_id.
    + by apply (tree_ok_derive (star n) _ _ 0 pe).
Qed.

(** A table of at most eighteen entries has only small subtrees. *)
Lemma small_table t r :
  tree_ok t → 1 ≤ r ≤ Z.of_nat (length (heap t)) → (length (heap t) ≤ 18)%nat → small (kids_of t) r.
Proof.
  intros Ht Hr Hl l Hnd Hd. pose proof (kids_forest t Ht) as F.
  assert (Z.of_nat (length (r :: l)) ≤ Z.of_nat (length (heap t))); [|simpl in *; lia].
  eapply nodup_range_length with (l := r :: l); [exact Hr|..].
  - apply list.NoDup_cons. split; [|done]. intros Hin. by destruct (Hd r Hin).
  - intros y [->|Hy]%elem_of_cons; [lia|]. destruct (Hd y Hy) as [Hy' _].
    eapply desc_range in Hy'; [|exact F|exact Hr]. lia.
Qed.

Lemma star_kids n : kids_of (star n) 1 = reverse (seqZ 2 (Z.of_nat n)).
Proof.
  induction n as [|n IH]; [done|]. cbn [star]. pose proof (length_star n) as Hl.
  destruct (heap (star n) !! 0%nat) as [pe|] eqn:H0; [|apply lookup_ge_None in H0; lia].
  unfold kids_of in *. rewrite decide_False in * by done. cbn [heap update_token cap_table_insert cap_table_alloc_id snd].
  rewrite length_alter, kids_below_alter by done. rewrite kids_below_new. cbn [token].
  rewrite decide_True by done. rewrite IH, Hl, seqZ_S.
  rewrite reverse_app. simpl. f_equal. lia.
Qed.

Lemma star_live n id : 1 ≤ id ≤ Z.of_nat n + 1 → live (star n) id = true.
Proof.
  induction n as [|n IH]; intros Hid.
  - replace id with 1 by lia. reflexivity.
  - pose proof (length_star n) as Hl. cbn [star].
    destruct (heap (star n) !! 0%nat) as [pe|] eqn:H0; [|apply lookup_ge_None in H0; lia].
    unfold live in *. rewrite kept_update, kept_insert, Hl.
    destruct (decide (id = Z.of_nat (S n) + 1)) as [->|]; [by rewrite decide_False by lia|].
    specialize (IH ltac:(lia)). destruct (kept (star n) id) as [tok|]; [|done]. destruct (decide (id = Z.of_nat 0 + 1)); exact IH.
Qed.

(** The server with this table and one subscriber. *)
Definition star_server (n : nat) : cap_server := CapServer (star n) [5] cap_manifest_table_init MACH_PORT_NULL.

Lemma revoke_misses_children_witness :
  let s := star_server 18 in
  live (table s) 2 = true ∧
  res (cap_revoke 1 s []) = KERN_SUCCESS ∧ kept (table (post (cap_revoke 1 s []))) 2 = kept (table s) 2.
Proof.
  split; [apply star_live; lia|].
  destruct (revoke_misses_children 1 (star_server 18) [] 2) as (H1 & H2 & _).
  - apply star_ok. lia.
  - apply star_ok. lia.
  - cbn [table star_server]. rewrite length_star. lia.
  - cbn [table star_server]. rewrite star_kids. vm_compute. by left.
  - exact (conj H1 H2).
Defined.

Lemma revoke_walks_end_witness :
  let '(t', _, rest) := cascade (length (heap (star 18))) (star 18) [1] 0 in
  rest = [] ∧ (rewalk (length (heap (star 18))) t' [1]).2 = [].
Proof.
  destruct (star_ok 18) as [Hok Ht]; [lia|].
  apply (revoke_walks_end (star 18) 1 Hok Ht). rewrite length_star. lia.
Defined.

Lemma revoke_subtree_witness :
  let s := star_server 1 in
  res (cap_revoke 1 s []) = KERN_SUCCESS ∧
  live (table (post (cap_revoke 1 s []))) 1 = false ∧ live (table (post (cap_revoke 1 s []))) 2 = false.
Proof.
  destruct (star_ok 1) as [Hok Ht]; [lia|].
  destruct (revoke_subtree 1 (star_server 1) []) as (H1 & H2 & _ & _).
  - exact Hok.
  - exact Ht.
  - cbn [table star_server]. rewrite length_star. lia.
  - apply small_table; [exact Ht| |]; cbn [table star_server]; rewrite length_star; lia.
  - split; [exact H1|]. unfold live.
    rewrite (H2 1 eq_refl), (H2 2 eq_refl); [by split| |apply rtc_refl].
    eapply rtc_l; [|apply rtc_refl]. split; [|apply (star_live 1 2); lia].
    cbn [table star_server]. rewrite star_kids. vm_compute. by left.
Defined.

Lemma revoke_notifies_witness :
  let s := star_server 1 in
  ∃ tr, trace (cap_revoke 1 s []) = tr ∧
    (5 ∈ revoke_subscribers (post (cap_revoke 1 s [])) → CapRevokeNotify 5 2 ∈ tr).
Proof.
  destruct (star_ok 1) as [Hok Ht]; [lia|].
  destruct (revoke_notifies 1 (star_server 1) []) as (dead & tr & Htr & _ & Hn & _).
  - exact Hok.
  - exact Ht.
  - cbn [table star_server]. rewrite length_star. lia.
  - apply small_table; [exact Ht| |]; cbn [table star_server]; rewrite length_star; lia.
  - reflexivity.
  - exists tr. split; [exact Htr|]. intros H5. apply Hn; [exact H5|].
    eapply rtc_l; [|apply rtc_refl]. cbn [table star_server]. rewrite star_kids. vm_compute. by left.
Defined.

(** ** A run from the start: acquire, derive, revoke *)

Definition acquire_msg : cap_msg := MAcquire 4 9 3 0 188.
Definition r1 := cap_demux 3 acquire_msg cap_server_init [].
Definition derive_msg : cap_msg := MDerive (token_bytes root_token) 1 0 188.
Definition r2 := cap_demux 3 derive_msg (post r1) (trace r1).
Definition G1 : list uros_cap := [] ++ tokens (table (post r1)).
Definition G2 : list uros_cap := G1 ++ tokens (table (post r2)).
Definition r3 := cap_demux 3 (MRevoke 1) (post r2) (trace r2).
Definition G3 : list uros_cap := G2 ++ tokens (table (post r3)).

Lemma root_wf : wf_token root_token.
Proof. apply cap_sign_wf, fresh_token_wf; unfold is_u32, is_u64; lia. Qed.

Lemma r1_result : res r1 = (KERN_SUCCESS, token_bytes root_token) ∧ table (post r1) = star 0.
Proof.
  unfold r1. rewrite demux_run. cbn [cap_server_server acquire_msg].
  assert ((res (cap_acquire 4 9 3 0 188 (set_local_port 3 cap_server_init) [])).1 = KERN_SUCCESS) as Hs.
  { unfold cap_acquire. rewrite decide_False by (unfold CAP_TOKEN_SIZE; lia). cbn [negb policy_allows_v1]. mrun. reflexivity. }
  destruct (acquire_success 4 9 3 0 188 (set_local_port 3 cap_server_init) [] Hs) as [E1 E2].
  set (r := cap_acquire _ _ _ _ _ _ _) in *.
  change (res r = (KERN_SUCCESS, token_bytes root_token) ∧ table (post r) = star 0).
  rewrite E2. split; [|done]. destruct (res r). simpl in *. by rewrite Hs, E1.
Qed.

Lemma reachable1 : reachable (post r1) G1 (trace r1).
Proof. apply reach_msg; [apply reach_init|unfold acquire_msg, wf_msg, is_u32, is_u64; lia|done|done]. Qed.

Lemma root_in_G1 : root_token ∈ G1.
Proof. unfold G1. destruct r1_result as [_ ->]. by left. Qed.

Lemma signed_token_u8 key t :
  Forall is_u8 (owner_name t) → Forall is_u8 (pad1 t) → Forall is_u8 (pad2 t) →
  Forall is_u8 (token_bytes (cap_sign key t)).
Proof.
  intros. unfold token_bytes. rewrite signed_bytes_sign. unfold signed_bytes. rewrite !Forall_app.
  split_and!; assumption || apply le_bytes_u8 || apply hmac_sha256_u8.
Qed.

Lemma reachable2 : reachable (post r2) G2 (trace r2).
Proof.
  destruct r1_result as [_ Ht]. refine (reach_msg (post r1) G1 (trace r1) 3 derive_msg reachable1 _ _ _);
    [| |rewrite Ht, length_star; lia].
  - split; [|unfold is_u64; lia].
    apply signed_token_u8; apply Forall_replicate; split; lia.
  - intros _. unfold derive_msg. rewrite token_of_token_bytes by apply root_wf. apply root_in_G1.
Qed.

Lemma post_tuple {S A} (a : A) (s : S) l : post (a, s, l) = s.
Proof. done. Qed.

(** The second request is the step from [star 0] to [star 1]. *)
Lemma derive_star n s l :
  table s = star n → Z.of_nat n + 3 < 2 ^ 64 →
  table (post (cap_derive (token_bytes root_token) 1 0 188 s l)) = star (S n).
Proof.
  intros Hs Hn. destruct (star_ok n Hn) as [Hok _]. pose proof (length_star n) as Hl.
  cbn [star]. destruct (heap (star n) !! 0%nat) as [pe|] eqn:H0; [|apply lookup_ge_None in H0; lia].
  pose proof (star_live n 1 ltac:(lia)) as Hlive. unfold live, kept in Hlive.
  rewrite decide_True in Hlive by lia. change (Z.to_nat (1 - 1)) with 0%nat in Hlive. rewrite H0 in Hlive.
  apply bool_decide_eq_true in Hlive.
  pose proof (derive_success (token_bytes root_token) 1 0 188 s l root_token 0 pe
    (length_token_bytes _ root_wf) ltac:(unfold CAP_TOKEN_SIZE; lia) (token_of_token_bytes _ root_wf)
    (cap_sign_verifies _ _) eq_refl) as Hd. cbv zeta in Hd.
  rewrite Hd; clear Hd.
  - rewrite post_tuple. cbn [table set_table]. rewrite Hs, (ok_next_id _ Hok). reflexivity.
  - discriminate.
  - discriminate.
  - reflexivity.
  - rewrite Hs. apply find_by_id_spec; [done|]. split; [lia|reflexivity].
  - by rewrite Hs.
  - done.
  - reflexivity.
Qed.

Lemma demux_table_eq local m s l :
  table (post (cap_demux local m s l)) = table (post (cap_server_server m (set_local_port local s) l)).
Proof. by rewrite demux_run. Qed.

Lemma r2_table : table (post r2) = star 1.
Proof.
  destruct r1_result as [_ Ht]. unfold r2. rewrite demux_table_eq. unfold derive_msg. cbn [cap_server_server].
  rewrite (derive_star 0); [reflexivity|exact Ht|lia].
Qed.

Lemma length1 : Z.of_nat (length (heap (table (post r1)))) + 2 < 2 ^ 64.
Proof. destruct r1_result as [_ ->]. rewrite length_star. lia. Qed.
Lemma length2 : Z.of_nat (length (heap (table (post r2)))) + 2 < 2 ^ 64.
Proof. rewrite r2_table, length_star. lia. Qed.

Lemma reachable3 : reachable (post r3) G3 (trace r3).
Proof. exact (reach_msg (post r2) G2 (trace r2) 3 (MRevoke 1) reachable2 I I length2). Qed.

Lemma revoke_star n local s l :
  table s = star n → Z.of_nat n + 3 < 2 ^ 64 →
  kept (table (post (cap_demux local (MRevoke 1) s l))) 1 = revoke_token <$> kept (star n) 1.
Proof.
  intros Hs Hn. rewrite demux_table_eq. cbn [cap_server_server].
  rewrite (bind_ret_post (cap_revoke 1) (λ kr, (kr, []))).
  destruct (star_ok n Hn) as [Hok Ht].
  destruct (revoke_run 1 (set_local_port local s) l) as (left & dead & tr & -> & _).
  - cbn [table set_local_port]. by rewrite Hs.
  - cbn [table set_local_port]. by rewrite Hs.
  - cbn [table set_local_port]. rewrite Hs, length_star. lia.
  - rewrite post_tuple. cbn [table set_local_port set_subscribers set_table]. rewrite Hs.
    rewrite kept_after; [|done|done|rewrite length_star; lia]. rewrite decide_True; [done|].
    apply revoked_by_root; [apply star_live; lia|rewrite length_star; lia].
Qed.

Lemma r3_dead : kept (table (post r3)) 1 = revoke_token <$> kept (star 1) 1.
Proof. exact (revoke_star 1 3 (post r2) (trace r2) r2_table ltac:(lia)). Qed.

Lemma root_u8 : Forall is_u8 (token_bytes root_token).
Proof. apply signed_token_u8; apply Forall_replicate; split; lia. Qed.

Lemma root_authentic G : root_token ∈ G → authentic_buf G (token_bytes root_token).
Proof. intros HG _. by rewrite token_of_token_bytes by apply root_wf. Qed.

(** ** The properties of the server at these states *)

Lemma cap_server_inv_witness : issued_ok (table (post r2)) G2 ∧ server_ok (post r2).
Proof. exact (cap_server_inv (post r2) G2 (trace r2) reachable2). Defined.

Lemma derivation_attenuates_witness : ∃ c, c ∈ G2 ∧ cap_id c = 2 ∧
  resource_id c = resource_id root_token ∧ ∀ i, has_bit (allowed_ops c) i → has_bit (allowed_ops root_token) i.
Proof.
  destruct (kept_is_Some (star 1) 2) as [c Hc]; [rewrite length_star; lia|].
  destruct (star_ok 1) as [Hok _]; [lia|]. destruct (kept_Some _ _ _ Hok Hc) as [Hid _].
  assert (c ∈ G2) as HG.
  { apply elem_of_app. right. rewrite r2_table. apply tokens_kept. by exists 2. }
  assert (root_token ∈ G2) as HR by (apply elem_of_app; left; apply root_in_G1).
  destruct (derivation_attenuates (post r2) G2 (trace r2) root_token c reachable2 HR HG) as (Hb & _ & Hr & _).
  - rewrite r2_table, Hid. eapply rtc_l; [|apply rtc_refl].
    change (cap_id root_token) with 1. rewrite star_kids. vm_compute. by left.
  - exists c. exact (conj HG (conj Hid (conj Hr Hb))).
Defined.

Lemma verify_refines_witness : cap_verify (token_bytes root_token) 1 9 (post r1) = KERN_SUCCESS.
Proof.
  apply (verify_refines (post r1) G1 (trace r1) (token_bytes root_token) 1 9 reachable1 root_u8
    (root_authentic G1 root_in_G1)); [unfold is_u64; lia|].
  exists root_token. split; [reflexivity|]. split; [apply root_in_G1|]. split; [reflexivity|].
  split; [|split; [reflexivity|]].
  - destruct r1_result as [_ ->]. apply star_live. vm_compute. split; discriminate.
  - apply mask_subset_spec; [unfold is_u64; lia|reflexivity].
Defined.

Lemma revoked_forever_witness : cap_verify (token_bytes root_token) 1 9 (post r3) ≠ KERN_SUCCESS.
Proof.
  assert (∃ tok, kept (star 1) 1 = Some tok) as [tok Htok] by (apply kept_is_Some; rewrite length_star; lia).
  destruct (revoked_forever (post r3) G3 (trace r3) (post r3) G3 (trace r3) 1 (token_bytes root_token) reachable3)
    as [H _].
  - rewrite r3_dead, Htok. by eexists.
  - unfold live. rewrite r3_dead, Htok. reflexivity.
  - apply cont_refl.
  - rewrite token_of_token_bytes by apply root_wf. reflexivity.
  - exact (H 1 9).
Defined.

Lemma acquire_verifies_witness : cap_verify (res r1).2 3 9 (post r1) = KERN_SUCCESS.
Proof.
  apply (acquire_verifies cap_server_init [] [] 4 9 3 0 188 (reach_init [])).
  1-3: unfold is_u32, is_u64; lia.
  - done.
  - exact (f_equal fst (proj1 r1_result)).
  - unfold is_u64. lia.
  - by split.
Defined.

Lemma derive_spec_witness :
  (res (cap_derive (token_bytes root_token) 1 0 188 (post r1) (trace r1))).1 = KERN_SUCCESS.
Proof.
  apply (derive_spec (post r1) G1 (trace r1) (token_bytes root_token) 1 0 188 reachable1
    (root_authentic G1 root_in_G1)); [unfold is_u64; lia|].
  rewrite token_of_token_bytes by apply root_wf.
  split; [apply length_token_bytes, root_wf|]. split; [unfold CAP_TOKEN_SIZE; lia|].
  split; [apply root_in_G1|]. split; [reflexivity|]. split.
  { destruct r1_result as [_ ->]. apply star_live. vm_compute. split; discriminate. }
  split; [discriminate|]. split; [reflexivity|]. split; [|reflexivity].
  apply mask_subset_spec; [unfold is_u64; lia|reflexivity].
Defined.
