(* ===== verification/CapKernel.v ===== *)
(** * The kernel side of capabilities

    [mach_kernel/kern/cap.c]: the traps [urmach_cap_verify], [urmach_cap_use],
    [urmach_cap_revoke] and [urmach_cap_register], with the table of revoked and
    counted ids.  [cap_lock] makes each trap atomic except in one place:
    [cap_state_get_or_create] drops the lock around [kalloc].  A trap that needs
    memory is therefore two atomic sections, and other traps may run in between;
    [kstep] is the relation of all interleavings. *)

From S2P Require Import Prelude Mach CapTypes.

#[local] Arguments cap_verify_hmac : simpl never.
#[local] Arguments token_of_bytes : simpl never.

Definition CAP_STATE_BUCKETS : nat := 256.
Definition CAP_FLAG_REVOKED : Z := 0x1.
Definition CAP_FLAG_CONSUMED : Z := 0x2.
Definition TASK_NULL : Z := 0.

(** [struct cap_state_entry]; the chain is the order in the bucket's list. *)
Record cap_state_entry := StateEntry { se_cap_id : Z; se_flags : Z; se_uses_left : Z }.

(** The globals of [kern/cap.c]. *)
Record kernel_cap := KernelCap {
  cap_state_table : list (list cap_state_entry);
  kernel_key : list Z;
  cap_key_set : bool;
  cap_server_task : Z }.

Definition set_state_table (t : list (list cap_state_entry)) (k : kernel_cap) : kernel_cap :=
  KernelCap t (kernel_key k) (cap_key_set k) (cap_server_task k).

Definition cap_init : kernel_cap :=
  KernelCap (replicate CAP_STATE_BUCKETS []) (replicate CAP_HMAC_SIZE 0) false TASK_NULL.

Definition cap_bucket (cap_id : Z) : nat :=
  let x := cap_id in
  let x := Z.lxor x (Z.shiftr x 33) in
  let x := x *64 0xff51afd7ed558ccd in
  let x := Z.lxor x (Z.shiftr x 33) in
  Z.to_nat (Z.land x (Z.of_nat CAP_STATE_BUCKETS - 1)).

#[local] Arguments cap_bucket : simpl never.

Definition bucket (k : kernel_cap) (h : nat) : list cap_state_entry := default [] (cap_state_table k !! h).

Definition cap_state_lookup (cap_id : Z) (k : kernel_cap) : option cap_state_entry :=
  let b := bucket k (cap_bucket cap_id) in
  i ← find_slot (λ e, se_cap_id e = cap_id) b; b !! i.

(** A write to the entry that the lookup found. *)
Definition write_entry (e : cap_state_entry) (k : kernel_cap) : kernel_cap :=
  let h := cap_bucket (se_cap_id e) in
  match find_slot (λ x, se_cap_id x = se_cap_id e) (bucket k h) with
  | Some i => set_state_table (<[h := <[i := e]> (bucket k h)]> (cap_state_table k)) k
  | None => k
  end.

(** The insertion at the head of the chain. *)
Definition insert_entry (e : cap_state_entry) (k : kernel_cap) : kernel_cap :=
  let h := cap_bucket (se_cap_id e) in
  set_state_table (<[h := e :: bucket k h]> (cap_state_table k)) k.

(** [cap_state_get_or_create] after [kalloc] returned and the lock is held again:
    another thread may have inserted the entry meanwhile. *)
Definition create_after_alloc (cap_id : Z) (k : kernel_cap) : cap_state_entry * kernel_cap :=
  match cap_state_lookup cap_id k with
  | Some race => (race, k)
  | None => let e := StateEntry cap_id 0 0 in (e, insert_entry e k)
  end.

Definition has_flag (f : Z) (e : cap_state_entry) : bool := negb (Z.land (se_flags e) f =? 0).

(** [cap_copyin_token]; [None] is a bad user pointer. *)
Definition cap_copyin_token (user_token : option (list Z)) : option uros_cap :=
  token_of_bytes <$> user_token.

(** The signed part is the token without its last [CAP_HMAC_SIZE] bytes, as in
    cap_server. *)
Definition cap_hmac_check (t : uros_cap) (k : kernel_cap) : bool := cap_verify_hmac (kernel_key k) t.

(** [op] is a [uint32_t] here and in the two traps that pass it on: only its low 32
    bits arrive, and are widened for the comparison with the token's 64. *)
Definition cap_check_locked (t : uros_cap) (op rid : Z) (k : kernel_cap) : Z :=
  let op := u32 op in
  if negb (cap_key_set k) then CAP_ERR_INTERNAL
  else if negb (cap_hmac_check t k) then CAP_ERR_INVALID_TOKEN
  else if decide (resource_id t ≠ rid) then CAP_ERR_RESOURCE_MISMATCH
  else if decide (Z.land (allowed_ops t) op ≠ op) then CAP_ERR_OP_NOT_ALLOWED
  else if decide (revoked t ≠ 0) then CAP_ERR_REVOKED
  else match cap_state_lookup (cap_id t) k with
       | Some e => if has_flag CAP_FLAG_REVOKED e then CAP_ERR_REVOKED else KERN_SUCCESS
       | None => KERN_SUCCESS
       end.

Definition urmach_cap_verify (user_token : option (list Z)) (op rid : Z) (k : kernel_cap) : Z :=
  match cap_copyin_token user_token with
  | None => CAP_ERR_INVALID_TOKEN
  | Some t => cap_check_locked t op rid k
  end.

(** The rest of [urmach_cap_use] once the entry is there. *)
Definition use_entry (t : uros_cap) (e : cap_state_entry) (k : kernel_cap) : Z * kernel_cap :=
  if has_flag CAP_FLAG_REVOKED e then (CAP_ERR_REVOKED, k)
  else
    let e := if has_flag CAP_FLAG_CONSUMED e then e
             else StateEntry (se_cap_id e) (Z.lor (se_flags e) CAP_FLAG_CONSUMED) (max_uses t) in
    if decide (se_uses_left e = 0) then (CAP_ERR_EXHAUSTED, write_entry e k)
    else (KERN_SUCCESS, write_entry (StateEntry (se_cap_id e) (se_flags e) (se_uses_left e - 1)) k).

(** The rest of [urmach_cap_revoke]. *)
Definition revoke_entry (e : cap_state_entry) (k : kernel_cap) : Z * kernel_cap :=
  (KERN_SUCCESS, write_entry (StateEntry (se_cap_id e) (Z.lor (se_flags e) CAP_FLAG_REVOKED) (se_uses_left e)) k).

(** A trap blocked in [kalloc], without the lock. *)
Inductive blocked :=
  | BUse (t : uros_cap)
  | BRevoke (cap_id : Z).

(** The first atomic section: the return code, or the point of blocking. *)
Definition urmach_cap_use (user_token : option (list Z)) (op rid : Z) (k : kernel_cap) :
    (Z + blocked) * kernel_cap :=
  match cap_copyin_token user_token with
  | None => (inl CAP_ERR_INVALID_TOKEN, k)
  | Some t =>
      let kr := cap_check_locked t op rid k in
      if decide (kr ≠ KERN_SUCCESS) then (inl kr, k)
      else if decide (max_uses t ≠ 0) then
        match cap_state_lookup (cap_id t) k with
        | Some e => let '(kr, k) := use_entry t e k in (inl kr, k)
        | None => (inr (BUse t), k)
        end
      else (inl KERN_SUCCESS, k)
  end.

Definition urmach_cap_revoke (caller : Z) (cap_id : Z) (k : kernel_cap) : (Z + blocked) * kernel_cap :=
  if decide (cap_key_set k = false ∨ caller ≠ cap_server_task k) then (inl CAP_ERR_UNAUTHORIZED, k)
  else match cap_state_lookup cap_id k with
       | Some e => let '(kr, k) := revoke_entry e k in (inl kr, k)
       | None => (inr (BRevoke cap_id), k)
       end.

(** The second atomic section; [mem] is whether [kalloc] returned memory. *)
Definition resume (b : blocked) (mem : bool) (k : kernel_cap) : Z * kernel_cap :=
  if negb mem then (CAP_ERR_NO_MEMORY, k)
  else match b with
       | BUse t => let '(e, k) := create_after_alloc (cap_id t) k in use_entry t e k
       | BRevoke id => let '(e, k) := create_after_alloc id k in revoke_entry e k
       end.

Definition urmach_cap_register (caller : Z) (user_token : option (list Z)) (k : kernel_cap) : Z * kernel_cap :=
  match cap_copyin_token user_token with
  | None => (CAP_ERR_INVALID_TOKEN, k)
  | Some t =>
      if decide (cap_id t = 0) then
        if decide (cap_key_set k = true ∧ caller ≠ cap_server_task k) then (CAP_ERR_UNAUTHORIZED, k)
        else (KERN_SUCCESS, KernelCap (cap_state_table k) (take CAP_HMAC_SIZE (hmac t)) true caller)
      else if decide (cap_key_set k = false ∨ caller ≠ cap_server_task k) then (CAP_ERR_UNAUTHORIZED, k)
      else (KERN_SUCCESS, k)
  end.

(** ** The table as a map *)

Definition kernel_ok (k : kernel_cap) : Prop := length (cap_state_table k) = CAP_STATE_BUCKETS.

Lemma cap_bucket_bound id : (cap_bucket id < CAP_STATE_BUCKETS)%nat.
Proof.
  unfold cap_bucket, CAP_STATE_BUCKETS. set (y := Z.lxor _ _).
  change (Z.of_nat 256 - 1) with (Z.ones 8). rewrite Z.land_ones by lia.
  pose proof (Z.mod_pos_bound y (2 ^ 8) ltac:(lia)). lia.
Qed.

Lemma bucket_insert k h b h' :
  kernel_ok k → (h < CAP_STATE_BUCKETS)%nat →
  bucket (set_state_table (<[h := b]> (cap_state_table k)) k) h' = if decide (h' = h) then b else bucket k h'.
Proof.
  intros Hk Hh. unfold bucket; simpl. case_decide; subst.
  - rewrite list_lookup_insert_eq; [done|]. unfold kernel_ok in Hk. lia.
  - by rewrite list_lookup_insert_ne by done.
Qed.

Lemma lookup_cap_id id k e : cap_state_lookup id k = Some e → se_cap_id e = id.
Proof.
  intros (i & Hi & He)%bind_Some. apply find_slot_Some in Hi as (x & Hx & Hid & _). congruence.
Qed.

Lemma lookup_insert_entry e k id :
  kernel_ok k →
  cap_state_lookup id (insert_entry e k) = if decide (id = se_cap_id e) then Some e else cap_state_lookup id k.
Proof.
  intros Hk. unfold cap_state_lookup, insert_entry. rewrite bucket_insert by (done || apply cap_bucket_bound).
  destruct (decide (cap_bucket id = cap_bucket (se_cap_id e))) as [Hb|Hb].
  - unfold find_slot. simpl. case_decide as He; case_decide; try congruence; [done|]. rewrite Hb.
    by destruct (list_find _ _) as [[i x]|].
  - rewrite decide_False by congruence. done.
Qed.

Lemma lookup_write_entry e k id :
  kernel_ok k → is_Some (cap_state_lookup (se_cap_id e) k) →
  cap_state_lookup id (write_entry e k) = if decide (id = se_cap_id e) then Some e else cap_state_lookup id k.
Proof.
  intros Hk [x Hx]. unfold write_entry. apply bind_Some in Hx as (i & Hi & Hx). rewrite Hi.
  pose proof Hi as (y & Hy & Hyid & _)%find_slot_Some. assert (y = x) as -> by congruence.
  unfold cap_state_lookup. rewrite bucket_insert by (done || apply cap_bucket_bound).
  destruct (decide (cap_bucket id = cap_bucket (se_cap_id e))) as [Hb|Hb];
    [|rewrite decide_False by congruence; done].
  rewrite <- Hb in *. rewrite (find_slot_insert_same _ _ _ x) by (done || by rewrite Hyid).
  case_decide as Hid.
  - subst id. rewrite Hi. simpl. apply list_lookup_insert_eq. by eapply lookup_lt_Some.
  - destruct (find_slot (λ e, se_cap_id e = id) (bucket k (cap_bucket id))) as [j|] eqn:Hj; [|done]. simpl.
    apply list_lookup_insert_ne. intros <-. apply find_slot_Some in Hj as (z & Hz & Hzid & _). congruence.
Qed.

Lemma kernel_ok_write e k : kernel_ok k → kernel_ok (write_entry e k).
Proof. unfold write_entry, kernel_ok. intros. destruct (find_slot _ _); [|done]. simpl. by rewrite length_insert. Qed.
Lemma kernel_ok_insert e k : kernel_ok k → kernel_ok (insert_entry e k).
Proof. unfold insert_entry, kernel_ok. intros. simpl. by rewrite length_insert. Qed.

(** ** Flags *)

Lemma flag_set f fl id u : f ≠ 0 → has_flag f (StateEntry id (Z.lor fl f) u) = true.
Proof.
  intros Hf. unfold has_flag; simpl. rewrite Z.land_lor_distr_l, Z.land_diag.
  destruct (Z.eqb_spec (Z.lor (Z.land fl f) f) 0) as [H|]; [|done]. apply Z.lor_eq_0_iff in H. lia.
Qed.
Lemma flag_other f g fl id u id' u' :
  Z.land g f = 0 → has_flag f (StateEntry id (Z.lor fl g) u) = has_flag f (StateEntry id' fl u').
Proof. intros Hfg. unfold has_flag; simpl. by rewrite Z.land_lor_distr_l, Hfg, Z.lor_0_r. Qed.

(** ** Interleavings *)

(** What the traps have granted, in order. *)
Inductive kevent :=
  | EVerified (t : uros_cap)
  | EUsed (t : uros_cap)
  | ERevoked (cap_id : Z).

Definition note (kr : Z) (ev : kevent) : list kevent := if decide (kr = KERN_SUCCESS) then [ev] else [].

Definition blocked_event (b : blocked) : kevent :=
  match b with BUse t => EUsed t | BRevoke id => ERevoked id end.

(** The blocked trap, or the event of a trap that has returned. *)
Definition outcome (r : Z + blocked) (ev : kevent) : list blocked * list kevent :=
  match r with inl kr => ([], note kr ev) | inr b => ([b], []) end.

Record kconf := KConf { kst : kernel_cap; kblocked : list blocked; klog : list kevent }.

Section interleaving.
(** The use limit of an id.  cap_server signs all images of a token with the
    same [max_uses]; a step uses a token only within that. *)
Context (mu : Z → Z) (mu_nonneg : ∀ id, 0 ≤ mu id).

Inductive kstep : kconf → kconf → Prop :=
  | k_verify k B l buf op rid :
      kstep (KConf k B l)
        (KConf k B (l ++ note (urmach_cap_verify (Some buf) op rid k) (EVerified (token_of_bytes buf))))
  | k_use k B l buf op rid r k' :
      (cap_verify_hmac (kernel_key k) (token_of_bytes buf) = true →
        max_uses (token_of_bytes buf) = mu (cap_id (token_of_bytes buf))) →
      urmach_cap_use (Some buf) op rid k = (r, k') →
      kstep (KConf k B l)
        (KConf k' (B ++ (outcome r (EUsed (token_of_bytes buf))).1)
                  (l ++ (outcome r (EUsed (token_of_bytes buf))).2))
  | k_revoke k B l caller id r k' :
      urmach_cap_revoke caller id k = (r, k') →
      kstep (KConf k B l) (KConf k' (B ++ (outcome r (ERevoked id)).1) (l ++ (outcome r (ERevoked id)).2))
  | k_resume k B1 b B2 l mem kr k' :
      resume b mem k = (kr, k') →
      kstep (KConf k (B1 ++ b :: B2) l) (KConf k' (B1 ++ B2) (l ++ note kr (blocked_event b)))
  | k_register k B l caller buf :
      kstep (KConf k B l) (KConf (urmach_cap_register caller (Some buf) k).2 B l).

Definition kinit : kconf := KConf cap_init [] [].

(** ** The invariant *)

Definition grants_id (id : Z) (ev : kevent) : Prop :=
  match ev with EVerified t | EUsed t => cap_id t = id | ERevoked _ => False end.
Definition used_id (id : Z) (ev : kevent) : Prop :=
  match ev with EUsed t => cap_id t = id | _ => False end.
#[global] Instance used_id_dec id ev : Decision (used_id id ev).
Proof. destruct ev; simpl; apply _. Defined.

Definition uses (id : Z) (l : list kevent) : Z := Z.of_nat (length (filter (used_id id) l)).

Definition counted (id : Z) (l : list kevent) (o : option cap_state_entry) : Prop :=
  match o with
  | Some e => if has_flag CAP_FLAG_CONSUMED e then 0 ≤ se_uses_left e ∧ se_uses_left e + uses id l = mu id
              else uses id l = 0
  | None => uses id l = 0
  end.

Definition is_revoked (id : Z) (k : kernel_cap) : Prop :=
  ∃ e, cap_state_lookup id k = Some e ∧ has_flag CAP_FLAG_REVOKED e = true.

Record kinv (c : kconf) : Prop := {
  ki_table : kernel_ok (kst c);
  ki_blocked : ∀ t, BUse t ∈ kblocked c → max_uses t = mu (cap_id t) ∧ mu (cap_id t) ≠ 0;
  ki_count : ∀ id, mu id ≠ 0 → counted id (klog c) (cap_state_lookup id (kst c));
  ki_revoked : ∀ id, ERevoked id ∈ klog c → is_revoked id (kst c);
  ki_order : ∀ l1 id l2 ev, klog c = l1 ++ ERevoked id :: l2 → ev ∈ l2 → ¬ grants_id id ev }.

(** How one atomic section may change the table: entries appear or are
    rewritten, revoked entries stay revoked. *)
Definition keeps_revoked (k k' : kernel_cap) : Prop := ∀ id, is_revoked id k → is_revoked id k'.

(** Extending the log. *)
Lemma order_snoc l ev k :
  (∀ id, ERevoked id ∈ l → is_revoked id k) →
  (∀ l1 id l2 ev, l = l1 ++ ERevoked id :: l2 → ev ∈ l2 → ¬ grants_id id ev) →
  (∀ id, grants_id id ev → ¬ is_revoked id k) →
  ∀ l1 id l2 ev', l ++ [ev] = l1 ++ ERevoked id :: l2 → ev' ∈ l2 → ¬ grants_id id ev'.
Proof.
  intros Hrev Hord Hev l1 id l2 ev' Heq Hin. destruct (exists_last (l := l2)) as (l3 & x & ->).
  { intros ->. by apply not_elem_of_nil in Hin. }
  rewrite app_comm_cons, app_assoc in Heq. apply app_inj_tail in Heq as [-> ->].
  apply elem_of_app in Hin as [Hin| ->%list_elem_of_singleton]; [by eapply Hord|].
  intros Hg. apply (Hev id Hg), Hrev. set_solver.
Qed.

Lemma uses_snoc id l ev : uses id (l ++ [ev]) = uses id l + (if decide (used_id id ev) then 1 else 0).
Proof.
  unfold uses. rewrite list_basics.list.filter_app, length_app. case_decide.
  - rewrite filter_cons_True by done. simpl. lia.
  - rewrite filter_cons_False by done. simpl. lia.
Qed.

(** One atomic section: what is to be shown of the new table and the event. *)
Lemma kinv_section k B l k' B' evs :
  kinv (KConf k B l) → kernel_ok k' →
  (∀ t, BUse t ∈ B' → max_uses t = mu (cap_id t) ∧ mu (cap_id t) ≠ 0) →
  keeps_revoked k k' → (evs = [] ∨ ∃ ev, evs = [ev]) →
  (∀ id, mu id ≠ 0 → counted id (l ++ evs) (cap_state_lookup id k')) →
  (∀ id, ERevoked id ∈ evs → is_revoked id k') →
  (∀ id ev, ev ∈ evs → grants_id id ev → ¬ is_revoked id k) →
  kinv (KConf k' B' (l ++ evs)).
Proof.
  intros [Ht Hb Hc Hr Ho] Hk' Hb' Hkeep Hevs Hc' Hr' Hg. split; simpl in *; try done.
  - intros id [Hin|Hin]%elem_of_app; [by apply Hkeep, Hr|by apply Hr'].
  - destruct Hevs as [->|[ev ->]]; [rewrite app_nil_r; apply Ho|].
    apply (order_snoc l ev k); [done|done|]. intros id Hgr. apply (Hg id ev); [set_solver|done].
Qed.

Lemma note_cases kr ev : note kr ev = [] ∨ ∃ ev', note kr ev = [ev'].
Proof. unfold note. case_decide; eauto. Qed.
Lemma elem_of_note kr ev ev' : ev' ∈ note kr ev → ev' = ev ∧ kr = KERN_SUCCESS.
Proof. unfold note. case_decide; set_solver. Qed.

(** Events that are not uses of the id do not count. *)
Lemma counted_other id l evs o :
  (∀ ev, ev ∈ evs → ¬ used_id id ev) → counted id l o → counted id (l ++ evs) o.
Proof.
  intros Hne. assert (uses id (l ++ evs) = uses id l) as Hu.
  { unfold uses. rewrite list_basics.list.filter_app, length_app. rewrite (filter_none _ evs); [simpl; lia|].
    intros i x Hx. apply Hne. by eapply list_elem_of_lookup_2. }
  unfold counted. by rewrite Hu.
Qed.

Lemma use_entry_section t e k l kr k' :
  kernel_ok k → cap_state_lookup (cap_id t) k = Some e → max_uses t = mu (cap_id t) → mu (cap_id t) ≠ 0 →
  (∀ id, mu id ≠ 0 → counted id l (cap_state_lookup id k)) → use_entry t e k = (kr, k') →
  kernel_ok k' ∧ keeps_revoked k k' ∧
  (∀ id, mu id ≠ 0 → counted id (l ++ note kr (EUsed t)) (cap_state_lookup id k')) ∧
  (kr = KERN_SUCCESS → ¬ is_revoked (cap_id t) k).
Proof.
  intros Hk He Hmu Hne Hc. unfold use_entry. pose proof (lookup_cap_id _ _ _ He) as Hid.
  destruct (has_flag CAP_FLAG_REVOKED e) eqn:Hrev.
  { intros [= <- <-]. split_and!; [done|by intros ?| |done]. unfold note. by rewrite app_nil_r. }
  assert (¬ is_revoked (cap_id t) k) as Hnr by (intros (e' & He' & ?); congruence).
  set (e1 := if has_flag CAP_FLAG_CONSUMED e then e else _).
  assert (se_cap_id e1 = cap_id t ∧ has_flag CAP_FLAG_CONSUMED e1 = true ∧ 0 ≤ se_uses_left e1 ∧
    se_uses_left e1 + uses (cap_id t) l = mu (cap_id t)) as (Hid1 & Hcons & Hpos & Hsum).
  { specialize (Hc _ Hne). rewrite He in Hc. simpl in Hc. unfold e1.
    destruct (has_flag CAP_FLAG_CONSUMED e) eqn:Hcf; simpl; [by rewrite Hcf|].
    pose proof (mu_nonneg (cap_id t)). split_and!; [done|by apply flag_set|lia|lia]. }
  clearbody e1. rewrite <- Hid1 in He, Hid.
  assert (∀ x, se_cap_id x = se_cap_id e1 → kernel_ok (write_entry x k) ∧ keeps_revoked k (write_entry x k) ∧
    ∀ id, cap_state_lookup id (write_entry x k) = if decide (id = cap_id t) then Some x else cap_state_lookup id k) as Hw.
  { intros x Hx. assert (∀ id, cap_state_lookup id (write_entry x k) =
      if decide (id = cap_id t) then Some x else cap_state_lookup id k) as Hl.
    { intros id. rewrite lookup_write_entry; [|done|rewrite Hx; by eexists]. by rewrite Hx, Hid1. }
    split_and!; [by apply kernel_ok_write| |done].
    intros id (y & Hy & Hyr). destruct (decide (id = cap_id t)) as [->|Hd].
    - destruct Hnr. by exists y.
    - exists y. rewrite Hl, decide_False by done. done. }
  case_decide as H0; intros [= <- <-].
  - destruct (Hw e1) as (? & ? & Hl); [done|]. split_and!; try done. unfold note. rewrite decide_False by done.
    rewrite app_nil_r. intros id Hm. rewrite Hl. case_decide; [|by apply Hc]. subst. simpl. by rewrite Hcons.
  - destruct (Hw (StateEntry (se_cap_id e1) (se_flags e1) (se_uses_left e1 - 1))) as (? & ? & Hl); [done|].
    split_and!; try done. unfold note. rewrite decide_True by done. intros id Hm. rewrite Hl. case_decide as Hd.
    + subst. unfold counted. change (has_flag _ (StateEntry _ _ _)) with (has_flag CAP_FLAG_CONSUMED e1).
      rewrite Hcons, uses_snoc, decide_True by done. simpl. lia.
    + apply counted_other; [|by apply Hc]. intros ev ->%list_elem_of_singleton. simpl. congruence.
Qed.

Lemma create_section id k l e k' :
  kernel_ok k → (∀ id, mu id ≠ 0 → counted id l (cap_state_lookup id k)) →
  create_after_alloc id k = (e, k') →
  kernel_ok k' ∧ cap_state_lookup id k' = Some e ∧ (∀ id, is_revoked id k ↔ is_revoked id k') ∧
  (∀ id, mu id ≠ 0 → counted id l (cap_state_lookup id k')).
Proof.
  intros Hk Hc. unfold create_after_alloc. destruct (cap_state_lookup id k) as [r|] eqn:Hl; intros [= <- <-].
  { by split_and!. }
  assert (∀ id', cap_state_lookup id' (insert_entry (StateEntry id 0 0) k) =
    if decide (id' = id) then Some (StateEntry id 0 0) else cap_state_lookup id' k) as Hi.
  { intros id'. by rewrite lookup_insert_entry by done. }
  split_and!.
  - by apply kernel_ok_insert.
  - rewrite Hi. by rewrite decide_True.
  - intros id'. unfold is_revoked. rewrite Hi. case_decide; [subst|done]. rewrite Hl. split.
    + by intros (? & ? & _).
    + intros (? & [= <-] & Hf). done.
  - intros id' Hm. specialize (Hc id' Hm). rewrite Hi. case_decide; [|done]. subst. by rewrite Hl in Hc.
Qed.

Lemma revoke_entry_section id e k l kr k' :
  kernel_ok k → cap_state_lookup id k = Some e →
  (∀ id, mu id ≠ 0 → counted id l (cap_state_lookup id k)) → revoke_entry e k = (kr, k') →
  kernel_ok k' ∧ keeps_revoked k k' ∧ is_revoked id k' ∧ kr = KERN_SUCCESS ∧
  (∀ id', mu id' ≠ 0 → counted id' (l ++ [ERevoked id]) (cap_state_lookup id' k')).
Proof.
  intros Hk He Hc [= <- <-]. pose proof (lookup_cap_id _ _ _ He) as Hid.
  set (x := StateEntry _ _ _). assert (∀ id', cap_state_lookup id' (write_entry x k) =
    if decide (id' = id) then Some x else cap_state_lookup id' k) as Hl.
  { intros id'. rewrite lookup_write_entry; [|done|simpl; rewrite Hid; by eexists]. simpl. by rewrite Hid. }
  assert (has_flag CAP_FLAG_REVOKED x = true) as Hx by by apply flag_set.
  split_and!; [by apply kernel_ok_write| | |done|].
  - intros id' (y & Hy & Hyr). unfold is_revoked. rewrite Hl. case_decide; eauto.
  - exists x. rewrite Hl. by rewrite decide_True.
  - intros id' Hm. apply counted_other; [by intros ev ->%list_elem_of_singleton []|].
    specialize (Hc id' Hm). rewrite Hl. case_decide; [|done]. subst id'. rewrite He in Hc. unfold counted in *.
    assert (has_flag CAP_FLAG_CONSUMED x = has_flag CAP_FLAG_CONSUMED e) as ->; [|done].
    unfold x. by rewrite (flag_other _ _ _ _ _ (se_cap_id e) (se_uses_left e)).
Qed.

(** ** Every interleaving keeps the invariant *)

Lemma check_not_revoked t op rid k :
  cap_check_locked t op rid k = KERN_SUCCESS →
  cap_verify_hmac (kernel_key k) t = true ∧ ¬ is_revoked (cap_id t) k.
Proof.
  unfold cap_check_locked, cap_hmac_check. destruct (cap_key_set k); [|done]. cbn [negb].
  destruct (cap_verify_hmac _ t) eqn:Hv; [|done]. cbn [negb]. do 3 (case_decide; [done|]).
  intros Hl. split; [done|]. intros (e & He & Hf). rewrite He, Hf in Hl. done.
Qed.

Lemma kinv_use k B l buf op rid r k' :
  kinv (KConf k B l) →
  (cap_verify_hmac (kernel_key k) (token_of_bytes buf) = true →
    max_uses (token_of_bytes buf) = mu (cap_id (token_of_bytes buf))) →
  urmach_cap_use (Some buf) op rid k = (r, k') →
  kinv (KConf k' (B ++ (outcome r (EUsed (token_of_bytes buf))).1)
            (l ++ (outcome r (EUsed (token_of_bytes buf))).2)).
Proof.
  intros Hinv Hmu. unfold urmach_cap_use. cbn [cap_copyin_token fmap option_fmap option_map].
  generalize dependent (token_of_bytes buf). intros t Hmu.
  pose proof Hinv as [Hk Hb Hc Hr Ho]. simpl in *.
  assert (∀ kr, kr ≠ KERN_SUCCESS →
    kinv (KConf k (B ++ (outcome (inl kr) (EUsed t)).1) (l ++ (outcome (inl kr) (EUsed t)).2))) as Hsame.
  { intros kr Hkr. simpl. unfold note. rewrite decide_False by done. by rewrite !app_nil_r. }
  case_decide as Hchk; [intros [= <- <-]; by apply Hsame|].
  apply check_not_revoked in Hchk as [Hv Hnr]. specialize (Hmu Hv). case_decide as Hmax.
  - destruct (cap_state_lookup (cap_id t) k) as [e|] eqn:He.
    + destruct (use_entry t e k) as [kr k1] eqn:Hu. intros [= <- <-]. simpl. rewrite app_nil_r.
      destruct (use_entry_section t e k l kr k1) as (? & ? & ? & ?); try done; [by rewrite <- Hmu|].
      apply (kinv_section k B l); try done; [apply note_cases|..].
      * by intros id [? _]%elem_of_note.
      * intros id ev [-> ->]%elem_of_note Hg. simpl in Hg. subst. auto.
    + intros [= <- <-]. simpl. apply (kinv_section k B l); try done.
      * intros t' [Ht|Ht]%elem_of_app; [by apply Hb|]. apply list_elem_of_singleton in Ht as [= ->].
        split; [done|congruence].
      * by intros id.
      * by left.
      * by rewrite app_nil_r.
      * by intros id ?%not_elem_of_nil.
      * by intros id ev ?%not_elem_of_nil.
  - intros [= <- <-]. simpl. rewrite app_nil_r. apply (kinv_section k B l); try done; [by intros id|apply note_cases|..].
    + intros id Hm. apply counted_other; [|by apply Hc]. intros ev [-> _]%elem_of_note. simpl. intros <-.
      lia.
    + by intros id [? _]%elem_of_note.
    + intros id ev [-> _]%elem_of_note. simpl. by intros <-.
Qed.

Lemma kinv_revoke k B l caller id r k' :
  kinv (KConf k B l) → urmach_cap_revoke caller id k = (r, k') →
  kinv (KConf k' (B ++ (outcome r (ERevoked id)).1) (l ++ (outcome r (ERevoked id)).2)).
Proof.
  intros Hinv. pose proof Hinv as [Hk Hb Hc Hr Ho]. simpl in *. unfold urmach_cap_revoke.
  case_decide. { intros [= <- <-]. simpl. unfold note. rewrite decide_False by done. by rewrite !app_nil_r. }
  destruct (cap_state_lookup id k) as [e|] eqn:He.
  - destruct (revoke_entry e k) as [kr k1] eqn:Hu. intros [= <- <-]. simpl. rewrite app_nil_r.
    destruct (revoke_entry_section id e k l kr k1) as (? & ? & ? & -> & ?); try done. unfold note.
    rewrite decide_True by done. apply (kinv_section k B l); try done; [by eauto|..].
    + by intros id' [= ->]%list_elem_of_singleton.
    + by intros id' ev ->%list_elem_of_singleton.
  - intros [= <- <-]. simpl. rewrite app_nil_r. split; simpl; try done.
    intros t [Ht|Ht]%elem_of_app; [by apply Hb|]. by apply list_elem_of_singleton in Ht.
Qed.

Lemma kinv_resume k B1 b B2 l mem kr k' :
  kinv (KConf k (B1 ++ b :: B2) l) → resume b mem k = (kr, k') →
  kinv (KConf k' (B1 ++ B2) (l ++ note kr (blocked_event b))).
Proof.
  intros Hinv. pose proof Hinv as [Hk Hb Hc Hr Ho]. simpl in *.
  assert (∀ t, BUse t ∈ B1 ++ B2 → max_uses t = mu (cap_id t) ∧ mu (cap_id t) ≠ 0) as Hb'.
  { intros t Ht. apply Hb. set_solver. }
  unfold resume. destruct mem; simpl.
  2: { intros [= <- <-]. unfold note. rewrite decide_False, app_nil_r by done. by split. }
  destruct b as [t|id]; simpl.
  - destruct (create_after_alloc (cap_id t) k) as [e k1] eqn:Hcr. intros Hu.
    destruct (create_section (cap_id t) k l e k1) as (Hk1 & He1 & Hrev & Hc1); [done..|].
    destruct (Hb t) as [Hm Hm0]; [set_solver|].
    destruct (use_entry_section t e k1 l kr k') as (? & Hkeep & ? & Hsucc); [done..|].
    apply (kinv_section k (B1 ++ BUse t :: B2) l); try done; [|apply note_cases|..].
    + intros id Hid. by apply Hkeep, Hrev.
    + by intros id [? _]%elem_of_note.
    + intros id ev [-> ->]%elem_of_note. simpl. intros <-. rewrite Hrev. auto.
  - destruct (create_after_alloc id k) as [e k1] eqn:Hcr. intros Hu.
    destruct (create_section id k l e k1) as (Hk1 & He1 & Hrev & Hc1); [done..|].
    destruct (revoke_entry_section id e k1 l kr k') as (? & Hkeep & ? & -> & ?); [done..|].
    unfold note. rewrite decide_True by done. apply (kinv_section k (B1 ++ BRevoke id :: B2) l); try done; [|by eauto|..].
    + intros id' Hid. by apply Hkeep, Hrev.
    + by intros id' [= ->]%list_elem_of_singleton.
    + by intros id' ev ->%list_elem_of_singleton.
Qed.

Lemma lookup_same_table id k k' :
  cap_state_table k' = cap_state_table k → cap_state_lookup id k' = cap_state_lookup id k.
Proof. intros H. unfold cap_state_lookup, bucket. by rewrite H. Qed.

Lemma register_table caller u k : cap_state_table (urmach_cap_register caller u k).2 = cap_state_table k.
Proof.
  unfold urmach_cap_register. destruct (cap_copyin_token u) as [t|]; [|done].
  repeat case_decide; done.
Qed.

Lemma kinv_step c c' : kinv c → kstep c c' → kinv c'.
Proof.
  intros Hinv Hstep. destruct Hstep as [k B l ub op rid| | | |k B l caller ub].
  - pose proof Hinv as [Hk Hb Hc Hr Ho]. apply (kinv_section k B l); try done; [by intros id|apply note_cases|..].
    + intros id Hm. apply counted_other; [|by apply Hc]. intros ev [-> _]%elem_of_note []. 
    + by intros id [? _]%elem_of_note.
    + intros id ev [-> Hs]%elem_of_note. simpl. intros <-. by apply check_not_revoked in Hs as [_ ?].
  - by eapply kinv_use.
  - by eapply kinv_revoke.
  - by eapply kinv_resume.
  - destruct Hinv as [Hk Hb Hc Hr Ho]. simpl in *. pose proof (register_table caller (Some ub) k) as Ht.
    split; simpl; try done.
    + unfold kernel_ok. by rewrite Ht.
    + intros id Hm. rewrite (lookup_same_table id k) by done. by apply Hc.
    + intros id Hid. unfold is_revoked. rewrite (lookup_same_table id k) by done. by apply Hr.
Qed.

Lemma kinv_init : kinv kinit.
Proof.
  assert (∀ id, cap_state_lookup id cap_init = None) as Hn.
  { intros id. unfold cap_state_lookup, bucket, cap_init. cbn [cap_state_table].
    rewrite lookup_replicate_2; [done|].
    apply cap_bucket_bound. }
  split; simpl.
  - apply length_replicate.
  - by intros t ?%not_elem_of_nil.
  - intros id _. by rewrite Hn.
  - by intros id ?%not_elem_of_nil.
  - intros [|] ? ? ? ?; discriminate.
Qed.

Lemma kinv_reachable c : rtc kstep kinit c → kinv c.
Proof. apply (rtc_ind_r kinv); [apply kinv_init|]. intros. by eapply kinv_step. Qed.

(** C4. A use-limited capability is used at most [max_uses] times, in every
    interleaving of the traps, including those that race in
    [cap_state_get_or_create] with the lock dropped. *)
Theorem uses_bounded c id : rtc kstep kinit c → mu id ≠ 0 → uses id (klog c) ≤ mu id.
Proof.
  intros Hc Hm. destruct (kinv_reachable c Hc) as [_ _ Hcount _ _]. specialize (Hcount id Hm).
  pose proof (mu_nonneg id). unfold counted in Hcount.
  destruct (cap_state_lookup id (kst c)) as [e|]; [|lia]. destruct (has_flag _ e); lia.
Qed.

(** A revoked id is refused from every entry. *)
Lemma revoked_refused c id :
  kinv c → ERevoked id ∈ klog c →
  (∀ buf op rid, cap_id (token_of_bytes buf) = id →
     urmach_cap_verify (Some buf) op rid (kst c) ≠ KERN_SUCCESS ∧
     ∃ kr, urmach_cap_use (Some buf) op rid (kst c) = (inl kr, kst c) ∧ kr ≠ KERN_SUCCESS) ∧
  (∀ t mem, cap_id t = id → (resume (BUse t) mem (kst c)).1 ≠ KERN_SUCCESS).
Proof.
  intros [_ _ _ Hr _] Hin. destruct (Hr id Hin) as (e & He & Hf). split.
  - intros buf op rid <-. unfold urmach_cap_verify, urmach_cap_use.
    cbn [cap_copyin_token fmap option_fmap option_map].
    assert (cap_check_locked (token_of_bytes buf) op rid (kst c) ≠ KERN_SUCCESS) as Hn.
    { intros [_ Hn]%check_not_revoked. apply Hn. by exists e. }
    split; [done|]. rewrite decide_True by done. by eexists.
  - intros t mem <-. unfold resume, create_after_alloc. destruct mem; [|done]. cbn [negb].
    rewrite He. unfold use_entry. by rewrite Hf.
Qed.

(** C26. A revocation in the kernel takes effect at once and for good.  Whatever
    interleaving leads to a configuration in which [urmach_cap_revoke] has returned
    success for an id: no verification and no use of the id has been granted since,
    and none is granted next, neither by [urmach_cap_verify] nor by [urmach_cap_use]
    nor by a use that had passed its checks before and was blocked in [kalloc].  The
    interleavings are those in which all signed copies of an id that are used carry the
    same [max_uses]. *)
Theorem kernel_revocation_final c l1 id l2 :
  rtc kstep kinit c → klog c = l1 ++ ERevoked id :: l2 →
  (∀ ev, ev ∈ l2 → ¬ grants_id id ev) ∧
  (∀ buf op rid, cap_id (token_of_bytes buf) = id →
     urmach_cap_verify (Some buf) op rid (kst c) ≠ KERN_SUCCESS ∧
     ∃ kr, urmach_cap_use (Some buf) op rid (kst c) = (inl kr, kst c) ∧ kr ≠ KERN_SUCCESS) ∧
  (∀ t mem, cap_id t = id → (resume (BUse t) mem (kst c)).1 ≠ KERN_SUCCESS).
Proof.
  intros Hc%kinv_reachable Hl. split; [intros ev; by apply (ki_order c Hc l1)|].
  apply revoked_refused; [done|]. rewrite Hl. set_solver.
Qed.
End interleaving.

(** Trust on first use.  Before any registration every verification is
    refused.  The task that registers first becomes the capability server, with
    its key; from then on no sequence of traps by other tasks changes the key or
    the server, all their registrations and revocations are refused, and the
    server itself may replace the key. *)
Theorem register_trust caller buf k :
  let r := urmach_cap_register caller (Some buf) k in
  (cap_key_set k = false → cap_id (token_of_bytes buf) = 0 →
     r = (KERN_SUCCESS, KernelCap (cap_state_table k) (take CAP_HMAC_SIZE (hmac (token_of_bytes buf))) true caller)) ∧
  (cap_key_set k = true → caller ≠ cap_server_task k → r = (CAP_ERR_UNAUTHORIZED, k) ∧
     ∀ id, urmach_cap_revoke caller id k = (inl CAP_ERR_UNAUTHORIZED, k)) ∧
  (cap_key_set k = true → caller = cap_server_task k →
     r.1 = KERN_SUCCESS ∧ cap_server_task r.2 = caller ∧ cap_key_set r.2 = true) ∧
  (cap_key_set k = false → ∀ u op rid, urmach_cap_verify u op rid k ≠ KERN_SUCCESS).
Proof.
  cbv zeta. unfold urmach_cap_register, urmach_cap_revoke, urmach_cap_verify, cap_check_locked, cap_copyin_token.
  cbn [fmap option_fmap option_map]. generalize (token_of_bytes buf) as t. intros t. split_and!.
  - intros H0 Hid. rewrite decide_True by done. rewrite decide_False; [done|]. rewrite H0. naive_solver.
  - intros H1 Hne. rewrite H1. split; [|intros id; by rewrite decide_True by tauto].
    case_decide; by rewrite decide_True by tauto.
  - intros H1 ->. rewrite H1. case_decide; by rewrite decide_False by naive_solver.
  - intros H0 u op rid. rewrite H0. by destruct u.
Qed.

(** ** Concrete runs *)

Section runs.
Context (key setup ub : list Z) (t : uros_cap).
Context (Hset : cap_id (token_of_bytes setup) = 0) (Hkey : take CAP_HMAC_SIZE (hmac (token_of_bytes setup)) = key).
Context (Hub : token_of_bytes ub = t) (Hsig : cap_verify_hmac key t = true).
Context (Hid : cap_id t = 5) (Hrid : resource_id t = 9) (Hops : allowed_ops t = 3) (Hrev : revoked t = 0)
  (Hmax : max_uses t = 1).

Definition registered : kernel_cap := KernelCap (replicate CAP_STATE_BUCKETS []) key true 1.

Lemma run_register mu : kstep mu kinit (KConf registered [] []).
Proof.
  assert ((urmach_cap_register 1 (Some setup) cap_init).2 = registered) as <-; [|apply k_register].
  unfold urmach_cap_register, cap_copyin_token. cbn [fmap option_fmap option_map].
  rewrite decide_True by done. rewrite decide_False by naive_solver. by rewrite Hkey.
Qed.

(** The first use has to allocate its entry. *)
Lemma use_blocks : urmach_cap_use (Some ub) 1 9 registered = (inr (BUse t), registered).
Proof.
  assert (cap_state_lookup 5 registered = None) as Hn by reflexivity.
  unfold urmach_cap_use, cap_copyin_token. cbn [fmap option_fmap option_map]. rewrite Hub.
  unfold cap_check_locked, cap_hmac_check. cbn [cap_key_set kernel_key registered negb].
  rewrite Hsig, Hrid, Hops, Hrev, Hid. cbn [negb]. rewrite Hn, Hmax. reflexivity.
Qed.

(** Use it once, with the entry created after a blocking [kalloc]. *)
Lemma run_use mu : mu 5 = 1 → ∃ k, rtc (kstep mu) kinit (KConf k [] [EUsed t]).
Proof.
  intros Hmu. assert (cap_state_lookup 5 registered = None) as Hn by reflexivity.
  assert (resume (BUse t) true registered =
    (KERN_SUCCESS, write_entry (StateEntry 5 2 0) (insert_entry (StateEntry 5 0 0) registered))) as Hr.
  { unfold resume, create_after_alloc. cbn [negb]. rewrite Hid, Hn. unfold use_entry. rewrite Hmax. reflexivity. }
  eexists. eapply rtc_l; [apply run_register|]. eapply rtc_l.
  { eapply k_use; [|exact use_blocks]. intros _. by rewrite Hub, Hid, Hmu. }
  eapply rtc_l; [|apply rtc_refl]. cbn [outcome fst snd app].
  exact (k_resume mu registered [] (BUse t) [] [] true _ _ Hr).
Qed.

(** The use blocks in [kalloc]; id 5 is revoked meanwhile; then the token of another id
    is verified. *)
Lemma run_revoke mu ub' t' :
  mu 5 = 1 → token_of_bytes ub' = t' → cap_verify_hmac key t' = true → cap_id t' = 6 →
  resource_id t' = 9 → allowed_ops t' = 3 → revoked t' = 0 →
  ∃ k, rtc (kstep mu) kinit (KConf k [BUse t] [ERevoked 5; EVerified t']).
Proof.
  intros Hmu Hub' Hsig' Hid' Hrid' Hops' Hrev'.
  assert (cap_state_lookup 5 registered = None) as Hn by reflexivity.
  set (k := write_entry (StateEntry 5 1 0) (insert_entry (StateEntry 5 0 0) registered)).
  assert (urmach_cap_verify (Some ub') 1 9 k = KERN_SUCCESS) as Hv.
  { unfold urmach_cap_verify, cap_copyin_token. cbn [fmap option_fmap option_map]. rewrite Hub'.
    unfold cap_check_locked, cap_hmac_check. change (kernel_key k) with key.
    change (cap_key_set k) with true. cbn [negb]. rewrite Hsig', Hrid', Hops', Hrev', Hid'. reflexivity. }
  exists k. eapply rtc_l; [apply run_register|]. eapply rtc_l.
  { eapply k_use; [|exact use_blocks]. intros _. by rewrite Hub, Hid, Hmu. }
  eapply rtc_l; [by apply (k_revoke mu registered _ _ 1 5)|].
  eapply rtc_l; [by apply (k_resume mu registered [BUse t] (BRevoke 5) [] [] true KERN_SUCCESS k)|].
  eapply rtc_l; [|apply rtc_refl].
  pose proof (k_verify mu k [BUse t] [ERevoked 5] ub' 1 9) as Hs. rewrite Hv, Hub' in Hs. exact Hs.
Qed.
End runs.

(** The key and the token of these runs. *)
Definition ex_key : list Z := replicate 32 7.
Definition ex_setup : uros_cap :=
  Cap 0 0 0 0 0 0 (replicate 64 0) 0 0 0 (replicate 6 0) 0 0 0 0 0 (replicate 6 0) 0 0 ex_key.
Definition ex_limited : uros_cap :=
  cap_sign ex_key (Cap 5 4 0 9 3 0 (replicate 64 0) 0 0 1 (replicate 6 0) 0 1 0 0 0 (replicate 6 0) 0 0 ex_key).

Definition ex_other : uros_cap :=
  cap_sign ex_key (Cap 6 4 0 9 3 0 (replicate 64 0) 0 0 0 (replicate 6 0) 0 1 0 0 0 (replicate 6 0) 0 0 ex_key).

Lemma ex_setup_wf : wf_token ex_setup.
Proof. split; cbn; done || lia. Qed.
Lemma ex_limited_wf : wf_token ex_limited.
Proof. apply cap_sign_wf. split; cbn; done || lia. Qed.

Lemma ex_other_wf : wf_token ex_other.
Proof. apply cap_sign_wf. split; cbn; done || lia. Qed.

Definition one_use (id : Z) : Z := 1.

Lemma uses_bounded_witness : ∃ c, rtc (kstep one_use) kinit c ∧ klog c = [EUsed ex_limited] ∧ uses 5 (klog c) ≤ 1.
Proof.
  destruct (run_use ex_key (token_bytes ex_setup) (token_bytes ex_limited) ex_limited) with (mu := one_use)
    as [k Hk].
  - rewrite token_of_token_bytes by apply ex_setup_wf. reflexivity.
  - rewrite token_of_token_bytes by apply ex_setup_wf. reflexivity.
  - apply token_of_token_bytes, ex_limited_wf.
  - apply cap_sign_verifies.
  - reflexivity.
  - reflexivity.
  - reflexivity.
  - reflexivity.
  - reflexivity.
  - reflexivity.
  - exists (KConf k [] [EUsed ex_limited]). split; [exact Hk|]. split; [reflexivity|].
    apply (uses_bounded one_use (λ _, ltac:(done)) _ 5 Hk). discriminate.
Defined.

(** The use of 5 that was blocked before the revocation is refused after it, as are its
    verification and a new use. *)
Lemma kernel_revocation_final_witness :
  ∃ k, rtc (kstep one_use) kinit (KConf k [BUse ex_limited] [ERevoked 5; EVerified ex_other]) ∧
    ¬ grants_id 5 (EVerified ex_other) ∧
    urmach_cap_verify (Some (token_bytes ex_limited)) 1 9 k ≠ KERN_SUCCESS ∧
    (resume (BUse ex_limited) true k).1 ≠ KERN_SUCCESS.
Proof.
  destruct (run_revoke ex_key (token_bytes ex_setup) (token_bytes ex_limited) ex_limited)
    with (mu := one_use) (ub' := token_bytes ex_other) (t' := ex_other) as [k Hk];
    [rewrite token_of_token_bytes by apply ex_setup_wf; reflexivity
    |rewrite token_of_token_bytes by apply ex_setup_wf; reflexivity
    |apply token_of_token_bytes, ex_limited_wf
    |apply cap_sign_verifies|reflexivity|reflexivity|reflexivity|reflexivity|reflexivity|reflexivity
    |apply token_of_token_bytes, ex_other_wf|apply cap_sign_verifies|reflexivity|reflexivity|reflexivity|reflexivity|].
  exists k. split; [exact Hk|].
  destruct (kernel_revocation_final one_use (λ _, ltac:(done)) _ [] 5 [EVerified ex_other] Hk eq_refl)
    as (H1 & H2 & H3).
  split; [apply H1; by left|]. split; [|by apply H3].
  destruct (H2 (token_bytes ex_limited) 1 9) as [H _]; [|exact H].
  rewrite token_of_token_bytes by apply ex_limited_wf. reflexivity.
Defined.
