(* ===== verification/CapAgree.v ===== *)
(** * Capabilities: the kernel and cap_server

    Resource servers check a token with the trap [urmach_cap_verify], clients of
    cap_server with its [cap_verify]; both must give the same verdict.  They do as
    long as they know the same revocations, and this is where they part. *)

From S2P Require Import Prelude Mach CapTypes CapTable CapManifest CapServer CapTree CapRevoke.
From S2P Require Import CapSystem CapKernel CapRuns.

#[local] Arguments token_of_bytes : simpl never.

Section agree.
Context {E : MachEnv} {C : CapConfig}.

(** The low half of a subset is a subset. *)
Lemma land_u32 a op : Z.land a op = op → Z.land a (u32 op) = u32 op.
Proof.
  intros H. unfold u32. change 4294967296 with (2 ^ 32).
  rewrite <- Z.land_ones, Z.land_assoc, H by lia. done.
Qed.

(** The kernel's verdict. *)
Lemma kernel_verify_iff buf op rid k :
  let tok := token_of_bytes buf in
  urmach_cap_verify (Some buf) op rid k = KERN_SUCCESS ↔
    cap_key_set k = true ∧ cap_verify_hmac (kernel_key k) tok = true ∧ resource_id tok = rid ∧
    Z.land (allowed_ops tok) (u32 op) = u32 op ∧ revoked tok = 0 ∧ ¬ is_revoked (cap_id tok) k.
Proof.
  cbv zeta. unfold urmach_cap_verify, cap_copyin_token. cbn [fmap option_fmap option_map].
  unfold cap_check_locked, cap_hmac_check, is_revoked. generalize (token_of_bytes buf) as t. intros t.
  destruct (cap_key_set k); cbn [negb]; [|naive_solver].
  destruct (cap_verify_hmac _ t); cbn [negb]; [|naive_solver].
  repeat (case_decide; [naive_solver|]).
  destruct (cap_state_lookup (cap_id t) k) as [e|]; [|naive_solver lia].
  destruct (has_flag CAP_FLAG_REVOKED e) eqn:Hf; [naive_solver|].
  split; [|done]. intros _. split_and!; try done. intros (e' & [= <-] & ?). congruence.
Qed.

(** The server's verdict. *)
Lemma server_verify_iff buf op rid s :
  table_ok (table s) → length buf = CAP_TOKEN_SIZE →
  let tok := token_of_bytes buf in
  cap_verify buf op rid s = KERN_SUCCESS ↔
    cap_verify_hmac cap_hmac_key tok = true ∧ resource_id tok = rid ∧
    mask_subset op (allowed_ops tok) = true ∧ revoked tok = 0 ∧
    ¬ ∃ live, kept (table s) (cap_id tok) = Some live ∧ revoked live ≠ 0.
Proof.
  intros Hok Hlen. cbv zeta. unfold cap_verify. rewrite decide_False by congruence.
  generalize (token_of_bytes buf) as t. intros t. cbv zeta. pose proof (find_by_id_kept _ (cap_id t) Hok) as Hf.
  destruct (cap_verify_hmac _ t); cbn [negb]; [|naive_solver].
  repeat (case_decide; [naive_solver|]). destruct (mask_subset op (allowed_ops t)); cbn [negb]; [|naive_solver].
  destruct (cap_table_find_by_id (cap_id t) (table s)) as [a|]; cbn [mbind option_bind].
  - destruct Hf as (e & -> & Hk & _). rewrite Hk. case_decide; [naive_solver|].
    split; [|done]. intros _. split_and!; try done. naive_solver.
  - rewrite Hf. split; [|done]. intros _. split_and!; try done. naive_solver.
Qed.

(** C30. The trap and the server request are the same check.  When the kernel
    holds the server's key and both know the same revocations of the token's id,
    [urmach_cap_verify] and [cap_verify] accept exactly the same presentations,
    although they test in a different order and write the subset test
    differently.  The operation is a word of 32 bits, which is what the trap takes;
    the request takes 64. *)
Theorem kernel_server_agree buf op rid k s :
  table_ok (table s) → length buf = CAP_TOKEN_SIZE → is_u32 op →
  cap_key_set k = true → kernel_key k = cap_hmac_key →
  (is_revoked (cap_id (token_of_bytes buf)) k ↔
     ∃ live, kept (table s) (cap_id (token_of_bytes buf)) = Some live ∧ revoked live ≠ 0) →
  urmach_cap_verify (Some buf) op rid k = KERN_SUCCESS ↔ cap_verify buf op rid s = KERN_SUCCESS.
Proof.
  intros Hok Hlen Hop Hset Hkey Hrev. rewrite kernel_verify_iff, server_verify_iff by done.
  rewrite Hkey, mask_subset_land, Z.eqb_eq, u32_small by (done || unfold is_u32, is_u64 in *; lia).
  rewrite Hrev. tauto.
Qed.

(** What [cap_revoke] does besides its own table. *)
Definition revoke_call (c : mach_call) : Prop :=
  match c with CapRevokeNotify _ _ | MachPortDeallocate _ => True | _ => False end.

#[local] Instance revoke_call_dec c : Decision (revoke_call c).
Proof. destruct c; apply _. Defined.

Abbreviation other_call := (λ c, ¬ revoke_call c).

Lemma revoke_call_emits c : revoke_call c → emits other_call (call (S := cap_server) c) [].
Proof. intros Hc. apply emits_nil_call. auto. Qed.

Lemma fanout_emits fuel i id : emits other_call (fanout_loop fuel i id) [].
Proof.
  revert i. induction fuel as [|fuel IH]; intros i; [apply emits_ret|]. cbn [fanout_loop].
  apply emits_nil_bind; [apply emits_get|]. intros s. case_match; [|apply emits_ret].
  apply emits_nil_bind; [by apply revoke_call_emits|]. intros kr. case_decide; [|apply IH].
  apply emits_nil_bind; [|intros; apply IH]. unfold revoke_subscribers_remove_at.
  apply emits_nil_bind; [apply emits_get|]. intros s'. case_match; [|apply emits_ret].
  apply emits_nil_bind; [by apply revoke_call_emits|]. intros _. cbv zeta. apply emits_put.
Qed.

Lemma revoke_emits id : emits other_call (cap_revoke id) [].
Proof.
  unfold cap_revoke. apply emits_nil_bind; [apply emits_get|]. intros s. case_match; [|apply emits_ret].
  cbv zeta. destruct (cascade _ _ _ _) as [[t k] st]. apply emits_nil_bind; [apply emits_put|]. intros _.
  case_decide; [|apply emits_ret]. apply emits_nil_bind; [|intros; apply emits_ret].
  apply emits_nil_mfor. intros y. unfold fanout_revoke_notify.
  apply emits_nil_bind; [apply emits_get|]. intros s'. apply fanout_emits.
Qed.

(** C40. A revocation by cap_server does not reach the kernel.  [cap_revoke] makes
    no call but the notifications of the subscribers (and the release of dead
    ones); there is no [urmach_cap_revoke] among them.  So for every issued token
    that is live and whose copy is unrevoked: after the revocation the server
    refuses the copy for everything, and the kernel still accepts it for every
    operation and resource it was issued for. *)
Theorem revoke_not_propagated s G l tok k op :
  reachable s G l → tok ∈ G → revoked tok = 0 → live (table s) (cap_id tok) = true →
  cap_key_set k = true → kernel_key k = cap_hmac_key → ¬ is_revoked (cap_id tok) k →
  is_u64 op → mask_subset op (allowed_ops tok) = true →
  let r := cap_revoke (cap_id tok) s l in
  res r = KERN_SUCCESS ∧ filter other_call (trace r) = filter other_call l ∧
  (∀ op' rid, cap_verify (token_bytes tok) op' rid (post r) ≠ KERN_SUCCESS) ∧
  urmach_cap_verify (Some (token_bytes tok)) op (resource_id tok) k = KERN_SUCCESS.
Proof.
  intros Hr%reachable_issued HG Hrev Hlive Hset Hkey Hnr Hop Hm.
  pose proof Hr as [Hok Ht Hk Hs _ _]. destruct (Hs tok HG) as (Hwf & Hv & cur & Hcur & _).
  destruct (kept_Some _ _ _ Hok Hcur) as [_ Hid].
  pose proof (revoke_emits (cap_id tok) s l) as Hem. rewrite app_nil_r in Hem.
  destruct (revoke_run (cap_id tok) s l Hok Ht Hid) as (left & dead & tr & Hrun & _). cbv zeta.
  rewrite Hrun in *. split; [done|]. split; [exact Hem|]. split.
  - intros op' rid. change (post (_, ?x, _)) with x. rewrite server_verify_iff; [|by apply mark_ids_ok|by apply length_token_bytes].
    rewrite token_of_token_bytes by done. intros (_ & _ & _ & _ & Hn). apply Hn.
    exists (revoke_token cur). split; [|done]. cbn [table set_subscribers set_table].
    rewrite kept_after by done. rewrite decide_True by (by apply revoked_by_root). by rewrite Hcur.
  - apply kernel_verify_iff. rewrite token_of_token_bytes by done. rewrite Hkey.
    rewrite mask_subset_land, Z.eqb_eq in Hm by done. by rewrite land_u32.
Qed.
End agree.

(** The token of [CapRuns] after its revocation. *)
Definition fresh_kernel : kernel_cap := KernelCap (replicate CAP_STATE_BUCKETS []) (replicate 32 7) true 1.

Lemma fresh_kernel_none id : ¬ is_revoked id fresh_kernel.
Proof.
  intros (e & He & _). unfold cap_state_lookup, bucket, fresh_kernel in He. cbn [cap_state_table] in He.
  rewrite lookup_replicate_2 in He by apply cap_bucket_bound. done.
Qed.

Lemma revoke_not_propagated_witness :
  cap_verify (C := cfg) (token_bytes root_token) 1 9 (post (cap_revoke (E := env) (C := cfg) 1 (post r1) (trace r1))) ≠ KERN_SUCCESS ∧
  urmach_cap_verify (Some (token_bytes root_token)) 1 9 fresh_kernel = KERN_SUCCESS.
Proof.
  destruct (revoke_not_propagated (E := env) (C := cfg) (post r1) G1 (trace r1) root_token fresh_kernel 1)
    as (_ & _ & H1 & H2).
  - exact reachable1.
  - exact root_in_G1.
  - reflexivity.
  - destruct r1_result as [_ ->]. apply star_live. vm_compute. split; discriminate.
  - reflexivity.
  - reflexivity.
  - apply fresh_kernel_none.
  - unfold is_u64. lia.
  - reflexivity.
  - split; [exact (H1 1 9)|exact H2].
Defined.

Lemma kernel_server_agree_witness :
  urmach_cap_verify (Some (token_bytes root_token)) 1 9 fresh_kernel = KERN_SUCCESS ↔
  cap_verify (C := cfg) (token_bytes root_token) 1 9 (post r1) = KERN_SUCCESS.
Proof.
  destruct r1_result as [_ Ht]. destruct (star_ok 0) as [Hok _]; [lia|].
  refine (kernel_server_agree (C := cfg) (token_bytes root_token) 1 9 fresh_kernel (post r1) _ _ _ _ _ _).
  - rewrite Ht. exact Hok.
  - apply length_token_bytes, root_wf.
  - unfold is_u32. lia.
  - reflexivity.
  - reflexivity.
  - rewrite token_of_token_bytes by apply root_wf. rewrite Ht. split.
    + intros H. exact (False_ind _ (fresh_kernel_none _ H)).
    + intros (tok & Hk & Hr). exfalso. apply Hr.
      pose proof (star_live 0 1 ltac:(lia)) as Hl. unfold live in Hl.
      change (cap_id root_token) with 1 in Hk. rewrite Hk in Hl. by apply bool_decide_eq_true in Hl.
Defined.
