(* ===== verification/Tso.v ===== *)
(** * Threads on x86 shared memory, with the kernel's futex

    The fast paths of FLIPC (include/flipc2.h) are inline code that several tasks
    run against one mapping, with plain loads and stores, a few locked
    instructions, [mfence], and [urmach_futex] (kern/sync_sema.c) to sleep and to
    wake.  This file has the machine they run on: x86-TSO, where each thread has a
    first-in first-out store buffer, reads its own buffered stores first, and
    drains the buffer at fences, locked instructions and in the kernel, which
    takes a lock before it queues or wakes a thread.  A program is a tree of
    accesses, so that the C functions are written as Rocq functions over it; the
    machine is executable.

    The second half is the proof method: a program is verified against an
    invariant of the shared state in which every thread has a ghost state of its
    own, one access at a time ([wp]); [sound_reachable] says that the invariant
    then holds in every reachable configuration. *)

From S2P Require Import Prelude Mach.

Definition KERN_INVALID_ADDRESS : Z := 1.
Definition KERN_RESOURCE_SHORTAGE : Z := 6.
Definition KERN_NOT_WAITING : Z := 48.
Definition KERN_OPERATION_TIMED_OUT : Z := 49.

(** ** Programs

    [Rmw] is a locked read-modify-write; [FutexWait] takes the words to wait on
    with their expected values (one of them for [URMACH_FUTEX_WAIT], several for
    [URMACH_FUTEX_WAITV]) and whether a timeout is set; [Note] leaves a mark in the
    trace of the run and is not an instruction. *)
Inductive prog (loc ev A : Type) : Type :=
| Ret (a : A)
| Load (x : loc) (k : Z → prog loc ev A)
| Store (x : loc) (v : Z) (k : prog loc ev A)
| Mfence (k : prog loc ev A)
| Rmw (x : loc) (f : Z → Z) (k : Z → prog loc ev A)
| FutexWait (ws : list (loc * Z)) (timed : bool) (k : Z → prog loc ev A)
| FutexWake (x : loc) (n : Z) (k : prog loc ev A)
| Note (e : ev) (k : prog loc ev A).
Arguments Ret {_ _ _} _.
Arguments Load {_ _ _} _ _.
Arguments Store {_ _ _} _ _ _.
Arguments Mfence {_ _ _} _.
Arguments Rmw {_ _ _} _ _ _.
Arguments FutexWait {_ _ _} _ _ _.
Arguments FutexWake {_ _ _} _ _ _.
Arguments Note {_ _ _} _ _.

Fixpoint prog_bind {loc ev A B} (f : A → prog loc ev B) (p : prog loc ev A) : prog loc ev B :=
  match p with
  | Ret a => f a
  | Load x k => Load x (λ v, prog_bind f (k v))
  | Store x v k => Store x v (prog_bind f k)
  | Mfence k => Mfence (prog_bind f k)
  | Rmw x g k => Rmw x g (λ v, prog_bind f (k v))
  | FutexWait ws t k => FutexWait ws t (λ v, prog_bind f (k v))
  | FutexWake x n k => FutexWake x n (prog_bind f k)
  | Note e k => Note e (prog_bind f k)
  end.
#[global] Instance prog_ret {loc ev} : MRet (prog loc ev) := λ A a, Ret a.
#[global] Instance prog_mbind {loc ev} : MBind (prog loc ev) := λ A B f p, prog_bind f p.

(** The accesses as commands. *)
Section commands.
Context {loc ev : Type}.
Definition load (x : loc) : prog loc ev Z := Load x Ret.
Definition store (x : loc) (v : Z) : prog loc ev unit := Store x v (Ret tt).
Definition mfence : prog loc ev unit := Mfence (Ret tt).
Definition rmw (x : loc) (f : Z → Z) : prog loc ev Z := Rmw x f Ret.
Definition futex_wait (x : loc) (v : Z) (timed : bool) : prog loc ev Z :=
  FutexWait [(x, v)] timed Ret.
Definition futex_waitv (ws : list (loc * Z)) (timed : bool) : prog loc ev Z :=
  FutexWait ws timed Ret.
Definition futex_wake (x : loc) (n : Z) : prog loc ev unit := FutexWake x n (Ret tt).
Definition note (e : ev) : prog loc ev unit := Note e (Ret tt).
End commands.

(** ** The machine *)

Section machine.
Context {loc : Type} `{EqDecision loc} {ev A : Type}.
Abbreviation prog := (prog loc ev A).
Abbreviation buffer := (list (loc * Z)).

Definition upd (m : loc → Z) (x : loc) (v : Z) : loc → Z :=
  λ y, if decide (y = x) then v else m y.

(** Memory as a thread with this store buffer sees it. *)
Definition view (m : loc → Z) (b : buffer) : loc → Z := foldl (λ m xv, upd m xv.1 xv.2) m b.

(** A thread in [futex_wait] or [futex_waitv] has put itself on the wait queue
    ([queued]; a waker takes it off), and then reads the words again one by one
    ([todo]) before it blocks. *)
Inductive tstate :=
| Run (p : prog)
| Wait (keys : list loc) (todo : list (loc * Z)) (queued timed : bool) (k : Z → prog).

Record thread := Thread { buf : buffer; st : tstate }.
Record config := Config { memory : loc → Z; threads : list thread; events : list ev }.

(** What happens next: an instruction of thread [i]; an instruction of thread [i]
    that wakes one thread, [j]; the oldest store of thread [i] reaches memory; the
    trap of thread [i] returns [kr] although no one woke it. *)
Inductive act := Exec (i : nat) | Wake (i j : nat) | Flush (i : nat) | Return (i : nat) (kr : Z).

Definition queue_of (t : thread) : list loc :=
  match st t with Wait keys _ true _ _ => keys | _ => [] end.
Definition dequeue (t : thread) : thread :=
  match st t with Wait keys todo _ timed k => Thread (buf t) (Wait keys todo false timed k) | _ => t end.

(** [futex_wake]: the waiters that leave the queue of [x].  When all are woken,
    everyone on it; when one is, that one, and every thread that waits on several
    words, for these are kept in a registry of their own ([futexv_wake_key]). *)
Definition wake_all (x : loc) (j : nat) (keys : list loc) : bool := bool_decide (x ∈ keys).
Definition wake_one (x : loc) (w : nat) (j : nat) (keys : list loc) : bool :=
  bool_decide (x ∈ keys) && (bool_decide (j = w) || bool_decide (1 < length keys)%nat).
Definition wake_none (j : nat) (keys : list loc) : bool := false.
Definition wake (p : nat → list loc → bool) (j : nat) (t : thread) : thread :=
  if p j (queue_of t) then dequeue t else t.

(** One instruction of a thread in memory [m]: the thread afterwards, the memory,
    the word whose waiters are woken with the number of them, and the mark. *)
Definition exec (m : loc → Z) (t : thread) : option (thread * (loc → Z) * option (loc * Z) * list ev) :=
  match st t with
  | Run (Ret _) => None
  | Run (Load x k) => Some (Thread (buf t) (Run (k (view m (buf t) x))), m, None, [])
  | Run (Store x v k) => Some (Thread (buf t ++ [(x, v)]) (Run k), m, None, [])
  | Run (Mfence k) =>
      if decide (buf t = []) then Some (Thread [] (Run k), m, None, []) else None
  | Run (Rmw x f k) =>
      if decide (buf t = []) then Some (Thread [] (Run (k (m x))), upd m x (f (m x)), None, [])
      else None
  | Run (FutexWait ws timed k) =>
      if decide (buf t = [] ∧ ws ≠ []) then Some (Thread [] (Wait ws.*1 ws true timed k), m, None, [])
      else None
  | Run (FutexWake x n k) =>
      if decide (buf t = []) then Some (Thread [] (Run k), m, Some (x, n), []) else None
  | Run (Note e k) => Some (Thread (buf t) (Run k), m, None, [e])
  | Wait keys ((x, v) :: todo) q timed k =>
      if decide (m x = v) then Some (Thread (buf t) (Wait keys todo q timed k), m, None, [])
      else Some (Thread (buf t) (Run (k KERN_NOT_WAITING)), m, None, [])
  | Wait keys [] false timed k => Some (Thread (buf t) (Run (k KERN_SUCCESS)), m, None, [])
  | Wait keys [] true timed k => None
  end.

(** The trap may fail at once (a bad address, no slot for a multi-waiter, no word to
    wait on), and a
    blocked thread may come back because of its timeout, an interruption or a
    wake-up meant for another word with the same hash. *)
Definition returns (kr : Z) (t : thread) : option thread :=
  match st t with
  | Run (FutexWait ws timed k) =>
      if decide (kr = KERN_INVALID_ADDRESS ∨ kr = KERN_RESOURCE_SHORTAGE ∨ kr = KERN_INVALID_ARGUMENT)
      then Some (Thread (buf t) (Run (k kr))) else None
  | Wait keys [] true timed k =>
      if decide (kr = KERN_SUCCESS ∨ timed = true ∧ kr = KERN_OPERATION_TIMED_OUT)
      then Some (Thread (buf t) (Run (k kr))) else None
  | _ => None
  end.

Definition woken (p : nat → list loc → bool) (ts : list thread) : list thread := imap (wake p) ts.

(** Whom an instruction wakes by itself: everyone on the word, or no one if it wakes
    one thread and none waits; [None] if the thread to wake has to be chosen. *)
Definition wakes (o : option (loc * Z)) (ts : list thread) : option (nat → list loc → bool) :=
  match o with
  | None => Some wake_none
  | Some (x, n) =>
      if decide (n ≠ 1) then Some (wake_all x)
      else if decide (Forall (λ t, x ∉ queue_of t) ts) then Some wake_none else None
  end.

Definition perform (a : act) (c : config) : option config :=
  match a with
  | Exec i =>
      t ← threads c !! i;
      '(t', m', o, es) ← exec (memory c) t;
      p ← wakes o (threads c);
      Some (Config m' (<[i := t']> (woken p (threads c))) (events c ++ es))
  | Wake i j =>
      t ← threads c !! i;
      u ← threads c !! j;
      '(t', m', o, es) ← exec (memory c) t;
      match o with
      | Some (x, n) =>
          if decide (n = 1 ∧ x ∈ queue_of u)
          then Some (Config m' (<[i := t']> (woken (wake_one x j) (threads c))) (events c ++ es))
          else None
      | None => None
      end
  | Flush i =>
      t ← threads c !! i;
      match buf t with
      | [] => None
      | (x, v) :: b =>
          Some (Config (upd (memory c) x v) (<[i := Thread b (st t)]> (threads c)) (events c))
      end
  | Return i kr =>
      t ← threads c !! i;
      t' ← returns kr t;
      Some (Config (memory c) (<[i := t']> (threads c)) (events c))
  end.

Definition step (c c' : config) : Prop := ∃ a, perform a c = Some c'.

(** A run given by its schedule. *)
Fixpoint run (s : list act) (c : config) : option config :=
  match s with
  | [] => Some c
  | a :: s => c' ← perform a c; run s c'
  end.

Lemma run_steps s c c' : run s c = Some c' → rtc step c c'.
Proof.
  revert c. induction s as [|a s IH]; intros c; cbn.
  - intros [= ->]. reflexivity.
  - destruct (perform a c) as [c1|] eqn:H1; [|done]. intros Hr.
    eapply rtc_l; [by exists a|]. by apply IH.
Qed.

Lemma view_app m b1 b2 : view m (b1 ++ b2) = view (view m b1) b2.
Proof. apply foldl_app. Qed.
Lemma upd_same m x v : upd m x v x = v.
Proof. unfold upd. by rewrite decide_True. Qed.
Lemma upd_other m x v y : y ≠ x → upd m x v y = m y.
Proof. intros. unfold upd. by rewrite decide_False. Qed.

(** A word that the buffer does not write is read from memory. *)
Lemma view_other m b y : y ∉ b.*1 → view m b y = m y.
Proof.
  revert m. induction b as [|[x v] b IH]; intros m Hy; [done|].
  cbn in *. apply not_elem_of_cons in Hy as [Hn Hy].
  change (view (upd m x v) b y = m y). rewrite IH by done. by apply upd_other.
Qed.

(** The view of a word depends on the memory at that word only. *)
Lemma view_ext m m' b y : m y = m' y → view m b y = view m' b y.
Proof.
  revert m m'. induction b as [|[x v] b IH]; intros m m' Hm; [done|].
  apply (IH (upd m x v) (upd m' x v)). unfold upd. by case_decide.
Qed.
Lemma view_snoc m b x v y : view m (b ++ [(x, v)]) y = if decide (y = x) then v else view m b y.
Proof. by rewrite view_app. Qed.

Lemma lookup_insert_cases {B} (ls : list B) i j l x :
  <[i := l]> ls !! j = Some x → (i = j ∧ x = l) ∨ (i ≠ j ∧ ls !! j = Some x).
Proof.
  intros H. destruct (decide (i = j)) as [->|Hne].
  - left. split; [done|]. apply list_lookup_insert_Some in H. naive_solver.
  - right. by rewrite list_lookup_insert_ne in H.
Qed.

Lemma alter_at {B} (f : B → B) (ls : list B) i l : ls !! i = Some l → alter f i ls = <[i := f l]> ls.
Proof.
  intros Hl. apply list_eq. intros j. destruct (decide (j = i)) as [->|Hne].
  - rewrite list_lookup_alter_eq, Hl. cbn. by rewrite list_lookup_insert_eq by (by eapply lookup_lt_Some).
  - by rewrite list_lookup_alter_ne, list_lookup_insert_ne by done.
Qed.

(** ** Verification of a program

    [L] is the ghost state of a thread, [Inv] the invariant of what the threads
    share: their ghost states, memory, the store buffers, the words they are
    queued on, and the trace.  [Parked] is what is known of a thread that has read
    all its words again and blocks. *)
Section verification.
Context {L : Type}.
Record shared := Shared {
  s_mem : loc → Z; s_bufs : list buffer; s_queue : list (list loc); s_evs : list ev }.
Variable Inv : list L → shared → Prop.
Variable Parked : L → Prop.

Definition shared_of (c : config) : shared :=
  Shared (memory c) (buf <$> threads c) (queue_of <$> threads c) (events c).

(** The thread [i] with ghost state [l] may make a step that changes the shared
    state by [f], provided [g] holds, to a ghost state that satisfies [K]. *)
Definition move (i : nat) (g : shared → Prop) (f : shared → shared) (K : shared → L → Prop)
  (l : L) : Prop :=
  ∀ ls s, ls !! i = Some l → Inv ls s → g s →
    ∃ l', Inv (<[i := l']> ls) (f s) ∧ K s l'.

Definition running (i : nat) (s : shared) : Prop := s_queue s !! i = Some [].
Definition drained (i : nat) (s : shared) : Prop := s_bufs s !! i = Some [] ∧ running i s.
Definition set_queue (i : nat) (keys : list loc) (s : shared) : shared :=
  Shared (s_mem s) (s_bufs s) (<[i := keys]> (s_queue s)) (s_evs s).
Definition push (i : nat) (x : loc) (v : Z) (s : shared) : shared :=
  Shared (s_mem s) (alter (λ b, b ++ [(x, v)]) i (s_bufs s)) (s_queue s) (s_evs s).
Definition log (e : ev) (s : shared) : shared :=
  Shared (s_mem s) (s_bufs s) (s_queue s) (s_evs s ++ [e]).
Definition write (x : loc) (f : Z → Z) (s : shared) : shared :=
  Shared (upd (s_mem s) x (f (s_mem s x))) (s_bufs s) (s_queue s) (s_evs s).
Definition wake_by (p : nat → list loc → bool) (s : shared) : shared :=
  Shared (s_mem s) (s_bufs s) (imap (λ j keys, if p j keys then [] else keys) (s_queue s)) (s_evs s).
Definition queued (x : loc) (j : nat) (s : shared) : Prop := ∃ keys, s_queue s !! j = Some keys ∧ x ∈ keys.
Definition view_of (i : nat) (s : shared) (x : loc) : Z :=
  match s_bufs s !! i with Some b => view (s_mem s) b x | None => s_mem s x end.
Definition always (s : shared) : Prop := True.

(** The rest of a wait: [K1] after a word that has changed, [K2] after the block,
    with the code of the trap; a thread that was woken is no longer queued. *)
Fixpoint wp_wait (i : nat) (todo : list (loc * Z)) (K1 : L → Prop) (K2 : Z → L → Prop) (l : L) : Prop :=
  match todo with
  | [] =>
      Parked l ∧ move i (running i) id (λ _, K2 KERN_SUCCESS) l ∧
      ∀ kr, move i (λ s, ¬ running i s) (set_queue i []) (λ _, K2 kr) l
  | (x, v) :: todo =>
      move i (λ s, s_mem s x ≠ v) (set_queue i []) (λ _, K1) l ∧
      move i (λ s, s_mem s x = v) id (λ _, wp_wait i todo K1 K2) l
  end.

Fixpoint wp (i : nat) (p : prog) (Q : A → L → Prop) (l : L) : Prop :=
  match p with
  | Ret a => Q a l
  | Load x k => move i (running i) id (λ s, wp i (k (view_of i s x)) Q) l
  | Store x v k => move i (running i) (push i x v) (λ _, wp i k Q) l
  | Mfence k => move i (drained i) id (λ _, wp i k Q) l
  | Rmw x f k => move i (drained i) (write x f) (λ s, wp i (k (s_mem s x)) Q) l
  | FutexWait ws timed k =>
      (∀ kr, kr ≠ KERN_SUCCESS → kr ≠ KERN_OPERATION_TIMED_OUT → wp i (k kr) Q l) ∧
      move i (drained i) (set_queue i ws.*1)
        (λ _, wp_wait i ws (wp i (k KERN_NOT_WAITING) Q) (λ kr, wp i (k kr) Q)) l
  | FutexWake x n k =>
      if decide (n ≠ 1) then move i (drained i) (wake_by (wake_all x)) (λ _, wp i k Q) l
      else (∀ j, move i (λ s, drained i s ∧ queued x j s) (wake_by (wake_one x j)) (λ _, wp i k Q) l) ∧
           move i (λ s, drained i s ∧ ∀ j, ¬ queued x j s) id (λ _, wp i k Q) l
  | Note e k => move i (running i) (log e) (λ _, wp i k Q) l
  end.

Definition wp_st (i : nat) (q : tstate) (Q : A → L → Prop) (l : L) : Prop :=
  match q with
  | Run p => wp i p Q l
  | Wait keys todo q timed k =>
      keys ≠ [] ∧ wp_wait i todo (wp i (k KERN_NOT_WAITING) Q) (λ kr, wp i (k kr) Q) l
  end.

(** The invariant holds and every thread is verified from where it stands. *)
Definition sound (Q : nat → A → L → Prop) (ls : list L) (c : config) : Prop :=
  Inv ls (shared_of c) ∧ length ls = length (threads c) ∧
  ∀ i t l, threads c !! i = Some t → ls !! i = Some l → wp_st i (st t) (Q i) l.

Lemma wp_st_wake p j (t : thread) Q l i : wp_st i (st t) Q l → wp_st i (st (wake p j t)) Q l.
Proof. unfold wake, dequeue. destruct (p j (queue_of t)); [|done]. by destruct t as [b []]. Qed.

Lemma sound_move Q ls c i t g f K l m' t' p es :
  sound Q ls c → threads c !! i = Some t → ls !! i = Some l →
  move i g f K l → g (shared_of c) →
  f (shared_of c) = shared_of (Config m' (<[i := t']> (woken p (threads c))) (events c ++ es)) →
  (∀ l', K (shared_of c) l' → wp_st i (st t') (Q i) l') →
  ∃ ls', sound Q ls' (Config m' (<[i := t']> (woken p (threads c))) (events c ++ es)).
Proof.
  intros (Hinv & Hlen & Hts) Ht Hl Hm Hg Hf HK.
  destruct (Hm ls (shared_of c) Hl Hinv Hg) as (l' & Hinv' & Hk). rewrite Hf in Hinv'.
  exists (<[i := l']> ls). split_and!; [done| |].
  - cbn. unfold woken. by rewrite !length_insert, length_imap.
  - intros j u lj. cbn. unfold woken. destruct (decide (j = i)) as [->|Hne].
    + rewrite list_lookup_insert_eq by (rewrite length_imap; by eapply lookup_lt_Some).
      intros [= <-]. rewrite list_lookup_insert_eq by (by eapply lookup_lt_Some).
      intros [= <-]. by apply HK.
    + rewrite !list_lookup_insert_ne by done. rewrite list_lookup_imap. intros Hu Hlj.
      destruct (threads c !! j) as [u0|] eqn:Hu0; [|done]. injection Hu as <-.
      apply wp_st_wake. by eapply Hts.
Qed.

Lemma shared_of_insert m i t' ts es :
  shared_of (Config m (<[i := t']> ts) es) =
  Shared m (<[i := buf t']> (buf <$> ts)) (<[i := queue_of t']> (queue_of <$> ts)) es.
Proof. unfold shared_of. cbn. by rewrite !list_fmap_insert. Qed.

Lemma bufs_id (i : nat) (t : thread) (ts : list thread) b : ts !! i = Some t → b = buf t → <[i := b]> (buf <$> ts) = buf <$> ts.
Proof. intros Ht ->. apply list_insert_id. by rewrite list_lookup_fmap, Ht. Qed.
Lemma queue_id (i : nat) (t : thread) (ts : list thread) q :
  ts !! i = Some t → q = queue_of t → <[i := q]> (queue_of <$> ts) = queue_of <$> ts.
Proof. intros Ht ->. apply list_insert_id. by rewrite list_lookup_fmap, Ht. Qed.

Lemma bufs_wake p (ts : list thread) : buf <$> woken p ts = buf <$> ts.
Proof.
  apply list_eq. intros j. unfold woken. rewrite !list_lookup_fmap, list_lookup_imap.
  destruct (ts !! j) as [t|]; [|done]. cbn. unfold wake, dequeue.
  destruct (p j (queue_of t)); [|done]. by destruct (st t).
Qed.
Lemma queue_wake p (ts : list thread) :
  queue_of <$> woken p ts = imap (λ j keys, if p j keys then [] else keys) (queue_of <$> ts).
Proof.
  apply list_eq. intros j. unfold woken. rewrite list_lookup_fmap, !list_lookup_imap, list_lookup_fmap.
  destruct (ts !! j) as [t|]; [|done]. cbn. unfold wake, dequeue, queue_of.
  destruct (p j _); [|done]. by destruct (st t) as [|ks td [] tm k] eqn:Es; rewrite ?Es.
Qed.
Lemma woken_none (ts : list thread) : woken wake_none ts = ts.
Proof.
  apply list_eq. intros j. unfold woken. rewrite list_lookup_imap. by destruct (ts !! j).
Qed.

Lemma running_run c i b p : threads c !! i = Some (Thread b (Run p)) → running i (shared_of c).
Proof. intros Ht. unfold running. cbn. by rewrite list_lookup_fmap, Ht. Qed.
Lemma drained_run c i p : threads c !! i = Some (Thread [] (Run p)) → drained i (shared_of c).
Proof.
  intros Ht. split; [|by eapply running_run]. cbn. by rewrite list_lookup_fmap, Ht.
Qed.
Lemma queued_thread c j u x : threads c !! j = Some u → x ∈ queue_of u → queued x j (shared_of c).
Proof. intros Hu Hx. exists (queue_of u). cbn. by rewrite list_lookup_fmap, Hu. Qed.
Lemma queued_none c x : Forall (λ t, x ∉ queue_of t) (threads c) → ∀ j, ¬ queued x j (shared_of c).
Proof.
  intros Hf j (keys & Hj & Hx). cbn in Hj. rewrite list_lookup_fmap in Hj.
  destruct (threads c !! j) as [u|] eqn:Hu; [|done]. injection Hj as <-.
  by apply (Forall_lookup_1 _ _ _ _ Hf Hu).
Qed.

Lemma view_of_thread c i t x :
  threads c !! i = Some t → view_of i (shared_of c) x = view (memory c) (buf t) x.
Proof. intros Ht. unfold view_of. cbn. by rewrite list_lookup_fmap, Ht. Qed.

Lemma push_thread (i : nat) (t : thread) (ts : list thread) x v :
  ts !! i = Some t →
  alter (λ b, b ++ [(x, v)]) i (buf <$> ts) = <[i := buf t ++ [(x, v)]]> (buf <$> ts).
Proof. intros Ht. apply (alter_at (λ b, b ++ [(x, v)])). by rewrite list_lookup_fmap, Ht. Qed.

(** Closes the description of the shared state after an instruction that wakes no
    one. *)
Ltac shared_step Ht :=
  unfold set_queue, push, log, write, id; rewrite ?woken_none, shared_of_insert; unfold shared_of; cbn;
  rewrite ?app_nil_r, ?(push_thread _ _ _ _ _ Ht);
  f_equal; try done; symmetry; by eauto using bufs_id, queue_id.

(** The state of thread [i] and what is known of it. *)
Lemma sound_thread Q ls c i t :
  sound Q ls c → threads c !! i = Some t → ∃ l, ls !! i = Some l ∧ wp_st i (st t) (Q i) l.
Proof.
  intros Hs Ht. assert (∃ l, ls !! i = Some l) as [l Hl].
  { apply lookup_lt_is_Some. destruct Hs as (_ & -> & _). by eapply lookup_lt_Some. }
  exists l. split; [done|]. by eapply Hs.
Qed.

Lemma sound_exec Q ls c i t t' m' es :
  sound Q ls c → threads c !! i = Some t → exec (memory c) t = Some (t', m', None, es) →
  ∃ ls', sound Q ls' (Config m' (<[i := t']> (woken wake_none (threads c))) (events c ++ es)).
Proof.
  intros Hs Ht He. destruct (sound_thread _ _ _ _ _ Hs Ht) as (l & Hl & Hw).
  pose proof (λ x, view_of_thread c i t x Ht) as Hv.
  destruct t as [b q]. cbn in Hw, Hv. unfold exec in He. cbn [st buf] in He.
  destruct q as [[a|x k|x v k|k|x f k|ws tm k|x n k|e k]|ks [|[x v] td] q tm k];
    try case_decide; try (destruct q); simplify_eq;
    cbn in Hw; destruct_and?; simplify_eq;
    try (eapply sound_move;
      [exact Hs|exact Ht|exact Hl|eassumption|by eauto using running_run, drained_run|by shared_step Ht|by cbn]).
  - eapply sound_move; [exact Hs|exact Ht|exact Hl|exact Hw|by eapply running_run|by shared_step Ht|].
    cbn. intros l'. by rewrite Hv.
  - eapply sound_move; [exact Hs|exact Ht|exact Hl|eassumption|by eapply drained_run|by shared_step Ht|].
    cbn. intros l' ?. split; [|done]. by destruct ws.
  - eapply sound_move; [exact Hs|exact Ht|exact Hl|eassumption| |by shared_step Ht|by cbn].
    unfold running. cbn. by rewrite list_lookup_fmap, Ht.
  - eapply sound_move; [exact Hs|exact Ht|exact Hl|exact H2|done|by shared_step Ht|by cbn].
  - eapply sound_move; [exact Hs|exact Ht|exact Hl|exact H2|done|by shared_step Ht|by cbn].
Qed.

(** A waking instruction. *)
Lemma sound_wake Q ls c i t t' m' x n es :
  sound Q ls c → threads c !! i = Some t → exec (memory c) t = Some (t', m', Some (x, n), es) →
  (∀ p, wakes (Some (x, n)) (threads c) = Some p →
     ∃ ls', sound Q ls' (Config m' (<[i := t']> (woken p (threads c))) (events c ++ es))) ∧
  (∀ j u, n = 1 → threads c !! j = Some u → x ∈ queue_of u →
     ∃ ls', sound Q ls' (Config m' (<[i := t']> (woken (wake_one x j) (threads c))) (events c ++ es))).
Proof.
  intros Hs Ht He. destruct (sound_thread _ _ _ _ _ Hs Ht) as (l & Hl & Hw).
  destruct t as [b q]. unfold exec in He. cbn [st buf] in He, Hw.
  destruct q as [[a|y k|y v k|k|y f k|ws tm k|y n' k|e k]|ks [|[y v] td] [] tm k];
    repeat case_decide; simplify_eq. cbn in Hw.
  assert (Hsh : ∀ p, wake_by p (shared_of c) =
    shared_of (Config (memory c) (<[i := Thread [] (Run k)]> (woken p (threads c))) (events c ++ []))).
  { intros p. unfold wake_by. rewrite shared_of_insert. cbn. rewrite bufs_wake, queue_wake, app_nil_r.
    f_equal; symmetry; [by apply (bufs_id i _ _ _ Ht)|]. apply list_insert_id.
    rewrite list_lookup_imap, list_lookup_fmap, Ht. cbn. by destruct (p i _). }
  assert (Hid : id (shared_of c) = shared_of (Config (memory c)
    (<[i := Thread [] (Run k)]> (woken wake_none (threads c))) (events c ++ []))) by (by shared_step Ht).
  split.
  - intros p Hp. unfold wakes in Hp. case_decide; simplify_eq.
    { eapply sound_move; [exact Hs|exact Ht|exact Hl|exact Hw|by eapply drained_run|apply Hsh|by cbn]. }
    case_decide as Hq; simplify_eq. destruct Hw as [_ Hw].
    eapply sound_move; [exact Hs|exact Ht|exact Hl|exact Hw| |exact Hid|by cbn].
    split; [by eapply drained_run|by apply queued_none].
  - intros j u -> Hu Hx. rewrite decide_False in Hw by (by intros []). destruct Hw as [Hw _].
    eapply sound_move; [exact Hs|exact Ht|exact Hl|exact (Hw j)| |apply Hsh|by cbn].
    split; [by eapply drained_run|by eapply queued_thread].
Qed.

Lemma sound_returns Q ls c i t t' kr :
  sound Q ls c → threads c !! i = Some t → returns kr t = Some t' →
  ∃ ls', sound Q ls' (Config (memory c) (<[i := t']> (threads c)) (events c)).
Proof.
  intros Hs Ht He. destruct (sound_thread _ _ _ _ _ Hs Ht) as (l & Hl & Hw).
  enough (∃ ls', sound Q ls' (Config (memory c) (<[i := t']> (woken wake_none (threads c))) (events c ++ [])))
    as Hgoal by (by rewrite woken_none, app_nil_r in Hgoal).
  destruct t as [b q]. cbn in Hw. unfold returns in He. cbn [st buf] in He.
  destruct q as [[a|x k|x v k|k|x f k|ws tm k|x n k|e k]|ks [|[x v] td] [] tm k];
    try case_decide; simplify_eq; cbn in Hw.
  - eapply (sound_move _ _ _ _ _ always id (λ _, wp i (k kr) (Q i)));
      [exact Hs|exact Ht|exact Hl| |done|by shared_step Ht|by cbn].
    intros ls0 s Hl0 Hi _. exists l. rewrite list_insert_id by done. split; [done|].
    apply Hw; by destruct H as [-> |[-> | ->]].
  - destruct Hw as (Hks & _ & _ & Hw).
    eapply sound_move; [exact Hs|exact Ht|exact Hl|exact (Hw kr)| |by shared_step Ht|by cbn].
    unfold running. cbn. rewrite list_lookup_fmap, Ht. cbn. by intros [= ->].
Qed.

(** A store that leaves its buffer keeps the invariant. *)
Hypothesis Inv_flush : ∀ ls s i x v b,
  Inv ls s → s_bufs s !! i = Some ((x, v) :: b) →
  Inv ls (Shared (upd (s_mem s) x v) (<[i := b]> (s_bufs s)) (s_queue s) (s_evs s)).

Lemma sound_step Q ls c c' : sound Q ls c → step c c' → ∃ ls', sound Q ls' c'.
Proof.
  intros Hs [a Ha]. destruct a as [i|i j|i|i kr]; cbn in Ha;
    destruct (threads c !! i) as [t|] eqn:Ht; cbn in Ha; try done.
  - destruct (exec _ _) as [[[[t' m'] o] es]|] eqn:He; [|done]. cbn [mbind option_bind] in Ha.
    destruct (wakes o (threads c)) as [p|] eqn:Hp; [|done]. injection Ha as <-.
    destruct o as [[x n]|]; [by eapply sound_wake|]. injection Hp as <-. by eapply sound_exec.
  - destruct (threads c !! j) as [u|] eqn:Hu; [|done]. cbn [mbind option_bind] in Ha.
    destruct (exec _ _) as [[[[t' m'] o] es]|] eqn:He; [|done]. cbn [mbind option_bind] in Ha.
    destruct o as [[x n]|]; [|done]. case_decide as Hn; [|done]. injection Ha as <-. destruct Hn.
    by eapply sound_wake.
  - destruct (buf t) as [|[x v] b] eqn:Hb; [done|]. injection Ha as <-.
    exists ls. destruct Hs as (Hinv & Hlen & Hts). split_and!.
    + rewrite shared_of_insert.
      rewrite (queue_id i t (threads c) (queue_of (Thread b (st t))) Ht eq_refl).
      apply (Inv_flush ls (shared_of c)); [done|]. cbn. by rewrite list_lookup_fmap, Ht, <- Hb.
    + cbn. by rewrite length_insert.
    + intros j u l. cbn. destruct (decide (j = i)) as [->|Hne].
      * rewrite list_lookup_insert_eq by (by eapply lookup_lt_Some). intros [= <-] Hl. exact (Hts i t l Ht Hl).
      * rewrite list_lookup_insert_ne by done. apply Hts.
  - destruct (returns kr t) as [t'|] eqn:He; [|done]. injection Ha as <-.
    by eapply sound_returns.
Qed.

Lemma sound_reachable Q ls c c' : sound Q ls c → rtc step c c' → ∃ ls', sound Q ls' c'.
Proof.
  intros Hs Hr. revert ls Hs. induction Hr as [|c c1 c2 H1 _ IH]; intros ls Hs; [by eauto|].
  destruct (sound_step Q ls c c1 Hs H1) as [ls1 Hs1]. by eapply IH.
Qed.
End verification.
End machine.

(** ** Rules *)

Section rules.
Context {loc : Type} `{EqDecision loc} {ev L : Type} (Inv : list L → @shared loc ev → Prop)
  (Parked : L → Prop).

Lemma move_mono i g f (K K' : shared → L → Prop) l :
  (∀ s l', K s l' → K' s l') → move Inv i g f K l → move Inv i g f K' l.
Proof.
  intros HK Hm ls s Hl Hi Hg. destruct (Hm ls s Hl Hi Hg) as (l' & ? & ?). exists l'. eauto.
Qed.

Lemma wp_wait_mono i todo (K1 K1' : L → Prop) (K2 K2' : Z → L → Prop) l :
  (∀ l', K1 l' → K1' l') → (∀ kr l', K2 kr l' → K2' kr l') →
  wp_wait Inv Parked i todo K1 K2 l → wp_wait Inv Parked i todo K1' K2' l.
Proof.
  intros H1 H2. revert l. induction todo as [|[x v] todo IH]; cbn; intros l Hw.
  - destruct Hw as (Hp & Hs & Hr). split_and!; [done|eapply move_mono; [|exact Hs]; auto|].
    intros kr. eapply move_mono; [|exact (Hr kr)]. auto.
  - destruct Hw as [Hc Hs]. split; eapply move_mono; [|exact Hc| |exact Hs]; by auto.
Qed.

Lemma wp_mono {A} i (p : prog loc ev A) (Q Q' : A → L → Prop) l :
  (∀ a l', Q a l' → Q' a l') → wp Inv Parked i p Q l → wp Inv Parked i p Q' l.
Proof.
  intros HQ. revert l.
  induction p as [a|x k IH|x v k IH|k IH|x g k IH|ws tm k IH|x n k IH|e k IH];
    intros l Hw; cbn in Hw |- *; [by auto|..];
    try (eapply move_mono; [|exact Hw]; cbn; by auto).
  - destruct Hw as [H0 Hw]. split; [by auto|]. eapply move_mono; [|exact Hw].
    intros s l'. apply wp_wait_mono; auto.
  - case_decide; [eapply move_mono; [|exact Hw]; by auto|]. destruct Hw as [H1 H2].
    split; [intros j; eapply move_mono; [|exact (H1 j)]|eapply move_mono; [|exact H2]]; by auto.
Qed.

(** Sequencing. *)
Lemma wp_bind {A B} i (p : prog loc ev A) (f : A → prog loc ev B) (Q : B → L → Prop) l :
  wp Inv Parked i p (λ a, wp Inv Parked i (f a) Q) l → wp Inv Parked i (p ≫= f) Q l.
Proof.
  change (p ≫= f) with (prog_bind f p). revert l.
  induction p as [a|x k IH|x v k IH|k IH|x g k IH|ws tm k IH|x n k IH|e k IH];
    intros l Hw; cbn in Hw |- *; [done|..];
    try (eapply move_mono; [|exact Hw]; cbn; by auto).
  - destruct Hw as [H0 Hw]. split; [by auto|]. eapply move_mono; [|exact Hw].
    intros s l'. apply wp_wait_mono; auto.
  - case_decide; [eapply move_mono; [|exact Hw]; by auto|]. destruct Hw as [H1 H2].
    split; [intros j; eapply move_mono; [|exact (H1 j)]|eapply move_mono; [|exact H2]]; by auto.
Qed.
End rules.

(** ** Programs that may run out of attempts

    A loop without a bound is written with a number of attempts; a program that has
    used them up ([None]) stands for a thread that is still in its loop. *)

Definition tprog (loc ev A : Type) : Type := prog loc ev (option A).
#[global] Instance tprog_ret {loc ev} : MRet (tprog loc ev) := λ A a, Ret (Some a).
#[global] Instance tprog_bind {loc ev} : MBind (tprog loc ev) := λ A B f p,
  prog_bind (λ o, match o with Some a => f a | None => Ret None end) p.
Definition trying {loc ev A} : tprog loc ev A := Ret None.
(** A program without such a loop. *)
Definition plain {loc ev A} (p : prog loc ev A) : tprog loc ev A := prog_bind (λ a, Ret (Some a)) p.

Section wpT.
Context {loc : Type} `{EqDecision loc} {ev L : Type} (Inv : list L → @shared loc ev → Prop)
  (Parked : L → Prop).
(** [Q] holds of what the program returns, unless it gives up. *)
Definition wpT {A} (i : nat) (p : tprog loc ev A) (Q : A → L → Prop) (l : L) : Prop :=
  wp Inv Parked i p (λ o l, match o with Some a => Q a l | None => True end) l.

Lemma wpT_ret {A} i (a : A) Q l : Q a l → wpT i (mret a) Q l.
Proof. done. Qed.
Lemma wpT_trying {A} i (Q : A → L → Prop) l : wpT i trying Q l.
Proof. done. Qed.
Lemma wpT_plain {A} i (p : prog loc ev A) Q l : wp Inv Parked i p Q l → wpT i (plain p) Q l.
Proof. intros H. by apply (wp_bind Inv Parked i p (λ a, Ret (Some a))). Qed.
Lemma wpT_mono {A} i (p : tprog loc ev A) (Q Q' : A → L → Prop) l :
  (∀ a l', Q a l' → Q' a l') → wpT i p Q l → wpT i p Q' l.
Proof. intros HQ. apply wp_mono. intros [a|] l'; [apply HQ|done]. Qed.
Lemma wpT_bind {A B} i (p : tprog loc ev A) (f : A → tprog loc ev B) Q l :
  wpT i p (λ a, wpT i (f a) Q) l → wpT i (p ≫= f) Q l.
Proof.
  intros H1. apply (wp_bind Inv Parked i p (λ o, match o with Some a => f a | None => Ret None end)).
  eapply wp_mono; [|exact H1]. by intros [a|] l'.
Qed.
End wpT.

(** ** Equal programs, and the results of a program *)

Section equality.
Context {loc ev : Type}.

(** Equality up to the equality of continuations at every value. *)
Fixpoint peq {A} (p q : prog loc ev A) : Prop :=
  match p, q with
  | Ret a, Ret b => a = b
  | Load x k, Load y k' => x = y ∧ ∀ v, peq (k v) (k' v)
  | Store x v k, Store y w k' => x = y ∧ v = w ∧ peq k k'
  | Mfence k, Mfence k' => peq k k'
  | Rmw x f k, Rmw y g k' => x = y ∧ f = g ∧ ∀ v, peq (k v) (k' v)
  | FutexWait ws t k, FutexWait ws' t' k' => ws = ws' ∧ t = t' ∧ ∀ v, peq (k v) (k' v)
  | FutexWake x n k, FutexWake y n' k' => x = y ∧ n = n' ∧ peq k k'
  | Note e k, Note e' k' => e = e' ∧ peq k k'
  | _, _ => False
  end.

(** Every result of the program, whatever it reads, satisfies [Q]. *)
Fixpoint results {A} (Q : A → Prop) (p : prog loc ev A) : Prop :=
  match p with
  | Ret a => Q a
  | Load _ k | Rmw _ _ k | FutexWait _ _ k => ∀ v, results Q (k v)
  | Store _ _ k | Mfence k | FutexWake _ _ k | Note _ k => results Q k
  end.

Lemma peq_refl {A} (p : prog loc ev A) : peq p p.
Proof. induction p; cbn; auto. Qed.

Lemma peq_bind {A B} (Q : A → Prop) (p : prog loc ev A) (f g : A → prog loc ev B) :
  results Q p → (∀ a, Q a → peq (f a) (g a)) → peq (p ≫= f) (p ≫= g).
Proof.
  intros Hp Hfg. change (peq (prog_bind f p) (prog_bind g p)).
  induction p; cbn in *; auto; repeat split; auto.
Qed.

Lemma results_bind {A B} (Q : B → Prop) (p : prog loc ev A) (f : A → prog loc ev B) :
  results (λ a, results Q (f a)) p → results Q (p ≫= f).
Proof. change (p ≫= f) with (prog_bind f p). induction p; cbn; auto. Qed.

Lemma results_mono {A} (Q Q' : A → Prop) (p : prog loc ev A) :
  (∀ a, Q a → Q' a) → results Q p → results Q' p.
Proof. intros HQ. induction p; cbn; auto. Qed.
End equality.

(** ** Schedules *)

Section schedules.
Context {loc : Type} `{EqDecision loc} {ev A : Type}.

(** The next instruction of thread [i]; the first waiter is woken if one has to be
    chosen. *)
Definition advance (i : nat) (s : @config loc ev A) : option config :=
  match perform (Exec i) s with
  | Some s' => Some s'
  | None => head (omap (λ j, perform (Wake i j) s) (seq 0 (length (threads s))))
  end.
Lemma advance_step i s s' : advance i s = Some s' → step s s'.
Proof.
  unfold advance. destruct (perform (Exec i) s) as [s1|] eqn:H1; [intros [= <-]; by eexists|].
  intros Hh. apply head_Some_elem_of in Hh. apply list_elem_of_omap in Hh as (j & _ & Hj). by eexists.
Qed.

(** Thread [i] alone, its stores reaching memory at once. *)
Fixpoint drive (n i : nat) (s : @config loc ev A) : config :=
  match n with
  | O => s
  | S n =>
      match perform (Flush i) s with
      | Some s' => drive n i s'
      | None => match advance i s with Some s' => drive n i s' | None => s end
      end
  end.
(** Thread [i] alone, its stores staying in the buffer. *)
Fixpoint hold (n i : nat) (s : @config loc ev A) : config :=
  match n with
  | O => s
  | S n => match advance i s with Some s' => hold n i s' | None => s end
  end.

Lemma drive_steps n i (s : @config loc ev A) : rtc step s (drive n i s).
Proof.
  revert s. induction n as [|n IH]; intros s; [done|]. cbn [drive].
  destruct (perform (Flush i) s) as [s1|] eqn:H1; [eapply rtc_l; [by eexists|apply IH]|].
  destruct (advance i s) as [s1|] eqn:H2; [eapply rtc_l; [by eapply advance_step|apply IH]|done].
Qed.
Lemma hold_steps n i (s : @config loc ev A) : rtc step s (hold n i s).
Proof.
  revert s. induction n as [|n IH]; intros s; [done|]. cbn [hold].
  destruct (advance i s) as [s1|] eqn:H2; [eapply rtc_l; [by eapply advance_step|apply IH]|done].
Qed.
End schedules.
