(* ===== verification/FlipcRing.v ===== *)
(** * FLIPC channels: the inline fast path

    The operations of include/flipc2.h on the descriptor ring, as programs of the
    machine in Tso.v.  The shared memory of a channel is its counters, its flags
    and the words of its descriptors; a task holds a handle with the constants of
    the ring, its cached copy of the peer's counter and the count of spurious
    wake-ups.  Counters run over the 32-bit integers and wrap. *)

From S2P Require Import Prelude Mach Tso.

(** ** Shared memory *)

(** struct flipc2_channel_header: the volatile fields, and word [j] of the
    descriptor in slot [slot] of the ring. *)
Inductive field :=
| PROD_TAIL | PROD_SLEEPING | PROD_TOTAL | WAKEUPS | WAKEUP_THRESH | PROD_RESERVED
| CONS_HEAD | CONS_SLEEPING | CONS_TOTAL
| WORD (slot : Z) (j : nat).
#[global] Instance field_eq_dec : EqDecision field.
Proof. solve_decision. Defined.

(** A field of a channel; tasks map the same memory at different addresses, so a
    channel is named by a number. *)
Definition loc : Type := nat * field.

(** struct flipc2_desc is 64 bytes, sixteen words. *)
Definition DESC_WORDS : nat := 16.
Abbreviation desc := (list Z).
Definition desc_word (d : desc) (j : nat) : Z := default 0 (d !! j).

(** What a client does with a channel, for the statements about runs. *)
Inductive event :=
| Sent (c : nat) (d : desc)
| Received (c : nat) (d : desc).

Abbreviation P := (prog loc event).

(** struct flipc2_channel. *)
Record channel := Channel {
  chan : nat;
  ring_entries : Z;
  ring_mask : Z;
  cached_cons_head : Z;
  cached_prod_tail : Z;
  spurious_wakeups : Z }.
Definition set_cached_cons_head (h : Z) (ch : channel) : channel :=
  Channel (chan ch) (ring_entries ch) (ring_mask ch) h (cached_prod_tail ch) (spurious_wakeups ch).
Definition set_cached_prod_tail (t : Z) (ch : channel) : channel :=
  Channel (chan ch) (ring_entries ch) (ring_mask ch) (cached_cons_head ch) t (spurious_wakeups ch).
Definition set_spurious (n : Z) (ch : channel) : channel :=
  Channel (chan ch) (ring_entries ch) (ring_mask ch) (cached_cons_head ch) (cached_prod_tail ch) n.

(** Return codes. *)
Definition FLIPC2_SUCCESS : Z := 0.
Definition FLIPC2_ERR_INVALID_ARGUMENT : Z := -1.
Definition FLIPC2_ERR_RESOURCE_SHORTAGE : Z := -2.
Definition FLIPC2_ERR_NOT_CONNECTED : Z := -5.
Definition FLIPC2_ERR_ALREADY_CONNECTED : Z := -6.
Definition FLIPC2_ERR_KERNEL : Z := -7.
Definition FLIPC2_ERR_SIZE_ALIGNMENT : Z := -9.
Definition FLIPC2_ERR_MAP_FAILED : Z := -10.
Definition FLIPC2_ERR_RING_CORRUPT : Z := -11.
Definition FLIPC2_ERR_PEER_DEAD : Z := -15.
Definition FLIPC2_ERR_TIMEOUT : Z := -17.
Definition FLIPC2_MAX_SPURIOUS_WAKEUPS : Z := 64.

(** ** Ring index helpers *)

Definition flipc2_ring_idx (ch : channel) (ptr : Z) : Z := Z.land ptr (ring_mask ch).
Definition flipc2_ring_count (tail head : Z) : Z := tail -32 head.
Definition flipc2_ring_free (ch : channel) (tail head : Z) : Z := ring_entries ch -32 (tail -32 head).

(** ** Producer *)

Definition flipc2_produce_reserve (ch : channel) : P (option Z * channel) :=
  tail ← load (chan ch, PROD_TAIL);
  let re := ring_entries ch in
  let space := re -32 (tail -32 cached_cons_head ch) in
  if decide (space = 0 ∨ re < space) then
    head ← load (chan ch, CONS_HEAD);
    let ch := set_cached_cons_head head ch in
    let space := re -32 (tail -32 head) in
    if decide (space = 0) then mret (None, ch)
    else if decide (re < space) then mret (None, ch)
    else mret (Some (flipc2_ring_idx ch tail), ch)
  else mret (Some (flipc2_ring_idx ch tail), ch).

(** The doorbell at the end of the commits: wake a sleeping consumer, unless
    fewer than [wakeup_thresh] descriptors are pending. *)
Definition doorbell (ch : channel) : P unit :=
  sleeping ← load (chan ch, CONS_SLEEPING);
  if decide (sleeping = 0) then mret tt
  else
    thresh ← load (chan ch, WAKEUP_THRESH);
    tail ← load (chan ch, PROD_TAIL);
    head ← load (chan ch, CONS_HEAD);
    let pending := tail -32 head in
    if decide (thresh <= 1 ∨ thresh <= pending) then
      futex_wake (chan ch, PROD_TAIL) 1;;
      w ← load (chan ch, WAKEUPS);
      store (chan ch, WAKEUPS) (w +64 1)
    else mret tt.

Definition flipc2_produce_commit (ch : channel) : P unit :=
  tail ← load (chan ch, PROD_TAIL);
  store (chan ch, PROD_TAIL) (tail +32 1);;
  total ← load (chan ch, PROD_TOTAL);
  store (chan ch, PROD_TOTAL) (total +64 1);;
  mfence;;
  doorbell ch.

Definition flipc2_produce_commit_n (ch : channel) (n : Z) : P unit :=
  tail ← load (chan ch, PROD_TAIL);
  store (chan ch, PROD_TAIL) (tail +32 n);;
  total ← load (chan ch, PROD_TOTAL);
  store (chan ch, PROD_TOTAL) (total +64 n);;
  mfence;;
  doorbell ch.

Definition flipc2_produce_flush (ch : channel) : P unit :=
  mfence;;
  sleeping ← load (chan ch, CONS_SLEEPING);
  if decide (sleeping = 0) then mret tt
  else
    futex_wake (chan ch, PROD_TAIL) 1;;
    w ← load (chan ch, WAKEUPS);
    store (chan ch, WAKEUPS) (w +64 1).

(** The spin phase of [flipc2_produce_wait]; [None] when the ring stayed full. *)
Fixpoint produce_spin (n : nat) (tail : Z) (ch : channel) : P (option (option Z) * channel) :=
  match n with
  | O => mret (None, ch)
  | S n =>
      head ← load (chan ch, CONS_HEAD);
      let ch := set_cached_cons_head head ch in
      let re := ring_entries ch in
      let space := re -32 (tail -32 head) in
      if decide (0 < space ∧ space <= re) then mret (Some (Some (flipc2_ring_idx ch tail)), ch)
      else if decide (re < space) then mret (Some None, ch)
      else produce_spin n tail ch
  end.

(** Phases 2 and 3: announce, check again, block on [cons_head]. *)
Definition produce_sleep (tail : Z) (ch : channel) : P (option Z * channel) :=
  let re := ring_entries ch in
  store (chan ch, PROD_SLEEPING) 1;;
  head ← load (chan ch, CONS_HEAD);
  let ch := set_cached_cons_head head ch in
  let space := re -32 (tail -32 head) in
  if decide (0 < space ∧ space <= re) then
    store (chan ch, PROD_SLEEPING) 0;;
    mret (Some (flipc2_ring_idx ch tail), ch)
  else if decide (re < space) then
    store (chan ch, PROD_SLEEPING) 0;;
    mret (None, ch)
  else
    futex_wait (chan ch, CONS_HEAD) (cached_cons_head ch) false;;
    store (chan ch, PROD_SLEEPING) 0;;
    head ← load (chan ch, CONS_HEAD);
    let ch := set_cached_cons_head head ch in
    let space := re -32 (tail -32 head) in
    if decide (space = 0 ∨ re < space) then mret (None, ch)
    else mret (Some (flipc2_ring_idx ch tail), ch).

Definition flipc2_produce_wait (ch : channel) (spin_count : nat) : P (option Z * channel) :=
  tail ← load (chan ch, PROD_TAIL);
  let re := ring_entries ch in
  let space := re -32 (tail -32 cached_cons_head ch) in
  '(space, ch) ←
    (if decide (space = 0 ∨ re < space) then
       head ← load (chan ch, CONS_HEAD);
       mret (re -32 (tail -32 head), set_cached_cons_head head ch)
     else mret (space, ch));
  if decide (0 < space ∧ space <= re) then mret (Some (flipc2_ring_idx ch tail), ch)
  else if decide (re < space) then mret (None, ch)
  else
    '(r, ch) ← produce_spin spin_count tail ch;
    match r with
    | Some r => mret (r, ch)
    | None => produce_sleep tail ch
    end.

(** ** Producers of a channel that has several ([FLIPC2_CREATE_MPSC]) *)

(** A producer that has claimed position [my_idx] has room once the consumer's head
    is less than the ring behind it; the difference is compared as a signed one. *)
Definition mpsc_room (ch : channel) (my_idx head : Z) : Prop :=
  s32 (my_idx -32 head) < s32 (ring_entries ch).
#[global] Instance mpsc_room_dec ch my_idx head : Decision (mpsc_room ch my_idx head).
Proof. unfold mpsc_room. apply _. Defined.

(** The spin phase of [flipc2_produce_wait_mpsc]; each turn reads the head twice. *)
Fixpoint mpsc_spin (n : nat) (my_idx : Z) (ch : channel) : P bool :=
  match n with
  | O => mret false
  | S n =>
      head1 ← load (chan ch, CONS_HEAD);
      let space := ring_entries ch -32 (my_idx -32 head1) in
      head2 ← load (chan ch, CONS_HEAD);
      if decide (mpsc_room ch my_idx head2 ∧ space <= ring_entries ch) then mret true
      else mpsc_spin n my_idx ch
  end.

(** The slow path: announce, check again, block until the head moves, test again. *)
Fixpoint mpsc_sleep (fuel : nat) (my_idx : Z) (ch : channel) : tprog loc event unit :=
  match fuel with
  | O => trying
  | S fuel =>
      head ← plain (load (chan ch, CONS_HEAD));
      if decide (mpsc_room ch my_idx head) then mret tt
      else
        ch_seen ← plain (load (chan ch, CONS_HEAD));
        plain (store (chan ch, PROD_SLEEPING) 1);;
        head ← plain (load (chan ch, CONS_HEAD));
        if decide (mpsc_room ch my_idx head) then mret tt
        else
          plain (futex_wait (chan ch, CONS_HEAD) ch_seen false);;
          mpsc_sleep fuel my_idx ch
  end.

(** The slot and the position; the fuel bounds the blocks. *)
Definition flipc2_produce_wait_mpsc (fuel : nat) (ch : channel) (spin_count : nat) :
    tprog loc event (Z * Z) :=
  my_idx ← plain (rmw (chan ch, PROD_RESERVED) (λ v, v +32 1));
  room ← plain (mpsc_spin spin_count my_idx ch);
  if room : bool then mret (flipc2_ring_idx ch my_idx, my_idx)
  else
    mpsc_sleep fuel my_idx ch;;
    mret (flipc2_ring_idx ch my_idx, my_idx).

(** The wait for the predecessor to publish. *)
Fixpoint mpsc_turn (fuel : nat) (my_idx : Z) (ch : channel) : tprog loc event unit :=
  match fuel with
  | O => trying
  | S fuel =>
      tail ← plain (load (chan ch, PROD_TAIL));
      if decide (tail = my_idx) then mret tt else mpsc_turn fuel my_idx ch
  end.

Definition mpsc_doorbell (ch : channel) (my_idx : Z) : P unit :=
  sleeping ← load (chan ch, CONS_SLEEPING);
  if decide (sleeping = 0) then mret tt
  else
    thresh ← load (chan ch, WAKEUP_THRESH);
    head ← load (chan ch, CONS_HEAD);
    let pending := (my_idx +32 1) -32 head in
    if decide (thresh <= 1 ∨ thresh <= pending) then
      futex_wake (chan ch, PROD_TAIL) 1;;
      w ← load (chan ch, WAKEUPS);
      store (chan ch, WAKEUPS) (w +64 1)
    else mret tt.

Definition flipc2_produce_commit_mpsc (fuel : nat) (ch : channel) (my_idx : Z) :
    tprog loc event unit :=
  mpsc_turn fuel my_idx ch;;
  plain (
    store (chan ch, PROD_TAIL) (my_idx +32 1);;
    total ← load (chan ch, PROD_TOTAL);
    store (chan ch, PROD_TOTAL) (total +64 1);;
    mfence;;
    mpsc_doorbell ch my_idx).

(** ** Consumer *)

Definition flipc2_consume_peek (ch : channel) : P (option Z * channel) :=
  head ← load (chan ch, CONS_HEAD);
  let re := ring_entries ch in
  let avail := cached_prod_tail ch -32 head in
  if decide (avail = 0 ∨ re < avail) then
    tail ← load (chan ch, PROD_TAIL);
    let ch := set_cached_prod_tail tail ch in
    let avail := tail -32 head in
    if decide (avail = 0) then mret (None, ch)
    else if decide (re < avail) then mret (None, ch)
    else mret (Some (flipc2_ring_idx ch head), ch)
  else mret (Some (flipc2_ring_idx ch head), ch).

Definition flipc2_consume_release (ch : channel) : P unit :=
  head ← load (chan ch, CONS_HEAD);
  store (chan ch, CONS_HEAD) (head +32 1);;
  total ← load (chan ch, CONS_TOTAL);
  store (chan ch, CONS_TOTAL) (total +64 1);;
  sleeping ← load (chan ch, PROD_SLEEPING);
  if decide (sleeping = 0) then mret tt
  else futex_wake (chan ch, CONS_HEAD) 2147483647.

Definition flipc2_consume_release_n (ch : channel) (n : Z) : P unit :=
  head ← load (chan ch, CONS_HEAD);
  store (chan ch, CONS_HEAD) (head +32 n);;
  total ← load (chan ch, CONS_TOTAL);
  store (chan ch, CONS_TOTAL) (total +64 n);;
  sleeping ← load (chan ch, PROD_SLEEPING);
  if decide (sleeping = 0) then mret tt
  else futex_wake (chan ch, CONS_HEAD) 2147483647.

(** Phase 1 of the waits; [None] when the ring stayed empty, [Some None] when it
    is corrupt. *)
Fixpoint consume_spin (n : nat) (head : Z) (ch : channel) : P (option (option Z) * channel) :=
  match n with
  | O => mret (None, ch)
  | S n =>
      tail ← load (chan ch, PROD_TAIL);
      let ch := set_cached_prod_tail tail ch in
      if decide (tail = head) then consume_spin n head ch
      else if decide (ring_entries ch < tail -32 head) then mret (Some None, ch)
      else mret (Some (Some (flipc2_ring_idx ch head)), set_spurious 0 ch)
  end.

(** Phase 2: announce the sleep and look again. *)
Definition consume_arm (head : Z) (ch : channel) : P (option (option Z) * channel) :=
  store (chan ch, CONS_SLEEPING) 1;;
  mfence;;
  tail ← load (chan ch, PROD_TAIL);
  let ch := set_cached_prod_tail tail ch in
  if decide (tail = head) then mret (None, ch)
  else
    store (chan ch, CONS_SLEEPING) 0;;
    if decide (ring_entries ch < tail -32 head) then mret (Some None, ch)
    else mret (Some (Some (flipc2_ring_idx ch head)), set_spurious 0 ch).

(** [flipc2_consume_wait] calls itself after a spurious wake-up, with no spinning,
    until it has counted [FLIPC2_MAX_SPURIOUS_WAKEUPS] of them: [fuel] bounds the
    calls, and is enough from [64 - spurious_wakeups] on. *)
Fixpoint consume_wait_loop (fuel : nat) (ch : channel) (spin_count : nat) :
    P (option Z * channel) :=
  head ← load (chan ch, CONS_HEAD);
  '(r, ch) ← consume_spin spin_count head ch;
  match r with
  | Some r => mret (r, ch)
  | None =>
      '(r, ch) ← consume_arm head ch;
      match r with
      | Some r => mret (r, ch)
      | None =>
          futex_wait (chan ch, PROD_TAIL) head false;;
          store (chan ch, CONS_SLEEPING) 0;;
          tail ← load (chan ch, PROD_TAIL);
          let ch := set_cached_prod_tail tail ch in
          let avail := tail -32 head in
          if decide (avail = 0) then
            let ch := set_spurious (spurious_wakeups ch +32 1) ch in
            if decide (FLIPC2_MAX_SPURIOUS_WAKEUPS <= spurious_wakeups ch) then mret (None, ch)
            else match fuel with
                 | O => mret (None, ch)
                 | S fuel => consume_wait_loop fuel ch 0
                 end
          else if decide (ring_entries ch < avail) then mret (None, ch)
          else mret (Some (flipc2_ring_idx ch head), set_spurious 0 ch)
      end
  end.

Definition flipc2_consume_wait (ch : channel) (spin_count : nat) : P (option Z * channel) :=
  consume_wait_loop 64 ch spin_count.

Definition flipc2_consume_wait_timed (ch : channel) (spin_count : nat) (timeout_ms : Z) :
    P (Z * option Z * channel) :=
  head ← load (chan ch, CONS_HEAD);
  '(r, ch) ← consume_spin spin_count head ch;
  match r with
  | Some None => mret (FLIPC2_ERR_RING_CORRUPT, None, ch)
  | Some (Some slot) => mret (FLIPC2_SUCCESS, Some slot, ch)
  | None =>
      if decide (timeout_ms = 0) then mret (FLIPC2_ERR_TIMEOUT, None, ch)
      else
        '(r, ch) ← consume_arm head ch;
        match r with
        | Some None => mret (FLIPC2_ERR_RING_CORRUPT, None, ch)
        | Some (Some slot) => mret (FLIPC2_SUCCESS, Some slot, ch)
        | None =>
            kr ← futex_wait (chan ch, PROD_TAIL) head true;
            store (chan ch, CONS_SLEEPING) 0;;
            if decide (kr = KERN_OPERATION_TIMED_OUT) then mret (FLIPC2_ERR_TIMEOUT, None, ch)
            else if decide (kr ≠ KERN_SUCCESS ∧ kr ≠ KERN_NOT_WAITING)
            then mret (FLIPC2_ERR_KERNEL, None, ch)
            else
              tail ← load (chan ch, PROD_TAIL);
              let ch := set_cached_prod_tail tail ch in
              let avail := tail -32 head in
              if decide (avail = 0) then
                let ch := set_spurious (spurious_wakeups ch +32 1) ch in
                if decide (FLIPC2_MAX_SPURIOUS_WAKEUPS <= spurious_wakeups ch)
                then mret (FLIPC2_ERR_PEER_DEAD, None, ch)
                else mret (FLIPC2_ERR_TIMEOUT, None, ch)
              else if decide (ring_entries ch < avail) then mret (FLIPC2_ERR_RING_CORRUPT, None, ch)
              else mret (FLIPC2_SUCCESS, Some (flipc2_ring_idx ch head), set_spurious 0 ch)
        end
  end.

Definition flipc2_consume_timedwait (ch : channel) (spin_count : nat) (timeout_ms : Z) :
    P (option Z * channel) :=
  '(_, d, ch) ← flipc2_consume_wait_timed ch spin_count timeout_ms;
  mret (d, ch).

Definition flipc2_available (ch : channel) : P (Z * channel) :=
  tail ← load (chan ch, PROD_TAIL);
  let ch := set_cached_prod_tail tail ch in
  head ← load (chan ch, CONS_HEAD);
  let avail := tail -32 head in
  if decide (ring_entries ch < avail) then mret (0, ch) else mret (avail, ch).

Definition flipc2_channel_set_wakeup_threshold (ch : channel) (thresh : Z) : P unit :=
  store (chan ch, WAKEUP_THRESH) (if decide (thresh = 0) then 1 else thresh).

(** ** The bound on the recursion of [flipc2_consume_wait] *)

(** A look at the ring that finds nothing leaves the count of spurious wake-ups. *)
Lemma consume_spin_count n head ch :
  results (λ r, r.1 = None → spurious_wakeups r.2 = spurious_wakeups ch) (consume_spin n head ch).
Proof.
  revert ch. induction n as [|n IH]; intros ch; [done|]. intros v. cbn.
  case_decide; [|case_decide; done]. apply (IH (set_cached_prod_tail v ch)).
Qed.
Lemma consume_arm_count head ch :
  results (λ r, r.1 = None → spurious_wakeups r.2 = spurious_wakeups ch) (consume_arm head ch).
Proof. intros v. cbn. case_decide; [done|]. cbn. case_decide; done. Qed.

(** The bound is not what ends the recursion: with [64 - spurious_wakeups] calls
    allowed, allowing one more changes nothing. *)
Lemma consume_wait_fuel fuel ch spin :
  0 <= spurious_wakeups ch → 64 <= Z.of_nat fuel + spurious_wakeups ch < 4294967295 →
  peq (consume_wait_loop fuel ch spin) (consume_wait_loop (S fuel) ch spin).
Proof.
  revert ch spin. induction fuel as [|fuel IH]; intros ch spin H0 Hf; cbn [consume_wait_loop].
  all: apply (peq_bind (λ _, True)); [done|]; intros head _.
  all: apply (peq_bind _ _ _ _ (consume_spin_count spin head ch)); intros [[r|] ch1] H1; [apply peq_refl|].
  all: apply (peq_bind _ _ _ _ (consume_arm_count head ch1)); intros [[r|] ch2] H2; [apply peq_refl|].
  all: specialize (H1 eq_refl); specialize (H2 eq_refl); cbn in H1, H2.
  all: apply (peq_bind (λ _, True)); [done|]; intros _ _; apply (peq_bind (λ _, True)); [done|]; intros _ _;
    apply (peq_bind (λ _, True)); [done|]; intros tail _.
  all: cbn [spurious_wakeups set_cached_prod_tail set_spurious]; case_decide; [|apply peq_refl].
  all: rewrite u32_small by (unfold is_u32; lia); unfold FLIPC2_MAX_SPURIOUS_WAKEUPS in *.
  all: case_decide; [apply peq_refl|].
  - lia.
  - apply IH; cbn; lia.
Qed.
