(* ===== verification/FlipcConsumer.v ===== *)
(** * FLIPC channels: the consumer

    The client of the receiving side, and its proof.  The consumer is the same
    whether one producer or several feed the ring: what it relies on is a class of
    rules, one for each access that it makes ([ConsumerSide]), and the operations of
    include/flipc2.h that it calls are verified against the class.  FlipcSpsc.v and
    FlipcMpsc.v have the two kinds of channel that provide it. *)

From S2P Require Import Prelude Mach Tso FlipcRing.

(** ** The client *)

(** The fields of a descriptor are read with plain loads. *)
Definition read_words (ch : channel) (slot : Z) (js : list nat) : P desc :=
  foldr (λ j k, v ← load (chan ch, WORD slot j); vs ← k; mret (v :: vs)) (mret []) js.
Definition read_desc (ch : channel) (slot : Z) : P desc := read_words ch slot (seq 0 DESC_WORDS).

(** A consumer polls, waits with or without a deadline, or takes everything that
    is there and releases it at once. *)
Inductive creq := GetTry | GetWait (spin : nat) | GetTimed (spin : nat) (ms : Z) | GetAll.

Definition receive_at (ch : channel) (slot : option Z) : P channel :=
  match slot with
  | None => mret ch
  | Some slot =>
      d ← read_desc ch slot; note (Received (chan ch) d);; flipc2_consume_release ch;; mret ch
  end.

Fixpoint drain (ch : channel) (ptr : Z) (n : nat) : P unit :=
  match n with
  | O => mret tt
  | S n =>
      d ← read_desc ch (flipc2_ring_idx ch ptr); note (Received (chan ch) d);; drain ch (ptr +32 1) n
  end.

Definition receive (ch : channel) (r : creq) : P channel :=
  match r with
  | GetTry => '(slot, ch) ← flipc2_consume_peek ch; receive_at ch slot
  | GetWait spin => '(slot, ch) ← flipc2_consume_wait ch spin; receive_at ch slot
  | GetTimed spin ms => '(slot, ch) ← flipc2_consume_timedwait ch spin ms; receive_at ch slot
  | GetAll =>
      '(n, ch) ← flipc2_available ch;
      head ← load (chan ch, CONS_HEAD);
      drain ch head (Z.to_nat n);; flipc2_consume_release_n ch n;; mret ch
  end.

Fixpoint consumer (ch : channel) (rs : list creq) : P channel :=
  match rs with [] => mret ch | r :: rs => ch ← receive ch r; consumer ch rs end.

(** What a trace says of channel [c]. *)
Definition sent (c : nat) (es : list event) : list desc :=
  omap (λ e, match e with Sent c' d => if decide (c' = c) then Some d else None | _ => None end) es.
Definition received (c : nat) (es : list event) : list desc :=
  omap (λ e, match e with Received c' d => if decide (c' = c) then Some d else None | _ => None end) es.

(** ** Positions

    Positions count the descriptors without bound; the counters have them modulo
    2^32, and position [n] lives in slot [n mod re]. *)

(** The sizes that a channel can have. *)
Class RingSize (re : Z) : Prop := ring_size : ∃ e, 0 <= e <= 14 ∧ re = 2 ^ e.

Section positions.
Context {re : Z} {Hsize : RingSize re}.

Lemma re_range : 1 <= re <= 16384.
Proof.
  destruct Hsize as (e & He & ->). split; [apply (Z.pow_le_mono_r 2 0); lia|].
  change 16384 with (2 ^ 14). apply Z.pow_le_mono_r; lia.
Qed.
Lemma u32_mod_re n : u32 n mod re = n mod re.
Proof.
  destruct Hsize as (e & He & ->). unfold u32. change 4294967296 with (2 ^ 32).
  replace (2 ^ 32) with (2 ^ e * 2 ^ (32 - e)) by (rewrite <- Z.pow_add_r by lia; f_equal; lia).
  rewrite Z.rem_mul_r by (apply Z.pow_nonzero || apply Z.pow_pos_nonneg; lia).
  rewrite Z.mul_comm, Z.mod_add by (apply Z.pow_nonzero; lia). apply Z.mod_mod, Z.pow_nonzero; lia.
Qed.
Lemma land_mask n : Z.land n (re - 1) = n mod re.
Proof.
  destruct Hsize as (e & He & ->).
  replace (2 ^ e - 1) with (Z.ones e) by (rewrite Z.ones_equiv; lia). apply Z.land_ones. lia.
Qed.
Lemma slot_inj n k : n mod re = k mod re → n <= k < n + re → n = k.
Proof.
  pose proof re_range. intros He Hr.
  assert (Hk : (k - n) mod re = 0).
  { rewrite Zminus_mod, He, Z.sub_diag. apply Z.mod_0_l. lia. }
  rewrite Z.mod_small in Hk; lia.
Qed.
Lemma u32_inj n k : u32 n = u32 k → n <= k < n + 4294967296 → n = k.
Proof. word_lia. Qed.
Lemma idx_of ch n : ring_mask ch = re - 1 → flipc2_ring_idx ch (u32 n) = n mod re.
Proof. intros Hm. unfold flipc2_ring_idx. by rewrite Hm, land_mask, u32_mod_re. Qed.

Lemma avail_of t h : h <= t <= h + re → u32 t -32 u32 h = t - h.
Proof.
  intros H. pose proof re_range. rewrite u32_sub_l, u32_sub_r. apply u32_small. unfold is_u32. lia.
Qed.
Lemma same_counter t h : h <= t <= h + re → u32 t = u32 h ↔ t = h.
Proof.
  intros H. pose proof re_range. split; [|by intros ->]. intros He. symmetry. apply u32_inj; [done|lia].
Qed.
End positions.

(** ** What the consumer relies on *)

(** What the consumer knows: how far it has released and read, a bound below which
    descriptors are published, the words read of the next one, and where it is in
    the protocol of going to sleep. *)
Record cons := Cons {
  c_head : Z; c_read : Z; c_known : Z; c_words : list Z;
  c_armed : bool; c_asleep : bool; c_parked : bool }.

Definition c_set_known (t : Z) (q : cons) : cons :=
  Cons (c_head q) (c_read q) t (c_words q) (c_armed q) (c_asleep q) (c_parked q).
Definition c_set_words (ws : list Z) (q : cons) : cons :=
  Cons (c_head q) (c_read q) (c_known q) ws (c_armed q) (c_asleep q) (c_parked q).
Definition c_next (q : cons) : cons :=
  Cons (c_head q) (c_read q + 1) (c_known q) [] (c_armed q) (c_asleep q) (c_parked q).
Definition c_release (n : Z) (q : cons) : cons :=
  Cons (c_head q + n) (c_read q) (c_known q) (c_words q) (c_armed q) (c_asleep q) (c_parked q).
Definition c_set_sleep (armed asleep : bool) (q : cons) : cons :=
  Cons (c_head q) (c_read q) (c_known q) (c_words q) armed asleep (c_parked q).
Definition c_set_parked (b : bool) (q : cons) : cons :=
  Cons (c_head q) (c_read q) (c_known q) (c_words q) (c_armed q) (c_asleep q) b.

(** The thread [i], whose ghost state is [side q], may make the accesses of a
    consumer of channel [c] with [re] entries.  The tail it reads is never behind one
    it has read, nor more than the ring ahead of the head; the words of a published
    descriptor may be read one by one; what has been read may be announced, and then
    released. *)
Class ConsumerSide (c : nat) (re : Z) {L : Type} (Inv : list L → @shared loc event → Prop)
    (Parked : L → Prop) (i : nat) (side : cons → L) : Prop := {
  wpc_load {A} (Q : A → L → Prop) x (k : Z → P A) q :
    (∀ v, wp Inv Parked i (k v) Q (side q)) → wp Inv Parked i (load x ≫= k) Q (side q);
  wpc_load_head {A} (Q : A → L → Prop) (k : Z → P A) q :
    wp Inv Parked i (k (u32 (c_head q))) Q (side q) →
    wp Inv Parked i (load (c, CONS_HEAD) ≫= k) Q (side q);
  wpc_load_tail {A} (Q : A → L → Prop) (k : Z → P A) q :
    (∀ t, c_known q <= t <= c_head q + re →
    wp Inv Parked i (k (u32 t)) Q (side $ c_set_known t q)) →
    wp Inv Parked i (load (c, PROD_TAIL) ≫= k) Q (side q);
  wpc_load_word {A} (Q : A → L → Prop) s j (k : Z → P A) q :
    s = c_read q mod re → j = length (c_words q) → (j < DESC_WORDS)%nat → c_read q < c_known q →
    (∀ v, wp Inv Parked i (k v) Q (side $ c_set_words (c_words q ++ [v]) q)) →
    wp Inv Parked i (load (c, WORD s j) ≫= k) Q (side q);
  wpc_store_total {A} (Q : A → L → Prop) v (k : unit → P A) q :
    c_asleep q = false → wp Inv Parked i (k tt) Q (side q) →
    wp Inv Parked i (store (c, CONS_TOTAL) v ≫= k) Q (side q);
  wpc_release {A} (Q : A → L → Prop) v n (k : unit → P A) q :
    v = u32 (c_head q + n) → 0 <= n → c_head q + n <= c_read q → c_asleep q = false →
    wp Inv Parked i (k tt) Q (side $ c_release n q) →
    wp Inv Parked i (store (c, CONS_HEAD) v ≫= k) Q (side q);
  wpc_store_sleeping {A} (Q : A → L → Prop) v (k : unit → P A) q :
    wp Inv Parked i (k tt) Q (side $ c_set_sleep (bool_decide (v = 1)) false q) →
    wp Inv Parked i (store (c, CONS_SLEEPING) v ≫= k) Q (side q);
  wpc_mfence {A} (Q : A → L → Prop) (k : unit → P A) q :
    c_armed q = true → wp Inv Parked i (k tt) Q (side $ c_set_sleep true true q) →
    wp Inv Parked i (mfence ≫= k) Q (side q);
  wpc_wake {A} (Q : A → L → Prop) n (k : unit → P A) q :
    n ≠ 1 → wp Inv Parked i (k tt) Q (side q) →
    wp Inv Parked i (futex_wake (c, CONS_HEAD) n ≫= k) Q (side q);
  wpc_futex_wait {A} (Q : A → L → Prop) v tm (k : Z → P A) q :
    v = u32 (c_head q) → c_asleep q = true → c_read q = c_head q →
    (∀ kr b, wp Inv Parked i (k kr) Q (side $ c_set_parked b q)) →
    wp Inv Parked i (futex_wait (c, PROD_TAIL) v tm ≫= k) Q (side q);
  wpc_note {A} (Q : A → L → Prop) (k : unit → P A) q d :
    d = c_words q → length d = DESC_WORDS → wp Inv Parked i (k tt) Q (side $ c_next q) →
    wp Inv Parked i (note (Received c d) ≫= k) Q (side q) }.

(** ** The operations *)

Section consumer.
Context (c : nat) (re : Z) {Hsize : RingSize re}.
Context {L : Type} (Inv : list L → @shared loc event → Prop) (Parked : L → Prop) (i : nat)
  (side : cons → L) {Hside : ConsumerSide c re Inv Parked i side}.
Abbreviation wpc k Q q := (wp Inv Parked i k Q (side q)).
Abbreviation PT := (c, PROD_TAIL).
Abbreviation CH := (c, CONS_HEAD).
Abbreviation CS := (c, CONS_SLEEPING).

(** The handle of the consumer between two operations: its cached tail is one that
    the producer has reached, and not behind the head. *)
Definition cons_handle (ch : channel) (q : cons) : Prop :=
  chan ch = c ∧ ring_entries ch = re ∧ ring_mask ch = re - 1 ∧
  c_words q = [] ∧ c_asleep q = false ∧ c_read q = c_head q ∧ c_head q <= c_known q ∧
  ∃ t, c_head q <= t <= c_head q + re ∧ t <= c_known q ∧ cached_prod_tail ch = u32 t.

Lemma cons_handle_seen ch q t :
  cons_handle ch q → c_known q <= t <= c_head q + re →
  cons_handle (set_cached_prod_tail (u32 t) ch) (c_set_known t q).
Proof.
  intros (? & ? & ? & ? & ? & ? & ? & ?) Ht. split_and!; try done; [cbn; lia|].
  exists t. cbn. split_and!; lia || done.
Qed.
Lemma cons_handle_spurious ch q n : cons_handle ch q → cons_handle (set_spurious n ch) q.
Proof. done. Qed.

(** The result of looking: the handle stays valid, and a slot is the one at the
    head, with a published descriptor in it. *)
Definition offered (r : option Z * channel) (l : L) : Prop :=
  ∃ q, l = side q ∧ cons_handle r.2 q ∧
    ∀ s, r.1 = Some s → s = c_read q mod re ∧
      ∃ t, c_head q < t <= c_known q ∧ t <= c_head q + re ∧ cached_prod_tail r.2 = u32 t.

Lemma offered_none ch q : cons_handle ch q → offered (None, ch) (side q).
Proof. intros Hq. by exists q. Qed.
Lemma offered_slot ch q t :
  cons_handle ch q → c_head q < t <= c_known q → t <= c_head q + re → cached_prod_tail ch = u32 t →
  offered (Some (flipc2_ring_idx ch (u32 (c_head q))), ch) (side q).
Proof.
  intros Hq ? ? ?. pose proof Hq as (_ & _ & ? & _ & _ & Hr & _). exists q. split_and!; [done..|].
  intros s [= <-]. split; [by rewrite idx_of, Hr|by exists t].
Qed.
(** The slot offered after reading the tail [t]. *)
Lemma offered_seen ch q t n :
  cons_handle ch q → c_known q <= t <= c_head q + re → t ≠ c_head q →
  offered (Some (flipc2_ring_idx ch (u32 (c_head q))), set_spurious n (set_cached_prod_tail (u32 t) ch))
    (side (c_set_known t q)).
Proof.
  intros Hq Ht Hne. pose proof Hq as (_ & _ & _ & _ & _ & _ & ? & _).
  by apply (offered_slot (set_spurious n (set_cached_prod_tail (u32 t) ch)) (c_set_known t q) t);
    [apply cons_handle_spurious, cons_handle_seen|cbn; lia..|].
Qed.

Lemma wpc_peek ch q : cons_handle ch q → wpc (flipc2_consume_peek ch) offered q.
Proof.
  intros Hq. pose proof Hq as (Hc & Hre & Hm & _ & _ & _ & Hk & t & Ht & Htk & Hcache).
  unfold flipc2_consume_peek. rewrite Hc. apply wpc_load_head. rewrite Hcache, Hre, avail_of by lia.
  cbv zeta. case_decide.
  - apply wpc_load_tail. intros t1 Ht1. rewrite avail_of by lia.
    pose proof (cons_handle_seen ch q t1 Hq Ht1) as Hq1.
    case_decide; [by apply offered_none|]. case_decide; [by apply offered_none|].
    by apply (offered_slot (set_cached_prod_tail (u32 t1) ch) (c_set_known t1 q) t1); [|cbn; lia..|].
  - apply (offered_slot ch q t); [done|lia|lia|done].
Qed.

Definition looked (q : cons) (r : option (option Z) * channel) (l : L) : Prop :=
  match r.1 with
  | Some r1 => offered (r1, r.2) l
  | None => ∃ q', l = side q' ∧ cons_handle r.2 q' ∧ c_head q' = c_head q
  end.

Lemma wpc_spin n ch q :
  cons_handle ch q → wpc (consume_spin n (u32 (c_head q)) ch) (looked q) q.
Proof.
  revert ch q. induction n as [|n IH]; intros ch q Hq; [by exists q|].
  pose proof Hq as (Hc & Hre & Hm & _ & _ & _ & Hk & _). cbn [consume_spin]. rewrite Hc.
  apply wpc_load_tail. intros t Ht. pose proof (cons_handle_seen ch q t Hq Ht) as Hq1.
  case_decide as He; rewrite same_counter in He by lia.
  - apply (IH _ (c_set_known t q)). done.
  - cbn [ring_entries set_cached_prod_tail]. rewrite Hre, avail_of, decide_False by lia.
    by apply (offered_seen ch q t 0).
Qed.

(** Going to sleep: either there is something after all, or the consumer is seen
    asleep by the producer. *)
Lemma wpc_arm ch q :
  cons_handle ch q →
  wpc (consume_arm (u32 (c_head q)) ch)
    (λ r l, match r.1 with
            | Some r1 => offered (r1, r.2) l
            | None => ∃ q', l = side q' ∧ c_asleep q' = true ∧ c_head q' = c_head q ∧
                cons_handle r.2 (c_set_sleep false false q')
            end) q.
Proof.
  intros Hq. pose proof Hq as (Hc & Hre & Hm & ? & ? & ? & Hk & ?).
  unfold consume_arm. rewrite Hc. apply wpc_store_sleeping, wpc_mfence; [done|].
  apply wpc_load_tail. cbn [c_known c_head c_set_sleep]. intros t Ht.
  case_decide as He; rewrite same_counter in He by lia.
  - eexists. split_and!; [done..|].
    by apply (cons_handle_seen ch (c_set_sleep false false q) t).
  - cbn [ring_entries set_cached_prod_tail chan]. rewrite Hc. apply wpc_store_sleeping.
    rewrite Hre, avail_of, decide_False by lia.
    by apply (offered_seen ch (c_set_sleep (bool_decide (0 = 1)) false (c_set_sleep true true (c_set_sleep (bool_decide (1 = 1)) false q))) t 0).
Qed.

(** What the consumer finds after the block. *)
Lemma wpc_woken {A} (Q : A → L → Prop) ch q (k : Z → P A) b :
  c_asleep q = true → cons_handle ch (c_set_sleep false false q) →
  (∀ t q', c_head q' = c_head q → c_known q' <= t <= c_head q' + re → cons_handle ch q' →
     wpc (k (u32 t)) Q (c_set_known t q')) →
  wpc (store CS 0;; (load PT ≫= k)) Q (c_set_parked b q).
Proof.
  intros Ha Hq Hk. apply wpc_store_sleeping, wpc_load_tail. intros t Ht. by apply Hk.
Qed.

Lemma wpc_wait_loop fuel ch spin q :
  cons_handle ch q → wpc (consume_wait_loop fuel ch spin) offered q.
Proof.
  revert ch spin q. induction fuel as [|fuel IH]; intros ch spin q Hq; cbn [consume_wait_loop];
    pose proof Hq as (Hc & _); rewrite Hc; apply wpc_load_head, wp_bind;
    (eapply wp_mono; [|by apply wpc_spin]); intros [[r|] ch1] l Hl; try exact Hl;
    destruct Hl as (q1 & -> & Hq1 & Hh1); cbn in Hq1; rewrite <- Hh1; apply wp_bind;
    (eapply wp_mono; [|by apply wpc_arm]); intros [[r|] ch2] l Hl; try exact Hl;
    destruct Hl as (q2 & -> & Ha & Hh2 & Hq2); cbn in Hq2;
    pose proof Hq2 as (Hc2 & Hre2 & _ & _ & _ & Hr2 & _); rewrite Hc2, <- Hh2;
    (apply wpc_futex_wait; [done..|]); intros kr b; (apply (wpc_woken _ ch2); [done..|]);
    intros t q3 Hh3 Ht Hq3; rewrite <- Hh3; pose proof Hq3 as (_ & _ & _ & _ & _ & _ & ? & _);
    rewrite avail_of by lia; pose proof (cons_handle_seen ch2 q3 t Hq3 Ht) as Hq4; cbv zeta; case_decide.
  1, 3: case_decide; [by apply offered_none|]; [..].
  1: by apply offered_none.
  1: by apply IH.
  all: cbn [ring_entries set_cached_prod_tail]; rewrite Hre2, decide_False by lia;
    by apply (offered_seen ch2 q3 t 0); [| |lia].
Qed.

Lemma wpc_timedwait ch spin ms q :
  cons_handle ch q → wpc (flipc2_consume_timedwait ch spin ms) offered q.
Proof.
  intros Hq. unfold flipc2_consume_timedwait. apply wp_bind. unfold flipc2_consume_wait_timed.
  pose proof Hq as (Hc & _). rewrite Hc. apply wpc_load_head, wp_bind.
  eapply wp_mono; [|by apply wpc_spin]. intros [[[s|]|] ch1] l Hl; try exact Hl.
  destruct Hl as (q1 & -> & Hq1 & Hh1). cbn in Hq1. rewrite <- Hh1.
  case_decide; [by apply offered_none|]. apply wp_bind.
  eapply wp_mono; [|by apply wpc_arm]. intros [[[s|]|] ch2] l Hl; try exact Hl.
  destruct Hl as (q2 & -> & Ha & Hh2 & Hq2). cbn in Hq2.
  pose proof Hq2 as (Hc2 & Hre2 & _ & _ & _ & Hr2 & _). rewrite Hc2, <- Hh2.
  apply wpc_futex_wait; [done..|]. intros kr b. apply wpc_store_sleeping.
  case_decide; [by apply offered_none|]. case_decide; [by apply offered_none|].
  apply wpc_load_tail. cbn [c_known c_head c_set_sleep c_set_parked]. intros t Ht.
  set (q3 := c_set_sleep (bool_decide (0 = 1)) false (c_set_parked b q2)) in *.
  assert (Hq3 : cons_handle ch2 q3) by done.
  pose proof Hq3 as (_ & _ & _ & _ & _ & _ & ? & _). cbn [q3 c_head c_known] in *.
  rewrite avail_of by (cbn in *; lia). pose proof (cons_handle_seen ch2 q3 t Hq3 Ht) as Hq4.
  case_decide; [case_decide; by apply offered_none|].
  cbn [ring_entries set_cached_prod_tail]. rewrite Hre2, decide_False by lia.
  apply (offered_seen ch2 q3 t 0); [done|done|]. cbn. lia.
Qed.

Lemma wpc_read {A} (Q : A → L → Prop) ch s (k : desc → P A) q :
  chan ch = c → s = c_read q mod re → c_read q < c_known q → c_words q = [] →
  (∀ d, length d = DESC_WORDS → wpc (k d) Q (c_set_words d q)) →
  wpc (read_desc ch s ≫= k) Q q.
Proof.
  intros Hc Hs Hr Hw Hk. apply wp_bind. unfold read_desc, read_words. rewrite Hc.
  assert (Hgen : ∀ n j q', (j + n = DESC_WORDS)%nat → length (c_words q') = j →
    q' = c_set_words (c_words q') q →
    wpc (foldr (λ j k, v ← load (c, WORD s j); vs ← k; mret (v :: vs)) (mret []) (seq j n))
      (λ d l, length d = n ∧ l = side (c_set_words (c_words q' ++ d) q)) q').
  { induction n as [|n IH]; intros j q' Hj Hl Hq'; cbn [seq foldr].
    { split; [done|]. rewrite app_nil_r. by rewrite <- Hq'. }
    apply wpc_load_word; [by rewrite Hq'|done|lia|by rewrite Hq'|]. intros v. apply wp_bind.
    eapply wp_mono; [|apply (IH (S j)); [lia| |by rewrite Hq']].
    - intros d l [Hd ->]. split; [by cbn; rewrite Hd|]. cbn. by rewrite <- app_assoc.
    - cbn. rewrite length_app. cbn. lia. }
  eapply wp_mono; [|apply (Hgen DESC_WORDS 0%nat q); [done|by rewrite Hw|by destruct q]].
  intros d l [Hd ->]. rewrite Hw. by apply Hk.
Qed.

(** Releasing. *)
Lemma wpc_release_n {A} (Q : A → L → Prop) ch n (k : unit → P A) q :
  chan ch = c → 0 <= n → c_head q + n <= c_read q → c_asleep q = false →
  wpc (k tt) Q (c_release n q) → wpc (flipc2_consume_release_n ch n ≫= k) Q q.
Proof.
  intros Hc Hn Hr Ha Hk. apply wp_bind. unfold flipc2_consume_release_n. rewrite Hc.
  apply wpc_load_head, (wpc_release _ _ n); [by rewrite u32_add_l|done..|].
  apply wpc_load. intros total. apply wpc_store_total; [done|]. apply wpc_load. intros v.
  case_decide; [exact Hk|].
  change (futex_wake CH 2147483647) with (futex_wake (ev := event) CH 2147483647 ≫= Ret).
  by apply wpc_wake.
Qed.
Lemma release_is_release_n ch : flipc2_consume_release ch = flipc2_consume_release_n ch 1.
Proof. done. Qed.

Definition consuming (ch : channel) (l : L) : Prop := ∃ q, l = side q ∧ cons_handle ch q.

Lemma wpc_receive_at ch slot l :
  offered (slot, ch) l → wp Inv Parked i (receive_at ch slot) consuming l.
Proof.
  intros (q & -> & Hq & Hs). cbn in Hq, Hs. destruct slot as [s|]; [|by exists q].
  destruct (Hs s eq_refl) as (-> & t & Ht & Htr & Hct).
  pose proof Hq as (Hc & Hre & Hm & Hw & Ha & Hr & Hk & _). cbn [receive_at].
  apply wpc_read; [done|done|lia|done|]. intros d Hd. rewrite Hc. apply wpc_note; [done|done|].
  rewrite release_is_release_n. apply wpc_release_n; [done|lia|cbn; lia|done|].
  eexists. split; [done|]. split_and!; try done; [cbn; lia..|].
  exists t. cbn. split_and!; lia || done.
Qed.

Lemma wpc_drain {A} (Q : A → L → Prop) ch ptr n (k : unit → P A) q :
  chan ch = c → ring_mask ch = re - 1 → ptr = u32 (c_read q) →
  c_read q + Z.of_nat n <= c_known q → c_words q = [] →
  (∀ q', q' = Cons (c_head q) (c_read q + Z.of_nat n) (c_known q) [] (c_armed q) (c_asleep q)
                (c_parked q) → wpc (k tt) Q q') →
  wpc (drain ch ptr n ≫= k) Q q.
Proof.
  intros Hc Hm Hptr Hn Hw Hk. apply wp_bind. revert ptr q Hptr Hn Hw Hk.
  induction n as [|n IH]; intros ptr q Hptr Hn Hw Hk.
  { apply Hk. destruct q. cbn in *. f_equal; [lia|done]. }
  cbn [drain]. apply wpc_read; [done|by rewrite Hptr, idx_of|lia|done|]. intros d Hd.
  rewrite Hc. apply wpc_note; [done..|].
  apply IH; [cbn; rewrite Hptr, u32_add_l; f_equal; lia|cbn; lia|done|].
  intros q' ->. apply Hk. cbn. f_equal. lia.
Qed.

Lemma wpc_receive ch r q : cons_handle ch q → wpc (receive ch r) consuming q.
Proof.
  intros Hq. destruct r as [|spin|spin ms|]; cbn [receive]; apply wp_bind.
  - eapply wp_mono; [|by apply wpc_peek]. intros [s ch'] l Hl. by apply wpc_receive_at.
  - eapply wp_mono; [|by apply wpc_wait_loop]. intros [s ch'] l Hl. by apply wpc_receive_at.
  - eapply wp_mono; [|by apply wpc_timedwait]. intros [s ch'] l Hl. by apply wpc_receive_at.
  - pose proof Hq as (Hc & Hre & Hm & Hw & Ha & Hr & Hk & _). unfold flipc2_available. rewrite Hc.
    apply wpc_load_tail. intros t Ht. pose proof (cons_handle_seen ch q t Hq Ht) as Hq1.
    cbn [chan ring_entries set_cached_prod_tail]. rewrite Hc. apply wpc_load_head.
    cbn [c_head c_set_known]. rewrite Hre, avail_of, decide_False by lia.
    match goal with |- wp _ _ _ (mret ?r) ?K ?l => change (K r l) end. cbv beta iota.
    cbn [chan set_cached_prod_tail]. rewrite Hc. apply wpc_load_head. cbn [c_head c_set_known].
    apply wpc_drain; [done|done|cbn; by rewrite Hr|cbn; lia|done|].
    intros q' ->. cbn. apply wpc_release_n; [done|lia|cbn; lia|done|].
    eexists. split; [done|]. split_and!; try done; [cbn; lia..|].
    exists t. cbn. split_and!; lia || done.
Qed.

Lemma wpc_consumer ch rs q : cons_handle ch q → wpc (consumer ch rs) consuming q.
Proof.
  revert ch q. induction rs as [|r rs IH]; intros ch q Hq; [by exists q|].
  cbn [consumer]. apply wp_bind. eapply wp_mono; [|by apply wpc_receive].
  intros ch' l (q' & -> & Hq'). by apply IH.
Qed.
End consumer.
