(* ===== verification/FlipcSpsc.v ===== *)
(** * FLIPC channels: one producer, one consumer

    Clients of a channel as the API intends them, and the proof that what the
    consumer receives is what the producer sent, in order, for every interleaving
    and every delay of the store buffers; and that a sleeping consumer is woken. *)

From S2P Require Import Prelude Mach Tso FlipcRing FlipcConsumer.

(** ** Clients *)

(** The fields of a descriptor are written with plain stores. *)
Definition write_desc (ch : channel) (slot : Z) (d : desc) : P unit :=
  foldr (λ j k, store (chan ch, WORD slot j) (desc_word d j);; k) (mret tt) (seq 0 DESC_WORDS).
(** A producer tries to send, waits for room, or sends a batch: it checks that
    there is room for all of it, fills the slots after the tail and commits once. *)
Inductive preq := PutTry (d : desc) | PutWait (spin : nat) (d : desc) | PutBatch (ds : list desc).

Definition send_at (ch : channel) (slot : option Z) (d : desc) : P channel :=
  match slot with
  | None => mret ch
  | Some slot => note (Sent (chan ch) d);; write_desc ch slot d;; flipc2_produce_commit ch;; mret ch
  end.

Fixpoint fill (ch : channel) (ptr : Z) (ds : list desc) : P unit :=
  match ds with
  | [] => mret tt
  | d :: ds =>
      note (Sent (chan ch) d);; write_desc ch (flipc2_ring_idx ch ptr) d;; fill ch (ptr +32 1) ds
  end.

Definition send (ch : channel) (r : preq) : P channel :=
  match r with
  | PutTry d => '(slot, ch) ← flipc2_produce_reserve ch; send_at ch slot d
  | PutWait spin d => '(slot, ch) ← flipc2_produce_wait ch spin; send_at ch slot d
  | PutBatch ds =>
      '(slot, ch) ← flipc2_produce_reserve ch;
      match slot with
      | None => mret ch
      | Some _ =>
          tail ← load (chan ch, PROD_TAIL);
          head ← load (chan ch, CONS_HEAD);
          if decide (Z.of_nat (length ds) <= flipc2_ring_free ch tail head) then
            fill ch tail ds;; flipc2_produce_commit_n ch (Z.of_nat (length ds));; mret ch
          else mret ch
      end
  end.

Fixpoint producer (ch : channel) (rs : list preq) : P channel :=
  match rs with [] => mret ch | r :: rs => ch ← send ch r; producer ch rs end.
(** The descriptors of a request are whole. *)
Definition req_ok (r : preq) : Prop :=
  match r with
  | PutTry d | PutWait _ d => length d = DESC_WORDS
  | PutBatch ds => Forall (λ d, length d = DESC_WORDS) ds
  end.

(** ** Counters that only one thread moves

    [chain R m t b T]: the memory has the value [t] of the counter, in the sense of
    [R], and while the stores of [b] reach it one by one it goes up to [T]. *)
Fixpoint chain (R : (loc → Z) → Z → Prop) (m : loc → Z) (t : Z) (b : list (loc * Z)) (T : Z) : Prop :=
  R m t ∧
  match b with
  | [] => t = T
  | (x, v) :: b => ∃ t', t <= t' ∧ chain R (upd m x v) t' b T
  end.

Lemma chain_final R m t b T : chain R m t b T → R (view m b) T ∧ t <= T.
Proof.
  revert m t. induction b as [|[x v] b IH]; intros m t [HR Hb]; [by subst|].
  destruct Hb as (t' & Ht & Hb). apply IH in Hb as [? ?]. split; [done|lia].
Qed.

Lemma chain_snoc R m t b T x v T' :
  chain R m t b T → T <= T' → R (upd (view m b) x v) T' → chain R m t (b ++ [(x, v)]) T'.
Proof.
  revert m t. induction b as [|[y w] b IH]; intros m t [HR Hb] HT Hn; cbn in *.
  - subst t. split; [done|]. by exists T'.
  - destruct Hb as (t' & Ht & Hb). split; [done|]. exists t'. split; [done|]. by apply IH.
Qed.

Lemma chain_mono (R R' : (loc → Z) → Z → Prop) m t b T :
  (∀ m' t', t' <= T → R m' t' → R' m' t') → chain R m t b T → chain R' m t b T.
Proof.
  intros HR. revert m t. induction b as [|[x v] b IH]; intros m t Hc;
    pose proof (chain_final _ _ _ _ _ Hc) as [_ Hle]; destruct Hc as [H0 Hb].
  - split; auto.
  - destruct Hb as (t' & Ht & Hb). split; [by auto|]. exists t'. auto.
Qed.

(** A store that [R] does not look at. *)
Lemma chain_skip (R : (loc → Z) → Z → Prop) (X : loc → Prop) m m' t b T :
  (∀ m1 m2 t, (∀ x, X x → m1 x = m2 x) → R m1 t → R m2 t) →
  (∀ x, X x → m x = m' x) → chain R m t b T → chain R m' t b T.
Proof.
  intros HR. revert m m' t. induction b as [|[x v] b IH]; intros m m' t Hm [H0 Hb].
  - split; [by eapply HR|done].
  - destruct Hb as (t' & Ht & Hb). split; [by eapply HR|]. exists t'. split; [done|].
    eapply IH; [|exact Hb]. intros y Hy. unfold upd. case_decide; auto.
Qed.

(** ** The invariant *)

(** What the producer knows: the descriptors it has published (in its own view of
    memory), a bound below which the consumer has released, the words it has
    written beyond the tail, the descriptors announced but not yet published, and
    whether it may still owe the consumer a wake-up. *)
Record prod := Prod {
  p_hist : list desc; p_known : Z; p_pend : gmap (Z * nat) Z; p_ann : list desc;
  p_owe : bool; p_fenced : bool }.

Section spsc.
Context (c : nat) (re th T0 : Z) {Hsize : RingSize re}.

Abbreviation PT := (c, PROD_TAIL).
Abbreviation CH := (c, CONS_HEAD).
Abbreviation CS := (c, CONS_SLEEPING).
Abbreviation PS := (c, PROD_SLEEPING).
Abbreviation TH := (c, WAKEUP_THRESH).

(** Positions count from [T0]; position [n] lives in slot [n mod re]. *)
Definition nth_sent (hist : list desc) (n : Z) : desc := default [] (hist !! Z.to_nat (n - T0)).
Definition tail_of (p : prod) : Z := T0 + Z.of_nat (length (p_hist p)).
Definition published (hist : list desc) (lo t : Z) (m : loc → Z) : Prop :=
  ∀ n j, lo <= n < t → (j < DESC_WORDS)%nat →
    m (c, WORD (n mod re) j) = desc_word (nth_sent hist n) j.
Definition tail_is (hist : list desc) (lo : Z) (m : loc → Z) (t : Z) : Prop :=
  m PT = u32 t ∧ published hist lo t m.
Definition head_is (m : loc → Z) (h : Z) : Prop := m CH = u32 h.

(** The words each side writes. *)
Definition prod_loc (x : loc) : Prop :=
  x.1 = c ∧
  match x.2 with PROD_TAIL | PROD_SLEEPING | PROD_TOTAL | WAKEUPS | WORD _ _ => True | _ => False end.
Definition cons_loc (x : loc) : Prop :=
  x.1 = c ∧ match x.2 with CONS_HEAD | CONS_SLEEPING | CONS_TOTAL => True | _ => False end.

Record inv (p : prod) (q : cons) (m : loc → Z) (bp bc : list (loc * Z)) (qp qc : list loc)
    (es : list event) : Prop := {
  i_prod : Forall prod_loc bp.*1;
  i_cons : Forall cons_loc bc.*1;
  i_th : m TH = th;
  i_tail : ∃ t, c_known q <= t ∧ chain (tail_is (p_hist p) (c_head q)) m t bp (tail_of p) ∧
    (th <= 1 → c_parked q = true → PT ∈ qc → t = c_head q ∨ p_owe p = true);
  i_head : ∃ h, p_known p <= h ∧ chain head_is m h bc (c_head q);
  i_order : T0 <= c_head q ∧ c_head q <= c_read q ∧ c_read q <= c_known q;
  i_space : tail_of p + Z.of_nat (length (p_ann p)) <= p_known p + re;
  i_pend : ∀ n j v, p_pend p !! (n, j) = Some v →
    n < p_known p + re ∧ (tail_of p <= n → view m bp (c, WORD (n mod re) j) = v);
  i_owe : PT ∈ bp.*1 → p_owe p = true ∧ p_fenced p = false;
  i_armed : c_armed q = true → view m bc CS = 1;
  i_asleep : c_asleep q = true → bc = [] ∧ m CS = 1;
  i_queue : PT ∈ qc → c_asleep q = true;
  i_idle : qp ≠ [] → p_owe p = false;
  i_sent : sent c es = p_hist p ++ p_ann p;
  i_received : received c es = take (Z.to_nat (c_read q - T0)) (p_hist p);
  i_words : ∀ j v, c_words q !! j = Some v →
    c_read q < c_known q ∧ v = desc_word (nth_sent (p_hist p) (c_read q)) j;
  i_whole : Forall (λ d, length d = DESC_WORDS) (p_hist p ++ p_ann p) }.

Definition Inv (ls : list (prod + cons)) (s : @shared loc event) : Prop :=
  ∃ p q m bp bc qp qc es,
    ls = [inl p; inr q] ∧ s = Shared m [bp; bc] [qp; qc] es ∧ inv p q m bp bc qp qc es.

(** A producer that blocks owes nothing; a consumer that blocks has seen an empty
    ring after it announced its sleep. *)
Definition Parked (l : prod + cons) : Prop :=
  match l with inl p => p_owe p = false | inr q => c_parked q = true end.

Lemma prod_move g f (K : shared → prod + cons → Prop) p :
  (∀ q m bp bc qp qc es, inv p q m bp bc qp qc es → g (Shared m [bp; bc] [qp; qc] es) →
     ∃ p' m' bp' bc' qp' qc' es', inv p' q m' bp' bc' qp' qc' es' ∧
       f (Shared m [bp; bc] [qp; qc] es) = Shared m' [bp'; bc'] [qp'; qc'] es' ∧
       K (Shared m [bp; bc] [qp; qc] es) (inl p')) →
  move Inv 0 g f K (inl p).
Proof.
  intros H ls s Hl (p0 & q & m & bp & bc & qp & qc & es & -> & -> & Hi) Hg. cbn in Hl.
  injection Hl as ->. destruct (H q m bp bc qp qc es Hi Hg) as (p' & m' & bp' & bc' & qp' & qc' & es' & Hi' & Hf & HK).
  exists (inl p'). split; [|done]. exists p', q, m', bp', bc', qp', qc', es'. done.
Qed.

Lemma cons_move g f (K : shared → prod + cons → Prop) q :
  (∀ p m bp bc qp qc es, inv p q m bp bc qp qc es → g (Shared m [bp; bc] [qp; qc] es) →
     ∃ q' m' bp' bc' qp' qc' es', inv p q' m' bp' bc' qp' qc' es' ∧
       f (Shared m [bp; bc] [qp; qc] es) = Shared m' [bp'; bc'] [qp'; qc'] es' ∧
       K (Shared m [bp; bc] [qp; qc] es) (inr q')) →
  move Inv 1 g f K (inr q).
Proof.
  intros H ls s Hl (p & q0 & m & bp & bc & qp & qc & es & -> & -> & Hi) Hg. cbn in Hl.
  injection Hl as ->. destruct (H p m bp bc qp qc es Hi Hg) as (q' & m' & bp' & bc' & qp' & qc' & es' & Hi' & Hf & HK).
  exists (inr q'). split; [|done]. exists p, q', m', bp', bc', qp', qc', es'. done.
Qed.

(** What both sides can rely on. *)
Lemma inv_counters p q m bp bc qp qc es :
  inv p q m bp bc qp qc es → ∃ t h,
    m PT = u32 t ∧ m CH = u32 h ∧ published (p_hist p) (c_head q) t m ∧
    view m bp PT = u32 (tail_of p) ∧ published (p_hist p) (c_head q) (tail_of p) (view m bp) ∧
    view m bc CH = u32 (c_head q) ∧
    c_known q <= t <= tail_of p ∧ p_known p <= h <= c_head q ∧
    tail_of p + Z.of_nat (length (p_ann p)) <= p_known p + re ∧
    T0 <= c_head q <= c_read q ∧ c_read q <= c_known q.
Proof.
  intros []. destruct i_tail0 as (t & Hk & Ht & _), i_head0 as (h & Hkh & Hh).
  pose proof (chain_final _ _ _ _ _ Ht) as [[Hv Hp] Hle].
  pose proof (chain_final _ _ _ _ _ Hh) as [Hvh Hleh].
  exists t, h. destruct bp as [|[]], bc as [|[]], Ht as [[? ?] ?], Hh as [? ?]; split_and!; done || lia.
Qed.

Lemma prod_loc_notin x (bp : list (loc * Z)) : Forall prod_loc bp.*1 → ¬ prod_loc x → x ∉ bp.*1.
Proof. rewrite list.Forall_forall. intros H Hn Hx. by apply Hn, H. Qed.
Lemma cons_loc_notin x (bc : list (loc * Z)) : Forall cons_loc bc.*1 → ¬ cons_loc x → x ∉ bc.*1.
Proof. rewrite list.Forall_forall. intros H Hn Hx. by apply Hn, H. Qed.

Definition tail_word (x : loc) : Prop := x = PT ∨ ∃ s j, x = (c, WORD s j).
Lemma tail_is_ext hist lo m1 m2 t :
  (∀ x, tail_word x → m1 x = m2 x) → tail_is hist lo m1 t → tail_is hist lo m2 t.
Proof.
  intros Hx [H1 H2]. split.
  - rewrite <- Hx; [done|by left].
  - intros n j Hn Hj. rewrite <- Hx; [by apply H2|right; eauto].
Qed.
Lemma head_is_ext m1 m2 h : (∀ x, x = CH → m1 x = m2 x) → head_is m1 h → head_is m2 h.
Proof. unfold head_is. intros Hx <-. symmetry. by apply Hx. Qed.

(** A word of the other side is not this one. *)
Lemma cons_not_tail x y : cons_loc x → tail_word y → y ≠ x.
Proof. destruct x as [? []]; intros [? H] [-> | (? & ? & ->)]; cbn in H; done. Qed.

Lemma inv_flush_prod p q m x v bp bc qp qc es :
  inv p q m ((x, v) :: bp) bc qp qc es → inv p q (upd m x v) bp bc qp qc es.
Proof.
  intros Hi. pose proof (inv_counters _ _ _ _ _ _ _ _ Hi) as (t0 & h0 & Hc).
  pose proof re_range. destruct Hi. cbn in i_prod0. apply Forall_cons_iff in i_prod0 as [Hx Hp].
  destruct i_tail0 as (t & Hk & [[HPT Hpub] (t' & Ht & Hch)] & Howe).
  pose proof (chain_final _ _ _ _ _ Hch) as [_ Hle].
  constructor; try done.
  - rewrite upd_other; [done|]. intros <-. by destruct Hx.
  - exists t'. split_and!; [lia|done|]. intros Hth Hpk Hq.
    destruct (decide (x = PT)) as [->|Hne].
    { right. apply i_owe0. cbn. left. }
    destruct (Howe Hth Hpk Hq) as [-> |]; [|by right]. left.
    assert (Hu : u32 (c_head q) = u32 t').
    { rewrite <- HPT. destruct bp as [|[]], Hch as [[<- _] _]; by rewrite upd_other. }
    symmetry. apply u32_inj; [done|]. lia.
  - destruct i_head0 as (h & ? & Hh). exists h. split; [done|].
    eapply (chain_skip head_is (λ y, y = CH)); [by apply head_is_ext| |exact Hh].
    intros y ->. rewrite upd_other; [done|]. intros <-. by destruct Hx.
  - intros Hin. apply i_owe0. cbn. by right.
  - intros Ha. rewrite <- (i_armed0 Ha). apply view_ext, upd_other. intros <-. by destruct Hx.
  - intros Ha. destruct (i_asleep0 Ha) as [-> Hm]. split; [done|].
    rewrite upd_other; [done|]. intros <-. by destruct Hx.
Qed.

Lemma inv_flush_cons p q m x v bp bc qp qc es :
  inv p q m bp ((x, v) :: bc) qp qc es → inv p q (upd m x v) bp bc qp qc es.
Proof.
  intros []. cbn in i_cons0. apply Forall_cons_iff in i_cons0 as [Hx Hc].
  constructor; try done.
  - rewrite upd_other; [done|]. intros <-. by destruct Hx.
  - destruct i_tail0 as (t & ? & Ht & ?). exists t. split_and!; [done| |done].
    eapply (chain_skip _ tail_word); [by apply tail_is_ext| |exact Ht].
    intros y Hy. rewrite upd_other; [done|]. by eapply cons_not_tail.
  - destruct i_head0 as (h & ? & _ & h' & ? & Hh). exists h'. split; [lia|done].
  - intros n j w Hw. destruct (i_pend0 n j w Hw) as [? Hv]. split; [done|]. intros Hn.
    rewrite <- (Hv Hn). apply view_ext, upd_other.
    apply (cons_not_tail x); [done|]. right. eauto.
  - intros Ha. by destruct (i_asleep0 Ha).
Qed.

Lemma Inv_flush ls s i x v b :
  Inv ls s → s_bufs s !! i = Some ((x, v) :: b) →
  Inv ls (Shared (upd (s_mem s) x v) (<[i := b]> (s_bufs s)) (s_queue s) (s_evs s)).
Proof.
  intros (p & q & m & bp & bc & qp & qc & es & -> & -> & Hi) Hb. cbn in *.
  destruct i as [|[|i]]; cbn in Hb; simplify_eq.
  - exists p, q, (upd m x v), b, bc, qp, qc, es. split_and!; [done..|by apply inv_flush_prod].
  - exists p, q, (upd m x v), bp, b, qp, qc, es. split_and!; [done..|by apply inv_flush_cons].
Qed.

(** ** The producer's steps *)

Definition p_set_known (h : Z) (p : prod) : prod :=
  Prod (p_hist p) h (p_pend p) (p_ann p) (p_owe p) (p_fenced p).
Definition p_set_owe (o : bool) (p : prod) : prod :=
  Prod (p_hist p) (p_known p) (p_pend p) (p_ann p) o (p_fenced p).
Definition p_set_fenced (p : prod) : prod :=
  Prod (p_hist p) (p_known p) (p_pend p) (p_ann p) (p_owe p) true.
Definition p_write (n : Z) (j : nat) (v : Z) (p : prod) : prod :=
  Prod (p_hist p) (p_known p) (<[(n, j) := v]> (p_pend p)) (p_ann p) (p_owe p) (p_fenced p).
Definition p_announce (d : desc) (p : prod) : prod :=
  Prod (p_hist p) (p_known p) (p_pend p) (p_ann p ++ [d]) (p_owe p) (p_fenced p).
Definition p_publish (p : prod) : prod :=
  Prod (p_hist p ++ p_ann p) (p_known p) (p_pend p) [] true false.

Abbreviation wpp k Q p := (wp Inv Parked 0 k Q (inl p)).
Abbreviation wpc k Q q := (wp Inv Parked 1 k Q (inr q)).

Section producer_rules.
Context {A : Type} (Q : A → prod + cons → Prop).

(** Reading without learning anything. *)
Lemma wpp_load x (k : Z → P A) p : (∀ v, wpp (k v) Q p) → wpp (load x ≫= k) Q p.
Proof.
  intros Hk. apply prod_move. intros q m bp bc qp qc es Hi _.
  exists p, m, bp, bc, qp, qc, es. split_and!; [done..|apply Hk].
Qed.

Lemma wpp_load_tail (k : Z → P A) p :
  wpp (k (u32 (tail_of p))) Q p → wpp (load PT ≫= k) Q p.
Proof.
  intros Hk. apply prod_move. intros q m bp bc qp qc es Hi _.
  exists p, m, bp, bc, qp, qc, es. split_and!; [done..|].
  destruct (inv_counters _ _ _ _ _ _ _ _ Hi) as (t & h & ? & ? & ? & Hv & _).
  unfold view_of. cbn. change (foldl _ m bp PT) with (view m bp PT). by rewrite Hv.
Qed.

(** With a threshold above one the producer promises no wake-up. *)
Lemma wpp_load_thresh (k : Z → P A) p :
  p_fenced p = true → wpp (k th) Q (if decide (th <= 1) then p else p_set_owe false p) →
  wpp (load TH ≫= k) Q p.
Proof.
  intros Hf Hk. apply prod_move. intros q m bp bc qp qc es Hi _.
  eexists (if decide (th <= 1) then p else p_set_owe false p), m, bp, bc, qp, qc, es.
  split_and!; [|done|].
  - case_decide; [done|]. destruct Hi. constructor; try done.
    + destruct i_tail0 as (t & ? & ? & ?). exists t. split_and!; [done..|lia].
    + intros Hin. destruct (i_owe0 Hin). congruence.
  - unfold view_of. cbn. change (foldl _ m bp TH) with (view m bp TH).
    rewrite view_other, (i_th _ _ _ _ _ _ _ _ Hi); [done|].
    eapply prod_loc_notin; [by eapply i_prod|]. by intros [].
Qed.

Lemma wpp_load_head (k : Z → P A) p :
  (∀ h, p_known p <= h <= tail_of p → wpp (k (u32 h)) Q (p_set_known h p)) →
  wpp (load CH ≫= k) Q p.
Proof.
  intros Hk. apply prod_move. intros q m bp bc qp qc es Hi _.
  destruct (inv_counters _ _ _ _ _ _ _ _ Hi) as (t & h0 & _ & _ & _ & _ & _ & _ & ? & _ & ? & ? & ?).
  destruct (i_head _ _ _ _ _ _ _ _ Hi) as (h & ? & Hc).
  pose proof (chain_final _ _ _ _ _ Hc) as [_ ?].
  exists (p_set_known h p), m, bp, bc, qp, qc, es. split_and!; [|done|].
  - destruct Hi. constructor; try done.
    + by exists h.
    + cbn. unfold tail_of in *. cbn. lia.
    + intros n j v Hv. destruct (i_pend0 n j v Hv) as [? ?]. cbn. split; [lia|done].
  - unfold view_of. cbn. change (foldl _ m bp CH) with (view m bp CH).
    rewrite view_other.
    + replace (m CH) with (u32 h) by (destruct bc as [|[]], Hc as [Hc _]; by symmetry).
      apply Hk. lia.
    + eapply prod_loc_notin; [by eapply i_prod|]. by intros [].
Qed.

(** The producer looks whether the consumer sleeps.  If it does not, once the
    producer's stores are in memory, it owes it nothing. *)
Lemma wpp_load_sleeping (k : Z → P A) p :
  (p_fenced p = true → wpp (k 0) Q (p_set_owe false p)) → (p_fenced p = true) →
  (∀ v, v ≠ 0 → wpp (k v) Q p) → wpp (load CS ≫= k) Q p.
Proof.
  intros H0 Hf H1. apply prod_move. intros q m bp bc qp qc es Hi _.
  assert (Hv : view_of 0 (Shared m [bp; bc] [qp; qc] es) CS = m CS).
  { unfold view_of. cbn. apply view_other. eapply prod_loc_notin; [by eapply i_prod|]. by intros []. }
  destruct (decide (m CS = 0)) as [Hm|Hm].
  - exists (p_set_owe false p), m, bp, bc, qp, qc, es. split_and!; [|done|].
    + destruct Hi. constructor; try done.
      * destruct i_tail0 as (t & ? & ? & ?). exists t. split_and!; [done..|].
        intros _ _ Hq. destruct (i_asleep0 (i_queue0 Hq)). lia.
      * intros Hin. destruct (i_owe0 Hin). congruence.
    + cbn beta. rewrite Hv, Hm. by apply H0.
  - exists p, m, bp, bc, qp, qc, es. split_and!; [done..|]. cbn beta. rewrite Hv. by apply H1.
Qed.

Lemma wpp_mfence (k : unit → P A) p : wpp (k tt) Q (p_set_fenced p) → wpp (mfence ≫= k) Q p.
Proof.
  intros Hk. apply prod_move. intros q m bp bc qp qc es Hi Hd.
  destruct Hd as [Hd _]. cbn in Hd. injection Hd as ->.
  exists (p_set_fenced p), m, [], bc, qp, qc, es. split_and!; [|done..].
  destruct Hi. constructor; try done. intros Hin. by apply not_elem_of_nil in Hin.
Qed.

(** Stores to the flag and the statistics. *)
Lemma wpp_store x v (k : unit → P A) p :
  x = PS ∨ x = (c, PROD_TOTAL) ∨ x = (c, WAKEUPS) → wpp (k tt) Q p → wpp (store x v ≫= k) Q p.
Proof.
  intros Hx Hk. apply prod_move. intros q m bp bc qp qc es Hi _.
  exists p, m, (bp ++ [(x, v)]), bc, qp, qc, es. split_and!; [|done..].
  assert (Hne : ∀ y, tail_word y → y ≠ x).
  { intros y [-> | (? & ? & ->)]; by destruct Hx as [-> | [-> | ->]]. }
  destruct Hi. constructor; try done.
  - rewrite fmap_app. apply Forall_app. split; [done|]. constructor; [|done].
    by destruct Hx as [-> | [-> | ->]].
  - destruct i_tail0 as (t & ? & Hc & ?). exists t. split_and!; [done| |done].
    apply (chain_snoc _ _ _ _ (tail_of p)); [done..|].
    apply (tail_is_ext _ _ (view m bp)); [|by apply chain_final in Hc as [? _]].
    intros y Hy. by rewrite upd_other by auto.
  - intros n j w Hw. destruct (i_pend0 n j w Hw) as [? Hv]. split; [done|]. intros Hn.
    rewrite view_snoc, decide_False; [by apply Hv|]. apply Hne. right. eauto.
  - rewrite fmap_app, elem_of_app. intros [Hin|Hin]; [by auto|].
    apply list_elem_of_singleton in Hin. by destruct (Hne PT (or_introl eq_refl)).
Qed.

(** Writing a word of a position that the consumer has released. *)
Lemma wpp_store_word s n j v (k : unit → P A) p :
  s = n mod re → tail_of p <= n < p_known p + re → wpp (k tt) Q (p_write n j v p) →
  wpp (store (c, WORD s j) v ≫= k) Q p.
Proof.
  intros -> Hn Hk. apply prod_move. intros q m bp bc qp qc es Hi _.
  destruct (inv_counters _ _ _ _ _ _ _ _ Hi) as (t0 & h0 & _ & _ & _ & _ & _ & _ & ? & ? & ? & ? & ?).
  set (x := (c, WORD (n mod re) j)).
  exists (p_write n j v p), m, (bp ++ [(x, v)]), bc, qp, qc, es. split_and!; [|done..].
  destruct Hi. constructor; try done.
  - rewrite fmap_app. apply Forall_app. split; [done|]. by constructor.
  - destruct i_tail0 as (t & ? & Hc & ?). exists t. split_and!; [done| |done].
    apply (chain_snoc _ _ _ _ (tail_of p)); [done..|].
    apply chain_final in Hc as [[Hv Hp] _]. split; [by rewrite upd_other|].
    intros i j' Hi Hj. rewrite upd_other; [by apply Hp|].
    intros [= Hs ->]. apply slot_inj in Hs; unfold tail_of in *; cbn in *; lia.
  - intros i j' w. cbn. rewrite lookup_insert_Some. intros [[[= <- <-] <-]|[Hne Hw]].
    + split; [lia|]. intros _. by rewrite view_snoc, decide_True.
    + destruct (i_pend0 i j' w Hw) as [? Hv]. split; [done|]. intros Hi.
      rewrite view_snoc, decide_False; [by apply Hv|]. intros [= Hs ->]. apply Hne. f_equal.
      destruct (decide (n <= i)); [|symmetry in Hs; symmetry]; apply slot_inj; try done;
        unfold tail_of in *; cbn in *; lia.
  - rewrite fmap_app, elem_of_app. intros [Hin|Hin]; [by auto|].
    by apply list_elem_of_singleton in Hin.
Qed.

Lemma wpp_note d (k : unit → P A) p :
  length d = DESC_WORDS → tail_of p + Z.of_nat (length (p_ann p)) < p_known p + re →
  wpp (k tt) Q (p_announce d p) → wpp (note (Sent c d) ≫= k) Q p.
Proof.
  intros Hd Hsp Hk. apply prod_move. intros q m bp bc qp qc es Hi _.
  exists (p_announce d p), m, bp, bc, qp, qc, (es ++ [Sent c d]). split_and!; [|done..].
  destruct Hi. constructor; try done; cbn.
  - rewrite length_app. cbn. unfold tail_of in *. cbn. lia.
  - unfold sent in *. rewrite omap_app, i_sent0. cbn. by rewrite decide_True, app_assoc.
  - unfold received in *. rewrite omap_app, i_received0. cbn. by rewrite app_nil_r.
  - rewrite app_assoc. apply Forall_app. split; [done|]. by constructor.
Qed.

Lemma nth_sent_app (hist ds : list desc) n :
  T0 <= n < T0 + Z.of_nat (length hist) → nth_sent (hist ++ ds) n = nth_sent hist n.
Proof. intros Hn. unfold nth_sent. by rewrite lookup_app_l by lia. Qed.
Lemma nth_sent_new (hist ds : list desc) (i : nat) d :
  ds !! i = Some d → nth_sent (hist ++ ds) (T0 + Z.of_nat (length hist) + Z.of_nat i) = d.
Proof.
  intros Hd. unfold nth_sent. rewrite lookup_app_r by lia.
  replace (Z.to_nat _ - _)%nat with i by lia. by rewrite Hd.
Qed.

(** Publishing the announced descriptors, once all their words are written. *)
Lemma wpp_publish v (k : unit → P A) p :
  v = u32 (tail_of p + Z.of_nat (length (p_ann p))) →
  (∀ i d j, p_ann p !! i = Some d → (j < DESC_WORDS)%nat →
     p_pend p !! (tail_of p + Z.of_nat i, j) = Some (desc_word d j)) →
  wpp (k tt) Q (p_publish p) → wpp (store PT v ≫= k) Q p.
Proof.
  intros -> Hw Hk. apply prod_move. intros q m bp bc qp qc es Hi Hrun.
  unfold running in Hrun. cbn in Hrun. injection Hrun as ->.
  destruct (inv_counters _ _ _ _ _ _ _ _ Hi) as (t0 & h0 & _ & _ & _ & _ & _ & _ & ? & ? & ? & ? & ?).
  eexists (p_publish p), m, (bp ++ [(PT, _)]), bc, [], qc, es. split_and!; [|done..].
  assert (HT : tail_of (p_publish p) = tail_of p + Z.of_nat (length (p_ann p))).
  { unfold tail_of. cbn. rewrite length_app. lia. }
  destruct Hi. constructor; try done.
  - rewrite fmap_app. apply Forall_app. split; [done|]. by constructor.
  - destruct i_tail0 as (t & ? & Hc & ?). exists t. split_and!; [done| |by right].
    assert (Hc' : chain (tail_is (p_hist p ++ p_ann p) (c_head q)) m t bp (tail_of p)).
    { eapply chain_mono; [|exact Hc]. intros m' t' Ht' [? Hp]. split; [done|].
      intros n j Hn Hj. rewrite nth_sent_app by (unfold tail_of in *; lia). by apply Hp. }
    apply (chain_snoc _ _ _ _ (tail_of p)); [done|lia|].
    apply chain_final in Hc' as [[_ Hp] _]. split; [by rewrite upd_same, HT|].
    intros n j Hn Hj. rewrite upd_other by done. destruct (decide (n < tail_of p)); [apply Hp; lia|].
    destruct (lookup_lt_is_Some_2 (p_ann p) (Z.to_nat (n - tail_of p))) as [d Hd]; [lia|].
    assert (Hn' : n = tail_of p + Z.of_nat (Z.to_nat (n - tail_of p))) by lia.
    destruct (i_pend0 n j (desc_word d j)) as [_ Hv]; [rewrite Hn'; by apply Hw|].
    rewrite Hv by lia. f_equal. symmetry. rewrite Hn'. by apply nth_sent_new.
  - rewrite HT. cbn. lia.
  - intros n j w Hp. destruct (i_pend0 n j w Hp) as [? Hv]. split; [done|]. intros Hn.
    rewrite view_snoc, decide_False by done. apply Hv. lia.
  - cbn. by rewrite app_nil_r.
  - cbn. rewrite i_received0, take_app_le; [done|]. unfold tail_of in *. lia.
  - intros j w Hj. destruct (i_words0 j w Hj) as [? ->]. split; [done|]. f_equal. symmetry.
    apply nth_sent_app. unfold tail_of in *. lia.
  - cbn. by rewrite app_nil_r.
Qed.

(** The words that a thread is queued on after a wake-up. *)
Definition unqueue (x : loc) (keys : list loc) : list loc := if decide (x ∈ keys) then [] else keys.
Lemma unqueue_notin (x : loc) keys : x ∉ unqueue x keys.
Proof. unfold unqueue. case_decide; [apply not_elem_of_nil|done]. Qed.
Lemma unqueue_sub (x y : loc) keys : x ∈ unqueue y keys → x ∈ keys.
Proof. unfold unqueue. case_decide; [by intros ?%not_elem_of_nil|done]. Qed.
Lemma unqueue_nil (x : loc) : unqueue x [] = [].
Proof. unfold unqueue. by case_decide. Qed.

Lemma unqueue_none (x : loc) keys : x ∉ keys → unqueue x keys = keys.
Proof. intros. unfold unqueue. by rewrite decide_False. Qed.

(** The wake-up: the consumer is the only thread that can be on the queue. *)
Lemma wpp_wake (k : unit → P A) p :
  wpp (k tt) Q (p_set_owe false p) → p_fenced p = true → wpp (futex_wake PT 1 ≫= k) Q p.
Proof.
  intros Hk Hf. assert (Hwake : ∀ q m bp bc qp qc es,
    inv p q m bp bc qp qc es → inv (p_set_owe false p) q m bp bc qp (unqueue PT qc) es).
  { intros q m bp bc qp qc es Hi. destruct Hi. constructor; try done.
    - destruct i_tail0 as (t & ? & ? & ?). exists t. split_and!; [done..|].
      intros _ _ Hq. by apply unqueue_notin in Hq.
    - intros Hin. destruct (i_owe0 Hin). congruence.
    - intros Hq. by eapply i_queue0, unqueue_sub. }
  split; [intros j|]; apply prod_move; intros q m bp bc qp qc es Hi [[_ Hrun] Hj];
    unfold running in Hrun; cbn in Hrun; injection Hrun as ->;
    exists (p_set_owe false p), m, bp, bc, [], (unqueue PT qc), es; (split_and!; [by apply Hwake| |done]).
  - destruct Hj as (keys & Hj & Hin). destruct j as [|[|j]]; cbn in Hj; simplify_eq; [by apply not_elem_of_nil in Hin|].
    unfold wake_by, wake_one, unqueue. cbn. rewrite bool_decide_false by apply not_elem_of_nil. cbn.
    by rewrite bool_decide_true, decide_True.
  - unfold id. rewrite unqueue_none; [done|]. intros Hin. apply (Hj 1%nat). by exists qc.
Qed.

(** Blocking: the producer comes back with any code, and has learnt nothing. *)
Lemma wpp_futex_wait v tm (k : Z → P A) p :
  p_owe p = false → (∀ kr, wpp (k kr) Q p) → wpp (futex_wait CH v tm ≫= k) Q p.
Proof.
  intros Ho Hk. assert (Hset : ∀ g keys (K : shared → prod + cons → Prop),
    (∀ s, K s (inl p)) → move Inv 0 g (set_queue 0 keys) K (inl p)).
  { intros g keys K HK. apply prod_move. intros q m bp bc qp qc es Hi _.
    exists p, m, bp, bc, keys, qc, es. split_and!; [by destruct Hi; constructor|done|apply HK]. }
  split; [by intros; apply Hk|]. apply Hset. intros s. split; [apply Hset; intros; apply Hk|].
  intros ls s' Hl Hi _. exists (inl p). split.
  - by rewrite list_insert_id.
  - split; [done|]. split; [|intros kr; apply Hset; intros s0; apply Hk].
    intros ls' s0 Hl' Hi' _. exists (inl p). split; [by rewrite list_insert_id|apply Hk].
Qed.
End producer_rules.

(** ** The consumer's steps *)

Section consumer_rules.
Context {A : Type} (Q : A → prod + cons → Prop).

Lemma spsc_load x (k : Z → P A) q : (∀ v, wpc (k v) Q q) → wpc (load x ≫= k) Q q.
Proof.
  intros Hk. apply cons_move. intros p m bp bc qp qc es Hi _.
  exists q, m, bp, bc, qp, qc, es. split_and!; [done..|apply Hk].
Qed.

Lemma spsc_load_head (k : Z → P A) q :
  wpc (k (u32 (c_head q))) Q q → wpc (load CH ≫= k) Q q.
Proof.
  intros Hk. apply cons_move. intros p m bp bc qp qc es Hi _.
  exists q, m, bp, bc, qp, qc, es. split_and!; [done..|].
  destruct (inv_counters _ _ _ _ _ _ _ _ Hi) as (t & h & _ & _ & _ & _ & _ & Hv & _).
  unfold view_of. cbn. change (foldl _ m bc CH) with (view m bc CH). by rewrite Hv.
Qed.

(** A word of the producer, as the consumer sees it. *)
Lemma cons_view_other p q m bp bc qp qc es x :
  inv p q m bp bc qp qc es → ¬ cons_loc x →
  view_of 1 (Shared m [bp; bc] [qp; qc] es) x = m x.
Proof.
  intros Hi Hx. unfold view_of. cbn. apply view_other.
  eapply cons_loc_notin; [by eapply i_cons|done].
Qed.

Lemma spsc_load_tail (k : Z → P A) q :
  (∀ t, c_known q <= t <= c_head q + re → wpc (k (u32 t)) Q (c_set_known t q)) →
  wpc (load PT ≫= k) Q q.
Proof.
  intros Hk. apply cons_move. intros p m bp bc qp qc es Hi _.
  destruct (inv_counters _ _ _ _ _ _ _ _ Hi) as (t0 & h0 & _ & _ & _ & _ & _ & _ & ? & ? & ? & ? & ?).
  destruct (i_tail _ _ _ _ _ _ _ _ Hi) as (t & ? & Hc & Ho).
  pose proof (chain_final _ _ _ _ _ Hc) as [_ ?].
  exists (c_set_known t q), m, bp, bc, qp, qc, es. split_and!; [|done|].
  - destruct Hi. constructor; try done.
    + by exists t.
    + cbn. lia.
    + intros j v Hj. destruct (i_words0 j v Hj). cbn. split; [lia|done].
  - cbn beta. erewrite cons_view_other; [|done|by intros []].
    replace (m PT) with (u32 t) by (destruct bp as [|[]], Hc as [[] _]; by symmetry).
    apply Hk. lia.
Qed.

Lemma spsc_load_word s j (k : Z → P A) q :
  s = c_read q mod re → j = length (c_words q) → (j < DESC_WORDS)%nat → c_read q < c_known q →
  (∀ v, wpc (k v) Q (c_set_words (c_words q ++ [v]) q)) → wpc (load (c, WORD s j) ≫= k) Q q.
Proof.
  intros -> Hj Hlt Hr Hk. apply cons_move. intros p m bp bc qp qc es Hi _.
  destruct (inv_counters _ _ _ _ _ _ _ _ Hi) as (t0 & h0 & _ & _ & Hp & _ & _ & _ & ? & ? & ? & ? & ?).
  set (v := m (c, WORD (c_read q mod re) j)).
  exists (c_set_words (c_words q ++ [v]) q), m, bp, bc, qp, qc, es. split_and!; [|done|].
  - destruct Hi. constructor; try done. cbn.
    intros i w [Hw|[Hle Hw]]%lookup_app_Some; [by apply i_words0|].
    split; [done|]. apply list_lookup_singleton_Some in Hw as [Hi <-].
    replace i with j by lia. apply Hp; [lia|done].
  - cbn beta. erewrite cons_view_other; [|done|by intros []]. apply Hk.
Qed.

Lemma spsc_store_total v (k : unit → P A) q :
  c_asleep q = false → wpc (k tt) Q q → wpc (store (c, CONS_TOTAL) v ≫= k) Q q.
Proof.
  intros Ha Hk. apply cons_move. intros p m bp bc qp qc es Hi _.
  eexists q, m, bp, (bc ++ [_]), qp, qc, es. split_and!; [|done..].
  destruct Hi. constructor; try done.
  - rewrite fmap_app. apply Forall_app. split; [done|]. by constructor.
  - destruct i_head0 as (h & ? & Hc). exists h. split; [done|].
    apply (chain_snoc _ _ _ _ (c_head q)); [done..|].
    apply chain_final in Hc as [? _]. unfold head_is. by rewrite upd_other.
  - intros Hr. rewrite view_snoc, decide_False by done. by apply i_armed0.
  - congruence.
Qed.

Lemma spsc_release v n (k : unit → P A) q :
  v = u32 (c_head q + n) → 0 <= n → c_head q + n <= c_read q → c_asleep q = false →
  wpc (k tt) Q (c_release n q) → wpc (store CH v ≫= k) Q q.
Proof.
  intros -> Hn Hle Ha Hk. apply cons_move. intros p m bp bc qp qc es Hi _.
  eexists (c_release n q), m, bp, (bc ++ [_]), qp, qc, es. split_and!; [|done..].
  destruct Hi. constructor; try done.
  - rewrite fmap_app. apply Forall_app. split; [done|]. by constructor.
  - destruct i_tail0 as (t & ? & Hc & ?). exists t. split_and!; [done| |].
    + eapply chain_mono; [|exact Hc]. intros m' t' Ht' [? Hp]. split; [done|].
      intros i j Hi Hj. cbn in Hi. apply Hp; [lia|done].
    + intros _ _ Hq. apply i_queue0 in Hq. congruence.
  - destruct i_head0 as (h & ? & Hc). exists h. split; [done|].
    apply (chain_snoc _ _ _ _ (c_head q)); [done|cbn; lia|]. unfold head_is. by rewrite upd_same.
  - cbn. lia.
  - intros Hr. rewrite view_snoc, decide_False by done. by apply i_armed0.
  - cbn. congruence.
Qed.

(** Setting and clearing the flag. *)
Lemma spsc_store_sleeping v (k : unit → P A) q :
  wpc (k tt) Q (c_set_sleep (bool_decide (v = 1)) false q) → wpc (store CS v ≫= k) Q q.
Proof.
  intros Hk. apply cons_move. intros p m bp bc qp qc es Hi Hrun.
  unfold running in Hrun. cbn in Hrun. injection Hrun as ->.
  eexists (c_set_sleep _ false q), m, bp, (bc ++ [_]), qp, [], es. split_and!; [|done..].
  destruct Hi. constructor; try done.
  - rewrite fmap_app. apply Forall_app. split; [done|]. by constructor.
  - destruct i_head0 as (h & ? & Hc). exists h. split; [done|].
    apply (chain_snoc _ _ _ _ (c_head q)); [done..|].
    apply chain_final in Hc as [? _]. unfold head_is. by rewrite upd_other.
  - intros Hr. cbn in Hr. apply bool_decide_eq_true in Hr as ->. by rewrite view_snoc, decide_True.
  - intros Hq. by apply not_elem_of_nil in Hq.
Qed.

(** After the fence an armed consumer is asleep as far as the producer can tell. *)
Lemma spsc_mfence (k : unit → P A) q :
  c_armed q = true → wpc (k tt) Q (c_set_sleep true true q) → wpc (mfence ≫= k) Q q.
Proof.
  intros Ha Hk. apply cons_move. intros p m bp bc qp qc es Hi [Hd _].
  cbn in Hd. injection Hd as ->.
  exists (c_set_sleep true true q), m, bp, [], qp, qc, es. split_and!; [|done..].
  destruct Hi. constructor; try done; intros _; [by apply i_armed0|]. split; [done|by apply i_armed0].
Qed.

Lemma spsc_wake n (k : unit → P A) q : n ≠ 1 → wpc (k tt) Q q → wpc (futex_wake CH n ≫= k) Q q.
Proof.
  intros Hn Hk. cbn. rewrite decide_True by done. apply cons_move. intros p m bp bc qp qc es Hi [_ Hrun].
  unfold running in Hrun. cbn in Hrun. injection Hrun as ->.
  exists q, m, bp, bc, (unqueue CH qp), [], es. split_and!; [| |done].
  - destruct Hi. constructor; try done. intros Hq. apply i_idle0. intros ->. by rewrite unqueue_nil in Hq.
  - unfold wake_by, wake_all, unqueue. cbn. rewrite (bool_decide_false (CH ∈ [])) by apply not_elem_of_nil.
    case_decide; case_bool_decide; done.
Qed.

(** Blocking on the tail. *)
Lemma spsc_futex_wait v tm (k : Z → P A) q :
  v = u32 (c_head q) → c_asleep q = true → c_read q = c_head q →
  (∀ kr b, wpc (k kr) Q (c_set_parked b q)) → wpc (futex_wait PT v tm ≫= k) Q q.
Proof.
  intros -> Ha Hrd Hk. split.
  { intros kr _ _. specialize (Hk kr (c_parked q)). by destruct q. }
  assert (Hset : ∀ g keys b (K : shared → prod + cons → Prop),
    b = false ∨ keys = [] → (∀ s, K s (inr (c_set_parked b q))) →
    ∀ q0 b0, q0 = c_set_parked b0 q → move Inv 1 g (set_queue 1 keys) K (inr q0)).
  { intros g keys b K Hb HK q0 b0 ->. apply cons_move. intros p m bp bc qp qc es Hi _.
    exists (c_set_parked b q), m, bp, bc, qp, keys, es. split_and!; [|done|apply HK].
    destruct Hi. constructor; try done.
    destruct i_tail0 as (t & ? & ? & ?). exists t. split_and!; [done..|].
    intros _ Hpk Hq. cbn in Hpk. destruct Hb as [-> | ->]; [done|].
    by apply not_elem_of_nil in Hq. }
  apply (Hset _ _ false) with (b0 := c_parked q); [by left| |by destruct q]. intros s0. split.
  { apply (Hset _ _ false) with (b0 := false); [by right| |done]. intros. apply Hk. }
  apply cons_move. intros p m bp bc qp qc es Hi Hm. cbn in Hm.
  exists (c_set_parked true q), m, bp, bc, qp, qc, es. split_and!; [|done|].
  - destruct (inv_counters _ _ _ _ _ _ _ _ Hi) as (t0 & h0 & _ & _ & _ & _ & _ & _ & ? & ? & ? & ? & ?).
    destruct Hi. constructor; try done. destruct i_tail0 as (t & ? & Hc & ?).
    exists t. split_and!; [done..|]. intros _ _ _. left. symmetry. cbn in *.
    pose proof (chain_final _ _ _ _ _ Hc) as [_ ?]. pose proof re_range. apply u32_inj; [|lia].
    rewrite <- Hm. by destruct bp as [|[]], Hc as [[] _].
  - split; [done|]. split.
    + apply cons_move. intros p' m' bp' bc' qp' qc' es' Hi' _.
      exists (c_set_parked true q), m', bp', bc', qp', qc', es'. split_and!; [by destruct q|done|apply Hk].
    + intros kr. apply (Hset _ _ true) with (b0 := true); [by right| |done]. intros. apply Hk.
Qed.

Lemma spsc_note (k : unit → P A) q d :
  d = c_words q → length d = DESC_WORDS → wpc (k tt) Q (c_next q) →
  wpc (note (Received c d) ≫= k) Q q.
Proof.
  intros -> Hlen Hk. apply cons_move. intros p m bp bc qp qc es Hi _.
  destruct (inv_counters _ _ _ _ _ _ _ _ Hi) as (t0 & h0 & _ & _ & _ & _ & _ & _ & ? & ? & ? & ? & ?).
  exists (c_next q), m, bp, bc, qp, qc, (es ++ [Received c (c_words q)]). split_and!; [|done..].
  destruct Hi. destruct (lookup_lt_is_Some_2 (c_words q) 0) as [v0 Hv0]; [rewrite Hlen; unfold DESC_WORDS; lia|].
  destruct (i_words0 0%nat v0 Hv0) as [Hr _].
  destruct (lookup_lt_is_Some_2 (p_hist p) (Z.to_nat (c_read q - T0))) as [d Hd];
    [unfold tail_of in *; lia|].
  assert (Hw : c_words q = d).
  { apply list_eq_same_length with DESC_WORDS; [|done|].
    - eapply Forall_app in i_whole0 as [Hwh _]. by eapply Forall_lookup_1 in Hwh.
    - intros i x y _ Hx Hy. destruct (i_words0 i x Hx) as [_ ->].
      unfold nth_sent. rewrite Hd. unfold desc_word. cbn. by rewrite Hy. }
  constructor; try done; cbn.
  - lia.
  - unfold sent in *. rewrite omap_app, i_sent0. cbn. by rewrite app_nil_r.
  - unfold received in *. rewrite omap_app, i_received0. cbn. rewrite decide_True by done.
    replace (Z.to_nat (c_read q + 1 - T0)) with (S (Z.to_nat (c_read q - T0))) by lia.
    by rewrite (take_S_r _ _ d Hd), Hw.
Qed.
End consumer_rules.

#[local] Instance spsc_consumer : ConsumerSide c re Inv Parked 1 inr.
Proof.
  constructor; intros; eauto using spsc_load, spsc_load_head, spsc_load_tail, spsc_load_word,
    spsc_store_total, spsc_release, spsc_store_sleeping, spsc_mfence, spsc_wake, spsc_futex_wait, spsc_note.
Qed.

(** ** The operations *)

(** The handle of the producer between two operations: its cached head is one that
    the consumer has reached, and at most twice the ring behind the tail (a batch
    is checked against the head itself). *)
Definition prod_handle (ch : channel) (p : prod) : Prop :=
  chan ch = c ∧ ring_entries ch = re ∧ ring_mask ch = re - 1 ∧
  p_ann p = [] ∧ p_owe p = false ∧ (p_known p <= tail_of p ∧ tail_of p <= p_known p + re) ∧
  ∃ h, h <= p_known p ∧ tail_of p <= h + 2 * re ∧ cached_cons_head ch = u32 h.

(** Room for one descriptor at the tail, in slot [s], by the cached head. *)
Definition room (ch : channel) (s : Z) (p : prod) : Prop :=
  s = tail_of p mod re ∧
  ∃ h, h <= p_known p ∧ tail_of p < h + re ∧ cached_cons_head ch = u32 h.

Lemma space_of T h :
  T - re <= h <= T → re -32 (u32 T -32 u32 h) = re - (T - h).
Proof.
  intros H. pose proof re_range. rewrite (u32_sub_l T), (u32_sub_r T h).
  rewrite (u32_small (T - h)) by (unfold is_u32; lia). apply u32_small. unfold is_u32. lia.
Qed.
Lemma space_cases T h :
  h <= T <= h + 2 * re →
  (re -32 (u32 T -32 u32 h) = re - (T - h) ∧ T - h <= re) ∨
  (re < re -32 (u32 T -32 u32 h) ∧ re < T - h).
Proof.
  intros H. pose proof re_range. destruct (decide (T - h <= re)); [left; split; [apply space_of|]; lia|].
  right. split; [|lia]. rewrite (u32_sub_l T), (u32_sub_r T h), (u32_small (T - h)) by (unfold is_u32; lia).
  unfold u32. rewrite <- (Z.mod_add _ 1), Z.mod_small by lia. lia.
Qed.
(** The result of reserving: the handle stays valid, and a slot is the one at the
    tail with room in it. *)
Definition reserved (r : option Z * channel) (l : prod + cons) : Prop :=
  ∃ p, l = inl p ∧ prod_handle r.2 p ∧ ∀ s, r.1 = Some s → room r.2 s p.

Lemma prod_handle_seen ch p h :
  prod_handle ch p → p_known p <= h <= tail_of p →
  prod_handle (set_cached_cons_head (u32 h) ch) (p_set_known h p).
Proof.
  intros (? & ? & ? & ? & ? & ? & h' & ? & ? & ?) Hh. unfold prod_handle. cbn.
  split_and!; try done; [unfold tail_of in *; cbn in *; lia..|].
  exists h. unfold tail_of in *. cbn in *. split_and!; [lia|lia|done].
Qed.

Lemma reserved_none ch p : prod_handle ch p → reserved (None, ch) (inl p).
Proof. intros Hp. by exists p. Qed.
Lemma reserved_slot ch p h :
  prod_handle ch p → h <= p_known p → tail_of p < h + re → cached_cons_head ch = u32 h →
  reserved (Some (flipc2_ring_idx ch (u32 (tail_of p))), ch) (inl p).
Proof.
  intros Hp Hr ? ?. exists p. split_and!; [done..|]. intros s [= <-]. split; [|by exists h].
  apply idx_of. apply Hp.
Qed.

(** Reading the head again. *)
Lemma wpp_refresh {A} (Q : A → prod + cons → Prop) ch p (k : Z → P A) :
  prod_handle ch p →
  (∀ h, p_known p <= h <= tail_of p → tail_of p - re <= h →
     prod_handle (set_cached_cons_head (u32 h) ch) (p_set_known h p) →
     wpp (k (u32 h)) Q (p_set_known h p)) →
  wpp (load CH ≫= k) Q p.
Proof.
  intros Hp Hk. apply wpp_load_head. intros h Hh. apply Hk; [done| |by apply prod_handle_seen].
  destruct Hp as (_ & _ & _ & _ & _ & ? & _). lia.
Qed.

Lemma wpp_reserve ch p :
  prod_handle ch p → wpp (flipc2_produce_reserve ch) reserved p.
Proof.
  intros Hp. pose proof Hp as (Hc & Hre & Hm & _ & _ & Hkt & h & Hh & Ht & Hcache).
  pose proof re_range. unfold flipc2_produce_reserve. rewrite Hc. apply wpp_load_tail.
  rewrite Hre, Hcache. cbv zeta. case_decide as Hsp.
  - apply (wpp_refresh _ ch); [done|]. intros h1 Hh1 Hh1' Hp1. rewrite space_of by lia.
    case_decide; [by apply reserved_none|]. case_decide; [lia|].
    apply (reserved_slot (set_cached_cons_head (u32 h1) ch) (p_set_known h1 p) h1); [done..| |done].
    unfold tail_of in *. cbn. lia.
  - apply (reserved_slot _ _ h); [done..| |done]. destruct (space_cases (tail_of p) h); lia.
Qed.

Lemma wpp_spin n ch p :
  prod_handle ch p →
  wpp (produce_spin n (u32 (tail_of p)) ch)
    (λ r l, ∃ p', l = inl p' ∧ tail_of p' = tail_of p ∧ prod_handle r.2 p' ∧
       match r.1 with None => True | Some r1 => reserved (r1, r.2) l end) p.
Proof.
  revert ch p. induction n as [|n IH]; intros ch p Hp; [by exists p|].
  pose proof Hp as (Hc & Hre & Hm & _). pose proof re_range.
  cbn [produce_spin]. rewrite Hc. apply (wpp_refresh _ ch); [done|]. intros h1 Hh1 Hh1' Hp1.
  cbn [set_cached_cons_head ring_entries]. rewrite Hre, space_of by lia. case_decide.
  - exists (p_set_known h1 p). split_and!; [done..|].
    apply (reserved_slot (set_cached_cons_head (u32 h1) ch) (p_set_known h1 p) h1); [done..| |done].
    unfold tail_of in *. cbn. lia.
  - case_decide; [lia|]. apply (IH _ (p_set_known h1 p)). done.
Qed.

Lemma wpp_sleep ch p :
  prod_handle ch p → wpp (produce_sleep (u32 (tail_of p)) ch) reserved p.
Proof.
  intros Hp. pose proof Hp as (Hc & Hre & Hm & _). pose proof re_range.
  unfold produce_sleep. rewrite Hc. apply wpp_store; [by auto|].
  apply (wpp_refresh _ ch); [done|]. intros h1 Hh1 Hh1' Hp1. set (p1 := p_set_known h1 p) in *.
  cbn [set_cached_cons_head chan cached_cons_head]. rewrite Hc, Hre, space_of by lia.
  assert (Ht1 : tail_of p1 = tail_of p) by done.
  case_decide.
  { apply wpp_store; [by auto|]. rewrite <- Ht1. apply (reserved_slot _ _ h1); [done..| |done].
    unfold p1, tail_of in *; cbn in *; lia. }
  case_decide; [lia|].
  apply wpp_futex_wait; [apply Hp1|]. intros _. apply wpp_store; [by auto|].
  apply (wpp_refresh _ (set_cached_cons_head (u32 h1) ch)); [done|]. intros h2 Hh2 Hh2' Hp2.
  rewrite <- Ht1, space_of by lia. case_decide; [by apply reserved_none|].
  change (tail_of p1) with (tail_of (p_set_known h2 p1)). apply (reserved_slot _ _ h2); [done..| |done].
  unfold p1, tail_of in *; cbn in *; lia.
Qed.

Lemma wpp_produce_wait ch spin p :
  prod_handle ch p → wpp (flipc2_produce_wait ch spin) reserved p.
Proof.
  intros Hp. pose proof Hp as (Hc & Hre & Hm & _ & _ & Hkt & h & Hh & Ht & Hcache).
  pose proof re_range. unfold flipc2_produce_wait. rewrite Hc. apply wpp_load_tail.
  rewrite Hre, Hcache. cbv zeta.
  (* the space that is left, with the handle that has seen it *)
  assert (Hrest : ∀ p1 ch1 h1, prod_handle ch1 p1 → tail_of p1 = tail_of p →
    h1 <= p_known p1 → tail_of p - re <= h1 → cached_cons_head ch1 = u32 h1 →
    wpp (if decide (0 < re - (tail_of p - h1) ∧ re - (tail_of p - h1) <= re)
         then mret (Some (flipc2_ring_idx ch1 (u32 (tail_of p))), ch1)
         else if decide (re < re - (tail_of p - h1)) then mret (None, ch1)
         else '(r, ch) ← produce_spin spin (u32 (tail_of p)) ch1;
              match r with Some r => mret (r, ch) | None => produce_sleep (u32 (tail_of p)) ch end)
      reserved p1).
  { intros p1 ch1 h1 Hp1 Ht1 Hh1 Hh1' Hc1. rewrite <- Ht1 in *. case_decide.
    - apply (reserved_slot _ _ h1); [done..| |done]. lia.
    - case_decide; [by apply reserved_none|]. apply wp_bind. eapply wp_mono; [|by apply wpp_spin].
      intros [[r1|] ch2] l (p2 & -> & Ht2 & Hp2 & Hr); [exact Hr|].
      rewrite <- Ht2. by apply wpp_sleep. }
  case_decide.
  - apply wp_bind. apply (wpp_refresh _ ch); [done|]. intros h1 Hh1 Hh1' Hp1.
    rewrite space_of by lia. apply (Hrest (p_set_known h1 p) _ h1); [done..|cbn; lia|lia|done].
  - apply wp_bind. destruct (space_cases (tail_of p) h) as [[-> ?]|]; [lia| |lia].
    apply (Hrest p ch h); [done|done|lia|lia|done].
Qed.

(** The words of one descriptor. *)
Definition p_filled (d : desc) (n : Z) (js : list nat) (p : prod) : prod :=
  foldl (λ p j, p_write n j (desc_word d j) p) p js.

Lemma p_filled_same d n js p :
  p_hist (p_filled d n js p) = p_hist p ∧ p_known (p_filled d n js p) = p_known p ∧
  p_ann (p_filled d n js p) = p_ann p ∧ p_owe (p_filled d n js p) = p_owe p.
Proof. revert p. induction js as [|j js IH]; intros p; [done|]. apply (IH (p_write n j _ p)). Qed.

Lemma p_filled_pend d n js p i j :
  p_pend (p_filled d n js p) !! (i, j) =
    if decide (i = n ∧ j ∈ js) then Some (desc_word d j) else p_pend p !! (i, j).
Proof.
  revert p. induction js as [|j0 js IH]; intros p.
  - rewrite decide_False; [done|]. by intros [_ ?%not_elem_of_nil].
  - change (p_filled d n (j0 :: js) p) with (p_filled d n js (p_write n j0 (desc_word d j0) p)).
    rewrite IH. destruct (decide (i = n ∧ j ∈ js)) as [[-> Hj]|Hn].
    + rewrite decide_True; [done|]. split; [done|]. by right.
    + cbn. destruct (decide (i = n ∧ j = j0)) as [[-> ->]|Hn'].
      * rewrite lookup_insert_eq, decide_True; [done|]. split; [done|]. by left.
      * rewrite lookup_insert_ne by (intros [= -> ->]; by apply Hn').
        rewrite decide_False; [done|]. intros [-> Hj]. apply elem_of_cons in Hj as [-> |Hj]; naive_solver.
Qed.

Lemma wpp_write_desc {A} (Q : A → prod + cons → Prop) ch s n d (k : unit → P A) p :
  chan ch = c → s = n mod re → tail_of p <= n < p_known p + re →
  wpp (k tt) Q (p_filled d n (seq 0 DESC_WORDS) p) → wpp (write_desc ch s d ≫= k) Q p.
Proof.
  intros Hc Hs Hn Hk. apply wp_bind. unfold write_desc. rewrite Hc.
  generalize dependent (seq 0 DESC_WORDS). intros js. revert p Hn.
  induction js as [|j js IH]; intros p Hn Hk; [exact Hk|]. cbn [foldr].
  eapply wpp_store_word; [done..|]. by apply IH.
Qed.

(** Every word of the announced descriptors is written. *)
Definition filled (p : prod) : Prop :=
  ∀ i d j, p_ann p !! i = Some d → (j < DESC_WORDS)%nat →
    p_pend p !! (tail_of p + Z.of_nat i, j) = Some (desc_word d j).

Lemma filled_next d p :
  let p1 := p_filled d (tail_of p + Z.of_nat (length (p_ann p))) (seq 0 DESC_WORDS) (p_announce d p) in
  filled p →
  filled p1 ∧ p_hist p1 = p_hist p ∧ tail_of p1 = tail_of p ∧ p_known p1 = p_known p ∧
  p_ann p1 = p_ann p ++ [d].
Proof.
  intros p1 Hf. subst p1. set (n := tail_of p + Z.of_nat (length (p_ann p))).
  destruct (p_filled_same d n (seq 0 DESC_WORDS) (p_announce d p)) as (Hh1 & Hk1 & Ha1 & _).
  pose proof (p_filled_pend d n (seq 0 DESC_WORDS) (p_announce d p)) as Hpend.
  remember (p_filled d n (seq 0 DESC_WORDS) (p_announce d p)) as p1 eqn:Ep1. clear Ep1.
  cbn in Hh1, Hk1, Ha1.
  assert (Ht1 : tail_of p1 = tail_of p) by (unfold tail_of; by rewrite Hh1).
  split_and!; try done. intros i d' j Hi Hj. rewrite Ht1, Hpend, Ha1 in *.
  apply lookup_app_Some in Hi as [Hi|[Hle Hi]].
  - rewrite decide_False; [by apply Hf|]. apply lookup_lt_Some in Hi. unfold n. lia.
  - apply list_lookup_singleton_Some in Hi as [Hi <-]. rewrite decide_True; [done|].
    split; [unfold n; lia|]. apply elem_of_seq. lia.
Qed.

(** Committing what has been announced and written. *)
Definition committed (p : prod) (l : prod + cons) : Prop :=
  ∃ p', l = inl p' ∧ p_hist p' = p_hist p ++ p_ann p ∧ p_ann p' = [] ∧ p_owe p' = false ∧
    p_known p <= p_known p' <= tail_of p'.

Lemma wpp_doorbell ch p :
  chan ch = c → p_fenced p = true → p_ann p = [] → p_known p <= tail_of p →
  wpp (doorbell ch) (λ _, committed p) p.
Proof.
  intros Hc Hf Ha Hk. unfold doorbell. rewrite Hc.
  assert (Hend : ∀ p', p_hist p' = p_hist p → p_ann p' = [] → p_owe p' = false →
    p_known p <= p_known p' <= tail_of p' → committed p (inl p')).
  { intros p' Hh ? ? ?. exists p'. by rewrite Ha, app_nil_r. }
  apply wpp_load_sleeping; [|done|].
  { intros _. rewrite decide_True by done. by apply Hend. }
  intros v Hv. rewrite decide_False by done. apply wpp_load_thresh; [done|].
  set (p1 := if decide (th <= 1) then p else p_set_owe false p).
  assert (Hp1 : p_hist p1 = p_hist p ∧ p_ann p1 = [] ∧ p_known p1 = p_known p ∧ p_fenced p1 = true ∧
    (1 < th → p_owe p1 = false)).
  { unfold p1. case_decide; cbn; (split_and!; [done..|]); [lia|done]. }
  destruct Hp1 as (Hh1 & Ha1 & Hk1 & Hf1 & Ho1).
  assert (Ht1 : tail_of p1 = tail_of p) by (unfold tail_of; by rewrite Hh1).
  apply wpp_load_tail, wpp_load_head. intros h Hh. case_decide as Hth.
  - apply wpp_wake; [|done]. apply wpp_load. intros w.
    change (store (c, WAKEUPS) (w +64 1)) with (store (ev := event) (c, WAKEUPS) (w +64 1) ≫= Ret).
    apply wpp_store; [by auto|]. apply Hend; cbn; try done. unfold tail_of in *. cbn. lia.
  - apply Hend; cbn; [done|done|apply Ho1; lia|]. unfold tail_of in *. cbn. lia.
Qed.

Lemma wpp_commit_n ch n p :
  chan ch = c → n = Z.of_nat (length (p_ann p)) → p_known p <= tail_of p →
  filled p → wpp (flipc2_produce_commit_n ch n) (λ _, committed p) p.
Proof.
  intros Hc -> Hk Hw. unfold flipc2_produce_commit_n. rewrite Hc. apply wpp_load_tail.
  apply wpp_publish; [by rewrite u32_add_l|done|]. apply wpp_load. intros total.
  apply wpp_store; [by auto|]. apply wpp_mfence.
  eapply wp_mono; [|apply wpp_doorbell; try done].
  - intros _ l (p' & -> & Hh & ? & ? & ?). exists p'. cbn in *. rewrite app_nil_r in Hh. done.
  - unfold tail_of in *. cbn in *. rewrite length_app. lia.
Qed.

Lemma commit_is_commit_n ch : flipc2_produce_commit ch = flipc2_produce_commit_n ch 1.
Proof. done. Qed.

(** The handle after a commit. *)
Definition producing (ch : channel) (l : prod + cons) : Prop := ∃ p, l = inl p ∧ prod_handle ch p.

Lemma committed_handle ch p l :
  prod_handle ch p → ∀ p1, p_hist p1 = p_hist p → p_known p <= p_known p1 →
  (∃ h, h <= p_known p ∧ tail_of p < h + re ∧ cached_cons_head ch = u32 h) →
  tail_of p + Z.of_nat (length (p_ann p1)) <= p_known p1 + re → p_known p1 <= tail_of p →
  committed p1 l → producing ch l.
Proof.
  intros (? & ? & ? & _) p1 Hh Hk (h & ? & ? & ?) Hs Hle (p' & -> & Hh' & Ha' & Ho' & ? & ?).
  exists p'. split; [done|]. split_and!; try done.
  - unfold tail_of in *. rewrite Hh', Hh, length_app in *. lia.
  - exists h. unfold tail_of in *. rewrite Hh', Hh, length_app in *. split_and!; [lia|lia|done].
Qed.

(** Announcing and writing descriptors one after the other. *)
Lemma wpp_fill {A} (Q : A → prod + cons → Prop) ch ptr ds (k : unit → P A) p :
  chan ch = c → ring_mask ch = re - 1 → ptr = u32 (tail_of p + Z.of_nat (length (p_ann p))) →
  tail_of p + Z.of_nat (length (p_ann p)) + Z.of_nat (length ds) <= p_known p + re →
  Forall (λ d, length d = DESC_WORDS) ds → filled p →
  (∀ p', p_hist p' = p_hist p → p_known p' = p_known p → p_ann p' = p_ann p ++ ds → filled p' →
     wpp (k tt) Q p') →
  wpp (fill ch ptr ds ≫= k) Q p.
Proof.
  intros Hc Hm Hptr Hsp Hds Hf Hk. apply wp_bind.
  revert p ptr Hptr Hsp Hf Hk. induction Hds as [|d ds Hd Hds IH]; intros p ptr Hptr Hsp Hf Hk.
  { apply (Hk p); rewrite ?app_nil_r; done. }
  cbn [fill]. cbn [length] in Hsp. rewrite Hc, Hptr, (idx_of ch) by done.
  destruct (filled_next d p Hf) as (Hf1 & Hh1 & Ht1 & Hk1 & Ha1).
  apply wpp_note; [done|lia|]. apply (wpp_write_desc _ ch _ (tail_of p + Z.of_nat (length (p_ann p))));
    [done|done|unfold tail_of in *; cbn; lia|].
  apply IH; [|rewrite Ht1, Hk1, Ha1, length_app; cbn; lia|done|].
  - rewrite Ht1, Ha1, length_app, u32_add_l. cbn. f_equal. lia.
  - intros p' Hh' Hk' Ha' Hf'. apply Hk; [congruence|congruence| |done].
    by rewrite Ha', Ha1, <- app_assoc.
Qed.

(** The committed batch leaves a valid handle. *)
Lemma wpp_commit_batch ch n p p1 :
  prod_handle ch p → p_hist p1 = p_hist p → p_known p <= p_known p1 <= tail_of p →
  (∃ h, h <= p_known p ∧ tail_of p < h + re ∧ cached_cons_head ch = u32 h) →
  n = Z.of_nat (length (p_ann p1)) → tail_of p + n <= p_known p1 + re → filled p1 →
  wpp (flipc2_produce_commit_n ch n;; mret ch) producing p1.
Proof.
  intros Hp Hh Hk Hc -> Hsp Hf. assert (Ht1 : tail_of p1 = tail_of p) by (unfold tail_of; by rewrite Hh).
  apply wp_bind. eapply wp_mono; [|apply wpp_commit_n; [apply Hp|done|lia|done]].
  intros u l Hl. by apply (committed_handle ch p l Hp p1); [|lia| | |lia|].
Qed.

Lemma no_ann_filled p : p_ann p = [] → filled p.
Proof. intros Ha i d j Hi. by rewrite Ha in Hi. Qed.

Lemma wpp_send_at ch slot d p :
  prod_handle ch p → (∀ s, slot = Some s → room ch s p) → length d = DESC_WORDS →
  wpp (send_at ch slot d) producing p.
Proof.
  intros Hp Hr Hd. pose proof Hp as (Hc & _ & _ & Ha & _ & Hk & _). destruct slot as [s|]; [|by exists p].
  destruct (Hr s eq_refl) as (Hs & h & ? & ? & ?). cbn [send_at]. rewrite Hc.
  destruct (filled_next d p (no_ann_filled p Ha)) as (Hf1 & Hh1 & Ht1 & Hk1 & Ha1).
  rewrite Ha in Hf1, Hh1, Ht1, Hk1, Ha1. cbn [length Z.of_nat app] in Hf1, Hh1, Ht1, Hk1, Ha1.
  rewrite Z.add_0_r in Hf1, Hh1, Ht1, Hk1, Ha1.
  apply wpp_note; [done|rewrite Ha; cbn; lia|].
  apply (wpp_write_desc _ ch s (tail_of p)); [done|done|unfold tail_of in *; cbn; lia|].
  rewrite commit_is_commit_n. apply (wpp_commit_batch ch _ p); try done.
  - rewrite Hk1. lia.
  - by exists h.
  - by rewrite Ha1.
  - rewrite Hk1. lia.
Qed.

Lemma wpp_send ch r p : prod_handle ch p → req_ok r → wpp (send ch r) producing p.
Proof.
  intros Hp Hr. destruct r as [d|spin d|ds]; cbn [send req_ok] in *; apply wp_bind.
  - eapply wp_mono; [|by apply wpp_reserve]. intros [s ch'] l (p' & -> & ? & ?). by apply wpp_send_at.
  - eapply wp_mono; [|by apply wpp_produce_wait]. intros [s ch'] l (p' & -> & ? & ?). by apply wpp_send_at.
  - eapply wp_mono; [|by apply wpp_reserve]. clear p Hp. intros [[s|] ch'] l (p & -> & Hp & Hroom); [|by exists p].
    cbn in Hp, Hroom. destruct (Hroom s eq_refl) as (_ & Hc). pose proof Hp as (Hch & Hre & Hm & Ha & _ & Hk & _).
    rewrite Hch. apply wpp_load_tail, wpp_load_head. intros h Hh.
    unfold flipc2_ring_free. rewrite Hre, space_of by lia. case_decide as Hn.
    + assert (Ha1 : p_ann (p_set_known h p) = []) by done.
      apply wpp_fill; try done; rewrite ?Ha1; [by rewrite Z.add_0_r|unfold tail_of in *; cbn; lia|
        by apply no_ann_filled|].
      intros p' Hh' Hk' Ha' Hf'. cbn in Hh', Hk', Ha'.
      apply (wpp_commit_batch ch' _ p); try done; [by rewrite Hk'|by rewrite Ha'|]. lia.
    + exists (p_set_known h p). split; [done|]. pose proof Hp as (_ & _ & _ & _ & Ho & _).
      destruct Hc as (h0 & ? & ? & ?). split_and!; try done; [unfold tail_of in *; cbn; lia..|].
      exists h0. unfold tail_of in *. cbn. split_and!; [lia|lia|done].
Qed.

Lemma wpp_producer ch rs p : prod_handle ch p → Forall req_ok rs → wpp (producer ch rs) producing p.
Proof.
  intros Hp Hrs. revert ch p Hp. induction Hrs as [|r rs Hr Hrs IH]; intros ch p Hp; [by exists p|].
  cbn [producer]. apply wp_bind. eapply wp_mono; [|by apply wpp_send].
  intros ch' l (p' & -> & Hp'). by apply IH.
Qed.

(** ** Runs *)

(** A channel whose two sides are level at position [T0] ([0] when it has just been
    created), with handles that know it. *)
Definition level (m : loc → Z) : Prop :=
  m PT = u32 T0 ∧ m CH = u32 T0 ∧ m TH = th.
Definition handle_at (ch : channel) : Prop :=
  chan ch = c ∧ ring_entries ch = re ∧ ring_mask ch = re - 1 ∧
  cached_cons_head ch = u32 T0 ∧ cached_prod_tail ch = u32 T0.
Definition start (m : loc → Z) (chp chc : channel) (ps : list preq) (cs : list creq) : config :=
  Config m [Thread [] (Run (producer chp ps)); Thread [] (Run (consumer chc cs))] [].

Lemma start_sound m chp chc ps cs :
  level m → handle_at chp → handle_at chc → Forall req_ok ps →
  ∃ ls, sound Inv Parked (λ i, match i with O => producing | _ => consuming c re inr end) ls
          (start m chp chc ps cs).
Proof.
  intros (HPT & HCH & HTH) (? & ? & ? & ? & ?) (? & ? & ? & ? & ?) Hps. pose proof re_range.
  set (p := Prod [] T0 ∅ [] false true). set (q := Cons T0 T0 T0 [] false false false).
  assert (tail_of p = T0) by (unfold tail_of; cbn; lia).
  exists [inl p; inr q]. split_and!; [|done|].
  - exists p, q, m, [], [], [], [], []. split_and!; [done..|].
    constructor; try done; cbn; try lia; try (intros Hin; by apply not_elem_of_nil in Hin).
    + exists T0. split_and!; [lia| |lia|by intros _ ?]. split; [done|]. intros n j Hn. lia.
    + exists T0. split; [lia|]. by split.
    + by rewrite take_nil.
  - intros [|[|i]] th0 l Hi Hl; cbn in Hi, Hl; simplify_eq; cbn [st wp_st].
    + apply wpp_producer; [|done]. split_and!; try done; [cbn; lia..|].
      exists T0. split_and!; [cbn; lia|lia|done].
    + apply (wpc_consumer c re Inv Parked 1 inr). split_and!; try done. exists T0. cbn. split_and!; [lia..|done].
Qed.

Lemma reachable_sound m chp chc ps cs s :
  level m → handle_at chp → handle_at chc → Forall req_ok ps →
  rtc step (start m chp chc ps cs) s →
  ∃ ls, sound Inv Parked (λ i, match i with O => producing | _ => consuming c re inr end) ls s.
Proof.
  intros H1 H2 H3 H4 Hr. destruct (start_sound m chp chc ps cs H1 H2 H3 H4) as [ls Hs].
  eapply sound_reachable; [apply Inv_flush|exact Hs|exact Hr].
Qed.

End spsc.

(** A thread that does nothing more by itself: it has finished, or it blocks. *)
Definition idle {A} (t : @thread loc event A) : bool :=
  match st t with Run (Ret _) | Wait _ [] _ _ _ => true | _ => false end.
(** A thread that blocks on a word, and that no one has woken. *)
Definition blocked_on {A} (x : loc) (t : @thread loc event A) : bool :=
  match st t with Wait keys [] true _ _ => bool_decide (x ∈ keys) | _ => false end.


(** C2. The ring is a first-in first-out queue.  Start from a channel whose two
    sides are level at any position of the 32-bit counters, and let a producer and
    a consumer make any sequence of requests.  In every configuration that x86
    memory with store buffers can reach, however the two are interleaved and
    whatever the traps answer: the descriptors received are a prefix of those sent,
    whole and in order, none lost and none twice; and no more than [ring_entries]
    are under way.  This includes runs in which the counters wrap. *)
Theorem ring_fifo c re th T0 m chp chc ps cs s :
  (∃ e, 0 <= e <= 14 ∧ re = 2 ^ e) →
  level c th T0 m → handle_at c re T0 chp → handle_at c re T0 chc → Forall req_ok ps →
  rtc step (start m chp chc ps cs) s →
  received c (events s) `prefix_of` sent c (events s) ∧
  Z.of_nat (length (sent c (events s))) <= Z.of_nat (length (received c (events s))) + re.
Proof.
  intros Hre Hm Hp Hc Hps Hr.
  destruct (reachable_sound c re th T0 (Hsize := Hre) m chp chc ps cs s Hm Hp Hc Hps Hr) as (ls & Hi & _).
  destruct Hi as (p & q & m' & bp & bc & qp & qc & es & -> & Hs & Hi).
  destruct (inv_counters _ _ _ _ _ _ _ _ _ _ _ _ Hi) as (t & h & _ & _ & _ & _ & _ & _ & ? & ? & ? & ? & ?).
  injection Hs as _ _ _ ->. destruct Hi. rewrite i_sent0, i_received0. split.
  - exists (drop (Z.to_nat (c_read q - T0)) (p_hist p) ++ p_ann p). by rewrite app_assoc, take_drop.
  - rewrite length_app, length_take. unfold tail_of in *. lia.
Qed.

(** C6. No wake-up of a consumer is lost.  In every reachable configuration, if the
    consumer blocks in [flipc2_consume_wait] (or its timed variant) and no one has
    woken it, and the producer has nothing left to do (it has returned from its last
    call, or blocks itself), then the ring is empty.  The threshold of the doorbell
    is the default; a higher one lets the producer skip wake-ups. *)
Theorem consumer_wakeup_not_lost c re th T0 m chp chc ps cs s :
  (∃ e, 0 <= e <= 14 ∧ re = 2 ^ e) → th <= 1 →
  level c th T0 m → handle_at c re T0 chp → handle_at c re T0 chc → Forall req_ok ps →
  rtc step (start m chp chc ps cs) s →
  idle <$> threads s !! 0%nat = Some true →
  blocked_on (c, PROD_TAIL) <$> threads s !! 1%nat = Some true →
  flipc2_ring_count (memory s (c, PROD_TAIL)) (memory s (c, CONS_HEAD)) = 0.
Proof.
  intros Hre Hth Hm Hp Hc Hps Hr (tp & Htp & Hidle)%fmap_Some (tc & Htc & Hst)%fmap_Some.
  destruct (reachable_sound c re th T0 (Hsize := Hre) m chp chc ps cs s Hm Hp Hc Hps Hr) as (ls & Hi & Hlen & Hts).
  destruct Hi as (p & q & m' & bp & bc & qp & qc & es & -> & Hs & Hi).
  assert (Ht : threads s = [tp; tc]).
  { destruct (threads s) as [|? [|? [|]]]; cbn in *; congruence || lia. }
  unfold shared_of in Hs. rewrite Ht in Hs, Hts. cbn in Hs. injection Hs as Hm' _ Hbc _ Hqc _.
  specialize (Hts 0%nat tp (inl p) eq_refl eq_refl) as Hp0.
  specialize (Hts 1%nat tc (inr q) eq_refl eq_refl) as Hc0.
  unfold blocked_on in Hst. unfold queue_of in Hqc.
  destruct (st tc) as [|keys [|] [] timed k]; try done. cbn in Hc0. destruct Hc0 as (_ & Hpark & _).
  symmetry in Hst. apply bool_decide_eq_true in Hst as Hq. rewrite Hqc in Hq.
  assert (Howe : p_owe p = false).
  { unfold idle in Hidle. destruct (st tp) as [[]|? [] ? ? ?]; try done; cbn in Hp0.
    - destruct Hp0 as (p' & [= <-] & Hp'). apply Hp'.
    - by destruct Hp0 as (_ & ? & _). }
  destruct Hi. rewrite Hm'.
  destruct i_tail0 as (t & _ & Htl & Ho). destruct (Ho Hth Hpark Hq) as [-> |?]; [|congruence].
  destruct (i_asleep0 (i_queue0 Hq)) as [-> _]. destruct i_head0 as (h & _ & Hh & ->).
  assert (HPT : m' (c, PROD_TAIL) = u32 (c_head q)) by (by destruct bp as [|[]], Htl as [[]]).
  unfold flipc2_ring_count. rewrite HPT, Hh. by rewrite Z.sub_diag.
Qed.
