(* ===== verification/FlipcRuns.v ===== *)
(** * FLIPC channels: concrete runs

    Schedules that lead the machine of Tso.v to configurations of interest: a run
    of the ring across the wrap of its counters, and the two ways in which a thread
    is left asleep. *)

From S2P Require Import Prelude Mach Tso FlipcRing FlipcConsumer FlipcSpsc.

(** A ring of sixteen, level at [T0], with the default threshold. *)
Definition ring16 (T0 : Z) : loc → Z := λ x,
  match x.2 with PROD_TAIL | CONS_HEAD => u32 T0 | WAKEUP_THRESH => 1 | _ => 0 end.
Definition chan16 (T0 : Z) : channel := Channel 0 16 15 (u32 T0) (u32 T0) 0.
Definition a_desc (n : Z) : desc := n :: replicate 15 0.
Definition start16 (T0 : Z) := start (ring16 T0) (chan16 T0) (chan16 T0).

(** ** A run across the wrap *)

Definition wrap_run : config :=
  drive 500 1 (drive 500 0 (drive 20 1 (drive 60 0
    (start16 4294967294 [PutTry (a_desc 1); PutBatch [a_desc 2; a_desc 3]; PutWait 3 (a_desc 4)]
       [GetTry; GetWait 2; GetAll])))).

Lemma ring16_ok T0 : level 0 1 T0 (ring16 T0) ∧ handle_at 0 16 T0 (chan16 T0).
Proof. done. Qed.
Lemma sixteen : ∃ e, 0 <= e <= 14 ∧ 16 = 2 ^ e.
Proof. by exists 4. Qed.

Lemma wrap_run_steps : rtc step
  (start16 4294967294 [PutTry (a_desc 1); PutBatch [a_desc 2; a_desc 3]; PutWait 3 (a_desc 4)]
     [GetTry; GetWait 2; GetAll]) wrap_run.
Proof. unfold wrap_run. do 3 (etransitivity; [|apply drive_steps]). apply drive_steps. Qed.

Lemma ring_fifo_witness :
  received 0 (events wrap_run) = a_desc <$> [1; 2; 3; 4] ∧ memory wrap_run (0%nat, PROD_TAIL) = 2 ∧
  received 0 (events wrap_run) `prefix_of` sent 0 (events wrap_run).
Proof.
  split_and!; [by vm_compute..|].
  refine (proj1 (ring_fifo 0 16 1 4294967294 _ _ _ _ _ _ sixteen (proj1 (ring16_ok _))
    (proj2 (ring16_ok _)) (proj2 (ring16_ok _)) _ wrap_run_steps)).
  repeat constructor.
Defined.

(** The consumer goes to sleep on an empty ring, and the producer is done. *)
Definition asleep {A} (t : @thread loc event A) : bool :=
  match st t with Wait _ [] true false _ => true | _ => false end.
Definition finished {A} (t : @thread loc event A) : bool :=
  match st t with Run (Ret _) => true | _ => false end.

Definition sleep_run : config :=
  drive 200 1 (drive 100 0 (start16 0 [PutTry (a_desc 1)] [GetTry; GetWait 1])).

Lemma consumer_wakeup_not_lost_witness :
  blocked_on (0%nat, PROD_TAIL) <$> threads sleep_run !! 1%nat = Some true ∧
  flipc2_ring_count (memory sleep_run (0%nat, PROD_TAIL)) (memory sleep_run (0%nat, CONS_HEAD)) = 0.
Proof.
  split; [by vm_compute|].
  assert (Hr : rtc step (start16 0 [PutTry (a_desc 1)] [GetTry; GetWait 1]) sleep_run).
  { unfold sleep_run. etransitivity; [|apply drive_steps]. apply drive_steps. }
  refine (consumer_wakeup_not_lost 0 16 1 0 _ _ _ _ _ _ sixteen ltac:(lia)
    (proj1 (ring16_ok _)) (proj2 (ring16_ok _)) (proj2 (ring16_ok _)) _ Hr _ _).
  - repeat constructor.
  - by vm_compute.
  - by vm_compute.
Defined.

(** ** A lost wake-up of the producer *)

(** A producer that fills the ring and waits for room for one more; a consumer that
    takes the sixteen descriptors and waits for the next. *)
Definition full_start : config :=
  start16 0 (((λ i, PutTry (a_desc (Z.of_nat i))) <$> seq 0 16) ++ [PutWait 0 (a_desc 16)])
    (replicate 16 GetTry ++ [GetWait 0]).

(** The producer has filled the ring, and its store of [prod_sleeping] is still in
    its buffer when it looks at [cons_head]; the consumer releases everything, its
    stores of [cons_head] in its buffer, and sees the flag clear each time; the
    producer blocks, since memory still has the old head; the consumer's stores
    reach memory, and it blocks. *)
Definition full_run : config :=
  drive 500 1 (drive 3 0 (hold 2000 1 (hold 5 0 (drive 675 0 full_start)))).

(** C36. The wake-up of a producer can be lost.  The handshake between
    [flipc2_produce_wait] and [flipc2_consume_release] orders the store of one flag
    and the load of the other with a compiler barrier only.  There is a run of the
    machine after which both sides block without a timeout on an empty ring, every
    store having reached memory: the producer waits for a slot to be released
    although all sixteen are free, and nothing but an outside event ends it. *)
Theorem producer_wakeup_lost :
  ∃ s, rtc step full_start s ∧
    (asleep <$> threads s) = [true; true] ∧ (buf <$> threads s) = [[]; []] ∧
    perform (Exec 0) s = None ∧ perform (Exec 1) s = None ∧
    flipc2_ring_free (chan16 0) (memory s (0%nat, PROD_TAIL)) (memory s (0%nat, CONS_HEAD)) = 16.
Proof.
  exists full_run. split; [|by vm_compute].
  unfold full_run. do 2 (etransitivity; [|apply drive_steps]).
  do 2 (etransitivity; [|apply hold_steps]). apply drive_steps.
Qed.
