(* ===== verification/FlipcMpsc.v ===== *)
(** * FLIPC channels: several producers, one consumer

    A channel created with [FLIPC2_CREATE_MPSC]: the producers draw positions from
    [prod_reserved] with a fetch-and-add, fill their slots side by side, and publish
    in the order of the positions.  The proof that the consumer receives every
    descriptor once, those of each producer in the order in which it sends them, and
    that a sleeping consumer is woken; for every number of producers, every
    interleaving and every delay of the store buffers. *)

From S2P Require Import Prelude Mach Tso FlipcRing FlipcConsumer FlipcSpsc.

(** ** Clients *)

(** A producer reserves, fills the slot and publishes. *)
Definition mpsc_send (fuel spin : nat) (ch : channel) (d : desc) : tprog loc event unit :=
  '(slot, idx) ← flipc2_produce_wait_mpsc fuel ch spin;
  plain (write_desc ch slot d);;
  flipc2_produce_commit_mpsc fuel ch idx.

Fixpoint mpsc_producer (fuel spin : nat) (ch : channel) (ds : list desc) : tprog loc event unit :=
  match ds with
  | [] => mret tt
  | d :: ds => mpsc_send fuel spin ch d;; mpsc_producer fuel spin ch ds
  end.

Definition mpsc_consumer (ch : channel) (rs : list creq) : tprog loc event unit :=
  plain (consumer ch rs;; mret tt).

(** The consumer is thread 0; each producer is given with its attempts, its handle
    and what it sends. *)
Record psender := PSender { ps_fuel : nat; ps_spin : nat; ps_chan : channel; ps_descs : list desc }.
Definition mpsc_start (m : loc → Z) (chc : channel) (cs : list creq) (ps : list psender) : config :=
  Config m (Thread [] (Run (mpsc_consumer chc cs)) ::
    ((λ p, Thread [] (Run (mpsc_producer (ps_fuel p) (ps_spin p) (ps_chan p) (ps_descs p)))) <$> ps)) [].

(** ** The state of a producer *)

(** Where a producer is with its position [n] and the descriptor [d] for it: it has
    none; it has drawn it; it has room and has written the first [w] words; all
    before it is published; its store of the tail has been made. *)
Inductive stage :=
| Free
| Claimed (n : Z) (d : desc)
| Writing (n : Z) (d : desc) (w : nat)
| Turn (n : Z) (d : desc)
| Published (n : Z) (d : desc).

(** The descriptors for which it has drawn a position, and whether it may still owe
    the consumer a wake-up. *)
Record mprod := MProd { m_sent : list desc; m_stage : stage; m_owe : bool }.

Definition holds (p : mprod) (n : Z) : Prop :=
  match m_stage p with
  | Free => False
  | Claimed n' _ | Writing n' _ _ | Turn n' _ | Published n' _ => n' = n
  end.

(** The order in which positions are drawn, from [T0] on: who has drawn each, and
    for what. *)
Abbreviation claims := (list (nat * desc)).
Definition claimed_by (j : nat) (log : claims) : list desc :=
  omap (λ e, if decide (e.1 = j) then Some e.2 else None) log.

Lemma claimed_by_snoc j i d log :
  claimed_by j (log ++ [(i, d)]) = claimed_by j log ++ (if decide (i = j) then [d] else []).
Proof. unfold claimed_by. rewrite omap_app. cbn. by case_decide. Qed.

Section mpsc.
Context (c : nat) (re th T0 : Z) (plan : list (list desc)) {Hsize : RingSize re}.
Abbreviation np := (length plan).
Hypothesis few_producers : Z.of_nat np < 2 ^ 30.

Abbreviation PT := (c, PROD_TAIL).
Abbreviation CH := (c, CONS_HEAD).
Abbreviation CS := (c, CONS_SLEEPING).
Abbreviation TH := (c, WAKEUP_THRESH).
Abbreviation RES := (c, PROD_RESERVED).
Abbreviation buffer := (list (loc * Z)).

Definition word_at (n : Z) (j : nat) : loc := (c, WORD (n mod re) j).

(** The words of the producers that nothing depends on. *)
Definition stat_loc (x : loc) : Prop :=
  x.1 = c ∧ match x.2 with PROD_SLEEPING | PROD_TOTAL | WAKEUPS => True | _ => False end.
(** What the holder of position [n] may have in its buffer. *)
Definition slot_store (n : Z) (d : desc) (xv : loc * Z) : Prop :=
  stat_loc xv.1 ∨ ∃ j, (j < DESC_WORDS)%nat ∧ xv = (word_at n j, desc_word d j).
(** Each of the first [w] words is in memory or on its way. *)
Definition wrote (n : Z) (d : desc) (w : nat) (m : loc → Z) (b : buffer) : Prop :=
  ∀ j, (j < w)%nat → m (word_at n j) = desc_word d j ∨ word_at n j ∈ b.*1.
Definition owner (log : claims) (n : Z) (j : nat) (d : desc) : Prop :=
  T0 <= n ∧ log !! Z.to_nat (n - T0) = Some (j, d).

(** What producer [j] has drawn positions for is the beginning of what it has to
    send. *)
Definition drawn (log : claims) (j : nat) (ds : list desc) : Prop :=
  claimed_by j log = ds ∧ ds `prefix_of` default [] (plan !! j).

(** Producer [j] with buffer [b], when the tail in memory is [t] and the head [h]. *)
Definition pinv (log : claims) (t h : Z) (m : loc → Z) (j : nat) (p : mprod) (b : buffer) : Prop :=
  drawn log j (m_sent p) ∧
  match m_stage p with
  | Free => Forall stat_loc b.*1
  | Claimed n d => Forall stat_loc b.*1 ∧ owner log n j d ∧ t <= n
  | Writing n d w =>
      Forall (slot_store n d) b ∧ owner log n j d ∧ t <= n < h + re ∧ wrote n d w m b
  | Turn n d =>
      Forall (slot_store n d) b ∧ owner log n j d ∧ (t = n ∧ n < h + re) ∧ wrote n d DESC_WORDS m b
  | Published n d =>
      owner log n j d ∧ m_owe p = true ∧
      (n < t ∧ Forall stat_loc b.*1 ∨
       (t = n ∧ n < h + re) ∧ ∃ b1 b2, b = b1 ++ (PT, u32 (n + 1)) :: b2 ∧
         Forall (slot_store n d) b1 ∧ Forall stat_loc b2.*1 ∧ wrote n d DESC_WORDS m b1)
  end.

Record minv (q : cons) (ps : list mprod) (log : claims) (t h : Z) (m : loc → Z) (bc : buffer)
    (bps : list buffer) (qc : list loc) (qps : list (list loc)) (es : list event) : Prop := {
  g_len : length ps = np ∧ length bps = np ∧ length qps = np;
  g_cons : Forall (cons_loc c) bc.*1;
  g_th : m TH = th;
  g_res : m RES = u32 (T0 + Z.of_nat (length log));
  g_tail : m PT = u32 t;
  g_head : chain (head_is c) m h bc (c_head q);
  g_order : T0 <= h ∧ (c_head q <= c_read q ∧ c_read q <= c_known q ∧ c_known q <= t) ∧
    t <= T0 + Z.of_nat (length log) ∧ t <= h + re;
  g_pub : published c re T0 log.*2 (c_head q) t m;
  g_held : ∀ k j d, log !! k = Some (j, d) → t <= T0 + Z.of_nat k →
    ∃ p, ps !! j = Some p ∧ holds p (T0 + Z.of_nat k);
  g_prods : ∀ j p b, ps !! j = Some p → bps !! j = Some b → pinv log t h m j p b;
  g_queues : ∀ j keys, qps !! j = Some keys → PT ∉ keys;
  g_armed : c_armed q = true → view m bc CS = 1;
  g_asleep : c_asleep q = true → bc = [] ∧ m CS = 1;
  g_queue : PT ∈ qc → c_asleep q = true;
  g_park : th <= 1 → c_parked q = true → PT ∈ qc →
    t = c_head q ∨ ∃ j p, ps !! j = Some p ∧ m_owe p = true;
  g_received : received c es = take (Z.to_nat (c_read q - T0)) log.*2;
  g_words : ∀ j v, c_words q !! j = Some v →
    c_read q < c_known q ∧ v = desc_word (nth_sent T0 log.*2 (c_read q)) j;
  g_whole : Forall (λ d, length d = DESC_WORDS) log.*2;
  g_from : Forall (λ e, (e.1 < np)%nat) log }.

Definition MInv (ls : list (mprod + cons)) (s : @shared loc event) : Prop :=
  ∃ q ps log t h m bc bps qc qps es,
    ls = inr q :: (inl <$> ps) ∧ s = Shared m (bc :: bps) (qc :: qps) es ∧
    minv q ps log t h m bc bps qc qps es.

Definition MParked (l : mprod + cons) : Prop :=
  match l with inl p => m_owe p = false | inr q => c_parked q = true end.

(** ** Counters *)

(** The positions that are drawn and not yet published are held by different
    producers. *)
Lemma in_flight q ps log t h m bc bps qc qps es :
  minv q ps log t h m bc bps qc qps es → T0 + Z.of_nat (length log) - t <= Z.of_nat np.
Proof.
  intros Hi. destruct (g_order _ _ _ _ _ _ _ _ _ _ _ Hi) as (? & ? & ? & ?).
  pose proof (chain_final _ _ _ _ _ (g_head _ _ _ _ _ _ _ _ _ _ _ Hi)) as [_ ?].
  set (k := Z.to_nat (t - T0)). set (l := drop k log).
  assert (Hl : ∀ i j d, l !! i = Some (j, d) → ∃ p, ps !! j = Some p ∧ holds p (T0 + Z.of_nat (k + i))).
  { intros i j d Hd. unfold l in Hd. rewrite lookup_drop in Hd.
    eapply g_held; [exact Hi|exact Hd|lia]. }
  assert (Hle : (length l.*1 ≤ length (seq 0 np))%nat).
  { apply submseteq_length, NoDup_submseteq.
    - apply NoDup_alt. intros i i' j Hj Hj'. rewrite !list_lookup_fmap in *.
      destruct (l !! i) as [[j1 d1]|] eqn:E1; [|done]. destruct (l !! i') as [[j2 d2]|] eqn:E2; [|done].
      cbn in Hj, Hj'. simplify_eq.
      destruct (Hl _ _ _ E1) as (p & Hp & Hh1), (Hl _ _ _ E2) as (p' & Hp' & Hh2). simplify_eq.
      unfold holds in Hh1, Hh2. destruct (m_stage p); try done; lia.
    - intros j (i & Hj)%list_elem_of_lookup. rewrite list_lookup_fmap in Hj.
      destruct (l !! i) as [[j1 d1]|] eqn:E1; [|done]. cbn in Hj. simplify_eq.
      destruct (Hl _ _ _ E1) as (p & Hp & _). apply elem_of_seq. apply lookup_lt_Some in Hp.
      destruct (g_len _ _ _ _ _ _ _ _ _ _ _ Hi). lia. }
  rewrite length_fmap, length_seq in Hle. unfold l in Hle. rewrite length_drop in Hle. lia.
Qed.

(** What every thread can rely on. *)
Lemma minv_counters q ps log t h m bc bps qc qps es :
  minv q ps log t h m bc bps qc qps es →
  m PT = u32 t ∧ m CH = u32 h ∧ view m bc CH = u32 (c_head q) ∧
  T0 <= h <= c_head q ∧ c_head q <= c_read q ∧ c_read q <= c_known q ∧ c_known q <= t ∧
  t <= T0 + Z.of_nat (length log) ∧ t <= h + re ∧
  T0 + Z.of_nat (length log) - t <= Z.of_nat np.
Proof.
  intros Hi. pose proof (in_flight _ _ _ _ _ _ _ _ _ _ _ Hi). destruct Hi.
  pose proof (chain_final _ _ _ _ _ g_head0) as [Hv ?].
  split_and!; try done; try lia. by destruct bc as [|[]], g_head0.
Qed.

Lemma owner_range log n j d : owner log n j d → T0 <= n < T0 + Z.of_nat (length log).
Proof. intros [? Hl]. apply lookup_lt_Some in Hl. lia. Qed.
Lemma owner_unique log n j d j' d' : owner log n j d → owner log n j' d' → j = j' ∧ d = d'.
Proof. intros [? Hl] [? Hl']. by simplify_eq. Qed.

(** ** Changes that leave a producer's condition *)

Lemma pinv_owner log t h m j p b n :
  pinv log t h m j p b → holds p n → ∃ d, owner log n j d.
Proof.
  intros [_ Hp] Hh. unfold holds in Hh. destruct (m_stage p); [done|..]; subst; destruct_and?; eauto.
Qed.

(** Memory away from its slot. *)
Lemma pinv_mem log t h m m' j p b :
  (∀ n k, holds p n → t <= n < h + re → m' (word_at n k) = m (word_at n k)) →
  pinv log t h m j p b → pinv log t h m' j p b.
Proof.
  intros Hm [Hc Hp]. split; [done|].
  assert (Hw : ∀ n d w b, holds p n → t <= n < h + re → wrote n d w m b → wrote n d w m' b).
  { intros n d w b' Hn Ht Hw k Hk. rewrite Hm by done. by apply Hw. }
  unfold holds in Hw. destruct (m_stage p); try done.
  - destruct Hp as (? & ? & ? & ?). eauto.
  - destruct Hp as (? & ? & [-> ?] & ?). split_and!; try done. apply Hw; done || lia.
  - destruct Hp as (? & ? & [?|[[-> ?] (b1 & b2 & ? & ? & ? & ?)]]); split_and!; try done; [by left|].
    right. split; [done|]. exists b1, b2. split_and!; try done. apply Hw; done || lia.
Qed.

(** The head goes up. *)
Lemma pinv_head log t h h' m j p b : h <= h' → pinv log t h m j p b → pinv log t h' m j p b.
Proof.
  intros Hh [Hc Hp]. split; [done|]. destruct (m_stage p); try done.
  - destruct Hp as (? & ? & ? & ?). split_and!; try done; lia.
  - destruct Hp as (? & ? & ? & ?). split_and!; try done; lia.
  - destruct Hp as (? & ? & [?|[? ?]]); split_and!; try done; [by left|]. right. split; [lia|done].
Qed.

(** Another producer draws a position. *)
Lemma pinv_claim log t h m j p b i d :
  i ≠ j → pinv log t h m j p b → pinv (log ++ [(i, d)]) t h m j p b.
Proof.
  intros Hne [[Hc Hd] Hp]. split; [split; [by rewrite claimed_by_snoc, decide_False, app_nil_r|done]|].
  assert (Ho : ∀ n d', owner log n j d' → owner (log ++ [(i, d)]) n j d').
  { intros n d' [? Hl]. split; [done|]. by apply lookup_app_l_Some. }
  destruct (m_stage p); try done; destruct_and?; split_and!; auto.
Qed.

(** Another producer's tail reaches memory. *)
Lemma pinv_tail log t h m j p b i d :
  i ≠ j → owner log t i d → pinv log t h m j p b → pinv log (t + 1) h m j p b.
Proof.
  intros Hne Ho [Hc Hp]. split; [done|].
  assert (Hn : ∀ n d', owner log n j d' → n ≠ t) by (intros n d' Hn ->; by destruct (owner_unique _ _ _ _ _ _ Hn Ho)).
  destruct (m_stage p); try done; destruct_and?; split_and!; try done;
    repeat match goal with H : owner log _ j _ |- _ => apply Hn in H end; try lia.
  destruct H2 as [[]|[[-> _] _]]; [left; split; [lia|done]|done].
Qed.

Lemma stat_not_word x n j : stat_loc x → word_at n j ≠ x.
Proof. by intros [_ Hx] <-. Qed.


(** The words that all threads rely on are not written as these are. *)
Lemma stat_not_fixed x : stat_loc x → x ∉ [TH; RES; PT; CH; CS].
Proof.
  intros [_ Hs] Hx. repeat (apply elem_of_cons in Hx as [->|Hx]; [done|]). by apply not_elem_of_nil in Hx.
Qed.
Lemma word_not_fixed n j : word_at n j ∉ [TH; RES; PT; CH; CS].
Proof. intros Hx. repeat (apply elem_of_cons in Hx as [Hx|Hx]; [done|]). by apply not_elem_of_nil in Hx. Qed.
Lemma cons_not_fixed x : cons_loc c x → x ∉ [TH; RES; PT].
Proof.
  intros [_ Hs] Hx. repeat (apply elem_of_cons in Hx as [->|Hx]; [done|]). by apply not_elem_of_nil in Hx.
Qed.

Lemma wrote_flush n d w m x v b :
  slot_store n d (x, v) → wrote n d w m ((x, v) :: b) → wrote n d w (upd m x v) b.
Proof.
  intros Hs Hw j Hj. unfold upd. case_decide as He.
  - left. destruct Hs as [Hs|(k & _ & [= -> ->])]; [by destruct (stat_not_word _ _ _ Hs He)|].
    by injection He as ->.
  - destruct (Hw j Hj) as [?|Hin]; [by left|]. cbn in Hin.
    apply elem_of_cons in Hin as [?|?]; [done|by right].
Qed.

(** ** The stores that leave a buffer *)

(** The oldest store of a producer: one that nothing depends on, a word of its slot,
    or the tail, once all its words are in memory. *)
Lemma pinv_flush log t h m j p x v b :
  pinv log t h m j p ((x, v) :: b) →
  (stat_loc x ∧ pinv log t h (upd m x v) j p b) ∨
  (∃ n k, x = word_at n k ∧ holds p n ∧ t <= n < h + re ∧ pinv log t h (upd m x v) j p b) ∨
  (∃ d, x = PT ∧ v = u32 (t + 1) ∧ t < h + re ∧ owner log t j d ∧ m_owe p = true ∧
     (∀ k, (k < DESC_WORDS)%nat → m (word_at t k) = desc_word d k) ∧
     pinv log (t + 1) h (upd m x v) j p b).
Proof.
  intros [Hc Hp]. unfold pinv, holds. destruct (m_stage p) as [|n d|n d w|n d|n d] eqn:Es.
  - cbn in Hp. apply Forall_cons_iff in Hp as [? ?]. by left.
  - destruct Hp as (Hf & ? & ?). cbn in Hf. apply Forall_cons_iff in Hf as [? ?]. by left.
  - destruct Hp as (Hf & ? & ? & Hw). apply Forall_cons_iff in Hf as [Hs ?].
    pose proof (wrote_flush _ _ _ _ _ _ _ Hs Hw).
    destruct Hs as [|(k & _ & [= -> ->])]; [by left|right; left]. by exists n, k.
  - destruct Hp as (Hf & ? & ? & Hw). apply Forall_cons_iff in Hf as [Hs ?].
    pose proof (wrote_flush _ _ _ _ _ _ _ Hs Hw).
    destruct Hs as [|(k & _ & [= -> ->])]; [by left|right; left]. exists n, k. split_and!; done || lia.
  - destruct Hp as (Ho & Hw & [[? Hf]|[[-> ?] (b1 & b2 & Hb & Hs & Hf & Hwr)]]).
    { cbn in Hf. apply Forall_cons_iff in Hf as [? ?]. left. split_and!; auto. }
    destruct b1 as [|y b1]; cbn in Hb; simplify_eq.
    + right. right. exists d. split_and!; try done; [|left; split; [lia|done]].
      intros k Hk. destruct (Hwr k Hk) as [?|Hin]; [done|]. by apply not_elem_of_nil in Hin.
    + apply Forall_cons_iff in Hs as [Hx Hs]. pose proof (wrote_flush _ _ _ _ _ _ _ Hx Hwr).
      assert (Hn : owner log n j d ∧ m_owe p = true ∧ (n < n ∧ Forall stat_loc (b1 ++ (PT, u32 (n + 1)) :: b2).*1 ∨
        (n = n ∧ n < h + re) ∧ ∃ b3 b4, b1 ++ (PT, u32 (n + 1)) :: b2 = b3 ++ (PT, u32 (n + 1)) :: b4 ∧
        Forall (slot_store n d) b3 ∧ Forall stat_loc b4.*1 ∧ wrote n d DESC_WORDS (upd m x v) b3)).
      { split_and!; try done. right. split; [done|]. by exists b1, b2. }
      destruct Hx as [|(k & _ & [= -> ->])]; [by left|right; left].
      exists n, k. do 3 (split; [done || lia|]). done.
Qed.

(** A word of the slot of [n] is none of the slot of another position in the ring. *)
Lemma word_at_inj n n' j j' lo :
  lo <= n < lo + re → lo <= n' < lo + re → word_at n j = word_at n' j' → n = n'.
Proof.
  intros ? ? [= Hs _]. destruct (decide (n <= n')); [|symmetry in Hs; symmetry]; apply slot_inj; done || lia.
Qed.

(** Producer [j] takes a step that changes its state, its buffer, and memory where
    the others do not look. *)
Lemma minv_update q ps log t h m m' bc bps qc qps es j p p' b' :
  minv q ps log t h m bc bps qc qps es → ps !! j = Some p →
  (∀ x, x ∈ [TH; RES; PT; CH; CS] → m' x = m x) →
  (∀ n k, c_head q <= n < t → m' (word_at n k) = m (word_at n k)) →
  (∀ i pi n k, i ≠ j → ps !! i = Some pi → holds pi n → t <= n < h + re →
     m' (word_at n k) = m (word_at n k)) →
  pinv log t h m' j p' b' → (∀ n, holds p n → t <= n → holds p' n) →
  (m_owe p = true → m_owe p' = true ∨ (th <= 1 → PT ∉ qc)) →
  minv q (<[j := p']> ps) log t h m' bc (<[j := b']> bps) qc qps es.
Proof.
  intros [] Hj Hx Hw Ho Hp Hh Howe. constructor; try done.
  - by rewrite !length_insert.
  - rewrite Hx; [done|]. set_solver.
  - rewrite Hx; [done|]. set_solver.
  - rewrite Hx; [done|]. set_solver.
  - eapply (chain_skip _ (λ y, y = CH)); [apply head_is_ext| |exact g_head0].
    intros y ->. symmetry. apply Hx. set_solver.
  - intros n k Hn Hk. rewrite <- g_pub0 by done. by apply Hw.
  - intros k i d Hk Ht. destruct (g_held0 k i d Hk Ht) as (pi & Hi & Hhi).
    destruct (decide (i = j)) as [->|Hne].
    + exists p'. rewrite list_lookup_insert_eq by (by eapply lookup_lt_Some).
      simplify_eq. split; [done|]. by apply Hh.
    + exists pi. by rewrite list_lookup_insert_ne.
  - intros i pi b Hi Hb. apply lookup_insert_cases in Hi as [[<- ->]|[Hne Hi]].
    + apply lookup_insert_cases in Hb as [[_ ->]|[]]; done.
    + rewrite list_lookup_insert_ne in Hb by done. eapply pinv_mem; [|by eauto]. eauto.
  - intros Ha. rewrite <- (g_armed0 Ha). apply view_ext, Hx. set_solver.
  - intros Ha. destruct (g_asleep0 Ha) as [-> <-]. split; [done|]. apply Hx. set_solver.
  - intros Hth Hpk Hq. destruct (g_park0 Hth Hpk Hq) as [->|(i & pi & Hi & Hoi)]; [by left|right].
    destruct (decide (i = j)) as [->|Hne].
    + simplify_eq. destruct (Howe Hoi) as [?|[]]; [|done..].
      exists j, p'. by rewrite list_lookup_insert_eq by (by eapply lookup_lt_Some).
    + exists i, pi. by rewrite list_lookup_insert_ne.
Qed.

(** The same without a change of memory. *)
Lemma minv_local q ps log t h m bc bps qc qps es j p p' b' :
  minv q ps log t h m bc bps qc qps es → ps !! j = Some p →
  pinv log t h m j p' b' → (∀ n, holds p n → t <= n → holds p' n) →
  (m_owe p = true → m_owe p' = true ∨ (th <= 1 → PT ∉ qc)) →
  minv q (<[j := p']> ps) log t h m bc (<[j := b']> bps) qc qps es.
Proof. intros. by eapply minv_update. Qed.

(** The tail of producer [j] reaches memory. *)
Lemma minv_tail q ps log t h m bc bps qc qps es j p b d :
  minv q ps log t h m bc bps qc qps es → ps !! j = Some p → owner log t j d → t < h + re →
  m_owe p = true → (∀ k, (k < DESC_WORDS)%nat → m (word_at t k) = desc_word d k) →
  pinv log (t + 1) h (upd m PT (u32 (t + 1))) j p b →
  minv q ps log (t + 1) h (upd m PT (u32 (t + 1))) bc (<[j := b]> bps) qc qps es.
Proof.
  intros Hi Hj Ho Ht Howe Hw Hp. pose proof (owner_range _ _ _ _ Ho). destruct Hi.
  constructor; try done.
  - by rewrite length_insert.
  - by rewrite upd_other.
  - by rewrite upd_other.
  - by rewrite upd_same.
  - eapply (chain_skip _ (λ y, y = CH)); [apply head_is_ext| |exact g_head0].
    intros y ->. by rewrite upd_other.
  - lia.
  - intros n k Hn Hk. rewrite upd_other by done. destruct (decide (n = t)) as [->|]; [|apply g_pub0; lia || done].
    etransitivity; [apply (Hw k Hk)|]. f_equal. unfold nth_sent. rewrite list_lookup_fmap. by destruct Ho as [_ ->].
  - intros k i d' Hk Hle. apply (g_held0 k i d'); [done|lia].
  - intros i pi bi Hi Hb. destruct (decide (i = j)) as [->|Hne].
    + apply lookup_insert_cases in Hb as [[_ ->]|[]]; [|done]. by simplify_eq.
    + rewrite list_lookup_insert_ne in Hb by done.
      eapply pinv_mem; [|by eapply pinv_tail; [|exact Ho|by eauto]]. intros n k _ _. by apply upd_other.
  - intros Ha. rewrite <- (g_armed0 Ha). by apply view_ext, upd_other.
  - intros Ha. destruct (g_asleep0 Ha). by rewrite upd_other.
  - intros _ _ _. right. eauto.
Qed.

Lemma minv_flush_prod q ps log t h m bc bps qc qps es j p x v b :
  minv q ps log t h m bc bps qc qps es → ps !! j = Some p → bps !! j = Some ((x, v) :: b) →
  ∃ t', minv q ps log t' h (upd m x v) bc (<[j := b]> bps) qc qps es.
Proof.
  intros Hi Hj Hb. pose proof (minv_counters _ _ _ _ _ _ _ _ _ _ _ Hi) as (_ & _ & _ & ? & ? & ? & ? & ? & ? & _).
  destruct (pinv_flush _ _ _ _ _ _ _ _ _ (g_prods _ _ _ _ _ _ _ _ _ _ _ Hi j p _ Hj Hb))
    as [[Hs Hp]|[(n & k & -> & Hn & Hr & Hp)|(d & -> & -> & Ht & Ho & Howe & Hw & Hp)]].
  - exists t. rewrite <- (list_insert_id ps j p Hj). eapply minv_update; try done; [| | |by left].
    + intros y Hy. apply upd_other. intros ->. by apply stat_not_fixed in Hs.
    + intros n k _. by apply upd_other, stat_not_word.
    + intros i pi n k _ _ _ _. by apply upd_other, stat_not_word.
  - exists t. rewrite <- (list_insert_id ps j p Hj). eapply minv_update; try done; [| | |by left].
    + intros y Hy. apply upd_other. intros ->. by apply word_not_fixed in Hy.
    + intros n' k' Hn'. apply upd_other. intros He. apply (word_at_inj _ _ _ _ (c_head q)) in He; lia.
    + intros i pi n' k' Hne Hpi Hn' Hr'. apply upd_other. intros He.
      apply (word_at_inj _ _ _ _ h) in He; [|lia..]. subst n'.
      destruct (pinv_owner _ _ _ _ _ _ _ n Hp Hn) as (d & Ho).
      destruct (lookup_lt_is_Some_2 bps i) as [bi Hbi].
      { destruct (g_len _ _ _ _ _ _ _ _ _ _ _ Hi) as (? & ? & _). apply lookup_lt_Some in Hpi. lia. }
      destruct (pinv_owner _ _ _ _ _ _ _ n (g_prods _ _ _ _ _ _ _ _ _ _ _ Hi i pi bi Hpi Hbi) Hn') as (d' & Ho').
      by destruct (owner_unique _ _ _ _ _ _ Ho Ho').
  - exists (t + 1). by eapply minv_tail.
Qed.

Lemma minv_flush_cons q ps log t h m x v bc bps qc qps es :
  minv q ps log t h m ((x, v) :: bc) bps qc qps es →
  ∃ h', minv q ps log t h' (upd m x v) bc bps qc qps es.
Proof.
  intros []. cbn in g_cons0. apply Forall_cons_iff in g_cons0 as [Hx Hc].
  destruct g_head0 as [_ (h' & Hh & Hch)]. exists h'.
  assert (Hne : ∀ y, y ∈ [TH; RES; PT] → y ≠ x) by (intros y Hy ->; by apply cons_not_fixed in Hx).
  assert (Hnw : ∀ n k, word_at n k ≠ x) by (intros n k <-; by destruct Hx).
  constructor; try done.
  - rewrite upd_other; [done|]. apply Hne. set_solver.
  - rewrite upd_other; [done|]. apply Hne. set_solver.
  - rewrite upd_other; [done|]. apply Hne. set_solver.
  - lia.
  - intros n k Hn Hk. rewrite upd_other; [by apply g_pub0|apply Hnw].
  - intros j p b Hp Hb. eapply pinv_mem, pinv_head; [|exact Hh|by eauto].
    intros n k _ _. by apply upd_other.
  - intros Ha. by destruct (g_asleep0 Ha).
Qed.

Lemma mpsc_flush ls s i x v b :
  MInv ls s → s_bufs s !! i = Some ((x, v) :: b) →
  MInv ls (Shared (upd (s_mem s) x v) (<[i := b]> (s_bufs s)) (s_queue s) (s_evs s)).
Proof.
  intros (q & ps & log & t & h & m & bc & bps & qc & qps & es & -> & -> & Hi) Hb. cbn in *.
  destruct i as [|j]; cbn in Hb |- *.
  - injection Hb as ->. destruct (minv_flush_cons _ _ _ _ _ _ _ _ _ _ _ _ _ Hi) as (h' & Hi').
    by exists q, ps, log, t, h', (upd m x v), b, bps, qc, qps, es.
  - destruct (lookup_lt_is_Some_2 ps j) as [p Hp].
    { destruct (g_len _ _ _ _ _ _ _ _ _ _ _ Hi) as (? & ? & _). apply lookup_lt_Some in Hb. lia. }
    destruct (minv_flush_prod _ _ _ _ _ _ _ _ _ _ _ _ _ _ _ _ Hi Hp Hb) as (t' & Hi').
    by exists q, ps, log, t', h, (upd m x v), bc, (<[j := b]> bps), qc, qps, es.
Qed.

(** ** The producers' steps *)

Lemma mprod_move j g f (K : shared → mprod + cons → Prop) p :
  (∀ q ps log t h m bc bps qc qps es b keys,
     minv q ps log t h m bc bps qc qps es →
     ps !! j = Some p → bps !! j = Some b → qps !! j = Some keys →
     g (Shared m (bc :: bps) (qc :: qps) es) →
     ∃ p' log' m' bps' qc' qps', minv q (<[j := p']> ps) log' t h m' bc bps' qc' qps' es ∧
       f (Shared m (bc :: bps) (qc :: qps) es) = Shared m' (bc :: bps') (qc' :: qps') es ∧
       K (Shared m (bc :: bps) (qc :: qps) es) (inl p')) →
  move MInv (S j) g f K (inl p).
Proof.
  intros H ls s Hl (q & ps & log & t & h & m & bc & bps & qc & qps & es & -> & -> & Hi) Hg.
  change ((@inl mprod cons <$> ps) !! j = Some (inl p)) in Hl. rewrite list_lookup_fmap in Hl. destruct (ps !! j) as [p0|] eqn:Hp; [|done]. cbn in Hl. injection Hl as ->.
  destruct (g_len _ _ _ _ _ _ _ _ _ _ _ Hi) as (Hl1 & Hl2 & Hl3). pose proof (lookup_lt_Some _ _ _ Hp).
  destruct (lookup_lt_is_Some_2 bps j) as [b Hb]; [lia|].
  destruct (lookup_lt_is_Some_2 qps j) as [keys Hk]; [lia|].
  destruct (H _ _ _ _ _ _ _ _ _ _ _ _ _ Hi Hp Hb Hk Hg) as (p' & log' & m' & bps' & qc' & qps' & Hi' & Hf & HK).
  exists (inl p'). split; [|done].
  exists q, (<[j := p']> ps), log', t, h, m', bc, bps', qc', qps', es. split_and!; [|done..].
  by rewrite list_fmap_insert.
Qed.

Lemma mprod_view j b m (bc : buffer) bps qs (es : list event) x :
  bps !! j = Some b → view_of (S j) (Shared m (bc :: bps) qs es) x = view m b x.
Proof.
  intros Hb. change (match bps !! j with Some b => view m b x | None => m x end = view m b x).
  by rewrite Hb.
Qed.

(** What a producer reads of the words that the others write. *)
Lemma pinv_buffer log t h m j p b x :
  pinv log t h m j p b → x ∈ b.*1 →
  stat_loc x ∨ (∃ n k, x = word_at n k) ∨ x = PT ∧ ∃ n d, m_stage p = Published n d.
Proof.
  assert (Hst : ∀ b : buffer, Forall stat_loc b.*1 → x ∈ b.*1 → stat_loc x).
  { intros b' Hf Hx. by eapply list.Forall_forall in Hf. }
  assert (Hsl : ∀ n d (b : buffer), Forall (slot_store n d) b → x ∈ b.*1 →
    stat_loc x ∨ ∃ n k, x = word_at n k).
  { intros n d b' Hf ([y v] & -> & Hx)%list_elem_of_fmap. eapply list.Forall_forall in Hf; [|exact Hx].
    destruct Hf as [?|(k & _ & [= -> ->])]; eauto. }
  intros [_ Hp] Hx. destruct (m_stage p) as [|n d|n d w|n d|n d].
  - eauto.
  - destruct Hp. eauto.
  - destruct Hp as [Hf _]. destruct (Hsl n d b); eauto.
  - destruct Hp as [Hf _]. destruct (Hsl n d b); eauto.
  - destruct Hp as (_ & _ & [[]|[_ (b1 & b2 & -> & Hs & Hf & _)]]); [by eauto|].
    rewrite fmap_app, elem_of_app in Hx. cbn in Hx. rewrite elem_of_cons in Hx.
    destruct Hx as [Hx|[->|Hx]]; [destruct (Hsl n d b1); eauto|by eauto 6|by eauto].
Qed.
Lemma pinv_view log t h m j p b x :
  pinv log t h m j p b → x ∈ [TH; RES; CH; CS] → view m b x = m x.
Proof.
  intros Hp Hx. apply view_other. intros Hin.
  destruct (pinv_buffer _ _ _ _ _ _ _ _ Hp Hin) as [Hs|[(n & k & ->)|[-> _]]].
  - apply stat_not_fixed in Hs. set_solver.
  - assert (word_at n k ∈ [TH; RES; PT; CH; CS]) as []%word_not_fixed by set_solver.
  - repeat (apply elem_of_cons in Hx as [Hx|Hx]; [done|]). by apply not_elem_of_nil in Hx.
Qed.
Lemma pinv_view_tail log t h m j p b :
  pinv log t h m j p b → (∀ n d, m_stage p ≠ Published n d) → view m b PT = m PT.
Proof.
  intros Hp Hn. apply view_other. intros Hin.
  destruct (pinv_buffer _ _ _ _ _ _ _ _ Hp Hin) as [Hs|[(n & k & ?)|[_ (n & d & ?)]]]; [by destruct Hs|done|naive_solver].
Qed.

Section producer_rules.
Context (j : nat).
Abbreviation wpm k Q p := (wp MInv MParked (S j) k Q (inl p)).

(** Reading without learning anything. *)
Lemma wpm_load (Q : Z → mprod + cons → Prop) x p : (∀ v, Q v (inl p)) → wpm (load x) Q p.
Proof.
  intros HQ. apply mprod_move. intros q ps log t h m bc bps qc qps es b keys Hi Hp Hb Hk _.
  exists p, log, m, bps, qc, qps. rewrite list_insert_id by done. split_and!; [done..|apply HQ].
Qed.

(** A store that nothing depends on. *)
Lemma pinv_stat log t h m p b x v :
  stat_loc x → pinv log t h m j p b → pinv log t h m j p (b ++ [(x, v)]).
Proof.
  intros Hx [Hc Hp]. split; [done|].
  assert (Hst : ∀ b : buffer, Forall stat_loc b.*1 → Forall stat_loc (b ++ [(x, v)]).*1).
  { intros b' Hf. rewrite fmap_app, Forall_app. split; [done|]. by constructor. }
  assert (Hsl : ∀ n d (b : buffer), Forall (slot_store n d) b → Forall (slot_store n d) (b ++ [(x, v)])).
  { intros n d b' Hf. rewrite Forall_app. split; [done|]. constructor; [by left|done]. }
  assert (Hw : ∀ n d w (b : buffer), wrote n d w m b → wrote n d w m (b ++ [(x, v)])).
  { intros n d w b' Hf k Hk. rewrite fmap_app, elem_of_app. destruct (Hf k Hk); auto. }
  destruct (m_stage p); [by auto|destruct_and?; split_and!; by auto..|].
  destruct Hp as (? & ? & [[]|[? (b1 & b2 & -> & ? & ? & ?)]]); split_and!; auto. right. split; [done|].
  exists b1, (b2 ++ [(x, v)]). split_and!; auto. by rewrite <- app_assoc.
Qed.
Lemma wpm_push (Q : unit → mprod + cons → Prop) x v p p' :
  (∀ log t h m b, pinv log t h m j p b → pinv log t h m j p' (b ++ [(x, v)])) →
  (∀ n, holds p n → holds p' n) → (m_owe p = true → m_owe p' = true) →
  Q tt (inl p') → wpm (store x v) Q p.
Proof.
  intros Hpi Hh Ho HQ. apply mprod_move. intros q ps log t h m bc bps qc qps es b keys Hi Hp Hb Hk _.
  exists p', log, m, (<[j := b ++ [(x, v)]]> bps), qc, qps. split_and!; [| |done].
  - eapply minv_local; [done|done| |by auto|by auto]. apply Hpi. by eapply g_prods.
  - change (Shared m (bc :: alter (λ b, b ++ [(x, v)]) j bps) (qc :: qps) es =
      Shared m (bc :: <[j := b ++ [(x, v)]]> bps) (qc :: qps) es).
    by rewrite (alter_at (λ b, b ++ [(x, v)]) bps j b Hb).
Qed.
Lemma wpm_store (Q : unit → mprod + cons → Prop) x v p :
  stat_loc x → Q tt (inl p) → wpm (store x v) Q p.
Proof. intros Hx. apply wpm_push; [|done..]. intros. by apply pinv_stat. Qed.

(** Reading, and what it tells. *)
Lemma wpm_observe (Q : Z → mprod + cons → Prop) x p :
  (∀ q ps log t h m bc bps qc qps es b, minv q ps log t h m bc bps qc qps es → pinv log t h m j p b →
     ∃ p', pinv log t h m j p' b ∧ (∀ n, holds p n → t <= n → holds p' n) ∧
       (m_owe p = true → m_owe p' = true ∨ (th <= 1 → PT ∉ qc)) ∧ Q (view m b x) (inl p')) →
  wpm (load x) Q p.
Proof.
  intros HQ. apply mprod_move. intros q ps log t h m bc bps qc qps es b keys Hi Hp Hb Hk _.
  destruct (HQ _ _ _ _ _ _ _ _ _ _ _ b Hi) as (p' & Hp' & Hh & Ho & Hv); [by eapply g_prods|].
  exists p', log, m, bps, qc, qps. split_and!; [|done|].
  - rewrite <- (list_insert_id bps j b Hb). by eapply minv_local.
  - by rewrite (mprod_view j b).
Qed.

Lemma stat_slot n d (b : buffer) : Forall stat_loc b.*1 → Forall (slot_store n d) b.
Proof. rewrite Forall_fmap. intros H. eapply list.Forall_impl; [exact H|]. by left. Qed.

(** A producer that looks for room; once it has seen some, it keeps it. *)
Definition waiting (s : list desc) (n : Z) (d : desc) (l : mprod + cons) : Prop :=
  l = inl (MProd s (Claimed n d) false) ∨ l = inl (MProd s (Writing n d 0) false).

Lemma wpm_head (Q : Z → mprod + cons → Prop) s n d l :
  waiting s n d l →
  (∀ h l', h <= n < h + 2 ^ 31 → waiting s n d l' →
     (n < h + re → l' = inl (MProd s (Writing n d 0) false)) → Q (u32 h) l') →
  wp MInv MParked (S j) (load CH) Q l.
Proof.
  intros Hl HQ. pose proof (@re_range re _).
  assert (Hgen : ∃ st, l = inl (MProd s st false) ∧ (st = Claimed n d ∨ st = Writing n d 0))
    by (destruct Hl; eauto).
  destruct Hgen as (st & -> & Hst). apply wpm_observe. intros q ps log t h m bc bps qc qps es b Hi Hp.
  destruct (minv_counters _ _ _ _ _ _ _ _ _ _ _ Hi) as (_ & HCH & _ & ? & ? & ? & ? & ? & ? & ?).
  assert (Hn : owner log n j d ∧ t <= n) by (destruct Hst as [-> | ->], Hp as [_ Hp]; cbn in Hp; naive_solver).
  destruct Hn as [Ho Hn]. pose proof (owner_range _ _ _ _ Ho).
  rewrite (pinv_view _ _ _ _ _ _ _ _ Hp), HCH by set_solver.
  destruct (decide (n < h + re)) as [Hr|Hr].
  - exists (MProd s (Writing n d 0) false). split_and!; [|by destruct Hst as [-> | ->]|by left|].
    + destruct Hst as [-> | ->]; [|done]. destruct Hp as [Hc (Hf & _ & _)]. split; [done|]. cbn.
      split_and!; [by apply stat_slot|apply Ho..|lia|done|]. intros k Hk. lia.
    + apply HQ; [lia|by right|done].
  - exists (MProd s st false). split_and!; [done..|by left|]. apply HQ; [lia|exact Hl|done].
Qed.

(** Writing the next word. *)
Lemma wpm_store_word (Q : unit → mprod + cons → Prop) s n d w sl o :
  sl = n mod re → (w < DESC_WORDS)%nat → Q tt (inl (MProd s (Writing n d (S w)) o)) →
  wpm (store (c, WORD sl w) (desc_word d w)) Q (MProd s (Writing n d w) o).
Proof.
  intros -> Hw. apply wpm_push; [|done..]. intros log t h m b [Hc (Hf & Ho & Hr & Hwr)]. split; [done|]. cbn.
  split_and!; try apply Ho; try apply Hr.
  - apply Forall_app. split; [done|]. constructor; [|done]. right. by exists w.
  - intros k Hk. rewrite fmap_app, elem_of_app. destruct (decide (k = w)) as [->|].
    + right. right. by apply list_elem_of_singleton.
    + destruct (Hwr k ltac:(lia)); auto.
Qed.

(** Waiting for the turn. *)
Lemma wpm_load_tail (Q : Z → mprod + cons → Prop) s n d :
  Q (u32 n) (inl (MProd s (Turn n d) false)) →
  (∀ v, v ≠ u32 n → Q v (inl (MProd s (Writing n d DESC_WORDS) false))) →
  wpm (load PT) Q (MProd s (Writing n d DESC_WORDS) false).
Proof.
  intros H1 H2. apply wpm_observe. intros q ps log t h m bc bps qc qps es b Hi Hp.
  destruct (minv_counters _ _ _ _ _ _ _ _ _ _ _ Hi) as (HPT & _ & _ & ? & ? & ? & ? & ? & ? & ?).
  rewrite (pinv_view_tail _ _ _ _ _ _ _ Hp), HPT by done.
  destruct Hp as [Hc (Hf & Ho & Hr & Hw)]. pose proof (owner_range _ _ _ _ Ho).
  destruct (decide (u32 t = u32 n)) as [He|Hne].
  - exists (MProd s (Turn n d) false). split_and!; [|done|by left|by rewrite He].
    split; [done|]. cbn. split_and!; try done; [apply Ho..| |lia].
    apply u32_inj; [done|]. lia.
  - exists (MProd s (Writing n d DESC_WORDS) false). split_and!; [done..|by left|by apply H2].
Qed.

Lemma wpm_publish (Q : unit → mprod + cons → Prop) s n d v :
  v = u32 (n + 1) → Q tt (inl (MProd s (Published n d) true)) →
  wpm (store PT v) Q (MProd s (Turn n d) false).
Proof.
  intros ->. apply wpm_push; [|done..]. intros log t h m b [Hc (Hf & Ho & Hr & Hw)].
  split; [done|]. cbn. split; [done|]. split; [done|]. right. split; [done|].
  exists b, []. by split_and!.
Qed.

(** The fence: the tail is in memory. *)
Lemma wpm_mfence (Q : unit → mprod + cons → Prop) s n d :
  Q tt (inl (MProd s Free true)) → wpm mfence Q (MProd s (Published n d) true).
Proof.
  intros HQ. apply mprod_move. intros q ps log t h m bc bps qc qps es b keys Hi Hp Hb Hk [Hd _].
  change (bps !! j = Some []) in Hd. rewrite Hd in Hb. injection Hb as <-.
  exists (MProd s Free true), log, m, bps, qc, qps. split_and!; [|done..].
  destruct (g_prods _ _ _ _ _ _ _ _ _ _ _ Hi j _ _ Hp Hd) as [Hc (_ & _ & [[Ht _]|[_ (b1 & b2 & He & _)]])];
    [|by destruct b1].
  rewrite <- (list_insert_id bps j [] Hd). eapply minv_local; [done..|split; [done|by constructor]| |by left].
  intros n' Hn'. cbn in Hn'. lia.
Qed.

(** The producer looks whether the consumer sleeps: if it does not, it owes it
    nothing. *)
Lemma wpm_sleeping (Q : Z → mprod + cons → Prop) s :
  Q 0 (inl (MProd s Free false)) → (∀ v, v ≠ 0 → Q v (inl (MProd s Free true))) →
  wpm (load CS) Q (MProd s Free true).
Proof.
  intros H0 H1. apply wpm_observe. intros q ps log t h m bc bps qc qps es b Hi Hp.
  rewrite (pinv_view _ _ _ _ _ _ _ _ Hp) by set_solver. destruct (decide (m CS = 0)) as [Hm|Hm].
  - exists (MProd s Free false). split_and!; [done|done| |by rewrite Hm]. right. intros _ Hq.
    destruct Hi. destruct (g_asleep0 (g_queue0 Hq)). lia.
  - exists (MProd s Free true). split_and!; [done..|by left|by apply H1].
Qed.

(** With a threshold above one the producer promises no wake-up. *)
Lemma wpm_thresh (Q : Z → mprod + cons → Prop) s :
  (th <= 1 → Q th (inl (MProd s Free true))) → (1 < th → Q th (inl (MProd s Free false))) →
  wpm (load TH) Q (MProd s Free true).
Proof.
  intros H0 H1. apply wpm_observe. intros q ps log t h m bc bps qc qps es b Hi Hp.
  rewrite (pinv_view _ _ _ _ _ _ _ _ Hp), (g_th _ _ _ _ _ _ _ _ _ _ _ Hi) by set_solver.
  destruct (decide (th <= 1)).
  - exists (MProd s Free true). split_and!; [done..|by left|by apply H0].
  - exists (MProd s Free false). split_and!; [done|done|right; lia|apply H1; lia].
Qed.

(** No producer waits on the tail. *)
Lemma wake_tail_producers w k (qps : list (list loc)) :
  (∀ i keys, qps !! i = Some keys → PT ∉ keys) →
  imap (λ i (keys : list loc), if wake_one PT w (k + i) keys then [] else keys) qps = qps.
Proof.
  intros Hq. apply list_eq. intros i. rewrite list_lookup_imap. destruct (qps !! i) as [keys|] eqn:Hk; [|reflexivity].
  cbn. unfold wake_one. by rewrite bool_decide_false by (by eapply Hq).
Qed.

Lemma minv_unqueue q ps log t h m bc bps qc qps es s o :
  minv q ps log t h m bc bps qc qps es → ps !! j = Some (MProd s Free o) →
  minv q (<[j := MProd s Free false]> ps) log t h m bc bps (unqueue PT qc) qps es.
Proof.
  intros Hi Hp.
  assert (Hi' : minv q ps log t h m bc bps (unqueue PT qc) qps es).
  { destruct Hi. constructor; try done.
    - intros Hq. by eapply g_queue0, unqueue_sub.
    - intros _ _ Hq. by apply unqueue_notin in Hq. }
  destruct (lookup_lt_is_Some_2 bps j) as [b Hb].
  { destruct (g_len _ _ _ _ _ _ _ _ _ _ _ Hi) as (? & ? & _). apply lookup_lt_Some in Hp. lia. }
  rewrite <- (list_insert_id bps j b Hb). eapply minv_local; [done|done| |done|].
  - by apply (g_prods _ _ _ _ _ _ _ _ _ _ _ Hi j _ b Hp Hb).
  - right. intros _. apply unqueue_notin.
Qed.

(** The wake-up: the consumer is the only thread that can be on the queue. *)
Lemma wpm_wake (Q : unit → mprod + cons → Prop) s o :
  Q tt (inl (MProd s Free false)) → wpm (futex_wake PT 1) Q (MProd s Free o).
Proof.
  intros HQ. split; [intros i|]; apply mprod_move;
    intros q ps log t h m bc bps qc qps es b keys Hi Hp Hb Hk [_ Hq];
    exists (MProd s Free false), log, m, bps, (unqueue PT qc), qps;
    (split_and!; [by eapply minv_unqueue| |done]).
  - destruct Hq as (keys' & Hi' & Hin). destruct i as [|i].
    + injection Hi' as <-. unfold wake_by. cbn [s_mem s_bufs s_queue s_evs imap]. f_equal. f_equal.
      * unfold wake_one, unqueue. by rewrite !bool_decide_true, decide_True by done.
      * apply (wake_tail_producers 0 1). by eapply g_queues.
    + by destruct (g_queues _ _ _ _ _ _ _ _ _ _ _ Hi i keys' Hi').
  - unfold id. rewrite unqueue_none; [done|]. intros Hin. apply (Hq 0%nat). by exists qc.
Qed.

(** Blocking on the head. *)
Lemma wpm_wait (Q : Z → mprod + cons → Prop) v tm p :
  m_owe p = false → (∀ kr, Q kr (inl p)) → wpm (futex_wait CH v tm) Q p.
Proof.
  intros Ho HQ. assert (Hset : ∀ g keys (K : shared → mprod + cons → Prop),
    PT ∉ keys → (∀ s, K s (inl p)) → move MInv (S j) g (set_queue (S j) keys) K (inl p)).
  { intros g keys K Hn HK. apply mprod_move. intros q ps log t h m bc bps qc qps es b keys' Hi Hp Hb Hk _.
    exists p, log, m, bps, qc, (<[j := keys]> qps). rewrite list_insert_id by done.
    split_and!; [|done|apply HK]. destruct Hi. constructor; try done; [by rewrite length_insert|].
    intros i ks Hi. apply lookup_insert_cases in Hi as [[_ ->]|[? ?]]; [done|by eauto]. }
  assert (Hid : ∀ g (K : shared → mprod + cons → Prop), (∀ s, K s (inl p)) → move MInv (S j) g id K (inl p)).
  { intros g K HK ls s' Hl Hi _. exists (inl p). by rewrite list_insert_id. }
  split; [by intros; apply HQ|]. apply Hset; [cbn; set_solver|]. intros _.
  split; [apply Hset; [set_solver|by intros; apply HQ]|]. apply Hid. intros _.
  split; [done|]. split; [apply Hid; intros; apply HQ|]. intros kr. apply Hset; [set_solver|by intros; apply HQ].
Qed.

(** Drawing a position. *)
Lemma minv_claim q ps log t h m bc bps qc qps es s d b :
  minv q ps log t h m bc bps qc qps es → length d = DESC_WORDS →
  s ++ [d] `prefix_of` default [] (plan !! j) → ps !! j = Some (MProd s Free false) → bps !! j = Some b →
  minv q (<[j := MProd (s ++ [d]) (Claimed (T0 + Z.of_nat (length log)) d) false]> ps)
    (log ++ [(j, d)]) t h (upd m RES (m RES +32 1)) bc bps qc qps es.
Proof.
  intros Hi Hd Hpl Hp Hb. pose proof (minv_counters _ _ _ _ _ _ _ _ _ _ _ Hi) as (_ & _ & _ & ? & ? & ? & ? & ? & _).
  destruct (g_prods _ _ _ _ _ _ _ _ _ _ _ Hi j _ b Hp Hb) as [[Hc _] Hf]. destruct Hi.
  assert (Hnth : ∀ n, T0 <= n < t → nth_sent T0 (log ++ [(j, d)]).*2 n = nth_sent T0 log.*2 n).
  { intros n Hn. rewrite fmap_app. apply nth_sent_app. rewrite length_fmap. lia. }
  constructor; try done.
  - by rewrite length_insert.
  - by rewrite upd_other.
  - rewrite upd_same, g_res0, u32_add_l, length_app. f_equal. cbn. lia.
  - by rewrite upd_other.
  - eapply (chain_skip _ (λ y, y = CH)); [apply head_is_ext| |exact g_head0].
    intros y ->. by rewrite upd_other.
  - rewrite length_app. lia.
  - intros n k Hn Hk. rewrite upd_other, Hnth by (done || lia). by apply g_pub0.
  - intros k i d' Hk Ht. apply lookup_app_Some in Hk as [Hk|[Hle Hk]].
    + destruct (g_held0 k i d' Hk Ht) as (pi & Hpi & Hh). exists pi. split; [|done].
      rewrite list_lookup_insert_ne; [done|]. intros <-. by simplify_eq.
    + apply list_lookup_singleton_Some in Hk as [Hk [= <- <-]].
      exists (MProd (s ++ [d]) (Claimed (T0 + Z.of_nat (length log)) d) false).
      rewrite list_lookup_insert_eq by (by eapply lookup_lt_Some). split; [done|]. cbn. lia.
  - intros i pi bi Hpi Hbi. apply (pinv_mem _ _ _ m); [by intros; rewrite upd_other|].
    apply lookup_insert_cases in Hpi as [[<- ->]|[Hne Hpi]]; [|by eapply pinv_claim; eauto].
    simplify_eq. split; [split; [by rewrite claimed_by_snoc, decide_True, Hc|done]|]. cbn. split_and!; [done| |].
    + split; [lia|]. rewrite lookup_app_r by lia. by replace (_ - _)%nat with 0%nat by lia.
    + lia.
  - intros Ha. rewrite <- (g_armed0 Ha). by apply view_ext, upd_other.
  - intros Ha. destruct (g_asleep0 Ha). by rewrite upd_other.
  - intros Hth Hpk Hq. destruct (g_park0 Hth Hpk Hq) as [->|(i & pi & Hpi & Ho)]; [by left|right].
    exists i, pi. split; [|done]. rewrite list_lookup_insert_ne; [done|]. intros <-. by simplify_eq.
  - rewrite g_received0, fmap_app, take_app_le; [done|]. rewrite length_fmap. lia.
  - intros k v Hk. destruct (g_words0 k v Hk) as [? ->]. by rewrite Hnth by lia.
  - rewrite fmap_app. apply Forall_app. split; [done|]. by constructor.
  - apply Forall_app. split; [done|]. constructor; [|done]. cbn. apply lookup_lt_Some in Hp. lia.
Qed.
Lemma wpm_claim (Q : Z → mprod + cons → Prop) s d :
  length d = DESC_WORDS → s ++ [d] `prefix_of` default [] (plan !! j) →
  (∀ n, Q (u32 n) (inl (MProd (s ++ [d]) (Claimed n d) false))) →
  wpm (rmw RES (λ v, v +32 1)) Q (MProd s Free false).
Proof.
  intros Hd Hpl HQ. apply mprod_move. intros q ps log t h m bc bps qc qps es b keys Hi Hp Hb Hk _.
  eexists _, (log ++ [(j, d)]), (upd m RES (m RES +32 1)), bps, qc, qps.
  split_and!; [by eapply minv_claim|done|]. cbn [s_mem]. rewrite (g_res _ _ _ _ _ _ _ _ _ _ _ Hi). apply HQ.
Qed.
End producer_rules.

(** ** The producers' operations *)

Definition mhandle (ch : channel) : Prop :=
  chan ch = c ∧ ring_entries ch = re ∧ ring_mask ch = re - 1.

Lemma room_iff ch n h :
  mhandle ch → h <= n < h + 2 ^ 31 → mpsc_room ch (u32 n) (u32 h) ↔ n < h + re.
Proof.
  intros (_ & Hr & _) Hn. pose proof (@re_range re _). unfold mpsc_room.
  rewrite Hr, u32_sub_l, u32_sub_r, s32_u32, s32_small by lia. lia.
Qed.

Section producer_operations.
Context (j : nat) (ch : channel) (Hch : mhandle ch).
Abbreviation wpm := (wp MInv MParked (S j)).
Abbreviation wpn := (wpT MInv MParked (S j)).

Lemma wpm_spin k s n d l :
  waiting s n d l →
  wpm (mpsc_spin k (u32 n) ch)
    (λ r l, waiting s n d l ∧ (r = true → l = inl (MProd s (Writing n d 0) false))) l.
Proof.
  pose proof Hch as (Hc & _). revert l. induction k as [|k IH]; intros l Hl; [done|]. cbn [mpsc_spin]. rewrite Hc.
  apply wp_bind. eapply wpm_head; [exact Hl|]. intros h1 l1 _ Hl1 _. cbv zeta.
  apply wp_bind. eapply wpm_head; [exact Hl1|]. intros h2 l2 Hh2 Hl2 Hr2.
  case_decide as Hd; [|by apply IH]. destruct Hd as [Hd _]. rewrite room_iff in Hd by done.
  split; [done|]. intros _. by apply Hr2.
Qed.

Lemma wpm_sleep fuel s n d l :
  waiting s n d l →
  wpn (mpsc_sleep fuel (u32 n) ch) (λ _ l, l = inl (MProd s (Writing n d 0) false)) l.
Proof.
  pose proof Hch as (Hc & _). revert l. induction fuel as [|fuel IH]; intros l Hl; [done|].
  cbn [mpsc_sleep]. rewrite Hc.
  apply wpT_bind, wpT_plain. eapply wpm_head; [exact Hl|]. intros h1 l1 Hh1 Hl1 Hr1.
  case_decide as Hd; rewrite room_iff in Hd by done; [by apply Hr1|].
  apply wpT_bind, wpT_plain. eapply wpm_head; [exact Hl1|]. intros h2 l2 _ Hl2 _.
  assert (∃ p, l2 = inl p) as [p2 ->] by (destruct Hl2; eauto).
  apply wpT_bind, wpT_plain, wpm_store; [done|].
  apply wpT_bind, wpT_plain. eapply wpm_head; [exact Hl2|]. intros h3 l3 Hh3 Hl3 Hr3.
  case_decide as Hd3; rewrite room_iff in Hd3 by done; [by apply Hr3|].
  assert (∃ p, l3 = inl p ∧ m_owe p = false) as (p3 & -> & Ho) by (destruct Hl3; eauto).
  apply wpT_bind, wpT_plain, wpm_wait; [done|]. intros _. by apply IH.
Qed.

Lemma wpm_produce_wait fuel spin s d :
  length d = DESC_WORDS → s ++ [d] `prefix_of` default [] (plan !! j) →
  wpn (flipc2_produce_wait_mpsc fuel ch spin)
    (λ r l, ∃ n, r = (n mod re, u32 n) ∧ l = inl (MProd (s ++ [d]) (Writing n d 0) false))
    (inl (MProd s Free false)).
Proof.
  intros Hd Hpl. pose proof Hch as (Hc & _ & Hm). unfold flipc2_produce_wait_mpsc. rewrite Hc.
  apply wpT_bind, wpT_plain, (wpm_claim j _ _ d); [done..|]. intros n.
  apply wpT_bind, wpT_plain. eapply wp_mono; [|apply wpm_spin; by left].
  intros [] l [Hl Hr].
  - rewrite (Hr eq_refl). exists n. by rewrite idx_of.
  - apply wpT_bind. eapply wpT_mono; [|by apply wpm_sleep]. intros _ l' ->. exists n. by rewrite idx_of.
Qed.

Lemma wpm_write_desc s n d :
  wpm (write_desc ch (n mod re) d) (λ _ l, l = inl (MProd s (Writing n d DESC_WORDS) false))
    (inl (MProd s (Writing n d 0) false)).
Proof.
  pose proof Hch as (Hc & _). unfold write_desc. rewrite Hc.
  assert (Hgen : ∀ k w, (w + k = DESC_WORDS)%nat →
    wpm (foldr (λ j k, store (c, WORD (n mod re) j) (desc_word d j);; k) (mret tt) (seq w k))
      (λ _ l, l = inl (MProd s (Writing n d DESC_WORDS) false)) (inl (MProd s (Writing n d w) false))).
  { induction k as [|k IH]; intros w Hw; cbn [seq foldr]; [by replace w with DESC_WORDS by lia|].
    apply wp_bind, wpm_store_word; [done|lia|]. apply IH. lia. }
  by apply Hgen.
Qed.

Lemma wpm_turn fuel s n d :
  wpn (mpsc_turn fuel (u32 n) ch) (λ _ l, l = inl (MProd s (Turn n d) false))
    (inl (MProd s (Writing n d DESC_WORDS) false)).
Proof.
  pose proof Hch as (Hc & _). induction fuel as [|fuel IH]; [done|]. cbn [mpsc_turn]. rewrite Hc.
  apply wpT_bind, wpT_plain, wpm_load_tail.
  - by rewrite decide_True.
  - intros v Hv. by rewrite decide_False.
Qed.

Lemma wpm_doorbell s n :
  wpm (mpsc_doorbell ch (u32 n)) (λ _ l, l = inl (MProd s Free false)) (inl (MProd s Free true)).
Proof.
  pose proof Hch as (Hc & _). unfold mpsc_doorbell. rewrite Hc.
  assert (Hwake : ∀ o, wpm (futex_wake PT 1;; w ← load (c, WAKEUPS); store (c, WAKEUPS) (w +64 1))
    (λ _ l, l = inl (MProd s Free false)) (inl (MProd s Free o))).
  { intros o. apply wp_bind, wpm_wake, wp_bind, wpm_load. intros w. by apply wpm_store. }
  apply wp_bind, wpm_sleeping; [done|]. intros v Hv. rewrite decide_False by done.
  apply wp_bind, wpm_thresh; intros Hth; apply wp_bind, wpm_load; intros h.
  - rewrite decide_True by (by left). apply Hwake.
  - case_decide; [apply Hwake|done].
Qed.

Lemma wpm_commit fuel s n d :
  wpn (flipc2_produce_commit_mpsc fuel ch (u32 n)) (λ _ l, l = inl (MProd s Free false))
    (inl (MProd s (Writing n d DESC_WORDS) false)).
Proof.
  pose proof Hch as (Hc & _). unfold flipc2_produce_commit_mpsc.
  apply wpT_bind. eapply wpT_mono; [|apply wpm_turn]. intros _ l ->. apply wpT_plain. rewrite Hc.
  apply wp_bind, wpm_publish; [by rewrite u32_add_l|].
  apply wp_bind, wpm_load. intros total. apply wp_bind, wpm_store; [done|].
  apply wp_bind, wpm_mfence, wpm_doorbell.
Qed.

Lemma wpm_send fuel spin s d :
  length d = DESC_WORDS → s ++ [d] `prefix_of` default [] (plan !! j) →
  wpn (mpsc_send fuel spin ch d) (λ _ l, l = inl (MProd (s ++ [d]) Free false)) (inl (MProd s Free false)).
Proof.
  intros Hd Hpl. unfold mpsc_send. apply wpT_bind. eapply wpT_mono; [|by apply wpm_produce_wait].
  intros r l (n & -> & ->). apply wpT_bind, wpT_plain. eapply wp_mono; [|apply wpm_write_desc].
  intros _ l ->. apply wpm_commit.
Qed.

Lemma wpm_producer fuel spin s ds :
  Forall (λ d, length d = DESC_WORDS) ds → plan !! j = Some (s ++ ds) →
  wpn (mpsc_producer fuel spin ch ds) (λ _ l, l = inl (MProd (s ++ ds) Free false))
    (inl (MProd s Free false)).
Proof.
  intros Hds. revert s. induction Hds as [|d ds Hd _ IH]; intros s Hpl; [by rewrite app_nil_r|].
  rewrite cons_middle, app_assoc in Hpl.
  cbn [mpsc_producer]. apply wpT_bind. eapply wpT_mono; [|apply wpm_send; [done|]].
  { intros _ l ->. rewrite cons_middle, app_assoc. by apply IH. }
  rewrite Hpl. by exists ds.
Qed.
End producer_operations.

(** ** The consumer's steps *)

Lemma mcons_move g f (K : shared → mprod + cons → Prop) q :
  (∀ ps log t h m bc bps qc qps es, minv q ps log t h m bc bps qc qps es →
     g (Shared m (bc :: bps) (qc :: qps) es) →
     ∃ q' bc' qc' qps' es', minv q' ps log t h m bc' bps qc' qps' es' ∧
       f (Shared m (bc :: bps) (qc :: qps) es) = Shared m (bc' :: bps) (qc' :: qps') es' ∧
       K (Shared m (bc :: bps) (qc :: qps) es) (inr q')) →
  move MInv 0 g f K (inr q).
Proof.
  intros H ls s Hl (q0 & ps & log & t & h & m & bc & bps & qc & qps & es & -> & -> & Hi) Hg.
  injection Hl as ->. destruct (H _ _ _ _ _ _ _ _ _ _ Hi Hg) as (q' & bc' & qc' & qps' & es' & Hi' & Hf & HK).
  exists (inr q'). split; [|done]. by exists q', ps, log, t, h, m, bc', bps, qc', qps', es'.
Qed.

(** A word of the producers, as the consumer sees it. *)
Lemma mcons_view q ps log t h m bc bps qc qps es qs x :
  minv q ps log t h m bc bps qc qps es → ¬ cons_loc c x →
  view_of 0 (Shared m (bc :: bps) qs es) x = m x.
Proof. intros Hi Hx. apply view_other. eapply cons_loc_notin; [by eapply g_cons|done]. Qed.

Section consumer_rules.
Context {A : Type} (Q : A → mprod + cons → Prop).
Abbreviation wpc k Q q := (wp MInv MParked 0 k Q (inr q)).

Lemma mpsc_load x (k : Z → P A) q : (∀ v, wpc (k v) Q q) → wpc (load x ≫= k) Q q.
Proof.
  intros Hk. apply mcons_move. intros ps log t h m bc bps qc qps es Hi _.
  exists q, bc, qc, qps, es. split_and!; [done..|apply Hk].
Qed.

Lemma mpsc_load_head (k : Z → P A) q : wpc (k (u32 (c_head q))) Q q → wpc (load CH ≫= k) Q q.
Proof.
  intros Hk. apply mcons_move. intros ps log t h m bc bps qc qps es Hi _.
  exists q, bc, qc, qps, es. split_and!; [done..|].
  destruct (minv_counters _ _ _ _ _ _ _ _ _ _ _ Hi) as (_ & _ & Hv & _).
  unfold view_of. cbn. change (foldl _ m bc CH) with (view m bc CH). by rewrite Hv.
Qed.

Lemma mpsc_load_tail (k : Z → P A) q :
  (∀ t, c_known q <= t <= c_head q + re → wpc (k (u32 t)) Q (c_set_known t q)) →
  wpc (load PT ≫= k) Q q.
Proof.
  intros Hk. apply mcons_move. intros ps log t h m bc bps qc qps es Hi _.
  pose proof (minv_counters _ _ _ _ _ _ _ _ _ _ _ Hi) as (HPT & _ & _ & ? & ? & ? & ? & ? & ? & _).
  exists (c_set_known t q), bc, qc, qps, es. split_and!; [|done|].
  - destruct Hi. constructor; try done; [cbn; lia|].
    intros j v Hj. destruct (g_words0 j v Hj). cbn. split; [lia|done].
  - cbn beta. erewrite mcons_view; [|done|by intros []]. rewrite HPT. apply Hk. lia.
Qed.

Lemma mpsc_load_word s j (k : Z → P A) q :
  s = c_read q mod re → j = length (c_words q) → (j < DESC_WORDS)%nat → c_read q < c_known q →
  (∀ v, wpc (k v) Q (c_set_words (c_words q ++ [v]) q)) → wpc (load (c, WORD s j) ≫= k) Q q.
Proof.
  intros -> Hj Hlt Hr Hk. apply mcons_move. intros ps log t h m bc bps qc qps es Hi _.
  pose proof (minv_counters _ _ _ _ _ _ _ _ _ _ _ Hi) as (_ & _ & _ & ? & ? & ? & ? & ? & ? & _).
  set (v := m (c, WORD (c_read q mod re) j)).
  exists (c_set_words (c_words q ++ [v]) q), bc, qc, qps, es. split_and!; [|done|].
  - destruct Hi. constructor; try done. cbn.
    intros i w [Hw|[Hle Hw]]%lookup_app_Some; [by apply g_words0|].
    split; [done|]. apply list_lookup_singleton_Some in Hw as [Hi <-].
    replace i with j by lia. apply g_pub0; [lia|done].
  - cbn beta. erewrite mcons_view; [|done|by intros []]. apply Hk.
Qed.

(** A store of the consumer that is not the head's. *)
Lemma minv_cons_store q ps log t h m bc bps qc qps es x v b :
  minv q ps log t h m bc bps qc qps es → cons_loc c x → x ≠ CH → PT ∉ qc →
  (c_armed q = true → x ≠ CS) ∧ b = c_armed q ∨ x = CS ∧ b = bool_decide (v = 1) →
  minv (c_set_sleep b false q) ps log t h m (bc ++ [(x, v)]) bps qc qps es.
Proof.
  intros [] Hx Hne Hq Hb. constructor; try done.
  - rewrite fmap_app. apply Forall_app. split; [done|]. by constructor.
  - apply (chain_snoc _ _ _ _ (c_head q)); [done..|].
    apply chain_final in g_head0 as [? _]. unfold head_is. by rewrite upd_other.
  - intros Hr. cbn in Hr. rewrite view_snoc. destruct Hb as [[Hx1 ->]|[-> ->]].
    + rewrite decide_False; [by apply g_armed0|]. intros He. by apply Hx1.
    + rewrite decide_True by done. by apply bool_decide_eq_true in Hr.
Qed.

Lemma mpsc_store_total v (k : unit → P A) q :
  c_asleep q = false → wpc (k tt) Q q → wpc (store (c, CONS_TOTAL) v ≫= k) Q q.
Proof.
  intros Ha Hk. apply mcons_move. intros ps log t h m bc bps qc qps es Hi _.
  eexists q, (bc ++ [_]), qc, qps, es. split_and!; [|done..].
  assert (c_set_sleep (c_armed q) false q = q) as <- by (destruct q; cbn in Ha; by subst).
  apply minv_cons_store; [done..| |by left].
  intros Hq. apply (g_queue _ _ _ _ _ _ _ _ _ _ _ Hi) in Hq. congruence.
Qed.

(** Setting and clearing the flag. *)
Lemma mpsc_store_sleeping v (k : unit → P A) q :
  wpc (k tt) Q (c_set_sleep (bool_decide (v = 1)) false q) → wpc (store CS v ≫= k) Q q.
Proof.
  intros Hk. apply mcons_move. intros ps log t h m bc bps qc qps es Hi Hrun.
  unfold running in Hrun. cbn in Hrun. injection Hrun as ->.
  eexists (c_set_sleep _ false q), (bc ++ [_]), [], qps, es. split_and!; [|done..].
  apply minv_cons_store; [done..|apply not_elem_of_nil|by right].
Qed.

Lemma mpsc_release v n (k : unit → P A) q :
  v = u32 (c_head q + n) → 0 <= n → c_head q + n <= c_read q → c_asleep q = false →
  wpc (k tt) Q (c_release n q) → wpc (store CH v ≫= k) Q q.
Proof.
  intros -> Hn Hle Ha Hk. apply mcons_move. intros ps log t h m bc bps qc qps es Hi _.
  eexists (c_release n q), (bc ++ [_]), qc, qps, es. split_and!; [|done..].
  destruct Hi. constructor; try done.
  - rewrite fmap_app. apply Forall_app. split; [done|]. by constructor.
  - apply (chain_snoc _ _ _ _ (c_head q)); [done|cbn; lia|]. unfold head_is. by rewrite upd_same.
  - cbn. lia.
  - intros i j Hi Hj. cbn in Hi. apply g_pub0; [lia|done].
  - intros Hr. rewrite view_snoc, decide_False by done. by apply g_armed0.
  - cbn. congruence.
  - intros _ _ Hq. apply g_queue0 in Hq. congruence.
Qed.

(** After the fence an armed consumer is asleep as far as the producers can tell. *)
Lemma mpsc_mfence (k : unit → P A) q :
  c_armed q = true → wpc (k tt) Q (c_set_sleep true true q) → wpc (mfence ≫= k) Q q.
Proof.
  intros Ha Hk. apply mcons_move. intros ps log t h m bc bps qc qps es Hi [Hd _].
  cbn in Hd. injection Hd as ->. exists (c_set_sleep true true q), [], qc, qps, es. split_and!; [|done..].
  destruct Hi. constructor; try done; intros _; [by apply g_armed0|]. split; [done|by apply g_armed0].
Qed.

Lemma mpsc_wake n (k : unit → P A) q : n ≠ 1 → wpc (k tt) Q q → wpc (futex_wake CH n ≫= k) Q q.
Proof.
  intros Hn Hk. cbn. rewrite decide_True by done. apply mcons_move.
  intros ps log t h m bc bps qc qps es Hi [_ Hrun]. unfold running in Hrun. cbn in Hrun. injection Hrun as ->.
  set (qps' := imap (λ i (keys : list loc), if wake_all CH (S i) keys then [] else keys) qps).
  exists q, bc, [], qps', es. split_and!; [| |done].
  - destruct Hi. constructor; try done; [unfold qps'; by rewrite length_imap|].
    intros i keys Hi. unfold qps' in Hi. rewrite list_lookup_imap in Hi.
    apply fmap_Some in Hi as (ks & Hks & ->). destruct (wake_all _ _ _); [apply not_elem_of_nil|by eauto].
  - unfold wake_by. cbn. by destruct (wake_all _ 0 []).
Qed.

(** Blocking on the tail. *)
Lemma minv_parked q ps log t h m bc bps qc qps es b keys :
  minv q ps log t h m bc bps qc qps es →
  (PT ∈ keys → c_asleep q = true) → (b = true → PT ∈ keys → t = c_head q) →
  minv (c_set_parked b q) ps log t h m bc bps keys qps es.
Proof.
  intros [] Hs Hb. constructor; try done. intros _ Hpk Hq. left. by apply Hb.
Qed.

Lemma mpsc_futex_wait v tm (k : Z → P A) q :
  v = u32 (c_head q) → c_asleep q = true → c_read q = c_head q →
  (∀ kr b, wpc (k kr) Q (c_set_parked b q)) → wpc (futex_wait PT v tm ≫= k) Q q.
Proof.
  intros -> Ha Hrd Hk. split.
  { intros kr _ _. specialize (Hk kr (c_parked q)). by destruct q. }
  assert (Hset : ∀ g keys b (K : shared → mprod + cons → Prop),
    b = false ∨ keys = [] → (∀ s, K s (inr (c_set_parked b q))) →
    ∀ q0 b0, q0 = c_set_parked b0 q → move MInv 0 g (set_queue 0 keys) K (inr q0)).
  { intros g keys b K Hb HK q0 b0 ->. apply mcons_move. intros ps log t h m bc bps qc qps es Hi _.
    exists (c_set_parked b q), bc, keys, qps, es. split_and!; [|done|apply HK].
    apply (minv_parked _ _ _ _ _ _ _ _ _ _ _ b keys Hi); [done|].
    intros -> Hq. destruct Hb as [? | ->]; [done|by apply not_elem_of_nil in Hq]. }
  apply (Hset _ _ false) with (b0 := c_parked q); [by left| |by destruct q]. intros s0. split.
  { apply (Hset _ _ false) with (b0 := false); [by right| |done]. intros. apply Hk. }
  apply mcons_move. intros ps log t h m bc bps qc qps es Hi Hm. cbn in Hm.
  exists (c_set_parked true q), bc, qc, qps, es. split_and!; [|done|].
  - pose proof (minv_counters _ _ _ _ _ _ _ _ _ _ _ Hi) as (HPT & _ & _ & ? & ? & ? & ? & ? & ? & _).
    apply (minv_parked _ _ _ _ _ _ _ _ _ _ _ true qc Hi); [done|]. intros _ _. cbn in *.
    pose proof (@re_range re _). symmetry. apply u32_inj; [|lia]. congruence.
  - split; [done|]. split.
    + apply mcons_move. intros ps' log' t' h' m' bc' bps' qc' qps' es' Hi' _.
      exists (c_set_parked true q), bc', qc', qps', es'. split_and!; [by destruct q|done|apply Hk].
    + intros kr. apply (Hset _ _ true) with (b0 := true); [by right| |done]. intros. apply Hk.
Qed.

Lemma mpsc_note (k : unit → P A) q d :
  d = c_words q → length d = DESC_WORDS → wpc (k tt) Q (c_next q) →
  wpc (note (Received c d) ≫= k) Q q.
Proof.
  intros -> Hlen Hk. apply mcons_move. intros ps log t h m bc bps qc qps es Hi _.
  pose proof (minv_counters _ _ _ _ _ _ _ _ _ _ _ Hi) as (_ & _ & _ & ? & ? & ? & ? & ? & ? & _).
  exists (c_next q), bc, qc, qps, (es ++ [Received c (c_words q)]). split_and!; [|done..].
  destruct Hi. destruct (lookup_lt_is_Some_2 (c_words q) 0) as [v0 Hv0]; [rewrite Hlen; unfold DESC_WORDS; lia|].
  destruct (g_words0 0%nat v0 Hv0) as [Hr _].
  destruct (lookup_lt_is_Some_2 log.*2 (Z.to_nat (c_read q - T0))) as [d Hd]; [rewrite length_fmap; lia|].
  assert (Hw : c_words q = d).
  { apply list_eq_same_length with DESC_WORDS; [|done|].
    - by eapply Forall_lookup_1 in g_whole0.
    - intros i x y _ Hx Hy. destruct (g_words0 i x Hx) as [_ ->].
      unfold nth_sent. rewrite Hd. unfold desc_word. cbn. by rewrite Hy. }
  constructor; try done; cbn.
  - lia.
  - unfold received in *. rewrite omap_app, g_received0. cbn. rewrite decide_True by done.
    replace (Z.to_nat (c_read q + 1 - T0)) with (S (Z.to_nat (c_read q - T0))) by lia.
    by rewrite (take_S_r _ _ d Hd), Hw.
Qed.
End consumer_rules.

#[local] Instance mpsc_consumer_side : ConsumerSide c re MInv MParked 0 inr.
Proof.
  constructor; intros; eauto using mpsc_load, mpsc_load_head, mpsc_load_tail, mpsc_load_word,
    mpsc_store_total, mpsc_release, mpsc_store_sleeping, mpsc_mfence, mpsc_wake, mpsc_futex_wait, mpsc_note.
Qed.

(** ** Runs *)

(** A channel whose counters are level at position [T0], with handles that know it;
    the consumer's handle has its cached tail. *)
Definition mlevel (m : loc → Z) : Prop :=
  m PT = u32 T0 ∧ m CH = u32 T0 ∧ m RES = u32 T0 ∧ m TH = th.
Definition sender_ok (p : psender) : Prop :=
  mhandle (ps_chan p) ∧ Forall (λ d, length d = DESC_WORDS) (ps_descs p).

(** What holds when a thread returns: a producer has drawn a position for all that it
    has to send, and owes nothing. *)
Definition mdone (i : nat) (r : option unit) (l : mprod + cons) : Prop :=
  match r, i with
  | Some _, S j => ∃ ds, plan !! j = Some ds ∧ l = inl (MProd ds Free false)
  | _, _ => True
  end.

Lemma mpsc_start_sound m chc cs ps :
  mlevel m → handle_at c re T0 chc → Forall sender_ok ps → plan = ps_descs <$> ps →
  ∃ ls, sound MInv MParked mdone ls (mpsc_start m chc cs ps).
Proof.
  intros (HPT & HCH & HRES & HTH) (? & ? & ? & ? & ?) Hps Hplan. pose proof (@re_range re _).
  set (q := Cons T0 T0 T0 [] false false false). set (p := MProd [] Free false).
  assert (Hlen : np = length ps) by (rewrite Hplan; apply length_fmap).
  exists (inr q :: (inl <$> replicate np p)). split_and!.
  - exists q, (replicate np p), [], T0, T0, m, [], (replicate np []), [], (replicate np []), [].
    split_and!; [done| |].
    + unfold shared_of, mpsc_start. cbn [memory threads events fmap list_fmap buf queue_of st].
      rewrite Hlen. by rewrite <- !list_fmap_compose, !(const_fmap _ ps []).
    + constructor; try done; cbn; try lia; try (intros Hin; by apply not_elem_of_nil in Hin).
      * by rewrite !length_replicate.
      * rewrite HRES. f_equal. lia.
      * intros n j Hn. lia.
      * intros j p' b [-> _]%lookup_replicate [-> _]%lookup_replicate. split; [|by constructor].
        split; [done|apply prefix_nil].
      * intros j keys [-> _]%lookup_replicate. apply not_elem_of_nil.
      * by rewrite take_nil.
  - cbn [length threads mpsc_start]. by rewrite !length_fmap, length_replicate, Hlen.
  - intros [|j] t l Hi Hl.
    + cbn in Hi, Hl. simplify_eq. cbn [st wp_st]. apply wpT_plain, wp_bind.
      eapply wp_mono; [|apply (wpc_consumer c re MInv MParked 0 inr); split_and!; try done]; [done|].
      exists T0. cbn. split_and!; [lia..|done].
    + cbn [threads mpsc_start] in Hi. rewrite lookup_cons, list_lookup_fmap in Hi.
      change ((@inl mprod cons <$> replicate np p) !! j = Some l) in Hl. rewrite list_lookup_fmap in Hl.
      destruct (ps !! j) as [x|] eqn:Hx; [|done]. cbn in Hi. simplify_eq. apply fmap_Some in Hl as (p' & [-> _]%lookup_replicate & ->).
      destruct (Forall_lookup_1 _ _ _ _ Hps Hx) as [Hh Hd]. cbn [st wp_st].
      eapply wp_mono; [|apply (wpm_producer j (ps_chan x) Hh _ _ [] (ps_descs x) Hd)].
      * intros [[]|] l Hl; [|done]. cbn in Hl |- *. subst l. exists (ps_descs x). split; [|done].
        by rewrite Hplan, list_lookup_fmap, Hx.
      * by rewrite Hplan, list_lookup_fmap, Hx.
Qed.

Lemma mpsc_reachable m chc cs ps s :
  mlevel m → handle_at c re T0 chc → Forall sender_ok ps → plan = ps_descs <$> ps →
  rtc step (mpsc_start m chc cs ps) s → ∃ ls, sound MInv MParked mdone ls s.
Proof.
  intros H1 H2 H3 H4 Hr. destruct (mpsc_start_sound m chc cs ps H1 H2 H3 H4) as [ls Hs].
  eapply sound_reachable; [apply mpsc_flush|exact Hs|exact Hr].
Qed.

(** A thread that has returned. *)
Definition returned (t : @thread loc event (option unit)) : bool :=
  match st t with Run (Ret (Some _)) => true | _ => false end.
(** A thread that does nothing more by itself: it has returned, or it blocks. *)
Definition resting (t : @thread loc event (option unit)) : bool :=
  match st t with Run (Ret (Some _)) | Wait _ [] _ _ _ => true | _ => false end.

(** The ghost state of producer [j] when its thread does nothing more. *)
Lemma resting_producer ls s j t p :
  sound MInv MParked mdone ls s → threads s !! S j = Some t → ls !! S j = Some (inl p) →
  resting t = true → m_owe p = false ∧ (returned t = true → plan !! j = Some (m_sent p)).
Proof.
  intros (_ & _ & Hts) Ht Hl Hr. specialize (Hts (S j) t (inl p) Ht Hl). unfold resting, returned in *.
  destruct (st t) as [[[[]|]|?|?|?|?|?|?|?]|? [] ? ? ?]; try done; cbn in Hts.
  - destruct Hts as (ds & Hpl & [= ->]). done.
  - by destruct Hts as (_ & ? & _).
Qed.

Lemma producer_state ls s j :
  sound MInv MParked mdone ls s → (j < np)%nat → ∃ p, ls !! S j = Some (inl p).
Proof.
  intros ((q & ps & log & t & h & m & bc & bps & qc & qps & es & -> & _ & Hi) & _) Hj.
  destruct (g_len _ _ _ _ _ _ _ _ _ _ _ Hi) as [Hl _].
  destruct (lookup_lt_is_Some_2 ps j) as [p Hp]; [lia|]. exists p.
  change ((@inl mprod cons <$> ps) !! j = Some (inl p)). by rewrite list_lookup_fmap, Hp.
Qed.
End mpsc.

(** C7. A channel with several producers delivers every descriptor once.  Start from
    a channel whose counters are level, and let any number of producers (below 2^30)
    each send a list of descriptors with [flipc2_produce_wait_mpsc] and
    [flipc2_produce_commit_mpsc] while a consumer makes any sequence of requests.  In
    every configuration that x86 memory with store buffers can reach there is an
    order of the descriptors sent so far such that: what the consumer has received is
    its beginning, whole and in order; the part that comes from each producer is the
    beginning of that producer's list, and all of it once the producer has returned;
    nothing comes from anywhere else; and no more than the ring and one per producer
    are under way. *)
Theorem mpsc_exactly_once c re th T0 m chc cs ps s :
  (∃ e, 0 <= e <= 14 ∧ re = 2 ^ e) → Z.of_nat (length ps) < 2 ^ 30 →
  mlevel c th T0 m → handle_at c re T0 chc → Forall (sender_ok c re) ps →
  rtc step (mpsc_start m chc cs ps) s →
  ∃ log : list (nat * desc),
    received c (events s) `prefix_of` log.*2 ∧
    (∀ j p, ps !! j = Some p → claimed_by j log `prefix_of` ps_descs p ∧
       (returned <$> threads s !! S j = Some true → claimed_by j log = ps_descs p)) ∧
    Forall (λ e, (e.1 < length ps)%nat) log ∧
    Z.of_nat (length log) <= Z.of_nat (length (received c (events s))) + re + Z.of_nat (length ps).
Proof.
  intros Hre Hnp Hm Hc Hps Hr. set (plan := ps_descs <$> ps).
  assert (Hlen : length plan = length ps) by apply length_fmap. rewrite <- Hlen in Hnp.
  destruct (mpsc_reachable c re th T0 plan (Hsize := Hre) Hnp m chc cs ps s Hm Hc Hps eq_refl Hr) as (ls & Hs).
  pose proof Hs as ((q & gs & log & t & h & m' & bc & bps & qc & qps & es & -> & Hsh & Hi) & _).
  destruct (minv_counters _ _ _ _ _ _ _ _ _ _ _ _ _ _ _ _ Hi) as (_ & _ & _ & ? & ? & ? & ? & ? & ? & ?).
  assert (Hes : events s = es) by (by injection Hsh). rewrite Hes.
  exists log. split_and!.
  - rewrite (g_received _ _ _ _ _ _ _ _ _ _ _ _ _ _ _ _ Hi). apply prefix_take.
  - intros j p Hp. pose proof (lookup_lt_Some _ _ _ Hp).
    assert (Hpl : plan !! j = Some (ps_descs p)) by (unfold plan; by rewrite list_lookup_fmap, Hp).
    destruct (lookup_lt_is_Some_2 gs j) as [g Hg]; [destruct (g_len _ _ _ _ _ _ _ _ _ _ _ _ _ _ _ _ Hi); lia|].
    destruct (lookup_lt_is_Some_2 bps j) as [b Hb]; [destruct (g_len _ _ _ _ _ _ _ _ _ _ _ _ _ _ _ _ Hi); lia|].
    destruct (g_prods _ _ _ _ _ _ _ _ _ _ _ _ _ _ _ _ Hi j g b Hg Hb) as [[-> Hpre] _].
    rewrite Hpl in Hpre. split; [done|]. intros (tj & Ht & Hret)%fmap_Some. symmetry in Hret.
    destruct (resting_producer c re th T0 plan _ s j tj g Hs Ht) as [_ Hd].
    + change ((@inl mprod cons <$> gs) !! j = Some (inl g)). by rewrite list_lookup_fmap, Hg.
    + unfold resting, returned in *. by destruct (st tj) as [[[]|?|?|?|?|?|?|?]|].
    + specialize (Hd Hret). congruence.
  - rewrite <- Hlen. apply (g_from _ _ _ _ _ _ _ _ _ _ _ _ _ _ _ _ Hi).
  - rewrite (g_received _ _ _ _ _ _ _ _ _ _ _ _ _ _ _ _ Hi), length_take, length_fmap. lia.
Qed.

(** C8. No wake-up of a consumer with several producers is lost.  In every reachable
    configuration, if the consumer blocks on the tail and no one has woken it, and
    no producer has anything left to do (each has returned from its last call, or
    blocks itself), then the ring is empty.  The threshold of the doorbell is the
    default. *)
Theorem mpsc_wakeup_not_lost c re th T0 m chc cs ps s :
  (∃ e, 0 <= e <= 14 ∧ re = 2 ^ e) → Z.of_nat (length ps) < 2 ^ 30 → th <= 1 →
  mlevel c th T0 m → handle_at c re T0 chc → Forall (sender_ok c re) ps →
  rtc step (mpsc_start m chc cs ps) s →
  (∀ j, (j < length ps)%nat → resting <$> threads s !! S j = Some true) →
  blocked_on (c, PROD_TAIL) <$> threads s !! 0%nat = Some true →
  flipc2_ring_count (memory s (c, PROD_TAIL)) (memory s (c, CONS_HEAD)) = 0.
Proof.
  intros Hre Hnp Hth Hm Hc Hps Hr Hidle (tc & Htc & Hst)%fmap_Some. set (plan := ps_descs <$> ps).
  assert (Hlen : length plan = length ps) by apply length_fmap. rewrite <- Hlen in Hnp.
  destruct (mpsc_reachable c re th T0 plan (Hsize := Hre) Hnp m chc cs ps s Hm Hc Hps eq_refl Hr) as (ls & Hs).
  pose proof Hs as ((q & gs & log & t & h & m' & bc & bps & qc & qps & es & -> & Hsh & Hi) & _ & Hts).
  destruct (g_len _ _ _ _ _ _ _ _ _ _ _ _ _ _ _ _ Hi) as [Hgs _].
  specialize (Hts 0%nat tc (inr q) Htc eq_refl).
  assert (Hqc : queue_of tc = qc).
  { destruct (threads s) as [|t0 ts] eqn:Et; [done|]. cbn in Htc. simplify_eq.
    unfold shared_of in Hsh. rewrite Et in Hsh. by injection Hsh. }
  assert (Hmem : memory s = m') by (by injection Hsh). rewrite Hmem.
  unfold blocked_on in Hst. unfold queue_of in Hqc. destruct (st tc) as [|keys [|] [] timed k]; try done.
  cbn in Hts. destruct Hts as (_ & Hpark & _). symmetry in Hst. apply bool_decide_eq_true in Hst as Hq.
  subst keys. destruct Hi. destruct (g_park0 Hth Hpark Hq) as [-> |(j & g & Hg & Howe)].
  - destruct (g_asleep0 (g_queue0 Hq)) as [-> _]. destruct g_head0 as [Hh ->].
    unfold flipc2_ring_count. rewrite g_tail0, Hh. by rewrite Z.sub_diag.
  - pose proof (lookup_lt_Some _ _ _ Hg).
    destruct (fmap_Some_1 _ _ _ (Hidle j ltac:(lia))) as (tj & Htj & Hrest).
    destruct (resting_producer c re th T0 plan _ s j tj g Hs Htj) as [Hn _]; [|done|congruence].
    change ((@inl mprod cons <$> gs) !! j = Some (inl g)). by rewrite list_lookup_fmap, Hg.
Qed.
