(* ===== verification/FlipcMpscRuns.v ===== *)
(** * FLIPC channels: runs with several producers

    Schedules of FlipcMpsc.v's clients: three threads across the wrap of the
    counters, a consumer that sleeps on an empty ring, and two producers that lose
    an update of the statistics. *)

From S2P Require Import Prelude Mach Tso FlipcRing FlipcConsumer FlipcSpsc FlipcRuns FlipcMpsc.

Definition mring16 (T0 : Z) : loc → Z := λ x,
  match x.2 with PROD_TAIL | PROD_RESERVED | CONS_HEAD => u32 T0 | WAKEUP_THRESH => 1 | _ => 0 end.
Definition sender16 (T0 : Z) (ds : list Z) : psender := PSender 5 1 (chan16 T0) (a_desc <$> ds).
Definition mstart16 (T0 : Z) (cs : list creq) (ps : list (list Z)) : config :=
  mpsc_start (mring16 T0) (chan16 T0) cs (sender16 T0 <$> ps).

Lemma mring16_ok T0 : mlevel 0 1 T0 (mring16 T0).
Proof. done. Qed.
Lemma sender16_ok T0 ps : Forall (sender_ok 0 16) (sender16 T0 <$> ps).
Proof.
  apply Forall_fmap, Forall_true. intros ds. split; [done|]. apply Forall_fmap, Forall_true. done.
Qed.

(** Two producers draw positions in the order 0, 1, 1, 0; the second fills its slot
    first and waits for the first. *)
Definition merge_start : config := mstart16 4294967295 (replicate 4 (GetWait 1)) [[10; 11]; [20; 21]].
Definition merge_run : config :=
  drive 500 0 (drive 500 1 (drive 100 2 (drive 40 1 (drive 20 2 (drive 3 1 merge_start))))).

Lemma merge_run_steps : rtc step merge_start merge_run.
Proof. unfold merge_run. do 5 (etransitivity; [|apply drive_steps]). apply drive_steps. Qed.

Lemma mpsc_exactly_once_witness :
  received 0 (events merge_run) = a_desc <$> [10; 20; 21; 11] ∧
  (returned <$> threads merge_run) = [true; true; true] ∧
  ∃ log : list (nat * desc), received 0 (events merge_run) `prefix_of` log.*2 ∧
    claimed_by 0 log = a_desc <$> [10; 11] ∧ claimed_by 1 log = a_desc <$> [20; 21].
Proof.
  split_and!; [by vm_compute..|].
  destruct (mpsc_exactly_once 0 16 1 4294967295 (mring16 _) (chan16 _) (replicate 4 (GetWait 1))
    (sender16 4294967295 <$> [[10; 11]; [20; 21]]) merge_run sixteen ltac:(done) (mring16_ok _)
    (proj2 (ring16_ok _)) (sender16_ok _ _) merge_run_steps) as (log & Hp & Hj & _).
  exists log. split; [exact Hp|]. split.
  - apply (Hj 0%nat _ eq_refl). by vm_compute.
  - apply (Hj 1%nat _ eq_refl). by vm_compute.
Defined.

(** The consumer takes what one of two producers has sent, and sleeps. *)
Definition nap_start : config := mstart16 0 [GetTry; GetWait 1] [[1]; []].
Definition nap_run : config := drive 200 0 (drive 100 2 (drive 200 1 nap_start)).

Lemma mpsc_wakeup_not_lost_witness :
  blocked_on (0%nat, PROD_TAIL) <$> threads nap_run !! 0%nat = Some true ∧
  flipc2_ring_count (memory nap_run (0%nat, PROD_TAIL)) (memory nap_run (0%nat, CONS_HEAD)) = 0.
Proof.
  split; [by vm_compute|].
  assert (Hr : rtc step nap_start nap_run).
  { unfold nap_run. do 2 (etransitivity; [|apply drive_steps]). apply drive_steps. }
  refine (mpsc_wakeup_not_lost 0 16 1 0 (mring16 _) (chan16 _) [GetTry; GetWait 1]
    (sender16 0 <$> [[1]; []]) nap_run sixteen ltac:(done) ltac:(done) (mring16_ok _)
    (proj2 (ring16_ok _)) (sender16_ok _ _) Hr _ _).
  - intros [|[|j]] Hj; [by vm_compute..|cbn in Hj; lia].
  - by vm_compute.
Defined.

(** Each producer adds to [prod_total] with a load and a store after it has let the
    next one publish: two producers may read the same count.  Here both have
    returned and two descriptors are published, and the count says one. *)
Definition total_run : config :=
  drive 200 1 (drive 200 2 (drive 39 1 (mstart16 0 [] [[1]; [2]]))).

Theorem total_undercounts :
  ∃ s, rtc step (mstart16 0 [] [[1]; [2]]) s ∧
    (returned <$> threads s) = [true; true; true] ∧ (buf <$> threads s) = [[]; []; []] ∧
    memory s (0%nat, PROD_TAIL) = 2 ∧ memory s (0%nat, PROD_TOTAL) = 1.
Proof.
  exists total_run. split.
  - unfold total_run. do 2 (etransitivity; [|apply drive_steps]). apply drive_steps.
  - by vm_compute.
Qed.
