(* ===== verification/FlipcPoll.v ===== *)
(** * FLIPC pollsets

    libflipc2/flipc2_pollset.c: a consumer that waits on several channels at once.
    A pollset is the array of the handles added to it, a handle being its address;
    [flipc2_poll] is a program of the machine in Tso.v. *)

From S2P Require Import Prelude Mach Tso FlipcRing FlipcConsumer FlipcSpsc FlipcRuns.

Definition FLIPC2_POLLSET_MAX_CHANNELS : nat := 16.

(** ** The set of channels *)

(** struct flipc2_pollset: [channels[0 .. n_channels - 1]]. *)
Abbreviation pollset := (list Z).

Definition flipc2_pollset_add (ch : Z) (ps : pollset) : Z * pollset :=
  if decide (ch = 0) then (FLIPC2_ERR_INVALID_ARGUMENT, ps)
  else if decide (FLIPC2_POLLSET_MAX_CHANNELS <= length ps)%nat
  then (FLIPC2_ERR_RESOURCE_SHORTAGE, ps)
  else if decide (ch ∈ ps) then (FLIPC2_ERR_ALREADY_CONNECTED, ps)
  else (FLIPC2_SUCCESS, ps ++ [ch]).

(** The last channel takes the place of the removed one. *)
Definition flipc2_pollset_remove (ch : Z) (ps : pollset) : Z * pollset :=
  if decide (ch = 0) then (FLIPC2_ERR_INVALID_ARGUMENT, ps)
  else
    match find_slot (λ x, x = ch) ps with
    | Some i => (FLIPC2_SUCCESS, take (length ps - 1) (<[i := default 0 (ps !! (length ps - 1)%nat)]> ps))
    | None => (FLIPC2_ERR_NOT_CONNECTED, ps)
    end.

Definition pollset_ok (ps : pollset) : Prop :=
  NoDup ps ∧ (length ps <= FLIPC2_POLLSET_MAX_CHANNELS)%nat ∧ 0 ∉ ps.

(** ** Waiting *)

Section poll.
Context (deref : Z → channel).

(** The channels with something to read, at most [max] of them. *)
Fixpoint flipc2_pollset_scan (ps : pollset) (max : nat) : P (list Z) :=
  match ps, max with
  | a :: ps, S max' =>
      head ← load (chan (deref a), CONS_HEAD);
      tail ← load (chan (deref a), PROD_TAIL);
      if decide (tail = head) then flipc2_pollset_scan ps max
      else evs ← flipc2_pollset_scan ps max'; mret (a :: evs)
  | _, _ => mret []
  end.

Fixpoint set_sleeping (ps : pollset) (v : Z) : P unit :=
  match ps with
  | [] => mret tt
  | a :: ps => store (chan (deref a), CONS_SLEEPING) v;; set_sleeping ps v
  end.

(** The words to wait on, each with the value it has now. *)
Fixpoint poll_waiters (ps : pollset) : P (list (loc * Z)) :=
  match ps with
  | [] => mret []
  | a :: ps =>
      v ← load (chan (deref a), PROD_TAIL);
      ws ← poll_waiters ps;
      mret (((chan (deref a), PROD_TAIL), v) :: ws)
  end.

Definition flipc2_poll (ps : pollset) (max_events : Z) (timeout_ms : Z) : P (Z * list Z) :=
  if decide (max_events <= 0) then mret (FLIPC2_ERR_INVALID_ARGUMENT, [])
  else
    let max := Z.to_nat max_events in
    let reply evs := mret (Z.of_nat (length evs), evs) in
    evs ← flipc2_pollset_scan ps max;
    if decide (evs ≠ []) then reply evs
    else if decide (timeout_ms = 0 ∨ ps = []) then mret (0, [])
    else
      set_sleeping ps 1;;
      mfence;;
      evs ← flipc2_pollset_scan ps max;
      if decide (evs ≠ []) then set_sleeping ps 0;; reply evs
      else
        ws ← poll_waiters ps;
        futex_waitv ws (bool_decide (timeout_ms ≠ 4294967295));;
        set_sleeping ps 0;;
        evs ← flipc2_pollset_scan ps max;
        reply evs.
End poll.

(** ** The set *)

(** Removing position [i] by moving the last element there. *)
Lemma swap_remove_perm (ps : pollset) i x :
  ps !! i = Some x →
  x :: take (length ps - 1) (<[i := default 0 (ps !! (length ps - 1)%nat)]> ps) ≡ₚ ps.
Proof.
  intros Hi. apply lookup_lt_Some in Hi as Hlt. set (n := (length ps - 1)%nat).
  destruct (lookup_lt_is_Some_2 ps n) as [y Hy]; [lia|]. rewrite Hy. cbn [default from_option].
  assert (Hps : ps = take n ps ++ [y]).
  { rewrite <- (take_S_r _ _ _ Hy). rewrite take_ge by lia. done. }
  destruct (decide (i = n)) as [->|Hne].
  - rewrite take_insert_ge by lia. rewrite Hi in Hy. injection Hy as ->.
    rewrite Hps at 2. by rewrite Permutation_cons_append.
  - rewrite take_insert_lt by lia.
    assert (Hi' : take n ps !! i = Some x) by (by rewrite lookup_take_lt by lia).
    rewrite insert_take_drop by (rewrite length_take; lia).
    rewrite Hps at 3. rewrite <- (take_drop_middle _ _ _ Hi') at 3.
    rewrite <- app_assoc. cbn. rewrite Permutation_middle. f_equiv.
    f_equiv. apply Permutation_cons_append.
Qed.

(** What an operation [op] on the set means: success exactly under [pre], and then
    the members are those of [members]. *)
Definition set_op (ps : pollset) (op : Z * pollset) (pre : Prop) (members : Z → Prop) : Prop :=
  pollset_ok op.2 ∧ (op.1 = FLIPC2_SUCCESS ↔ pre) ∧
  (pre → ∀ x, x ∈ op.2 ↔ members x) ∧ (¬ pre → op.2 = ps).

(** A pollset is a set of at most sixteen handles.  Adding succeeds exactly for
    a handle that is not null, not in the set, while there is room, and puts it in;
    removing succeeds exactly for a member and takes it out, whatever its place in
    the array; a request that fails changes nothing; and the array never holds a
    handle twice. *)
Theorem pollset_refines_set ps ch :
  pollset_ok ps →
  set_op ps (flipc2_pollset_add ch ps)
    (ch ≠ 0 ∧ (ch ∉ ps) ∧ (length ps < FLIPC2_POLLSET_MAX_CHANNELS)%nat) (λ x, x ∈ ps ∨ x = ch) ∧
  set_op ps (flipc2_pollset_remove ch ps) (ch ∈ ps) (λ x, x ∈ ps ∧ x ≠ ch).
Proof.
  intros Hok. pose proof Hok as (Hnd & Hlen & H0). unfold set_op, pollset_ok. split.
  - unfold flipc2_pollset_add. case_decide; [split_and!; cbn; naive_solver|].
    case_decide; [split_and!; cbn; naive_solver lia|].
    case_decide; [split_and!; cbn; naive_solver|]. split_and!; cbn.
    + apply list.NoDup_app. split_and!; [done|set_solver|apply list.NoDup_singleton].
    + rewrite length_app. cbn. lia.
    + set_solver.
    + split; [|done]. intros _. split_and!; [done..|lia].
    + intros _ x. rewrite elem_of_app, list_elem_of_singleton. done.
    + intros []. split_and!; [done..|lia].
  - unfold flipc2_pollset_remove. case_decide as Hch; [subst ch; split_and!; cbn; naive_solver|].
    destruct (find_slot (λ x, x = ch) ps) as [i|] eqn:Hf; cycle 1.
    { assert (ch ∉ ps); [|split_and!; cbn; naive_solver].
      intros [i Hi]%list_elem_of_lookup. by eapply find_slot_None in Hf. }
    apply find_slot_Some in Hf as (x & Hi & -> & _). pose proof (swap_remove_perm ps i ch Hi) as Hp.
    cbn. remember (take _ _) as pr eqn:Epr. clear Epr.
    assert (Hm : ∀ x, x ∈ ps ↔ x = ch ∨ x ∈ pr) by (intros x; by rewrite <- Hp, elem_of_cons).
    rewrite <- Hp in Hnd. apply list.NoDup_cons in Hnd as [Hn Hnd]. apply Permutation_length in Hp.
    cbn in Hp. split_and!; cbn; [done|lia|set_solver|set_solver|set_solver|set_solver].
Qed.

Lemma pollset_refines_set_witness :
  set_op [64; 128] (flipc2_pollset_add 192 [64; 128])
    (192 ≠ 0 ∧ (192 ∉ [64; 128]) ∧ (length [64; 128] < FLIPC2_POLLSET_MAX_CHANNELS)%nat)
    (λ x, x ∈ [64; 128] ∨ x = 192) ∧
  set_op [64; 128] (flipc2_pollset_remove 192 [64; 128]) (192 ∈ [64; 128])
    (λ x, x ∈ [64; 128] ∧ x ≠ 192).
Proof. apply (pollset_refines_set [64; 128] 192). split_and!; by apply (bool_decide_unpack _); vm_compute. Defined.

(** ** Waiting on several channels *)

(** The channel of a handle in the runs below. *)
Definition chan_at (a : Z) : channel := Channel (Z.to_nat a) 16 15 0 0 0.
Definition poll_start : config :=
  Config (ring16 0)
    [Thread [] (Run (producer (chan_at 1) [PutTry (a_desc 7)]));
     Thread [] (Run (flipc2_poll chan_at [1; 2] 8 4294967295;; mret (chan_at 1)))] [].

Definition poll_lost : config := drive 20 1 (drive 100 0 (drive 12 1 poll_start)).

(** C38. A wake-up of [flipc2_poll] can be lost.  It arms the channels, scans them,
    and only then reads the value of every [prod_tail] that it asks the kernel to
    wait on.  A descriptor that is committed between the scan and that read is
    behind the value already: the producer's wake-up finds no one queued, the
    kernel's check of the word passes, and the poller blocks without a timeout with
    a descriptor pending and the producer done. *)
Theorem poll_wakeup_lost :
  ∃ s, rtc step poll_start s ∧
    (finished <$> threads s) = [true; false] ∧ (asleep <$> threads s) = [false; true] ∧
    (buf <$> threads s) = [[]; []] ∧ perform (Exec 1) s = None ∧
    flipc2_ring_count (memory s (1%nat, PROD_TAIL)) (memory s (1%nat, CONS_HEAD)) = 1.
Proof.
  exists poll_lost. split; [|by vm_compute].
  unfold poll_lost. do 2 (etransitivity; [|apply drive_steps]). apply drive_steps.
Qed.
