(* ===== verification/FlipcGroup.v ===== *)
(** * FLIPC buffer groups

    A pool of equal slots that several tasks allocate from and return to without a
    lock (include/flipc2.h, libflipc2/flipc2_bufgroup.c).  The free slots form a
    stack: [free_head] holds the index of its top together with a version that every
    change increments, [next[]] links the slots.  The layout of the pool comes
    first, then the two operations as programs of the machine in Tso.v, for any
    number of threads. *)

From S2P Require Import Prelude Mach Tso FlipcRing.

(** ** The tagged head *)

Definition SLOT_NONE : Z := 4294967295.
Definition flipc2_bufgroup_head_index (tagged : Z) : Z := Z.land tagged 4294967295.
Definition flipc2_bufgroup_head_version (tagged : Z) : Z := u32 (Z.shiftr tagged 32).
Definition flipc2_bufgroup_make_head (index version : Z) : Z := Z.lor (Z.shiftl version 32) index.

Lemma make_head_index i v : is_u32 i → flipc2_bufgroup_head_index (flipc2_bufgroup_make_head i v) = i.
Proof.
  intros Hi. unfold flipc2_bufgroup_head_index, flipc2_bufgroup_make_head.
  change 4294967295 with (Z.ones 32). rewrite Z.land_lor_distr_l, !Z.land_ones by lia.
  rewrite Z.shiftl_mul_pow2, Z.mod_mul by lia. rewrite Z.lor_0_l. apply Z.mod_small, Hi.
Qed.
Lemma make_head_low i v : is_u32 i → u32 (flipc2_bufgroup_make_head i v) = i.
Proof.
  intros Hi. rewrite <- (make_head_index i v Hi) at 2. unfold flipc2_bufgroup_head_index.
  change 4294967295 with (Z.ones 32). by rewrite Z.land_ones by lia.
Qed.
Lemma make_head_version i v :
  is_u32 i → is_u32 v → flipc2_bufgroup_head_version (flipc2_bufgroup_make_head i v) = v.
Proof.
  intros Hi Hv. unfold flipc2_bufgroup_head_version, flipc2_bufgroup_make_head.
  rewrite Z.shiftr_lor, Z.shiftr_shiftl_l, Z.sub_diag, Z.shiftl_0_r by lia.
  rewrite (Z.shiftr_div_pow2 i), Z.div_small, Z.lor_0_r by (unfold is_u32 in Hi; lia).
  by apply u32_small.
Qed.

(** ** Layout *)

Record bufgroup_header := BufgroupHeader {
  bg_magic : Z; bg_version : Z; pool_size : Z; slot_size : Z; slot_count : Z;
  next_offset : Z; bg_data_offset : Z; slot_stride : Z; free_head : Z }.

Definition FLIPC2_BUFGROUP_MAGIC : Z := 0x46425032.
Definition FLIPC2_BUFGROUP_VERSION : Z := 1.
Definition FLIPC2_BUFGROUP_HEADER_SIZE : Z := 64.

(** [x & ~7u]. *)
Definition align8 (x : Z) : Z := Z.land x (u32 (Z.lnot 7)).

Definition bufgroup_init_header (slot_size slot_stride slot_count data_offset total_size : Z) : bufgroup_header :=
  BufgroupHeader FLIPC2_BUFGROUP_MAGIC FLIPC2_BUFGROUP_VERSION total_size slot_size slot_count
    FLIPC2_BUFGROUP_HEADER_SIZE data_offset slot_stride (flipc2_bufgroup_make_head 0 0).

(** The [next[]] array: [0 → 1 → … → n - 1 → NONE]. *)
Definition bufgroup_init_next (n : Z) : list Z :=
  ((λ i, i + 1) <$> seqZ 0 (n - 1)) ++ [SLOT_NONE].

Section create.
Context {E : MachEnv} (mach_task_self : port).

(** [flipc2_bufgroup_create]: a return code, and on success the header and the
    links.  [vm_allocate] is called for the pool and for the handle. *)
Definition flipc2_bufgroup_create (pool_size slot_size : Z) :
    M unit (Z * option (bufgroup_header * list Z)) :=
  if decide (slot_size < 64 ∨ 65536 < slot_size) then mret (FLIPC2_ERR_INVALID_ARGUMENT, None)
  else if decide (pool_size < 4096 ∨ 16777216 < pool_size)
  then mret (FLIPC2_ERR_INVALID_ARGUMENT, None)
  else
    let slot_stride := align8 (slot_size +32 7) in
    let slot_count := pool_size / slot_stride in
    if decide (slot_count = 0) then mret (FLIPC2_ERR_INVALID_ARGUMENT, None)
    else
      let next_size := slot_count *32 4 in
      let data_offset := align8 (FLIPC2_BUFGROUP_HEADER_SIZE +32 next_size +32 7) in
      let total_size := data_offset +32 (slot_count *32 slot_stride) in
      '(kr, out) ← call_out (VmAllocate total_size);
      let addr := default 0 (head out) in
      if decide (kr ≠ KERN_SUCCESS) then mret (FLIPC2_ERR_RESOURCE_SHORTAGE, None)
      else
        call (VmWire addr total_size);;
        kr ← call (VmAllocate 16);
        if decide (kr ≠ KERN_SUCCESS) then
          call (VmDeallocate mach_task_self addr total_size);;
          mret (FLIPC2_ERR_RESOURCE_SHORTAGE, None)
        else
          mret (FLIPC2_SUCCESS,
            Some (bufgroup_init_header slot_size slot_stride slot_count data_offset total_size,
                  bufgroup_init_next slot_count)).
End create.

(** [flipc2_bufgroup_attach]: the checks on the header of a mapped pool. *)
Definition bufgroup_attach_check (h : bufgroup_header) : Z :=
  if decide (bg_magic h ≠ FLIPC2_BUFGROUP_MAGIC ∨ bg_version h ≠ FLIPC2_BUFGROUP_VERSION)
  then FLIPC2_ERR_NOT_CONNECTED
  else if decide (slot_count h = 0 ∨ slot_stride h = 0) then FLIPC2_ERR_INVALID_ARGUMENT
  else if decide (next_offset h ≠ FLIPC2_BUFGROUP_HEADER_SIZE) then FLIPC2_ERR_INVALID_ARGUMENT
  else FLIPC2_SUCCESS.

(** struct flipc2_bufgroup: its own address, the pool it maps, and the size of the
    mapping when it owns one. *)
Record bufgroup := Bufgroup { bg_self : Z; bg_hdr : Z; bg_next : Z; bg_data : Z; bg_mapped_size : Z }.
Definition flipc2_bufgroup_init_handle (self addr : Z) (h : bufgroup_header) : bufgroup :=
  Bufgroup self addr (addr +32 next_offset h) (addr +32 bg_data_offset h) 0.

(** The operations on a pool that is mapped; the state is its header. *)
Section handles.
Context {E : MachEnv} (mach_task_self : port).

Definition flipc2_bufgroup_attach (base_addr : Z) : M bufgroup_header (Z * option bufgroup) :=
  if decide (base_addr = 0) then mret (FLIPC2_ERR_INVALID_ARGUMENT, None)
  else
    h ← get;
    let r := bufgroup_attach_check h in
    if decide (r ≠ FLIPC2_SUCCESS) then mret (r, None)
    else
      '(kr, out) ← call_out (VmAllocate 16);
      if decide (kr ≠ KERN_SUCCESS) then mret (FLIPC2_ERR_RESOURCE_SHORTAGE, None)
      else mret (FLIPC2_SUCCESS, Some (flipc2_bufgroup_init_handle (default 0 (head out)) base_addr h)).

Definition flipc2_bufgroup_attach_remote (base_addr mapped_size : Z) :
    M bufgroup_header (Z * option bufgroup) :=
  '(ret, bg) ← flipc2_bufgroup_attach base_addr;
  if decide (ret ≠ FLIPC2_SUCCESS) then mret (ret, None)
  else mret (FLIPC2_SUCCESS,
    (λ b, Bufgroup (bg_self b) (bg_hdr b) (bg_next b) (bg_data b) mapped_size) <$> bg).

Definition flipc2_bufgroup_detach (b : bufgroup) : M bufgroup_header Z :=
  (if decide (0 < bg_mapped_size b ∧ bg_hdr b ≠ 0)
   then call (VmDeallocate mach_task_self (bg_hdr b) (bg_mapped_size b));; mret tt else mret tt);;
  call (VmDeallocate mach_task_self (bg_self b) 16);;
  mret FLIPC2_SUCCESS.

Definition flipc2_bufgroup_destroy (b : bufgroup) : M bufgroup_header Z :=
  if decide (bg_hdr b = 0) then mret FLIPC2_ERR_INVALID_ARGUMENT
  else
    h ← get;
    put (BufgroupHeader 0 (bg_version h) (pool_size h) (slot_size h) (slot_count h) (next_offset h)
      (bg_data_offset h) (slot_stride h) (free_head h));;
    call (VmDeallocate mach_task_self (bg_hdr b) (pool_size h));;
    call (VmDeallocate mach_task_self (bg_self b) 16);;
    mret FLIPC2_SUCCESS.

(** [vm_remap] hands back the address in the target and the protection. *)
Definition flipc2_bufgroup_share (b : bufgroup) (target_task : port) : M bufgroup_header (Z * option Z) :=
  if decide (bg_hdr b = 0) then mret (FLIPC2_ERR_INVALID_ARGUMENT, None)
  else if decide (target_task = MACH_PORT_NULL) then mret (FLIPC2_ERR_INVALID_ARGUMENT, None)
  else
    h ← get;
    '(kr, out) ← call_out (VmRemap target_task (bg_hdr b) (pool_size h));
    let target_addr := default 0 (out !! 0%nat) in
    let cur_prot := default 0 (out !! 1%nat) in
    if decide (kr ≠ KERN_SUCCESS) then mret (FLIPC2_ERR_MAP_FAILED, None)
    else if decide (Z.land cur_prot 1 = 0 ∨ Z.land cur_prot 2 = 0) then
      call (VmDeallocate target_task target_addr (pool_size h));;
      mret (FLIPC2_ERR_MAP_FAILED, None)
    else mret (FLIPC2_SUCCESS, Some target_addr).
End handles.

(** [flipc2_bufgroup_data_safe]: the offset it accepts, relative to the data
    region. *)
Definition flipc2_bufgroup_data_safe (h : bufgroup_header) (offset length : Z) : option Z :=
  let slot := u32 offset / slot_stride h in
  if decide (slot_count h <= slot) then None
  else if decide (slot_size h < length) then None
  else if decide (offset +64 length < offset) then None
  else Some offset.

(** ** The free list *)

(** [free_head] is one location, as [cmpxchg8b] compares and writes its 64 bits at once;
    the statistics are never accessed so, and are two words each. *)
Inductive gloc := FREE_HEAD | NEXT (i : Z) | ALLOC_TOTAL (high : bool) | FREE_TOTAL (high : bool).
#[global] Instance gloc_eq_dec : EqDecision gloc.
Proof. solve_decision. Defined.

(** A client has taken a slot, or is about to give it back. *)
Inductive gevent := Taken (slot : Z) | Given (slot : Z).

Abbreviation G := (prog gloc gevent).

(** A load of 64 bits is compiled to two of 32, which may see the word at different
    times; which half is read first is up to the compiler. *)
Definition load_half (high : bool) (x : gloc) : G Z :=
  v ← load x; mret (if high then u32 (Z.shiftr v 32) else u32 v).
Definition load64 (low_first : bool) (x : gloc) : G Z :=
  first ← load_half (negb low_first) x;
  second ← load_half low_first x;
  mret (if low_first then Z.lor (Z.shiftl second 32) first else Z.lor (Z.shiftl first 32) second).
(** [++] on a statistic. *)
Definition increment64 (x : bool → gloc) : G unit :=
  lo ← load (x false);
  hi ← load (x true);
  let v := Z.lor (Z.shiftl hi 32) lo +64 1 in
  store (x false) (u32 v);;
  store (x true) (Z.shiftr v 32).

(** [__sync_val_compare_and_swap]. *)
Definition cas (x : gloc) (old new : Z) : G Z := rmw x (λ v, if decide (v = old) then new else v).

(** The loops retry until their exchange succeeds; [fuel] bounds the attempts, and
    a program that has used them up stands for a thread that is still trying. *)
Inductive alloc_result := Allocated (offset : Z) | PoolEmpty | Retrying.

Fixpoint flipc2_bufgroup_alloc (low_first : bool) (fuel : nat) (stride : Z) : G alloc_result :=
  match fuel with
  | O => mret Retrying
  | S fuel =>
      old_tagged ← load64 low_first FREE_HEAD;
      let idx := flipc2_bufgroup_head_index old_tagged in
      let ver := flipc2_bufgroup_head_version old_tagged in
      if decide (idx = SLOT_NONE) then mret PoolEmpty
      else
        next_idx ← load (NEXT idx);
        let new_tagged := flipc2_bufgroup_make_head next_idx (ver +32 1) in
        prev ← cas FREE_HEAD old_tagged new_tagged;
        if decide (prev = old_tagged) then
          increment64 ALLOC_TOTAL;;
          mret (Allocated (idx *64 stride))
        else flipc2_bufgroup_alloc low_first fuel stride
  end.

Fixpoint bufgroup_push (low_first : bool) (fuel : nat) (slot : Z) : G bool :=
  match fuel with
  | O => mret false
  | S fuel =>
      old_tagged ← load64 low_first FREE_HEAD;
      let old_idx := flipc2_bufgroup_head_index old_tagged in
      let ver := flipc2_bufgroup_head_version old_tagged in
      store (NEXT slot) old_idx;;
      let new_tagged := flipc2_bufgroup_make_head slot (ver +32 1) in
      prev ← cas FREE_HEAD old_tagged new_tagged;
      if decide (prev = old_tagged) then
        increment64 FREE_TOTAL;;
        mret true
      else bufgroup_push low_first fuel slot
  end.
Definition flipc2_bufgroup_free (low_first : bool) (fuel : nat) (stride offset : Z) : G bool :=
  bufgroup_push low_first fuel (u32 offset / stride).

(** A client allocates, or frees the slot it took last; it keeps the offsets.  A request
    says which half of the head the code compiled for it reads first. *)
Inductive greq := GAlloc (low_first : bool) | GFree (low_first : bool).
Fixpoint client (fuel : nat) (stride : Z) (rs : list greq) (held : list Z) : G unit :=
  match rs with
  | [] => mret tt
  | GAlloc low_first :: rs =>
      r ← flipc2_bufgroup_alloc low_first fuel stride;
      match r with
      | Allocated offset => note (Taken (offset / stride));; client fuel stride rs (offset :: held)
      | PoolEmpty => client fuel stride rs held
      | Retrying => mret tt
      end
  | GFree low_first :: rs =>
      match held with
      | [] => client fuel stride rs []
      | offset :: held =>
          note (Given (offset / stride));;
          done ← flipc2_bufgroup_free low_first fuel stride offset;
          if (done : bool) then client fuel stride rs held else mret tt
      end
  end.

(** The slots that are out, according to the trace. *)
Definition out_step (out : list Z) (e : gevent) : list Z :=
  match e with Taken s => s :: out | Given s => filter (λ x, x ≠ s) out end.
Definition slots_out (es : list gevent) : list Z := foldl out_step [] es.

(** ** The invariant *)

(** What a thread knows: slots it owns that the trace does not show, those it shows,
    the head it has read (number of changes before, index, link), which are only as good
    as the index still being the top after as many changes, the link it has
    written, and how many changes it may still make. *)
Record gl := GL {
  g_extra : list Z; g_live : list Z; g_snap : option (Z * Z * option Z);
  g_wrote : option (Z * Z); g_left : Z }.
Definition held (l : gl) : list Z := g_extra l ++ g_live l.
Definition top (fl : list Z) : Z := default SLOT_NONE (head fl).
Definition total_left (ls : list gl) : Z := foldr (λ l a, g_left l + a) 0 ls.

Lemma concat_insert {A B} (f : A → list B) (ls : list A) i l l' :
  ls !! i = Some l →
  concat (f <$> ls) ≡ₚ f l ++ concat (f <$> delete i ls) ∧
  concat (f <$> <[i := l']> ls) ≡ₚ f l' ++ concat (f <$> delete i ls).
Proof.
  revert i. induction ls as [|x ls IH]; intros [|i] Hi; cbn in *; simplify_eq; [done|].
  destruct (IH i Hi) as [H1 H2]. rewrite H1, H2. split; by rewrite Permutation_app_swap_app.
Qed.
Lemma filter_id {A} (P : A → Prop) `{∀ x, Decision (P x)} (l : list A) :
  (∀ x, x ∈ l → P x) → filter P l = l.
Proof.
  induction l as [|x l IH]; intros Hp; [done|].
  rewrite filter_cons_True by (apply Hp; by left). f_equal. apply IH. intros y Hy. apply Hp. by right.
Qed.
Lemma total_left_insert ls i l l' :
  ls !! i = Some l → total_left (<[i := l']> ls) = total_left ls - g_left l + g_left l'.
Proof.
  unfold total_left. revert i. induction ls as [|x ls IH]; intros [|i] Hi; cbn in *; simplify_eq; [lia|].
  specialize (IH i Hi). etransitivity; [apply (f_equal (Z.add (g_left x)) IH)|lia].
Qed.

Section pool.
Context (n : Z).
Hypothesis n_range : 0 <= n < SLOT_NONE.

Record ginv (ls : list gl) (fl : list Z) (V : Z) (m : gloc → Z) (bufs : list (list (gloc * Z)))
    (es : list gevent) : Prop := {
  gi_head : m FREE_HEAD = flipc2_bufgroup_make_head (top fl) (u32 V);
  gi_links : ∀ k x, fl !! k = Some x → m (NEXT x) = top (drop (S k) fl);
  gi_slots : fl ++ concat (held <$> ls) ≡ₚ seqZ 0 n;
  gi_bufs : ∀ i b l x v, bufs !! i = Some b → ls !! i = Some l → (x, v) ∈ b →
    x ≠ FREE_HEAD ∧ ∀ s, x = NEXT s → s ∈ held l;
  gi_snap : ∀ i l vn idx nx, ls !! i = Some l → g_snap l = Some (vn, idx, nx) →
    0 <= vn <= V ∧
    (vn = V → idx = top fl → ∀ x, nx = Some x → idx ≠ SLOT_NONE → m (NEXT idx) = x);
  gi_wrote : ∀ i b l s v, bufs !! i = Some b → ls !! i = Some l → g_wrote l = Some (s, v) →
    s ∈ held l ∧ view m b (NEXT s) = v;
  gi_count : 0 <= V ∧ V + total_left ls < 4294967296;
  gi_left : ∀ i l, ls !! i = Some l → 0 <= g_left l;
  gi_out : slots_out es ≡ₚ concat (g_live <$> ls) }.

Definition GInv (ls : list gl) (s : @shared gloc gevent) : Prop :=
  length (s_bufs s) = length ls ∧ ∃ fl V, ginv ls fl V (s_mem s) (s_bufs s) (s_evs s).

Lemma slots_facts ls fl V m bufs es :
  ginv ls fl V m bufs es →
  NoDup fl ∧ (∀ x, x ∈ fl → 0 <= x < n) ∧
  (∀ i l x, ls !! i = Some l → x ∈ held l → 0 <= x < n ∧ x ∉ fl) ∧
  (∀ i j l l' x, ls !! i = Some l → ls !! j = Some l' → x ∈ held l → x ∈ held l' → i = j).
Proof.
  intros Hi. pose proof (gi_slots _ _ _ _ _ _ Hi) as Hp.
  assert (Hnd : NoDup (fl ++ concat (held <$> ls))) by (rewrite Hp; apply NoDup_seqZ).
  assert (Hr : ∀ x, x ∈ fl ++ concat (held <$> ls) → 0 <= x < n).
  { intros x. rewrite Hp, elem_of_seqZ. lia. }
  apply list.NoDup_app in Hnd as (Hf & Hd & Hc).
  assert (Hin : ∀ i l x, ls !! i = Some l → x ∈ held l → x ∈ concat (held <$> ls)).
  { intros i l x Hl Hx. destruct (concat_insert held ls i l l Hl) as [-> _]. set_solver. }
  split_and!; [done| | |].
  - intros x Hx. apply Hr. set_solver.
  - intros i l x Hl Hx. specialize (Hin i l x Hl Hx). split; [apply Hr; set_solver|].
    intros Hx'. by apply (Hd x).
  - intros i j l l' x Hl Hl' Hx Hx'. destruct (decide (i = j)) as [|Hne]; [done|]. exfalso.
    destruct (concat_insert held ls i l l Hl) as [Hp1 _]. rewrite Hp1 in Hc.
    apply list.NoDup_app in Hc as (_ & Hd' & _). apply (Hd' x Hx).
    assert (∃ k, delete i ls !! k = Some l') as [k Hk].
    { destruct (decide (j < i)%nat).
      - exists j. by rewrite list_lookup_delete_lt by lia.
      - exists (j - 1)%nat. rewrite list_lookup_delete_ge by lia. by replace (S (j - 1)) with j by lia. }
    destruct (concat_insert held (delete i ls) k l' l' Hk) as [-> _]. set_solver.
Qed.

Lemma top_range ls fl V m bufs es :
  ginv ls fl V m bufs es → is_u32 (top fl) ∧ (top fl = SLOT_NONE ↔ fl = []).
Proof.
  intros Hi. destruct (slots_facts _ _ _ _ _ _ Hi) as (_ & Hr & _). unfold is_u32, SLOT_NONE in *.
  destruct fl as [|x fl]; cbn; [by split|].
  specialize (Hr x ltac:(by left)). split; [lia|]. split; [lia|done].
Qed.

Lemma version_bound ls fl V m bufs es : ginv ls fl V m bufs es → 0 <= V < 4294967296.
Proof.
  intros Hi. destruct (gi_count _ _ _ _ _ _ Hi). pose proof (gi_left _ _ _ _ _ _ Hi) as Hl.
  enough (0 <= total_left ls) by lia. clear -Hl. induction ls as [|x ls IH]; [done|].
  change (0 <= g_left x + total_left ls).
  pose proof (Hl 0%nat x eq_refl). specialize (IH (λ j, Hl (S j))). lia.
Qed.

Lemma ginv_ext ls fl V m m' bufs es :
  (∀ x, m' x = m x) → ginv ls fl V m bufs es → ginv ls fl V m' bufs es.
Proof.
  intros Hm []. constructor; try done.
  - by rewrite Hm.
  - intros k x Hk. rewrite Hm. by apply gi_links0.
  - intros i l vn idx nx Hl Hs. destruct (gi_snap0 i l vn idx nx Hl Hs) as [? Hc]. split; [done|].
    intros HV Ht x Hx Hn. rewrite Hm. auto.
  - intros i b l s v Hb Hl Hw. destruct (gi_wrote0 i b l s v Hb Hl Hw) as [? <-]. split; [done|].
    by apply view_ext.
Qed.

(** A store leaves its buffer. *)
Lemma GInv_flush ls s i x v b :
  GInv ls s → s_bufs s !! i = Some ((x, v) :: b) →
  GInv ls (Shared (upd (s_mem s) x v) (<[i := b]> (s_bufs s)) (s_queue s) (s_evs s)).
Proof.
  intros (Hlen & fl & V & Hi) Hb. split; [cbn; by rewrite length_insert|]. exists fl, V. cbn.
  destruct (lookup_lt_is_Some_2 ls i) as [l Hl]; [rewrite <- Hlen; by eapply lookup_lt_Some|].
  destruct (gi_bufs _ _ _ _ _ _ Hi i _ l x v Hb Hl ltac:(by left)) as [Hx Hs].
  destruct (slots_facts _ _ _ _ _ _ Hi) as (_ & Hr & Hh & Hd).
  assert (Hne : ∀ y, y ∈ fl → NEXT y ≠ x).
  { intros y Hy <-. destruct (Hh i l y Hl (Hs y eq_refl)). done. }
  pose proof (top_range _ _ _ _ _ _ Hi) as [_ Htop]. destruct Hi. constructor; try done.
  - by rewrite upd_other.
  - intros k y Hk. rewrite upd_other; [by apply gi_links0|]. apply Hne. by eapply list_elem_of_lookup_2.
  - intros j b' l' y w Hj Hl' Hin.
    apply lookup_insert_cases in Hj as [[<- ->]|[? Hj]]; [|by eapply gi_bufs0].
    eapply gi_bufs0; [exact Hb|done|]. by right.
  - intros j l' vn idx nx Hl' Hsn. destruct (gi_snap0 j l' vn idx nx Hl' Hsn) as [? Hcur].
    split; [done|]. intros HV -> y Hy Ht.
    rewrite upd_other; [by apply Hcur|]. apply Hne.
    destruct fl as [|z fl]; [by destruct Ht|]. by left.
  - intros j b' l' s' w Hj Hl' Hw.
    apply lookup_insert_cases in Hj as [[<- ->]|[? Hj]].
    + by destruct (gi_wrote0 i _ l' s' w Hb Hl' Hw).
    + destruct (gi_wrote0 j b' l' s' w Hj Hl' Hw) as [Hin <-]. split; [done|].
      apply view_ext, upd_other. intros <-.
      by specialize (Hd i j l l' s' Hl Hl' (Hs s' eq_refl) Hin).
Qed.

Lemma pool_move i g f (K : shared → gl → Prop) l :
  (∀ ls fl V m bufs q es b,
     ls !! i = Some l → bufs !! i = Some b → ginv ls fl V m bufs es → g (Shared m bufs q es) →
     ∃ l' fl' V' m' bufs' q' es',
       f (Shared m bufs q es) = Shared m' bufs' q' es' ∧ length bufs' = length bufs ∧
       ginv (<[i := l']> ls) fl' V' m' bufs' es' ∧ K (Shared m bufs q es) l') →
  move GInv i g f K l.
Proof.
  intros H ls [m bufs q es] Hl (Hlen & fl & V & Hi) Hg. cbn in *.
  destruct (lookup_lt_is_Some_2 bufs i) as [b Hb]; [rewrite Hlen; by eapply lookup_lt_Some|].
  destruct (H ls fl V m bufs q es b Hl Hb Hi Hg) as (l' & fl' & V' & m' & bufs' & q' & es' & Hf & Hlen' & Hi' & HK).
  exists l'. split; [|done]. rewrite Hf. split; [cbn; by rewrite Hlen', length_insert|]. by exists fl', V'.
Qed.

(** The thread changes what it knows, not what it owns. *)
Lemma ginv_local ls fl V m bufs es i l l' :
  ginv ls fl V m bufs es → ls !! i = Some l →
  g_extra l' = g_extra l → g_live l' = g_live l → g_left l' = g_left l →
  (∀ vn idx nx, g_snap l' = Some (vn, idx, nx) → 0 <= vn <= V ∧
     (vn = V → idx = top fl → ∀ x, nx = Some x → idx ≠ SLOT_NONE → m (NEXT idx) = x)) →
  (∀ b s v, bufs !! i = Some b → g_wrote l' = Some (s, v) → s ∈ held l ∧ view m b (NEXT s) = v) →
  ginv (<[i := l']> ls) fl V m bufs es.
Proof.
  intros Hi Hl He Hlv Hle Hsn Hw. assert (Hh : held l' = held l) by (unfold held; by rewrite He, Hlv).
  assert (Hheld : held <$> <[i := l']> ls = held <$> ls).
  { rewrite list_fmap_insert. apply list_insert_id. rewrite list_lookup_fmap, Hl. cbn. by rewrite Hh. }
  assert (Hlive : g_live <$> <[i := l']> ls = g_live <$> ls).
  { rewrite list_fmap_insert. apply list_insert_id. rewrite list_lookup_fmap, Hl. cbn. by rewrite Hlv. }
  destruct Hi. constructor; rewrite ?Hheld, ?Hlive; try done.
  - intros j b lj x v Hb Hj Hin. apply lookup_insert_cases in Hj as [[<- ->]|[? Hj]]; [|by eapply gi_bufs0].
    rewrite Hh. by eapply gi_bufs0.
  - intros j lj vn idx nx Hj Hs. apply lookup_insert_cases in Hj as [[<- ->]|[? Hj]]; eauto.
  - intros j b lj s v Hb Hj Hs. apply lookup_insert_cases in Hj as [[<- ->]|[? Hj]]; [|by eauto].
    rewrite Hh. eauto.
  - rewrite (total_left_insert _ _ _ _ Hl), Hle. lia.
  - intros j lj Hj. apply lookup_insert_cases in Hj as [[<- ->]|[? Hj]]; [|by eauto].
    rewrite Hle. eauto.
Qed.

Abbreviation wpg i k Q l := (wp GInv (λ _, True) i k Q l).

Definition g_set_snap (o : option (Z * Z * option Z)) (l : gl) : gl :=
  GL (g_extra l) (g_live l) o (g_wrote l) (g_left l).
Definition g_set_wrote (o : option (Z * Z)) (l : gl) : gl :=
  GL (g_extra l) (g_live l) (g_snap l) o (g_left l).
(** The exchange has succeeded: the thread owns [extra] beside what it owned. *)
Definition g_changed (extra : list Z) (l : gl) : gl :=
  GL extra (g_live l) None None (g_left l - 1).
Definition g_show (extra live : list Z) (l : gl) : gl :=
  GL extra live (g_snap l) (g_wrote l) (g_left l).

(** A successful exchange by a thread whose stores are in memory: the list becomes
    [fl'], the thread owns [extra] instead of what it owned beside the trace. *)
Lemma ginv_exchange ls fl V m bufs es i l fl' extra :
  ginv ls fl V m bufs es → ls !! i = Some l → bufs !! i = Some [] → 0 < g_left l →
  fl' ++ extra ≡ₚ fl ++ g_extra l →
  (∀ k x, fl' !! k = Some x → m (NEXT x) = top (drop (S k) fl')) →
  ginv (<[i := g_changed extra l]> ls) fl' (V + 1)
    (upd m FREE_HEAD (flipc2_bufgroup_make_head (top fl') (u32 (V + 1)))) bufs es.
Proof.
  intros Hi Hl Hb Hleft Hp Hlinks. destruct Hi.
  assert (Hlive : g_live <$> <[i := g_changed extra l]> ls = g_live <$> ls).
  { rewrite list_fmap_insert. apply list_insert_id. by rewrite list_lookup_fmap, Hl. }
  constructor; rewrite ?Hlive; try done.
  - rewrite <- gi_slots0. destruct (concat_insert held ls i l (g_changed extra l) Hl) as [-> ->].
    unfold held at 1 3. cbn. rewrite <- !app_assoc, (app_assoc fl'), Hp, <- app_assoc. done.
  - intros j b lj x v Hbj Hj Hin. apply lookup_insert_cases in Hj as [[<- ->]|[? Hj]]; [|by eapply gi_bufs0].
    rewrite Hb in Hbj. injection Hbj as <-. by apply not_elem_of_nil in Hin.
  - intros j lj vn idx nx Hj Hs. apply lookup_insert_cases in Hj as [[<- ->]|[? Hj]]; [done|].
    destruct (gi_snap0 j lj vn idx nx Hj Hs). split; lia.
  - intros j b lj s v Hbj Hj Hw. apply lookup_insert_cases in Hj as [[<- ->]|[? Hj]]; [done|].
    destruct (gi_wrote0 j b lj s v Hbj Hj Hw) as [? <-]. split; [done|]. by apply view_ext, upd_other.
  - rewrite (total_left_insert _ _ _ _ Hl). cbn. lia.
  - intros j lj Hj. apply lookup_insert_cases in Hj as [[<- ->]|[? Hj]]; [cbn; lia|by eauto].
Qed.

(** The head that a thread has read and finds again is the one it read. *)
Lemma same_head ls fl V m bufs es i l vn idx nx :
  ginv ls fl V m bufs es → ls !! i = Some l → g_snap l = Some (vn, idx, nx) →
  0 <= vn < 4294967296 → is_u32 idx →
  m FREE_HEAD = flipc2_bufgroup_make_head idx vn →
  vn = V ∧ idx = top fl ∧ ∀ x, nx = Some x → idx ≠ SLOT_NONE → m (NEXT idx) = x.
Proof.
  intros Hi Hl Hs Hvn Hidx Hm. pose proof (version_bound _ _ _ _ _ _ Hi).
  destruct (top_range _ _ _ _ _ _ Hi) as [Ht _].
  assert (HV : vn = V).
  { rewrite (gi_head _ _ _ _ _ _ Hi) in Hm. apply (f_equal flipc2_bufgroup_head_version) in Hm.
    rewrite !make_head_version in Hm by (done || apply u32_range). by rewrite u32_small in Hm. }
  assert (idx = top fl) as Hi'.
  { rewrite (gi_head _ _ _ _ _ _ Hi) in Hm. apply (f_equal flipc2_bufgroup_head_index) in Hm.
    by rewrite !make_head_index in Hm by done. }
  split_and!; [done..|]. by apply (gi_snap _ _ _ _ _ _ Hi i l vn idx nx Hl Hs).
Qed.

(** The trace changes together with what the thread shows. *)
Lemma ginv_show ls fl V m bufs es es' i l extra live :
  ginv ls fl V m bufs es → ls !! i = Some l → extra ++ live = held l →
  slots_out es' ≡ₚ concat (g_live <$> <[i := g_show extra live l]> ls) →
  ginv (<[i := g_show extra live l]> ls) fl V m bufs es'.
Proof.
  intros Hi Hl Hh Ho. assert (Hheld : held <$> <[i := g_show extra live l]> ls = held <$> ls).
  { rewrite list_fmap_insert. apply list_insert_id. rewrite list_lookup_fmap, Hl. cbn.
    by rewrite <- Hh. }
  destruct Hi. constructor; rewrite ?Hheld; try done.
  - intros j b lj x v Hb Hj Hin. apply lookup_insert_cases in Hj as [[<- ->]|[? Hj]]; [|by eapply gi_bufs0].
    unfold held. cbn. rewrite Hh. by eapply gi_bufs0.
  - intros j lj vn idx nx Hj Hs. apply lookup_insert_cases in Hj as [[<- ->]|[? Hj]]; [|by eauto].
    by apply (gi_snap0 i l).
  - intros j b lj s v Hb Hj Hs. apply lookup_insert_cases in Hj as [[<- ->]|[? Hj]]; [|by eauto].
    unfold held. cbn. rewrite Hh. by apply (gi_wrote0 i b l).
  - rewrite (total_left_insert _ _ _ _ Hl). cbn. lia.
  - intros j lj Hj. apply lookup_insert_cases in Hj as [[<- ->]|[? Hj]]; [|by eauto]. by apply (gi_left0 i l).
Qed.

Lemma live_nodup ls fl V m bufs es : ginv ls fl V m bufs es → NoDup (concat (g_live <$> ls)).
Proof.
  intros Hi. assert (Hnd : NoDup (concat (held <$> ls))).
  { pose proof (gi_slots _ _ _ _ _ _ Hi) as Hp.
    assert (Hn : NoDup (fl ++ concat (held <$> ls))) by (rewrite Hp; apply NoDup_seqZ).
    by apply list.NoDup_app in Hn as (_ & _ & ?). }
  eapply sublist_NoDup; [exact Hnd|]. clear. induction ls as [|l ls IH]; [done|].
  cbn. apply sublist_app; [apply sublist_inserts_l; done|done].
Qed.

Lemma live_range ls fl V m bufs es :
  ginv ls fl V m bufs es → Forall (λ x, 0 <= x < n) (concat (g_live <$> ls)).
Proof.
  intros Hi. apply list.Forall_forall. intros x Hx.
  assert (Hs : x ∈ seqZ 0 n); [|apply elem_of_seqZ in Hs; lia].
  rewrite <- (gi_slots _ _ _ _ _ _ Hi), elem_of_app. right. clear Hi.
  induction ls as [|l ls IH]; [done|]. cbn in *. unfold held at 1. set_solver.
Qed.

Lemma idx_u32 idx : idx = SLOT_NONE ∨ 0 <= idx < n → is_u32 idx.
Proof. unfold is_u32, SLOT_NONE in *. lia. Qed.

Section rules.
Context {A : Type} (Q : A → gl → Prop) (i : nat).

Lemma wpg_cas vn idx nx new fl_of extra (k : Z → G A) l :
  g_snap l = Some (vn, idx, nx) → 0 <= vn < 4294967296 → is_u32 idx → 0 < g_left l →
  (∀ ls fl V m bufs es, ginv ls fl V m bufs es → ls !! i = Some l → bufs !! i = Some [] →
     vn = V → idx = top fl → (∀ x, nx = Some x → idx ≠ SLOT_NONE → m (NEXT idx) = x) →
     new = flipc2_bufgroup_make_head (top (fl_of fl)) (u32 (V + 1)) ∧
     fl_of fl ++ extra ≡ₚ fl ++ g_extra l ∧
     ∀ k x, fl_of fl !! k = Some x → m (NEXT x) = top (drop (S k) (fl_of fl))) →
  wpg i (k (flipc2_bufgroup_make_head idx vn)) Q (g_changed extra l) →
  (∀ prev, prev ≠ flipc2_bufgroup_make_head idx vn → wpg i (k prev) Q l) →
  wpg i (cas FREE_HEAD (flipc2_bufgroup_make_head idx vn) new ≫= k) Q l.
Proof.
  intros Hs Hvn Hidx Hleft Hnew Hok Hfail. apply pool_move.
  intros ls fl V m bufs q es b Hl Hb Hi [Hd _]. cbn in Hd. rewrite Hb in Hd. injection Hd as ->.
  destruct (decide (m FREE_HEAD = flipc2_bufgroup_make_head idx vn)) as [Hm|Hm].
  - destruct (same_head _ _ _ _ _ _ i l vn idx nx Hi Hl Hs Hvn Hidx Hm) as (HV & Htop & Hnx).
    destruct (Hnew _ _ _ _ _ _ Hi Hl Hb HV Htop Hnx) as (-> & Hp & Hlinks).
    eexists (g_changed extra l), (fl_of fl), (V + 1), _, bufs, q, es. split; [done|]. split; [done|].
    cbn. rewrite decide_True, Hm by done. split; [|exact Hok]. by apply (ginv_exchange _ fl).
  - eexists l, fl, V, _, bufs, q, es. split; [done|]. split; [done|]. cbn. rewrite decide_False by done.
    split; [|by apply Hfail]. rewrite list_insert_id by done. eapply ginv_ext; [|exact Hi].
    intros x. unfold upd. by case_decide; subst.
Qed.

Lemma wpg_load x (k : Z → G A) l : (∀ v, wpg i (k v) Q l) → wpg i (load x ≫= k) Q l.
Proof.
  intros Hk. apply pool_move. intros ls fl V m bufs q es b Hl Hb Hi _.
  exists l, fl, V, m, bufs, q, es. rewrite list_insert_id by done. split_and!; [done..|apply Hk].
Qed.

(** A read of the head, of which the thread may remember the version, or the index
    beside a version that it has read before. *)
Lemma wpg_read_head (o : Z → Z → option (Z * Z * option Z)) (k : Z → G A) l :
  (∀ vn idx, o vn idx = g_snap l ∨ (∃ j, o vn idx = Some (vn, j, None)) ∨
     ∃ vn' j, g_snap l = Some (vn', j, None) ∧ o vn idx = Some (vn', idx, None)) →
  (∀ vn idx, 0 <= vn < 4294967296 → idx = SLOT_NONE ∨ 0 <= idx < n →
     wpg i (k (flipc2_bufgroup_make_head idx vn)) Q (g_set_snap (o vn idx) l)) →
  wpg i (load FREE_HEAD ≫= k) Q l.
Proof.
  intros Ho Hk. apply pool_move. intros ls fl V m bufs q es b Hl Hb Hi _.
  destruct (slots_facts _ _ _ _ _ _ Hi) as (_ & Hr & _).
  pose proof (version_bound _ _ _ _ _ _ Hi).
  exists (g_set_snap (o V (top fl)) l), fl, V, m, bufs, q, es. split_and!; [done..| |].
  - eapply ginv_local; try done; cbn.
    + intros vn idx nx Hsn. destruct (Ho V (top fl)) as [E|[[j E]|(vn' & j & Hs & E)]]; rewrite E in Hsn.
      * by apply (gi_snap _ _ _ _ _ _ Hi i l vn idx nx).
      * injection Hsn as <- <- <-. split; [lia|done].
      * injection Hsn as <- <- <-. split; [|done]. by apply (gi_snap _ _ _ _ _ _ Hi i l vn' j None).
    + intros b' s v Hb' Hw. by apply (gi_wrote _ _ _ _ _ _ Hi i b' l s v).
  - unfold view_of. cbn. rewrite Hb. rewrite view_other.
    + rewrite (gi_head _ _ _ _ _ _ Hi). rewrite u32_small by (unfold is_u32; lia). apply Hk; [done|].
      destruct fl as [|x fl]; [by left|right]. apply Hr. by left.
    + intros ([x w] & Hx & Hin)%list_elem_of_fmap. cbn in Hx.
      destruct (gi_bufs _ _ _ _ _ _ Hi i b l x w Hb Hl Hin). congruence.
Qed.

(** The two halves: an index and a version, that need not have been together. *)
Lemma wpg_load_head low_first (k : Z → G A) l :
  (∀ vn idx, 0 <= vn < 4294967296 → idx = SLOT_NONE ∨ 0 <= idx < n →
     wpg i (k (flipc2_bufgroup_make_head idx vn)) Q (g_set_snap (Some (vn, idx, None)) l)) →
  wpg i (load64 low_first FREE_HEAD ≫= k) Q l.
Proof.
  intros Hk. destruct low_first.
  - apply (wpg_read_head (λ _ _, g_snap l)); [by left|]. intros v0 idx Hv0 Hidx.
    apply (wpg_read_head (λ vn _, Some (vn, idx, None))); [intros; right; left; by eexists|].
    intros vn j Hvn Hj. pose proof (idx_u32 idx Hidx) as Hu. pose proof (idx_u32 j Hj).
    cbn -[u32 Z.shiftr Z.shiftl]. rewrite make_head_low by done.
    change (u32 (Z.shiftr ?v 32)) with (flipc2_bufgroup_head_version v).
    rewrite make_head_version by done. destruct l. by apply Hk.
  - apply (wpg_read_head (λ vn _, Some (vn, 0, None))); [intros; right; left; by eexists|].
    intros vn j Hvn Hj.
    apply (wpg_read_head (λ _ idx, Some (vn, idx, None))); [intros; right; right; by do 2 eexists|].
    intros v1 idx Hv1 Hidx. pose proof (idx_u32 idx Hidx) as Hu. pose proof (idx_u32 j Hj).
    cbn -[u32 Z.shiftr Z.shiftl]. rewrite make_head_low by done.
    change (u32 (Z.shiftr ?v 32)) with (flipc2_bufgroup_head_version v).
    rewrite make_head_version by done. by apply Hk.
Qed.

Lemma wpg_load_next vn idx (k : Z → G A) l :
  g_snap l = Some (vn, idx, None) → idx ≠ SLOT_NONE →
  (∀ v, wpg i (k v) Q (g_set_snap (Some (vn, idx, Some v)) l)) → wpg i (load (NEXT idx) ≫= k) Q l.
Proof.
  intros Hs Hidx Hk. apply pool_move. intros ls fl V m bufs q es b Hl Hb Hi _.
  destruct (slots_facts _ _ _ _ _ _ Hi) as (_ & Hr & Hh & _).
  destruct (gi_snap _ _ _ _ _ _ Hi i l vn idx None Hl Hs) as [HV Hcur].
  exists (g_set_snap (Some (vn, idx, Some (view m b (NEXT idx)))) l), fl, V, m, bufs, q, es.
  split_and!; [done..| |].
  - eapply ginv_local; try done; cbn.
    + intros vn' idx' nx [= <- <- <-]. split; [done|]. intros -> ->.
      intros x [= <-] _. symmetry. apply view_other.
      intros ([y w] & Hy & Hin)%list_elem_of_fmap. cbn in Hy. subst y.
      destruct (gi_bufs _ _ _ _ _ _ Hi i b l _ w Hb Hl Hin) as [_ Hs'].
      destruct (Hh i l _ Hl (Hs' _ eq_refl)) as [_ Hn]. apply Hn.
      destruct fl as [|z fl]; [by destruct Hidx|]. by left.
    + intros b' s v Hb' Hw. by apply (gi_wrote _ _ _ _ _ _ Hi i b' l s v).
  - unfold view_of. cbn. rewrite Hb. apply Hk.
Qed.

(** Stores to the statistics, and to the link of a slot the thread owns. *)
Lemma wpg_store x v (k : unit → G A) l :
  (∀ s, x = NEXT s → s ∈ held l) → x ≠ FREE_HEAD →
  wpg i (k tt) Q (g_set_wrote (match x with NEXT s => Some (s, v) | _ => None end) l) →
  wpg i (store x v ≫= k) Q l.
Proof.
  intros Hx Hne Hk. apply pool_move. intros ls fl V m bufs q es b Hl Hb Hi _.
  eexists _, fl, V, m, _, q, es. split_and!; [done| | |exact Hk]; [by rewrite length_alter|].
  set (l' := g_set_wrote (match x with NEXT s => Some (s, v) | _ => None end) l).
  assert (Hb' : ∀ j b', alter (λ b0, b0 ++ [(x, v)]) i bufs !! j = Some b' →
    (j = i ∧ b' = b ++ [(x, v)]) ∨ (j ≠ i ∧ bufs !! j = Some b')).
  { intros j b' Hj. destruct (decide (j = i)) as [->|Hji].
    - left. rewrite list_lookup_alter_eq, Hb in Hj. by injection Hj as <-.
    - right. by rewrite list_lookup_alter_ne in Hj. }
  assert (Hl' : ginv (<[i := g_set_wrote None l]> ls) fl V m bufs es).
  { eapply ginv_local; try done. intros vn idx nx Hs. by apply (gi_snap _ _ _ _ _ _ Hi i l vn idx nx). }
  destruct Hl'. constructor; try done.
  - rewrite list_fmap_insert in gi_slots0. rewrite list_fmap_insert. exact gi_slots0.
  - intros j b' lj y w Hj Hlj Hin. apply lookup_insert_cases in Hlj as Hc.
    assert (Hlj' : ∃ lj', <[i := g_set_wrote None l]> ls !! j = Some lj' ∧ held lj' = held lj).
    { destruct Hc as [[<- ->]|[? Hc]].
      - exists (g_set_wrote None l). split; [|done]. apply list_lookup_insert_eq. by eapply lookup_lt_Some.
      - exists lj. by rewrite list_lookup_insert_ne. }
    destruct Hlj' as (lj' & Hlj' & Hh). rewrite <- Hh.
    apply Hb' in Hj as [[-> ->]|[? Hj]]; [|by eapply gi_bufs0].
    apply elem_of_app in Hin as [Hin|Hin]; [by eapply gi_bufs0|].
    apply list_elem_of_singleton in Hin as [= -> ->]. split; [done|].
    destruct Hc as [[_ ->]|[? _]]; [|done]. rewrite Hh. intros s ->. by apply Hx.
  - intros j lj vn idx nx Hlj Hs. apply lookup_insert_cases in Hlj as [[<- ->]|[? Hlj]].
    + apply (gi_snap0 i (g_set_wrote None l)); [|done].
      apply list_lookup_insert_eq. by eapply lookup_lt_Some.
    + apply (gi_snap0 j lj); [|done]. by rewrite list_lookup_insert_ne.
  - intros j b' lj s w Hj Hlj Hw. apply lookup_insert_cases in Hlj as [[<- ->]|[? Hlj]].
    + apply Hb' in Hj as [[_ ->]|[? _]]; [|done]. cbn in Hw. destruct x; try done. injection Hw as <- <-.
      split; [by apply Hx|]. by rewrite view_snoc, decide_True.
    + apply Hb' in Hj as [[? _]|[_ Hj]]; [done|]. apply (gi_wrote0 j b' lj); [done| |done].
      by rewrite list_lookup_insert_ne.
  - rewrite (total_left_insert _ _ _ _ Hl) in gi_count0. by rewrite (total_left_insert _ _ _ _ Hl).
  - intros j lj Hlj. apply lookup_insert_cases in Hlj as [[<- ->]|[? Hlj]].
    + by apply (gi_left _ _ _ _ _ _ Hi i l).
    + by apply (gi_left _ _ _ _ _ _ Hi j lj).
  - rewrite list_fmap_insert in gi_out0. rewrite list_fmap_insert. exact gi_out0.
Qed.

Lemma wpg_increment (x : bool → gloc) (k : unit → G A) l :
  (∀ b s, x b ≠ NEXT s) → (∀ b, x b ≠ FREE_HEAD) →
  wpg i (k tt) Q (g_set_wrote None l) → wpg i (increment64 x ≫= k) Q l.
Proof.
  intros Hn Hh Hk.
  assert (∀ b v, match x b with NEXT s => Some (s, v : Z) | _ => None end = None) as E.
  { intros b v. specialize (Hn b). destruct (x b); try done. by destruct (Hn i0). }
  apply (wpg_load (x false)). intros lo. apply (wpg_load (x true)). intros hi.
  set (v := Z.lor (Z.shiftl hi 32) lo +64 1).
  apply (wpg_store (x false) (u32 v) (λ _, store (x true) (Z.shiftr v 32) ≫= k));
    [intros s Hs; by destruct (Hn _ _ Hs)|done|]. rewrite E.
  apply (wpg_store (x true) (Z.shiftr v 32) k); [intros s Hs; by destruct (Hn _ _ Hs)|done|]. rewrite E. exact Hk.
Qed.

(** The trace shows a slot that the thread owns, or no longer shows it. *)
Lemma wpg_note_taken s (k : unit → G A) l :
  g_extra l = [s] → wpg i (k tt) Q (g_show [] (s :: g_live l) l) → wpg i (note (Taken s) ≫= k) Q l.
Proof.
  intros He Hk. apply pool_move. intros ls fl V m bufs q es b Hl Hb Hi _.
  exists (g_show [] (s :: g_live l) l), fl, V, m, bufs, q, (es ++ [Taken s]). split_and!; [done..| |done].
  eapply ginv_show; [exact Hi|exact Hl|unfold held; by rewrite He|].
  unfold slots_out. rewrite foldl_app. cbn. destruct Hi. unfold slots_out in gi_out0.
  rewrite gi_out0. destruct (concat_insert g_live ls i l (g_show [] (s :: g_live l) l) Hl) as [-> ->]. done.
Qed.

Lemma wpg_note_given s rest (k : unit → G A) l :
  g_extra l = [] → g_live l = s :: rest → wpg i (k tt) Q (g_show [s] rest l) →
  wpg i (note (Given s) ≫= k) Q l.
Proof.
  intros He Hlv Hk. apply pool_move. intros ls fl V m bufs q es b Hl Hb Hi _.
  exists (g_show [s] rest l), fl, V, m, bufs, q, (es ++ [Given s]). split_and!; [done..| |done].
  eapply ginv_show; [exact Hi|exact Hl|unfold held; by rewrite He, Hlv|].
  unfold slots_out. rewrite foldl_app. cbn. pose proof (live_nodup _ _ _ _ _ _ Hi) as Hnd.
  destruct Hi. unfold slots_out in gi_out0. rewrite gi_out0.
  destruct (concat_insert g_live ls i l (g_show [s] rest l) Hl) as [Hp Hp'].
  rewrite Hp in Hnd |- *. rewrite Hp'. rewrite Hlv in Hnd |- *. cbn [g_live g_show].
  rewrite <- app_comm_cons in Hnd |- *.
  apply list.NoDup_cons in Hnd as [Hn _]. rewrite filter_cons_False by naive_solver.
  rewrite filter_id; [done|]. intros x Hx ->. done.
Qed.
End rules.

(** ** The operations *)

(** What a thread has between two operations, or after a failed attempt. *)
Definition same_slots (extra : list Z) (l l' : gl) : Prop :=
  g_extra l' = extra ∧ g_live l' = g_live l ∧ g_left l' = g_left l.

Lemma wpg_alloc i lf fuel stride l :
  g_extra l = [] → 0 < g_left l →
  wpg i (flipc2_bufgroup_alloc lf fuel stride)
    (λ r l', match r with
             | Allocated off => ∃ idx, 0 <= idx < n ∧ off = idx *64 stride ∧
                 g_extra l' = [idx] ∧ g_live l' = g_live l ∧ g_left l' = g_left l - 1
             | _ => same_slots [] l l'
             end) l.
Proof.
  revert l. induction fuel as [|fuel IH]; intros l He Hle; [done|]. cbn [flipc2_bufgroup_alloc].
  apply wpg_load_head. intros vn idx Hvn Hidx. pose proof (idx_u32 idx Hidx) as Hu.
  rewrite make_head_index by done. rewrite make_head_version by (done || by unfold is_u32; lia).
  case_decide as Hn; [done|]. apply (wpg_load_next _ _ vn); [done..|]. intros nx.
  eapply (wpg_cas _ _ vn idx (Some nx) _ tail [idx]); [done..| | |].
  - intros ls fl V m bufs es Hi Hl Hb -> -> Hnx. specialize (Hnx nx eq_refl Hn).
    destruct fl as [|x fl]; [by destruct Hn|]. cbn [tail top head default from_option] in *.
    pose proof (gi_links _ _ _ _ _ _ Hi) as Hlinks. split_and!.
    + f_equal. rewrite <- Hnx. by apply (Hlinks 0%nat x).
    + cbn. rewrite He, app_nil_r. symmetry. apply Permutation_cons_append.
    + intros k y Hk. by apply (Hlinks (S k) y).
  - rewrite decide_True by done. apply wpg_increment; [done..|].
    exists idx. cbn. split_and!; try done; destruct Hidx; done || lia.
  - intros prev Hp. rewrite decide_False by done. eapply wp_mono; [|apply IH; done]. done.
Qed.

Lemma wpg_push i lf fuel slot l :
  g_extra l = [slot] → 0 <= slot < n → 0 < g_left l →
  wpg i (bufgroup_push lf fuel slot)
    (λ r l', if (r : bool) then g_extra l' = [] ∧ g_live l' = g_live l ∧ g_left l' = g_left l - 1
             else same_slots [slot] l l') l.
Proof.
  revert l. induction fuel as [|fuel IH]; intros l He Hs Hle; [done|]. cbn [bufgroup_push].
  apply wpg_load_head. intros vn idx Hvn Hidx. pose proof (idx_u32 idx Hidx) as Hu.
  rewrite make_head_index by done. rewrite make_head_version by (done || by unfold is_u32; lia).
  apply wpg_store; [|done|].
  { intros s [= <-]. unfold held. cbn. rewrite He. by left. }
  eapply (wpg_cas _ _ vn idx None _ (cons slot) []); [done..| | |].
  - intros ls fl V m bufs es Hi Hl Hb -> -> _. cbn [top head default from_option].
    destruct (gi_wrote _ _ _ _ _ _ Hi i [] _ slot _ Hb Hl eq_refl) as [_ Hw]. split_and!.
    + done.
    + rewrite app_nil_r. cbn. rewrite He. apply Permutation_cons_append.
    + intros [|k] y Hk; cbn in Hk; [by injection Hk as <-|]. by apply (gi_links _ _ _ _ _ _ Hi k y).
  - rewrite decide_True by done. by apply wpg_increment.
  - intros prev Hp. rewrite decide_False by done. eapply wp_mono; [|apply IH; done]. done.
Qed.

Section clients.
Context (stride : Z).
Hypothesis stride_range : 0 < stride ∧ n * stride < 4294967296.

Lemma offset_slot s : 0 <= s < n → u32 (s *64 stride) / stride = s ∧ (s *64 stride) / stride = s.
Proof.
  intros Hs. assert (0 <= s * stride < 4294967296) by nia.
  rewrite u64_small by (unfold is_u64; lia). rewrite u32_small by done.
  by rewrite Z.div_mul by lia.
Qed.

(** A client that holds [offsets]. *)
Definition holds (offsets : list Z) (left : Z) (l : gl) : Prop :=
  g_extra l = [] ∧ left <= g_left l ∧ Forall (λ s, 0 <= s < n) (g_live l) ∧
  offsets = (λ s, s *64 stride) <$> g_live l.

Lemma wpg_client i fuel rs offsets l :
  holds offsets (Z.of_nat (length rs)) l →
  wpg i (client fuel stride rs offsets) (λ _ _, True) l.
Proof.
  revert offsets l. induction rs as [|[lf|lf] rs IH]; intros offsets l (He & Hle & Hr & ->); [done|..];
    cbn [client length] in *.
  - apply wp_bind. eapply wp_mono; [|apply wpg_alloc; [done|lia]].
    intros [off| |] l' Hl'; [|by destruct Hl' as (? & Hlv & ?); apply IH; split_and!; try lia; rewrite ?Hlv|done].
    destruct Hl' as (idx & Hidx & -> & He' & Hlv & Hle'). destruct (offset_slot idx Hidx) as [_ ->].
    apply wpg_note_taken; [done|]. apply IH. split_and!; cbn; [done|lia| |by rewrite Hlv].
    rewrite Hlv. by constructor.
  - destruct (g_live l) as [|s live] eqn:Hlv; cbn [fmap list_fmap]; [apply IH; split_and!; rewrite ?Hlv; done || lia|].
    apply Forall_cons_iff in Hr as [Hs Hr]. destruct (offset_slot s Hs) as [Hs1 Hs2]. rewrite Hs2.
    eapply wpg_note_given; [done..|]. apply wp_bind. unfold flipc2_bufgroup_free. rewrite Hs1.
    eapply wp_mono; [|apply wpg_push; [done|done|cbn; lia]].
    intros [] l' Hl'; [|done]. destruct Hl' as (He' & Hlv' & Hle'). cbn in Hlv', Hle'.
    apply IH. split_and!; [done|lia|by rewrite Hlv'|by rewrite Hlv'].
Qed.
End clients.
End pool.

(** ** Runs *)

(** Memory of a pool that has just been created. *)
Definition pool_memory (h : bufgroup_header) (next : list Z) : gloc → Z := λ x,
  match x with
  | FREE_HEAD => free_head h
  | NEXT i => default 0 (next !! Z.to_nat i)
  | _ => 0
  end.
Definition pool_start (h : bufgroup_header) (next : list Z) (fuel : nat) (rss : list (list greq)) : config :=
  Config (pool_memory h next)
    ((λ rs, Thread [] (Run (client fuel (slot_stride h) rs []))) <$> rss) [].

Lemma align8_spec x : is_u32 x → align8 x = x - x mod 8.
Proof.
  intros Hx. unfold align8. change (u32 (Z.lnot 7)) with (Z.shiftl (Z.ones 29) 3).
  assert (Hq : 0 <= x / 8 < 2 ^ 29) by (unfold is_u32 in Hx; Z.to_euclidean_division_equations; lia).
  assert (Hr : x mod 8 ∈ seqZ 0 8) by (apply elem_of_seqZ; Z.to_euclidean_division_equations; lia).
  assert (Hlor : x = Z.lor (Z.shiftl (x / 8) 3) (x mod 8)).
  { rewrite <- Z.add_nocarry_lor.
    - rewrite Z.shiftl_mul_pow2 by lia. change (2 ^ 3) with 8. Z.to_euclidean_division_equations; lia.
    - apply Z.bits_inj'. intros k Hk. rewrite Z.land_spec, Z.bits_0.
      destruct (decide (k < 3)); [by rewrite Z.shiftl_spec_low|].
      change 8 with (2 ^ 3). by rewrite Z.mod_pow2_bits_high, andb_false_r by lia. }
  rewrite Hlor at 1. rewrite Z.land_lor_distr_l, <- Z.shiftl_land, Z.land_ones, Z.mod_small by lia.
  assert (Z.land (x mod 8) (Z.shiftl (Z.ones 29) 3) = 0) as ->.
  { rewrite <- Z.shiftl_0_l with (n := 3). apply Z.bits_inj'. intros k Hk.
    rewrite Z.land_spec, Z.shiftl_0_l, Z.bits_0.
    destruct (decide (k < 3)); [by rewrite Z.shiftl_spec_low, andb_false_r by lia|].
    change 8 with (2 ^ 3). by rewrite Z.mod_pow2_bits_high by lia. }
  rewrite Z.lor_0_r, Z.shiftl_mul_pow2 by lia. change (2 ^ 3) with 8.
  Z.to_euclidean_division_equations; lia.
Qed.

(** The pool that a successful creation lays out. *)
Definition pool_ok (h : bufgroup_header) (next : list Z) : Prop :=
  0 < slot_count h ∧ slot_count h * slot_stride h <= 16777216 ∧ 64 <= slot_size h <= slot_stride h ∧
  slot_stride h mod 8 = 0 ∧ bg_data_offset h mod 8 = 0 ∧
  64 + 4 * slot_count h <= bg_data_offset h ∧
  pool_size h = bg_data_offset h + slot_count h * slot_stride h ∧ pool_size h < 4294967296 ∧
  next = bufgroup_init_next (slot_count h) ∧ free_head h = 0.

Lemma create_pool_ok {E : MachEnv} self pool slot l r h next :
  res (flipc2_bufgroup_create self pool slot tt l) = (r, Some (h, next)) → pool_ok h next.
Proof.
  unfold flipc2_bufgroup_create. case_decide as Hs; [done|]. case_decide as Hp; [done|].
  set (st := align8 (slot +32 7)).
  assert (Hst : slot <= st <= slot + 7 ∧ st mod 8 = 0).
  { unfold st. rewrite (u32_small (slot + 7)) by (unfold is_u32; lia).
    rewrite align8_spec by (unfold is_u32; lia). Z.to_euclidean_division_equations; lia. }
  case_decide as Hc; [done|]. set (n := pool / st) in *.
  assert (Hn : 0 < n ∧ 0 <= n * st <= pool) by (unfold n in *; Z.to_euclidean_division_equations; nia).
  assert (Hn2 : n <= 262144) by nia.
  rewrite (u32_small (n * 4)) by (unfold is_u32; lia).
  rewrite (u32_small (FLIPC2_BUFGROUP_HEADER_SIZE + n * 4)) by (unfold is_u32, FLIPC2_BUFGROUP_HEADER_SIZE; lia).
  rewrite (u32_small (n * st)) by (unfold is_u32; lia).
  rewrite (u32_small (FLIPC2_BUFGROUP_HEADER_SIZE + n * 4 + 7)) by (unfold is_u32, FLIPC2_BUFGROUP_HEADER_SIZE; lia).
  set (d := align8 _).
  assert (Hd : 64 + 4 * n <= d <= 71 + 4 * n ∧ d mod 8 = 0).
  { unfold d, FLIPC2_BUFGROUP_HEADER_SIZE. rewrite align8_spec by (unfold is_u32; lia).
    Z.to_euclidean_division_equations; lia. }
  rewrite (u32_small (d + n * st)) by (unfold is_u32; lia).
  munfold. repeat case_decide; try done. intros [= <- <- <-]. unfold pool_ok. cbn.
  split_and!; try done; lia.
Qed.

Lemma create_header {E : MachEnv} self pool slot l r h next :
  res (flipc2_bufgroup_create self pool slot tt l) = (r, Some (h, next)) →
  bg_magic h = FLIPC2_BUFGROUP_MAGIC ∧ bg_version h = FLIPC2_BUFGROUP_VERSION ∧
  next_offset h = FLIPC2_BUFGROUP_HEADER_SIZE.
Proof.
  unfold flipc2_bufgroup_create. repeat (case_decide; [done|]). munfold.
  repeat case_decide; try done. by intros [= <- <- <-].
Qed.

Lemma init_next_lookup n k :
  0 <= k < n → bufgroup_init_next n !! Z.to_nat k = Some (if decide (k = n - 1) then SLOT_NONE else k + 1).
Proof.
  intros Hk. unfold bufgroup_init_next. case_decide as He.
  - rewrite lookup_app_r by (rewrite length_fmap, length_seqZ; lia).
    rewrite length_fmap, length_seqZ. by replace (Z.to_nat k - Z.to_nat (n - 1))%nat with O by lia.
  - rewrite lookup_app_l by (rewrite length_fmap, length_seqZ; lia).
    rewrite list_lookup_fmap, lookup_seqZ_lt by lia. cbn. f_equal. lia.
Qed.

Lemma drop_seqZ n k : 0 <= k < n → top (drop (S (Z.to_nat k)) (seqZ 0 n)) = if decide (k = n - 1) then SLOT_NONE else k + 1.
Proof.
  intros Hk. unfold top. rewrite head_lookup, lookup_drop, Nat.add_0_r. case_decide as He.
  - rewrite lookup_seqZ_ge by lia. done.
  - rewrite lookup_seqZ_lt by lia. cbn. lia.
Qed.

Definition fresh_client (rs : list greq) : gl := GL [] [] None None (Z.of_nat (length rs)).

Lemma fresh_clients rss (f : gl → list Z) :
  (∀ rs, f (fresh_client rs) = []) → concat (f <$> (fresh_client <$> rss)) = [].
Proof. intros Hf. induction rss as [|rs rss IH]; [done|]. cbn. by rewrite Hf. Qed.
Lemma fresh_left rss : total_left (fresh_client <$> rss) = Z.of_nat (length (concat rss)).
Proof.
  induction rss as [|rs rss IH]; [done|].
  change (Z.of_nat (length rs) + total_left (fresh_client <$> rss) = Z.of_nat (length (rs ++ concat rss))).
  rewrite length_app, IH. lia.
Qed.

Lemma pool_start_inv h next fuel rss :
  pool_ok h next → Z.of_nat (length (concat rss)) < 4294967296 →
  GInv (slot_count h) (fresh_client <$> rss) (shared_of (pool_start h next fuel rss)).
Proof.
  intros (Hn & _ & _ & _ & _ & _ & _ & _ & -> & Hfh) Hlen. set (n := slot_count h) in *.
  assert (Hc : ∀ i l, (fresh_client <$> rss) !! i = Some l → ∃ rs, l = fresh_client rs).
  { intros i l Hl. rewrite list_lookup_fmap in Hl. destruct (rss !! i) as [rs|]; [|done].
    exists rs. cbn in Hl. congruence. }
  split; [cbn; by rewrite !length_fmap|]. exists (seqZ 0 n), 0. cbn. constructor; cbn.
  - rewrite Hfh. unfold top. rewrite head_lookup, lookup_seqZ_lt by lia. done.
  - intros k x Hk. apply lookup_seqZ in Hk as [-> Hk].
    replace (0 + Z.of_nat k) with (Z.of_nat k) by lia.
    rewrite init_next_lookup by lia. rewrite <- drop_seqZ, Nat2Z.id by lia. done.
  - by rewrite fresh_clients, app_nil_r.
  - intros i b l x v Hb Hl Hin. rewrite <- list_fmap_compose, list_lookup_fmap in Hb.
    destruct (rss !! i); cbn in Hb; simplify_eq. by apply not_elem_of_nil in Hin.
  - intros i l vn idx nx Hl Hs. by destruct (Hc i l Hl) as [rs ->].
  - intros i b l s v Hb Hl Hw. by destruct (Hc i l Hl) as [rs ->].
  - rewrite fresh_left. lia.
  - intros i l Hl. destruct (Hc i l Hl) as [rs ->]. cbn. lia.
  - by rewrite fresh_clients.
Qed.

Lemma pool_start_sound h next fuel rss :
  pool_ok h next → Z.of_nat (length (concat rss)) < 4294967296 →
  sound (GInv (slot_count h)) (λ _, True) (λ _ _ _, True) (fresh_client <$> rss)
    (pool_start h next fuel rss).
Proof.
  intros Hok Hlen. split_and!; [by apply pool_start_inv|cbn; by rewrite !length_fmap|].
  destruct Hok as (Hn & Hns & Hsz & _).
  intros i t l Ht Hl. cbn in Ht. rewrite list_lookup_fmap in Hl. rewrite list_lookup_fmap in Ht.
  destruct (rss !! i) as [rs|]; [|done]. cbn in *. simplify_eq. cbn.
  apply (wpg_client (slot_count h) ltac:(unfold SLOT_NONE; nia) (slot_stride h) ltac:(nia)).
  split_and!; cbn; done || lia.
Qed.

(** C5. No slot of a buffer group is given out twice.  Take a pool as
    [flipc2_bufgroup_create] makes it and any number of threads that allocate slots
    and free those they hold, fewer than 2^32 requests in all.  In every reachable
    configuration the slots that are out are pairwise distinct and are slots of the
    pool, although the exchange on the head compares a value that a thread may have
    read long before, and in two halves at different times, in either order: the
    version in it makes a stale or torn head fail. *)
Theorem slots_exclusive {E : MachEnv} self pool slot l r h next fuel rss s :
  res (flipc2_bufgroup_create self pool slot tt l) = (r, Some (h, next)) →
  Z.of_nat (length (concat rss)) < 4294967296 → rtc step (pool_start h next fuel rss) s →
  NoDup (slots_out (events s)) ∧ Forall (λ x, 0 <= x < slot_count h) (slots_out (events s)).
Proof.
  intros Hc Hlen Hr. apply create_pool_ok in Hc.
  assert (Hn : 0 <= slot_count h < SLOT_NONE).
  { destruct Hc as (? & ? & ? & _). unfold SLOT_NONE. nia. }
  destruct (sound_reachable _ _ (GInv_flush _ Hn) _ _ _ _ (pool_start_sound h next fuel rss Hc Hlen) Hr)
    as (ls & (_ & fl & V & Hi) & _).
  pose proof (gi_out _ _ _ _ _ _ _ Hi) as Ho. rewrite Ho. split; [by eapply live_nodup|].
  by eapply live_range.
Qed.

(** A pool of 64 slots.  Thread 1 reads the head, slot 0, and its link, slot 1;
    thread 0 takes slot 0, thread 2 takes slot 1, thread 0 returns slot 0.  The head
    is slot 0 again, but the link that thread 1 has read names a slot that is out;
    its exchange fails on the version, and its second attempt takes slot 0. *)
Definition stale_start : config :=
  pool_start (bufgroup_init_header 64 64 64 320 4416) (bufgroup_init_next 64) 5
    [[GAlloc true; GFree false]; [GAlloc true]; [GAlloc false]].
Definition stale_run : config :=
  drive 60 1 (drive 60 0 (drive 60 2 (drive 11 0 (hold 3 1 stale_start)))).

Lemma slots_exclusive_witness :
  events stale_run = [Taken 0; Taken 1; Given 0; Taken 0] ∧ NoDup (slots_out (events stale_run)).
Proof.
  split; [by vm_compute|].
  refine (proj1 (slots_exclusive (E := env_ok) 1 4096 64 [] FLIPC2_SUCCESS
    (bufgroup_init_header 64 64 64 320 4416) (bufgroup_init_next 64) 5
    [[GAlloc true; GFree false]; [GAlloc true]; [GAlloc false]] stale_run _ _ _)); [by vm_compute..|].
  unfold stale_run. do 4 (etransitivity; [|apply drive_steps]). apply hold_steps.
Defined.

(** ** What the layout gives *)

(** The pool that [flipc2_bufgroup_create] lays out is what the other operations
    rely on, for every size it accepts: a peer's [flipc2_bufgroup_attach] accepts the
    header; the links end before the data; the slots do not overlap; and for every
    slot and every length up to the slot's size [flipc2_bufgroup_data_safe] accepts
    the slot's offset, and the bytes lie inside the pool. *)
Theorem bufgroup_layout {E : MachEnv} self pool slot l r h next :
  res (flipc2_bufgroup_create self pool slot tt l) = (r, Some (h, next)) →
  bufgroup_attach_check h = FLIPC2_SUCCESS ∧
  Z.of_nat (length next) = slot_count h ∧
  next_offset h + 4 * slot_count h <= bg_data_offset h ∧
  (∀ i j, 0 <= i < j → i * slot_stride h + slot_size h <= j * slot_stride h) ∧
  (∀ i len, 0 <= i < slot_count h → 0 <= len <= slot_size h →
     flipc2_bufgroup_data_safe h (i * slot_stride h) len = Some (i * slot_stride h) ∧
     bg_data_offset h + i * slot_stride h + len <= pool_size h).
Proof.
  intros Hc. pose proof (create_pool_ok _ _ _ _ _ _ _ Hc) as
    (Hn & Hns & Hsz & _ & _ & Hd & Hp & Hp32 & Hnext & _).
  destruct (create_header _ _ _ _ _ _ _ Hc) as (Hm & Hv & Hno). split_and!.
  - unfold bufgroup_attach_check. rewrite Hm, Hv, Hno.
    repeat (rewrite decide_False by naive_solver lia). done.
  - rewrite Hnext. unfold bufgroup_init_next. rewrite length_app, length_fmap, length_seqZ. cbn. lia.
  - rewrite Hno. unfold FLIPC2_BUFGROUP_HEADER_SIZE. lia.
  - intros i j Hij. nia.
  - intros i len Hi Hl. assert (0 <= i * slot_stride h /\ i * slot_stride h + slot_size h <= slot_count h * slot_stride h) by nia.
    split; [|lia]. unfold flipc2_bufgroup_data_safe. rewrite u32_small by (unfold is_u32; lia).
    rewrite Z.div_mul by lia. rewrite u64_small by (unfold is_u64; lia).
    by repeat rewrite decide_False by lia.
Qed.

Lemma bufgroup_layout_witness :
  flipc2_bufgroup_data_safe (bufgroup_init_header 75 80 63 320 5360) (62 * 80) 75 = Some (62 * 80) ∧
  320 + 62 * 80 + 75 <= 5360.
Proof.
  pose proof (bufgroup_layout (E := env_ok) 1 5100 75 [] FLIPC2_SUCCESS
    (bufgroup_init_header 75 80 63 320 5360) (bufgroup_init_next 63) ltac:(by vm_compute)) as (_ & _ & _ & _ & H).
  refine (H 62 75 _ _); cbn; lia.
Defined.

(** [flipc2_bufgroup_data_safe] lets accesses past the pool through.  It checks
    that the offset falls in some slot and that the length fits a slot, but not that
    the two together stay in the slot: in a pool as created, an offset into the last
    slot is accepted with a length that ends beyond the memory of the pool. *)
Theorem bufgroup_data_safe_overrun :
  ∃ h next, res (flipc2_bufgroup_create (E := env_ok) 1 4096 64 tt []) = (FLIPC2_SUCCESS, Some (h, next)) ∧
  flipc2_bufgroup_data_safe h 4095 64 = Some 4095 ∧ pool_size h < bg_data_offset h + 4095 + 64.
Proof. do 2 eexists. split; [by vm_compute|]. by vm_compute. Qed.
