(* ===== verification/FlipcChannel.v ===== *)
(** * FLIPC channels: set-up

    Creation, attachment and sharing of channels (libflipc2/flipc2_channel.c): the
    two layouts of the header, the checks of a peer that attaches, the protections
    of a mapping per role.  The theorems say that what is created is what the ring
    operations of FlipcRing.v and the proofs of FlipcSpsc.v start from, and that
    each side only writes where its role may. *)

From S2P Require Import Prelude Mach Tso FlipcRing FlipcConsumer FlipcSpsc.

(** ** Constants *)

Definition FLIPC2_MAGIC : Z := 1179406386.
Definition FLIPC2_VERSION : Z := 1.
Definition FLIPC2_CHANNEL_SIZE_MIN : Z := 4096.
Definition FLIPC2_CHANNEL_SIZE_MAX : Z := 16777216.
Definition FLIPC2_CHANNEL_SIZE_MIN_ISOLATED : Z := 16384.
Definition FLIPC2_HEADER_SIZE : Z := 256.
Definition FLIPC2_DESC_SIZE : Z := 64.
Definition FLIPC2_RING_ENTRIES_MIN : Z := 16.
Definition FLIPC2_RING_ENTRIES_MAX : Z := 16384.
Definition FLIPC2_LAYOUT_FLAT : Z := 0.
Definition FLIPC2_LAYOUT_ISOLATED : Z := 1.
Definition FLIPC2_CREATE_ISOLATED : Z := 1.
Definition FLIPC2_ISO_CONST_OFFSET : Z := 0.
Definition FLIPC2_ISO_PROD_OFFSET : Z := 4096.
Definition FLIPC2_ISO_CONS_OFFSET : Z := 8192.
Definition FLIPC2_ISO_RING_OFFSET : Z := 12288.
Definition FLIPC2_ROLE_PRODUCER : Z := 1.
Definition FLIPC2_ROLE_CONSUMER : Z := 2.
Definition VM_PROT_READ : Z := 1.
Definition VM_PROT_WRITE : Z := 2.
(** [sizeof(struct flipc2_channel)] on i386. *)
Definition SIZEOF_CHANNEL : Z := 88.

(** ** Shared memory *)

(** struct flipc2_channel_header: the constants. *)
Record channel_header := ChannelHeader {
  magic : Z; version : Z; channel_size : Z; ring_offset : Z; hdr_ring_entries : Z;
  hdr_ring_mask : Z; data_offset : Z; data_size : Z; desc_size : Z;
  wakeup_sem : port; wakeup_sem_prod : port; layout_flags : Z }.
(** The memory of a channel. *)
Record region := Region { r_hdr : channel_header; r_vol : field → Z }.

Definition is_power_of_2 (n : Z) : bool := bool_decide (n ≠ 0 ∧ Z.land n (n -32 1) = 0).

(** [memset] clears everything; the counters start at 0, the threshold at 1. *)
Definition flipc2_init_header (channel_size ring_entries flags : Z) : region :=
  let ring_size := ring_entries *32 FLIPC2_DESC_SIZE in
  let isolated := bool_decide (Z.land flags FLIPC2_CREATE_ISOLATED ≠ 0) in
  let layout := if isolated then FLIPC2_LAYOUT_ISOLATED else FLIPC2_LAYOUT_FLAT in
  let ring_offset := if isolated then FLIPC2_ISO_RING_OFFSET else FLIPC2_HEADER_SIZE in
  let data_offset := ring_offset +32 ring_size in
  let data_size := channel_size -32 data_offset in
  Region
    (ChannelHeader FLIPC2_MAGIC FLIPC2_VERSION channel_size ring_offset ring_entries
       (ring_entries -32 1) data_offset data_size FLIPC2_DESC_SIZE MACH_PORT_NULL MACH_PORT_NULL layout)
    (λ f, match f with WAKEUP_THRESH => 1 | _ => 0 end).

(** Where a field is in the mapping. *)
Definition field_offset (h : channel_header) (f : field) : Z :=
  let isolated := bool_decide (Z.land (layout_flags h) FLIPC2_LAYOUT_ISOLATED ≠ 0) in
  match f with
  | PROD_TAIL => if isolated then FLIPC2_ISO_PROD_OFFSET else 48
  | PROD_SLEEPING => if isolated then FLIPC2_ISO_PROD_OFFSET + 4 else 52
  | PROD_TOTAL => if isolated then FLIPC2_ISO_PROD_OFFSET + 8 else 128
  | WAKEUPS => if isolated then FLIPC2_ISO_PROD_OFFSET + 16 else 144
  | WAKEUP_THRESH => if isolated then FLIPC2_ISO_PROD_OFFSET + 24 else 56
  | PROD_RESERVED => if isolated then FLIPC2_ISO_PROD_OFFSET + 28 else 192
  | CONS_HEAD => if isolated then FLIPC2_ISO_CONS_OFFSET else 64
  | CONS_SLEEPING => if isolated then FLIPC2_ISO_CONS_OFFSET + 4 else 68
  | CONS_TOTAL => if isolated then FLIPC2_ISO_CONS_OFFSET + 8 else 136
  | WORD slot j => ring_offset h + FLIPC2_DESC_SIZE * slot + 4 * Z.of_nat j
  end.
Definition field_size (f : field) : Z :=
  match f with PROD_TOTAL | WAKEUPS | CONS_TOTAL => 8 | _ => 4 end.
(** The fields that a channel with [n] ring entries has. *)
Definition has_field (n : Z) (f : field) : Prop :=
  match f with WORD slot j => 0 <= slot < n ∧ (j < DESC_WORDS)%nat | _ => True end.

(** ** Handles *)

(** struct flipc2_channel: its own address, the addresses of the mapping, and what
    the ring operations use of it. *)
Record chan_handle := ChanHandle {
  ch_self : Z; ch_hdr : Z; ch_ring : Z; ch_data : Z; ch_field : field → Z;
  ch_ring_state : channel; ch_mapped_size : Z; sem_port : port; sem_port_prod : port }.

(** The cached counters start at 0. *)
Definition flipc2_init_handle (c : nat) (self base : Z) (h : channel_header) : chan_handle :=
  ChanHandle self base (base +32 ring_offset h) (base +32 data_offset h)
    (λ f, base +32 field_offset h f)
    (Channel c (hdr_ring_entries h) (hdr_ring_mask h) 0 0 0) 0 (wakeup_sem h) (wakeup_sem_prod h).
Definition set_mapped_size (n : Z) (h : chan_handle) : chan_handle :=
  ChanHandle (ch_self h) (ch_hdr h) (ch_ring h) (ch_data h) (ch_field h) (ch_ring_state h) n
    (sem_port h) (sem_port_prod h).
Definition flipc2_channel_set_semaphores (h : chan_handle) (sem sem_prod : port) : chan_handle :=
  ChanHandle (ch_self h) (ch_hdr h) (ch_ring h) (ch_data h) (ch_field h) (ch_ring_state h)
    (ch_mapped_size h) sem sem_prod.

(** [flipc2_data_ptr_safe]: the offset it accepts, relative to the data region. *)
Definition flipc2_data_ptr_safe (h : channel_header) (offset length : Z) : option Z :=
  if decide (data_size h < offset +64 length) then None
  else if decide (offset +64 length < offset) then None
  else Some offset.

(** ** Operations

    The state is the memory of the channel that the call is about; a channel is
    named by a number, as in FlipcRing.v. *)
Section operations.
Context {E : MachEnv} (mach_task_self : port) (c : nat).

Definition flipc2_channel_create_ex (channel_size ring_entries flags : Z) :
    M region (Z * option chan_handle) :=
  if decide (channel_size < FLIPC2_CHANNEL_SIZE_MIN ∨ FLIPC2_CHANNEL_SIZE_MAX < channel_size)
  then mret (FLIPC2_ERR_INVALID_ARGUMENT, None)
  else if decide (is_power_of_2 ring_entries = false ∨ ring_entries < FLIPC2_RING_ENTRIES_MIN ∨
                  FLIPC2_RING_ENTRIES_MAX < ring_entries)
  then mret (FLIPC2_ERR_INVALID_ARGUMENT, None)
  else
    let ring_size := ring_entries *32 FLIPC2_DESC_SIZE in
    let isolated := bool_decide (Z.land flags FLIPC2_CREATE_ISOLATED ≠ 0) in
    if decide (isolated = true ∧ channel_size < FLIPC2_CHANNEL_SIZE_MIN_ISOLATED)
    then mret (FLIPC2_ERR_SIZE_ALIGNMENT, None)
    else
      let ring_offset := if isolated then FLIPC2_ISO_RING_OFFSET else FLIPC2_HEADER_SIZE in
      let min_size := ring_offset +32 ring_size in
      if decide (channel_size < min_size) then mret (FLIPC2_ERR_SIZE_ALIGNMENT, None)
      else
        '(kr, out) ← call_out (VmAllocate channel_size);
        let addr := default 0 (head out) in
        if decide (kr ≠ KERN_SUCCESS) then mret (FLIPC2_ERR_RESOURCE_SHORTAGE, None)
        else
          call (VmWire addr channel_size);;
          put (flipc2_init_header channel_size ring_entries flags);;
          '(kr, out) ← call_out (VmAllocate SIZEOF_CHANNEL);
          if decide (kr ≠ KERN_SUCCESS) then
            call (VmDeallocate mach_task_self addr channel_size);;
            mret (FLIPC2_ERR_RESOURCE_SHORTAGE, None)
          else
            r ← get;
            mret (FLIPC2_SUCCESS, Some (flipc2_init_handle c (default 0 (head out)) addr (r_hdr r))).

Definition flipc2_channel_create (channel_size ring_entries : Z) : M region (Z * option chan_handle) :=
  flipc2_channel_create_ex
    (if decide (channel_size < FLIPC2_CHANNEL_SIZE_MIN_ISOLATED)
     then FLIPC2_CHANNEL_SIZE_MIN_ISOLATED else channel_size)
    ring_entries FLIPC2_CREATE_ISOLATED.

(** The checks of [flipc2_channel_attach] on the header it finds. *)
Definition attach_check (h : channel_header) : Z :=
  if decide (magic h ≠ FLIPC2_MAGIC ∨ version h ≠ FLIPC2_VERSION) then FLIPC2_ERR_NOT_CONNECTED
  else if decide (is_power_of_2 (hdr_ring_entries h) = false ∨
                  hdr_ring_entries h < FLIPC2_RING_ENTRIES_MIN ∨
                  FLIPC2_RING_ENTRIES_MAX < hdr_ring_entries h)
  then FLIPC2_ERR_INVALID_ARGUMENT
  else if decide (hdr_ring_mask h ≠ hdr_ring_entries h -32 1) then FLIPC2_ERR_INVALID_ARGUMENT
  else if decide (Z.land (layout_flags h) FLIPC2_LAYOUT_ISOLATED ≠ 0) then
    if decide (ring_offset h ≠ FLIPC2_ISO_RING_OFFSET) then FLIPC2_ERR_INVALID_ARGUMENT
    else if decide (data_offset h ≠ FLIPC2_ISO_RING_OFFSET +32 (hdr_ring_entries h *32 FLIPC2_DESC_SIZE))
    then FLIPC2_ERR_INVALID_ARGUMENT
    else if decide (channel_size h < FLIPC2_CHANNEL_SIZE_MIN_ISOLATED) then FLIPC2_ERR_INVALID_ARGUMENT
    else if decide (channel_size h < data_offset h) then FLIPC2_ERR_INVALID_ARGUMENT
    else FLIPC2_SUCCESS
  else
    if decide (ring_offset h ≠ FLIPC2_HEADER_SIZE) then FLIPC2_ERR_INVALID_ARGUMENT
    else if decide (data_offset h ≠ FLIPC2_HEADER_SIZE +32 (hdr_ring_entries h *32 FLIPC2_DESC_SIZE))
    then FLIPC2_ERR_INVALID_ARGUMENT
    else if decide (channel_size h < data_offset h) then FLIPC2_ERR_INVALID_ARGUMENT
    else FLIPC2_SUCCESS.

Definition flipc2_channel_attach (base_addr : Z) : M region (Z * option chan_handle) :=
  if decide (base_addr = 0) then mret (FLIPC2_ERR_INVALID_ARGUMENT, None)
  else
    r ← get;
    let ret := attach_check (r_hdr r) in
    if decide (ret ≠ FLIPC2_SUCCESS) then mret (ret, None)
    else
      '(kr, out) ← call_out (VmAllocate SIZEOF_CHANNEL);
      if decide (kr ≠ KERN_SUCCESS) then mret (FLIPC2_ERR_RESOURCE_SHORTAGE, None)
      else mret (FLIPC2_SUCCESS, Some (flipc2_init_handle c (default 0 (head out)) base_addr (r_hdr r))).

Definition flipc2_channel_attach_remote (base_addr mapped_size : Z) :
    M region (Z * option chan_handle) :=
  '(ret, h) ← flipc2_channel_attach base_addr;
  if decide (ret ≠ FLIPC2_SUCCESS) then mret (ret, None)
  else mret (FLIPC2_SUCCESS, set_mapped_size mapped_size <$> h).

Definition set_magic (m : Z) (r : region) : region :=
  let h := r_hdr r in
  Region (ChannelHeader m (version h) (channel_size h) (ring_offset h) (hdr_ring_entries h)
    (hdr_ring_mask h) (data_offset h) (data_size h) (desc_size h) (wakeup_sem h) (wakeup_sem_prod h)
    (layout_flags h)) (r_vol r).

Definition flipc2_channel_destroy (h : chan_handle) : M region Z :=
  if decide (ch_hdr h = 0) then mret FLIPC2_ERR_INVALID_ARGUMENT
  else
    r ← get;
    put (set_magic 0 r);;
    call (VmDeallocate mach_task_self (ch_hdr h) (channel_size (r_hdr r)));;
    call (VmDeallocate mach_task_self (ch_self h) SIZEOF_CHANNEL);;
    mret FLIPC2_SUCCESS.

Definition flipc2_channel_detach (h : chan_handle) : M region Z :=
  (if decide (0 < ch_mapped_size h ∧ ch_hdr h ≠ 0)
   then call (VmDeallocate mach_task_self (ch_hdr h) (ch_mapped_size h));; mret tt else mret tt);;
  call (VmDeallocate mach_task_self (ch_self h) SIZEOF_CHANNEL);;
  mret FLIPC2_SUCCESS.

(** [vm_remap] hands back the address in the target and the protection. *)
Definition flipc2_channel_share (h : chan_handle) (target_task : port) : M region (Z * option Z) :=
  if decide (ch_hdr h = 0) then mret (FLIPC2_ERR_INVALID_ARGUMENT, None)
  else if decide (target_task = MACH_PORT_NULL) then mret (FLIPC2_ERR_INVALID_ARGUMENT, None)
  else
    r ← get;
    let size := channel_size (r_hdr r) in
    '(kr, out) ← call_out (VmRemap target_task (ch_hdr h) size);
    let target_addr := default 0 (out !! 0%nat) in
    let cur_prot := default 0 (out !! 1%nat) in
    if decide (kr ≠ KERN_SUCCESS) then mret (FLIPC2_ERR_MAP_FAILED, None)
    else if decide (Z.land cur_prot VM_PROT_READ = 0 ∨ Z.land cur_prot VM_PROT_WRITE = 0) then
      call (VmDeallocate target_task target_addr size);;
      mret (FLIPC2_ERR_MAP_FAILED, None)
    else mret (FLIPC2_SUCCESS, Some target_addr).

(** One section of the mapping, its offset, size and protection, after the others;
    a failure unmaps everything. *)
Definition protect_sections (target_task : port) (base cs : Z) : list (Z * Z * Z) → M region Z :=
  fix go secs := match secs with
  | [] => mret FLIPC2_SUCCESS
  | (off, size, prot) :: secs =>
      kr ← call (VmProtect target_task (base +32 off) size prot);
      if decide (kr ≠ KERN_SUCCESS) then
        call (VmDeallocate target_task base cs);; mret FLIPC2_ERR_MAP_FAILED
      else go secs
  end.

Definition sections (target_role cs : Z) : list (Z * Z * Z) :=
  let '(prod_prot, cons_prot, ring_prot) :=
    if decide (target_role = FLIPC2_ROLE_PRODUCER)
    then (Z.lor VM_PROT_READ VM_PROT_WRITE, VM_PROT_READ, Z.lor VM_PROT_READ VM_PROT_WRITE)
    else (VM_PROT_READ, Z.lor VM_PROT_READ VM_PROT_WRITE, VM_PROT_READ) in
  [(FLIPC2_ISO_CONST_OFFSET, 4096, VM_PROT_READ); (FLIPC2_ISO_PROD_OFFSET, 4096, prod_prot);
   (FLIPC2_ISO_CONS_OFFSET, 4096, cons_prot);
   (FLIPC2_ISO_RING_OFFSET, cs -32 FLIPC2_ISO_RING_OFFSET, ring_prot)].

Definition flipc2_channel_share_isolated (h : chan_handle) (target_task : port) (target_role : Z) :
    M region (Z * option Z) :=
  if decide (ch_hdr h = 0) then mret (FLIPC2_ERR_INVALID_ARGUMENT, None)
  else
    r ← get;
    if decide (Z.land (layout_flags (r_hdr r)) FLIPC2_LAYOUT_ISOLATED = 0)
    then mret (FLIPC2_ERR_INVALID_ARGUMENT, None)
    else if decide (target_role ≠ FLIPC2_ROLE_PRODUCER ∧ target_role ≠ FLIPC2_ROLE_CONSUMER)
    then mret (FLIPC2_ERR_INVALID_ARGUMENT, None)
    else
      '(ret, base) ← flipc2_channel_share h target_task;
      match base with
      | None => mret (ret, None)
      | Some base =>
          let cs := channel_size (r_hdr r) in
          ret ← protect_sections target_task base cs (sections target_role cs);
          mret (ret, if decide (ret = FLIPC2_SUCCESS) then Some base else None)
      end.

Definition flipc2_semaphore_share (sem target_task target_name : port) : M region Z :=
  if decide (sem = MACH_PORT_NULL) then mret FLIPC2_SUCCESS
  else if decide (target_task = MACH_PORT_NULL) then mret FLIPC2_ERR_INVALID_ARGUMENT
  else
    kr ← call (MachPortInsertRight target_task target_name sem);
    mret (if decide (kr ≠ KERN_SUCCESS) then FLIPC2_ERR_KERNEL else FLIPC2_SUCCESS).
End operations.

(** ** Powers of two *)

Lemma is_power_of_2_spec n : is_u32 n → is_power_of_2 n = true → n = 2 ^ Z.log2 n.
Proof.
  unfold is_power_of_2, is_u32. intros Hn [Hz Hl]%bool_decide_eq_true.
  rewrite u32_small in Hl by (unfold is_u32; lia).
  destruct (Z.log2_spec n ltac:(lia)) as [H1 H2]. set (k := Z.log2 n) in *.
  destruct (decide (n = 2 ^ k)) as [|Hne]; [done|exfalso].
  assert (Hk : Z.log2 (n - 1) = k) by (apply Z.log2_unique; [apply Z.log2_nonneg|lia]).
  assert (0 < n - 1) by (pose proof (Z.pow_pos_nonneg 2 k ltac:(lia) (Z.log2_nonneg n)); lia).
  assert (Hb : Z.testbit (Z.land n (n - 1)) k = true).
  { rewrite Z.land_spec. unfold k at 1. rewrite Z.bit_log2 by lia. rewrite <- Hk. by rewrite Z.bit_log2. }
  by rewrite Hl, Z.bits_0 in Hb.
Qed.

(** ** What is created *)

(** The volatile words of a channel, for the machine. *)
Definition channel_memory (c : nat) (r : region) : loc → Z := λ x,
  if decide (x.1 = c) then r_vol r x.2 else 0.

(** The header that a successful creation leaves. *)
Definition header_ok (h : channel_header) : Prop :=
  (∃ e, 4 <= e <= 14 ∧ hdr_ring_entries h = 2 ^ e) ∧
  hdr_ring_mask h = hdr_ring_entries h - 1 ∧
  FLIPC2_CHANNEL_SIZE_MIN <= channel_size h <= FLIPC2_CHANNEL_SIZE_MAX ∧
  ((layout_flags h = FLIPC2_LAYOUT_ISOLATED ∧ ring_offset h = FLIPC2_ISO_RING_OFFSET ∧
    FLIPC2_CHANNEL_SIZE_MIN_ISOLATED <= channel_size h) ∨
   (layout_flags h = FLIPC2_LAYOUT_FLAT ∧ ring_offset h = FLIPC2_HEADER_SIZE)) ∧
  data_offset h = ring_offset h + FLIPC2_DESC_SIZE * hdr_ring_entries h ∧
  0 <= data_size h ∧ data_offset h + data_size h = channel_size h.

Lemma entries_range h : header_ok h → 16 <= hdr_ring_entries h <= 16384.
Proof.
  intros [(e & He & ->) _]. split; [apply (Z.pow_le_mono_r 2 4)|apply (Z.pow_le_mono_r 2 e 14)]; lia.
Qed.

Lemma power_in_range n :
  is_power_of_2 n = true → 16 <= n <= 16384 → ∃ e, 4 <= e <= 14 ∧ n = 2 ^ e.
Proof.
  intros Hp Hn. exists (Z.log2 n). split; [|apply is_power_of_2_spec; [unfold is_u32; lia|done]].
  split; [apply (Z.log2_le_mono 16)|apply (Z.log2_le_mono n 16384)]; lia.
Qed.

Definition is_isolated (flags : Z) : bool := bool_decide (Z.land flags FLIPC2_CREATE_ISOLATED ≠ 0).

Lemma init_header_ok size entries flags :
  FLIPC2_CHANNEL_SIZE_MIN <= size <= FLIPC2_CHANNEL_SIZE_MAX →
  is_power_of_2 entries = true → 16 <= entries <= 16384 →
  (is_isolated flags = true → FLIPC2_CHANNEL_SIZE_MIN_ISOLATED <= size) →
  (if is_isolated flags then FLIPC2_ISO_RING_OFFSET else FLIPC2_HEADER_SIZE) + entries * 64 <= size →
  header_ok (r_hdr (flipc2_init_header size entries flags)).
Proof.
  intros Hs Hp Hr Hi Hm. unfold flipc2_init_header. change (bool_decide _) with (is_isolated flags).
  split; [by apply power_in_range|]. cbn.
  unfold FLIPC2_CHANNEL_SIZE_MIN, FLIPC2_CHANNEL_SIZE_MAX, FLIPC2_DESC_SIZE,
    FLIPC2_ISO_RING_OFFSET, FLIPC2_HEADER_SIZE in *.
  rewrite (u32_small (entries * 64)) by (unfold is_u32; lia).
  rewrite (u32_small (_ + entries * 64)) by (unfold is_u32; destruct (is_isolated flags); lia).
  destruct (is_isolated flags); rewrite !u32_small by (unfold is_u32; lia); lia.
Qed.

Lemma create_ok {E : MachEnv} self c size entries flags reg l r h reg' :
  res (flipc2_channel_create_ex self c size entries flags reg l) = (r, Some h) →
  post (flipc2_channel_create_ex self c size entries flags reg l) = reg' →
  r = FLIPC2_SUCCESS ∧ reg' = flipc2_init_header size entries flags ∧ header_ok (r_hdr reg') ∧ is_power_of_2 entries = true ∧
  ∃ a b, h = flipc2_init_handle c a b (r_hdr reg').
Proof.
  unfold flipc2_channel_create_ex, FLIPC2_RING_ENTRIES_MIN, FLIPC2_RING_ENTRIES_MAX, FLIPC2_DESC_SIZE.
  change (bool_decide _) with (is_isolated flags).
  case_decide as Hs; [done|]. case_decide as He; [done|].
  assert (Hp : is_power_of_2 entries = true ∧ 16 <= entries <= 16384).
  { destruct (is_power_of_2 entries); split; naive_solver lia. }
  destruct Hp as [Hp Hr]. case_decide as Hi; [done|]. case_decide as Hm; [done|].
  rewrite (u32_small (entries * 64)) in Hm by (unfold is_u32; lia).
  rewrite u32_small in Hm by
    (unfold is_u32, FLIPC2_ISO_RING_OFFSET, FLIPC2_HEADER_SIZE; destruct (is_isolated flags); lia).
  munfold. repeat case_decide; try done. intros [= <- <-] <-. split_and!; [done|done| |done|by eauto].
  apply init_header_ok; [lia|done|done| |lia]. intros Hf. rewrite Hf in Hi.
  destruct (decide (size < FLIPC2_CHANNEL_SIZE_MIN_ISOLATED)); [naive_solver|lia].
Qed.

Lemma header_ok_attach h :
  header_ok h → is_power_of_2 (hdr_ring_entries h) = true → magic h = FLIPC2_MAGIC →
  version h = FLIPC2_VERSION → attach_check h = FLIPC2_SUCCESS.
Proof.
  intros Hok Hp Hmag Hver. pose proof (entries_range h Hok) as Hr.
  destruct Hok as (_ & Hmask & Hsz & Hl & Hd & Hds & Hsum).
  unfold attach_check, FLIPC2_RING_ENTRIES_MIN, FLIPC2_RING_ENTRIES_MAX, FLIPC2_DESC_SIZE in *.
  rewrite Hp, Hmag, Hver, Hmask.
  rewrite (u32_small (hdr_ring_entries h * 64)) by (unfold is_u32; lia).
  rewrite (u32_small (hdr_ring_entries h - 1)) by (unfold is_u32; lia).
  rewrite !decide_False by naive_solver lia.
  unfold FLIPC2_CHANNEL_SIZE_MIN, FLIPC2_ISO_RING_OFFSET, FLIPC2_HEADER_SIZE,
    FLIPC2_CHANNEL_SIZE_MIN_ISOLATED in *.
  rewrite !u32_small by (unfold is_u32; lia).
  destruct Hl as [(-> & Hro & Hmin)|(-> & Hro)]; rewrite Hro in *;
    repeat case_decide; done || lia.
Qed.

(** C33. What is created is what the ring operations start from, and peers can
    attach to it.  After a successful [flipc2_channel_create_ex] (either layout): the
    number of entries is a power of two from 2^4 to 2^14, the counters are level at
    0 and the threshold is 1; the creator's handle knows the ring; and
    [flipc2_channel_attach] at any address succeeds unless the memory for the handle
    is refused, changes nothing, and gives a handle that knows the same ring.  These
    are the hypotheses under which the ring is proved to be a queue. *)
Theorem create_attach {E : MachEnv} self c size entries flags reg l r h reg' :
  res (flipc2_channel_create_ex self c size entries flags reg l) = (r, Some h) →
  post (flipc2_channel_create_ex self c size entries flags reg l) = reg' →
  r = FLIPC2_SUCCESS ∧ (∃ e, 4 <= e <= 14 ∧ entries = 2 ^ e) ∧
  level c 1 0 (channel_memory c reg') ∧ handle_at c entries 0 (ch_ring_state h) ∧
  ∀ base l', base ≠ 0 →
    post (flipc2_channel_attach c base reg' l') = reg' ∧
    (mach_kr l' (VmAllocate SIZEOF_CHANNEL) ≠ KERN_SUCCESS →
       res (flipc2_channel_attach c base reg' l') = (FLIPC2_ERR_RESOURCE_SHORTAGE, None)) ∧
    (mach_kr l' (VmAllocate SIZEOF_CHANNEL) = KERN_SUCCESS →
       ∃ h', res (flipc2_channel_attach c base reg' l') = (FLIPC2_SUCCESS, Some h') ∧
             handle_at c entries 0 (ch_ring_state h')).
Proof.
  intros Hc Hp.
  destruct (create_ok _ _ _ _ _ _ _ _ _ _ Hc Hp) as (-> & Hreg & Hok & Hpow & a & b & ->).
  assert (Hent : hdr_ring_entries (r_hdr reg') = entries) by (by rewrite Hreg).
  assert (Hat : attach_check (r_hdr reg') = FLIPC2_SUCCESS).
  { apply header_ok_attach; [done|by rewrite Hent|by rewrite Hreg..]. }
  pose proof Hok as ((e & He & Hpe) & Hmask & _). rewrite Hent in Hpe, Hmask. split_and!.
  - done.
  - exists e. split; [lia|done].
  - unfold level, channel_memory. cbn. rewrite !decide_True by done. by rewrite Hreg.
  - unfold handle_at. cbn. by rewrite Hent, Hmask.
  - intros base l' Hb. unfold flipc2_channel_attach. rewrite decide_False by done. munfold.
    rewrite Hat, decide_False by naive_solver. split_and!.
    + by case_decide.
    + intros Hk. by rewrite decide_True.
    + intros Hk. rewrite decide_False by naive_solver. eexists. split; [done|].
      unfold handle_at. cbn. by rewrite Hent, Hmask.
Qed.

Lemma create_attach_witness :
  ∃ h, res (flipc2_channel_attach (E := env_ok) 0 4096 (flipc2_init_header 16384 64 1) []) =
    (FLIPC2_SUCCESS, Some h) ∧ handle_at 0 64 0 (ch_ring_state h).
Proof.
  destruct (create_attach (E := env_ok) 1 0 16384 64 1 (flipc2_init_header 0 0 0) [] FLIPC2_SUCCESS
    (flipc2_init_handle 0 0 0 (r_hdr (flipc2_init_header 16384 64 1)))
    (flipc2_init_header 16384 64 1) eq_refl eq_refl) as (_ & _ & _ & _ & H).
  exact (proj2 (proj2 (H 4096 [] ltac:(done))) eq_refl).
Defined.

(** ** The layout *)

Ltac layout_cases :=
  repeat match goal with f : field |- _ => destruct f end; cbn in *;
  try done; unfold FLIPC2_ISO_PROD_OFFSET, FLIPC2_ISO_CONS_OFFSET, FLIPC2_ISO_RING_OFFSET,
    FLIPC2_HEADER_SIZE, FLIPC2_DESC_SIZE, DESC_WORDS in *.

(** C35. The memory of a channel is laid out without overlaps, in both layouts and for
    every size that [flipc2_channel_create_ex] accepts: the constants, the volatile
    fields and the words of the descriptors occupy disjoint bytes, all before the
    data region; the data region ends with the channel; and what
    [flipc2_data_ptr_safe] accepts, for any offset and length of 64 bits, lies in
    it. *)
Theorem channel_layout {E : MachEnv} self c size entries flags reg l r h reg' :
  res (flipc2_channel_create_ex self c size entries flags reg l) = (r, Some h) →
  post (flipc2_channel_create_ex self c size entries flags reg l) = reg' →
  let hdr := r_hdr reg' in
  (∀ f, has_field entries f →
     48 <= field_offset hdr f ∧ field_offset hdr f + field_size f <= data_offset hdr) ∧
  (∀ f g, has_field entries f → has_field entries g → f ≠ g →
     field_offset hdr f + field_size f <= field_offset hdr g ∨
     field_offset hdr g + field_size g <= field_offset hdr f) ∧
  data_offset hdr + data_size hdr = size ∧
  (∀ offset length, is_u64 offset → is_u64 length →
     (flipc2_data_ptr_safe hdr offset length = Some offset ∧
        data_offset hdr + offset + length <= size) ∨
     (flipc2_data_ptr_safe hdr offset length = None ∧ data_size hdr < offset + length)).
Proof.
  intros Hc Hp hdr. destruct (create_ok _ _ _ _ _ _ _ _ _ _ Hc Hp) as (_ & Hreg & Hok & _).
  assert (Hent : hdr_ring_entries hdr = entries) by (unfold hdr; by rewrite Hreg).
  assert (Hsz : channel_size hdr = size) by (unfold hdr; by rewrite Hreg).
  pose proof (entries_range _ Hok) as Hr. fold hdr in Hok, Hr. rewrite Hent in Hr.
  destruct Hok as (_ & _ & Hmax & Hl & Hd & Hds & Hsum). rewrite Hsz in *. rewrite Hent in Hd.
  assert (Hro : is_isolated (layout_flags hdr) = true ∧ ring_offset hdr = FLIPC2_ISO_RING_OFFSET ∨
                is_isolated (layout_flags hdr) = false ∧ ring_offset hdr = FLIPC2_HEADER_SIZE).
  { destruct Hl as [(-> & -> & _)|(-> & ->)]; auto. }
  split_and!; [| |done|].
  - intros f Hf. unfold field_offset. change (bool_decide _) with (is_isolated (layout_flags hdr)).
    rewrite Hd. destruct Hro as [[-> ->]|[-> ->]]; layout_cases; lia.
  - intros f g Hf Hg Hne. unfold field_offset. change (bool_decide _) with (is_isolated (layout_flags hdr)).
    assert (Hw : ∀ s j s' j', f = WORD s j → g = WORD s' j' → s ≠ s' ∨ j ≠ j').
    { intros s j s' j' -> ->. destruct (decide (s = s')) as [->|]; [right|by left]. intros ->. done. }
    destruct Hro as [[-> ->]|[-> ->]]; layout_cases; try lia.
    + specialize (Hw _ _ _ _ eq_refl eq_refl). lia.
    + specialize (Hw _ _ _ _ eq_refl eq_refl). lia.
  - intros o len Ho Hlen. unfold flipc2_data_ptr_safe. unfold is_u64 in *.
    destruct (decide (o + len < 18446744073709551616)).
    + rewrite u64_small by (unfold is_u64; lia). repeat case_decide; try lia; [by right|left; split; [done|lia]].
    + unfold FLIPC2_CHANNEL_SIZE_MAX, FLIPC2_DESC_SIZE, FLIPC2_ISO_RING_OFFSET, FLIPC2_HEADER_SIZE in *.
      right. split; [|lia]. case_decide; [done|]. rewrite decide_True; [done|].
      assert (o +64 len = o + len - 18446744073709551616) as ->; [|lia].
      unfold u64. symmetry. apply Z.mod_unique with (q := 1); lia.
Qed.

Lemma channel_layout_witness :
  let hdr := r_hdr (flipc2_init_header 16384 64 1) in
  field_offset hdr (WORD 63 15) + 4 <= data_offset hdr ∧ data_offset hdr + data_size hdr = 16384.
Proof.
  destruct (channel_layout (E := env_ok) 1 0 16384 64 1 (flipc2_init_header 0 0 0) [] FLIPC2_SUCCESS
    (flipc2_init_handle 0 0 0 (r_hdr (flipc2_init_header 16384 64 1)))
    (flipc2_init_header 16384 64 1) eq_refl eq_refl) as (H1 & _ & H2 & _).
  split; [|exact H2]. refine (proj2 (H1 (WORD 63 15) _)). cbn. unfold DESC_WORDS. lia.
Defined.

(** ** Protections per role *)

(** A mapping: the task that has it and the address there, the address in the caller
    of the memory that it shows, and its size. *)
Record mapping := Mapping { m_task : port; m_addr : Z; m_source : Z; m_size : Z }.
#[global] Instance mapping_eq_dec : EqDecision mapping.
Proof. solve_decision. Defined.

(** What [vm_deallocate] of a whole mapping names. *)
Definition names_mapping (task : port) (addr size : Z) (m : mapping) : Prop :=
  m_task m = task ∧ m_addr m = addr ∧ m_size m = size.
#[global] Instance names_mapping_dec task addr size m : Decision (names_mapping task addr size m).
Proof. unfold names_mapping. apply _. Defined.

(** The mappings, in all tasks, that the calls of [t], made after [l], leave. *)
Fixpoint mappings {E : MachEnv} (l t : list mach_call) (ms : list mapping) : list mapping :=
  match t with
  | [] => ms
  | k :: t =>
      mappings (l ++ [k]) t
        match k with
        | VmRemap task source size =>
            if decide (mach_kr l k = KERN_SUCCESS)
            then Mapping task (default 0 (mach_out l k !! 0%nat)) source size :: ms else ms
        | VmDeallocate task addr size => filter (λ m, ¬ names_mapping task addr size m) ms
        | _ => ms
        end
  end.
(** The protection of address [a] of [task] after the calls of [t]. *)
Definition protection (task : port) (p : Z) (t : list mach_call) (a : Z) : Z :=
  foldl (λ p k, match k with
    | VmProtect task' addr size prot =>
        if decide (task' = task ∧ addr <= a < addr + size) then prot else p
    | _ => p end) p t.

(** What a role may do at an offset of the mapping. *)
Definition role_prot (role o : Z) : Z :=
  if decide (o < FLIPC2_ISO_PROD_OFFSET) then VM_PROT_READ
  else if decide (FLIPC2_ISO_CONS_OFFSET <= o < FLIPC2_ISO_RING_OFFSET)
  then (if decide (role = FLIPC2_ROLE_CONSUMER) then 3 else VM_PROT_READ)
  else (if decide (role = FLIPC2_ROLE_PRODUCER) then 3 else VM_PROT_READ).

Definition is_protect (k : mach_call) : Prop :=
  match k with VmProtect _ _ _ _ => True | _ => False end.
Definition section_call (target : port) (base : Z) (s : Z * Z * Z) : mach_call :=
  VmProtect target (base +32 s.1.1) s.1.2 s.2.

Lemma mappings_protect {E : MachEnv} l t t' ms :
  Forall is_protect t → mappings l (t ++ t') ms = mappings (l ++ t) t' ms.
Proof.
  revert l. induction t as [|k t IH]; intros l Ht; [by rewrite app_nil_r|].
  apply Forall_cons_iff in Ht as [Hk Ht]. destruct k; try done. cbn. rewrite IH by done.
  by rewrite <- app_assoc.
Qed.

Lemma mappings_unmap {E : MachEnv} l target base source cs :
  mappings l [VmDeallocate target base cs] [Mapping target base source cs] = [].
Proof. cbn [mappings]. rewrite filter_cons_False; [done|]. unfold names_mapping. naive_solver. Qed.

Lemma protect_sections_spec {E : MachEnv} target base cs secs reg l :
  ∃ t, trace (protect_sections target base cs secs reg l) = l ++ t ∧
    post (protect_sections target base cs secs reg l) = reg ∧
    ((res (protect_sections target base cs secs reg l) = FLIPC2_SUCCESS ∧
        t = section_call target base <$> secs) ∨
     (res (protect_sections target base cs secs reg l) = FLIPC2_ERR_MAP_FAILED ∧
        ∃ t', t = t' ++ [VmDeallocate target base cs] ∧ Forall is_protect t')).
Proof.
  revert l. induction secs as [|[[off size] prot] secs IH]; intros l.
  - exists []. split_and!; [by rewrite app_nil_r|done|by left].
  - cbn [protect_sections]. munfold. set (k := VmProtect target (base +32 off) size prot). case_decide.
    + exists [k; VmDeallocate target base cs]. cbn. rewrite <- app_assoc. split_and!; [done..|].
      right. split; [done|]. exists [k]. split; [done|]. by repeat constructor.
    + destruct (IH (l ++ [k])) as (t & Ht & Hp & Hr). munfold. exists (k :: t).
      rewrite Ht, <- app_assoc. split_and!; [done..|].
      destruct Hr as [[Hr ->]|(Hr & t' & -> & Hf)]; [by left|right]. split; [done|].
      exists (k :: t'). split; [done|]. by constructor.
Qed.

Lemma sections_protect p0 target base role cs o :
  (role = FLIPC2_ROLE_PRODUCER ∨ role = FLIPC2_ROLE_CONSUMER) →
  FLIPC2_CHANNEL_SIZE_MIN_ISOLATED <= cs <= FLIPC2_CHANNEL_SIZE_MAX →
  0 <= base → base + cs <= 4294967296 → 0 <= o < cs →
  protection target p0 (section_call target base <$> sections role cs) (base + o) = role_prot role o.
Proof.
  unfold FLIPC2_CHANNEL_SIZE_MIN_ISOLATED, FLIPC2_CHANNEL_SIZE_MAX. intros Hrole Hcs Hb1 Hb2 Ho.
  unfold sections, role_prot, protection, section_call, FLIPC2_ISO_CONST_OFFSET, FLIPC2_ISO_PROD_OFFSET,
    FLIPC2_ISO_CONS_OFFSET, FLIPC2_ISO_RING_OFFSET, FLIPC2_ROLE_PRODUCER, FLIPC2_ROLE_CONSUMER in *.
  destruct Hrole as [-> | ->];
    [rewrite (decide_True (P := 1 = 1)) by done|rewrite (decide_False (P := 2 = 1)) by done];
    cbn; rewrite !u32_small by (unfold is_u32; lia); repeat case_decide; done || lia.
Qed.

(** C34. [flipc2_channel_share_isolated] enforces the roles.  For an isolated channel,
    whatever the kernel answers: on success the call has left exactly one mapping, in
    the target task, at the address returned, of the whole channel of the handle, in
    which a producer may write the producer page, the ring and
    the data, a consumer may write the consumer page, nobody may write the
    constants, and everything else can be read only; on failure nothing stays
    mapped in any task.  The kernel is only assumed to place the mapping within the address
    space. *)
Theorem share_isolated_roles {E : MachEnv} h target role reg l p0 :
  header_ok (r_hdr reg) → layout_flags (r_hdr reg) = FLIPC2_LAYOUT_ISOLATED →
  let cs := channel_size (r_hdr reg) in
  ∃ t, trace (flipc2_channel_share_isolated h target role reg l) = l ++ t ∧
    post (flipc2_channel_share_isolated h target role reg l) = reg ∧
    match res (flipc2_channel_share_isolated h target role reg l) with
    | (r, Some base) =>
        r = FLIPC2_SUCCESS ∧ mappings l t [] = [Mapping target base (ch_hdr h) cs] ∧
        (0 <= base → base + cs <= 4294967296 →
         ∀ o, 0 <= o < cs → protection target p0 t (base + o) = role_prot role o)
    | (r, None) => r ≠ FLIPC2_SUCCESS ∧ mappings l t [] = []
    end.
Proof.
  intros Hok Hiso cs. destruct Hok as (_ & _ & Hmax & Hl & _).
  assert (Hcs : FLIPC2_CHANNEL_SIZE_MIN_ISOLATED <= cs <= FLIPC2_CHANNEL_SIZE_MAX).
  { destruct Hl as [(_ & _ & ?)|[Hf _]]; [unfold cs; lia|by rewrite Hf in Hiso]. }
  unfold flipc2_channel_share_isolated, flipc2_channel_share.
  case_decide; [exists []; munfold; by rewrite app_nil_r|]. munfold. rewrite Hiso, decide_False by done.
  case_decide as Hrole; [exists []; by rewrite app_nil_r|].
  case_decide; [exists []; by rewrite app_nil_r|]. fold cs.
  set (k := VmRemap target (ch_hdr h) cs). set (base := default 0 (mach_out l k !! 0%nat)).
  case_decide as Hkr; [exists [k]; cbn; by rewrite decide_False by done|].
  assert (Hmap : ∀ t, mappings l (k :: t) [] = mappings (l ++ [k]) t [Mapping target base (ch_hdr h) cs]).
  { intros t. cbn. by rewrite decide_True by (by destruct (decide (mach_kr l k = KERN_SUCCESS))). }
  case_decide.
  - exists [k; VmDeallocate target base cs]. rewrite Hmap, mappings_unmap, <- app_assoc. done.
  - destruct (protect_sections_spec target base cs (sections role cs) reg (l ++ [k])) as (t & Ht & Hp & Hr).
    unfold res, post, trace in Ht, Hp, Hr.
    destruct (protect_sections _ _ _ _ _ _) as [[ret reg'] l']. cbn in Ht, Hp, Hr |- *. subst.
    exists (k :: t). rewrite Hmap, <- app_assoc. split_and!; [done..|].
    destruct Hr as [[-> ->]|(-> & t' & -> & Hf)].
    + rewrite decide_True by done. split_and!; [done| |].
      * rewrite <- (app_nil_r (_ <$> _)), mappings_protect; [done|].
        by apply Forall_fmap, Forall_true.
      * intros. cbn [protection foldl]. apply sections_protect; try done. lia.
    + rewrite decide_False by done. split; [done|]. by rewrite mappings_protect, mappings_unmap.
Qed.

(** A kernel that maps at address 65536. *)
Definition env_maps : MachEnv := {|
  mach_kr _ _ := KERN_SUCCESS;
  mach_out _ k := match k with VmRemap _ _ _ => [65536; 3] | _ => [] end |}.
Definition share_example :=
  flipc2_channel_share_isolated (E := env_maps)
    (flipc2_init_handle 0 4096 4096 (r_hdr (flipc2_init_header 16384 64 1))) 7 FLIPC2_ROLE_CONSUMER
    (flipc2_init_header 16384 64 1) [].

Lemma share_isolated_roles_witness :
  res share_example = (FLIPC2_SUCCESS, Some 65536) ∧
  mappings (E := env_maps) [] (trace share_example) [] = [Mapping 7 65536 4096 16384] ∧
  protection 7 3 (trace share_example) (65536 + 8192) = 3 ∧
  protection 7 3 (trace share_example) (65536 + 4096) = VM_PROT_READ.
Proof.
  destruct (share_isolated_roles (E := env_maps)
    (flipc2_init_handle 0 4096 4096 (r_hdr (flipc2_init_header 16384 64 1))) 7 FLIPC2_ROLE_CONSUMER
    (flipc2_init_header 16384 64 1) [] 3) as (t & Ht & _ & H).
  - by apply init_header_ok.
  - done.
  - change (trace share_example = t) in Ht. rewrite Ht. cbn in H.
    destruct H as (_ & Hm & H). split; [done|]. split; [exact Hm|].
    split; refine (H _ _ _ _); done.
Defined.

(** ** Each side writes where its role may *)

(** Every location that the program writes satisfies [W], every result [Q]. *)
Fixpoint writes {loc ev A} (W : loc → Prop) (Q : A → Prop) (p : prog loc ev A) : Prop :=
  match p with
  | Ret a => Q a
  | Load _ k | FutexWait _ _ k => ∀ v, writes W Q (k v)
  | Rmw x _ k => W x ∧ ∀ v, writes W Q (k v)
  | Store x _ k => W x ∧ writes W Q k
  | Mfence k | FutexWake _ _ k | Note _ k => writes W Q k
  end.
Lemma writes_bind {loc ev A B} (W : loc → Prop) (Q : B → Prop) (p : prog loc ev A) (f : A → prog loc ev B) :
  writes W (λ a, writes W Q (f a)) p → writes W Q (p ≫= f).
Proof. change (p ≫= f) with (prog_bind f p). induction p; cbn; naive_solver. Qed.
Lemma writes_mono {loc ev A} (W : loc → Prop) (Q Q' : A → Prop) (p : prog loc ev A) :
  (∀ a, Q a → Q' a) → writes W Q p → writes W Q' p.
Proof. intros HQ. induction p; cbn; naive_solver. Qed.

Lemma writes_weaken {loc ev A} (W W' : loc → Prop) (Q : A → Prop) (p : prog loc ev A) :
  (∀ x, W x → W' x) → writes W Q p → writes W' Q p.
Proof. intros HW. induction p; cbn; naive_solver. Qed.

Section roles.
Context (c : nat) (n : Z).
Hypothesis n_range : 0 < n <= 16384.
Hypothesis mask_low : ∀ x, 0 <= Z.land x (n - 1) < n.

Definition by_producer (x : loc) : Prop :=
  x.1 = c ∧ has_field n x.2 ∧ match x.2 with CONS_HEAD | CONS_SLEEPING | CONS_TOTAL => False | _ => True end.
Definition by_consumer (x : loc) : Prop :=
  x.1 = c ∧ match x.2 with CONS_HEAD | CONS_SLEEPING | CONS_TOTAL => True | _ => False end.
Definition knows (ch : channel) : Prop := chan ch = c ∧ ring_mask ch = n - 1.
Definition slot_ok (r : option Z * channel) : Prop :=
  knows r.2 ∧ ∀ s, r.1 = Some s → 0 <= s < n.

Lemma idx_ok ch x : knows ch → 0 <= flipc2_ring_idx ch x < n.
Proof. intros [_ Hm]. unfold flipc2_ring_idx. rewrite Hm. apply mask_low. Qed.
Lemma some_slot_ok ch ch' x : knows ch → knows ch' → slot_ok (Some (flipc2_ring_idx ch x), ch').
Proof. intros H H'. split; [done|]. intros s [= <-]. by apply idx_ok. Qed.
Lemma no_slot_ok ch : knows ch → slot_ok (None, ch).
Proof. by split. Qed.
#[local] Hint Resolve some_slot_ok no_slot_ok : core.

(** Code without loops: follow it, split on its tests, look at its stores. *)
Ltac follow :=
  repeat match goal with
  | |- ∀ _, _ => intro
  | |- writes _ _ (if decide ?P then _ else _) => destruct (decide P)
  | |- writes _ _ _ => progress cbn [writes mbind mret prog_bind prog_mbind prog_ret load store rmw mfence
      futex_wake futex_wait note]
  | |- _ (chan _, _) ∧ _ => split
  end.

(** A store to a field of the channel. *)
Ltac own :=
  match goal with
  | Hk : knows _ |- _ =>
      destruct Hk as [Hk _]; unfold by_producer, by_consumer; cbn; rewrite Hk; done
  end.

Lemma writes_reserve ch : knows ch → writes by_producer slot_ok (flipc2_produce_reserve ch).
Proof. intros Hk. unfold flipc2_produce_reserve. follow; auto. Qed.
Lemma writes_doorbell ch : knows ch → writes by_producer (λ _, True) (doorbell ch).
Proof. intros Hk. unfold doorbell. follow; done || own. Qed.
Lemma writes_commit_n ch k : knows ch → writes by_producer (λ _, True) (flipc2_produce_commit_n ch k).
Proof.
  intros Hk. unfold flipc2_produce_commit_n. follow; try own. by apply writes_doorbell.
Qed.
Lemma writes_commit ch : knows ch → writes by_producer (λ _, True) (flipc2_produce_commit ch).
Proof. apply (writes_commit_n ch 1). Qed.

Lemma writes_produce_spin k tail ch :
  knows ch →
  writes by_producer (λ r, knows r.2 ∧ ∀ x, r.1 = Some x → slot_ok (x, r.2)) (produce_spin k tail ch).
Proof.
  revert ch. induction k as [|k IH]; intros ch Hk; [done|]. cbn [produce_spin].
  follow; [| |by apply IH]; (split; [done|]); intros x [= <-]; auto.
Qed.
Lemma writes_produce_sleep tail ch : knows ch → writes by_producer slot_ok (produce_sleep tail ch).
Proof. intros Hk. unfold produce_sleep. follow; try own; auto. Qed.
Lemma writes_produce_wait ch spin : knows ch → writes by_producer slot_ok (flipc2_produce_wait ch spin).
Proof.
  intros Hk. unfold flipc2_produce_wait. intros tail. cbn [prog_bind]. apply writes_bind.
  eapply writes_mono with (Q := λ r, knows r.2); [|case_decide; [intros v; done|done]].
  intros [space ch1] Hk1. cbn in Hk1. case_decide; [by apply some_slot_ok|]. case_decide; [by apply no_slot_ok|].
  apply writes_bind. eapply writes_mono; [|by apply writes_produce_spin].
  intros [[r|] ch2] [Hk2 Hr]; [by apply Hr|by apply writes_produce_sleep].
Qed.

Lemma writes_desc ch slot d : knows ch → 0 <= slot < n → writes by_producer (λ _, True) (write_desc ch slot d).
Proof.
  intros Hk Hs. unfold write_desc. assert (Hj : Forall (λ j, (j < DESC_WORDS)%nat) (seq 0 DESC_WORDS)).
  { apply Forall_seq. lia. }
  revert Hj. generalize (seq 0 DESC_WORDS) as js. induction js as [|j js IH]; intros Hj; [done|].
  apply Forall_cons_iff in Hj as [Hj Hjs]. cbn [foldr]. follow; [|by apply IH]. split; [by destruct Hk|]. by split.
Qed.
Lemma writes_send_at ch slot d : slot_ok (slot, ch) → writes by_producer knows (send_at ch slot d).
Proof.
  intros [Hk Hs]. destruct slot as [s|]; [|done]. cbn [send_at]. follow. apply writes_bind.
  eapply writes_mono; [|apply writes_desc; [done|by apply Hs]]. intros _ _. apply writes_bind.
  eapply writes_mono; [|by apply writes_commit]. done.
Qed.
Lemma writes_fill ch ptr ds : knows ch → writes by_producer (λ _, True) (fill ch ptr ds).
Proof.
  intros Hk. revert ptr. induction ds as [|d ds IH]; intros ptr; [done|]. cbn [fill]. follow.
  apply writes_bind. eapply writes_mono; [|apply writes_desc; [done|by apply idx_ok]]. intros _ _. apply IH.
Qed.
Lemma writes_producer ch rs : knows ch → writes by_producer (λ _, True) (producer ch rs).
Proof.
  revert ch. induction rs as [|r rs IH]; intros ch Hk; [done|]. cbn [producer]. apply writes_bind.
  eapply writes_mono; [intros ch'; apply IH|]. destruct r as [d|spin d|ds]; cbn [send]; apply writes_bind.
  - eapply writes_mono; [|by apply writes_reserve]. intros [slot ch']. apply writes_send_at.
  - eapply writes_mono; [|by apply writes_produce_wait]. intros [slot ch']. apply writes_send_at.
  - eapply writes_mono; [|by apply writes_reserve]. intros [[slot|] ch'] [Hk' _]; [|done].
    follow; [|done]. apply writes_bind. eapply writes_mono; [|by apply writes_fill]. intros _ _.
    apply writes_bind. eapply writes_mono; [|by apply writes_commit_n]. done.
Qed.

(** The consumer. *)
Lemma writes_peek ch : knows ch → writes by_consumer (λ r, knows r.2) (flipc2_consume_peek ch).
Proof. intros Hk. unfold flipc2_consume_peek. follow; done. Qed.
Lemma writes_release_n ch k : knows ch → writes by_consumer (λ _, True) (flipc2_consume_release_n ch k).
Proof. intros Hk. unfold flipc2_consume_release_n. follow; done || own. Qed.
Lemma writes_release ch : knows ch → writes by_consumer (λ _, True) (flipc2_consume_release ch).
Proof. apply (writes_release_n ch 1). Qed.
Lemma writes_consume_spin k head ch :
  knows ch → writes by_consumer (λ r, knows r.2) (consume_spin k head ch).
Proof.
  revert ch. induction k as [|k IH]; intros ch Hk; [done|]. cbn [consume_spin]. follow; try done. by apply IH.
Qed.
Lemma writes_arm head ch : knows ch → writes by_consumer (λ r, knows r.2) (consume_arm head ch).
Proof. intros Hk. unfold consume_arm. follow; done || own. Qed.
Lemma writes_consume_wait fuel ch spin :
  knows ch → writes by_consumer (λ r, knows r.2) (consume_wait_loop fuel ch spin).
Proof.
  revert ch spin. induction fuel as [|fuel IH]; intros ch spin Hk; cbn [consume_wait_loop]; follow;
    apply writes_bind; (eapply writes_mono; [|by apply writes_consume_spin]); intros [[r|] ch1] Hk1; try done;
    apply writes_bind; (eapply writes_mono; [|by apply writes_arm]); intros [[r|] ch2] Hk2; try done;
    cbn in Hk2; follow; try done; try own. by apply IH.
Qed.
Lemma writes_timed ch spin ms :
  knows ch → writes by_consumer (λ r, knows r.2) (flipc2_consume_wait_timed ch spin ms).
Proof.
  intros Hk. unfold flipc2_consume_wait_timed. follow.
  apply writes_bind; (eapply writes_mono; [|by apply writes_consume_spin]); intros [[[r|]|] ch1] Hk1; try done.
  case_decide; [done|]. apply writes_bind; (eapply writes_mono; [|by apply writes_arm]).
  intros [[[r|]|] ch2] Hk2; try done. cbn in Hk2. follow; done || own.
Qed.
Lemma writes_read ch slot js : writes by_consumer (λ _, True) (read_words ch slot js).
Proof.
  unfold read_words. induction js as [|j js IH]; [done|]. cbn [foldr]. follow. apply writes_bind.
  eapply writes_mono; [|apply IH]. done.
Qed.
Lemma writes_receive_at ch slot : knows ch → writes by_consumer knows (receive_at ch slot).
Proof.
  intros Hk. destruct slot as [s|]; [|done]. cbn [receive_at]. apply writes_bind.
  eapply writes_mono; [|apply writes_read]. intros d _. follow. apply writes_bind.
  eapply writes_mono; [|by apply writes_release]. done.
Qed.
Lemma writes_drain ch ptr k : writes by_consumer (λ _, True) (drain ch ptr k).
Proof.
  revert ptr. induction k as [|k IH]; intros ptr; [done|]. cbn [drain]. apply writes_bind.
  eapply writes_mono; [|apply writes_read]. intros d _. follow. apply IH.
Qed.
Lemma writes_consumer ch rs : knows ch → writes by_consumer (λ _, True) (consumer ch rs).
Proof.
  revert ch. induction rs as [|r rs IH]; intros ch Hk; [done|]. cbn [consumer]. apply writes_bind.
  eapply writes_mono; [intros ch'; apply IH|]. destruct r as [|spin|spin ms|]; cbn [receive]; apply writes_bind.
  - eapply writes_mono; [|by apply writes_peek]. intros [slot ch'] Hk'. by apply writes_receive_at.
  - eapply writes_mono; [|by apply writes_consume_wait]. intros [slot ch'] Hk'. by apply writes_receive_at.
  - unfold flipc2_consume_timedwait. apply writes_bind.
    eapply writes_mono; [|by apply writes_timed]. intros [[kr slot] ch'] Hk'. by apply writes_receive_at.
  - unfold flipc2_available.
    eapply writes_mono with (Q := λ r, knows r.2); [|follow; done]. intros [k ch'] Hk'. cbn in Hk'. follow.
    apply writes_bind. eapply writes_mono; [|apply writes_drain]. intros _ _.
    apply writes_bind. eapply writes_mono; [|by apply writes_release_n]. done.
Qed.
End roles.

(** A role may write every byte of a location. *)
Definition may_write (role : Z) (h : channel_header) (x : loc) : Prop :=
  ∀ o, field_offset h x.2 <= o < field_offset h x.2 + field_size x.2 →
    Z.land (role_prot role o) VM_PROT_WRITE ≠ 0.

Lemma isolated_offsets h f :
  layout_flags h = FLIPC2_LAYOUT_ISOLATED → ring_offset h = FLIPC2_ISO_RING_OFFSET → has_field 16384 f →
  match f with
  | CONS_HEAD | CONS_SLEEPING | CONS_TOTAL =>
      FLIPC2_ISO_CONS_OFFSET <= field_offset h f <= FLIPC2_ISO_CONS_OFFSET + 8
  | WORD _ _ => FLIPC2_ISO_RING_OFFSET <= field_offset h f
  | _ => FLIPC2_ISO_PROD_OFFSET <= field_offset h f <= FLIPC2_ISO_PROD_OFFSET + 28
  end.
Proof.
  intros Hl Hr Hf. unfold field_offset. rewrite Hl, Hr. change (bool_decide _) with true.
  destruct f; cbn in Hf; unfold FLIPC2_DESC_SIZE, FLIPC2_ISO_PROD_OFFSET, FLIPC2_ISO_CONS_OFFSET; lia.
Qed.

(** The protections of an isolated channel are enough for its users.  Whatever a
    producer does with the ring, every byte it writes is one that
    [flipc2_channel_share_isolated] lets a producer write, and the same for a
    consumer; in both cases for any sequence of requests and whatever is read from
    memory.  The exception is [flipc2_channel_set_wakeup_threshold]: its word is on
    the producer's page, and a consumer that calls it faults, although either side
    is said to be able to. *)
Theorem roles_suffice c a b h ps cs th :
  header_ok h → layout_flags h = FLIPC2_LAYOUT_ISOLATED →
  let ch := ch_ring_state (flipc2_init_handle c a b h) in
  writes (may_write FLIPC2_ROLE_PRODUCER h) (λ _, True) (producer ch ps) ∧
  writes (may_write FLIPC2_ROLE_CONSUMER h) (λ _, True) (consumer ch cs) ∧
  ¬ writes (may_write FLIPC2_ROLE_CONSUMER h) (λ _, True) (flipc2_channel_set_wakeup_threshold ch th).
Proof.
  intros Hok Hiso ch. pose proof (entries_range h Hok) as Hr.
  destruct Hok as ((e & He & Hpe) & Hmask & _ & Hl & _).
  assert (Hro : ring_offset h = FLIPC2_ISO_RING_OFFSET).
  { destruct Hl as [(_ & ? & _)|[Hf _]]; [done|by rewrite Hf in Hiso]. }
  assert (Hland : ∀ x, 0 <= Z.land x (hdr_ring_entries h - 1) < hdr_ring_entries h).
  { intros x. rewrite Hpe. replace (2 ^ e - 1) with (Z.ones e) by (rewrite Z.ones_equiv; lia).
    rewrite Z.land_ones by lia. apply Z.mod_pos_bound, Z.pow_pos_nonneg; lia. }
  pose proof (isolated_offsets h) as Hoff.
  assert (Hk : knows c (hdr_ring_entries h) ch) by (split; [done|exact Hmask]). split_and!.
  - eapply writes_weaken; [|eapply (writes_producer c (hdr_ring_entries h)); done || lia].
    intros [c' f] (_ & Hf & Hown) o Ho. cbn in *. specialize (Hoff f Hiso Hro).
    unfold role_prot, FLIPC2_ISO_RING_OFFSET, FLIPC2_ISO_CONS_OFFSET, FLIPC2_ISO_PROD_OFFSET in *.
    destruct f; try done; cbn in Hf, Ho, Hoff; specialize (Hoff ltac:(first [done|lia]));
      repeat case_decide; done || lia.
  - eapply writes_weaken; [|eapply (writes_consumer c (hdr_ring_entries h)); done || lia].
    intros [c' f] (_ & Hown) o Ho. cbn in *. specialize (Hoff f Hiso Hro).
    unfold role_prot, FLIPC2_ISO_RING_OFFSET, FLIPC2_ISO_CONS_OFFSET, FLIPC2_ISO_PROD_OFFSET in *.
    destruct f; try done; cbn in Ho, Hoff; specialize (Hoff I); repeat case_decide; done || lia.
  - intros [Hw _]. specialize (Hw 4120). unfold field_offset in Hw. rewrite Hiso in Hw. by apply Hw.
Qed.

Lemma roles_suffice_witness :
  writes (may_write FLIPC2_ROLE_CONSUMER (r_hdr (flipc2_init_header 16384 64 1))) (λ _, True)
    (consumer (Channel 0 64 63 0 0 0) [GetTry; GetWait 100; GetAll]).
Proof.
  refine (proj1 (proj2 (roles_suffice 0 0 0 (r_hdr (flipc2_init_header 16384 64 1)) []
    [GetTry; GetWait 100; GetAll] 0 _ eq_refl))).
  by apply init_header_ok.
Defined.

(** ** Attaching late *)

(** An isolated channel of sixteen entries whose counters are at [tail], [head]. *)
Definition region_at (tail head : Z) : region :=
  let r := flipc2_init_header 16384 16 1 in
  Region (r_hdr r) (λ f, match f with PROD_TAIL => tail | CONS_HEAD => head | f => r_vol r f end).
(** What an operation returns when it runs alone on a channel. *)
Definition runs_to {A} (r : region) (op : P A) : option A :=
  match st <$> threads (drive 50 0 (Config (channel_memory 0 r) [Thread [] (Run op)] [])) !! 0%nat with
  | Some (Run (Ret a)) => Some a
  | _ => None
  end.

(** A peer that attaches shortly before the counters wrap works on the wrong
    counters.  [flipc2_init_handle] starts the cached copies at 0, and the fast path
    trusts a cached copy that looks plausible.  Eight positions before the wrap, a
    consumer that attaches to an empty ring is handed a descriptor that no one sent,
    and a producer that attaches to a full ring is handed a slot whose descriptor
    has not been read. *)
Theorem late_attach_misled :
  (∃ h, res (flipc2_channel_attach (E := env_ok) 0 4096 (region_at 4294967288 4294967288) []) =
          (FLIPC2_SUCCESS, Some h) ∧
        flipc2_ring_count 4294967288 4294967288 = 0 ∧
        fst <$> runs_to (region_at 4294967288 4294967288) (flipc2_consume_peek (ch_ring_state h)) =
          Some (Some 8)) ∧
  (∃ h, res (flipc2_channel_attach (E := env_ok) 0 4096 (region_at 8 4294967288) []) =
          (FLIPC2_SUCCESS, Some h) ∧
        flipc2_ring_free (ch_ring_state h) 8 4294967288 = 0 ∧
        fst <$> runs_to (region_at 8 4294967288) (flipc2_produce_reserve (ch_ring_state h)) =
          Some (Some 8)).
Proof. split; eexists; (split; [reflexivity|]); by vm_compute. Qed.
