(* ===== verification/Pthread.v ===== *)
(** * libpthreads: the synchronisation objects

    The mutexes, read-write locks and barriers of mach_services/lib/libpthreads, as
    programs of the machine in Tso.v.  Each object is a structure in the memory of
    one task; a short spin lock guards its fields, and the words that threads block
    on are futexes.  Loops that retry take a bound, and a program that has used it
    up ([None]) stands for a thread that is still trying. *)

From S2P Require Import Prelude Mach Tso.

(** ** Memory *)

(** struct _pthread_mutex, _pthread_rwlock, _pthread_barrier. *)
Inductive mfield :=
| SIG | LOCK | PRIOCEILING | PROTOCOL | OWNER | NEXT | PREV | BUSY | WAITERS | STATE | TYPE
| LOCK_COUNT | ROBUST | OWNER_DEAD | UNRECOVERABLE.
Inductive rfield := R_SIG | R_LOCK | READERS | WRITER | BLOCKED_WRITERS | RSEQ | WSEQ.
Inductive bfield := B_SIG | B_LOCK | COUNT | WAITING | PHASE.
(** struct _pthread and _pthread_cond; the pool of parked threads. *)
Inductive tfield :=
| T_LOCK | DETACHED | JOINERS | NUM_JOINERS | EXIT_VALUE | DEATH | KERNEL_THREAD | FUN | ARG
| CANCEL_STATE | POOL_WAKE.
Inductive cfield := C_SIG | C_LOCK | SEQ | C_NEXT | C_PREV | C_BUSY | C_WAITERS.
Inductive pfield := P_LOCK | P_COUNT | P_KERNEL_THREAD (slot : Z) | P_SELF (slot : Z).
#[global] Instance mfield_eq_dec : EqDecision mfield.
Proof. solve_decision. Defined.
#[global] Instance rfield_eq_dec : EqDecision rfield.
Proof. solve_decision. Defined.
#[global] Instance bfield_eq_dec : EqDecision bfield.
Proof. solve_decision. Defined.
#[global] Instance tfield_eq_dec : EqDecision tfield.
Proof. solve_decision. Defined.
#[global] Instance cfield_eq_dec : EqDecision cfield.
Proof. solve_decision. Defined.
#[global] Instance pfield_eq_dec : EqDecision pfield.
Proof. solve_decision. Defined.

(** A field of the object at an address; of the thread structure at an address, its
    signature, its list of mutexes and the rest; the control word of a
    [pthread_once]; the pool; and a word of the program that uses them. *)
Inductive ploc :=
| Mx (p : Z) (f : mfield) | Rw (p : Z) (f : rfield) | Br (p : Z) (f : bfield) | Cv (p : Z) (f : cfield)
| T_SIG (t : Z) | T_MUTEXES (t : Z) | Th (t : Z) (f : tfield) | Once (p : Z) | Pool (f : pfield) | DATA.
#[global] Instance ploc_eq_dec : EqDecision ploc.
Proof. solve_decision. Defined.

(** Thread [i] enters and leaves a section, as a reader or exclusively; a barrier has
    told it that it is the one of its round. *)
Inductive pevent :=
| Enter (i : nat) | Leave (i : nat) | EnterShared (i : nat) | LeaveShared (i : nat) | Serial (i : nat).
#[global] Instance pevent_eq_dec : EqDecision pevent.
Proof. solve_decision. Defined.

Definition ESUCCESS : Z := 0.
Definition EPERM : Z := 1.
Definition ESRCH : Z := 3.
Definition EDEADLK : Z := 11.
Definition EBUSY : Z := 16.
Definition EINVAL : Z := 22.
Definition ETIMEDOUT : Z := 60.
Definition EOWNERDEAD : Z := 130.
Definition ENOTRECOVERABLE : Z := 131.

Definition _PTHREAD_NO_SIG : Z := 0.
Definition _PTHREAD_MUTEX_ATTR_SIG : Z := 1297373249.
Definition _PTHREAD_MUTEX_SIG : Z := 1297437784.
Definition _PTHREAD_MUTEX_SIG_init : Z := 850045863.
Definition _PTHREAD_SIG : Z := 1414025796.
Definition _PTHREAD_RWLOCK_SIG : Z := 1381452875.
Definition _PTHREAD_BARRIER_SIG : Z := 1111577170.
Definition PTHREAD_MUTEX_NORMAL : Z := 0.
Definition PTHREAD_MUTEX_RECURSIVE : Z := 2.
Definition PTHREAD_MUTEX_STALLED : Z := 0.
Definition PTHREAD_MUTEX_ROBUST : Z := 1.
Definition PTHREAD_BARRIER_SERIAL_THREAD : Z := -1.

(** ** Programs that may run out of attempts *)

Abbreviation T := (tprog ploc pevent).

Definition ld (x : ploc) : T Z := Load x (λ v, Ret (Some v)).
Definition sto (x : ploc) (v : Z) : T unit := Store x v (Ret (Some tt)).
Definition xchg (x : ploc) (v : Z) : T Z := Rmw x (λ _, v) (λ v, Ret (Some v)).
Definition cmpxchg (x : ploc) (old new : Z) : T Z :=
  Rmw x (λ v, if decide (v = old) then new else v) (λ v, Ret (Some v)).
Definition _pthread_futex_wait (x : ploc) (v : Z) (timed : bool) : T Z :=
  FutexWait [(x, v)] timed (λ kr, Ret (Some kr)).
Definition _pthread_futex_wake_one (x : ploc) : T unit := FutexWake x 1 (Ret (Some tt)).
Definition _pthread_futex_wake_all (x : ploc) : T unit := FutexWake x 2147483647 (Ret (Some tt)).
Definition mark (e : pevent) : T unit := Note e (Ret (Some tt)).

(** [_spin_lock] and [_spin_unlock], both a locked exchange. *)
Fixpoint _spin_lock (tries : nat) (x : ploc) : T unit :=
  match tries with
  | O => trying
  | S tries => old ← xchg x 1; if decide (old = 0) then mret tt else _spin_lock tries x
  end.
Definition _spin_unlock (x : ploc) : T unit := xchg x 0;; mret tt.

(** What a program does to memory when it runs alone, up to a wait. *)
Fixpoint solo {A} (m : ploc → Z) (p : prog ploc pevent A) : ploc → Z :=
  match p with
  | Ret _ | FutexWait _ _ _ => m
  | Load x k => solo m (k (m x))
  | Store x v k => solo (upd m x v) k
  | Mfence k | FutexWake _ _ k | Note _ k => solo m k
  | Rmw x f k => solo (upd m x (f (m x))) (k (m x))
  end.

(** ** Deadlines *)

(** A point of time: seconds (32 bits) and nanoseconds. *)
Abbreviation timespec := (Z * Z)%type.

(** [_pthread_rwlock_deadline]: what is left until [abstime], or nothing. *)
Definition remaining (abstime now : timespec) : option timespec :=
  let nsec := abstime.2 - now.2 in
  let sec := abstime.1 -32 now.1 in
  let '(sec, nsec) := if decide (nsec < 0) then (sec -32 1, nsec + 1000000000) else (sec, nsec) in
  if decide (s32 sec < 0 ∨ sec = 0 ∧ nsec = 0) then None else Some (sec, nsec).
(** [_pthread_rwlock_ms]: in milliseconds for the trap, for which 0 is forever. *)
Definition remaining_ms (then_ : timespec) : Z :=
  let ms := then_.1 *32 1000 +32 then_.2 / 1000000 in
  if decide (ms = 0) then 1 else ms.

(** ** Mutexes *)

Record pthread_mutexattr := MutexAttr {
  attr_sig : Z; attr_prioceiling : Z; attr_protocol : Z; attr_type : Z; attr_robust : Z }.

Definition pthread_mutex_init (mutex : Z) (attr : option pthread_mutexattr) : T Z :=
  sto (Mx mutex LOCK) 0;;
  sto (Mx mutex SIG) _PTHREAD_MUTEX_SIG;;
  match attr with
  | Some a =>
      if decide (attr_sig a ≠ _PTHREAD_MUTEX_ATTR_SIG) then mret false
      else
        sto (Mx mutex PRIOCEILING) (attr_prioceiling a);;
        sto (Mx mutex PROTOCOL) (attr_protocol a);;
        sto (Mx mutex TYPE) (attr_type a);;
        sto (Mx mutex ROBUST) (attr_robust a);;
        mret true
  | None =>
      sto (Mx mutex PRIOCEILING) 0;;
      sto (Mx mutex PROTOCOL) 0;;
      sto (Mx mutex TYPE) PTHREAD_MUTEX_NORMAL;;
      sto (Mx mutex ROBUST) PTHREAD_MUTEX_STALLED;;
      mret true
  end ≫= λ ok,
  if (ok : bool) then
    sto (Mx mutex LOCK_COUNT) 0;;
    sto (Mx mutex OWNER_DEAD) 0;;
    sto (Mx mutex UNRECOVERABLE) 0;;
    sto (Mx mutex OWNER) 0;;
    sto (Mx mutex NEXT) 0;;
    sto (Mx mutex PREV) 0;;
    sto (Mx mutex BUSY) 0;;
    sto (Mx mutex WAITERS) 0;;
    sto (Mx mutex STATE) 0;;
    mret ESUCCESS
  else mret EINVAL.

Definition pthread_mutex_destroy (mutex : Z) : T Z :=
  sig ← ld (Mx mutex SIG);
  if decide (sig ≠ _PTHREAD_MUTEX_SIG) then mret EINVAL
  else
    owner ← ld (Mx mutex OWNER);
    busy ← ld (Mx mutex BUSY);
    if decide (owner ≠ 0 ∨ busy ≠ 0) then mret EBUSY
    else sto (Mx mutex SIG) _PTHREAD_NO_SIG;; mret ESUCCESS.

(** The list of the mutexes that a thread owns. *)
Definition _pthread_mutex_add (self mutex : Z) : T unit :=
  sto (Mx mutex OWNER) self;;
  m ← ld (T_MUTEXES self);
  (if decide (m ≠ 0) then sto (Mx m PREV) mutex else mret tt);;
  sto (Mx mutex NEXT) m;;
  sto (Mx mutex PREV) 0;;
  sto (T_MUTEXES self) mutex.

Definition _pthread_mutex_remove (self mutex : Z) : T unit :=
  n ← ld (Mx mutex NEXT);
  (if decide (n ≠ 0) then prev ← ld (Mx mutex PREV); sto (Mx n PREV) prev else mret tt);;
  p ← ld (Mx mutex PREV);
  if decide (p ≠ 0) then next ← ld (Mx mutex NEXT); sto (Mx p NEXT) next
  else sto (T_MUTEXES self) n.

Definition _pthread_mutex_robust_check (self mutex : Z) : T Z :=
  unrec ← ld (Mx mutex UNRECOVERABLE);
  if decide (unrec ≠ 0) then mret ENOTRECOVERABLE
  else
    owner ← ld (Mx mutex OWNER);
    if decide (owner = 0) then mret ESUCCESS
    else
      sig ← ld (T_SIG owner);
      if decide (sig = _PTHREAD_SIG) then mret ESUCCESS
      else
        sto (Mx mutex OWNER_DEAD) 1;;
        _pthread_mutex_remove self mutex;;
        sto (Mx mutex OWNER) 0;;
        mret EOWNERDEAD.

(** The start of every operation: a mutex that is statically initialised is set up
    by the first call; [Some] is an error to return. *)
Definition ready (mutex : Z) : T (option Z) :=
  sig ← ld (Mx mutex SIG);
  (if decide (sig = _PTHREAD_MUTEX_SIG_init) then pthread_mutex_init mutex None else mret ESUCCESS);;
  sig ← ld (Mx mutex SIG);
  mret (if decide (sig ≠ _PTHREAD_MUTEX_SIG) then Some EINVAL else None).

Section mutex.
Context (tries : nat) (self mutex : Z).

(** Become the owner. *)
Definition own : T Z :=
  _spin_lock tries (Mx mutex LOCK);;
  _pthread_mutex_add self mutex;;
  _spin_unlock (Mx mutex LOCK);;
  mret ESUCCESS.

(** The checks of [pthread_mutex_lock] before it tries: robustness, and for other
    types than the normal one whether the caller owns the mutex already. *)
Definition lock_checks : T (option Z) :=
  robust ← ld (Mx mutex ROBUST);
  unrec ← (if decide (robust = PTHREAD_MUTEX_ROBUST) then ld (Mx mutex UNRECOVERABLE) else mret 0);
  if decide (unrec ≠ 0) then mret (Some ENOTRECOVERABLE)
  else
    type ← ld (Mx mutex TYPE);
    if decide (type = PTHREAD_MUTEX_NORMAL) then mret None
    else
      _spin_lock tries (Mx mutex LOCK);;
      owner ← ld (Mx mutex OWNER);
      if decide (owner = self) then
        if decide (type = PTHREAD_MUTEX_RECURSIVE) then
          n ← ld (Mx mutex LOCK_COUNT);
          sto (Mx mutex LOCK_COUNT) (n +32 1);;
          _spin_unlock (Mx mutex LOCK);;
          mret (Some ESUCCESS)
        else _spin_unlock (Mx mutex LOCK);; mret (Some EDEADLK)
      else _spin_unlock (Mx mutex LOCK);; mret None.

(** A robust mutex whose owner has died is taken over. *)
Definition take_over : T (option Z) :=
  robust ← ld (Mx mutex ROBUST);
  if decide (robust ≠ PTHREAD_MUTEX_ROBUST) then mret None
  else
    _spin_lock tries (Mx mutex LOCK);;
    rc ← _pthread_mutex_robust_check self mutex;
    if decide (rc = EOWNERDEAD) then
      sto (Mx mutex STATE) 1;;
      _pthread_mutex_add self mutex;;
      _spin_unlock (Mx mutex LOCK);;
      mret (Some EOWNERDEAD)
    else
      _spin_unlock (Mx mutex LOCK);;
      mret (if decide (rc = ENOTRECOVERABLE) then Some ENOTRECOVERABLE else None).

(** The slow path: mark the mutex contended, block, try again. *)
Fixpoint lock_loop (fuel : nat) (old : Z) : T unit :=
  if decide (old = 0) then mret tt
  else match fuel with
       | O => trying
       | S fuel =>
           _pthread_futex_wait (Mx mutex STATE) 2 false;;
           old ← xchg (Mx mutex STATE) 2;
           lock_loop fuel old
       end.
(** With a deadline; [nows] is what the clock says, one reading per round.  [false]
    when it has passed. *)
Fixpoint timed_loop (abstime : timespec) (nows : list timespec) (old : Z) : T bool :=
  if decide (old = 0) then mret true
  else match nows with
       | [] => trying
       | now :: nows =>
           match remaining abstime now with
           | None => mret false
           | Some _ =>
               kr ← _pthread_futex_wait (Mx mutex STATE) 2 true;
               if decide (kr = KERN_OPERATION_TIMED_OUT) then mret false
               else
                 old ← xchg (Mx mutex STATE) 2;
                 timed_loop abstime nows old
           end
       end.

(** [pthread_mutex_lock] and [pthread_mutex_timedlock] differ in their loop. *)
Definition lock_with (loop : Z → T bool) : T Z :=
  e ← ready mutex;
  match e with Some e => mret e | None =>
    e ← lock_checks;
    match e with Some e => mret e | None =>
      old ← cmpxchg (Mx mutex STATE) 0 1;
      if decide (old = 0) then own
      else
        e ← take_over;
        match e with Some e => mret e | None =>
          old ← (if decide (old ≠ 2) then xchg (Mx mutex STATE) 2 else mret old);
          ok ← loop old;
          if (ok : bool) then own else mret ETIMEDOUT
        end
    end
  end.
Definition pthread_mutex_lock (fuel : nat) : T Z :=
  lock_with (λ old, lock_loop fuel old;; mret true).
Definition pthread_mutex_timedlock (abstime : timespec) (nows : list timespec) : T Z :=
  lock_with (timed_loop abstime nows).

Definition pthread_mutex_trylock : T Z :=
  e ← ready mutex;
  match e with Some e => mret e | None =>
    type ← ld (Mx mutex TYPE);
    again ←
      (if decide (type = PTHREAD_MUTEX_RECURSIVE) then
         _spin_lock tries (Mx mutex LOCK);;
         owner ← ld (Mx mutex OWNER);
         if decide (owner = self) then
           n ← ld (Mx mutex LOCK_COUNT);
           sto (Mx mutex LOCK_COUNT) (n +32 1);;
           _spin_unlock (Mx mutex LOCK);;
           mret true
         else _spin_unlock (Mx mutex LOCK);; mret false
       else mret false);
    if (again : bool) then mret ESUCCESS
    else
      old ← cmpxchg (Mx mutex STATE) 0 1;
      if decide (old = 0) then own else mret EBUSY
  end.

(** The recursion count is an [int]. *)
Definition pthread_mutex_unlock : T Z :=
  e ← ready mutex;
  match e with Some e => mret e | None =>
    _spin_lock tries (Mx mutex LOCK);;
    owner ← ld (Mx mutex OWNER);
    if decide (owner ≠ self) then _spin_unlock (Mx mutex LOCK);; mret EPERM
    else
      type ← ld (Mx mutex TYPE);
      n ← (if decide (type = PTHREAD_MUTEX_RECURSIVE) then ld (Mx mutex LOCK_COUNT) else mret 0);
      if decide (0 < s32 n) then
        sto (Mx mutex LOCK_COUNT) (n -32 1);;
        _spin_unlock (Mx mutex LOCK);;
        mret ESUCCESS
      else
        robust ← ld (Mx mutex ROBUST);
        dead ← (if decide (robust = PTHREAD_MUTEX_ROBUST) then ld (Mx mutex OWNER_DEAD) else mret 0);
        (if decide (dead ≠ 0)
         then sto (Mx mutex UNRECOVERABLE) 1;; sto (Mx mutex OWNER_DEAD) 0 else mret tt);;
        _pthread_mutex_remove self mutex;;
        sto (Mx mutex OWNER) 0;;
        sto (Mx mutex LOCK_COUNT) 0;;
        _spin_unlock (Mx mutex LOCK);;
        old ← xchg (Mx mutex STATE) 0;
        (if decide (old = 2) then _pthread_futex_wake_one (Mx mutex STATE) else mret tt);;
        mret ESUCCESS
  end.

Definition pthread_mutex_consistent : T Z :=
  sig ← ld (Mx mutex SIG);
  if decide (sig ≠ _PTHREAD_MUTEX_SIG) then mret EINVAL
  else
    robust ← ld (Mx mutex ROBUST);
    if decide (robust ≠ PTHREAD_MUTEX_ROBUST) then mret EINVAL
    else
      _spin_lock tries (Mx mutex LOCK);;
      owner ← ld (Mx mutex OWNER);
      dead ← ld (Mx mutex OWNER_DEAD);
      if decide (owner ≠ self ∨ dead = 0) then _spin_unlock (Mx mutex LOCK);; mret EINVAL
      else
        sto (Mx mutex OWNER_DEAD) 0;;
        _spin_unlock (Mx mutex LOCK);;
        mret ESUCCESS.
End mutex.

(** ** Read-write locks *)

Definition pthread_rwlock_init (rwlock : Z) : T Z :=
  sto (Rw rwlock R_LOCK) 0;;
  sto (Rw rwlock R_SIG) _PTHREAD_RWLOCK_SIG;;
  sto (Rw rwlock READERS) 0;;
  sto (Rw rwlock WRITER) 0;;
  sto (Rw rwlock BLOCKED_WRITERS) 0;;
  sto (Rw rwlock RSEQ) 0;;
  sto (Rw rwlock WSEQ) 0;;
  mret ESUCCESS.

Section rwlock.
Context (tries : nat) (rwlock : Z).
Abbreviation LK := (Rw rwlock R_LOCK).

(** Every operation starts with a check of the signature. *)
Definition rw_checked (p : T Z) : T Z :=
  sig ← ld (Rw rwlock R_SIG);
  if decide (sig ≠ _PTHREAD_RWLOCK_SIG) then mret EINVAL else p.

Definition pthread_rwlock_destroy : T Z :=
  rw_checked (
    _spin_lock tries LK;;
    readers ← ld (Rw rwlock READERS);
    writer ← ld (Rw rwlock WRITER);
    if decide (readers ≠ 0 ∨ writer ≠ 0) then _spin_unlock LK;; mret EBUSY
    else sto (Rw rwlock R_SIG) _PTHREAD_NO_SIG;; _spin_unlock LK;; mret ESUCCESS).

(** What the loops wait for; the C conditions short-circuit. *)
Definition readers_wait : T bool :=
  writer ← ld (Rw rwlock WRITER);
  if decide (writer ≠ 0) then mret true
  else blocked ← ld (Rw rwlock BLOCKED_WRITERS); mret (bool_decide (0 < s32 blocked)).
Definition writers_wait : T bool :=
  writer ← ld (Rw rwlock WRITER);
  if decide (writer ≠ 0) then mret true
  else readers ← ld (Rw rwlock READERS); mret (bool_decide (0 < s32 readers)).

Definition add_to (f : rfield) (d : Z) : T unit :=
  n ← ld (Rw rwlock f); sto (Rw rwlock f) (n +32 d).

(** Become a reader; a writer, which no longer waits. *)
Definition enter_reader : T Z :=
  add_to READERS 1;; _spin_unlock LK;; mret ESUCCESS.
Definition enter_writer : T Z :=
  add_to BLOCKED_WRITERS (-1);; sto (Rw rwlock WRITER) 1;; _spin_unlock LK;; mret ESUCCESS.
(** A writer gives up. *)
Definition leave_writers : T Z :=
  _spin_lock tries LK;; add_to BLOCKED_WRITERS (-1);; _spin_unlock LK;; mret ETIMEDOUT.

(** The loop of the blocking operations: [wait] under the lock, [done] when it is
    over, [seq] the word to block on. *)
Fixpoint block_loop (fuel : nat) (wait : T bool) (seq : rfield) (done : T Z) : T Z :=
  w ← wait;
  if (w : bool) then
    match fuel with
    | O => trying
    | S fuel =>
        s ← ld (Rw rwlock seq);
        _spin_unlock LK;;
        _pthread_futex_wait (Rw rwlock seq) s false;;
        _spin_lock tries LK;;
        block_loop fuel wait seq done
    end
  else done.
(** With a deadline; [late] when it has passed. *)
Fixpoint block_until (abstime : timespec) (nows : list timespec) (wait : T bool) (seq : rfield)
    (done late : T Z) : T Z :=
  w ← wait;
  if (w : bool) then
    match nows with
    | [] => trying
    | now :: nows =>
        s ← ld (Rw rwlock seq);
        _spin_unlock LK;;
        match remaining abstime now with
        | None => late
        | Some _ =>
            kr ← _pthread_futex_wait (Rw rwlock seq) s true;
            if decide (kr = KERN_OPERATION_TIMED_OUT) then late
            else _spin_lock tries LK;; block_until abstime nows wait seq done late
        end
    end
  else done.

Definition pthread_rwlock_rdlock (fuel : nat) : T Z :=
  rw_checked (_spin_lock tries LK;; block_loop fuel readers_wait RSEQ enter_reader).
Definition pthread_rwlock_tryrdlock : T Z :=
  rw_checked (
    _spin_lock tries LK;;
    w ← readers_wait;
    if (w : bool) then _spin_unlock LK;; mret EBUSY else enter_reader).
Definition pthread_rwlock_timedrdlock (abstime : timespec) (nows : list timespec) : T Z :=
  rw_checked (
    _spin_lock tries LK;;
    block_until abstime nows readers_wait RSEQ enter_reader (mret ETIMEDOUT)).
Definition pthread_rwlock_wrlock (fuel : nat) : T Z :=
  rw_checked (
    _spin_lock tries LK;; add_to BLOCKED_WRITERS 1;;
    block_loop fuel writers_wait WSEQ enter_writer).
Definition pthread_rwlock_trywrlock : T Z :=
  rw_checked (
    _spin_lock tries LK;;
    w ← writers_wait;
    if (w : bool) then _spin_unlock LK;; mret EBUSY
    else sto (Rw rwlock WRITER) 1;; _spin_unlock LK;; mret ESUCCESS).
Definition pthread_rwlock_timedwrlock (abstime : timespec) (nows : list timespec) : T Z :=
  rw_checked (
    _spin_lock tries LK;; add_to BLOCKED_WRITERS 1;;
    block_until abstime nows writers_wait WSEQ enter_writer leave_writers).

(** Bump a sequence word, unlock, wake. *)
Definition release (seq : rfield) (wake : ploc → T unit) : T Z :=
  add_to seq 1;; _spin_unlock LK;; wake (Rw rwlock seq);; mret ESUCCESS.
Definition pthread_rwlock_unlock : T Z :=
  rw_checked (
    _spin_lock tries LK;;
    writer ← ld (Rw rwlock WRITER);
    if decide (writer ≠ 0) then
      sto (Rw rwlock WRITER) 0;;
      blocked ← ld (Rw rwlock BLOCKED_WRITERS);
      if decide (0 < s32 blocked) then release WSEQ _pthread_futex_wake_one
      else release RSEQ _pthread_futex_wake_all
    else
      readers ← ld (Rw rwlock READERS);
      if decide (0 < s32 readers) then
        add_to READERS (-1);;
        readers ← ld (Rw rwlock READERS);
        blocked ← (if decide (readers = 0) then ld (Rw rwlock BLOCKED_WRITERS) else mret 0);
        if decide (readers = 0 ∧ 0 < s32 blocked) then release WSEQ _pthread_futex_wake_one
        else _spin_unlock LK;; mret ESUCCESS
      else _spin_unlock LK;; mret EINVAL).
End rwlock.

(** ** Barriers *)

Definition pthread_barrier_init (barrier : Z) (count : Z) : T Z :=
  if decide (count = 0) then mret EINVAL
  else
    sto (Br barrier B_LOCK) 0;;
    sto (Br barrier B_SIG) _PTHREAD_BARRIER_SIG;;
    sto (Br barrier COUNT) count;;
    sto (Br barrier WAITING) 0;;
    sto (Br barrier PHASE) 0;;
    mret ESUCCESS.

Section barrier.
Context (tries : nat) (barrier : Z).
Abbreviation LK := (Br barrier B_LOCK).

Definition br_checked (p : T Z) : T Z :=
  sig ← ld (Br barrier B_SIG);
  if decide (sig ≠ _PTHREAD_BARRIER_SIG) then mret EINVAL else p.

Definition pthread_barrier_destroy : T Z :=
  br_checked (
    _spin_lock tries LK;;
    waiting ← ld (Br barrier WAITING);
    if decide (waiting ≠ 0) then _spin_unlock LK;; mret EBUSY
    else sto (Br barrier B_SIG) _PTHREAD_NO_SIG;; _spin_unlock LK;; mret ESUCCESS).

Fixpoint phase_loop (fuel : nat) (my_phase : Z) : T Z :=
  match fuel with
  | O => trying
  | S fuel =>
      phase ← ld (Br barrier PHASE);
      if decide (phase = my_phase) then
        _pthread_futex_wait (Br barrier PHASE) my_phase false;;
        phase_loop fuel my_phase
      else mret ESUCCESS
  end.

Definition pthread_barrier_wait (fuel : nat) : T Z :=
  br_checked (
    _spin_lock tries LK;;
    my_phase ← ld (Br barrier PHASE);
    waiting ← ld (Br barrier WAITING);
    sto (Br barrier WAITING) (waiting +32 1);;
    waiting ← ld (Br barrier WAITING);
    count ← ld (Br barrier COUNT);
    if decide (waiting = count) then
      sto (Br barrier WAITING) 0;;
      sto (Br barrier PHASE) (if decide (my_phase = 0) then 1 else 0);;
      _spin_unlock LK;;
      _pthread_futex_wake_all (Br barrier PHASE);;
      mret PTHREAD_BARRIER_SERIAL_THREAD
    else
      _spin_unlock LK;;
      phase_loop fuel my_phase).
End barrier.

