(* ===== verification/PthreadMutex.v ===== *)
(** * libpthreads: mutexes

    Any number of threads that lock one mutex in the ways the API offers, work on a
    shared word, and unlock it, on the machine of Tso.v.  Shown: mutual exclusion and
    visibility of what was written under the lock, and that no thread stays blocked
    on a mutex that is free. *)

From S2P Require Import Prelude Mach Tso Pthread.

(** ** Clients *)

(** A way to lock. *)
Inductive mreq := Lock | TryLock | TimedLock (abstime : timespec) (nows : list timespec).

Definition tid (i : nat) : Z := Z.of_nat i + 1.

Section clients.
Context (tries fuel : nat) (mx : Z).

Definition acquire (i : nat) (r : mreq) : T Z :=
  match r with
  | Lock => pthread_mutex_lock tries (tid i) mx fuel
  | TryLock => pthread_mutex_trylock tries (tid i) mx
  | TimedLock abstime nows => pthread_mutex_timedlock tries (tid i) mx abstime nows
  end.
(** Under the lock a thread increments a word that all share. *)
Definition critical (i : nat) : T unit :=
  mark (Enter i);;
  v ← ld DATA;
  sto DATA (v + 1);;
  mark (Leave i).
Fixpoint locker (i : nat) (rs : list mreq) : T unit :=
  match rs with
  | [] => mret tt
  | r :: rs =>
      rc ← acquire i r;
      (if decide (rc = ESUCCESS) then critical i;; pthread_mutex_unlock tries (tid i) mx;; mret tt
       else mret tt);;
      locker i rs
  end.
End clients.

(** The threads that are in the section, and how often it was left. *)
Definition in_step (out : list nat) (e : pevent) : list nat :=
  match e with Enter i => i :: out | Leave i => filter (λ j, j ≠ i) out | _ => out end.
Definition in_section (es : list pevent) : list nat := foldl in_step [] es.
Definition left_section (es : list pevent) : Z :=
  foldl (λ n e, match e with Leave _ => n + 1 | _ => n end) 0 es.

(** ** The invariant *)

(** Where a thread stands: outside (this includes the slow path once the mutex is
    marked as contended); in the trap; back from it and about to mark the mutex;
    holding the mutex; or having released it with a thread to wake. *)
Inductive phase := Outside | Asleep | ToMark | Holds | ToWake.
#[global] Instance phase_eq_dec : EqDecision phase.
Proof. solve_decision. Defined.
(** In the section: not, entered, has read a value, has written. *)
Inductive stage := NotIn | Entered | Read (v : Z) | Written.
#[global] Instance stage_eq_dec : EqDecision stage.
Proof. solve_decision. Defined.

(** What a thread knows: its phase, whether it is recorded as the owner and in its
    list, its stage, and whether it has found the mutex contended after queueing. *)
Record ml := ML { ph : phase; owned : bool; listed : bool; sg : stage; confirmed : bool }.
Definition at_phase (p : phase) : ml := ML p false false NotIn false.
Definition outside : ml := at_phase Outside.
Definition holding (o li : bool) (g : stage) : ml := ML Holds o li g false.

Section mutex.
Context (mx ty : Z).
Hypothesis mx_nonzero : mx ≠ 0.
Abbreviation ST := (Mx mx STATE).
Abbreviation OW := (Mx mx OWNER).

(** The fields that keep their value. *)
Definition const (f : mfield) : option Z :=
  match f with
  | SIG => Some _PTHREAD_MUTEX_SIG
  | TYPE => Some ty
  | ROBUST | UNRECOVERABLE | OWNER_DEAD | NEXT | PREV | LOCK_COUNT => Some 0
  | _ => None
  end.
(** What thread [i] may have in its buffer. *)
Definition may_store (i : nat) (x : ploc) (v : Z) : Prop :=
  match x with
  | Mx p OWNER => p = mx ∧ (v = tid i ∨ v = 0)
  | Mx p (NEXT | PREV | LOCK_COUNT) => p = mx ∧ v = 0
  | T_MUTEXES t => t = tid i ∧ (v = mx ∨ v = 0)
  | DATA => True
  | _ => False
  end.

(** The queue of a thread, and what keeps a thread that has found the mutex contended
    after queueing from sleeping for ever. *)
Definition queues_ok (ls : list ml) (qs : list (list ploc)) : Prop :=
  ∀ i l keys, ls !! i = Some l → qs !! i = Some keys → keys = [] ∨ keys = [ST] ∧ ph l = Asleep.
Definition waking (qs : list (list ploc)) (i : nat) (l : ml) : Prop :=
  ph l = ToWake ∨ ph l = ToMark ∨ ph l = Asleep ∧ qs !! i = Some [].
Definition lively (v : Z) (ls : list ml) (qs : list (list ploc)) : Prop :=
  (∃ j lj, ls !! j = Some lj ∧ confirmed lj = true ∧ qs !! j = Some [ST]) →
  v = 2 ∨ ∃ i l, ls !! i = Some l ∧ waking qs i l.

Record minv (ls : list ml) (m : ploc → Z) (bufs : list (list (ploc * Z))) (qs : list (list ploc))
    (es : list pevent) : Prop := {
  mi_bufs : length bufs = length ls;
  mi_queues : length qs = length ls;
  mi_const : ∀ f v, const f = Some v → m (Mx mx f) = v;
  mi_empty : ∀ i l b, ls !! i = Some l → bufs !! i = Some b → ph l ≠ Holds → b = [];
  mi_write : ∀ i b x v, bufs !! i = Some b → (x, v) ∈ b → may_store i x v;
  mi_state : m ST = 0 ∨ m ST = 1 ∨ m ST = 2;
  mi_held : m ST ≠ 0 ↔ ∃ i l, ls !! i = Some l ∧ ph l = Holds;
  mi_one : ∀ i j li lj, ls !! i = Some li → ls !! j = Some lj → ph li = Holds → ph lj = Holds → i = j;
  mi_owner : m OW = 0 ∨ ∃ i l, ls !! i = Some l ∧ ph l = Holds ∧ m OW = tid i;
  mi_owned : ∀ i l b, ls !! i = Some l → bufs !! i = Some b → ph l = Holds →
    view m b OW = if owned l then tid i else 0;
  mi_list : ∀ i l b, ls !! i = Some l → bufs !! i = Some b →
    view m b (T_MUTEXES (tid i)) = if listed l then mx else 0;
  mi_flags : ∀ i l, ls !! i = Some l → ph l ≠ Holds → owned l = false ∧ listed l = false ∧ sg l = NotIn;
  mi_free : m ST = 0 → m DATA = left_section es;
  mi_data : ∀ i l b, ls !! i = Some l → bufs !! i = Some b → ph l = Holds →
    view m b DATA = left_section es + (if decide (sg l = Written) then 1 else 0) ∧
    (∀ v, sg l = Read v → view m b DATA = v);
  mi_inside : (in_section es = [] ∧ ∀ i l, ls !! i = Some l → sg l = NotIn) ∨
    ∃ i l, ls !! i = Some l ∧ sg l ≠ NotIn ∧ in_section es = [i];
  mi_queue : queues_ok ls qs;
  mi_live : lively (m ST) ls qs }.

Definition MInv (ls : list ml) (s : @shared ploc pevent) : Prop :=
  minv ls (s_mem s) (s_bufs s) (s_queue s) (s_evs s).
Definition Blocked (l : ml) : Prop := ph l = Asleep ∧ confirmed l = true.

Lemma view_fixed (m : ploc → Z) b x v :
  m x = v → (∀ y w, (y, w) ∈ b → y = x → w = v) → view m b x = v.
Proof.
  revert m. induction b as [|[y w] b IH]; intros m Hm Hb; [done|].
  apply (IH (upd m y w)).
  - unfold upd. case_decide; [|done]. symmetry. subst. symmetry. apply (Hb y); [by left|done].
  - intros y' w' Hin. apply Hb. by right.
Qed.

Lemma tid_inj i j : tid i = tid j → i = j.
Proof. unfold tid. lia. Qed.
Lemma tid_nonzero i : tid i ≠ 0.
Proof. unfold tid. lia. Qed.

(** A store leaves the buffer of the thread that holds the mutex. *)
Lemma MInv_flush ls s i x v b :
  MInv ls s → s_bufs s !! i = Some ((x, v) :: b) →
  MInv ls (Shared (upd (s_mem s) x v) (<[i := b]> (s_bufs s)) (s_queue s) (s_evs s)).
Proof.
  unfold MInv. cbn. intros Hi Hb.
  destruct (lookup_lt_is_Some_2 ls i) as [l Hl].
  { rewrite <- (mi_bufs _ _ _ _ _ Hi). by eapply lookup_lt_Some. }
  assert (Hh : ph l = Holds).
  { destruct (decide (ph l = Holds)) as [|Hn]; [done|]. by specialize (mi_empty _ _ _ _ _ Hi i l _ Hl Hb Hn). }
  pose proof (mi_write _ _ _ _ _ Hi i _ x v Hb ltac:(by left)) as Hw.
  assert (Hst : x ≠ ST) by (intros ->; done).
  destruct Hi. constructor; try done; rewrite ?upd_other by done; try done.
  - by rewrite length_insert.
  - intros f w Hf. unfold upd. case_decide as Hx; [|by apply mi_const0]. subst x.
    destruct f; cbn in Hw, Hf; try done; destruct Hw as [_ ->]; congruence.
  - intros j l' b' Hl' Hj Hn. apply lookup_insert_cases in Hj as [[<- ->]|[? Hj]]; [congruence|by eapply mi_empty0].
  - intros j b' y w Hj Hin. apply lookup_insert_cases in Hj as [[<- ->]|[? Hj]]; [|by eapply mi_write0].
    eapply mi_write0; [exact Hb|by right].
  - unfold upd. case_decide as Hx; [|done]. subst x. destruct Hw as [_ [-> | ->]]; [right; by eauto|by left].
  - intros j l' b' Hl' Hj Hn. apply lookup_insert_cases in Hj as [[<- ->]|[? Hj]]; [by apply (mi_owned0 i l' _ Hl' Hb)|].
    by destruct (mi_one0 i j l l').
  - intros j l' b' Hl' Hj. apply lookup_insert_cases in Hj as [[<- ->]|[Hij Hj]]; [by apply (mi_list0 i l' _ Hl' Hb)|].
    rewrite <- (mi_list0 j l' b' Hl' Hj). apply view_ext, upd_other. intros <-. destruct Hw as [Hw _]. by apply tid_inj in Hw.
  - intros H0. exfalso. apply (proj2 mi_held0); [by eauto|done].
  - intros j l' b' Hl' Hj Hn. apply lookup_insert_cases in Hj as [[<- ->]|[? Hj]]; [by apply (mi_data0 i l' _ Hl' Hb)|].
    by destruct (mi_one0 i j l l').
Qed.

(** ** Steps *)

Lemma mutex_move i g f (K : shared → ml → Prop) l :
  (∀ ls m bufs qs es b q,
     ls !! i = Some l → bufs !! i = Some b → qs !! i = Some q → minv ls m bufs qs es →
     g (Shared m bufs qs es) →
     ∃ l' m' bufs' qs' es', f (Shared m bufs qs es) = Shared m' bufs' qs' es' ∧
       minv (<[i := l']> ls) m' bufs' qs' es' ∧ K (Shared m bufs qs es) l') →
  move MInv i g f K l.
Proof.
  intros H ls [m bufs qs es] Hl Hi Hg. unfold MInv in Hi. cbn in *.
  destruct (lookup_lt_is_Some_2 bufs i) as [b Hb].
  { rewrite (mi_bufs _ _ _ _ _ Hi). by eapply lookup_lt_Some. }
  destruct (lookup_lt_is_Some_2 qs i) as [q Hq].
  { rewrite (mi_queues _ _ _ _ _ Hi). by eapply lookup_lt_Some. }
  destruct (H ls m bufs qs es b q Hl Hb Hq Hi Hg) as (l' & m' & bufs' & qs' & es' & -> & Hi' & HK).
  by exists l'.
Qed.

(** A thread verified up to a result; one that is still trying is verified. *)
Abbreviation wpt := (wpT MInv Blocked).

Lemma ex_insert {B} (P P' : nat → B → Prop) (ls : list B) i l l' :
  ls !! i = Some l → (P i l → P' i l') → (∀ j lj, j ≠ i → P j lj → P' j lj) →
  (∃ j lj, ls !! j = Some lj ∧ P j lj) → ∃ j lj, <[i := l']> ls !! j = Some lj ∧ P' j lj.
Proof.
  intros Hl H1 H2 (j & lj & Hj & HP). destruct (decide (j = i)) as [->|Hne].
  - exists i, l'. rewrite list_lookup_insert_eq by (by eapply lookup_lt_Some). simplify_eq. auto.
  - exists j, lj. rewrite list_lookup_insert_ne by done. auto.
Qed.

(** Case distinction on the thread that has moved. *)
Ltac moved :=
  repeat match goal with
  | H : <[_ := _]> _ !! _ = Some _ |- _ =>
      let E := fresh in let E' := fresh in apply lookup_insert_cases in H as [[E E']|[E H]];
      [try match type of E' with ?x = _ => subst x end; match type of E with ?a = ?a => clear E | _ = ?b => subst b end; try done|try done]
  end.

(** Nothing but the view of thread [i] is read. *)
Lemma wpt_ld i x (P : Z → Prop) Q l :
  (∀ ls m bufs qs es b, ls !! i = Some l → bufs !! i = Some b → minv ls m bufs qs es → P (view m b x)) →
  (∀ v, P v → Q v l) → wpt i (ld x) Q l.
Proof.
  intros HP HQ. apply mutex_move. intros ls m bufs qs es b q Hl Hb Hq Hi _.
  exists l, m, bufs, qs, es. rewrite list_insert_id by done. split_and!; [done..|].
  unfold view_of. cbn. rewrite Hb. apply HQ. by eapply HP.
Qed.

Lemma wpt_const i f v Q l : const f = Some v → Q v l → wpt i (ld (Mx mx f)) Q l.
Proof.
  intros Hf HQ. apply (wpt_ld i _ (λ w, w = v)); [|by intros ? ->].
  intros ls m bufs qs es b Hl Hb Hi. apply view_fixed; [by apply (mi_const _ _ _ _ _ Hi)|].
  intros y w Hin ->. pose proof (mi_write _ _ _ _ _ Hi i b _ w Hb Hin) as Hw.
  destruct f; cbn in Hw, Hf; try done; destruct Hw as [_ ->]; congruence.
Qed.

(** The owner that a thread reads is itself just when it is. *)
Lemma wpt_ld_owner i Q l :
  (∀ v, (ph l = Holds → v = if owned l then tid i else 0) → (ph l ≠ Holds → v ≠ tid i) → Q v l) →
  wpt i (ld OW) Q l.
Proof.
  intros HQ. apply (wpt_ld i _ (λ v, (ph l = Holds → v = if owned l then tid i else 0) ∧ (ph l ≠ Holds → v ≠ tid i)));
    [|naive_solver].
  intros ls m bufs qs es b Hl Hb Hi. split; [by apply (mi_owned _ _ _ _ _ Hi)|]. intros Hn.
  rewrite (mi_empty _ _ _ _ _ Hi i l b Hl Hb Hn). cbn.
  destruct (mi_owner _ _ _ _ _ Hi) as [->|(j & lj & Hj & Hh & ->)]; [symmetry; apply tid_nonzero|].
  intros ->%tid_inj. congruence.
Qed.
Lemma wpt_ld_list i Q l : Q (if listed l then mx else 0) l → wpt i (ld (T_MUTEXES (tid i))) Q l.
Proof.
  intros HQ. apply (wpt_ld i _ (λ v, v = if listed l then mx else 0)); [|by intros ? ->].
  intros ls m bufs qs es b Hl Hb Hi. by apply (mi_list _ _ _ _ _ Hi).
Qed.

(** A store by the thread that holds the mutex. *)
Definition stored (i : nat) (x : ploc) (v : Z) (l l' : ml) : Prop :=
  ph l' = Holds ∧ confirmed l' = false ∧
  owned l' = (if decide (x = OW) then bool_decide (v = tid i) else owned l) ∧
  listed l' = (if decide (x = T_MUTEXES (tid i)) then bool_decide (v = mx) else listed l) ∧
  (if decide (x = DATA) then sg l = Read (v - 1) ∧ sg l' = Written else sg l' = sg l).

Lemma wpt_sto i x v (Q : unit → ml → Prop) l l' :
  ph l = Holds → may_store i x v → stored i x v l l' → Q tt l' → wpt i (sto x v) Q l.
Proof.
  intros Hh Hw (Hh' & Hc & Ho & Hli & Hs) HQ. apply mutex_move.
  intros ls m bufs qs es b q Hl Hb Hq Hi _.
  eexists l', m, _, qs, es. split; [done|]. split; [|done].
  rewrite (alter_at _ bufs i b Hb).
  assert (Hne : x ≠ ST) by (intros ->; done).
  assert (Hsg : sg l' = NotIn ↔ sg l = NotIn) by (case_decide; [destruct Hs as [-> ->]; done|by rewrite Hs]).
  assert (Hother : ∀ j lj, j ≠ i → ls !! j = Some lj → ph lj ≠ Holds).
  { intros j lj Hj Hlj Hn. by destruct (mi_one _ _ _ _ _ Hi i j l lj). }
  destruct Hi. constructor; rewrite ?length_insert; try done.
  - intros j lj b' Hlj Hj Hn. moved. by eapply (mi_empty0 j lj).
  - intros j b' y w Hj Hin. moved; [|by eapply mi_write0].
    apply elem_of_app in Hin as [Hin|Hin]; [by eapply mi_write0|]. by apply list_elem_of_singleton in Hin as [= -> ->].
  - rewrite mi_held0. split; [by apply (ex_insert (λ _ lj, ph lj = Holds) _ ls i l)|]. intros (j & lj & Hj & ?). moved; eauto.
  - intros j k lj lk Hj Hk ? ?. moved; try done; try (by destruct (Hother _ _ ltac:(done) ltac:(eassumption))).
  - destruct mi_owner0 as [|Ho']; [by left|right]. refine (ex_insert _ _ ls i l l' Hl _ _ Ho'); naive_solver.
  - intros j lj b' Hlj Hj Hn. moved; [|by destruct (Hother j lj)].
    rewrite view_snoc, Ho. destruct (decide (x = OW)) as [->|Hx]; [|rewrite decide_False by congruence; by apply mi_owned0].
    rewrite decide_True by done. destruct Hw as [_ [-> | ->]]; [by rewrite bool_decide_true|].
    rewrite bool_decide_false; [done|]. pose proof (tid_nonzero i). congruence.
  - intros j lj b' Hlj Hj. moved; [|by apply mi_list0].
    rewrite view_snoc, Hli. destruct (decide (x = T_MUTEXES _)) as [->|Hx]; [|rewrite decide_False by congruence; by apply mi_list0].
    rewrite decide_True by done. destruct Hw as [_ [-> | ->]]; [by rewrite bool_decide_true|].
    by rewrite bool_decide_false by congruence.
  - intros j lj Hlj Hn. moved. by eapply mi_flags0.
  - intros j lj b' Hlj Hj Hn. moved; [|by destruct (Hother j lj)].
    destruct (mi_data0 i l b Hl Hb Hh) as [Hd Hr]. rewrite view_snoc. destruct (decide (x = DATA)) as [->|Hx].
    + rewrite decide_True by done. destruct Hs as [Hs1 Hs2]. rewrite Hs2. split; [|done].
      rewrite (Hr _ Hs1) in Hd. rewrite Hs1 in Hd. rewrite decide_True by done. rewrite decide_False in Hd by done. lia.
    + rewrite decide_False by congruence. by rewrite Hs.
  - destruct mi_inside0 as [[He Hn]|(j & lj & Hj & Hn & He)].
    + left. split; [done|]. intros j lj Hlj. moved; [|by eapply Hn]. apply Hsg. by eapply Hn.
    + right. destruct (decide (j = i)) as [->|Hji].
      * exists i, l'. rewrite list_lookup_insert_eq by (by eapply lookup_lt_Some). simplify_eq. naive_solver.
      * by destruct (mi_flags0 j lj Hj (Hother j lj Hji Hj)) as (_ & _ & ?).
  - intros j lj keys Hlj Hj. moved; [|by eapply mi_queue0]. destruct (mi_queue0 i l keys Hl Hj) as [|[_ ?]]; [by left|congruence].
  - intros (j & lj & Hj & Hcj & Hq'). moved; [congruence|].
    destruct mi_live0 as [|Hw']; [by eauto|by left|right].
    refine (ex_insert _ _ ls i l l' Hl _ _ Hw'); [|done]. unfold waking. rewrite Hh. intros [?|[?|[? _]]]; done.
Qed.

(** ** Taking and releasing *)

Definition flat (l : ml) : Prop := owned l = false ∧ listed l = false ∧ sg l = NotIn.
(** How a step of a thread goes with the state word. *)
Definition changes (p p' : phase) (v v' : Z) : Prop :=
  (p ≠ Holds ∧ p' = Holds ∧ v = 0 ∧ v' ≠ 0) ∨
  (p = Holds ∧ p' ≠ Holds ∧ v ≠ 0 ∧ v' = 0) ∨
  (p ≠ Holds ∧ p' ≠ Holds ∧ (v = 0 ↔ v' = 0)).

Lemma minv_changes ls m m' bufs qs qs' es i l l' :
  minv ls m bufs qs es → ls !! i = Some l → bufs !! i = Some [] →
  (∀ x, x ≠ ST → m' x = m x) → flat l → flat l' →
  m' ST = 0 ∨ m' ST = 1 ∨ m' ST = 2 → changes (ph l) (ph l') (m ST) (m' ST) →
  length qs' = length qs → queues_ok (<[i := l']> ls) qs' → lively (m' ST) (<[i := l']> ls) qs' →
  minv (<[i := l']> ls) m' bufs qs' es.
Proof.
  intros Hi Hl Hb Hm (Ho & Hli & Hs) (Ho' & Hli' & Hs') Hst Hch Hlen Hq Hlive.
  assert (Hlt : (i < length ls)%nat) by (by eapply lookup_lt_Some).
  assert (Hv : ∀ b x, x ≠ ST → view m' b x = view m b x) by (intros; apply view_ext; auto).
  pose proof (mi_data _ _ _ _ _ Hi i l [] Hl Hb) as Hd. pose proof (mi_owned _ _ _ _ _ Hi i l [] Hl Hb) as How.
  assert (Hh : ∀ j lj, <[i := l']> ls !! j = Some lj → ph lj = Holds →
    (j = i ∧ lj = l' ∧ m ST = 0) ∨ (j ≠ i ∧ ls !! j = Some lj ∧ ph l' ≠ Holds)).
  { intros j lj Hj Hh. destruct Hch as [(? & ? & H0 & ?)|[(? & ? & ? & ?)|(? & ? & ?)]]; moved; auto.
    by destruct (proj2 (mi_held _ _ _ _ _ Hi) ltac:(eauto)). }
  destruct Hi. constructor; rewrite ?length_insert; try done; try congruence.
  - intros f v Hf. rewrite Hm; [by apply mi_const0|]. intros [= ->]. done.
  - intros j lj b Hj Hb' Hn. moved; [congruence|]. by eapply (mi_empty0 j lj).
  - destruct Hch as [(? & ? & ? & ?)|[(? & ? & ? & ?)|(? & ? & Hiff)]].
    + split; [intros _|done]. exists i, l'. by rewrite list_lookup_insert_eq.
    + split; [done|]. intros (j & lj & Hj & Hn). by destruct (Hh _ _ Hj Hn) as [(-> & -> & ?)|(? & ? & ?)];
        [|destruct (mi_one0 i j l lj)].
    + rewrite <- Hiff, mi_held0. split; intros (j & lj & Hj & Hn).
      * exists j, lj. rewrite list_lookup_insert_ne by congruence. done.
      * moved. eauto.
  - intros j k lj lk Hj Hk H1 H2.
    destruct (Hh _ _ Hj H1) as [(-> & -> & ?)|(? & Hj' & ?)], (Hh _ _ Hk H2) as [(-> & -> & ?)|(? & Hk' & ?)]; by eauto.
  - rewrite Hm by done. destruct (decide (ph l = Holds)) as [Hl'|Hl']; [left; specialize (How Hl'); by rewrite Ho in How|].
    destruct mi_owner0 as [|(j & lj & Hj & Hn & ?)]; [by left|right; exists j, lj].
    rewrite list_lookup_insert_ne by congruence. done.
  - intros j lj b Hj Hb' Hn. rewrite Hv by done.
    destruct (Hh _ _ Hj Hn) as [(-> & -> & H0)|(? & Hj' & ?)]; [|by eapply mi_owned0]. 
    simplify_eq. rewrite Ho'. cbn. destruct mi_owner0 as [|(j & lj & Hlj & Hhj & _)]; [done|]. destruct (proj2 mi_held0); eauto.
  - intros j lj b Hj Hb'. rewrite Hv by done. moved; [|by eapply mi_list0]. rewrite Hli'. rewrite (mi_list0 i l b Hl Hb'). by rewrite Hli.
  - intros j lj Hj Hn. moved. by eapply mi_flags0.
  - intros H0. rewrite Hm by done. destruct Hch as [(? & ? & ? & ?)|[(Hl' & ? & ? & ?)|(? & ? & Hiff)]]; [done| |by apply mi_free0, Hiff].
    destruct (Hd Hl') as [Hd' _]. rewrite Hs in Hd'. cbn in Hd'. rewrite decide_False in Hd' by done. by rewrite Z.add_0_r in Hd'.
  - intros j lj b Hj Hb' Hn. rewrite Hv by done.
    destruct (Hh _ _ Hj Hn) as [(-> & -> & H0)|(? & Hj' & ?)]; [|by eapply mi_data0]. 
    simplify_eq. rewrite Hs', decide_False by done. cbn. split; [rewrite Z.add_0_r; auto|done].
  - destruct mi_inside0 as [[He Hn]|(j & lj & Hj & Hn & He)].
    + left. split; [done|]. intros j lj Hlj. moved. by eapply Hn.
    + right. exists j, lj. rewrite list_lookup_insert_ne by congruence. done.
Qed.

(** A locked instruction on the state word. *)
Lemma wpt_state i f (l' : Z → ml) Q l :
  flat l → ph l = Outside ∨ ph l = ToMark ∨ ph l = Holds →
  (∀ v, v = 0 ∨ v = 1 ∨ v = 2 → (ph l = Holds → v ≠ 0) →
     flat (l' v) ∧ confirmed (l' v) = false ∧ (f v = 0 ∨ f v = 1 ∨ f v = 2) ∧
     changes (ph l) (ph (l' v)) v (f v) ∧
     (f v = 2 ∨ v ≠ 2 ∧ ph l ≠ ToMark ∨ ph (l' v) = ToWake) ∧ Q v (l' v)) →
  wpt i (Rmw ST f (λ v, Ret (Some v))) Q l.
Proof.
  intros Hfl Hp H. apply mutex_move. intros ls m bufs qs es b q Hl Hb Hq Hi [Hd Hr]. unfold running in Hr. cbn in Hd, Hr.
  destruct (H (m ST)) as (Hfl' & Hc & Hv & Hch & Hlv & HQ); [by apply (mi_state _ _ _ _ _ Hi)| |].
  { intros Hh. apply (mi_held _ _ _ _ _ Hi). eauto. }
  eexists (l' (m ST)), _, bufs, qs, es. split; [done|]. split; [|done]. cbn.
  apply (minv_changes ls m _ bufs qs qs es i l); rewrite ?upd_same; try done.
  - intros x Hx. by apply upd_other.
  - intros j lj keys Hj Hk. moved; [left; congruence|]. by eapply (mi_queue _ _ _ _ _ Hi).
  - intros (j & lj & Hj & Hcj & Hqj). moved; [congruence|].
    destruct Hlv as [|[[Hn2 Hnm]|]]; [by left| |right; exists i, (l' (m ST))].
    + destruct (mi_live _ _ _ _ _ Hi) as [|Hw]; [by eauto|done|right].
      refine (ex_insert _ _ ls i l _ Hl _ _ Hw); [|done]. unfold waking. intros Hw'. exfalso. naive_solver congruence.
    + rewrite list_lookup_insert_eq by (by eapply lookup_lt_Some). split; [done|by left].
Qed.

Lemma wpt_try i Q : Q 0 (holding false false NotIn) → (∀ v, v ≠ 0 → Q v outside) → wpt i (cmpxchg ST 0 1) Q outside.
Proof.
  intros H0 Hn. apply (wpt_state i _ (λ v, if decide (v = 0) then holding false false NotIn else outside)); [done|by left|].
  intros v Hv _. unfold changes, flat. repeat case_decide; subst; cbn; intuition (auto; congruence).
Qed.
Lemma wpt_mark i Q p : p = Outside ∨ p = ToMark →
  Q 0 (holding false false NotIn) → (∀ v, v ≠ 0 → Q v outside) → wpt i (xchg ST 2) Q (at_phase p).
Proof.
  intros Hp H0 Hn. apply (wpt_state i _ (λ v, if decide (v = 0) then holding false false NotIn else outside)); [done|naive_solver|].
  intros v Hv _. unfold changes, flat. repeat case_decide; subst; cbn; intuition (auto; congruence).
Qed.
Lemma wpt_release i Q :
  (∀ v, v ≠ 2 → Q v outside) → Q 2 (at_phase ToWake) → wpt i (xchg ST 0) Q (holding false false NotIn).
Proof.
  intros Hn H2. apply (wpt_state i _ (λ v, if decide (v = 2) then at_phase ToWake else outside)); [done|naive_solver|].
  intros v Hv Hz. unfold changes, flat. specialize (Hz eq_refl). case_decide; subst; cbn; intuition (auto; congruence).
Qed.

(** ** Blocking and waking *)

Lemma minv_phase ls m bufs qs qs' es i l l' :
  minv ls m bufs qs es → ls !! i = Some l → flat l → flat l' → ph l ≠ Holds → ph l' ≠ Holds →
  length qs' = length qs → queues_ok (<[i := l']> ls) qs' → lively (m ST) (<[i := l']> ls) qs' →
  minv (<[i := l']> ls) m bufs qs' es.
Proof.
  intros Hi Hl Hfl Hfl' Hp Hp' Hlen Hq Hlive.
  destruct (lookup_lt_is_Some_2 bufs i) as [b Hb].
  { rewrite (mi_bufs _ _ _ _ _ Hi). by eapply lookup_lt_Some. }
  assert (b = []) as -> by (by apply (mi_empty _ _ _ _ _ Hi i l b)).
  apply (minv_changes ls m m bufs qs qs' es i l l'); try done; [apply (mi_state _ _ _ _ _ Hi)|].
  right. right. done.
Qed.

(** A thread that does not hold the mutex changes its phase and its queue. *)
Lemma minv_queue ls m bufs qs es i l l' keys q :
  minv ls m bufs qs es → ls !! i = Some l → qs !! i = Some q → flat l → flat l' → ph l ≠ Holds → ph l' ≠ Holds →
  keys = [] ∨ keys = [ST] ∧ ph l' = Asleep →
  confirmed l' = false ∨ m ST = 2 → (waking qs i l → ph l' = ToMark) →
  minv (<[i := l']> ls) m bufs (<[i := keys]> qs) es.
Proof.
  intros Hi Hl Hqi Hfl Hfl' Hp Hp' Hk Hc Hw. apply (minv_phase ls m bufs qs _ es i l); try done.
  - by rewrite length_insert.
  - intros j lj keys' Hj Hj'. moved. by eapply (mi_queue _ _ _ _ _ Hi).
  - intros (j & lj & Hj & Hcj & Hqj). destruct Hc as [Hc|]; [|by left]. moved; [congruence|].
    destruct (mi_live _ _ _ _ _ Hi) as [|Hex]; [by eauto|by left|right].
    refine (ex_insert _ _ ls i l _ Hl _ _ Hex); [intros Hwi; right; left; auto|].
    intros k lk Hk' [?|[?|[? ?]]]; [by left|right; by left|right; right].
    by rewrite list_lookup_insert_ne by done.
Qed.

Lemma wpt_wait i timed Q :
  (∀ kr, Q kr outside) → (∀ kr, kr ≠ KERN_OPERATION_TIMED_OUT → Q kr (at_phase ToMark)) →
  wpt i (_pthread_futex_wait ST 2 timed) Q outside.
Proof.
  intros Ho Hm. split; [intros kr _ _; apply Ho|]. apply mutex_move.
  intros ls m bufs qs es b q Hl Hb Hq Hi [Hd Hr].
  eexists (at_phase Asleep), m, bufs, _, es. split; [done|]. split.
  { apply (minv_queue _ _ _ _ _ _ outside _ _ q); try done; [by right|by left|]. intros [?|[?|[? ?]]]; done. }
  split.
  { apply mutex_move. clear -Hm. intros ls m bufs qs es b q Hl Hb Hq Hi _.
    eexists (at_phase ToMark), m, bufs, _, es. split; [done|]. split; [|by apply Hm].
    apply (minv_queue _ _ _ _ _ _ (at_phase Asleep) _ _ q); try done; by left. }
  apply mutex_move. clear -Ho Hm. intros ls m bufs qs es b q Hl Hb Hq Hi H2. cbn in H2.
  exists (ML Asleep false false NotIn true), m, bufs, qs, es. split; [done|]. split.
  { apply (minv_phase ls m bufs qs _ es i (at_phase Asleep)); try done; [|by left].
    intros j lj keys Hj Hk. moved; [apply (mi_queue _ _ _ _ _ Hi i _ keys Hl Hk)|].
    by eapply (mi_queue _ _ _ _ _ Hi). }
  split; [done|]. split; [|intros kr]; apply mutex_move; clear -Ho Hm.
  - intros ls m bufs qs es b q Hl Hb Hq Hi Hr.
    exists (at_phase ToMark), m, bufs, qs, es. split; [done|]. split; [|by apply Hm].
    rewrite <- (list_insert_id qs i []) by done.
    apply (minv_queue _ _ _ _ _ _ (ML Asleep false false NotIn true) _ _ q); try done; by left.
  - intros ls m bufs qs es b q Hl Hb Hq Hi Hr. unfold running in Hr. cbn in Hr.
    eexists (if decide (kr = KERN_OPERATION_TIMED_OUT) then outside else at_phase ToMark), m, bufs, _, es.
    split; [done|]. split; [|by case_decide; [apply Ho|apply Hm]].
    apply (minv_queue _ _ _ _ _ _ (ML Asleep false false NotIn true) _ _ q); try case_decide; try done;
      try (by left); intros [?|[?|[_ ?]]]; done.
Qed.

Lemma wpt_wake i (Q : unit → ml → Prop) : Q tt outside → wpt i (_pthread_futex_wake_one ST) Q (at_phase ToWake).
Proof.
  intros HQ. split; [intros j|]; apply mutex_move; intros ls m bufs qs es b q Hl Hb Hq Hi [[Hd Hr] Hj];
    unfold running in Hr; cbn in Hr.
  - destruct Hj as (keys & Hj & Hx). cbn in Hj.
    destruct (lookup_lt_is_Some_2 ls j) as [lj Hlj]. { rewrite <- (mi_queues _ _ _ _ _ Hi). by eapply lookup_lt_Some. }
    destruct (mi_queue _ _ _ _ _ Hi j lj keys Hlj Hj) as [->|[-> Hp]]; [by apply not_elem_of_nil in Hx|].
    eexists outside, m, bufs, _, es. split; [done|]. split; [|done].
    apply (minv_phase ls m bufs qs _ es i (at_phase ToWake)); try done; [by rewrite length_imap| |].
    + intros k lk keys Hk. rewrite list_lookup_imap. intros (keys0 & Hk0 & ->)%fmap_Some.
      case_match; [by left|]. cbn in Hk0. moved; [left; congruence|]. by eapply (mi_queue _ _ _ _ _ Hi).
    + intros _. right. exists j, lj. rewrite list_lookup_insert_ne by congruence. split; [done|].
      right. right. split; [done|]. cbn. rewrite list_lookup_imap, Hj. cbn. unfold wake_one.
      rewrite !bool_decide_true by done. done.
  - exists outside, m, bufs, qs, es. split; [done|]. split; [|done].
    apply (minv_phase ls m bufs qs _ es i (at_phase ToWake)); try done.
    + intros k lk keys Hk Hqk. moved; [|by eapply (mi_queue _ _ _ _ _ Hi)]. by destruct (mi_queue _ _ _ _ _ Hi i _ _ Hl Hqk) as [|[_ ?]]; [left|].
    + intros (k & lk & _ & _ & Hqk). destruct (Hj k). exists [ST]. split; [done|by left].
Qed.

(** ** The spin lock of the mutex, which the proof does not rely on *)

Lemma minv_lock ls m m' bufs qs es :
  minv ls m bufs qs es → (∀ x, x ≠ Mx mx LOCK → m' x = m x) → minv ls m' bufs qs es.
Proof.
  intros Hi Hm. assert (Hv : ∀ b x, x ≠ Mx mx LOCK → view m' b x = view m b x) by (intros; apply view_ext; auto).
  destruct Hi. constructor; try done; rewrite ?Hm by done; try done.
  - intros f v Hf. rewrite Hm; [by apply mi_const0|]. intros [= ->]. done.
  - intros ? ? ? ? ? ?. rewrite Hv by done. by eapply mi_owned0.
  - intros ? ? ? ? ?. rewrite Hv by done. by eapply mi_list0.
  - intros ? ? ? ? ? ?. rewrite Hv by done. by eapply mi_data0.
Qed.
Lemma wpt_rmw_lock i f Q l : (∀ v, Q v l) → wpt i (Rmw (Mx mx LOCK) f (λ v, Ret (Some v))) Q l.
Proof.
  intros HQ. apply mutex_move. intros ls m bufs qs es b q Hl Hb Hq Hi _.
  eexists l, _, bufs, qs, es. rewrite list_insert_id by done. split; [done|]. split; [|apply HQ].
  eapply minv_lock; [exact Hi|]. intros x Hx. by apply upd_other.
Qed.
Lemma wpt_spin_lock i tries (Q : unit → ml → Prop) l : Q tt l → wpt i (_spin_lock tries (Mx mx LOCK)) Q l.
Proof.
  intros HQ. induction tries as [|tries IH]; [apply wpT_trying|]. cbn [_spin_lock].
  apply wpT_bind, wpt_rmw_lock. intros v. by case_decide.
Qed.
Lemma wpt_spin_unlock i (Q : unit → ml → Prop) l : Q tt l → wpt i (_spin_unlock (Mx mx LOCK)) Q l.
Proof. intros HQ. apply wpT_bind, wpt_rmw_lock. by intros v. Qed.

(** ** In the section *)

Lemma in_section_app es e : in_section (es ++ [e]) = in_step (in_section es) e.
Proof. unfold in_section. by rewrite foldl_app. Qed.
Lemma left_section_app es e :
  left_section (es ++ [e]) = left_section es + match e with Leave _ => 1 | _ => 0 end.
Proof. unfold left_section. rewrite foldl_app. destruct e; cbn; lia. Qed.

Definition inside (i : nat) (g : stage) : list nat := if decide (g = NotIn) then [] else [i].

Lemma minv_inside ls m bufs qs es i l :
  minv ls m bufs qs es → ls !! i = Some l → ph l = Holds → in_section es = inside i (sg l).
Proof.
  intros Hi Hl Hh. unfold inside. destruct (mi_inside _ _ _ _ _ Hi) as [[-> Hn]|(j & lj & Hj & Hn & ->)].
  - by rewrite decide_True by (by eapply Hn).
  - assert (ph lj = Holds) as Hj'.
    { destruct (decide (ph lj = Holds)) as [|Hne]; [done|]. by destruct (mi_flags _ _ _ _ _ Hi j lj Hj Hne) as (_ & _ & ?). }
    assert (j = i) as -> by (by apply (mi_one _ _ _ _ _ Hi j i lj l)). simplify_eq. by rewrite decide_False.
Qed.

Lemma minv_stage ls m bufs qs es es' i o li g g' b :
  minv ls m bufs qs es → ls !! i = Some (holding o li g) → bufs !! i = Some b →
  in_section es' = inside i g' →
  view m b DATA = left_section es' + (if decide (g' = Written) then 1 else 0) →
  (∀ v, g' = Read v → view m b DATA = v) →
  minv (<[i := holding o li g']> ls) m bufs qs es'.
Proof.
  intros Hi Hl Hb Hes Hd Hr.
  assert (Hlt : (i < length ls)%nat) by (by eapply lookup_lt_Some).
  assert (Hother : ∀ j lj, j ≠ i → ls !! j = Some lj → ph lj ≠ Holds).
  { intros j lj Hj Hlj Hn. by destruct (mi_one _ _ _ _ _ Hi i j _ lj Hl Hlj). }
  destruct Hi. constructor; rewrite ?length_insert; try done.
  - intros j lj b' Hj Hb' Hn. moved. by eapply (mi_empty0 j lj).
  - rewrite mi_held0. split; [by apply (ex_insert (λ _ lj, ph lj = Holds) _ ls i _ _ Hl)|].
    intros (j & lj & Hj & ?). moved; eauto.
  - intros j k lj lk Hj Hk ? ?. moved; try done; by destruct (Hother _ _ ltac:(done) ltac:(eassumption)).
  - destruct mi_owner0 as [|Ho]; [by left|right]. refine (ex_insert _ _ ls i _ _ Hl _ _ Ho); naive_solver.
  - intros j lj b' Hj Hb' Hn. moved; [by apply (mi_owned0 i _ b' Hl)|by apply mi_owned0].
  - intros j lj b' Hj Hb'. moved; [by apply (mi_list0 i _ b' Hl)|by apply mi_list0].
  - intros j lj Hj Hn. moved. by eapply mi_flags0.
  - intros H0. destruct (proj2 mi_held0); [by eauto|done].
  - intros j lj b' Hj Hb' Hn. moved; [|by destruct (Hother j lj)]. by simplify_eq.
  - rewrite Hes. unfold inside. destruct (decide (g' = NotIn)) as [Hg|Hg].
    + left. split; [done|]. intros j lj Hj. moved. by destruct (mi_flags0 j lj Hj ltac:(eauto)) as (_ & _ & ?).
    + right. exists i, (holding o li g'). by rewrite list_lookup_insert_eq.
  - intros j lj keys Hj Hk. moved; [by apply (mi_queue0 i _ keys Hl)|by eapply mi_queue0].
  - intros (j & lj & Hj & Hc & Hq). moved. destruct (mi_live0 ltac:(eauto)) as [|Hw]; [by left|right].
    refine (ex_insert _ _ ls i _ _ Hl _ _ Hw); done.
Qed.

Lemma wpt_stage_note i o li g g' e (Q : unit → ml → Prop) :
  (∀ es, in_section es = inside i g → in_section (es ++ [e]) = inside i g') →
  (∀ es x, x = left_section es + (if decide (g = Written) then 1 else 0) →
     x = left_section (es ++ [e]) + (if decide (g' = Written) then 1 else 0)) →
  (∀ v, g' ≠ Read v) → Q tt (holding o li g') → wpt i (mark e) Q (holding o li g).
Proof.
  intros He Hx Hv HQ. apply mutex_move. intros ls m bufs qs es b q Hl Hb Hq Hi _.
  exists (holding o li g'), m, bufs, qs, (es ++ [e]). split; [done|]. split; [|done].
  destruct (mi_data _ _ _ _ _ Hi i _ b Hl Hb eq_refl) as [Hd _].
  apply (minv_stage _ _ _ _ _ _ _ _ _ _ _ b Hi Hl Hb); [|by apply Hx|naive_solver].
  apply He. by apply (minv_inside _ _ _ _ _ _ _ Hi Hl).
Qed.
Lemma wpt_enter i o li (Q : unit → ml → Prop) :
  Q tt (holding o li Entered) → wpt i (mark (Enter i)) Q (holding o li NotIn).
Proof.
  apply wpt_stage_note; [|intros es x ->; rewrite left_section_app; repeat case_decide; done || lia|done].
  intros es Hes. by rewrite in_section_app, Hes.
Qed.
Lemma wpt_leave i o li (Q : unit → ml → Prop) :
  Q tt (holding o li NotIn) → wpt i (mark (Leave i)) Q (holding o li Written).
Proof.
  apply wpt_stage_note; [|intros es x ->; rewrite left_section_app; repeat case_decide; done || lia|done].
  intros es Hes. rewrite in_section_app, Hes. unfold inside. repeat case_decide; try done. unfold in_step. by rewrite filter_cons_False by naive_solver.
Qed.
Lemma wpt_read i o li Q :
  (∀ v, Q v (holding o li (Read v))) → wpt i (ld DATA) Q (holding o li Entered).
Proof.
  intros HQ. apply mutex_move. intros ls m bufs qs es b q Hl Hb Hq Hi _.
  exists (holding o li (Read (view m b DATA))), m, bufs, qs, es. split; [done|].
  unfold view_of. cbn. rewrite Hb. split; [|apply HQ].
  destruct (mi_data _ _ _ _ _ Hi i _ b Hl Hb eq_refl) as [Hd _]. cbn in Hd.
  apply (minv_stage _ _ _ _ _ _ _ _ _ _ _ b Hi Hl Hb); [|done|congruence].
  by apply (minv_inside _ _ _ _ _ _ _ Hi Hl).
Qed.
Lemma wpt_critical i o li (Q : unit → ml → Prop) :
  Q tt (holding o li NotIn) → wpt i (critical i) Q (holding o li NotIn).
Proof.
  intros HQ. apply wpT_bind, wpt_enter, wpT_bind, wpt_read. intros v.
  apply wpT_bind, (wpt_sto _ _ _ _ _ (holding o li Written)); [done..| |by apply wpt_leave].
  unfold stored. cbn. split_and!; try done. by rewrite Z.add_simpl_r.
Qed.

(** ** The operations *)

Ltac stored := unfold stored; repeat case_decide; split_and!; try done; symmetry;
  (apply bool_decide_eq_true_2 || apply bool_decide_eq_false_2); by auto using tid_nonzero.
Ltac sto l := apply wpT_bind, (wpt_sto _ _ _ _ _ l); [done|cbn; by auto|stored|].
Ltac const f := apply wpT_bind, (wpt_const _ f _ _ _ eq_refl).
Ltac ret := apply wpT_bind, wpT_ret.

Lemma wpt_ready i Q l : Q None l → wpt i (ready mx) Q l.
Proof.
  intros HQ. unfold ready. const SIG. rewrite decide_False by done. ret. const SIG. by apply wpT_ret.
Qed.
Lemma wpt_add i (Q : unit → ml → Prop) :
  Q tt (holding true true NotIn) → wpt i (_pthread_mutex_add (tid i) mx) Q (holding false false NotIn).
Proof.
  intros HQ. unfold _pthread_mutex_add. sto (holding true false NotIn).
  apply wpT_bind, wpt_ld_list. cbn [listed holding]. rewrite decide_False by tauto. ret.
  sto (holding true false NotIn). sto (holding true false NotIn).
  eapply (wpt_sto _ _ _ _ _ (holding true true NotIn)); [done|cbn; by auto|stored|done].
Qed.
Lemma wpt_remove i (Q : unit → ml → Prop) :
  Q tt (holding true false NotIn) → wpt i (_pthread_mutex_remove (tid i) mx) Q (holding true true NotIn).
Proof.
  intros HQ. unfold _pthread_mutex_remove. const NEXT. rewrite decide_False by tauto. ret. const PREV.
  rewrite decide_False by tauto.
  eapply (wpt_sto _ _ _ _ _ (holding true false NotIn)); [done|cbn; by auto|stored|done].
Qed.
Lemma wpt_own i tries Q :
  Q ESUCCESS (holding true true NotIn) → wpt i (own tries (tid i) mx) Q (holding false false NotIn).
Proof.
  intros HQ. apply wpT_bind, wpt_spin_lock, wpT_bind, wpt_add, wpT_bind, wpt_spin_unlock. by apply wpT_ret.
Qed.
Lemma wpt_lock_checks i tries Q : Q None outside → wpt i (lock_checks tries (tid i) mx) Q outside.
Proof.
  intros HQ. unfold lock_checks. const ROBUST. rewrite decide_False by done. ret. rewrite decide_False by tauto.
  const TYPE. case_decide; [done|].
  apply wpT_bind, wpt_spin_lock, wpT_bind, wpt_ld_owner. intros v _ Hv. rewrite decide_False by (by apply Hv).
  apply wpT_bind, wpt_spin_unlock. by apply wpT_ret.
Qed.
Lemma wpt_take_over i tries Q l : Q None l → wpt i (take_over tries (tid i) mx) Q l.
Proof. intros HQ. unfold take_over. const ROBUST. rewrite decide_True by done. by apply wpT_ret. Qed.

Lemma wpt_lock_loop i fuel old (Q : unit → ml → Prop) :
  Q tt (holding false false NotIn) →
  wpt i (lock_loop mx fuel old) Q (if decide (old = 0) then holding false false NotIn else outside).
Proof.
  intros HQ. revert old. induction fuel as [|fuel IH]; intros old; cbn [lock_loop]; case_decide; try done.
  apply wpT_bind, wpt_wait; intros kr; [|intros _]; (apply wpT_bind, wpt_mark; [by auto|apply (IH 0)|]);
    intros v Hv; specialize (IH v); by rewrite decide_False in IH.
Qed.

Lemma wpt_unlock i tries (Q : Z → ml → Prop) :
  Q ESUCCESS outside → wpt i (pthread_mutex_unlock tries (tid i) mx) Q (holding true true NotIn).
Proof.
  intros HQ. apply wpT_bind, wpt_ready, wpT_bind, wpt_spin_lock, wpT_bind, wpt_ld_owner. intros v Hv _.
  rewrite (Hv eq_refl). cbn [owned holding]. rewrite decide_False by tauto. const TYPE.
  apply wpT_bind. eapply (wpT_mono _ _ _ _ (λ n l, n = 0 ∧ l = holding true true NotIn)).
  - intros n l [-> ->]. rewrite decide_False by done. const ROBUST. rewrite decide_False by done. ret.
    rewrite decide_False by tauto. ret. apply wpT_bind, wpt_remove.
    sto (holding false false NotIn).
    sto (holding false false NotIn). apply wpT_bind, wpt_spin_unlock, wpT_bind, wpt_release.
    + intros old Hold. rewrite decide_False by done. ret. done.
    + rewrite decide_True by done. apply wpT_bind, wpt_wake. done.
  - case_decide; [|done]. by eapply wpt_const.
Qed.

Lemma wpt_timed_loop i abstime nows old (Q : bool → ml → Prop) :
  Q true (holding false false NotIn) → Q false outside →
  wpt i (timed_loop mx abstime nows old) Q (if decide (old = 0) then holding false false NotIn else outside).
Proof.
  intros HQ HQ'. revert old. induction nows as [|now nows IH]; intros old; cbn [timed_loop]; case_decide; try done.
  destruct (remaining abstime now) as [left|]; [|done].
  apply wpT_bind, wpt_wait; intros kr; [case_decide; [done|]|intros Hkr; rewrite decide_False by done];
    (apply wpT_bind, wpt_mark; [by auto|apply (IH 0)|]);
    intros v Hv; specialize (IH v); by rewrite decide_False in IH.
Qed.

Lemma wpt_lock_with i tries loop Q :
  (∀ old, wpt i (loop old) (λ ok l, l = if (ok : bool) then holding false false NotIn else outside)
     (if decide (old = 0) then holding false false NotIn else outside)) →
  Q ESUCCESS (holding true true NotIn) → Q ETIMEDOUT outside →
  wpt i (lock_with tries (tid i) mx loop) Q outside.
Proof.
  intros Hloop Hs Ht. apply wpT_bind, wpt_ready, wpT_bind, wpt_lock_checks, wpT_bind, wpt_try.
  { rewrite decide_True by done. by apply wpt_own. }
  intros v Hv. rewrite decide_False by done. apply wpT_bind, wpt_take_over, wpT_bind.
  apply (wpT_mono _ _ _ _ (λ v l, l = if decide (v = 0) then holding false false NotIn else outside)).
  - intros old l ->. apply wpT_bind. eapply wpT_mono; [|apply Hloop].
    intros [] l' ->; [by apply wpt_own|done].
  - case_decide; [|by apply wpT_ret; rewrite decide_False].
    apply wpt_mark; [by left|done|]. intros w Hw. by rewrite decide_False.
Qed.

Lemma wpt_trylock i tries Q :
  Q ESUCCESS (holding true true NotIn) → Q EBUSY outside →
  wpt i (pthread_mutex_trylock tries (tid i) mx) Q outside.
Proof.
  intros Hs Hb. apply wpT_bind, wpt_ready. const TYPE. apply wpT_bind.
  apply (wpT_mono _ _ _ _ (λ again l, again = false ∧ l = outside)).
  - intros again l [-> ->]. apply wpT_bind, wpt_try; [by apply wpt_own|].
    intros v Hv. by rewrite decide_False.
  - case_decide; [|done]. apply wpT_bind, wpt_spin_lock, wpT_bind, wpt_ld_owner. intros v _ Hv.
    rewrite decide_False by (by apply Hv). apply wpT_bind, wpt_spin_unlock. done.
Qed.

Lemma wpt_acquire i tries fuel r (Q : Z → ml → Prop) :
  Q ESUCCESS (holding true true NotIn) → (∀ rc, rc ≠ ESUCCESS → Q rc outside) →
  wpt i (acquire tries fuel mx i r) Q outside.
Proof.
  intros Hs Hn. destruct r as [| |abstime nows]; cbn [acquire].
  - apply wpt_lock_with; [|done|by apply Hn]. intros old. apply wpT_bind, wpt_lock_loop. done.
  - apply wpt_trylock; [done|by apply Hn].
  - apply wpt_lock_with; [|done|by apply Hn]. intros old. by apply wpt_timed_loop.
Qed.

Lemma wpt_locker i tries fuel rs :
  wpt i (locker tries fuel mx i rs) (λ _ l, l = outside) outside.
Proof.
  induction rs as [|r rs IH]; [done|]. cbn [locker].
  apply wpT_bind, wpt_acquire; [|intros rc Hrc; rewrite decide_False by done; by ret].
  rewrite decide_True by done. apply wpT_bind, wpT_bind, wpt_critical, wpT_bind, wpt_unlock. done.
Qed.
End mutex.

(** ** The threads of a program *)

(** The mutex is set up before the threads start. *)
Definition mutex_start (mx : Z) (attr : option pthread_mutexattr) (m : ploc → Z)
    (tries fuel : nat) (rss : list (list mreq)) : @config ploc pevent (option unit) :=
  Config (solo m (pthread_mutex_init mx attr))
    (imap (λ i rs, Thread [] (Run (locker tries fuel mx i rs))) rss) [].

(** A mutex that is not robust; no thread owns a mutex; the shared word is 0. *)
Definition plain (attr : option pthread_mutexattr) : Prop :=
  match attr with
  | Some a => attr_sig a = _PTHREAD_MUTEX_ATTR_SIG ∧ attr_robust a = PTHREAD_MUTEX_STALLED
  | None => True
  end.
Definition fresh_threads (m : ploc → Z) : Prop := m DATA = 0 ∧ ∀ i, m (T_MUTEXES (tid i)) = 0.
Definition mutex_type (attr : option pthread_mutexattr) : Z := from_option attr_type PTHREAD_MUTEX_NORMAL attr.

Section system.
Context (mx : Z) (attr : option pthread_mutexattr) (m : ploc → Z) (tries fuel : nat) (rss : list (list mreq)).
Hypotheses (Hmx : mx ≠ 0) (Hattr : plain attr) (Hm : fresh_threads m).

Lemma init_memory :
  let m' := solo m (pthread_mutex_init mx attr) in
  (∀ f v, const (mutex_type attr) f = Some v → m' (Mx mx f) = v) ∧
  m' (Mx mx STATE) = 0 ∧ m' (Mx mx OWNER) = 0 ∧ fresh_threads m'.
Proof.
  destruct Hm as [Hd Ht]. unfold pthread_mutex_init, plain in *.
  destruct attr as [a|]; [destruct Hattr as [Hs Hr]; rewrite decide_False by tauto|];
    (split; [intros f v Hf; destruct f; cbn in Hf |- *; simplify_eq|split_and!; [..|split; [|intros i]]; cbn]);
    rewrite ?upd_other, ?upd_same by done; auto.
Qed.

Lemma start_inv :
  MInv mx (mutex_type attr) (replicate (length rss) outside) (shared_of (mutex_start mx attr m tries fuel rss)).
Proof.
  destruct init_memory as (Hc & Hst & How & Hd & Ht).
  assert (Hl : ∀ i l, replicate (length rss) outside !! i = Some l → l = outside).
  { intros i l Hl. by apply lookup_replicate in Hl as [-> _]. }
  assert (Hbuf : ∀ i b, s_bufs (shared_of (mutex_start mx attr m tries fuel rss)) !! i = Some b → b = []).
  { intros i b. cbn. rewrite list_lookup_fmap, list_lookup_imap. by destruct (rss !! i) as [rs|]; [intros [= <-]|]. }
  assert (Hque : ∀ i q, s_queue (shared_of (mutex_start mx attr m tries fuel rss)) !! i = Some q → q = []).
  { intros i q. cbn. rewrite list_lookup_fmap, list_lookup_imap. by destruct (rss !! i) as [rs|]; [intros [= <-]|]. }
  constructor; [by cbn; rewrite length_fmap, length_imap, length_replicate..|exact Hc| | | | | |by left| | | | | | | |].
  - eauto.
  - intros i b x v Hb. rewrite (Hbuf i b Hb). by intros ?%not_elem_of_nil.
  - by left.
  - split; [done|]. intros (i & l & Hli & Hh). by rewrite (Hl i l Hli) in Hh.
  - intros i j li lj Hli _ Hh. by rewrite (Hl i li Hli) in Hh.
  - intros i l b Hli _ Hh. by rewrite (Hl i l Hli) in Hh.
  - intros i l b Hli Hb. rewrite (Hbuf i b Hb), (Hl i l Hli). apply Ht.
  - intros i l Hli _. by rewrite (Hl i l Hli).
  - done.
  - intros i l b Hli _ Hh. by rewrite (Hl i l Hli) in Hh.
  - left. split; [done|]. intros i l Hli. by rewrite (Hl i l Hli).
  - intros i l q _ Hq. left. by eapply Hque.
  - intros (j & lj & Hlj & Hcj & _). by rewrite (Hl j lj Hlj) in Hcj.
Qed.

Lemma mutex_sound c :
  rtc step (mutex_start mx attr m tries fuel rss) c →
  ∃ ls, sound (MInv mx (mutex_type attr)) Blocked (λ _ o l, match o with Some _ => l = outside | None => True end) ls c.
Proof.
  eapply sound_reachable; [by apply MInv_flush|]. split_and!; [apply start_inv|cbn; by rewrite length_replicate, length_imap|].
  intros i t l Ht Hl. apply lookup_replicate in Hl as [-> _]. cbn in Ht. rewrite list_lookup_imap in Ht.
  destruct (rss !! i) as [rs|]; [|done]. injection Ht as <-. cbn. by apply wpt_locker.
Qed.
End system.

(** The whole of the work is done, or the thread sleeps until it is woken. *)
Definition is_done {A} (t : @thread ploc pevent (option A)) : bool :=
  match st t with Run (Ret (Some _)) => true | _ => false end.
Definition is_asleep {A} (t : @thread ploc pevent (option A)) : bool :=
  match st t with Wait _ [] true _ _ => true | _ => false end.

(** C12. A mutex excludes, and what is written under it is seen.  A mutex of any type that
    is not robust has been set up by [pthread_mutex_init] before the threads start, which
    own no mutex yet.  Any number of threads
    lock it with [pthread_mutex_lock], [pthread_mutex_trylock] and
    [pthread_mutex_timedlock], increment a shared word with plain loads and stores, and
    unlock it.  In every reachable configuration of the x86-TSO machine, whatever the
    traps return, at most one of them is in the section; and whenever the mutex is free
    nobody is, and the word in memory is the number of times the section was left. *)
Theorem mutex_exclusion mx attr m tries fuel rss c :
  mx ≠ 0 → plain attr → fresh_threads m → rtc step (mutex_start mx attr m tries fuel rss) c →
  (length (in_section (events c)) <= 1)%nat ∧
  (memory c (Mx mx STATE) = 0 → in_section (events c) = [] ∧ memory c DATA = left_section (events c)).
Proof.
  intros Hmx Ha Hm Hr. destruct (mutex_sound mx attr m tries fuel rss Hmx Ha Hm c Hr) as (ls & Hi & _).
  unfold MInv in Hi. cbn in Hi. split; [destruct (mi_inside _ _ _ _ _ _ _ Hi) as [[-> _]|(i & l & _ & _ & ->)]; cbn; lia|].
  intros H0. split; [|by apply (mi_free _ _ _ _ _ _ _ Hi)].
  destruct (mi_inside _ _ _ _ _ _ _ Hi) as [[-> _]|(i & l & Hl & Hn & _)]; [done|].
  destruct (decide (ph l = Holds)) as [Hh|Hh].
  - by destruct (proj2 (mi_held _ _ _ _ _ _ _ Hi)); eauto.
  - by destruct (mi_flags _ _ _ _ _ _ _ Hi i l Hl Hh) as (_ & _ & ?).
Qed.

(** C13. No thread is forgotten.  Of the threads that use a mutex in this way (not robust,
    set up by [pthread_mutex_init] before they start), once each
    one has finished or sleeps in the futex without having been woken, all have
    finished: the three-valued state word never lets a thread block on a mutex that
    nobody will hand over, with or without timeouts and spurious returns. *)
Theorem mutex_no_deadlock mx attr m tries fuel rss c :
  mx ≠ 0 → plain attr → fresh_threads m → rtc step (mutex_start mx attr m tries fuel rss) c →
  Forall (λ t, is_done t ∨ is_asleep t) (threads c) → Forall (λ t, is_done t) (threads c).
Proof.
  intros Hmx Ha Hm Hr Hall. destruct (mutex_sound mx attr m tries fuel rss Hmx Ha Hm c Hr) as (ls & Hi & Hlen & Hts).
  unfold MInv in Hi. cbn in Hi.
  assert (Hst : ∀ i t l, threads c !! i = Some t → ls !! i = Some l →
    is_done t ∧ l = outside ∨ Blocked l ∧ queue_of t = [Mx mx STATE]).
  { intros i t l Ht Hl. specialize (Hts i t l Ht Hl).
    assert (Hq : (queue_of <$> threads c) !! i = Some (queue_of t)) by (by rewrite list_lookup_fmap, Ht).
    destruct (mi_queue _ _ _ _ _ _ _ Hi i l _ Hl Hq) as [Hk|[Hk _]], (Forall_lookup_1 _ _ _ _ Hall Ht) as [Hd|Hd];
      unfold is_done, is_asleep, queue_of in *; destruct t as [b [[[]| | | | | | |]|keys [|] [] tm k]]; cbn in *; try done;
      subst; naive_solver. }
  assert (Hex : ∀ i l, ls !! i = Some l → ∃ t, threads c !! i = Some t).
  { intros i l Hl. apply lookup_lt_is_Some. rewrite <- Hlen. by eapply lookup_lt_Some. }
  apply list.Forall_forall. intros t Ht. apply list_elem_of_lookup_1 in Ht as [i Ht].
  destruct (lookup_lt_is_Some_2 ls i) as [l Hl]; [rewrite Hlen; by eapply lookup_lt_Some|].
  destruct (Hst i t l Ht Hl) as [[? _]|[[_ Hc] Hq]]; [done|exfalso].
  assert (Hno : ∀ j lj, ls !! j = Some lj → ph lj ≠ Holds ∧ ¬ waking (queue_of <$> threads c) j lj).
  { intros j lj Hlj. destruct (Hex j lj Hlj) as [u Hu]. unfold waking. rewrite list_lookup_fmap, Hu. cbn.
    destruct (Hst j u lj Hu Hlj) as [[_ ->]|[[-> _] ->]]; split; try done; naive_solver. }
  destruct (mi_live _ _ _ _ _ _ _ Hi) as [H2|(j & lj & Hlj & Hw)].
  - exists i, l. by rewrite list_lookup_fmap, Ht, <- Hq.
  - destruct (proj1 (mi_held _ _ _ _ _ _ _ Hi)) as (j & lj & Hlj & Hh); [by rewrite H2|]. by destruct (Hno j lj Hlj).
  - by destruct (Hno j lj Hlj).
Qed.
