(* ===== verification/PthreadGuard.v ===== *)
(** * libpthreads: fields guarded by a spin lock

    Read-write locks and barriers keep their state in plain words that are read and
    written under the spin lock of the object.  This file has the rules for such code
    on the machine of Tso.v: what a thread does under the lock is one step on the
    guarded words, which takes effect when it unlocks.  [R] is the invariant of the
    object, in terms of what the threads know, the guarded words as of the last
    unlock, the stores made since, the queues and the trace.  A thread that reads a guarded word without the
    lock sees the last unlock, or a store of the thread that holds the lock. *)

From S2P Require Import Prelude Mach Tso Pthread.

(** ** Counting *)

Fixpoint total {A} (f : A → Z) (l : list A) : Z :=
  match l with [] => 0 | x :: l => f x + total f l end.
Lemma total_app {A} (f : A → Z) l1 l2 : total f (l1 ++ l2) = total f l1 + total f l2.
Proof. induction l1 as [|x l1 IH]; cbn; lia. Qed.
Lemma total_insert {A} (f : A → Z) (l : list A) i x y :
  l !! i = Some x → total f (<[i := y]> l) = total f l - f x + f y.
Proof.
  intros Hx. assert (Hlt : (i < length l)%nat) by (by eapply lookup_lt_Some).
  rewrite <- (take_drop_middle l i x Hx) at 2. rewrite insert_take_drop by done. rewrite !total_app. cbn. lia.
Qed.
Lemma total_range {A} (f : A → Z) (l : list A) :
  (∀ i x, l !! i = Some x → 0 <= f x <= 1) → 0 <= total f l <= Z.of_nat (length l).
Proof.
  induction l as [|x l IH]; intros Hf; cbn; [lia|]. specialize (IH (λ i, Hf (S i))). specialize (Hf 0%nat x eq_refl). lia.
Qed.
Lemma total_nonneg {A} (f : A → Z) (l : list A) :
  (∀ i x, l !! i = Some x → 0 <= f x) → 0 <= total f l.
Proof.
  induction l as [|x l IH]; intros Hf; cbn; [lia|]. specialize (IH (λ i, Hf (S i))). specialize (Hf 0%nat x eq_refl). lia.
Qed.
Lemma total_pos {A} (f : A → Z) (l : list A) : 0 < total f l → ∃ i x, l !! i = Some x ∧ 0 < f x.
Proof.
  induction l as [|x l IH]; cbn; [lia|]. intros H. destruct (decide (0 < f x)); [by exists 0%nat, x|].
  destruct IH as (i & y & Hi & ?); [lia|]. by exists (S i), y.
Qed.
Lemma total_fmap {A B} (f : B → Z) (g : A → B) (l : list A) : total f (g <$> l) = total (λ x, f (g x)) l.
Proof. induction l as [|x l IH]; [done|]. cbn. by rewrite IH. Qed.
Lemma total_zero {A} (l : list A) : total (λ _, 0) l = 0.
Proof. induction l; [done|]. cbn. lia. Qed.
Lemma total_const {A} (f : A → Z) (l : list A) c :
  (∀ i x, l !! i = Some x → f x = c) → total f l = c * Z.of_nat (length l).
Proof.
  induction l as [|x l IH]; intros Hf; [cbn; lia|]. cbn [total length].
  rewrite (Hf 0%nat x eq_refl), (IH (λ i, Hf (S i))). lia.
Qed.
Lemma total_ge {A} (f : A → Z) (l : list A) i x :
  (∀ i x, l !! i = Some x → 0 <= f x) → l !! i = Some x → f x <= total f l.
Proof.
  revert i. induction l as [|y l IH]; intros i Hf Hx; [done|]. pose proof (total_nonneg f l (λ j, Hf (S j))).
  pose proof (Hf 0%nat y eq_refl). destruct i as [|i]; cbn in *; [simplify_eq; lia|].
  specialize (IH i (λ j, Hf (S j)) Hx). lia.
Qed.

(** The words after stores under the lock. *)
Ltac words := unfold view; cbn [foldl fst snd app]; repeat first [rewrite upd_same|rewrite upd_other by done].

(** ** Guarded words *)

Section guard.
Context {L : Type} (lk : ploc) (guarded : ploc → bool) (const : ploc → option Z).
(** The invariant; and what a thread that sleeps knows. *)
Context (R : list L → (ploc → Z) → list (ploc * Z) → list (list ploc) → list pevent → Prop) (Asleep : L → Prop).
Hypothesis R_ext : ∀ ls m m' ws qs es, (∀ x, guarded x = true → m x = m' x) → R ls m ws qs es → R ls m' ws qs es.
Hypothesis lk_plain : guarded lk = false ∧ const lk = None.
Hypothesis guarded_var : ∀ x, guarded x = true → const x = None.

(** A thread that holds the lock found [held.1] and has stored [held.2]. *)
Record gl := GL { held : option ((ploc → Z) * list (ploc * Z)); known : L }.

Record ginv (gs : list gl) (m : ploc → Z) (bufs : list (list (ploc * Z))) (qs : list (list ploc))
    (es : list pevent) : Prop := {
  g_bufs : length bufs = length gs;
  g_queues : length qs = length gs;
  g_const : ∀ x v, const x = Some v → m x = v;
  g_write : ∀ i b x v, bufs !! i = Some b → (x, v) ∈ b → x ≠ lk ∧ const x = None;
  g_others : ∀ i g b x v, gs !! i = Some g → bufs !! i = Some b → held g = None → (x, v) ∈ b → guarded x = false;
  g_lock : m lk ≠ 0 ↔ ∃ i g, gs !! i = Some g ∧ held g ≠ None;
  g_one : ∀ i j gi gj, gs !! i = Some gi → gs !! j = Some gj → held gi ≠ None → held gj ≠ None → i = j;
  g_free : m lk = 0 → R (known <$> gs) m [] qs es;
  g_held : ∀ i g b m0 ws, gs !! i = Some g → bufs !! i = Some b → held g = Some (m0, ws) →
    R (known <$> gs) m0 ws qs es ∧ ∃ fl, ws = fl ++ b ∧ ∀ x, guarded x = true → m x = view m0 fl x }.

(** At the start nobody holds the lock and no store is under way. *)
Lemma ginv_start gs m bufs qs es :
  length bufs = length gs → length qs = length gs → (∀ x v, const x = Some v → m x = v) →
  (∀ i b, bufs !! i = Some b → b = []) → (∀ i g, gs !! i = Some g → held g = None) → m lk = 0 →
  R (known <$> gs) m [] qs es → ginv gs m bufs qs es.
Proof.
  intros Hb Hq Hc Hbufs Hheld Hlk HR. constructor; try done.
  - intros i b x v Hi. rewrite (Hbufs i b Hi). by intros ?%not_elem_of_nil.
  - intros i g b x v _ Hi _. rewrite (Hbufs i b Hi). by intros ?%not_elem_of_nil.
  - split; [done|]. intros (i & g & Hg & Hh). by rewrite (Hheld i g Hg) in Hh.
  - intros i j gi gj Hi _ Hh. by rewrite (Hheld i gi Hi) in Hh.
  - intros i g b m0 ws Hg _ Hh. by rewrite (Hheld i g Hg) in Hh.
Qed.

Definition GInv (gs : list gl) (s : @shared ploc pevent) : Prop :=
  ginv gs (s_mem s) (s_bufs s) (s_queue s) (s_evs s).
Definition Parked (g : gl) : Prop := held g = None ∧ Asleep (known g).

(** What a thread may see of a guarded word without the lock. *)
Definition peeked (m : ploc → Z) (ws : list (ploc * Z)) (x : ploc) (v : Z) : Prop :=
  v = m x ∨ (x, v) ∈ ws.

Lemma view_written (m : ploc → Z) b x : x ∈ b.*1 → (x, view m b x) ∈ b.
Proof.
  induction b as [|[y w] b IH] using rev_ind; [by intros ?%not_elem_of_nil|].
  rewrite fmap_app, view_snoc. intros Hx. apply elem_of_app. case_decide as Hy; [right; subst; by left|].
  left. apply IH. apply elem_of_app in Hx as [Hx|Hx]; [done|]. by apply list_elem_of_singleton in Hx.
Qed.
Lemma known_lookup (gs : list gl) i g : gs !! i = Some g → (known <$> gs) !! i = Some (known g).
Proof. intros Hg. by rewrite list_lookup_fmap, Hg. Qed.
Lemma known_insert (gs : list gl) i g : known <$> <[i := g]> gs = <[i := known g]> (known <$> gs).
Proof. apply list_fmap_insert. Qed.

(** [m0] has the guarded words as of the last unlock, [ws] the stores since. *)
Definition committed (gs : list gl) (m m0 : ploc → Z) (ws : list (ploc * Z)) : Prop :=
  (m lk = 0 → m0 = m ∧ ws = []) ∧ ∀ i g h, gs !! i = Some g → held g = Some h → h = (m0, ws).
Lemma ginv_committed gs m bufs qs es :
  ginv gs m bufs qs es → ∃ m0 ws, R (known <$> gs) m0 ws qs es ∧ committed gs m m0 ws ∧
    (∀ x, guarded x = true → peeked m0 ws x (m x)).
Proof.
  intros Hi. destruct (decide (m lk = 0)) as [H0|H0].
  - exists m, []. split_and!; [by apply (g_free _ _ _ _ _ Hi)|split; [done|]|by left].
    intros i g h Hg Hh. destruct (proj2 (g_lock _ _ _ _ _ Hi)); [|done]. exists i, g. by rewrite Hh.
  - destruct (proj1 (g_lock _ _ _ _ _ Hi) H0) as (j & gj & Hj & Hh).
    destruct (held gj) as [[m0 ws]|] eqn:Ej; [|done].
    destruct (lookup_lt_is_Some_2 bufs j) as [b Hb].
    { rewrite (g_bufs _ _ _ _ _ Hi). by eapply lookup_lt_Some. }
    destruct (g_held _ _ _ _ _ Hi j gj b m0 ws Hj Hb Ej) as (HR & fl & -> & Hm).
    exists m0, (fl ++ b). split_and!; [done|split; [done|]|].
    + intros i g h Hg Hh1. destruct (g_one _ _ _ _ _ Hi i j g gj Hg Hj); [by rewrite Hh1|by rewrite Ej|congruence].
    + intros x Hx. rewrite (Hm x Hx). destruct (decide (x ∈ fl.*1)) as [Hin|Hin]; [|left; by apply view_other].
      right. apply elem_of_app. left. by apply view_written.
Qed.

Lemma guard_flush gs s i x v b :
  GInv gs s → s_bufs s !! i = Some ((x, v) :: b) →
  GInv gs (Shared (upd (s_mem s) x v) (<[i := b]> (s_bufs s)) (s_queue s) (s_evs s)).
Proof.
  unfold GInv. cbn. intros Hi Hb.
  destruct (lookup_lt_is_Some_2 gs i) as [g Hg].
  { rewrite <- (g_bufs _ _ _ _ _ Hi). by eapply lookup_lt_Some. }
  destruct (g_write _ _ _ _ _ Hi i _ x v Hb ltac:(by left)) as [Hlk Hco].
  assert (Hin : ∀ j b' y w, <[i := b]> (s_bufs s) !! j = Some b' → (y, w) ∈ b' →
    ∃ b0, s_bufs s !! j = Some b0 ∧ (y, w) ∈ b0).
  { intros j b' y w Hj Hy. apply lookup_insert_cases in Hj as [[<- ->]|[_ Hj]]; [|by eauto]. eexists. split; [done|by right]. }
  destruct Hi. constructor; rewrite ?length_insert, ?upd_other by done; try done.
  - intros y w Hy. rewrite upd_other by congruence. by apply g_const0.
  - intros j b' y w Hj Hy. destruct (Hin _ _ _ _ Hj Hy) as (b0 & Hb0 & Hy0). by eapply g_write0.
  - intros j gj b' y w Hgj Hj Hn Hy. destruct (Hin _ _ _ _ Hj Hy) as (b0 & Hb0 & Hy0). by eapply g_others0.
  - intros H0. specialize (g_free0 H0). revert g_free0. apply R_ext. intros y Hy. symmetry. apply upd_other.
    intros ->. assert (held g = None) as Hn.
    { destruct (held g) eqn:Eg; [|done]. destruct (proj2 g_lock0); [|done]. exists i, g. by rewrite Eg. }
    by rewrite (g_others0 i g _ x v Hg Hb Hn ltac:(by left)) in Hy.
  - intros j gj b' m0 ws Hgj Hj Hh. apply lookup_insert_cases in Hj as [[<- ->]|[Hij Hj]].
    + destruct (g_held0 i gj _ m0 ws Hgj Hb Hh) as (HR & fl & -> & Hm). split; [done|].
      exists (fl ++ [(x, v)]). split; [by rewrite <- app_assoc|]. intros y Hy. rewrite view_snoc. unfold upd.
      case_decide; [done|by apply Hm].
    + destruct (g_held0 j gj b' m0 ws Hgj Hj Hh) as (HR & fl & -> & Hm). split; [done|].
      exists fl. split; [done|]. intros y Hy. rewrite upd_other; [by apply Hm|]. intros ->.
      assert (held g = None) as Hn.
      { destruct (held g) eqn:Eg; [|done]. destruct Hij. apply (g_one0 i j g gj Hg Hgj); [by rewrite Eg|by rewrite Hh]. }
      by rewrite (g_others0 i g _ x v Hg Hb Hn ltac:(by left)) in Hy.
Qed.

(** ** Steps *)

Definition wpg {A} (i : nat) (p : T A) (Q : A → gl → Prop) (g : gl) : Prop := wpT GInv Parked i p Q g.

Lemma wpg_ret {A} i (a : A) Q g : Q a g → wpg i (mret a) Q g.
Proof. apply wpT_ret. Qed.
Lemma wpg_trying {A} i (Q : A → gl → Prop) g : wpg i trying Q g.
Proof. apply wpT_trying. Qed.
Lemma wpg_bind {A B} i (p : T A) (f : A → T B) Q g :
  wpg i p (λ a, wpg i (f a) Q) g → wpg i (p ≫= f) Q g.
Proof. apply wpT_bind. Qed.

Lemma guard_move i gd f (K : shared → gl → Prop) g :
  (∀ gs m bufs qs es b q,
     gs !! i = Some g → bufs !! i = Some b → qs !! i = Some q → ginv gs m bufs qs es →
     gd (Shared m bufs qs es) →
     ∃ g' m' bufs' qs' es', f (Shared m bufs qs es) = Shared m' bufs' qs' es' ∧
       ginv (<[i := g']> gs) m' bufs' qs' es' ∧ K (Shared m bufs qs es) g') →
  move GInv i gd f K g.
Proof.
  intros H gs [m bufs qs es] Hg Hi Hgd. unfold GInv in Hi. cbn in *.
  destruct (lookup_lt_is_Some_2 bufs i) as [b Hb].
  { rewrite (g_bufs _ _ _ _ _ Hi). by eapply lookup_lt_Some. }
  destruct (lookup_lt_is_Some_2 qs i) as [q Hq].
  { rewrite (g_queues _ _ _ _ _ Hi). by eapply lookup_lt_Some. }
  destruct (H gs m bufs qs es b q Hg Hb Hq Hi Hgd) as (g' & m' & bufs' & qs' & es' & -> & Hi' & HK).
  by exists g'.
Qed.

(** A step that changes what the thread knows, the queues or the trace. *)
Lemma ginv_ghost gs m bufs qs qs' es es' i g l' m0 ws :
  ginv gs m bufs qs es → gs !! i = Some g → length qs' = length qs → committed gs m m0 ws →
  R (<[i := l']> (known <$> gs)) m0 ws qs' es' →
  ginv (<[i := GL (held g) l']> gs) m bufs qs' es'.
Proof.
  intros Hi Hg Hlen [Hfree Hheld] HR.
  assert (Hsame : ∀ j gj, <[i := GL (held g) l']> gs !! j = Some gj → ∃ g0, gs !! j = Some g0 ∧ held g0 = held gj).
  { intros j gj Hj. apply lookup_insert_cases in Hj as [[<- ->]|[_ Hj]]; eauto. }
  assert (Hback : ∀ j gj, gs !! j = Some gj → ∃ g1, <[i := GL (held g) l']> gs !! j = Some g1 ∧ held g1 = held gj).
  { intros j gj Hj. destruct (decide (j = i)) as [->|Hne]; [|exists gj; by rewrite list_lookup_insert_ne].
    exists (GL (held g) l'). rewrite list_lookup_insert_eq by (by eapply lookup_lt_Some). by simplify_eq. }
  destruct Hi. constructor; rewrite ?length_insert, ?known_insert; try done; try congruence.
  - intros j gj b x v Hj Hb Hn. destruct (Hsame j gj Hj) as (g0 & Hg0 & E). by apply (g_others0 j g0 b x v Hg0 Hb); rewrite ?E.
  - rewrite g_lock0. split; intros (j & gj & Hj & Hh); [apply Hback in Hj|apply Hsame in Hj];
      destruct Hj as (g1 & Hg1 & E); exists j, g1; split; congruence.
  - intros j k gj gk Hj Hk Hhj Hhk. destruct (Hsame j gj Hj) as (g0 & Hg0 & E0), (Hsame k gk Hk) as (g1 & Hg1 & E1).
    apply (g_one0 j k g0 g1); congruence.
  - intros H0. destruct (Hfree H0) as [-> ->]. done.
  - intros j gj b m1 ws1 Hj Hb Hh. destruct (Hsame j gj Hj) as (g0 & Hg0 & E).
    destruct (g_held0 j g0 b m1 ws1 Hg0 Hb ltac:(congruence)) as (_ & Hfl).
    assert (Hw : (m1, ws1) = (m0, ws)) by (apply (Hheld j g0 _ Hg0); congruence). by injection Hw as -> ->.
Qed.

Lemma guard_ghost i gd f fq fe (K : shared → gl → Prop) g :
  (∀ s, f s = Shared (s_mem s) (s_bufs s) (fq (s_queue s)) (fe (s_evs s))) →
  (∀ qs, length (fq qs) = length qs) →
  (∀ ls m m0 ws bufs qs es,
     ls !! i = Some (known g) → length qs = length ls → gd (Shared m bufs qs es) → R ls m0 ws qs es →
     (∀ x, guarded x = true → peeked m0 ws x (m x)) →
     ∃ l', R (<[i := l']> ls) m0 ws (fq qs) (fe es) ∧ K (Shared m bufs qs es) (GL (held g) l')) →
  move GInv i gd f K g.
Proof.
  intros Hf Hlen H. apply guard_move. intros gs m bufs qs es b q Hg Hb Hq Hi Hgd.
  destruct (ginv_committed _ _ _ _ _ Hi) as (m0 & ws & HR & Hc & Hp).
  destruct (H (known <$> gs) m m0 ws bufs qs es) as (l' & HR' & HK); try done.
  - by apply known_lookup.
  - by rewrite length_fmap, (g_queues _ _ _ _ _ Hi).
  - exists (GL (held g) l'), m, bufs, (fq qs), (fe es). split; [by rewrite Hf|]. split; [|done].
    by eapply ginv_ghost.
Qed.

(** ** Under the lock *)

Lemma wpg_const i x v Q g : const x = Some v → Q v g → wpg i (ld x) Q g.
Proof.
  intros Hx HQ. apply guard_move. intros gs m bufs qs es b q Hg Hb Hq Hi _.
  exists g, m, bufs, qs, es. rewrite list_insert_id by done. split_and!; [done..|].
  unfold view_of. cbn. rewrite Hb, view_other; [by rewrite (g_const _ _ _ _ _ Hi x v Hx)|].
  intros ([y w] & -> & Hin)%list_elem_of_fmap. cbn in Hx.
  destruct (g_write _ _ _ _ _ Hi i b y w Hb Hin) as [_ Hc]. congruence.
Qed.

Lemma wpg_ld i x m0 ws Q l :
  guarded x = true → Q (view m0 ws x) (GL (Some (m0, ws)) l) → wpg i (ld x) Q (GL (Some (m0, ws)) l).
Proof.
  intros Hx HQ. apply guard_move. intros gs m bufs qs es b q Hg Hb Hq Hi _.
  exists (GL (Some (m0, ws)) l), m, bufs, qs, es. rewrite list_insert_id by done. split_and!; [done..|].
  unfold view_of. cbn. rewrite Hb.
  destruct (g_held _ _ _ _ _ Hi i _ b m0 ws Hg Hb eq_refl) as (_ & fl & -> & Hm).
  rewrite view_app in HQ. by rewrite (view_ext m (view m0 fl)) by (by apply Hm).
Qed.

Lemma wpg_sto i x v m0 ws (Q : unit → gl → Prop) l :
  guarded x = true →
  (∀ ls qs es, ls !! i = Some l → R ls m0 ws qs es →
     ∃ l', R (<[i := l']> ls) m0 (ws ++ [(x, v)]) qs es ∧ Q tt (GL (Some (m0, ws ++ [(x, v)])) l')) →
  wpg i (sto x v) Q (GL (Some (m0, ws)) l).
Proof.
  intros Hx H. apply guard_move. intros gs m bufs qs es b q Hg Hb Hq Hi _.
  destruct (g_held _ _ _ _ _ Hi i _ b m0 ws Hg Hb eq_refl) as (HR & fl & Hws & Hm).
  destruct (H (known <$> gs) qs es (known_lookup _ _ _ Hg) HR) as (l' & HR' & HQ).
  assert (Hlk : m lk ≠ 0) by (apply (g_lock _ _ _ _ _ Hi); by eauto).
  assert (Hother : ∀ j gj, j ≠ i → gs !! j = Some gj → held gj = None).
  { intros j gj Hj Hgj. destruct (held gj) eqn:Ej; [|done].
    destruct Hj. apply (g_one _ _ _ _ _ Hi j i gj _ Hgj Hg); [by rewrite Ej|done]. }
  eexists (GL (Some (m0, ws ++ [(x, v)])) l'), m, _, qs, es. split; [done|]. split; [|done].
  rewrite (alter_at _ bufs i b Hb). destruct Hi. constructor; rewrite ?length_insert, ?known_insert; try done.
  - intros j b' y w Hj Hy. apply lookup_insert_cases in Hj as [[<- ->]|[_ Hj]]; [|by eauto].
    apply elem_of_app in Hy as [Hy|Hy]; [by eauto|]. apply list_elem_of_singleton in Hy as [= -> ->].
    split; [|by apply guarded_var]. intros ->. by destruct lk_plain; congruence.
  - intros j gj b' y w Hgj Hj Hn Hy. apply lookup_insert_cases in Hgj as [[<- ->]|[Hne Hgj]]; [done|].
    rewrite list_lookup_insert_ne in Hj by done. by eapply g_others0.
  - split; [intros _|done]. exists i, (GL (Some (m0, ws ++ [(x, v)])) l').
    by rewrite list_lookup_insert_eq by (by eapply lookup_lt_Some).
  - intros j k gj gk Hj Hk Hhj Hhk. 
    apply lookup_insert_cases in Hj as [[<- ->]|[Hne Hj]], Hk as [[<- ->]|[Hne' Hk]]; try done;
      [by rewrite (Hother k gk) in Hhk|by rewrite (Hother j gj) in Hhj..].
  - intros j gj b' m1 ws1 Hgj Hj Hh. apply lookup_insert_cases in Hgj as [[<- ->]|[Hne Hgj]].
    + rewrite list_lookup_insert_eq in Hj by (by eapply lookup_lt_Some). cbn in Hh. simplify_eq.
      split; [done|]. exists fl. by rewrite <- app_assoc.
    + by rewrite (Hother j gj) in Hh.
Qed.

(** ** Locking and unlocking *)

Lemma guarded_not_lk x : guarded x = true → x ≠ lk.
Proof. intros Hx ->. destruct lk_plain. congruence. Qed.

Lemma ginv_lk gs m v bufs qs es : ginv gs m bufs qs es → m lk ≠ 0 → v ≠ 0 → ginv gs (upd m lk v) bufs qs es.
Proof.
  intros [] Hlk Hv. constructor; try done; rewrite ?upd_same; try done.
  - intros x w Hx. rewrite upd_other; [by apply g_const0|]. intros ->. destruct lk_plain. congruence.
  - split; [intros _; by apply g_lock0|done].
  - intros i g b m0 ws Hg Hb Hh. destruct (g_held0 i g b m0 ws Hg Hb Hh) as (? & fl & ? & Hm).
    split; [done|]. exists fl. split; [done|]. intros x Hx. rewrite upd_other by (by apply guarded_not_lk). auto.
Qed.

Lemma ginv_acquire gs m bufs qs es i l l' :
  ginv gs m bufs qs es → gs !! i = Some (GL None l) → bufs !! i = Some [] → m lk = 0 →
  R (<[i := l']> (known <$> gs)) m [] qs es →
  ginv (<[i := GL (Some (m, [])) l']> gs) (upd m lk 1) bufs qs es.
Proof.
  intros Hi Hg Hb H0 HR. assert (Hn : ∀ j gj, gs !! j = Some gj → held gj = None).
  { intros j gj Hj. destruct (held gj) eqn:Ej; [|done]. destruct (proj2 (g_lock _ _ _ _ _ Hi)); [|done].
    exists j, gj. by rewrite Ej. }
  assert (Hlt : (i < length gs)%nat) by (by eapply lookup_lt_Some).
  destruct Hi. constructor; rewrite ?length_insert, ?upd_same; try done.
  - intros x w Hx. rewrite upd_other; [by apply g_const0|]. intros ->. destruct lk_plain. congruence.
  - intros j gj b x v Hj Hb' Hh Hin. apply lookup_insert_cases in Hj as [[<- ->]|[_ Hj]]; [done|]. by eapply g_others0.
  - split; [intros _|done]. exists i, (GL (Some (m, [])) l'). by rewrite list_lookup_insert_eq.
  - intros j k gj gk Hj Hk Hhj Hhk.
    apply lookup_insert_cases in Hj as [[<- ->]|[_ Hj]], Hk as [[<- ->]|[_ Hk]]; try done;
      [by rewrite (Hn k gk) in Hhk|by rewrite (Hn j gj) in Hhj..].
  - intros j gj b m0 ws Hj Hb' Hh. rewrite known_insert.
    apply lookup_insert_cases in Hj as [[<- ->]|[_ Hj]]; [|by rewrite (Hn j gj) in Hh]. cbn in *. simplify_eq.
    split; [done|]. exists []. split; [done|]. intros x Hx. by rewrite upd_other by (by apply guarded_not_lk).
Qed.

Lemma ginv_release gs m bufs qs es i m0 ws l l' :
  ginv gs m bufs qs es → gs !! i = Some (GL (Some (m0, ws)) l) → bufs !! i = Some [] →
  R (<[i := l']> (known <$> gs)) (view m0 ws) [] qs es →
  ginv (<[i := GL None l']> gs) (upd m lk 0) bufs qs es.
Proof.
  intros Hi Hg Hb HR.
  assert (Hother : ∀ j gj, j ≠ i → gs !! j = Some gj → held gj = None).
  { intros j gj Hj Hgj. destruct (held gj) eqn:Ej; [|done].
    destruct Hj. apply (g_one _ _ _ _ _ Hi j i gj _ Hgj Hg); [by rewrite Ej|done]. }
  assert (Hn : ∀ j gj, <[i := GL None l']> gs !! j = Some gj → held gj = None).
  { intros j gj Hj. apply lookup_insert_cases in Hj as [[<- ->]|[? Hj]]; [done|by apply (Hother j)]. }
  destruct (g_held _ _ _ _ _ Hi i _ [] m0 ws Hg Hb eq_refl) as (_ & fl & Hws & Hm).
  rewrite app_nil_r in Hws. subst fl.
  destruct Hi. constructor; rewrite ?length_insert, ?upd_same, ?known_insert; try done.
  - intros x w Hx. rewrite upd_other; [by apply g_const0|]. intros ->. destruct lk_plain. congruence.
  - intros j gj b x v Hj Hb' Hh Hin. apply lookup_insert_cases in Hj as [[<- ->]|[_ Hj]]; [|by eapply g_others0].
    simplify_eq. by apply not_elem_of_nil in Hin.
  - split; [done|]. intros (j & gj & Hj & Hh). by rewrite (Hn j gj) in Hh.
  - intros j k gj gk Hj Hk Hhj. by rewrite (Hn j gj) in Hhj.
  - intros _. revert HR. apply R_ext. intros x Hx. rewrite upd_other by (by apply guarded_not_lk). by rewrite Hm.
  - intros j gj b m1 ws1 Hj Hb' Hh. by rewrite (Hn j gj) in Hh.
Qed.

(** A thread that takes the lock may change what it knows. *)
Lemma wpg_lock_ghost i tries (Q : unit → gl → Prop) l :
  (∀ ls m0 qs es, ls !! i = Some l → qs !! i = Some [] → R ls m0 [] qs es →
     ∃ l', R (<[i := l']> ls) m0 [] qs es ∧ Q tt (GL (Some (m0, [])) l')) →
  wpg i (_spin_lock tries lk) Q (GL None l).
Proof.
  intros HQ. induction tries as [|tries IH]; [apply wpg_trying|]. cbn [_spin_lock]. apply wpg_bind.
  apply guard_move. intros gs m bufs qs es b q Hg Hb Hq Hi [Hd Hr]. cbn in Hd. cbn.
  destruct (decide (m lk = 0)) as [H0|H0].
  - destruct (HQ (known <$> gs) m qs es (known_lookup _ _ _ Hg) Hr (g_free _ _ _ _ _ Hi H0)) as (l' & HR & HQ').
    eexists (GL (Some (m, [])) l'), _, bufs, qs, es. split; [done|]. split; [by eapply ginv_acquire|]. apply HQ'.
  - eexists (GL None l), _, bufs, qs, es. split; [done|]. rewrite list_insert_id by done.
    split; [by apply ginv_lk|]. exact IH.
Qed.
Lemma wpg_lock i tries (Q : unit → gl → Prop) l :
  (∀ m0, Q tt (GL (Some (m0, [])) l)) → wpg i (_spin_lock tries lk) Q (GL None l).
Proof.
  intros HQ. apply wpg_lock_ghost. intros ls m0 qs es Hl _ HR. exists l. by rewrite list_insert_id.
Qed.
Lemma wpg_unlock i m0 ws (Q : unit → gl → Prop) l :
  (∀ ls qs es, ls !! i = Some l → R ls m0 ws qs es →
     ∃ l', R (<[i := l']> ls) (view m0 ws) [] qs es ∧ Q tt (GL None l')) →
  wpg i (_spin_unlock lk) Q (GL (Some (m0, ws)) l).
Proof.
  intros H. apply wpg_bind, guard_move. intros gs m bufs qs es b q Hg Hb Hq Hi [Hd _]. cbn in Hd. cbn.
  destruct (g_held _ _ _ _ _ Hi i _ b m0 ws Hg Hb eq_refl) as (HR & _).
  destruct (H (known <$> gs) qs es (known_lookup _ _ _ Hg) HR) as (l' & HR' & HQ).
  eexists (GL None l'), _, bufs, qs, es. split; [done|]. split; [|done]. by eapply ginv_release.
Qed.

(** ** Without the lock *)

Lemma wpg_note i e (Q : unit → gl → Prop) l :
  (∀ ls m ws qs es, ls !! i = Some l → R ls m ws qs es →
     ∃ l', R (<[i := l']> ls) m ws qs (es ++ [e]) ∧ Q tt (GL None l')) →
  wpg i (mark e) Q (GL None l).
Proof.
  intros H. apply (guard_ghost _ _ _ (λ qs, qs) (λ es, es ++ [e])); [done..|].
  intros ls m m0 ws bufs qs es Hl Hlen _ HR _. destruct (H ls m0 ws qs es Hl HR) as (l' & HR' & HQ). by exists l'.
Qed.

Lemma wpg_peek i x Q l :
  guarded x = true →
  (∀ ls m ws qs es v, ls !! i = Some l → R ls m ws qs es → peeked m ws x v →
     ∃ l', R (<[i := l']> ls) m ws qs es ∧ Q v (GL None l')) →
  wpg i (ld x) Q (GL None l).
Proof.
  intros Hx H. apply guard_move. intros gs m bufs qs es b q Hg Hb Hq Hi _.
  destruct (ginv_committed _ _ _ _ _ Hi) as (m0 & ws & HR & Hc & Hp).
  destruct (H (known <$> gs) m0 ws qs es (m x) (known_lookup _ _ _ Hg) HR) as (l' & HR' & HQ); [by apply Hp|].
  exists (GL None l'), m, bufs, qs, es. split; [done|]. split; [by eapply (ginv_ghost _ _ _ _ _ _ _ _ (GL None l))|].
  unfold view_of. cbn. rewrite Hb, view_other; [done|].
  intros ([y w] & -> & Hin)%list_elem_of_fmap. cbn in Hx.
  by rewrite (g_others _ _ _ _ _ Hi i _ b y w Hg Hb eq_refl Hin) in Hx.
Qed.

(** A wait on the guarded word [x]: [l1] when queued, [l2] when the word has changed,
    [l3] when it has not, [l4] when woken. *)
Lemma wpg_wait i x v timed Q l (Queued : L → Prop) (Sleeps : L → Prop) :
  guarded x = true →
  (∀ kr, kr ≠ KERN_SUCCESS → kr ≠ KERN_OPERATION_TIMED_OUT → Q kr (GL None l)) →
  (∀ ls m ws qs es, ls !! i = Some l → length qs = length ls → qs !! i = Some [] → R ls m ws qs es →
     ∃ l1, R (<[i := l1]> ls) m ws (<[i := [x]]> qs) es ∧ Queued l1) →
  (∀ l1 ls m ws qs es w, Queued l1 → ls !! i = Some l1 → length qs = length ls → R ls m ws qs es → peeked m ws x w → w ≠ v →
     ∃ l2, R (<[i := l2]> ls) m ws (<[i := []]> qs) es ∧ Q KERN_NOT_WAITING (GL None l2)) →
  (∀ l1 ls m ws qs es, Queued l1 → ls !! i = Some l1 → length qs = length ls → R ls m ws qs es → peeked m ws x v →
     ∃ l3, R (<[i := l3]> ls) m ws qs es ∧ Sleeps l3) →
  (∀ l3, Sleeps l3 → Asleep l3) →
  (∀ l3 ls m ws qs es, Sleeps l3 → ls !! i = Some l3 → length qs = length ls → qs !! i = Some [] → R ls m ws qs es →
     ∃ l4, R (<[i := l4]> ls) m ws qs es ∧ Q KERN_SUCCESS (GL None l4)) →
  (∀ kr l3 ls m ws qs es, Sleeps l3 → ls !! i = Some l3 → length qs = length ls → qs !! i ≠ Some [] → R ls m ws qs es →
     ∃ l4, R (<[i := l4]> ls) m ws (<[i := []]> qs) es ∧ Q kr (GL None l4)) →
  wpg i (_pthread_futex_wait x v timed) Q (GL None l).
Proof.
  intros Hx Hf Hq1 Hch Hsame Has Hwk Hret. split; [by apply Hf|].
  apply (guard_ghost _ _ _ (λ qs, <[i := [x]]> qs) (λ es, es)); [done|by intros; apply length_insert|].
  intros ls m m0 ws bufs qs es Hl Hlen [_ Hr] HR _.
  destruct (Hq1 ls m0 ws qs es Hl Hlen Hr HR) as (l1 & HR1 & HQ1). exists l1. split; [done|].
  clear -Hx Has Hch Hsame Hwk Hret HQ1. split.
  - apply (guard_ghost _ _ _ (λ qs, <[i := []]> qs) (λ es, es)); [done|by intros; apply length_insert|].
    intros ls m m0 ws bufs qs es Hl Hlen Hne HR Hp.
    destruct (Hch l1 ls m0 ws qs es (m x) HQ1 Hl Hlen HR (Hp x Hx) Hne) as (l2 & HR2 & HQ). by exists l2.
  - apply (guard_ghost _ _ _ (λ qs, qs) (λ es, es)); [by intros []|done|].
    intros ls m m0 ws bufs qs es Hl Hlen Heq HR Hp. cbn in Heq.
    destruct (Hsame l1 ls m0 ws qs es HQ1 Hl Hlen HR) as (l3 & HR3 & HQ3); [by rewrite <- Heq; apply Hp|].
    exists l3. split; [done|]. clear -Has Hwk Hret HQ3. split; [by split; auto|]. split; [|intros kr].
    + apply (guard_ghost _ _ _ (λ qs, qs) (λ es, es)); [by intros []|done|].
      intros ls m m0 ws bufs qs es Hl Hlen Hr HR _.
      destruct (Hwk l3 ls m0 ws qs es HQ3 Hl Hlen Hr HR) as (l4 & HR4 & HQ). by exists l4.
    + apply (guard_ghost _ _ _ (λ qs, <[i := []]> qs) (λ es, es)); [done|by intros; apply length_insert|].
      intros ls m m0 ws bufs qs es Hl Hlen Hr HR _.
      destruct (Hret kr l3 ls m0 ws qs es HQ3 Hl Hlen Hr HR) as (l4 & HR4 & HQ). by exists l4.
Qed.

(** ** Words that nothing is known of *)

Lemma wpg_ld_free i x Q g : (∀ v, Q v g) → wpg i (ld x) Q g.
Proof.
  intros HQ. apply guard_move. intros gs m bufs qs es b q Hg Hb Hq Hi _.
  exists g, m, bufs, qs, es. rewrite list_insert_id by done. split_and!; [done..|apply HQ].
Qed.
Lemma wpg_sto_free i x v (Q : unit → gl → Prop) l :
  guarded x = false → x ≠ lk → const x = None → Q tt (GL None l) → wpg i (sto x v) Q (GL None l).
Proof.
  intros Hx Hlk Hco HQ. apply guard_move. intros gs m bufs qs es b q Hg Hb Hq Hi _.
  eexists (GL None l), m, _, qs, es. rewrite list_insert_id by done. split; [done|]. split; [|done].
  rewrite (alter_at _ bufs i b Hb). destruct Hi. constructor; rewrite ?length_insert; try done.
  - intros j b' y w Hj Hy. apply lookup_insert_cases in Hj as [[<- ->]|[_ Hj]]; [|by eauto].
    apply elem_of_app in Hy as [Hy|Hy]; [by eauto|]. by apply list_elem_of_singleton in Hy as [= -> ->].
  - intros j gj b' y w Hgj Hj Hn Hy. apply lookup_insert_cases in Hj as [[<- ->]|[_ Hj]]; [|by eauto].
    apply elem_of_app in Hy as [Hy|Hy]; [by eauto|]. by apply list_elem_of_singleton in Hy as [= -> ->].
  - intros j gj b' m0 ws Hgj Hj Hh. apply lookup_insert_cases in Hj as [[<- ->]|[_ Hj]]; [by simplify_eq|by eauto].
Qed.
Lemma wpg_wait_free i x v timed Q l :
  (∀ kr, Q kr (GL None l)) → Asleep l →
  (∀ ls m ws qs es keys, ls !! i = Some l → length qs = length ls → keys = [] ∨ keys = [x] →
     R ls m ws qs es → R ls m ws (<[i := keys]> qs) es) →
  wpg i (_pthread_futex_wait x v timed) Q (GL None l).
Proof.
  intros HQ Has HR. split; [by intros; apply HQ|].
  assert (Hgo : ∀ (gd : shared → Prop) keys (K : shared → gl → Prop), keys = [] ∨ keys = [x] → (∀ s, K s (GL None l)) →
    move GInv i gd (set_queue i keys) K (GL None l)).
  { intros gd keys K Hk HK. apply (guard_ghost _ _ _ (λ qs, <[i := keys]> qs) (λ es, es)); [done|by intros; apply length_insert|].
    intros ls m m0 ws bufs qs es Hl Hlen _ HR0 _. exists l. rewrite list_insert_id by done. split; [by apply HR|apply HK]. }
  assert (Hst : ∀ (gd : shared → Prop) (K : shared → gl → Prop), (∀ s, K s (GL None l)) → move GInv i gd id K (GL None l)).
  { intros gd K HK. apply (guard_ghost _ _ _ (λ qs, qs) (λ es, es)); [by intros []|done|].
    intros ls m m0 ws bufs qs es Hl _ _ HR0 _. exists l. by rewrite list_insert_id. }
  apply Hgo; [by right|]. intros _. split; [apply Hgo; [by left|intros; apply HQ]|]. apply Hst. intros _.
  split; [by split|]. split; [apply Hst; intros; apply HQ|]. intros kr. apply Hgo; [by left|intros; apply HQ].
Qed.

Definition taken_off (p : nat → list ploc → bool) (qs : list (list ploc)) : list (list ploc) :=
  imap (λ j keys, if p j keys then [] else keys) qs.
Lemma taken_off_lookup p qs k q' :
  taken_off p qs !! k = Some q' ↔ ∃ q, qs !! k = Some q ∧ q' = if p k q then [] else q.
Proof. unfold taken_off. rewrite list_lookup_imap, fmap_Some. done. Qed.
Lemma wpg_wake_one i x (Q : unit → gl → Prop) l :
  (∀ ls m ws qs es j keys, ls !! i = Some l → length qs = length ls → R ls m ws qs es → qs !! j = Some keys → x ∈ keys →
     ∃ l', R (<[i := l']> ls) m ws (taken_off (wake_one x j) qs) es ∧ Q tt (GL None l')) →
  (∀ ls m ws qs es, ls !! i = Some l → length qs = length ls → R ls m ws qs es → (∀ j keys, qs !! j = Some keys → x ∉ keys) →
     ∃ l', R (<[i := l']> ls) m ws qs es ∧ Q tt (GL None l')) →
  wpg i (_pthread_futex_wake_one x) Q (GL None l).
Proof.
  intros H1 H2. split; [intros j|].
  - apply (guard_ghost _ _ _ (taken_off (wake_one x j)) (λ es, es)); [done|by intros; apply length_imap|].
    intros ls m m0 ws bufs qs es Hl Hlen [_ (keys & Hj & Hin)] HR _.
    destruct (H1 ls m0 ws qs es j keys Hl Hlen HR Hj Hin) as (l' & HR' & HQ). by exists l'.
  - apply (guard_ghost _ _ _ (λ qs, qs) (λ es, es)); [by intros []|done|].
    intros ls m m0 ws bufs qs es Hl Hlen [_ Hno] HR _.
    destruct (H2 ls m0 ws qs es Hl Hlen HR) as (l' & HR' & HQ); [|by exists l'].
    intros j keys Hj Hin. apply (Hno j). by exists keys.
Qed.
Lemma wpg_wake_all i x (Q : unit → gl → Prop) l :
  (∀ ls m ws qs es, ls !! i = Some l → length qs = length ls → R ls m ws qs es →
     ∃ l', R (<[i := l']> ls) m ws (taken_off (wake_all x) qs) es ∧ Q tt (GL None l')) →
  wpg i (_pthread_futex_wake_all x) Q (GL None l).
Proof.
  intros H. apply (guard_ghost _ _ _ (taken_off (wake_all x)) (λ es, es)); [done|by intros; apply length_imap|].
  intros ls m m0 ws bufs qs es Hl Hlen _ HR _. destruct (H ls m0 ws qs es Hl Hlen HR) as (l' & HR' & HQ). by exists l'.
Qed.
End guard.
