(* ===== verification/PthreadRwlock.v ===== *)
(** * libpthreads: read-write locks

    Any number of threads that take one read-write lock for reading and for writing,
    in all the ways the API offers.  Shown: a writer is alone; and, as long as no
    thread waits for writing with a deadline, no thread stays asleep for ever.  With
    such a thread, readers can. *)

From S2P Require Import Prelude Mach Tso Pthread PthreadMutex PthreadGuard.

(** ** Clients *)

Inductive rreq :=
| RdLock | TryRd | TimedRd (abstime : timespec) (nows : list timespec)
| WrLock | TryWr | TimedWr (abstime : timespec) (nows : list timespec).

Definition for_writing (r : rreq) : bool :=
  match r with WrLock | TryWr | TimedWr _ _ => true | _ => false end.
Definition timed_writer (r : rreq) : bool := match r with TimedWr _ _ => true | _ => false end.

Section clients.
Context (tries fuel : nat) (rw : Z).
Definition rw_acquire (r : rreq) : T Z :=
  match r with
  | RdLock => pthread_rwlock_rdlock tries rw fuel
  | TryRd => pthread_rwlock_tryrdlock tries rw
  | TimedRd abstime nows => pthread_rwlock_timedrdlock tries rw abstime nows
  | WrLock => pthread_rwlock_wrlock tries rw fuel
  | TryWr => pthread_rwlock_trywrlock tries rw
  | TimedWr abstime nows => pthread_rwlock_timedwrlock tries rw abstime nows
  end.
Definition rw_section (i : nat) (r : rreq) : T unit :=
  if for_writing r then mark (Enter i);; mark (Leave i)
  else mark (EnterShared i);; mark (LeaveShared i).
Fixpoint rw_user (i : nat) (rs : list rreq) : T unit :=
  match rs with
  | [] => mret tt
  | r :: rs =>
      rc ← rw_acquire r;
      (if decide (rc = ESUCCESS) then rw_section i r;; pthread_rwlock_unlock tries rw;; mret tt
       else mret tt);;
      rw_user i rs
  end.
End clients.

(** The threads that are in a section as readers. *)
Definition shared_step (out : list nat) (e : pevent) : list nat :=
  match e with EnterShared i => i :: out | LeaveShared i => filter (λ j, j ≠ i) out | _ => out end.
Definition shared_section (es : list pevent) : list nat := foldl shared_step [] es.

(** ** The invariant *)

(** What a thread is to the lock, and where it is with respect to blocking: about to
    wait on a word, or waiting, with the value it has seen, [sure] once it has found
    it unchanged after queueing; or about to wake. *)
Inductive role := Free | Blocked | Reading | Writing.
Inductive waiting := Awake | Snap (f : rfield) (s : Z) (sure : bool) | ToWake (f : rfield).
#[global] Instance role_eq_dec : EqDecision role.
Proof. solve_decision. Defined.
#[global] Instance waiting_eq_dec : EqDecision waiting.
Proof. solve_decision. Defined.
Record rl := RL { who : role; inside : bool; todo : Z; wt : waiting }.

Definition has (r : role) (l : rl) : Z := if decide (who l = r) then 1 else 0.

Lemma has_range r l : 0 <= has r l <= 1.
Proof. unfold has. case_decide; lia. Qed.
Lemma has_who r l : 0 < has r l → who l = r.
Proof. unfold has. case_decide; [done|lia]. Qed.
Section rwlock.
Context (rw : Z) (timed : bool).
Abbreviation RD := (Rw rw READERS).
Abbreviation WR := (Rw rw WRITER).
Abbreviation BW := (Rw rw BLOCKED_WRITERS).

Definition rw_guarded (x : ploc) : bool :=
  match x with
  | Rw p (READERS | WRITER | BLOCKED_WRITERS | RSEQ | WSEQ) => bool_decide (p = rw)
  | _ => false
  end.
Definition rw_const (x : ploc) : option Z :=
  match x with Rw p R_SIG => if decide (p = rw) then Some _PTHREAD_RWLOCK_SIG else None | _ => None end.

(** What holds of one thread. *)
Definition local_ok (m : ploc → Z) (l : rl) : Prop :=
  match wt l with
  | Awake => True
  | Snap f s _ => (f = RSEQ ∧ who l = Free ∨ f = WSEQ ∧ who l = Blocked) ∧ 0 <= s <= m (Rw rw f)
  | ToWake f => who l = Free
  end ∧ (inside l = true → who l = Reading ∨ who l = Writing) ∧
  0 <= todo l ∧ (who l = Reading ∨ who l = Writing → 1 <= todo l).

Definition asleep_on (qs : list (list ploc)) (f : rfield) (i : nat) (l : rl) : Prop :=
  ∃ s, wt l = Snap f s true ∧ qs !! i = Some [Rw rw f].
Definition busy (m : ploc → Z) : Prop := m RD ≠ 0 ∨ m WR ≠ 0.

(** Nobody sleeps for ever. *)
Record rw_live (ls : list rl) (m : ploc → Z) (qs : list (list ploc)) : Prop := {
  lv_writers : ∀ i l b, ls !! i = Some l → wt l = Snap WSEQ (m (Rw rw WSEQ)) b → busy m;
  lv_readers : ∀ i l b, ls !! i = Some l → wt l = Snap RSEQ (m (Rw rw RSEQ)) b → m WR ≠ 0 ∨ m BW ≠ 0;
  lv_wake_readers : ∀ i l s, ls !! i = Some l → wt l = Snap RSEQ s true → qs !! i = Some [Rw rw RSEQ] →
    s ≠ m (Rw rw RSEQ) → ∃ j lj, ls !! j = Some lj ∧ wt lj = ToWake RSEQ;
  lv_wake_writer : ∀ i l, ls !! i = Some l → asleep_on qs WSEQ i l → ¬ busy m →
    ∃ j lj, ls !! j = Some lj ∧ (wt lj = ToWake WSEQ ∨ who lj = Blocked ∧ ¬ asleep_on qs WSEQ j lj) }.

Record rinv (ls : list rl) (m : ploc → Z) (qs : list (list ploc)) (es : list pevent) : Prop := {
  rv_len : length qs = length ls;
  rv_size : Z.of_nat (length ls) < 2 ^ 31;
  rv_words : m RD = total (has Reading) ls ∧ m WR = total (has Writing) ls ∧ m BW = total (has Blocked) ls;
  rv_excl : m WR <= 1 ∧ (m WR = 0 ∨ m RD = 0);
  rv_seq : 0 <= m (Rw rw RSEQ) ∧ 0 <= m (Rw rw WSEQ) ∧
    m (Rw rw RSEQ) + m (Rw rw WSEQ) + total todo ls < 2 ^ 32;
  rv_local : ∀ i l, ls !! i = Some l → local_ok m l;
  rv_queue : ∀ i l keys, ls !! i = Some l → qs !! i = Some keys →
    keys = [] ∨ ∃ f s b, wt l = Snap f s b ∧ keys = [Rw rw f];
  rv_in : NoDup (in_section es) ∧
    ∀ i, i ∈ in_section es ↔ ∃ l, ls !! i = Some l ∧ who l = Writing ∧ inside l = true;
  rv_shared : NoDup (shared_section es) ∧
    ∀ i, i ∈ shared_section es ↔ ∃ l, ls !! i = Some l ∧ who l = Reading ∧ inside l = true;
  rv_live : timed = false → rw_live ls m qs }.

Lemma rinv_ext ls m m' qs es : (∀ x, rw_guarded x = true → m x = m' x) → rinv ls m qs es → rinv ls m' qs es.
Proof.
  intros Hm. assert (Hf : ∀ f, f ≠ R_SIG → f ≠ R_LOCK → m' (Rw rw f) = m (Rw rw f)).
  { intros f H1 H2. symmetry. apply Hm. destruct f; cbn; try done; by apply bool_decide_eq_true_2. }
  intros []. constructor; rewrite ?Hf by done; try done.
  - intros i l Hl. destruct (rv_local0 i l Hl) as (H1 & H2). split; [|done].
    destruct (wt l) as [|f s b|f]; try done. destruct H1 as [Hk Hs]. split; [done|].
    rewrite Hf; [done|destruct Hk as [[-> _]|[-> _]]; done..].
  - intros Ht. destruct (rv_live0 Ht). constructor; unfold busy; rewrite ?Hf by done; done.
Qed.

(** ** Steps of the invariant *)

(** The queues are as [rv_queue] says. *)
Definition queues_good (ls : list rl) (qs : list (list ploc)) : Prop :=
  ∀ i l keys, ls !! i = Some l → qs !! i = Some keys → keys = [] ∨ ∃ f s b, wt l = Snap f s b ∧ keys = [Rw rw f].

Lemma rinv_set ls m qs es i l m' qs' l' :
  rinv ls m qs es → ls !! i = Some l → length qs' = length qs →
  m' RD = m RD - has Reading l + has Reading l' → m' WR = m WR - has Writing l + has Writing l' →
  m' BW = m BW - has Blocked l + has Blocked l' → m' WR <= 1 ∧ (m' WR = 0 ∨ m' RD = 0) →
  m (Rw rw RSEQ) <= m' (Rw rw RSEQ) → m (Rw rw WSEQ) <= m' (Rw rw WSEQ) →
  m' (Rw rw RSEQ) + m' (Rw rw WSEQ) + todo l' <= m (Rw rw RSEQ) + m (Rw rw WSEQ) + todo l →
  local_ok m' l' → inside l' = inside l → (inside l = true → who l' = who l) → queues_good (<[i := l']> ls) qs' →
  (timed = false → rw_live (<[i := l']> ls) m' qs') →
  rinv (<[i := l']> ls) m' qs' es.
Proof.
  intros Hi Hl Hlen Hrd Hwr Hbw Hex Hrs Hws Hseq Hloc Hin Hwho Hq Hlive.
  assert (Hlt : (i < length ls)%nat) by (by eapply lookup_lt_Some).
  assert (Hsec : ∀ r j, (∃ lj, ls !! j = Some lj ∧ who lj = r ∧ inside lj = true) ↔
    ∃ lj, <[i := l']> ls !! j = Some lj ∧ who lj = r ∧ inside lj = true).
  { intros r j. destruct (decide (j = i)) as [->|Hne]; [|by rewrite list_lookup_insert_ne].
    rewrite list_lookup_insert_eq by done. split; intros (lj & Hj & Hr & Hij); simplify_eq.
    - exists l'. rewrite Hin, Hwho by done. done.
    - exists l. rewrite Hin in Hij. by rewrite <- Hwho. }
  destruct Hi. constructor; rewrite ?length_insert, ?(total_insert _ ls i l l' Hl); try done; try congruence.
  - destruct rv_words0 as (-> & -> & ->) in Hrd, Hwr, Hbw |- *. done.
  - lia.
  - intros j lj Hj. apply lookup_insert_cases in Hj as [[<- ->]|[_ Hj]]; [done|].
    destruct (rv_local0 j lj Hj) as (H1 & H2). split; [|done]. destruct (wt lj) as [|f s b|f]; try done.
    destruct H1 as [Hk Hs]. split; [done|]. destruct Hk as [[-> _]|[-> _]]; lia.
  - destruct rv_in0 as [? Hs]. split; [done|]. intros j. by rewrite Hs, Hsec.
  - destruct rv_shared0 as [? Hs]. split; [done|]. intros j. by rewrite Hs, Hsec.
Qed.

Lemma no_blocked ls i l : total (has Blocked) ls = 0 → ls !! i = Some l → who l ≠ Blocked.
Proof.
  intros H0 Hl Hb. pose proof (total_ge (has Blocked) ls i l (λ _ _ _, proj1 (has_range _ _)) Hl) as Hge.
  unfold has in Hge at 1. rewrite decide_True in Hge by done. lia.
Qed.

(** A thread that is awake changes the words. *)
Lemma rw_live_set ls m qs es i l m' l' :
  rinv ls m qs es → timed = false → ls !! i = Some l → wt l = Awake → (∀ f s, wt l' ≠ Snap f s true) →
  m' BW = m BW - has Blocked l + has Blocked l' → local_ok m' l' →
  m (Rw rw WSEQ) = m' (Rw rw WSEQ) ∧ (busy m → busy m') ∨ m (Rw rw WSEQ) < m' (Rw rw WSEQ) ∨ m' BW = 0 →
  m (Rw rw RSEQ) = m' (Rw rw RSEQ) ∧ (m WR ≠ 0 ∨ m BW ≠ 0 → m' WR ≠ 0 ∨ m' BW ≠ 0) ∨
    m (Rw rw RSEQ) < m' (Rw rw RSEQ) ∧ wt l' = ToWake RSEQ →
  busy m' ∨ wt l' = ToWake WSEQ ∨ m' BW = 0 ∨ ¬ busy m ∧ (who l = Blocked → who l' = Blocked) →
  (∀ b, wt l' = Snap WSEQ (m' (Rw rw WSEQ)) b → busy m') →
  (∀ b, wt l' = Snap RSEQ (m' (Rw rw RSEQ)) b → m' WR ≠ 0 ∨ m' BW ≠ 0) →
  rw_live (<[i := l']> ls) m' qs.
Proof.
  intros Hi Ht Hl Haw Hns Hbw Hloc HW HR Hwk Hw1 Hr1. destruct (rv_live _ _ _ _ Hi Ht) as [L1 L2 L3 L4].
  assert (Hnb : m' BW = 0 → ∀ j lj, <[i := l']> ls !! j = Some lj → who lj ≠ Blocked).
  { intros H0 j lj Hj. eapply no_blocked; [|exact Hj]. rewrite (total_insert _ ls i l l' Hl).
    destruct (rv_words _ _ _ _ Hi) as (_ & _ & <-). lia. }
  assert (Hsn : ∀ j lj f s b, ls !! j = Some lj → wt lj = Snap f s b →
    (f = RSEQ ∧ who lj = Free ∨ f = WSEQ ∧ who lj = Blocked) ∧ 0 <= s <= m (Rw rw f)).
  { intros j lj f s b Hj Hs. destruct (rv_local _ _ _ _ Hi j lj Hj) as [H1 _]. by rewrite Hs in H1. }
  constructor.
  - intros j lj b Hj Hs.
    apply lookup_insert_cases in Hj as Hj'. destruct Hj' as [[<- ->]|[Hne Hj']]; [by eapply Hw1|].
    destruct (Hsn _ _ _ _ _ Hj' Hs) as [[[? _]|[_ Hb]] Hrg]; [done|].
    destruct HW as [[E HB]|[Hlt|H0]]; [|lia|by destruct (Hnb H0 j lj Hj)]. apply HB, (L1 j lj b Hj'). by rewrite E.
  - intros j lj b Hj Hs. apply lookup_insert_cases in Hj as [[<- ->]|[Hne Hj]]; [by eapply Hr1|].
    destruct (Hsn _ _ _ _ _ Hj Hs) as [_ Hrg]. destruct HR as [[E HB]|[Hlt _]]; [|lia]. apply HB, (L2 j lj b Hj). by rewrite E.
  - intros j lj s Hj Hs Hq Hne. apply lookup_insert_cases in Hj as [[<- ->]|[_ Hj]]; [by destruct (Hns RSEQ s)|].
    destruct HR as [[E _]|[_ HT]].
    + destruct (L3 j lj s Hj Hs Hq) as (k & lk & Hk & HTk); [by rewrite E|]. exists k, lk.
      rewrite list_lookup_insert_ne; [done|]. intros ->. congruence.
    + exists i, l'. by rewrite list_lookup_insert_eq by (by eapply lookup_lt_Some).
  - intros j lj Hj (s & Hs & Hq) Hnb'. apply lookup_insert_cases in Hj as Hj'.
    destruct Hj' as [[<- ->]|[_ Hj']]; [by destruct (Hns WSEQ s)|].
    destruct (Hsn _ _ _ _ _ Hj' Hs) as [[[? _]|[_ Hb]] _]; [done|].
    destruct Hwk as [|[HT|[H0|[Hnbm Hbl]]]]; [done|exists i, l'|by destruct (Hnb H0 j lj Hj)|].
    + by rewrite list_lookup_insert_eq by (by eapply lookup_lt_Some); auto.
    + destruct (L4 j lj Hj' ltac:(by exists s) Hnbm) as (k & lk & Hk & HTk).
      destruct (decide (k = i)) as [->|Hki]; [|exists k, lk; by rewrite list_lookup_insert_ne].
      exists i, l'. rewrite list_lookup_insert_eq by (by eapply lookup_lt_Some). split; [done|right]. simplify_eq.
      destruct HTk as [|[Hkb _]]; [congruence|]. split; [auto|]. intros (s' & Hs' & _). by eapply Hns.
Qed.

Lemma queues_awake ls qs i l l' :
  queues_good ls qs → ls !! i = Some l → (∀ f s b, wt l ≠ Snap f s b) → queues_good (<[i := l']> ls) qs.
Proof.
  intros Hq Hl Haw j lj keys Hj Hk. apply lookup_insert_cases in Hj as [[<- ->]|[_ Hj]]; [|by eauto].
  destruct (Hq i l keys Hl Hk) as [|(f & s & b & Hs & _)]; [by left|by destruct (Haw f s b)].
Qed.

(** The words are counts, far from wrapping. *)
Lemma rinv_range ls m qs es i l :
  rinv ls m qs es → ls !! i = Some l →
  (has Reading l <= m RD < 2 ^ 31) ∧ (has Writing l <= m WR <= 1) ∧ (has Blocked l <= m BW < 2 ^ 31) ∧
  (0 <= todo l → m (Rw rw RSEQ) + m (Rw rw WSEQ) + todo l < 2 ^ 32) ∧ local_ok m l ∧ queues_good ls qs.
Proof.
  intros Hi Hl. destruct Hi as [_ Hn (-> & HW & ->) Hex (_ & _ & Hs) Hloc Hq _ _ _]. rewrite HW in *.
  assert (Hge : ∀ r, has r l <= total (has r) ls) by (intros r; apply (total_ge _ ls i l); [by intros; apply has_range|done]).
  assert (Hle : ∀ r, total (has r) ls <= Z.of_nat (length ls)) by (intros r; apply total_range; intros; apply has_range).
  assert (todo l <= total todo ls) by (apply (total_ge _ ls i l); [intros j lj Hj; by destruct (Hloc j lj Hj) as (_ & _ & ? & _)|done]).
  pose proof (Hge Reading). pose proof (Hge Writing). pose proof (Hge Blocked).
  pose proof (Hle Reading). pose proof (Hle Blocked). split_and!; try lia; try done. by eapply Hloc.
Qed.

(** ** Rules *)

(** A sequence word that is stored grows. *)
Definition stored_more (m : ploc → Z) (ws : list (ploc * Z)) : Prop :=
  ∀ f v, f = RSEQ ∨ f = WSEQ → (Rw rw f, v) ∈ ws → m (Rw rw f) < v.
Definition rinv_stores (ls : list rl) (m : ploc → Z) (ws : list (ploc * Z)) (qs : list (list ploc)) (es : list pevent) : Prop :=
  rinv ls m qs es ∧ stored_more m ws.
Definition surely (l : rl) : Prop := ∃ f s, wt l = Snap f s true.
Abbreviation wpr := (wpg (Rw rw R_LOCK) rw_guarded rw_const rinv_stores surely).

Lemma rw_guarded_field f : f ≠ R_SIG → f ≠ R_LOCK → rw_guarded (Rw rw f) = true.
Proof. destruct f; cbn; try done; intros _ _; by apply bool_decide_eq_true_2. Qed.
Lemma rw_guarded_var x : rw_guarded x = true → rw_const x = None.
Proof. by destruct x as [|p []| | | | | | | |]. Qed.
Lemma stored_none m : stored_more m [].
Proof. by intros f v _ ?%not_elem_of_nil. Qed.
Lemma rinv_stores_ext ls m m' ws qs es :
  (∀ x, rw_guarded x = true → m x = m' x) → rinv_stores ls m ws qs es → rinv_stores ls m' ws qs es.
Proof.
  intros Hm [HR HW]. split; [by eapply rinv_ext|]. intros f v Hf Hin. rewrite <- Hm; [by apply HW|].
  by apply rw_guarded_field; destruct Hf as [-> | ->].
Qed.

Lemma wpr_ld i f m0 ws Q l :
  f ≠ R_SIG → f ≠ R_LOCK → Q (view m0 ws (Rw rw f)) (GL (Some (m0, ws)) l) → wpr i (ld (Rw rw f)) Q (GL (Some (m0, ws)) l).
Proof. intros H1 H2. apply wpg_ld. by apply rw_guarded_field. Qed.
Lemma wpr_lock i tries (Q : unit → gl → Prop) l :
  (∀ m0, Q tt (GL (Some (m0, [])) l)) → wpr i (_spin_lock tries (Rw rw R_LOCK)) Q (GL None l).
Proof. by apply wpg_lock. Qed.
Lemma wpr_unlock i m0 ws (Q : unit → gl → Prop) l :
  (∀ ls qs es, ls !! i = Some l → rinv ls m0 qs es →
     ∃ l', rinv (<[i := l']> ls) (view m0 ws) qs es ∧ Q tt (GL None l')) →
  wpr i (_spin_unlock (Rw rw R_LOCK)) Q (GL (Some (m0, ws)) l).
Proof.
  intros H. apply wpg_unlock; [apply rinv_stores_ext|done|]. intros ls qs es Hl [HR _].
  destruct (H ls qs es Hl HR) as (l' & HR' & HQ). exists l'. by split; [split; [done|apply stored_none]|].
Qed.
Lemma wpr_sto i f v m0 ws (Q : unit → gl → Prop) l :
  f ≠ R_SIG → f ≠ R_LOCK →
  (∀ ls qs es, ls !! i = Some l → rinv ls m0 qs es → f = RSEQ ∨ f = WSEQ → m0 (Rw rw f) < v) →
  Q tt (GL (Some (m0, ws ++ [(Rw rw f, v)])) l) → wpr i (sto (Rw rw f) v) Q (GL (Some (m0, ws)) l).
Proof.
  intros H1 H2 Hv HQ. apply wpg_sto; [done|by intros; apply rw_guarded_var|by apply rw_guarded_field|].
  intros ls qs es Hl [HR Hws]. exists l. rewrite list_insert_id by done. split; [split; [done|]|done].
  intros g w Hg Hin. apply elem_of_app in Hin as [Hin|Hin]; [by apply Hws|].
  apply list_elem_of_singleton in Hin as [= -> ->]. by eapply Hv.
Qed.
Lemma wpr_add i f d m0 ws (Q : unit → gl → Prop) l :
  f = READERS ∨ f = BLOCKED_WRITERS →
  Q tt (GL (Some (m0, ws ++ [(Rw rw f, view m0 ws (Rw rw f) +32 d)])) l) →
  wpr i (add_to rw f d) Q (GL (Some (m0, ws)) l).
Proof.
  intros Hf HQ. apply wpg_bind, wpr_ld; [by destruct Hf as [-> | ->]..|].
  apply wpr_sto; [by destruct Hf as [-> | ->]..|by destruct Hf as [-> | ->]; intros ? ? ? ? ? []|done].
Qed.
(** A sequence word goes up by one. *)
Lemma wpr_bump i f m0 ws (Q : unit → gl → Prop) l :
  f = RSEQ ∨ f = WSEQ → 1 <= todo l → view m0 ws (Rw rw f) = m0 (Rw rw f) →
  Q tt (GL (Some (m0, ws ++ [(Rw rw f, m0 (Rw rw f) +32 1)])) l) →
  wpr i (add_to rw f 1) Q (GL (Some (m0, ws)) l).
Proof.
  intros Hf Ht Hv HQ. apply wpg_bind, wpr_ld; [by destruct Hf as [-> | ->]..|]. rewrite Hv.
  apply wpr_sto; [by destruct Hf as [-> | ->]..| |done]. intros ls qs es Hl Hi _.
  destruct (rinv_range _ _ _ _ _ _ Hi Hl) as (_ & _ & _ & Hs & _). destruct (rv_seq _ _ _ _ Hi) as (? & ? & _).
  rewrite u32_small; [lia|]. unfold is_u32. destruct Hf as [-> | ->]; lia.
Qed.

(** The conditions of the loops. *)
Definition readers_must (m : ploc → Z) : Prop := m WR ≠ 0 ∨ 0 < s32 (m BW).
Definition writers_must (m : ploc → Z) : Prop := m WR ≠ 0 ∨ 0 < s32 (m RD).
#[local] Instance readers_must_dec m : Decision (readers_must m).
Proof. unfold readers_must. apply _. Defined.
#[local] Instance writers_must_dec m : Decision (writers_must m).
Proof. unfold writers_must. apply _. Defined.

Lemma wpr_readers_wait i m0 ws Q l :
  Q (bool_decide (readers_must (view m0 ws))) (GL (Some (m0, ws)) l) →
  wpr i (readers_wait rw) Q (GL (Some (m0, ws)) l).
Proof.
  intros HQ. apply wpg_bind, wpr_ld; [done..|]. case_decide as Hw.
  - apply wpg_ret. by rewrite bool_decide_true in HQ by (by left).
  - apply wpg_bind, wpr_ld; [done..|]. apply wpg_ret. 
    erewrite bool_decide_ext; [exact HQ|]. unfold readers_must. tauto.
Qed.
Lemma wpr_writers_wait i m0 ws Q l :
  Q (bool_decide (writers_must (view m0 ws))) (GL (Some (m0, ws)) l) →
  wpr i (writers_wait rw) Q (GL (Some (m0, ws)) l).
Proof.
  intros HQ. apply wpg_bind, wpr_ld; [done..|]. case_decide as Hw.
  - apply wpg_ret. by rewrite bool_decide_true in HQ by (by left).
  - apply wpg_bind, wpr_ld; [done..|]. apply wpg_ret.
    erewrite bool_decide_ext; [exact HQ|]. unfold writers_must. tauto.
Qed.

(** ** What the operations commit *)

Lemma rinv_commit ls m qs es i r t m' r' t' w :
  let l := RL r false t Awake in let l' := RL r' false t' w in
  rinv ls m qs es → ls !! i = Some l →
  m' RD = m RD - has Reading l + has Reading l' → m' WR = m WR - has Writing l + has Writing l' →
  m' BW = m BW - has Blocked l + has Blocked l' → m' WR <= 1 ∧ (m' WR = 0 ∨ m' RD = 0) →
  m (Rw rw RSEQ) <= m' (Rw rw RSEQ) → m (Rw rw WSEQ) <= m' (Rw rw WSEQ) →
  m' (Rw rw RSEQ) + m' (Rw rw WSEQ) + t' <= m (Rw rw RSEQ) + m (Rw rw WSEQ) + t →
  local_ok m' l' → (∀ f s, w ≠ Snap f s true) →
  (timed = false →
    (m (Rw rw WSEQ) = m' (Rw rw WSEQ) ∧ (busy m → busy m') ∨ m (Rw rw WSEQ) < m' (Rw rw WSEQ) ∨ m' BW = 0) ∧
    (m (Rw rw RSEQ) = m' (Rw rw RSEQ) ∧ (m WR ≠ 0 ∨ m BW ≠ 0 → m' WR ≠ 0 ∨ m' BW ≠ 0) ∨
      m (Rw rw RSEQ) < m' (Rw rw RSEQ) ∧ w = ToWake RSEQ) ∧
    (busy m' ∨ w = ToWake WSEQ ∨ m' BW = 0 ∨ ¬ busy m ∧ (r = Blocked → r' = Blocked)) ∧
    (∀ b, w = Snap WSEQ (m' (Rw rw WSEQ)) b → busy m') ∧
    (∀ b, w = Snap RSEQ (m' (Rw rw RSEQ)) b → m' WR ≠ 0 ∨ m' BW ≠ 0)) →
  rinv (<[i := l']> ls) m' qs es.
Proof.
  intros l l' Hi Hl H1 H2 H3 H4 H5 H6 H7 H8 H9 H10. apply (rinv_set ls m qs es i l); try done.
  - by apply (queues_awake ls qs i l (RL r' false t' w) (rv_queue _ _ _ _ Hi)).
  - intros Ht. destruct (H10 Ht) as (K1 & K2 & K3 & K4 & K5). by apply (rw_live_set ls m qs es i l).
Qed.

(** Values after some stores. *)
Ltac counts := unfold has; cbn [who]; repeat (rewrite (decide_True _ _ eq_refl) || rewrite decide_False by done).


(** All that is known of the words when thread [i], awake and in no section, unlocks. *)
Lemma rinv_nums ls m qs es i r t :
  rinv ls m qs es → ls !! i = Some (RL r false t Awake) →
  (if decide (r = Reading) then 1 else 0) <= m RD < 2 ^ 31 ∧ (if decide (r = Writing) then 1 else 0) <= m WR <= 1 ∧
  (if decide (r = Blocked) then 1 else 0) <= m BW < 2 ^ 31 ∧ (m WR = 0 ∨ m RD = 0) ∧
  s32 (m RD) = m RD ∧ s32 (m BW) = m BW ∧ 0 <= m (Rw rw RSEQ) ∧ 0 <= m (Rw rw WSEQ) ∧
  0 <= t ∧ m (Rw rw RSEQ) + m (Rw rw WSEQ) + t < 2 ^ 32.
Proof.
  intros Hi Hl. destruct (rinv_range _ _ _ _ _ _ Hi Hl) as (Hr & Hw & Hb & Ht & (_ & _ & Ht' & _) & _).
  destruct (rv_seq _ _ _ _ Hi) as (? & ? & _). destruct (rv_excl _ _ _ _ Hi) as [_ ?].
  unfold has in Hr, Hw, Hb. cbn in Hr, Hw, Hb, Ht, Ht'. specialize (Ht Ht').
  assert (0 <= m RD) by (repeat case_decide; lia). assert (0 <= m BW) by (repeat case_decide; lia).
  destruct Hr, Hw, Hb. split_and!; try done; apply s32_small; lia.
Qed.

Ltac wrap := rewrite ?u32_add_l; rewrite ?u32_small in * by (unfold is_u32; lia).
Ltac nums Hi Hl := destruct (rinv_nums _ _ _ _ _ _ _ Hi Hl) as (?Hrd & ?Hwr & ?Hbw & ?Hex & ?Hs1 & ?Hs2 & ?Hq1 & ?Hq2 & ?Ht & ?Hsum);
  repeat match goal with H : context [decide (_ = _)] |- _ => first [rewrite (decide_True _ _ eq_refl) in H|rewrite decide_False in H by done] end.
Ltac classical := match goal with H : s32 (?m RD) = _ |- _ =>
  destruct (decide (m RD = 0)), (decide (m WR = 0)), (decide (m BW = 0)); by intuition (congruence || lia) end.
Ltac cases := split_and!; intros; simplify_eq; first [lia|tauto|by intuition (congruence || lia)|classical].
Ltac commit := eapply rinv_commit; try done; unfold local_ok, busy; cbn [wt who inside todo]; words; counts; wrap; cbn; try lia; try cases;
  intros; first [congruence|cases].

Lemma enter_reader_ok i m0 t Q :
  1 <= t → ¬ readers_must m0 → Q ESUCCESS (GL None (RL Reading false t Awake)) →
  wpr i (enter_reader rw) Q (GL (Some (m0, [])) (RL Free false t Awake)).
Proof.
  intros Ht Hm HQ. apply wpg_bind, wpr_add; [by left|]. apply wpg_bind, wpr_unlock; intros ls qs es Hl Hi.
  exists (RL Reading false t Awake). split; [|by apply wpg_ret]. nums Hi Hl. unfold readers_must in Hm.
  commit.
Qed.

(** A writer enters: one that was waiting, one that comes. *)
Lemma enter_writer_ok i m0 t Q :
  1 <= t → ¬ writers_must m0 → Q ESUCCESS (GL None (RL Writing false t Awake)) →
  wpr i (enter_writer rw) Q (GL (Some (m0, [])) (RL Blocked false t Awake)) ∧
  wpr i (enter_writer rw) Q (GL (Some (m0, [(BW, m0 BW +32 1)])) (RL Free false t Awake)) ∧
  wpr i (sto WR 1;; _spin_unlock (Rw rw R_LOCK);; mret ESUCCESS) Q (GL (Some (m0, [])) (RL Free false t Awake)).
Proof.
  intros Ht Hm HQ. unfold writers_must in Hm. split_and!.
  - apply wpg_bind, wpr_add; [by right|]. apply wpg_bind, wpr_sto; [done..|by intros ? ? ? ? ? []|].
    apply wpg_bind, wpr_unlock; intros ls qs es Hl Hi. exists (RL Writing false t Awake).
    split; [|by apply wpg_ret]. nums Hi Hl. commit.
  - apply wpg_bind, wpr_add; [by right|]. apply wpg_bind, wpr_sto; [done..|by intros ? ? ? ? ? []|].
    apply wpg_bind, wpr_unlock; intros ls qs es Hl Hi. exists (RL Writing false t Awake).
    split; [|by apply wpg_ret]. nums Hi Hl. commit.
  - apply wpg_bind, wpr_sto; [done..|by intros ? ? ? ? ? []|].
    apply wpg_bind, wpr_unlock; intros ls qs es Hl Hi. exists (RL Writing false t Awake).
    split; [|by apply wpg_ret]. nums Hi Hl. commit.
Qed.

(** ** Blocking and waking *)

Lemma rinv_wait ls m qs es i r t w qs' w' :
  rinv ls m qs es → ls !! i = Some (RL r false t w) → length qs' = length qs →
  local_ok m (RL r false t w') → queues_good (<[i := RL r false t w']> ls) qs' →
  (timed = false → rw_live (<[i := RL r false t w']> ls) m qs') →
  rinv (<[i := RL r false t w']> ls) m qs' es.
Proof.
  intros Hi Hl Hlen Hloc Hq Hlive. pose proof (rv_excl _ _ _ _ Hi).
  apply (rinv_set ls m qs es i (RL r false t w)); unfold has; cbn; try done; lia.
Qed.

Lemma rw_live_awake ls m qs i r t f s b :
  rw_live ls m qs → ls !! i = Some (RL r false t (Snap f s b)) →
  rw_live (<[i := RL r false t Awake]> ls) m (<[i := []]> qs).
Proof.
  intros [L1 L2 L3 L4] Hl. constructor.
  - intros j lj b' Hj. apply lookup_insert_cases in Hj as [[<- ->]|[_ Hj]]; [done|by eauto].
  - intros j lj b' Hj. apply lookup_insert_cases in Hj as [[<- ->]|[_ Hj]]; [done|by eauto].
  - intros j lj s' Hj Hs. apply lookup_insert_cases in Hj as [[<- ->]|[Hne Hj]]; [done|].
    rewrite list_lookup_insert_ne by done. intros Hq Hs'. destruct (L3 j lj s' Hj Hs Hq Hs') as (k & lk & Hk & HT).
    exists k, lk. rewrite list_lookup_insert_ne; [done|]. intros <-. by simplify_eq.
  - intros j lj Hj (s' & Hs & Hq) Hb. apply lookup_insert_cases in Hj as [[<- ->]|[Hne Hj]]; [done|].
    rewrite list_lookup_insert_ne in Hq by done. destruct (L4 j lj Hj ltac:(by exists s') Hb) as (k & lk & Hk & HT).
    destruct (decide (k = i)) as [->|Hki].
    + exists i, (RL r false t Awake). rewrite list_lookup_insert_eq by (by eapply lookup_lt_Some). simplify_eq.
      split; [done|right]. destruct HT as [|[? _]]; [done|]. split; [done|]. by intros (s0 & ? & _).
    + exists k, lk. rewrite list_lookup_insert_ne by done. split; [done|]. destruct HT as [|[? Hn]]; [by left|right].
      split; [done|]. intros (s0 & Hs0 & Hq0). apply Hn. exists s0. by rewrite list_lookup_insert_ne in Hq0.
Qed.
Lemma rinv_awake ls m qs es i r t f s b :
  rinv ls m qs es → ls !! i = Some (RL r false t (Snap f s b)) →
  rinv (<[i := RL r false t Awake]> ls) m (<[i := []]> qs) es.
Proof.
  intros Hi Hl. apply (rinv_wait ls m qs es i r t (Snap f s b)); [done..|by rewrite length_insert| | |].
  - destruct (rv_local _ _ _ _ Hi i _ Hl) as [_ H]. done.
  - intros j lj keys Hj Hk. apply lookup_insert_cases in Hj as [[<- ->]|[Hne Hj]].
    + apply lookup_insert_cases in Hk as [[_ ->]|[? _]]; [by left|done].
    + rewrite list_lookup_insert_ne in Hk by done. by eapply (rv_queue _ _ _ _ Hi).
  - intros Ht. by apply (rw_live_awake ls m qs i r t f s b); [apply (rv_live _ _ _ _ Hi)|].
Qed.

Lemma rinv_enqueue ls m qs es i r t f s :
  rinv ls m qs es → ls !! i = Some (RL r false t (Snap f s false)) →
  rinv ls m (<[i := [Rw rw f]]> qs) es.
Proof.
  intros Hi Hl. rewrite <- (list_insert_id ls i _ Hl).
  apply (rinv_wait ls m qs es i r t (Snap f s false)); [done..|by rewrite length_insert| | |].
  - by apply (rv_local _ _ _ _ Hi i).
  - rewrite list_insert_id by done. intros j lj keys Hj Hk.
    apply lookup_insert_cases in Hk as [[<- ->]|[Hne Hk]]; [|by eapply (rv_queue _ _ _ _ Hi)].
    right. exists f, s, false. by simplify_eq.
  - rewrite list_insert_id by done. intros Ht. destruct (rv_live _ _ _ _ Hi Ht) as [L1 L2 L3 L4]. constructor; [done..| |].
    + intros j lj s' Hj Hs Hq. destruct (decide (j = i)) as [->|Hne]; [by simplify_eq|].
      rewrite list_lookup_insert_ne in Hq by done. by eapply L3.
    + intros j lj Hj (s' & Hs & Hq) Hb. destruct (decide (j = i)) as [->|Hne]; [by simplify_eq|].
      rewrite list_lookup_insert_ne in Hq by done. destruct (L4 j lj Hj ltac:(by exists s') Hb) as (k & lk & Hk & HT).
      exists k, lk. split; [done|]. destruct HT as [|[? Hn]]; [by left|right]. split; [done|].
      intros (s0 & Hs0 & Hq0). apply lookup_insert_cases in Hq0 as [[<- _]|[_ Hq0]]; [by simplify_eq|]. apply Hn. by exists s0.
Qed.

Lemma rinv_confirm ls m qs es i r t f :
  rinv ls m qs es → ls !! i = Some (RL r false t (Snap f (m (Rw rw f)) false)) →
  rinv (<[i := RL r false t (Snap f (m (Rw rw f)) true)]> ls) m qs es.
Proof.
  intros Hi Hl. apply (rinv_wait ls m qs es i r t (Snap f (m (Rw rw f)) false)); [done..| | |].
  - by apply (rv_local _ _ _ _ Hi i _ Hl).
  - intros j lj keys Hj Hk. apply lookup_insert_cases in Hj as [[<- ->]|[Hne Hj]]; [|by eapply (rv_queue _ _ _ _ Hi)].
    destruct (rv_queue _ _ _ _ Hi i _ keys Hl Hk) as [|(f' & s' & b & Hs & ->)]; [by left|right]. cbn in Hs. simplify_eq.
    by exists f', (m (Rw rw f')), true.
  - intros Ht. destruct (rv_live _ _ _ _ Hi Ht) as [L1 L2 L3 L4]. constructor.
    + intros j lj b Hj Hs. apply lookup_insert_cases in Hj as [[<- ->]|[_ Hj]]; [|by eapply L1].
      cbn in Hs. simplify_eq. by apply (L1 i _ false Hl).
    + intros j lj b Hj Hs. apply lookup_insert_cases in Hj as [[<- ->]|[_ Hj]]; [|by eapply L2].
      cbn in Hs. simplify_eq. by apply (L2 i _ false Hl).
    + intros j lj s Hj Hs Hq Hne. apply lookup_insert_cases in Hj as [[<- ->]|[_ Hj]]; [cbn in Hs; by simplify_eq|].
      destruct (L3 j lj s Hj Hs Hq Hne) as (k & lk & Hk & HT). exists k, lk.
      rewrite list_lookup_insert_ne; [done|]. intros <-. by simplify_eq.
    + intros j lj Hj (s & Hs & Hq) Hb. apply lookup_insert_cases in Hj as [[<- ->]|[_ Hj]].
      { cbn in Hs. simplify_eq. destruct Hb. by apply (L1 i _ false Hl). }
      destruct (L4 j lj Hj ltac:(by exists s) Hb) as (k & lk & Hk & HT). exists k, lk.
      destruct (decide (k = i)) as [->|Hki]; [|by rewrite list_lookup_insert_ne]. simplify_eq.
      destruct HT as [|[Hbl _]]; [done|]. cbn in Hbl. subst r.
      destruct (rv_local _ _ _ _ Hi i _ Hl) as [[[[? ?]|[-> _]] _] _]; [done|]. destruct Hb. by apply (L1 i _ false Hl).
Qed.

(** A thread that wakes others has done so. *)
Lemma rinv_woken ls m qs es i t f p :
  rinv ls m qs es → ls !! i = Some (RL Free false t (ToWake f)) →
  (timed = false → rw_live (<[i := RL Free false t Awake]> ls) m (taken_off p qs)) →
  rinv (<[i := RL Free false t Awake]> ls) m (taken_off p qs) es.
Proof.
  intros Hi Hl Hlive. apply (rinv_wait ls m qs es i Free t (ToWake f)); [done..|apply length_imap| | |done].
  - destruct (rv_local _ _ _ _ Hi i _ Hl) as [_ H]. done.
  - intros j lj keys Hj (q & Hq & ->)%taken_off_lookup. case_match; [by left|].
    by eapply (queues_awake ls qs i (RL Free false t (ToWake f)) _ (rv_queue _ _ _ _ Hi)).
Qed.
Lemma rinv_wake_one ls m qs es i t j keys :
  rinv ls m qs es → ls !! i = Some (RL Free false t (ToWake WSEQ)) → qs !! j = Some keys → Rw rw WSEQ ∈ keys →
  rinv (<[i := RL Free false t Awake]> ls) m (taken_off (wake_one (Rw rw WSEQ) j) qs) es.
Proof.
  intros Hi Hl Hj Hin. apply (rinv_woken ls m qs es i t WSEQ _ Hi Hl). intros Ht.
  destruct (lookup_lt_is_Some_2 ls j) as [lj Hlj]; [rewrite <- (rv_len _ _ _ _ Hi); by eapply lookup_lt_Some|].
  destruct (rv_queue _ _ _ _ Hi j lj keys Hlj Hj) as [->|(f & s & b & Hs & ->)]; [by apply not_elem_of_nil in Hin|].
  apply list_elem_of_singleton in Hin as [= <-].
  assert (Hji : j ≠ i) by (intros ->; by simplify_eq).
  destruct (rv_live _ _ _ _ Hi Ht) as [L1 L2 L3 L4]. constructor.
  - intros k lk b' Hk. apply lookup_insert_cases in Hk as [[<- ->]|[_ Hk]]; [done|by eauto].
  - intros k lk b' Hk. apply lookup_insert_cases in Hk as [[<- ->]|[_ Hk]]; [done|by eauto].
  - intros k lk s' Hk Hs' (q & Hq & Hq')%taken_off_lookup Hne. apply lookup_insert_cases in Hk as [[<- ->]|[_ Hk]]; [done|].
    destruct (wake_one _ j k q); [done|]. subst q. destruct (L3 k lk s' Hk Hs' Hq Hne) as (k' & lk' & Hk' & HT).
    exists k', lk'. rewrite list_lookup_insert_ne; [done|]. intros <-. by simplify_eq.
  - intros _ _ _ _ _. exists j, lj. rewrite list_lookup_insert_ne by done. split; [done|right].
    destruct (rv_local _ _ _ _ Hi j lj Hlj) as [Hloc _]. rewrite Hs in Hloc. destruct Hloc as [[[? _]|[_ Hb]] _]; [done|].
    split; [done|]. intros (s' & _ & (q & Hq & Hq')%taken_off_lookup). simplify_eq.
    unfold wake_one in Hq'. rewrite bool_decide_true in Hq' by (by left). by rewrite (bool_decide_true (j = j)) in Hq'.
Qed.
Lemma rinv_wake_none ls m qs es i t :
  rinv ls m qs es → ls !! i = Some (RL Free false t (ToWake WSEQ)) →
  (∀ j keys, qs !! j = Some keys → Rw rw WSEQ ∉ keys) →
  rinv (<[i := RL Free false t Awake]> ls) m qs es.
Proof.
  intros Hi Hl Hno. apply (rinv_wait ls m qs es i Free t (ToWake WSEQ)); [done..| | |].
  - destruct (rv_local _ _ _ _ Hi i _ Hl) as [_ H]. done.
  - by apply (queues_awake ls qs i (RL Free false t (ToWake WSEQ)) _ (rv_queue _ _ _ _ Hi)).
  - intros Ht. destruct (rv_live _ _ _ _ Hi Ht) as [L1 L2 L3 L4]. constructor.
    + intros k lk b' Hk. apply lookup_insert_cases in Hk as [[<- ->]|[_ Hk]]; [done|by eauto].
    + intros k lk b' Hk. apply lookup_insert_cases in Hk as [[<- ->]|[_ Hk]]; [done|by eauto].
    + intros k lk s' Hk Hs' Hq Hne. apply lookup_insert_cases in Hk as [[<- ->]|[_ Hk]]; [done|].
      destruct (L3 k lk s' Hk Hs' Hq Hne) as (k' & lk' & Hk' & HT).
      exists k', lk'. rewrite list_lookup_insert_ne; [done|]. intros <-. by simplify_eq.
    + intros k lk _ (s & _ & Hq). destruct (Hno k _ Hq). by left.
Qed.
Lemma rinv_wake_all ls m qs es i t :
  rinv ls m qs es → ls !! i = Some (RL Free false t (ToWake RSEQ)) →
  rinv (<[i := RL Free false t Awake]> ls) m (taken_off (wake_all (Rw rw RSEQ)) qs) es.
Proof.
  intros Hi Hl. apply (rinv_woken ls m qs es i t RSEQ _ Hi Hl). intros Ht.
  destruct (rv_live _ _ _ _ Hi Ht) as [L1 L2 L3 L4]. constructor.
  - intros k lk b' Hk. apply lookup_insert_cases in Hk as [[<- ->]|[_ Hk]]; [done|by eauto].
  - intros k lk b' Hk. apply lookup_insert_cases in Hk as [[<- ->]|[_ Hk]]; [done|by eauto].
  - intros k lk s' _ _ (q & Hq & Hq')%taken_off_lookup _. unfold wake_all in Hq'. case_bool_decide as Hin; [done|].
    subst q. by destruct Hin; left.
  - intros k lk Hk (s & Hs & (q & Hq & Hq')%taken_off_lookup) Hb.
    apply lookup_insert_cases in Hk as [[<- ->]|[_ Hk]]; [done|]. destruct (wake_all _ k q); [done|]. subst q.
    destruct (L4 k lk Hk ltac:(by exists s) Hb) as (j & lj & Hj & HT). exists j, lj.
    rewrite list_lookup_insert_ne by (intros <-; simplify_eq; by destruct HT as [|[]]).
    split; [done|]. destruct HT as [|[? Hn]]; [by left|right]. split; [done|].
    intros (s' & Hs' & (q & Hq1 & Hq2)%taken_off_lookup). destruct (wake_all _ j q); [done|]. subst q. apply Hn. by exists s'.
Qed.

Lemma seq_field f : f = RSEQ ∨ f = WSEQ → f ≠ R_SIG ∧ f ≠ R_LOCK.
Proof. by intros [-> | ->]. Qed.

Lemma wpr_wait i f s tm r t Q :
  f = RSEQ ∨ f = WSEQ →
  (∀ kr, Q kr (GL None (RL r false t Awake))) →
  (∀ kr, kr ≠ KERN_OPERATION_TIMED_OUT → Q kr (GL None (RL r false t (Snap f s false)))) →
  wpr i (_pthread_futex_wait (Rw rw f) s tm) Q (GL None (RL r false t (Snap f s false))).
Proof.
  intros Hf HQ HQ'. destruct (seq_field f Hf) as [Hf1 Hf2].
  apply (wpg_wait _ _ _ _ _ _ _ _ _ _ _ (λ l, l = RL r false t (Snap f s false)) (λ l, l = RL r false t (Snap f s true))).
  - by apply rw_guarded_field.
  - auto.
  - intros ls m ws qs es Hl _ _ [Hi HW]. eexists. rewrite list_insert_id by exact Hl. split; [|done]. by split; [eapply rinv_enqueue|].
  - intros l1 ls m ws qs es w -> Hl _ [Hi HW] _ _. eexists. split; [by split; [eapply rinv_awake|]|done].
  - intros l1 ls m ws qs es -> Hl _ [Hi HW] Hp. eexists. split; [|done].
    assert (s = m (Rw rw f)) as ->; [|by split; [eapply rinv_confirm|]].
    destruct (rv_local _ _ _ _ Hi i _ Hl) as [[_ Hs] _]. destruct Hp as [|Hin]; [done|]. specialize (HW f s Hf Hin). lia.
  - intros l3 ->. by exists f, s.
  - intros l3 ls m ws qs es -> Hl _ Hq [Hi HW]. eexists. split; [|apply HQ]. rewrite <- (list_insert_id qs i []) by done.
    by split; [eapply rinv_awake|].
  - intros kr l3 ls m ws qs es -> Hl _ _ [Hi HW]. eexists. split; [by split; [eapply rinv_awake|]|apply HQ].
Qed.

(** A thread that has waited takes the lock again, awake. *)
Lemma wpr_relock i tries r t f s w (Q : unit → gl → Prop) :
  w = Awake ∨ w = Snap f s false →
  (∀ m0, Q tt (GL (Some (m0, [])) (RL r false t Awake))) →
  wpr i (_spin_lock tries (Rw rw R_LOCK)) Q (GL None (RL r false t w)).
Proof.
  intros [-> | ->] HQ; [by apply wpr_lock|].
  apply wpg_lock_ghost; [done|]. intros ls m0 qs es Hl Hq [Hi HW].
  eexists. split; [|apply HQ]. rewrite <- (list_insert_id qs i []) by done. by split; [eapply rinv_awake|].
Qed.

(** A thread starts to wait: a reader; a writer that has waited before; a writer that
    has just come. *)
Lemma reader_waits i m0 t w (Q : unit → gl → Prop) :
  readers_must m0 → w = Snap RSEQ (m0 (Rw rw RSEQ)) false ∨ w = Awake → Q tt (GL None (RL Free false t w)) →
  wpr i (_spin_unlock (Rw rw R_LOCK)) Q (GL (Some (m0, [])) (RL Free false t Awake)).
Proof.
  intros Hm Hw HQ. apply wpr_unlock; intros ls qs es Hl Hi. exists (RL Free false t w). split; [|done].
  nums Hi Hl. unfold readers_must in Hm. destruct Hw as [-> | ->]; commit.
Qed.
Lemma writer_waits i m0 t w (Q : unit → gl → Prop) :
  writers_must m0 → w = Snap WSEQ (m0 (Rw rw WSEQ)) false ∨ w = Awake → Q tt (GL None (RL Blocked false t w)) →
  wpr i (_spin_unlock (Rw rw R_LOCK)) Q (GL (Some (m0, [])) (RL Blocked false t Awake)) ∧
  wpr i (_spin_unlock (Rw rw R_LOCK)) Q (GL (Some (m0, [(BW, m0 BW +32 1)])) (RL Free false t Awake)).
Proof.
  intros Hm Hw HQ. unfold writers_must in Hm.
  split; apply wpr_unlock; intros ls qs es Hl Hi; exists (RL Blocked false t w); (split; [|done]); nums Hi Hl;
    destruct Hw as [-> | ->]; commit.
Qed.

(** ** The operations *)

Lemma wpr_checked i p Q g : wpr i p Q g → wpr i (rw_checked rw p) Q g.
Proof.
  intros HQ. apply wpg_bind, (wpg_const _ _ _ _ _ _ _ _PTHREAD_RWLOCK_SIG); [by cbn; rewrite decide_True|].
  by rewrite decide_False by (by intros []).
Qed.

Section operations.
Context (tries i : nat) (t : Z) (Ht : 1 <= t) (Q : Z → @gl rl → Prop).
Abbreviation free := (RL Free false t Awake).

Lemma reader_loop fuel m0 :
  Q ESUCCESS (GL None (RL Reading false t Awake)) →
  wpr i (block_loop tries rw fuel (readers_wait rw) RSEQ (enter_reader rw)) Q (GL (Some (m0, [])) free).
Proof.
  intros HQ. revert m0. induction fuel as [|fuel IH]; intros m0; cbn [block_loop];
    apply wpg_bind, wpr_readers_wait; (case_bool_decide; [|by apply enter_reader_ok]); [apply wpg_trying|].
  apply wpg_bind, wpr_ld; [done..|]. apply wpg_bind, (reader_waits _ _ _ (Snap RSEQ (m0 (Rw rw RSEQ)) false)); [done|by left|].
  apply wpg_bind, wpr_wait; [by left|intros kr|intros kr _];
    (apply wpg_bind, (wpr_relock _ _ _ _ RSEQ (m0 (Rw rw RSEQ))); [by auto|apply IH]).
Qed.
Lemma reader_until abstime nows m0 :
  Q ESUCCESS (GL None (RL Reading false t Awake)) → Q ETIMEDOUT (GL None free) →
  wpr i (block_until tries rw abstime nows (readers_wait rw) RSEQ (enter_reader rw) (mret ETIMEDOUT)) Q
    (GL (Some (m0, [])) free).
Proof.
  intros HQ HQ'. revert m0. induction nows as [|now nows IH]; intros m0; cbn [block_until];
    apply wpg_bind, wpr_readers_wait; (case_bool_decide; [|by apply enter_reader_ok]); [apply wpg_trying|].
  apply wpg_bind, wpr_ld; [done..|].
  destruct (remaining abstime now) as [left|]; [|apply wpg_bind, (reader_waits _ _ _ Awake); [done|by right|done]].
  apply wpg_bind, (reader_waits _ _ _ (Snap RSEQ (m0 (Rw rw RSEQ)) false)); [done|by left|].
  apply wpg_bind, wpr_wait; [by left|intros kr; case_decide; [done|]|intros kr Hkr; rewrite decide_False by done];
    (apply wpg_bind, (wpr_relock _ _ _ _ RSEQ (m0 (Rw rw RSEQ))); [by auto|apply IH]).
Qed.

(** A writer in the loop: the first time round, and later. *)
Definition in_loop (m0 : ploc → Z) (g : @gl rl) : Prop :=
  g = GL (Some (m0, [])) (RL Blocked false t Awake) ∨ g = GL (Some (m0, [(BW, m0 BW +32 1)])) free.
Lemma in_loop_wait m0 g Q' :
  in_loop m0 g → Q' (bool_decide (writers_must m0)) g → wpr i (writers_wait rw) Q' g.
Proof.
  intros [-> | ->] HQ; apply wpr_writers_wait; [done|].
  erewrite bool_decide_ext; [exact HQ|]. unfold writers_must. words. done.
Qed.
Lemma in_loop_ld m0 g Q' : in_loop m0 g → Q' (m0 (Rw rw WSEQ)) g → wpr i (ld (Rw rw WSEQ)) Q' g.
Proof. intros [-> | ->] HQ; apply wpr_ld; [done..|]. by words. Qed.
Lemma in_loop_enter m0 g :
  in_loop m0 g → ¬ writers_must m0 → Q ESUCCESS (GL None (RL Writing false t Awake)) → wpr i (enter_writer rw) Q g.
Proof. intros [-> | ->] Hm HQ; by apply enter_writer_ok. Qed.
Lemma in_loop_waits m0 g w (Q' : unit → gl → Prop) :
  in_loop m0 g → writers_must m0 → w = Snap WSEQ (m0 (Rw rw WSEQ)) false ∨ w = Awake →
  Q' tt (GL None (RL Blocked false t w)) → wpr i (_spin_unlock (Rw rw R_LOCK)) Q' g.
Proof. intros [-> | ->] Hm Hw HQ; by apply (writer_waits _ _ _ w). Qed.

Lemma writer_loop fuel m0 g :
  in_loop m0 g → Q ESUCCESS (GL None (RL Writing false t Awake)) →
  wpr i (block_loop tries rw fuel (writers_wait rw) WSEQ (enter_writer rw)) Q g.
Proof.
  intros Hg HQ. revert m0 g Hg. induction fuel as [|fuel IH]; intros m0 g Hg; cbn [block_loop];
    apply wpg_bind, (in_loop_wait m0); try done; (case_bool_decide; [|by apply (in_loop_enter m0)]); [apply wpg_trying|].
  apply wpg_bind, (in_loop_ld m0); [done|]. apply wpg_bind, (in_loop_waits m0 g (Snap WSEQ (m0 (Rw rw WSEQ)) false)); [done|done|by left|].
  apply wpg_bind, wpr_wait; [by right|intros kr|intros kr _];
    (apply wpg_bind, (wpr_relock _ _ _ _ WSEQ (m0 (Rw rw WSEQ))); [by auto|intros m1; apply (IH m1); by left]).
Qed.
Lemma leave_writers_ok :
  timed = true → Q ETIMEDOUT (GL None free) → wpr i (leave_writers tries rw) Q (GL None (RL Blocked false t Awake)).
Proof.
  intros Htm HQ. apply wpg_bind, wpr_lock. intros m0. apply wpg_bind, wpr_add; [by right|].
  apply wpg_bind, wpr_unlock; intros ls qs es Hl Hi. exists free. split; [|by apply wpg_ret]. nums Hi Hl. commit.
Qed.
Lemma writer_until abstime nows m0 g :
  timed = true → in_loop m0 g → Q ESUCCESS (GL None (RL Writing false t Awake)) → Q ETIMEDOUT (GL None free) →
  wpr i (block_until tries rw abstime nows (writers_wait rw) WSEQ (enter_writer rw) (leave_writers tries rw)) Q g.
Proof.
  intros Htm Hg HQ HQ'. revert m0 g Hg. induction nows as [|now nows IH]; intros m0 g Hg; cbn [block_until];
    apply wpg_bind, (in_loop_wait m0); try done; (case_bool_decide; [|by apply (in_loop_enter m0)]); [apply wpg_trying|].
  apply wpg_bind, (in_loop_ld m0); [done|].
  destruct (remaining abstime now) as [left|];
    [|apply wpg_bind, (in_loop_waits m0 g Awake); [done|done|by right|by apply leave_writers_ok]].
  apply wpg_bind, (in_loop_waits m0 g (Snap WSEQ (m0 (Rw rw WSEQ)) false)); [done|done|by left|].
  apply wpg_bind, wpr_wait; [by right|intros kr; case_decide; [by apply leave_writers_ok|]|intros kr Hkr; rewrite decide_False by done];
    (apply wpg_bind, (wpr_relock _ _ _ _ WSEQ (m0 (Rw rw WSEQ))); [by auto|intros m1; apply (IH m1); by left]).
Qed.
End operations.

(** ** Marks *)

Lemma shared_section_app es e : shared_section (es ++ [e]) = shared_step (shared_section es) e.
Proof. unfold shared_section. by rewrite foldl_app. Qed.

(** Thread [i] comes in or goes. *)
Definition marks (r : role) (b : bool) (i : nat) (e : pevent) : Prop :=
  e = match r, b with
      | Writing, false => Enter i | Writing, true => Leave i
      | _, false => EnterShared i | _, true => LeaveShared i
      end.

(** The list [out] has the threads of a role that are inside. *)
Definition inside_list (r : role) (ls : list rl) (out : list nat) : Prop :=
  NoDup out ∧ ∀ i, i ∈ out ↔ ∃ l, ls !! i = Some l ∧ who l = r ∧ inside l = true.
Lemma inside_list_other r ls out i r' b b' t w :
  inside_list r ls out → ls !! i = Some (RL r' b t w) → r' ≠ r → inside_list r (<[i := RL r' b' t w]> ls) out.
Proof.
  intros [Hd Ho] Hl Hr. split; [done|]. intros j. rewrite Ho. destruct (decide (j = i)) as [->|Hne].
  - rewrite list_lookup_insert_eq by (by eapply lookup_lt_Some). split; intros (l & Hj & ? & ?); by simplify_eq.
  - by rewrite list_lookup_insert_ne.
Qed.
Lemma inside_list_enter r ls out i t w :
  inside_list r ls out → ls !! i = Some (RL r false t w) → inside_list r (<[i := RL r true t w]> ls) (i :: out).
Proof.
  intros [Hd Ho] Hl. split.
  - apply list.NoDup_cons. split; [|done]. rewrite Ho. intros (l & Hj & _ & ?). by simplify_eq.
  - intros j. rewrite elem_of_cons, Ho. destruct (decide (j = i)) as [->|Hne].
    + rewrite list_lookup_insert_eq by (by eapply lookup_lt_Some). split; [by eauto|by left].
    + rewrite list_lookup_insert_ne by done. naive_solver.
Qed.
Lemma inside_list_leave r ls out i t w :
  inside_list r ls out → ls !! i = Some (RL r true t w) →
  inside_list r (<[i := RL r false t w]> ls) (filter (λ j, j ≠ i) out).
Proof.
  intros [Hd Ho] Hl. split; [by apply list.NoDup_filter|]. intros j. rewrite list_elem_of_filter, Ho.
  destruct (decide (j = i)) as [->|Hne].
  - rewrite list_lookup_insert_eq by (by eapply lookup_lt_Some). split; [by intros [? _]|]. intros (l & Hj & _ & ?). by simplify_eq.
  - rewrite list_lookup_insert_ne by done. naive_solver.
Qed.

Lemma rinv_mark ls m qs es i r b t e :
  rinv ls m qs es → ls !! i = Some (RL r b t Awake) → r = Reading ∨ r = Writing → marks r b i e →
  rinv (<[i := RL r (negb b) t Awake]> ls) m qs (es ++ [e]).
Proof.
  intros Hi Hl Hr He. assert (Hq : queues_good (<[i := RL r (negb b) t Awake]> ls) qs).
  { by apply (queues_awake ls qs i (RL r b t Awake) _ (rv_queue _ _ _ _ Hi)). }
  assert (Hsame : ∀ j lj, <[i := RL r (negb b) t Awake]> ls !! j = Some lj → ∃ l0, ls !! j = Some l0 ∧ who l0 = who lj ∧ wt l0 = wt lj).
  { intros j lj Hj. apply lookup_insert_cases in Hj as [[<- ->]|[_ Hj]]; eauto. }
  assert (Hback : ∀ j lj, ls !! j = Some lj → ∃ l1, <[i := RL r (negb b) t Awake]> ls !! j = Some l1 ∧ who l1 = who lj ∧ wt l1 = wt lj).
  { intros j lj Hj. destruct (decide (j = i)) as [->|Hne]; [|exists lj; by rewrite list_lookup_insert_ne].
    eexists. rewrite list_lookup_insert_eq by (by eapply lookup_lt_Some). by simplify_eq. }
  destruct Hi. constructor; rewrite ?length_insert; try done.
  - rewrite !(total_insert _ ls i _ _ Hl). unfold has at 2 3 5 6 8 9. cbn. lia.
  - rewrite (total_insert _ ls i _ _ Hl). cbn. lia.
  - intros j lj Hj. apply lookup_insert_cases in Hj as [[<- ->]|[_ Hj]]; [|by eauto].
    destruct (rv_local0 i _ Hl) as (_ & _ & ?). done.
  - change (inside_list Writing (<[i := RL r (negb b) t Awake]> ls) (in_section (es ++ [e]))).
    rewrite in_section_app, He. change (inside_list Writing ls (in_section es)) in rv_in0.
    destruct Hr as [-> | ->], b; cbn [in_step negb];
      [by eapply inside_list_other..|by apply inside_list_leave|by apply inside_list_enter].
  - change (inside_list Reading (<[i := RL r (negb b) t Awake]> ls) (shared_section (es ++ [e]))).
    rewrite shared_section_app, He. change (inside_list Reading ls (shared_section es)) in rv_shared0.
    destruct Hr as [-> | ->], b; cbn [shared_step negb];
      [by apply inside_list_leave|by apply inside_list_enter|by eapply inside_list_other..].
  - intros Htm. destruct (rv_live0 Htm) as [L1 L2 L3 L4]. constructor.
    + intros j lj b' Hj Hs. destruct (Hsame j lj Hj) as (l0 & Hj0 & _ & E). apply (L1 j l0 b' Hj0). congruence.
    + intros j lj b' Hj Hs. destruct (Hsame j lj Hj) as (l0 & Hj0 & _ & E). apply (L2 j l0 b' Hj0). congruence.
    + intros j lj s Hj Hs Hq' Hne. destruct (Hsame j lj Hj) as (l0 & Hj0 & _ & E).
      destruct (L3 j l0 s Hj0 ltac:(congruence) Hq' Hne) as (k & lk & Hk & HT).
      destruct (Hback k lk Hk) as (l1 & Hk1 & _ & E1). exists k, l1. split; congruence.
    + intros j lj Hj (s & Hs & Hq') Hb. destruct (Hsame j lj Hj) as (l0 & Hj0 & _ & E).
      destruct (L4 j l0 Hj0 ltac:(exists s; split; congruence) Hb) as (k & lk & Hk & HT).
      destruct (Hback k lk Hk) as (l1 & Hk1 & E0 & E1). exists k, l1. split; [done|].
      destruct HT as [|[? Hn]]; [left; congruence|right]. split; [congruence|]. intros (s' & Hs' & ?). apply Hn. exists s'. split; congruence.
Qed.
Lemma wpr_section i r (Q : unit → gl → Prop) t :
  let rol := if for_writing r then Writing else Reading in
  Q tt (GL None (RL rol false t Awake)) → wpr i (rw_section i r) Q (GL None (RL rol false t Awake)).
Proof.
  intros rol HQ. subst rol. unfold rw_section.
  destruct (for_writing r); apply wpg_bind, wpg_note; intros ls m ws qs es Hl [Hi HW];
    (eexists; split; [split; [eapply rinv_mark; [done..|by auto|done]|done]|]); apply wpg_note; clear ls m ws qs es Hl Hi HW;
    intros ls m ws qs es Hl [Hi HW]; (eexists; split; [split; [eapply rinv_mark; [done..|by auto|done]|done]|]); done.
Qed.

(** ** Unlocking *)

Section unlock.
Context (tries i : nat) (t : Z) (Ht : 1 <= t) (Q : Z → @gl rl → Prop).
Hypothesis HQ : Q ESUCCESS (GL None (RL Free false (t - 1) Awake)).

(** The commit of an unlock that wakes. *)
Definition gives (l : rl) (m0 : ploc → Z) (ws : list (ploc * Z)) (f : rfield) : Prop :=
  ∀ ls qs es, ls !! i = Some l → rinv ls m0 qs es →
    rinv (<[i := RL Free false (t - 1) (ToWake f)]> ls) (view m0 (ws ++ [(Rw rw f, m0 (Rw rw f) +32 1)])) qs es.

Lemma release_one l m0 ws :
  todo l = t → view m0 ws (Rw rw WSEQ) = m0 (Rw rw WSEQ) → gives l m0 ws WSEQ →
  wpr i (release rw WSEQ _pthread_futex_wake_one) Q (GL (Some (m0, ws)) l).
Proof.
  intros Hl Hv Hg. apply wpg_bind, wpr_bump; [by right|by rewrite Hl|done|].
  apply wpg_bind, wpr_unlock; intros ls qs es Hli Hi. exists (RL Free false (t - 1) (ToWake WSEQ)). split; [by apply Hg|].
  apply wpg_bind, wpg_wake_one; clear ls qs es Hli Hi.
  - intros ls m ws' qs es j keys Hli _ [Hi HW] Hj Hin. eexists. split; [by split; [eapply rinv_wake_one|]|done].
  - intros ls m ws' qs es Hli _ [Hi HW] Hno. eexists. split; [by split; [eapply rinv_wake_none|]|done].
Qed.
Lemma release_all l m0 ws :
  todo l = t → view m0 ws (Rw rw RSEQ) = m0 (Rw rw RSEQ) → gives l m0 ws RSEQ →
  wpr i (release rw RSEQ _pthread_futex_wake_all) Q (GL (Some (m0, ws)) l).
Proof.
  intros Hl Hv Hg. apply wpg_bind, wpr_bump; [by left|by rewrite Hl|done|].
  apply wpg_bind, wpr_unlock; intros ls qs es Hli Hi. exists (RL Free false (t - 1) (ToWake RSEQ)). split; [by apply Hg|].
  apply wpg_bind, wpg_wake_all; clear ls qs es Hli Hi.
  intros ls m ws' qs es Hli _ [Hi HW]. eexists. split; [by split; [eapply rinv_wake_all|]|done].
Qed.

Lemma unlock_ok r :
  r = Reading ∨ r = Writing → wpr i (pthread_rwlock_unlock tries rw) Q (GL None (RL r false t Awake)).
Proof.
  intros Hr. apply wpr_checked, wpg_bind, wpr_lock. intros m0. apply wpg_bind, wpr_ld; [done..|]. words.
  case_decide as Hw.
  - apply wpg_bind, wpr_sto; [done..|by intros ? ? ? ? ? []|]. apply wpg_bind, wpr_ld; [done..|]. words.
    case_decide as Hb; [apply release_one|apply release_all]; try done; try (by words); intros ls qs es Hl Hi;
      (destruct Hr as [-> | ->]; nums Hi Hl; [lia|]); commit.
  - apply wpg_bind, wpr_ld; [done..|]. words. case_decide as Hrd.
    + apply wpg_bind, wpr_add; [by left|]. apply wpg_bind, wpr_ld; [done..|]. words.
      assert (Hdone : ∀ b, (m0 RD +32 -1 = 0 → b = m0 BW) →
        wpr i (if decide (m0 RD +32 -1 = 0 ∧ 0 < s32 b) then release rw WSEQ _pthread_futex_wake_one
               else _spin_unlock (Rw rw R_LOCK);; mret ESUCCESS) Q
          (GL (Some (m0, [(RD, m0 RD +32 -1)])) (RL r false t Awake))).
      { intros b Hb. case_decide as Hlast.
        - destruct Hlast as [H0 Hb']. rewrite Hb in Hb' by done. apply release_one; [done|by words|].
          intros ls qs es Hl Hi. destruct Hr as [-> | ->]; nums Hi Hl; [|lia]. commit.
        - apply wpg_bind, wpr_unlock; intros ls qs es Hl Hi. exists (RL Free false (t - 1) Awake). split; [|done].
          destruct Hr as [-> | ->]; nums Hi Hl; [|lia]. rewrite u32_small in Hb, Hlast by (unfold is_u32; lia).
          assert (m0 RD + -1 = 0 → m0 BW = 0) by (intros H0; rewrite Hb in Hlast by done; lia). commit. }
      apply wpg_bind. case_decide; [apply wpr_ld; [done..|]; words; by apply Hdone|by apply wpg_ret, Hdone].
    + apply wpg_bind, wpr_unlock; intros ls qs es Hl Hi. exfalso. destruct Hr as [-> | ->]; nums Hi Hl; lia.
Qed.
End unlock.

(** ** The clients *)

Definition role_of (r : rreq) : role := if for_writing r then Writing else Reading.

Lemma unlock_same i m0 t (Q : unit → @gl rl → Prop) :
  Q tt (GL None (RL Free false t Awake)) →
  wpr i (_spin_unlock (Rw rw R_LOCK)) Q (GL (Some (m0, [])) (RL Free false t Awake)).
Proof. intros HQ. apply wpr_unlock. intros ls qs es Hl Hi. exists (RL Free false t Awake). by rewrite list_insert_id. Qed.

Lemma acquire_ok tries fuel i t r (Q : Z → @gl rl → Prop) :
  1 <= t → (timed_writer r = true → timed = true) →
  Q ESUCCESS (GL None (RL (role_of r) false t Awake)) →
  (∀ rc, rc ≠ ESUCCESS → Q rc (GL None (RL Free false t Awake))) →
  wpr i (rw_acquire tries fuel rw r) Q (GL None (RL Free false t Awake)).
Proof.
  intros Ht Htm HQ HQ'. destruct r as [| |abstime nows| | |abstime nows]; cbn [rw_acquire];
    apply wpr_checked, wpg_bind, wpr_lock; intros m0.
  - by apply reader_loop.
  - apply wpg_bind, wpr_readers_wait. case_bool_decide; [|by apply enter_reader_ok].
    apply wpg_bind, unlock_same. by apply HQ'.
  - apply reader_until; [done..|by apply HQ'].
  - apply wpg_bind, wpr_add; [by right|]. apply (writer_loop _ _ _ Ht _ _ m0); [by right|done].
  - apply wpg_bind, wpr_writers_wait. case_bool_decide; [|by apply enter_writer_ok].
    apply wpg_bind, unlock_same. by apply HQ'.
  - apply wpg_bind, wpr_add; [by right|]. apply (writer_until _ _ _ Ht _ _ _ m0); [by apply Htm|by right|done|by apply HQ'].
Qed.

Lemma user_ok tries fuel i rs t :
  Z.of_nat (length rs) <= t → (timed = true ∨ Forall (λ r, timed_writer r = false) rs) →
  wpr i (rw_user tries fuel rw i rs) (λ _ g, held g = None ∧ who (known g) = Free ∧ wt (known g) = Awake)
    (GL None (RL Free false t Awake)).
Proof.
  revert t. induction rs as [|r rs IH]; intros t Ht Htm; [done|]. cbn [rw_user length] in *.
  assert (timed = true ∨ Forall (λ r, timed_writer r = false) rs) by (destruct Htm as [|Hf]; [by left|right; by inversion Hf]).
  apply wpg_bind, acquire_ok; [lia| | |].
  - intros Hr. destruct Htm as [|Hf]; [done|]. inversion Hf. congruence.
  - rewrite decide_True by done. apply wpg_bind, wpg_bind, wpr_section. apply wpg_bind, (unlock_ok _ _ t); [lia| |].
    + apply wpg_ret. apply IH; [lia|done].
    + destruct (for_writing r); auto.
  - intros rc Hrc. rewrite decide_False by done. apply wpg_bind, wpg_ret. apply IH; [lia|done].
Qed.
End rwlock.

(** ** The threads of a program *)

Definition rw_start (rw : Z) (m : ploc → Z) (tries fuel : nat) (rss : list (list rreq)) :
    @config ploc pevent (option unit) :=
  Config (solo m (pthread_rwlock_init rw))
    (imap (λ i rs, Thread [] (Run (rw_user tries fuel rw i rs))) rss) [].

Section system.
Context (rw : Z) (m : ploc → Z) (tries fuel : nat) (rss : list (list rreq)) (timed : bool).
Hypotheses (Hsize : Z.of_nat (length rss) < 2 ^ 31)
  (Hwork : total (λ rs, Z.of_nat (length rs)) rss < 2 ^ 32)
  (Htm : timed = true ∨ Forall (Forall (λ r, timed_writer r = false)) rss).

Definition rw_ghost (rs : list rreq) : @gl rl := GL None (RL Free false (Z.of_nat (length rs)) Awake).

Lemma rw_start_inv :
  GInv (Rw rw R_LOCK) (rw_guarded rw) (rw_const rw) (rinv_stores rw timed)
    (rw_ghost <$> rss) (shared_of (rw_start rw m tries fuel rss)).
Proof.
  set (m' := solo m (pthread_rwlock_init rw)).
  assert (Hm : ∀ f, m' (Rw rw f) = match f with R_SIG => _PTHREAD_RWLOCK_SIG | _ => 0 end).
  { intros []; cbn; rewrite ?upd_other, ?upd_same by done; done. }
  assert (Hg : ∀ i g, (rw_ghost <$> rss) !! i = Some g → ∃ rs, g = rw_ghost rs).
  { intros i g. rewrite list_lookup_fmap. intros (rs & _ & ->)%fmap_Some. by exists rs. }
  assert (Hl : ∀ i l, (known <$> (rw_ghost <$> rss)) !! i = Some l → ∃ rs, l = known (rw_ghost rs)).
  { intros i l. rewrite list_lookup_fmap. intros (g & Hgi & ->)%fmap_Some. destruct (Hg i g Hgi) as [rs ->]. by exists rs. }
  assert (Hbuf : ∀ i b, s_bufs (shared_of (rw_start rw m tries fuel rss)) !! i = Some b → b = []).
  { intros i b. cbn. rewrite list_lookup_fmap, list_lookup_imap. by destruct (rss !! i); [intros [= <-]|]. }
  assert (Hque : ∀ i q, s_queue (shared_of (rw_start rw m tries fuel rss)) !! i = Some q → q = []).
  { intros i q. cbn. rewrite list_lookup_fmap, list_lookup_imap. by destruct (rss !! i); [intros [= <-]|]. }
  assert (Htot : ∀ r, r ≠ Free → total (has r) (known <$> (rw_ghost <$> rss)) = 0).
  { intros r Hr. rewrite !total_fmap. unfold has. cbn. rewrite decide_False by congruence. apply total_zero. }
  assert (Htodo : total todo (known <$> (rw_ghost <$> rss)) = total (λ rs, Z.of_nat (length rs)) rss).
  { by rewrite !total_fmap. }
  assert (Hin : ∀ i r, (∃ l, (known <$> (rw_ghost <$> rss)) !! i = Some l ∧ who l = r ∧ inside l = true) → False).
  { intros i r (l & Hli & _ & Hins). by destruct (Hl i l Hli) as [rs ->]. }
  apply ginv_start; cbn [shared_of rw_start memory threads events s_mem s_bufs s_queue s_evs]; fold m'.
  - by rewrite !length_fmap, length_imap.
  - by rewrite !length_fmap, length_imap.
  - intros [|p []| | | | | | | |] v; cbn; try done. case_decide; [|done]. intros [= <-]. subst p. apply Hm.
  - intros i b Hb. by apply (Hbuf i).
  - intros i g Hgi. by destruct (Hg i g Hgi) as [rs ->].
  - apply Hm.
  - split; [|apply stored_none]. constructor; rewrite ?Hm, ?Htot, ?Htodo by done; try done.
    + by rewrite !length_fmap, length_imap.
    + by rewrite !length_fmap.
    + split; [lia|by left].
    + intros i l Hli. destruct (Hl i l Hli) as [rs ->]. unfold local_ok. cbn. split_and!; try done; [lia|by intros []].
    + intros i l keys _ Hq. left. by eapply Hque.
    + split; [constructor|]. intros i. split; [by intros ?%not_elem_of_nil|by intros ?%Hin].
    + split; [constructor|]. intros i. split; [by intros ?%not_elem_of_nil|by intros ?%Hin].
    + intros _. constructor; intros i l; intros; (destruct (Hl i l) as [rs ->]; [done|]); try done.
      by destruct H0 as (s & ? & _).
Qed.

Lemma rw_sound c :
  rtc step (rw_start rw m tries fuel rss) c →
  ∃ gs, sound (GInv (Rw rw R_LOCK) (rw_guarded rw) (rw_const rw) (rinv_stores rw timed)) (Parked surely)
    (λ _ o g, match o with Some _ => held g = None ∧ who (known g) = Free ∧ wt (known g) = Awake | None => True end) gs c.
Proof.
  eapply sound_reachable; [intros; by apply guard_flush; [apply rinv_stores_ext|..]|].
  split_and!; [apply rw_start_inv|cbn; by rewrite length_fmap, length_imap|].
  intros i t g Ht Hg. rewrite list_lookup_fmap in Hg. cbn in Ht. rewrite list_lookup_imap in Ht.
  destruct (rss !! i) as [rs|] eqn:Hrs; [|done]. injection Ht as <-. injection Hg as <-. cbn.
  apply user_ok; [done|]. destruct Htm as [|Hf]; [by left|right]. by eapply (Forall_lookup_1 _ _ _ _ Hf).
Qed.
End system.

Lemma only_one r ls i j li lj :
  total (has r) ls <= 1 → ls !! i = Some li → ls !! j = Some lj → who li = r → who lj = r → i = j.
Proof.
  intros Ht Hi Hj Hri Hrj. destruct (decide (i = j)) as [|Hne]; [done|exfalso].
  set (l0 := RL (if decide (r = Free) then Blocked else Free) false 0 Awake).
  pose proof (total_insert (has r) ls i li l0 Hi) as Hins.
  pose proof (total_ge (has r) (<[i := l0]> ls) j lj (λ _ _ _, proj1 (has_range _ _)) ltac:(by rewrite list_lookup_insert_ne)) as Hge.
  unfold has in Hins at 3 4. unfold has in Hge at 1. rewrite decide_True in Hge by done. rewrite decide_True in Hins by done.
  rewrite decide_False in Hins; [lia|]. subst l0. cbn. case_decide; congruence.
Qed.
Lemma at_most_one {A} (l : list A) : NoDup l → (∀ x y, x ∈ l → y ∈ l → x = y) → (length l <= 1)%nat.
Proof.
  intros Hd Hl. destruct l as [|x [|y l]]; cbn; [lia|lia|]. apply list.NoDup_cons in Hd as [Hx _]. destruct Hx.
  rewrite (Hl x y); [by left|by left|right; by left].
Qed.

(** What the words say. *)
Lemma rinv_excludes rw timed ls m qs es :
  rinv rw timed ls m qs es →
  (length (in_section es) <= 1)%nat ∧ (in_section es = [] ∨ shared_section es = []).
Proof.
  intros Hi. destruct (rv_words _ _ _ _ _ _ Hi) as (Hrd & Hwr & _). destruct (rv_excl _ _ _ _ _ _ Hi) as [Hw1 Hex].
  destruct (rv_in _ _ _ _ _ _ Hi) as [Hd Hin]. destruct (rv_shared _ _ _ _ _ _ Hi) as [_ Hsh]. split.
  - apply at_most_one; [done|]. intros x y (lx & Hx & Hwx & _)%Hin (ly & Hy & Hwy & _)%Hin.
    apply (only_one Writing ls x y lx ly); [lia|done..].
  - destruct (in_section es) as [|x out] eqn:Eo; [by left|right]. destruct (shared_section es) as [|y out'] eqn:Es; [done|exfalso].
    destruct (proj1 (Hin x)) as (lx & Hx & Hwx & _); [by left|]. destruct (proj1 (Hsh y)) as (ly & Hy & Hwy & _); [by left|].
    pose proof (total_ge (has Writing) ls x lx (λ _ _ _, proj1 (has_range _ _)) Hx) as H1.
    pose proof (total_ge (has Reading) ls y ly (λ _ _ _, proj1 (has_range _ _)) Hy) as H2.
    unfold has in H1 at 1. unfold has in H2 at 1. rewrite decide_True in H1 by done. rewrite decide_True in H2 by done. lia.
Qed.

(** C14. A writer is alone.  Any number of threads (below 2^31, with fewer than 2^32
    requests in all) take a read-write lock for reading or writing, blocking, trying or
    with a deadline, and release it.  In every reachable configuration of the x86-TSO
    machine, whatever the traps return, at most one thread is in the section as a
    writer, and while one is nobody is there as a reader. *)
Theorem rwlock_exclusion rw m tries fuel rss c :
  Z.of_nat (length rss) < 2 ^ 31 → total (λ rs, Z.of_nat (length rs)) rss < 2 ^ 32 →
  rtc step (rw_start rw m tries fuel rss) c →
  (length (in_section (events c)) <= 1)%nat ∧
  (in_section (events c) = [] ∨ shared_section (events c) = []).
Proof.
  intros Hs Hw Hr. destruct (rw_sound rw m tries fuel rss true Hs Hw ltac:(by left) c Hr) as (gs & Hi & _).
  destruct (ginv_committed _ _ _ _ _ _ _ _ _ Hi) as (m0 & ws & [HR _] & _). by apply rinv_excludes in HR.
Qed.

(** If every thread is done or asleep, none is asleep. *)
Definition settled (rw : Z) (qs : list (list ploc)) (i : nat) (l : rl) : Prop :=
  who l = Free ∧ wt l = Awake ∨ ∃ f s, wt l = Snap f s true ∧ qs !! i = Some [Rw rw f].
Lemma rinv_settled rw ls m qs es :
  rinv rw false ls m qs es → (∀ i l, ls !! i = Some l → settled rw qs i l) → ∀ i l, ls !! i = Some l → wt l = Awake.
Proof.
  intros Hi Hset. destruct (rv_live _ _ _ _ _ _ Hi eq_refl) as [L1 L2 L3 L4].
  destruct (rv_words _ _ _ _ _ _ Hi) as (Hrd & Hwr & Hbw).
  assert (Hloc : ∀ i l f s, ls !! i = Some l → wt l = Snap f s true → f = RSEQ ∧ who l = Free ∨ f = WSEQ ∧ who l = Blocked).
  { intros i l f s Hl Hs. destruct (rv_local _ _ _ _ _ _ Hi i l Hl) as [H _]. rewrite Hs in H. by destruct H. }
  assert (Hno : ∀ r i l, ls !! i = Some l → who l = r → r ≠ Reading ∧ r ≠ Writing).
  { intros r i l Hl <-. destruct (Hset i l Hl) as [[-> _]|(f & s & Hs & _)]; [done|].
    by destruct (Hloc i l f s Hl Hs) as [[_ ->]|[_ ->]]. }
  assert (Hzero : ∀ r, r = Reading ∨ r = Writing → total (has r) ls = 0).
  { intros r Hr. pose proof (total_range (has r) ls (λ _ _ _, has_range _ _)). destruct (decide (0 < total (has r) ls)) as [Hp|]; [|lia].
    destruct (total_pos _ _ Hp) as (i & l & Hl & Hw%has_who). destruct (Hno r i l Hl Hw). naive_solver. }
  assert (Hfree : ¬ busy rw m) by (unfold busy; rewrite Hrd, Hwr, !Hzero by auto; naive_solver).
  assert (Hw : ∀ i l, ls !! i = Some l → ¬ asleep_on rw qs WSEQ i l).
  { intros i l Hl Ha. destruct (L4 i l Hl Ha Hfree) as (j & lj & Hj & HT).
    destruct (Hset j lj Hj) as [[Hwho Haw]|(f & s & Hs & Hq)]; [destruct HT as [|[? _]]; congruence|].
    destruct HT as [|[Hb Hn]]; [congruence|]. destruct (Hloc j lj f s Hj Hs) as [[_ ?]|[-> _]]; [congruence|].
    apply Hn. by exists s. }
  assert (Hb : m (Rw rw BLOCKED_WRITERS) = 0).
  { rewrite Hbw. pose proof (total_range (has Blocked) ls (λ _ _ _, has_range _ _)).
    destruct (decide (0 < total (has Blocked) ls)) as [Hp|]; [|lia].
    destruct (total_pos _ _ Hp) as (i & l & Hl & Hwho%has_who). destruct (Hset i l Hl) as [[? _]|(f & s & Hs & Hq)]; [congruence|].
    destruct (Hloc i l f s Hl Hs) as [[_ ?]|[-> _]]; [congruence|]. destruct (Hw i l Hl). by exists s. }
  intros i l Hl. destruct (Hset i l Hl) as [[_ ?]|(f & s & Hs & Hq)]; [done|exfalso].
  destruct (Hloc i l f s Hl Hs) as [[-> _]|[-> _]]; [|destruct (Hw i l Hl); by exists s].
  destruct (decide (s = m (Rw rw RSEQ))) as [->|Hne].
  - destruct (L2 i l true Hl Hs) as [?|?]; [|done]. apply Hfree. by right.
  - destruct (L3 i l s Hl Hs Hq Hne) as (j & lj & Hj & HT). destruct (Hset j lj Hj) as [[_ ?]|(f & s' & ? & _)]; congruence.
Qed.

(** C15. No thread is forgotten, as long as no one waits for writing with a deadline.
    Once each of the threads has finished or sleeps in the futex without having been
    woken, all have finished: a release wakes a waiting writer, or all readers if there
    is none, and every thread that is woken in vain sleeps on the current value of its
    sequence word. *)
Theorem rwlock_no_deadlock rw m tries fuel rss c :
  Z.of_nat (length rss) < 2 ^ 31 → total (λ rs, Z.of_nat (length rs)) rss < 2 ^ 32 →
  Forall (Forall (λ r, timed_writer r = false)) rss →
  rtc step (rw_start rw m tries fuel rss) c →
  Forall (λ t, is_done t ∨ is_asleep t) (threads c) → Forall (λ t, is_done t) (threads c).
Proof.
  intros Hs Hw Hf Hr Hall.
  destruct (rw_sound rw m tries fuel rss false Hs Hw ltac:(by right) c Hr) as (gs & Hi & Hlen & Hts).
  destruct (ginv_committed _ _ _ _ _ _ _ _ _ Hi) as (m0 & ws & [HR _] & _). cbn in HR.
  assert (Hset : ∀ i t, threads c !! i = Some t → ∃ l, (known <$> gs) !! i = Some l ∧
    settled rw (queue_of <$> threads c) i l ∧ (wt l = Awake → is_done t)).
  { intros i t Ht. destruct (lookup_lt_is_Some_2 gs i) as [g Hg]; [rewrite Hlen; by eapply lookup_lt_Some|].
    exists (known g). split; [by apply known_lookup|]. specialize (Hts i t g Ht Hg).
    pose proof (Forall_lookup_1 _ _ _ _ Hall Ht) as Hda. unfold settled. rewrite list_lookup_fmap, Ht. cbn.
    pose proof (rv_queue _ _ _ _ _ _ HR i (known g) (queue_of t) (known_lookup _ _ _ Hg)) as Hq.
    rewrite list_lookup_fmap, Ht in Hq. specialize (Hq eq_refl).
    unfold is_done, is_asleep, queue_of in *. destruct t as [b [[[]| | | | | | |]|keys [|] [] tm k]]; cbn in *; try naive_solver.
    destruct Hts as (Hk & (_ & f & s & Hsn) & _). split; [|intros; congruence].
    right. exists f, s. split; [done|]. destruct Hq as [|(f' & s' & b' & Hs' & ->)]; [done|]. congruence. }
  apply list.Forall_forall. intros t Ht. apply list_elem_of_lookup_1 in Ht as [i Ht].
  destruct (Hset i t Ht) as (l & Hl & _ & Hd). apply Hd. eapply rinv_settled; [exact HR| |exact Hl].
  intros j lj Hj. destruct (lookup_lt_is_Some_2 (threads c) j) as [u Hu].
  { rewrite <- Hlen, <- (length_fmap known). by eapply lookup_lt_Some. }
  destruct (Hset j u Hu) as (l' & Hl' & ? & _). by simplify_eq.
Qed.
