(* ===== verification/PthreadBarrier.v ===== *)
(** * libpthreads: barriers

    As many threads as a barrier is for meet at it a number of times.  Shown: no one
    leaves a round before all have come to it; no thread stays asleep for ever; and in
    each round just one thread is told that it is the serial one. *)

From S2P Require Import Prelude Mach Tso Pthread PthreadMutex PthreadGuard.

(** ** Clients *)

(** A thread meets the others at the barrier [rounds] times. *)
Fixpoint participant (tries fuel : nat) (barrier : Z) (i rounds : nat) : T unit :=
  match rounds with
  | O => mret tt
  | S rounds =>
      mark (Enter i);;
      rc ← pthread_barrier_wait tries barrier fuel;
      (if decide (rc = PTHREAD_BARRIER_SERIAL_THREAD) then mark (Serial i) else mret tt);;
      mark (Leave i);;
      participant tries fuel barrier i rounds
  end.
Definition barrier_start (tries fuel : nat) (barrier count : Z) (m : ploc → Z) (n rounds : nat) :
    @config ploc pevent (option unit) :=
  Config (solo m (pthread_barrier_init barrier count))
    ((λ i, Thread [] (Run (participant tries fuel barrier i rounds))) <$> seq 0 n) [].

(** How often thread [i] has come to the barrier and left it, and how many threads have
    been told that they are the serial one. *)
Definition times (e : pevent) (es : list pevent) : Z := total (λ e', if decide (e' = e) then 1 else 0) es.
Definition comes (es : list pevent) (i : nat) : Z := times (Enter i) es.
Definition goes (es : list pevent) (i : nat) : Z := times (Leave i) es.
Definition serials (es : list pevent) : Z := total (λ e, match e with Serial _ => 1 | _ => 0 end) es.

(** ** The invariant *)

(** Where a thread is: away; at the barrier, not counted; counted, and looking at the
    phase, queued in the futex, or asleep there; about to flip the phase, to wake the
    others, to tell that it is the serial one; through. *)
Inductive stage := Away | Come | Looking | Queued | Sleeping | Flipping | Waking | Telling | Through.
#[global] Instance stage_eq_dec : EqDecision stage.
Proof. solve_decision. Defined.
(** [joins]: the rounds in which the thread was counted. *)
Record bl := BL { joins : Z; at_ : stage }.

Definition waits (p : stage) : bool := match p with Looking | Queued | Sleeping => true | _ => false end.
Definition coming (p : stage) : Z := match p with Come => 1 | _ => 0 end.
Definition counted (p : stage) : Z := match p with Away | Come => 0 | _ => 1 end.
Definition untold (l : bl) : Z := match at_ l with Flipping | Waking | Telling => 1 | _ => 0 end.

Section barrier.
Context (barrier : Z) (n : nat) (rounds : Z).
Hypothesis Hn : (1 <= n)%nat ∧ Z.of_nat n < 2 ^ 32.
Abbreviation PH := (Br barrier PHASE).
Abbreviation WT := (Br barrier WAITING).

Definition br_guarded (x : ploc) : bool :=
  match x with Br p WAITING | Br p PHASE => bool_decide (p = barrier) | _ => false end.
Definition br_const (x : ploc) : option Z :=
  match x with
  | Br p B_SIG => if decide (p = barrier) then Some _PTHREAD_BARRIER_SIG else None
  | Br p COUNT => if decide (p = barrier) then Some (Z.of_nat n) else None
  | _ => None
  end.

(** The holder of the lock has stored the phase. *)
Definition flips (ws : list (ploc * Z)) : Prop := PH ∈ ws.*1.
Definition late (G : Z) (l : bl) : Z := if decide (joins l = G + 1) then 1 else 0.
Definition queue_ok (l : bl) (keys : list ploc) : Prop :=
  keys = [] ∨ keys = [PH] ∧ (at_ l = Queued ∨ at_ l = Sleeping).
Definition seen_ok (es : list pevent) (i : nat) (l : bl) : Prop :=
  comes es i = joins l + coming (at_ l) ∧ goes es i = joins l - counted (at_ l).
Definition waker (l : bl) : Prop := at_ l = Flipping ∨ at_ l = Waking.

(** After [G] complete rounds. *)
Record binv (G : Z) (ls : list bl) (m : ploc → Z) (ws : list (ploc * Z)) (qs : list (list ploc))
    (es : list pevent) : Prop := {
  bv_n : length ls = n;
  bv_phase : 0 <= G ∧ m PH = G mod 2;
  bv_joins : ∀ i l, ls !! i = Some l →
    G <= joins l <= G + 1 ∧ joins l <= rounds ∧ (waits (at_ l) = false → joins l <= G ∨ flips ws);
  bv_waiting : ¬ flips ws → m WT = total (late G) ls ∧ m WT < Z.of_nat n;
  bv_flips : flips ws → (∀ i l, ls !! i = Some l → joins l = G + 1) ∧
    (∃ i l, ls !! i = Some l ∧ at_ l = Flipping) ∧ (∀ v, (PH, v) ∈ ws → v = (G + 1) mod 2);
  bv_queue : ∀ i l keys, ls !! i = Some l → qs !! i = Some keys → queue_ok l keys;
  bv_wake : ∀ i l, ls !! i = Some l → at_ l = Sleeping → qs !! i = Some [PH] → joins l <= G ∨ flips ws →
    ∃ j lj, ls !! j = Some lj ∧ waker lj;
  bv_seen : ∀ i l, ls !! i = Some l → seen_ok es i l;
  bv_serial : (flips ws → serials es + total untold ls = G + 1) ∧ (¬ flips ws → serials es + total untold ls = G) }.
Definition Binv (ls : list bl) (m : ploc → Z) (ws : list (ploc * Z)) (qs : list (list ploc)) (es : list pevent) : Prop :=
  ∃ G, binv G ls m ws qs es.
Definition sleeping (l : bl) : Prop := at_ l = Sleeping.
Abbreviation wpb := (wpg (Br barrier B_LOCK) br_guarded br_const Binv sleeping).

Lemma flips_dec ws : Decision (flips ws).
Proof. unfold flips. apply _. Defined.
Lemma flips_stored ws v : (PH, v) ∈ ws → flips ws.
Proof. intros Hin. apply list_elem_of_fmap. by exists (PH, v). Qed.
Lemma not_flips_nil : ¬ flips [].
Proof. by intros ?%not_elem_of_nil. Qed.

Lemma Binv_ext ls m m' ws qs es :
  (∀ x, br_guarded x = true → m x = m' x) → Binv ls m ws qs es → Binv ls m' ws qs es.
Proof.
  intros Hm [G []]. exists G. constructor; try done; rewrite <- ?Hm by (cbn; by apply bool_decide_eq_true_2); done.
Qed.

(** A store of another word than the phase. *)
Lemma binv_stored G ls m ws qs es v : binv G ls m ws qs es → binv G ls m (ws ++ [(WT, v)]) qs es.
Proof.
  assert (Hf : flips (ws ++ [(WT, v)]) ↔ flips ws).
  { unfold flips. rewrite fmap_app, elem_of_app. cbn. rewrite list_elem_of_singleton. split; [by intros [|]|by left]. }
  intros []. constructor; try done.
  - intros i l Hl. rewrite Hf. by eapply bv_joins0.
  - by rewrite Hf.
  - rewrite Hf. intros H. destruct (bv_flips0 H) as (H1 & H2 & H3). split_and!; [done..|]. intros w Hin.
    apply elem_of_app in Hin as [Hin|Hin]; [by apply H3|]. by apply list_elem_of_singleton in Hin.
  - intros i l Hl Hs Hq. rewrite Hf. by apply (bv_wake0 i l Hl Hs Hq).
  - by rewrite Hf.
Qed.

(** ** Steps of one thread *)

Lemma times_snoc e es e' : times e (es ++ [e']) = times e es + if decide (e' = e) then 1 else 0.
Proof. unfold times. rewrite total_app. cbn. lia. Qed.
Lemma serials_app es es' : serials (es ++ es') = serials es + serials es'.
Proof. apply total_app. Qed.

(** A thread that is not at the flip goes from one stage to another in its round. *)
Lemma binv_stage G ls m ws qs qs' es es' i j p p' :
  binv G ls m ws qs es → ls !! i = Some (BL j p) → p ≠ Flipping → p' ≠ Flipping → length qs' = length qs →
  (waits p = true → waits p' = false → j <= G ∨ flips ws) →
  (∀ k, k ≠ i → qs' !! k = qs !! k ∨ qs' !! k = Some []) →
  (∀ keys, qs' !! i = Some keys → queue_ok (BL j p') keys) →
  (p = Waking → waker (BL j p') ∨ ∀ k, qs' !! k ≠ Some [PH]) →
  (p' = Sleeping → j <= G → flips ws) →
  (∀ k, k ≠ i → comes es' k = comes es k ∧ goes es' k = goes es k) → seen_ok es' i (BL j p') →
  serials es' + untold (BL j p') = serials es + untold (BL j p) →
  binv G (<[i := BL j p']> ls) m ws qs' es'.
Proof.
  intros Hi Hl Hp Hp' Hlen Hw Hq Hqi Hwk Hsl Hev Hevi Hse.
  assert (Hnew : <[i := BL j p']> ls !! i = Some (BL j p')) by (by rewrite list_lookup_insert_eq by (by eapply lookup_lt_Some)).
  destruct (bv_joins _ _ _ _ _ _ Hi i _ Hl) as (Hj & Hjr & Hjw). cbn in Hj, Hjr, Hjw.
  assert (Hflip : ∀ k lk, ls !! k = Some lk → at_ lk = Flipping → <[i := BL j p']> ls !! k = Some lk).
  { intros k lk Hk Ha. rewrite list_lookup_insert_ne; [done|]. intros <-. by simplify_eq. }
  destruct Hi. constructor; rewrite ?length_insert, ?(total_insert _ ls i _ _ Hl); try done.
  - intros k lk Hk. apply lookup_insert_cases in Hk as [[<- ->]|[_ Hk]]; [|by eauto]. cbn. split_and!; try lia.
    intros Hw'. destruct (waits p) eqn:E; auto.
  - intros Hf. destruct (bv_waiting0 Hf). unfold late at 2 3. cbn. lia.
  - intros Hf. destruct (bv_flips0 Hf) as (H1 & (k & lk & Hk & Ha) & H3). split_and!; [|by eauto|done].
    intros k' lk' Hk'. apply lookup_insert_cases in Hk' as [[<- ->]|[_ Hk']]; [|by eauto]. by apply (H1 i _ Hl).
  - intros k lk keys Hk Hq'. apply lookup_insert_cases in Hk as [[<- ->]|[Hne Hk]]; [by auto|].
    destruct (Hq k ltac:(done)) as [E|E]; rewrite E in Hq'; [by eauto|]. left. by simplify_eq.
  - intros k lk Hk Hs Hq' Hov. apply lookup_insert_cases in Hk as [[<- ->]|[Hne Hk]].
    + assert (flips ws) as Hf by (destruct Hov; auto). destruct (bv_flips0 Hf) as (_ & (k & lk & Hk & Ha) & _).
      exists k, lk. split; [by auto|by left].
    + destruct (Hq k ltac:(done)) as [E|E]; rewrite E in Hq'; [|done].
      destruct (bv_wake0 k lk Hk Hs Hq' Hov) as (k' & lk' & Hk' & Ha).
      destruct (decide (k' = i)) as [->|Hne']; [|exists k', lk'; by rewrite list_lookup_insert_ne].
      rewrite Hl in Hk'. injection Hk' as <-. destruct Ha as [|Ha]; [done|]. cbn in Ha.
      destruct (Hwk Ha) as [|Hno]; [by eauto|]. destruct (Hno k). by rewrite E.
  - intros k lk Hk. apply lookup_insert_cases in Hk as [[<- ->]|[Hne Hk]]; [done|].
    unfold seen_ok. destruct (Hev k ltac:(done)) as [-> ->]. by apply bv_seen0.
  - destruct bv_serial0 as [S1 S2]. split; intros Hf; [specialize (S1 Hf)|specialize (S2 Hf)]; lia.
Qed.

(** A mark. *)
Definition says (p : stage) (i : nat) (p' : stage) (e : pevent) : Prop :=
  p = Away ∧ p' = Come ∧ e = Enter i ∨ p = Telling ∧ p' = Through ∧ e = Serial i ∨
  p = Through ∧ p' = Away ∧ e = Leave i.
Lemma wpb_mark i j p p' e (Q : unit → gl → Prop) :
  says p i p' e → Q tt (GL None (BL j p')) → wpb i (mark e) Q (GL None (BL j p)).
Proof.
  intros He HQ. apply wpg_note. intros ls m ws qs es Hl [G Hi]. exists (BL j p'). split; [exists G|done].
  pose proof (bv_queue _ _ _ _ _ _ Hi i (BL j p)) as Hq. destruct (bv_seen _ _ _ _ _ _ Hi i _ Hl) as [Hc Hg]. unfold comes, goes in Hc, Hg.
  eapply binv_stage; try done; try (by destruct He as [(-> & -> & ->)|[(-> & -> & ->)|(-> & -> & ->)]]); [by left| | | |].
  - intros keys Hk. destruct (Hq keys Hl Hk) as [|[_ []]]; [by left|..];
      by destruct He as [(-> & -> & ->)|[(-> & -> & ->)|(-> & -> & ->)]].
  - intros k Hk. unfold comes, goes. rewrite !times_snoc.
    destruct He as [(-> & -> & ->)|[(-> & -> & ->)|(-> & -> & ->)]]; rewrite !decide_False by congruence; lia.
  - unfold seen_ok, comes, goes. rewrite !times_snoc, Hc, Hg.
    destruct He as [(-> & -> & ->)|[(-> & -> & ->)|(-> & -> & ->)]]; repeat case_decide; simplify_eq; cbn; lia.
  - rewrite serials_app. by destruct He as [(-> & -> & ->)|[(-> & -> & ->)|(-> & -> & ->)]]; cbn; lia.
Qed.

(** ** Waiting for the phase *)

(** The phase as a thread that was counted in round [j + 1] sees it: it has changed
    just when that round is complete. *)
Lemma phase_seen G ls m ws qs es i j p v :
  binv G ls m ws qs es → ls !! i = Some (BL (j + 1) p) → peeked m ws PH v →
  (v ≠ j mod 2 → j + 1 <= G ∨ flips ws) ∧ (v = j mod 2 → j + 1 <= G → flips ws).
Proof.
  intros Hi Hl Hv. destruct (bv_joins _ _ _ _ _ _ Hi i _ Hl) as (Hj & _ & _). cbn in Hj.
  destruct (bv_phase _ _ _ _ _ _ Hi) as [_ Hp]. destruct Hv as [-> | Hv].
  - rewrite Hp. destruct (decide (j = G)) as [->|]; [split; [done|lia]|].
    split; [left; lia|]. intros Hm. replace j with (G - 1) in Hm by lia.
    exfalso. pose proof (Z.div_mod G 2). pose proof (Z.div_mod (G - 1) 2). lia.
  - pose proof (flips_stored ws v Hv). auto.
Qed.

(** Between looking, the queue and sleep. *)
Lemma binv_wait G ls m ws qs qs' es i j p p' :
  binv G ls m ws qs es → ls !! i = Some (BL j p) → waits p = true → waits p' = true →
  (p' = Sleeping → j <= G → flips ws) → length qs' = length qs →
  (∀ k, k ≠ i → qs' !! k = qs !! k) → (∀ keys, qs' !! i = Some keys → queue_ok (BL j p') keys) →
  binv G (<[i := BL j p']> ls) m ws qs' es.
Proof.
  intros Hi Hl Hp Hp' Hs Hlen Hq Hqi. destruct (bv_seen _ _ _ _ _ _ Hi i _ Hl) as [Hc Hg].
  eapply binv_stage; try done; try (by destruct p); try (by destruct p').
  - intros k Hk. left. by apply Hq.
  - split; [rewrite Hc|rewrite Hg]; by destruct p, p'.
  - by destruct p, p'.
Qed.

Lemma wpb_wait i j Q :
  (∀ kr, Q kr (GL None (BL (j + 1) Looking))) →
  wpb i (_pthread_futex_wait PH (j mod 2) false) Q (GL None (BL (j + 1) Looking)).
Proof.
  intros HQ.
  apply (wpg_wait _ _ _ _ _ _ _ _ _ _ _ (λ l, l = BL (j + 1) Queued) (λ l, l = BL (j + 1) Sleeping)).
  - by apply bool_decide_eq_true_2.
  - auto.
  - intros ls m ws qs es Hl Hlen Hq [G Hi]. eexists. split; [|done]. exists G.
    eapply binv_wait; try done; [apply length_insert|by intros; apply list_lookup_insert_ne|].
    intros keys. rewrite list_lookup_insert_eq by (by eapply lookup_lt_Some). intros [= <-]. right. auto.
  - intros l1 ls m ws qs es w -> Hl Hlen [G Hi] _ _. eexists. split; [|by apply HQ]. exists G.
    eapply binv_wait; try done; [apply length_insert|by intros; apply list_lookup_insert_ne|].
    intros keys. rewrite list_lookup_insert_eq; [intros [= <-]; by left|]. rewrite Hlen. by eapply lookup_lt_Some.
  - intros l1 ls m ws qs es -> Hl Hlen [G Hi] Hp. eexists. split; [|done]. exists G.
    destruct (phase_seen _ _ _ _ _ _ _ _ _ _ Hi Hl Hp) as [_ Hs].
    eapply binv_wait; try done; [by auto|]. intros keys Hk.
    destruct (bv_queue _ _ _ _ _ _ Hi i _ keys Hl Hk) as [|[? _]]; [by left|right; auto].
  - by intros l3 ->.
  - intros l3 ls m ws qs es -> Hl Hlen Hq [G Hi]. eexists. split; [|by apply HQ]. exists G.
    eapply binv_wait; try done. intros keys Hk. left. congruence.
  - intros kr l3 ls m ws qs es -> Hl Hlen _ [G Hi]. eexists. split; [|by apply HQ]. exists G.
    eapply binv_wait; try done; [apply length_insert|by intros; apply list_lookup_insert_ne|].
    intros keys. rewrite list_lookup_insert_eq; [intros [= <-]; by left|]. rewrite Hlen. by eapply lookup_lt_Some.
Qed.

Lemma phase_loop_ok i fuel j Q :
  Q ESUCCESS (GL None (BL (j + 1) Through)) → wpb i (phase_loop barrier fuel (j mod 2)) Q (GL None (BL (j + 1) Looking)).
Proof.
  intros HQ. induction fuel as [|fuel IH]; [apply wpg_trying|]. cbn [phase_loop].
  apply wpg_bind, wpg_peek; [by apply bool_decide_eq_true_2|]. intros ls m ws qs es v Hl [G Hi] Hv. case_decide as Hp.
  - eexists. rewrite list_insert_id by exact Hl. split; [by exists G|]. by apply wpg_bind, wpb_wait.
  - eexists. split; [|exact HQ]. exists G. destruct (bv_seen _ _ _ _ _ _ Hi i _ Hl) as [Hc Hg].
    destruct (phase_seen _ _ _ _ _ _ _ _ _ _ Hi Hl Hv) as [Hover _].
    eapply binv_stage; try done; [by auto|by left|]. intros keys Hk.
    destruct (bv_queue _ _ _ _ _ _ Hi i _ keys Hl Hk) as [|[_ []]]; [by left|done..].
Qed.

(** The one that flipped the phase wakes the others. *)
Lemma wpb_wake i j (Q : unit → gl → Prop) :
  Q tt (GL None (BL j Telling)) → wpb i (_pthread_futex_wake_all PH) Q (GL None (BL j Waking)).
Proof.
  intros HQ. apply wpg_wake_all. intros ls m ws qs es Hl Hlen [G Hi]. eexists. split; [|exact HQ]. exists G.
  assert (Hoff : ∀ k keys, taken_off (wake_all PH) qs !! k = Some keys → keys = []).
  { intros k keys (q & Hq & ->)%taken_off_lookup. unfold wake_all. case_bool_decide as Hin; [done|].
    destruct (lookup_lt_is_Some_2 ls k) as [lk Hk]; [rewrite <- Hlen; by eapply lookup_lt_Some|].
    destruct (bv_queue _ _ _ _ _ _ Hi k lk q Hk Hq) as [|[-> _]]; [done|]. destruct Hin. by left. }
  eapply binv_stage; try done.
  - apply length_imap.
  - intros k Hk. destruct (taken_off _ qs !! k) as [keys|] eqn:E; [right; by rewrite (Hoff k keys E)|].
    left. unfold taken_off in E. rewrite list_lookup_imap in E. by destruct (qs !! k).
  - intros keys Hk. left. by eapply Hoff.
  - intros _. right. intros k Hk. by apply Hoff in Hk.
  - by destruct (bv_seen _ _ _ _ _ _ Hi i _ Hl).
Qed.

(** ** Arriving *)

Lemma late_range G l : 0 <= late G l <= 1.
Proof. unfold late. case_decide; lia. Qed.

(** A thread at the barrier that holds the lock is in round [G + 1]. *)
Lemma round_of G ls m ws qs es i j :
  binv G ls m ws qs es → ls !! i = Some (BL j Come) → ¬ flips ws →
  j = G ∧ 0 <= m WT < Z.of_nat n ∧ (∀ keys, qs !! i = Some keys → keys = []).
Proof.
  intros Hi Hl Hf. destruct (bv_joins _ _ _ _ _ _ Hi i _ Hl) as (H1 & _ & H2). destruct (bv_waiting _ _ _ _ _ _ Hi Hf) as [H3 H4].
  pose proof (total_range (late G) ls (λ _ _ _, late_range _ _)). split_and!; [cbn in *; destruct H2; [done|lia|done]|lia|lia|].
  intros keys Hk. by destruct (bv_queue _ _ _ _ _ _ Hi i _ keys Hl Hk) as [|[_ []]].
Qed.

(** It is counted. *)
Lemma binv_join G ls m m' ws qs es i j :
  binv G ls m ws qs es → ls !! i = Some (BL j Come) → ¬ flips ws → j + 1 <= rounds →
  m' PH = m PH → m' WT = m WT + 1 → m' WT < Z.of_nat n →
  binv G (<[i := BL (j + 1) Looking]> ls) m' [] qs es.
Proof.
  intros Hi Hl Hf Hr Hph Hwt Hlt. destruct (round_of _ _ _ _ _ _ _ _ Hi Hl Hf) as (-> & _ & Hq).
  assert (Hold : late G (BL G Come) = 0 ∧ late G (BL (G + 1) Looking) = 1) by (unfold late; cbn; repeat case_decide; lia).
  destruct Hi. constructor; rewrite ?length_insert, ?(total_insert _ ls i _ _ Hl), ?Hph; try done.
  - intros k lk Hk. apply lookup_insert_cases in Hk as [[<- ->]|[_ Hk]]; [cbn; split_and!; [lia..|done]|].
    destruct (bv_joins0 k lk Hk) as (H1 & H2 & H3). split_and!; [lia..|]. intros Hw. destruct (H3 Hw); [by left|done].
  - intros _. destruct (bv_waiting0 Hf). lia.
  - by intros ?%not_flips_nil.
  - intros k lk keys Hk Hq'. apply lookup_insert_cases in Hk as [[<- ->]|[_ Hk]]; [left; by auto|by eauto].
  - intros k lk Hk Hs Hq' Hov. apply lookup_insert_cases in Hk as [[<- ->]|[_ Hk]]; [done|].
    destruct (bv_wake0 k lk Hk Hs Hq') as (k' & lk' & Hk' & Ha).
    { destruct Hov as [|[]%not_flips_nil]. by left. }
    exists k', lk'. rewrite list_lookup_insert_ne; [done|]. intros <-. simplify_eq. by destruct Ha.
  - intros k lk Hk. apply lookup_insert_cases in Hk as [[<- ->]|[_ Hk]]; [|by auto].
    destruct (bv_seen0 i _ Hl) as [Hc Hg]. cbn in Hc, Hg. split; cbn; lia.
  - destruct bv_serial0 as [_ Hs]. specialize (Hs Hf). split; [by intros ?%not_flips_nil|]. cbn. lia.
Qed.

(** It is the last one, and stores the phase. *)
Lemma all_late G ls i l : total (late G) ls = Z.of_nat (length ls) - 1 → ls !! i = Some l → late G l = 0 →
  ∀ k lk, ls !! k = Some lk → k ≠ i → joins lk = G + 1.
Proof.
  intros Ht Hl H0 k lk Hk Hne. destruct (decide (joins lk = G + 1)) as [|Hj]; [done|exfalso].
  set (up := BL (G + 1) Away).
  assert (Hup : late G up = 1) by (unfold late; cbn; by rewrite decide_True).
  assert (Hlk : late G lk = 0) by (unfold late; by rewrite decide_False).
  pose proof (total_insert (late G) ls i l up Hl). 
  pose proof (total_insert (late G) (<[i := up]> ls) k lk up ltac:(by rewrite list_lookup_insert_ne)).
  pose proof (total_range (late G) (<[k := up]> (<[i := up]> ls)) (λ _ _ _, late_range _ _)) as Hr.
  rewrite !length_insert in Hr. lia.
Qed.
Lemma binv_flip G ls m ws qs es i j v :
  binv G ls m ws qs es → ls !! i = Some (BL j Come) → ¬ flips ws → j + 1 <= rounds →
  m WT + 1 = Z.of_nat n → v = (if decide (m PH = 0) then 1 else 0) →
  binv G (<[i := BL (j + 1) Flipping]> ls) m (ws ++ [(PH, v)]) qs es.
Proof.
  intros Hi Hl Hf Hr Hwt Hv. destruct (round_of _ _ _ _ _ _ _ _ Hi Hl Hf) as (-> & _ & Hq).
  assert (Hold : late G (BL G Come) = 0) by (unfold late; cbn; by rewrite decide_False by lia).
  assert (Hf' : flips (ws ++ [(PH, v)])) by (apply (flips_stored _ v), elem_of_app; right; by left).
  assert (Hnew : <[i := BL (G + 1) Flipping]> ls !! i = Some (BL (G + 1) Flipping)) by (by rewrite list_lookup_insert_eq by (by eapply lookup_lt_Some)).
  destruct Hi. assert (Hall : ∀ k lk, <[i := BL (G + 1) Flipping]> ls !! k = Some lk → joins lk = G + 1).
  { intros k lk Hk. apply lookup_insert_cases in Hk as [[<- ->]|[Hne Hk]]; [done|].
    destruct (bv_waiting0 Hf). apply (all_late G ls i _ ltac:(lia) Hl Hold k lk Hk). congruence. }
  constructor; rewrite ?length_insert, ?(total_insert _ ls i _ _ Hl); try done.
  - intros k lk Hk. rewrite (Hall k lk Hk). split_and!; [lia..|by right].
  - intros _. split_and!; [done|by eauto|]. intros w Hin. apply elem_of_app in Hin as [Hin|Hin].
    + destruct Hf. by eapply flips_stored.
    + apply list_elem_of_singleton in Hin as [= ->]. destruct bv_phase0 as [_ Hp]. rewrite Hv, Hp. clear Hv.
      pose proof (Z.div_mod G 2). pose proof (Z.div_mod (G + 1) 2).
      pose proof (Z.mod_pos_bound G 2). pose proof (Z.mod_pos_bound (G + 1) 2). case_decide; lia.
  - intros k lk keys Hk Hq'. apply lookup_insert_cases in Hk as [[<- ->]|[_ Hk]]; [left; by auto|by eauto].
  - intros k lk _ _ _ _. exists i. eexists. split; [done|by left].
  - intros k lk Hk. apply lookup_insert_cases in Hk as [[<- ->]|[_ Hk]]; [|by auto].
    destruct (bv_seen0 i _ Hl) as [Hc Hg]. cbn in Hc, Hg. split; cbn; lia.
  - destruct bv_serial0 as [_ Hs]. specialize (Hs Hf). split; [|done]. intros _. cbn. lia.
Qed.
(** Its unlock completes the round. *)
Lemma binv_complete G ls m m' ws qs es i j v :
  binv G ls m ws qs es → ls !! i = Some (BL j Flipping) → (PH, v) ∈ ws → m' PH = v → m' WT = 0 →
  binv (G + 1) (<[i := BL j Waking]> ls) m' [] qs es.
Proof.
  intros Hi Hl Hin Hph Hwt. pose proof (flips_stored ws v Hin) as Hf. destruct Hi.
  destruct (bv_flips0 Hf) as (Hall & _ & Hv).
  assert (Hall' : ∀ k lk, <[i := BL j Waking]> ls !! k = Some lk → joins lk = G + 1).
  { intros k lk Hk. apply lookup_insert_cases in Hk as [[<- ->]|[_ Hk]]; [|by eauto]. exact (Hall i _ Hl). }
  assert (Hz : total (late (G + 1)) (<[i := BL j Waking]> ls) = 0).
  { pose proof (total_range (late (G + 1)) (<[i := BL j Waking]> ls) (λ _ _ _, late_range _ _)).
    destruct (decide (0 < total (late (G + 1)) (<[i := BL j Waking]> ls))) as [Hp|]; [|lia].
    destruct (total_pos _ _ Hp) as (k & lk & Hk & Hp'). unfold late in Hp'. rewrite (Hall' k lk Hk) in Hp'. case_decide; lia. }
  constructor; rewrite ?length_insert, ?Hz, ?(total_insert untold ls i _ _ Hl); try done.
  - rewrite Hph, (Hv v Hin). lia.
  - intros k lk Hk. rewrite (Hall' k lk Hk). split_and!; [lia..| |left; lia].
    apply lookup_insert_cases in Hk as [[<- ->]|[_ Hk]]; [destruct (bv_joins0 i _ Hl) as (_ & ? & _)|destruct (bv_joins0 k lk Hk) as (_ & ? & _)].
    + pose proof (Hall i _ Hl). cbn in *. lia.
    + by rewrite <- (Hall k lk Hk).
  - intros _. lia.
  - by intros ?%not_flips_nil.
  - intros k lk keys Hk Hq'. apply lookup_insert_cases in Hk as [[<- ->]|[_ Hk]]; [|by eauto].
    by destruct (bv_queue0 i _ keys Hl Hq') as [|[_ []]]; [left|..].
  - intros k lk _ _ _ _. exists i, (BL j Waking). rewrite list_lookup_insert_eq by (by eapply lookup_lt_Some). split; [done|by right].
  - intros k lk Hk. apply lookup_insert_cases in Hk as [[<- ->]|[_ Hk]]; [|by auto]. by destruct (bv_seen0 i _ Hl).
  - destruct bv_serial0 as [Hs _]. specialize (Hs Hf). split; [by intros ?%not_flips_nil|]. cbn in *. lia.
Qed.

(** ** The operation *)

Lemma br_lk_plain : br_guarded (Br barrier B_LOCK) = false ∧ br_const (Br barrier B_LOCK) = None.
Proof. done. Qed.
Lemma br_guarded_var x : br_guarded x = true → br_const x = None.
Proof. by destruct x as [| |p []| | | | | | |]. Qed.
Lemma br_field f : f = WAITING ∨ f = PHASE → br_guarded (Br barrier f) = true.
Proof. intros [-> | ->]; by apply bool_decide_eq_true_2. Qed.

Lemma wpb_ld i f m0 ws Q l :
  f = WAITING ∨ f = PHASE → Q (view m0 ws (Br barrier f)) (GL (Some (m0, ws)) l) → wpb i (ld (Br barrier f)) Q (GL (Some (m0, ws)) l).
Proof. intros Hf. apply wpg_ld. by apply br_field. Qed.
Lemma wpb_sto i v m0 ws (Q : unit → gl → Prop) l :
  Q tt (GL (Some (m0, ws ++ [(WT, v)])) l) → wpb i (sto WT v) Q (GL (Some (m0, ws)) l).
Proof.
  intros HQ. apply wpg_sto; [apply br_lk_plain|apply br_guarded_var|apply br_field; by left|].
  intros ls qs es Hl [G Hi]. exists l. rewrite list_insert_id by done. split; [exists G; by apply binv_stored|done].
Qed.
Lemma not_flips_count v : ¬ flips [(WT, v)].
Proof. unfold flips. cbn. by intros ?%list_elem_of_singleton. Qed.
Lemma not_flips_reset v w : ¬ flips [(WT, v); (WT, w)].
Proof. unfold flips. cbn. by intros [|?%list_elem_of_singleton]%elem_of_cons. Qed.

Section wait.
Context (i : nat) (j : Z) (m0 : ploc → Z) (Q : Z → @gl bl → Prop).
Hypothesis Hr : j + 1 <= rounds.
Abbreviation ws1 := [(WT, m0 WT +32 1)].

Lemma count_small G ls qs es ws : 
  binv G ls m0 ws qs es → ls !! i = Some (BL j Come) → ¬ flips ws → m0 WT +32 1 = m0 WT + 1 ∧ m0 WT < Z.of_nat n.
Proof.
  intros Hi Hl Hf. destruct (round_of _ _ _ _ _ _ _ _ Hi Hl Hf) as (_ & Hw & _).
  split; [|lia]. apply u32_small. unfold is_u32. lia.
Qed.

(** Not the last one: it counts itself and waits. *)
Lemma wait_others fuel :
  m0 WT +32 1 ≠ Z.of_nat n → Q ESUCCESS (GL None (BL (j + 1) Through)) →
  wpb i (_spin_unlock (Br barrier B_LOCK);; phase_loop barrier fuel (m0 PH)) Q (GL (Some (m0, ws1)) (BL j Come)).
Proof.
  intros Hne HQ. apply wpg_bind, wpg_unlock; [apply Binv_ext|apply br_lk_plain|]. intros ls qs es Hl [G Hi].
  pose proof (not_flips_count (m0 WT +32 1)) as Hf. destruct (count_small _ _ _ _ _ Hi Hl Hf) as [Hs Hlt].
  destruct (round_of _ _ _ _ _ _ _ _ Hi Hl Hf) as (-> & _). destruct (bv_phase _ _ _ _ _ _ Hi) as [_ Hp].
  exists (BL (G + 1) Looking). split; [exists G|rewrite Hp; by apply phase_loop_ok].
  eapply binv_join; [done..| | |]; words; [done|done|lia].
Qed.

(** The last one: it flips the phase and wakes the others. *)
Lemma wait_last :
  m0 WT +32 1 = Z.of_nat n → Q PTHREAD_BARRIER_SERIAL_THREAD (GL None (BL (j + 1) Telling)) →
  wpb i (sto WT 0;; sto PH (if decide (m0 PH = 0) then 1 else 0);; _spin_unlock (Br barrier B_LOCK);;
         _pthread_futex_wake_all PH;; mret PTHREAD_BARRIER_SERIAL_THREAD) Q (GL (Some (m0, ws1)) (BL j Come)).
Proof.
  intros Heq HQ. apply wpg_bind, wpb_sto. pose proof (not_flips_reset (m0 WT +32 1) 0) as Hf.
  apply wpg_bind, wpg_sto; [apply br_lk_plain|apply br_guarded_var|apply br_field; by right|]. intros ls qs es Hl [G Hi].
  destruct (count_small _ _ _ _ _ Hi Hl Hf) as [Hs _].
  exists (BL (j + 1) Flipping). split; [exists G; apply binv_flip; [done..|lia|done]|].
  clear ls qs es Hl G Hi. apply wpg_bind, wpg_unlock; [apply Binv_ext|apply br_lk_plain|]. intros ls qs es Hl [G Hi].
  exists (BL (j + 1) Waking). split; [exists (G + 1)|by apply wpg_bind, wpb_wake].
  eapply binv_complete; [done..| | |]; [apply elem_of_app; right; by left| |]; by words.
Qed.
End wait.

Lemma barrier_wait_ok tries fuel i j Q :
  j + 1 <= rounds → Q ESUCCESS (GL None (BL (j + 1) Through)) →
  Q PTHREAD_BARRIER_SERIAL_THREAD (GL None (BL (j + 1) Telling)) →
  wpb i (pthread_barrier_wait tries barrier fuel) Q (GL None (BL j Come)).
Proof.
  intros Hr HQ HQ'. apply wpg_bind, (wpg_const _ _ _ _ _ _ _ _PTHREAD_BARRIER_SIG); [cbn; by rewrite decide_True|].
  rewrite decide_False by tauto. apply wpg_bind, wpg_lock; [done|]. intros m0.
  apply wpg_bind, wpb_ld; [by right|]. apply wpg_bind, wpb_ld; [by left|]. apply wpg_bind, wpb_sto.
  apply wpg_bind, wpb_ld; [by left|]. apply wpg_bind, (wpg_const _ _ _ _ _ _ _ (Z.of_nat n)); [cbn; by rewrite decide_True|].
  words. case_decide; [by apply wait_last|by apply wait_others].
Qed.
Lemma participant_ok tries fuel i k j :
  j + Z.of_nat k = rounds →
  wpb i (participant tries fuel barrier i k) (λ _ g, g = GL None (BL rounds Away)) (GL None (BL j Away)).
Proof.
  revert j. induction k as [|k IH]; intros j Hj; cbn [participant]; [apply wpg_ret; do 2 f_equal; lia|].
  apply wpg_bind, (wpb_mark _ _ _ Come); [by left|]. apply wpg_bind, barrier_wait_ok; [lia|..].
  - rewrite decide_False by done. apply wpg_bind, wpg_ret, wpg_bind, (wpb_mark _ _ _ Away); [right; by right|]. apply IH. lia.
  - rewrite decide_True by done. apply wpg_bind, (wpb_mark _ _ _ Through); [right; by left|].
    apply wpg_bind, (wpb_mark _ _ _ Away); [right; by right|]. apply IH. lia.
Qed.
End barrier.

(** ** The system *)

Section system.
Context (tries fuel : nat) (barrier : Z) (m : ploc → Z) (n rounds : nat).
Hypothesis Hn : (1 <= n)%nat ∧ Z.of_nat n < 2 ^ 32.
Abbreviation start := (barrier_start tries fuel barrier (Z.of_nat n) m n rounds).
Abbreviation ghosts := (replicate n (@GL bl None (BL 0 Away))).

Lemma barrier_init_word f :
  memory start (Br barrier f) =
    match f with B_SIG => _PTHREAD_BARRIER_SIG | COUNT => Z.of_nat n | _ => 0 end.
Proof.
  cbn [barrier_start memory]. unfold pthread_barrier_init. rewrite decide_False by lia.
  destruct f; cbn; by rewrite ?upd_other, ?upd_same by done.
Qed.
Lemma barrier_start_thread i t :
  threads start !! i = Some t → t = Thread [] (Run (participant tries fuel barrier i rounds)).
Proof.
  cbn. rewrite list_lookup_fmap. intros (k & [-> _]%lookup_seq & ->)%fmap_Some. done.
Qed.

Lemma barrier_start_inv :
  GInv (Br barrier B_LOCK) (br_guarded barrier) (br_const barrier n) (Binv barrier n (Z.of_nat rounds)) ghosts (shared_of start).
Proof.
  assert (Hg : ∀ i g, ghosts !! i = Some g → g = GL None (BL 0 Away)) by (by intros i g [-> _]%lookup_replicate).
  assert (Hl : ∀ i l, (known <$> ghosts) !! i = Some l → l = BL 0 Away).
  { intros i l. rewrite list_lookup_fmap. by intros (g & ->%Hg & ->)%fmap_Some. }
  apply ginv_start; cbn [shared_of s_mem s_bufs s_queue s_evs].
  - cbn. by rewrite !length_fmap, length_seq, length_replicate.
  - cbn. by rewrite !length_fmap, length_seq, length_replicate.
  - intros [| |p []| | | | | | |] v Hv; cbn in Hv; try done; (case_decide; [|done]); injection Hv as <-; subst p; apply barrier_init_word.
  - intros i b. rewrite list_lookup_fmap. by intros (t & ->%barrier_start_thread & ->)%fmap_Some.
  - by intros i g ->%Hg.
  - apply barrier_init_word.
  - exists 0. constructor; rewrite ?barrier_init_word; try done.
    + by rewrite length_fmap, length_replicate.
    + intros i l ->%Hl. cbn. lia.
    + intros _. rewrite fmap_replicate. unfold late. split; [|lia]. clear. cbn. by induction n.
    + by intros ?%not_flips_nil.
    + intros i l keys _. rewrite list_lookup_fmap. intros (t & ->%barrier_start_thread & ->)%fmap_Some. by left.
    + by intros i l ->%Hl.
    + by intros i l ->%Hl.
    + split; [by intros ?%not_flips_nil|]. intros _. rewrite fmap_replicate. clear. cbn. by induction n.
Qed.

Lemma barrier_sound c :
  rtc step start c →
  ∃ gs, sound (GInv (Br barrier B_LOCK) (br_guarded barrier) (br_const barrier n) (Binv barrier n (Z.of_nat rounds))) (Parked sleeping)
    (λ _ o g, match o with Some _ => g = GL None (BL (Z.of_nat rounds) Away) | None => True end) gs c.
Proof.
  eapply sound_reachable; [intros; by apply guard_flush; [apply Binv_ext|..]|].
  split_and!; [apply barrier_start_inv|cbn; by rewrite length_fmap, length_seq, length_replicate|].
  intros i t g ->%barrier_start_thread [-> _]%lookup_replicate. cbn. by apply participant_ok.
Qed.
End system.

(** What the invariant says of the trace. *)
Lemma binv_separates barrier n rounds G ls m ws qs es i j :
  binv barrier n rounds G ls m ws qs es → (i < n)%nat → (j < n)%nat → goes es i <= comes es j.
Proof.
  intros [] Hi Hj. destruct (lookup_lt_is_Some_2 ls i) as [li Hli]; [lia|].
  destruct (lookup_lt_is_Some_2 ls j) as [lj Hlj]; [lia|].
  destruct (bv_seen0 i li Hli) as [_ ->], (bv_seen0 j lj Hlj) as [-> _].
  destruct (bv_joins0 i li Hli) as (H1 & _ & H2), (bv_joins0 j lj Hlj) as (H3 & _ & _).
  assert (0 <= coming (at_ lj)) by (by destruct (at_ lj)).
  assert (0 <= counted (at_ li)) by (by destruct (at_ li)).
  destruct (waits (at_ li)) eqn:Hw.
  - assert (counted (at_ li) = 1) by (by destruct (at_ li)). lia.
  - destruct (H2 eq_refl) as [|Hf]; [lia|]. destruct (bv_flips0 Hf) as (Hall & _).
    pose proof (Hall i li Hli). pose proof (Hall j lj Hlj). lia.
Qed.

(** C16. No one leaves before all have come.  At a barrier for [n] threads, [n] threads
    meet any number of times.  In every reachable configuration of the x86-TSO
    machine, whatever the traps return, no thread has left the barrier more often than
    any other has come to it. *)
Theorem barrier_separates tries fuel barrier m n rounds c i j :
  (1 <= n)%nat ∧ Z.of_nat n < 2 ^ 32 →
  rtc step (barrier_start tries fuel barrier (Z.of_nat n) m n rounds) c →
  (i < n)%nat → (j < n)%nat → goes (events c) i <= comes (events c) j.
Proof.
  intros Hn Hr Hi Hj. destruct (barrier_sound tries fuel barrier m n rounds Hn c Hr) as (gs & HG & _).
  destruct (ginv_committed _ _ _ _ _ _ _ _ _ HG) as (m0 & ws & [G HB] & _). by eapply binv_separates.
Qed.

(** If every thread is done or asleep, none is asleep, and all rounds are complete. *)
Lemma binv_settled barrier n rounds G ls m ws qs es :
  (1 <= n)%nat → binv barrier n rounds G ls m ws qs es →
  (∀ i l, ls !! i = Some l → l = BL rounds Away ∨ at_ l = Sleeping ∧ qs !! i = Some [Br barrier PHASE]) →
  (∀ i l, ls !! i = Some l → l = BL rounds Away) ∧ serials es = rounds.
Proof.
  intros Hn [] Hset.
  assert (Hno : ∀ i l, ls !! i = Some l → ¬ waker l).
  { intros i l Hl [Ha|Ha]; destruct (Hset i l Hl) as [-> |[Hs _]]; cbn in *; congruence. }
  assert (Hf : ¬ flips barrier ws).
  { intros Hf. destruct (bv_flips0 Hf) as (_ & (i & l & Hl & Ha) & _). by destruct (Hno i l Hl); left. }
  assert (Haway : ∀ i, ls !! i = Some (BL rounds Away) → G = rounds).
  { intros i Hl. destruct (bv_joins0 i _ Hl) as (H1 & _ & H2). cbn in *. destruct H2; [done|lia|done]. }
  assert (Hsleep : ∀ i l, ls !! i = Some l → at_ l = Sleeping → joins l = G + 1 ∧ G < rounds).
  { intros i l Hl Ha. destruct (bv_joins0 i l Hl) as (H1 & H2 & _). destruct (Hset i l Hl) as [-> |[_ Hq]]; [done|].
    destruct (decide (joins l <= G)) as [Hle|]; [|lia].
    destruct (bv_wake0 i l Hl Ha Hq (or_introl Hle)) as (k & lk & Hk & Hw). by destruct (Hno k lk Hk). }
  assert (Hall : ∀ i l, ls !! i = Some l → l = BL rounds Away).
  { intros i l Hl. destruct (Hset i l Hl) as [|[Ha _]]; [done|exfalso]. destruct (Hsleep i l Hl Ha) as [_ Hlt].
    destruct (bv_waiting0 Hf) as [Ht Hw]. rewrite (total_const _ _ 1) in Ht; [lia|]. intros k lk Hk.
    destruct (Hset k lk Hk) as [-> |[Hak _]]; [apply Haway in Hk; lia|]. unfold late.
    by rewrite decide_True by (by apply (Hsleep k lk)). }
  split; [done|]. destruct bv_serial0 as [_ Hs]. specialize (Hs Hf).
  rewrite (total_const _ _ 0) in Hs by (by intros i l ->%Hall).
  destruct (lookup_lt_is_Some_2 ls 0) as [l Hl]; [lia|]. rewrite (Hall _ _ Hl) in Hl. apply Haway in Hl. lia.
Qed.

(** C17. No thread is left behind, and one of each round is the serial one.  At a barrier
    for [n] threads, once each of the [n] threads has finished or sleeps in the futex
    without having been woken, all have finished; and the barrier has told a thread
    that it is the serial one just as many times as there were rounds. *)
Theorem barrier_no_deadlock tries fuel barrier m n rounds c :
  (1 <= n)%nat ∧ Z.of_nat n < 2 ^ 32 →
  rtc step (barrier_start tries fuel barrier (Z.of_nat n) m n rounds) c →
  Forall (λ t, is_done t ∨ is_asleep t) (threads c) →
  Forall (λ t, is_done t) (threads c) ∧ serials (events c) = Z.of_nat rounds.
Proof.
  intros Hn Hr Hall. destruct (barrier_sound tries fuel barrier m n rounds Hn c Hr) as (gs & HG & Hlen & Hts).
  destruct (ginv_committed _ _ _ _ _ _ _ _ _ HG) as (m0 & ws & [G HB] & _). cbn in HB.
  assert (Hset : ∀ i t, threads c !! i = Some t → ∃ l, (known <$> gs) !! i = Some l ∧
    (is_done t ∧ l = BL (Z.of_nat rounds) Away ∨ at_ l = Sleeping ∧ (queue_of <$> threads c) !! i = Some [Br barrier PHASE])).
  { intros i t Ht. destruct (lookup_lt_is_Some_2 gs i) as [g Hg]; [rewrite Hlen; by eapply lookup_lt_Some|].
    exists (known g). split; [by apply known_lookup|]. specialize (Hts i t g Ht Hg).
    assert (Hqt : (queue_of <$> threads c) !! i = Some (queue_of t)) by (by rewrite list_lookup_fmap, Ht). rewrite Hqt.
    pose proof (bv_queue _ _ _ _ _ _ _ _ _ HB i (known g) (queue_of t) (known_lookup _ _ _ Hg) Hqt) as Hq.
    pose proof (Forall_lookup_1 _ _ _ _ Hall Ht) as Hda.
    unfold is_done, is_asleep, queue_of in *. destruct t as [b [[[]| | | | | | |]|keys [|] [] tm k]]; cbn in *; try naive_solver.
    destruct Hts as (Hk & (_ & Hsl) & _). right. by destruct Hq as [|[-> _]]. }
  destruct (binv_settled _ _ _ _ _ _ _ _ _ (proj1 Hn) HB) as [Haway Hs].
  { intros i l Hl. destruct (lookup_lt_is_Some_2 (threads c) i) as [t Ht].
    { rewrite <- Hlen, <- (length_fmap known). by eapply lookup_lt_Some. }
    destruct (Hset i t Ht) as (l' & Hl' & Hd). simplify_eq. naive_solver. }
  split; [|done]. apply list.Forall_forall. intros t Ht. apply list_elem_of_lookup_1 in Ht as [i Ht].
  destruct (Hset i t Ht) as (l & Hl & [[? _]|[Ha _]]); [done|]. apply Haway in Hl. by subst l.
Qed.
