(* ===== verification/PthreadRuns.v ===== *)
(** * libpthreads: concrete runs

    Schedules of the machine of Tso.v that show the mutex and the read-write lock at
    work; a run in which the set-up of a statically initialised mutex lets two threads
    in; one in which a writer that gives up leaves a reader asleep at a free lock; and
    one in which a barrier leaves a thread behind. *)

From S2P Require Import Prelude Mach Tso Pthread PthreadMutex PthreadGuard PthreadRwlock PthreadBarrier.

(** ** Three threads at one mutex *)

Definition a_memory : ploc → Z := λ _, 0.
Definition recursive_attr : option pthread_mutexattr :=
  Some (MutexAttr _PTHREAD_MUTEX_ATTR_SIG 0 0 PTHREAD_MUTEX_RECURSIVE PTHREAD_MUTEX_STALLED).
Definition three_start :=
  mutex_start 8 recursive_attr a_memory 2 3
    [[Lock; TryLock]; [TimedLock (10, 0) [(3, 0); (4, 0)]]; [TryLock; Lock]].

(** The first thread is in the section and the other two have gone to sleep; all have
    come to their end. *)
Definition three_inside : config := drive 300 2 (drive 200 1 (drive 22 0 three_start)).
Definition three_end : config := drive 300 2 (drive 300 1 (drive 300 0 three_inside)).

Lemma three_inside_steps : rtc step three_start three_inside.
Proof. unfold three_inside. do 2 (etransitivity; [|apply drive_steps]). apply drive_steps. Qed.
Lemma three_end_steps : rtc step three_start three_end.
Proof.
  etransitivity; [apply three_inside_steps|]. unfold three_end.
  do 2 (etransitivity; [|apply drive_steps]). apply drive_steps.
Qed.
Lemma three_ready : plain recursive_attr ∧ fresh_threads a_memory.
Proof. done. Qed.

Lemma mutex_exclusion_witness :
  in_section (events three_inside) = [0%nat] ∧ is_asleep <$> threads three_inside = [false; true; true] ∧
  (length (in_section (events three_inside)) <= 1)%nat.
Proof.
  split_and!; [by vm_compute..|].
  exact (proj1 (mutex_exclusion 8 recursive_attr a_memory 2 3 _ _ ltac:(done) (proj1 three_ready)
    (proj2 three_ready) three_inside_steps)).
Defined.

Lemma all_done : Forall (λ t, is_done t ∨ is_asleep t) (threads three_end).
Proof.
  eapply (list.Forall_impl (λ t, Is_true (is_done t))); [apply forallb_True; by vm_compute|by left].
Qed.
Lemma mutex_no_deadlock_witness :
  memory three_end DATA = 4 ∧ Forall (λ t, is_done t) (threads three_end).
Proof.
  split; [by vm_compute|].
  exact (mutex_no_deadlock 8 recursive_attr a_memory 2 3 _ _ ltac:(done) (proj1 three_ready)
    (proj2 three_ready) three_end_steps all_done).
Defined.

(** ** A statically initialised mutex *)

(** PTHREAD_MUTEX_INITIALIZER sets the signature and leaves the rest zero. *)
Definition static_memory : ploc → Z :=
  upd a_memory (Mx 8 SIG) _PTHREAD_MUTEX_SIG_init.
Definition static_start : @config ploc pevent (option unit) :=
  Config static_memory (imap (λ i rs, Thread [] (Run (locker 2 3 8 i rs))) [[Lock]; [Lock]]) [].

(** The second thread has read the signature when the first sets up the mutex, locks
    it and reads the shared word; the second sets it up again, and finds it free. *)
Definition static_both : config := drive 47 1 (drive 48 0 (drive 1 1 static_start)).
Definition static_end : config := drive 300 0 (drive 300 1 static_both).

(** Static initialisation does not exclude.  Two threads whose first operation is
    [pthread_mutex_lock] on a mutex set to PTHREAD_MUTEX_INITIALIZER both run
    [pthread_mutex_init] from within it, without synchronisation, and the second one
    resets the state word of a mutex that is locked.  There is a run in which both
    threads are in the section at once; when both are done one of the two increments
    is lost. *)
Theorem static_init_race :
  rtc step static_start static_both ∧ in_section (events static_both) = [1%nat; 0%nat] ∧
  rtc step static_both static_end ∧ is_done <$> threads static_end = [true; true] ∧
  left_section (events static_end) = 2 ∧ memory static_end DATA = 1.
Proof.
  split_and!; [| by vm_compute| |by vm_compute..].
  - unfold static_both. do 2 (etransitivity; [|apply drive_steps]). apply drive_steps.
  - unfold static_end. etransitivity; [|apply drive_steps]. apply drive_steps.
Qed.

(** ** Four threads at one read-write lock *)

Definition four_users : list (list rreq) :=
  [[RdLock; TryWr]; [WrLock]; [RdLock; TimedRd (9, 0) [(2, 0)]]; [TryRd]].
Definition four_start := rw_start 16 a_memory 2 3 four_users.
(** Two readers are in the section; a writer is asleep behind them, and behind it a
    third reader. *)
Definition four_inside : config := drive 100 2 (drive 100 1 (drive 9 3 (drive 9 0 four_start))).
Definition four_end : config :=
  drive 200 2 (drive 200 1 (drive 100 3 (drive 100 0 four_inside))).

Lemma four_inside_steps : rtc step four_start four_inside.
Proof. unfold four_inside. do 3 (etransitivity; [|apply drive_steps]). apply drive_steps. Qed.
Lemma four_end_steps : rtc step four_start four_end.
Proof.
  etransitivity; [apply four_inside_steps|]. unfold four_end.
  do 3 (etransitivity; [|apply drive_steps]). apply drive_steps.
Qed.

Lemma rwlock_exclusion_witness :
  shared_section (events four_inside) = [3%nat; 0%nat] ∧
  is_asleep <$> threads four_inside = [false; true; true; false] ∧
  (in_section (events four_inside) = [] ∨ shared_section (events four_inside) = []).
Proof.
  split_and!; [by vm_compute..|].
  exact (proj2 (rwlock_exclusion 16 a_memory 2 3 four_users _ ltac:(done) ltac:(done) four_inside_steps)).
Defined.

Lemma four_done : Forall (λ t, is_done t ∨ is_asleep t) (threads four_end).
Proof.
  eapply (list.Forall_impl (λ t, Is_true (is_done t))); [apply forallb_True; by vm_compute|by left].
Qed.
Lemma rwlock_no_deadlock_witness : Forall (λ t, is_done t) (threads four_end).
Proof.
  exact (rwlock_no_deadlock 16 a_memory 2 3 four_users _ ltac:(done) ltac:(done) ltac:(by repeat constructor)
    four_end_steps four_done).
Defined.

(** ** Configurations at rest *)

(** The thread is done or asleep, and has no stores under way. *)
Definition at_rest {A} (t : @thread ploc pevent (option A)) : bool :=
  (is_done t || is_asleep t) && bool_decide (buf t = []).
(** If all are, nothing happens but that a trap returns without a wake-up. *)
Definition only_returns {A} (c : @config ploc pevent (option A)) : Prop :=
  ∀ a c', perform a c = Some c' → ∃ i kr, a = Return i kr.

Lemma at_rest_exec {A} (t : @thread ploc pevent (option A)) m : at_rest t = true → exec m t = None ∧ buf t = [].
Proof.
  unfold at_rest, is_done, is_asleep, exec. intros [Hd ->%bool_decide_eq_true_1]%andb_true_iff. split; [|done].
  destruct (st t) as [[[]| | | | | | |]|? [|[]] [] ? ?]; by cbn in *.
Qed.
Lemma at_rest_only_returns {A} (c : @config ploc pevent (option A)) : forallb at_rest (threads c) → only_returns c.
Proof.
  intros Hall. assert (Hr : ∀ i t, threads c !! i = Some t → at_rest t = true).
  { intros i t Ht. apply forallb_True in Hall. by apply Is_true_true, (Forall_lookup_1 _ _ _ _ Hall Ht). }
  intros a c' Ha. destruct a as [i|i j|i|i kr]; [..|by eauto]; cbn in Ha;
    (destruct (threads c !! i) as [t|] eqn:Ht; [|done]); destruct (at_rest_exec t (memory c) (Hr i t Ht)) as [He Hb]; cbn in Ha.
  - by rewrite He in Ha.
  - destruct (threads c !! j); [|done]. cbn in Ha. by rewrite He in Ha.
  - by rewrite Hb in Ha.
Qed.

(** The event [a], if it can happen. *)
Definition attempt {A} (a : act) (c : @config ploc pevent (option A)) : config := default c (perform a c).
Lemma attempt_steps {A} a (c : @config ploc pevent (option A)) : rtc step c (attempt a c).
Proof. unfold attempt. destruct (perform a c) as [c'|] eqn:E; [|done]. apply rtc_once. by exists a. Qed.

(** ** A writer that gives up *)

(** A reader is in the section, a writer with a deadline waits for it, and a second
    reader waits for the writer.  The deadline passes, and the first reader leaves. *)
Definition giving_up_start :=
  rw_start 16 a_memory 2 3 [[RdLock]; [TimedWr (10, 0) [(3, 0)]]; [RdLock]].
Definition giving_up_wait : config := drive 100 2 (drive 100 1 (drive 9 0 giving_up_start)).
Definition giving_up_late : config :=
  attempt (Return 1 KERN_OPERATION_TIMED_OUT) giving_up_wait.
Definition giving_up_end : config := drive 100 0 (drive 100 1 giving_up_late).

(** A writer that gives up strands readers.  [pthread_rwlock_timedwrlock] counts its
    caller among the blocked writers while it waits, which holds readers back, and on
    a timeout takes it out of the count without waking them; and an unlock wakes
    readers only if it is the writer's, or if a writer is waiting.  There is a run at
    whose end the lock is free, no thread waits for writing and all other threads are
    done, while a reader sleeps in the futex, and no step is left that could wake it. *)
Theorem timed_writer_strands_readers :
  rtc step giving_up_start giving_up_end ∧
  is_done <$> threads giving_up_end = [true; true; false] ∧
  is_asleep <$> threads giving_up_end = [false; false; true] ∧
  memory giving_up_end (Rw 16 READERS) = 0 ∧ memory giving_up_end (Rw 16 WRITER) = 0 ∧
  memory giving_up_end (Rw 16 BLOCKED_WRITERS) = 0 ∧ only_returns giving_up_end.
Proof.
  split_and!; [|by vm_compute..|apply at_rest_only_returns; by vm_compute].
  unfold giving_up_end. do 2 (etransitivity; [|apply drive_steps]).
  etransitivity; [|apply attempt_steps]. unfold giving_up_wait.
  do 2 (etransitivity; [|apply drive_steps]). apply drive_steps.
Qed.

(** ** Three threads at a barrier for three *)

Definition meet_start : config := barrier_start 2 5 32 3 a_memory 3 2.
(** The first two wait for the third; the third has come, and the first two have left
    the first round. *)
Definition meet_first : config := drive 100 1 (drive 100 0 (drive 16 2 (drive 100 1 (drive 100 0 meet_start)))).
Definition meet_end : config := drive 200 1 (drive 200 0 (drive 200 2 meet_first)).
Lemma meet_first_steps : rtc step meet_start meet_first.
Proof. unfold meet_first. do 4 (etransitivity; [|apply drive_steps]). apply drive_steps. Qed.
Lemma meet_end_steps : rtc step meet_start meet_end.
Proof.
  etransitivity; [apply meet_first_steps|]. unfold meet_end.
  do 2 (etransitivity; [|apply drive_steps]). apply drive_steps.
Qed.
Lemma three_at_most : (1 <= 3)%nat ∧ Z.of_nat 3 < 2 ^ 32.
Proof. lia. Qed.

Lemma barrier_separates_witness :
  goes (events meet_first) 0 = 1 ∧ comes (events meet_first) 2 = 1 ∧
  goes (events meet_first) 0 <= comes (events meet_first) 2.
Proof.
  split_and!; [by vm_compute..|].
  exact (barrier_separates 2 5 32 a_memory 3 2 meet_first 0 2 three_at_most meet_first_steps ltac:(lia) ltac:(lia)).
Defined.

Lemma meet_done : Forall (λ t, is_done t ∨ is_asleep t) (threads meet_end).
Proof.
  eapply (list.Forall_impl (λ t, Is_true (is_done t))); [apply forallb_True; by vm_compute|by left].
Qed.
Lemma barrier_no_deadlock_witness : Forall (λ t, is_done t) (threads meet_end) ∧ serials (events meet_end) = 2.
Proof. exact (barrier_no_deadlock 2 5 32 a_memory 3 2 meet_end three_at_most meet_end_steps meet_done). Defined.

(** ** More threads at a barrier than it is for *)

Definition crowd_start : config := barrier_start 2 3 32 2 a_memory 4 1.
(** The first thread has counted itself and released the spin lock.  The second one
    completes the first round, the third and the fourth a second one.  Then the first
    looks at the phase. *)
Definition crowd_first : config := drive 10 0 crowd_start.
Definition crowd_end : config :=
  drive 100 0 (drive 100 2 (drive 100 3 (drive 100 2 (drive 100 1 crowd_first)))).

(** A barrier can leave a thread behind.  The phase of a barrier is one bit, and a
    thread waits until it reads the other value.  With more threads than the barrier
    is for, two rounds can pass before a slow thread of the first one looks: at a
    barrier for two, four threads meet in pairs, everybody else is done, and the first
    thread sleeps for ever although its round was complete. *)
Theorem barrier_leaves_behind :
  rtc step crowd_start crowd_end ∧
  events crowd_end = [Enter 0; Enter 1; Serial 1; Leave 1; Enter 2; Enter 3; Serial 3; Leave 3; Leave 2] ∧
  is_done <$> threads crowd_end = [false; true; true; true] ∧
  is_asleep <$> threads crowd_end = [true; false; false; false] ∧
  memory crowd_end (Br 32 WAITING) = 0 ∧ only_returns crowd_end.
Proof.
  split_and!; [|by vm_compute..|apply at_rest_only_returns; by vm_compute].
  unfold crowd_end. do 5 (etransitivity; [|apply drive_steps]). apply drive_steps.
Qed.

(** ** Deadlines *)

Definition nanoseconds (t : timespec) : Z := t.1 * 1000000000 + t.2.
Definition is_time (t : timespec) : Prop := 0 <= t.1 < 2 ^ 31 ∧ 0 <= t.2 < 1000000000.

Lemma remaining_spec d nsec :
  -2147483648 <= d < 2147483648 → 0 <= nsec < 1000000000 →
  match (if decide (s32 (u32 d) < 0 ∨ u32 d = 0 ∧ nsec = 0) then None else Some (u32 d, nsec)) with
  | None => d * 1000000000 + nsec <= 0
  | Some r => 0 < nanoseconds r ∧ nanoseconds r = d * 1000000000 + nsec ∧
      (r.1 < 4294967 → remaining_ms r = Z.max 1 (nanoseconds r / 1000000))
  end.
Proof.
  intros Hd Hn. rewrite s32_u32 by done. destruct (decide (0 <= d)) as [H0|H0]; [|rewrite decide_True by lia; lia].
  rewrite u32_small by (unfold is_u32; lia). case_decide as Hz; [lia|]. unfold nanoseconds. cbn [fst snd].
  split_and!; [lia|done|]. intros Hs. unfold remaining_ms. cbn [fst snd].
  rewrite (u32_small (d * 1000)) by (unfold is_u32; lia).
  assert (Hdiv : (d * 1000000000 + nsec) / 1000000 = d * 1000 + nsec / 1000000).
  { replace (d * 1000000000) with (d * 1000 * 1000000) by lia. rewrite Z.add_comm, Z.div_add by lia. lia. }
  rewrite Hdiv. assert (0 <= nsec / 1000000 < 1000) by (split; [apply Z.div_pos|apply Z.div_lt_upper_bound]; lia).
  rewrite u32_small by (unfold is_u32; lia). case_decide; lia.
Qed.

(** Deadlines.  For points of time before 2038 the relative wait computed from an
    absolute deadline is exact to the nanosecond, and is refused just when the
    deadline has passed.  The timeout handed to the trap is that wait in milliseconds,
    at least 1, as long as it is below 4294967 seconds; above, the product wraps
    modulo 2^32, so that a deadline 4294968 seconds ahead is given 704 ms and the
    call reports a timeout that has not happened. *)
Theorem deadline_spec abstime now :
  is_time abstime → is_time now →
  match remaining abstime now with
  | None => nanoseconds abstime <= nanoseconds now
  | Some r => 0 < nanoseconds r ∧ nanoseconds r = nanoseconds abstime - nanoseconds now ∧
      (r.1 < 4294967 → remaining_ms r = Z.max 1 (nanoseconds r / 1000000))
  end ∧ remaining_ms (4294968, 0) = 704.
Proof.
  intros [Ha Ha'] [Hn Hn']. split; [|done]. unfold remaining.
  case_decide as Hb; rewrite ?u32_sub_l.
  - pose proof (remaining_spec (abstime.1 - now.1 - 1) (abstime.2 - now.2 + 1000000000) ltac:(lia) ltac:(lia)) as Hr.
    revert Hr. case_decide; [unfold nanoseconds; lia|]. intros (H1 & H2 & H3).
    split_and!; [done|rewrite H2; unfold nanoseconds; lia|done].
  - pose proof (remaining_spec (abstime.1 - now.1) (abstime.2 - now.2) ltac:(lia) ltac:(lia)) as Hr.
    revert Hr. case_decide; [unfold nanoseconds; lia|]. intros (H1 & H2 & H3).
    split_and!; [done|rewrite H2; unfold nanoseconds; lia|done].
Qed.
Lemma deadline_spec_witness : nanoseconds (5, 1) <= nanoseconds (5, 1) ∧ remaining_ms (4294968, 0) = 704.
Proof.
  assert (is_time (5, 1)) as Ht by (unfold is_time; cbn; lia).
  exact (deadline_spec (5, 1) (5, 1) Ht Ht).
Defined.
