(* ===== verification/PthreadThread.v ===== *)
(** * libpthreads: threads

    The end of a thread and its join, detaching, cancellation, the pool of parked
    threads and one-time initialisation (pthread.c), as programs of the machine of
    Tso.v.  What the kernel does to start a new thread is not modelled; a thread that is
    taken from the pool is. *)

From S2P Require Import Prelude Mach Tso Pthread.

Definition PTHREAD_CREATE_JOINABLE : Z := 1.
Definition PTHREAD_CREATE_DETACHED : Z := 2.
Definition _PTHREAD_EXITED : Z := 3.
Definition PTHREAD_CANCEL_ENABLE : Z := 1.
Definition PTHREAD_CANCEL_DISABLE : Z := 0.
Definition PTHREAD_CANCEL_DEFERRED : Z := 2.
Definition PTHREAD_CANCEL_ASYNCHRONOUS : Z := 0.
Definition _PTHREAD_CANCEL_STATE_MASK : Z := 254.
Definition _PTHREAD_CANCEL_TYPE_MASK : Z := 253.
Definition _PTHREAD_CANCEL_PENDING : Z := 16.
Definition _PTHREAD_ONCE_SIG : Z := 1330529093.
Definition _PTHREAD_ONCE_SIG_init : Z := 816954554.
Definition _THREAD_POOL_MAX : Z := 8.

Section thread.
Context (tries : nat).

(** ** Detaching and joining *)

(** A new generation of the joiners' word, under the lock of the thread; who waits for
    the old one is woken afterwards. *)
Definition bump_joiners (t : Z) : T Z :=
  num_joiners ← ld (Th t NUM_JOINERS);
  joiners ← ld (Th t JOINERS);
  sto (Th t JOINERS) (joiners +32 1);;
  mret num_joiners.
Definition wake_joiners (t num_joiners : Z) : T unit :=
  if decide (0 < s32 num_joiners) then _pthread_futex_wake_all (Th t JOINERS) else mret tt.

Definition pthread_detach (thread : Z) : T Z :=
  sig ← ld (T_SIG thread);
  if decide (sig = _PTHREAD_SIG) then
    _spin_lock tries (Th thread T_LOCK);;
    detached ← ld (Th thread DETACHED);
    if decide (detached = PTHREAD_CREATE_JOINABLE) then
      sto (Th thread DETACHED) PTHREAD_CREATE_DETACHED;;
      num_joiners ← bump_joiners thread;
      _spin_unlock (Th thread T_LOCK);;
      wake_joiners thread num_joiners;;
      mret ESUCCESS
    else _spin_unlock (Th thread T_LOCK);; mret EINVAL
  else mret ESRCH.

(** What every join ends with, under the lock: harvest the value and release the
    thread, or go away empty-handed. *)
Definition harvest (thread : Z) : T (Z * option Z) :=
  detached ← ld (Th thread DETACHED);
  if decide (detached = _PTHREAD_EXITED) then
    num_joiners ← ld (Th thread NUM_JOINERS);
    if decide (num_joiners = 0) then
      value ← ld (Th thread EXIT_VALUE);
      _spin_unlock (Th thread T_LOCK);;
      sto (Th thread DEATH) 1;;
      _pthread_futex_wake_one (Th thread DEATH);;
      mret (ESUCCESS, Some value)
    else _spin_unlock (Th thread T_LOCK);; mret (ESRCH, None)
  else _spin_unlock (Th thread T_LOCK);; mret (EINVAL, None).

(** Register as a joiner, with the generation of the joiners' word. *)
Definition add_joiner (thread : Z) : T Z :=
  n ← ld (Th thread NUM_JOINERS);
  sto (Th thread NUM_JOINERS) (n +32 1);;
  j_snap ← ld (Th thread JOINERS);
  _spin_unlock (Th thread T_LOCK);;
  mret j_snap.
Definition drop_joiner (thread : Z) : T unit :=
  _spin_lock tries (Th thread T_LOCK);;
  n ← ld (Th thread NUM_JOINERS);
  sto (Th thread NUM_JOINERS) (n -32 1).

Definition pthread_join (thread : Z) : T (Z * option Z) :=
  sig ← ld (T_SIG thread);
  if decide (sig = _PTHREAD_SIG) then
    _spin_lock tries (Th thread T_LOCK);;
    detached ← ld (Th thread DETACHED);
    (if decide (detached = PTHREAD_CREATE_JOINABLE) then
       j_snap ← add_joiner thread;
       _pthread_futex_wait (Th thread JOINERS) j_snap false;;
       drop_joiner thread
     else mret tt);;
    harvest thread
  else mret (ESRCH, None).

(** The wait of [pthread_timedjoin_np]: a deadline that has passed is a timeout. *)
Definition timed_wait (thread j_snap : Z) (abstime now : timespec) : T Z :=
  match remaining abstime now with
  | None => mret KERN_OPERATION_TIMED_OUT
  | Some _ => _pthread_futex_wait (Th thread JOINERS) j_snap true
  end.
Definition pthread_timedjoin_np (thread : Z) (abstime : option timespec) (now : timespec) : T (Z * option Z) :=
  sig ← ld (T_SIG thread);
  if decide (sig ≠ _PTHREAD_SIG) then mret (ESRCH, None)
  else match abstime with None => mret (EINVAL, None) | Some abstime =>
    _spin_lock tries (Th thread T_LOCK);;
    detached ← ld (Th thread DETACHED);
    if decide (detached ≠ PTHREAD_CREATE_JOINABLE ∧ detached ≠ _PTHREAD_EXITED) then
      _spin_unlock (Th thread T_LOCK);; mret (EINVAL, None)
    else if decide (detached = PTHREAD_CREATE_JOINABLE) then
      j_snap ← add_joiner thread;
      kern_res ← timed_wait thread j_snap abstime now;
      drop_joiner thread;;
      detached ← ld (Th thread DETACHED);
      if decide (kern_res = KERN_OPERATION_TIMED_OUT ∧ detached ≠ _PTHREAD_EXITED) then
        _spin_unlock (Th thread T_LOCK);; mret (ETIMEDOUT, None)
      else harvest thread
    else harvest thread
  end.

(** ** The pool *)

(** Park the thread, if there is room, until a function is published for it: what it
    is to run then. *)
Definition _pthread_pool_park (self : Z) : T (option (Z * Z)) :=
  _spin_lock tries (Pool P_LOCK);;
  n ← ld (Pool P_COUNT);
  if decide (_THREAD_POOL_MAX <= s32 n) then _spin_unlock (Pool P_LOCK);; mret None
  else
    sto (Pool P_COUNT) (n +32 1);;
    k ← ld (Th self KERNEL_THREAD);
    sto (Pool (P_KERNEL_THREAD n)) k;;
    sto (Pool (P_SELF n)) self;;
    sto (Th self POOL_WAKE) 0;;
    _spin_unlock (Pool P_LOCK);;
    _pthread_futex_wait (Th self POOL_WAKE) 0 false;;
    fn ← ld (Th self FUN);
    arg ← ld (Th self ARG);
    mret (Some (fn, arg)).

Definition _pthread_pool_get : T (option (Z * Z)) :=
  _spin_lock tries (Pool P_LOCK);;
  n ← ld (Pool P_COUNT);
  if decide (n = 0) then _spin_unlock (Pool P_LOCK);; mret None
  else
    sto (Pool P_COUNT) (n -32 1);;
    thread ← ld (Pool (P_SELF (n -32 1)));
    kernel_thread ← ld (Pool (P_KERNEL_THREAD (n -32 1)));
    _spin_unlock (Pool P_LOCK);;
    mret (Some (thread, kernel_thread)).

(** [_pthread_create]: clear the structure and set it up. *)
Definition thread_fields : list tfield :=
  [T_LOCK; DETACHED; JOINERS; NUM_JOINERS; EXIT_VALUE; DEATH; KERNEL_THREAD; FUN; ARG; CANCEL_STATE; POOL_WAKE].
Definition memset_thread (t : Z) : T unit :=
  sto (T_SIG t) 0;;
  sto (T_MUTEXES t) 0;;
  foldr (λ f p, sto (Th t f) 0;; p) (mret tt) thread_fields.
Definition _pthread_create (t detached kernel_thread : Z) : T Z :=
  memset_thread t;;
  sto (Th t KERNEL_THREAD) kernel_thread;;
  sto (Th t DETACHED) detached;;
  sto (T_MUTEXES t) 0;;
  sto (T_SIG t) _PTHREAD_SIG;;
  sto (Th t T_LOCK) 0;;
  sto (Th t CANCEL_STATE) (Z.lor PTHREAD_CANCEL_ENABLE PTHREAD_CANCEL_DEFERRED);;
  sto (Th t DEATH) 0;;
  sto (Th t JOINERS) 0;;
  sto (Th t NUM_JOINERS) 0;;
  mret ESUCCESS.

(** [pthread_create] with a thread from the pool, if there is one. *)
Definition create_pooled (detached start_routine arg : Z) : T (option Z) :=
  o ← _pthread_pool_get;
  match o with
  | None => mret None
  | Some (t, kernel_thread) =>
      _pthread_create t detached kernel_thread;;
      sto (Th t ARG) arg;;
      sto (Th t FUN) start_routine;;
      wake ← ld (Th t POOL_WAKE);
      sto (Th t POOL_WAKE) (wake +32 1);;
      _pthread_futex_wake_one (Th t POOL_WAKE);;
      mret (Some t)
  end.

(** ** Exit *)

(** Wait for the joiner that harvests the value. *)
Fixpoint death_loop (fuel : nat) (self : Z) : T unit :=
  match fuel with
  | O => trying
  | S fuel =>
      death ← ld (Th self DEATH);
      if decide (death = 0) then _pthread_futex_wait (Th self DEATH) 0 false;; death_loop fuel self
      else mret tt
  end.
(** The part of [pthread_exit] between the clean-up handlers and the pool. *)
Definition publish_exit (fuel : nat) (self value_ptr : Z) : T unit :=
  _spin_lock tries (Th self T_LOCK);;
  detached ← ld (Th self DETACHED);
  if decide (detached = PTHREAD_CREATE_JOINABLE) then
    sto (Th self DETACHED) _PTHREAD_EXITED;;
    sto (Th self EXIT_VALUE) value_ptr;;
    num_joiners ← bump_joiners self;
    _spin_unlock (Th self T_LOCK);;
    wake_joiners self num_joiners;;
    death_loop fuel self
  else _spin_unlock (Th self T_LOCK).
(** [cleanup] stands for the handlers and destructors of the program.  [None]: the
    thread has terminated. *)
Definition pthread_exit (cleanup : T unit) (fuel : nat) (self value_ptr : Z) : T (option (Z * Z)) :=
  cleanup;;
  publish_exit fuel self value_ptr;;
  _pthread_pool_park self.

(** ** Cancellation *)

Definition pthread_cancel (thread : Z) : T Z :=
  sig ← ld (T_SIG thread);
  if decide (sig = _PTHREAD_SIG) then
    c ← ld (Th thread CANCEL_STATE);
    sto (Th thread CANCEL_STATE) (Z.lor c _PTHREAD_CANCEL_PENDING);;
    mret ESUCCESS
  else mret ESRCH.

(** [true]: the thread is to exit. *)
Definition cancelled (c : Z) : bool :=
  bool_decide (Z.land c (Z.lor PTHREAD_CANCEL_ENABLE _PTHREAD_CANCEL_PENDING) =
    Z.lor PTHREAD_CANCEL_ENABLE _PTHREAD_CANCEL_PENDING).
Definition _pthread_testcancel (thread : Z) : T bool :=
  _spin_lock tries (Th thread T_LOCK);;
  c ← ld (Th thread CANCEL_STATE);
  _spin_unlock (Th thread T_LOCK);;
  mret (cancelled c).

(** The two setters: the error, the old value, and whether the thread is to exit. *)
Definition set_cancel (self mask new : Z) (valid : bool) : T (Z * Z * bool) :=
  _spin_lock tries (Th self T_LOCK);;
  c ← ld (Th self CANCEL_STATE);
  (if valid then sto (Th self CANCEL_STATE) (Z.lor (Z.land c mask) new) else mret tt);;
  _spin_unlock (Th self T_LOCK);;
  die ← _pthread_testcancel self;
  mret (if valid then ESUCCESS else EINVAL, Z.land c mask, die).
Definition pthread_setcancelstate (self state : Z) : T (Z * Z * bool) :=
  set_cancel self _PTHREAD_CANCEL_STATE_MASK state
    (bool_decide (state = PTHREAD_CANCEL_ENABLE ∨ state = PTHREAD_CANCEL_DISABLE)).
Definition pthread_setcanceltype (self type : Z) : T (Z * Z * bool) :=
  set_cancel self _PTHREAD_CANCEL_TYPE_MASK type
    (bool_decide (type = PTHREAD_CANCEL_DEFERRED ∨ type = PTHREAD_CANCEL_ASYNCHRONOUS)).

(** ** One-time initialisation *)

Fixpoint once_wait (fuel : nat) (control : Z) : T Z :=
  match fuel with
  | O => trying
  | S fuel =>
      sig ← ld (Once control);
      if decide (sig = _PTHREAD_ONCE_SIG) then mret ESUCCESS else once_wait fuel control
  end.
Definition pthread_once (fuel : nat) (control : Z) (init_routine : T unit) : T Z :=
  state ← ld (Once control);
  if decide (state = _PTHREAD_ONCE_SIG) then mret ESUCCESS
  else
    won ←
      (if decide (state = _PTHREAD_ONCE_SIG_init) then
         old ← cmpxchg (Once control) _PTHREAD_ONCE_SIG_init _PTHREAD_NO_SIG;
         mret (bool_decide (old = _PTHREAD_ONCE_SIG_init))
       else mret false);
    if (won : bool) then
      init_routine;;
      sto (Once control) _PTHREAD_ONCE_SIG;;
      mret ESUCCESS
    else once_wait fuel control.
End thread.
