(* ===== verification/PthreadJoin.v ===== *)
(** * libpthreads: the end of a thread and its join

    One thread exits while any number of others join it, with and without a deadline.
    Shown: a join that succeeds returns the value of the exit; no joiner stays asleep;
    and the thread is let go just if a join has succeeded, which is so unless all
    joiners have given up before.

    Two invariants are used, each for the words it is about: the words under the lock of
    the thread, and the word by which the thread is released. *)

From S2P Require Import Prelude Mach Tso Pthread PthreadMutex PthreadGuard PthreadThread.

(** ** Clients *)

Inductive jreq := Join | TimedJoin (abstime now : timespec).

Section clients.
Context (tries fuel : nat) (th v : Z).
Definition joiner (r : jreq) : T (Z * option Z) :=
  match r with
  | Join => pthread_join tries th
  | TimedJoin abstime now => pthread_timedjoin_np tries th (Some abstime) now
  end.
Definition leaver : T (Z * option Z) := publish_exit tries fuel th v;; mret (ESUCCESS, None).
Definition join_start (m : ploc → Z) (kernel_thread : Z) (rs : list jreq) : @config ploc pevent (option (Z * option Z)) :=
  Config (solo m (_pthread_create th PTHREAD_CREATE_JOINABLE kernel_thread))
    (Thread [] (Run leaver) :: ((λ r, Thread [] (Run (joiner r))) <$> rs)) [].
End clients.

(** ** The words under the lock *)

(** The thread that exits: before, when it is to wake the joiners, and afterwards.  A
    joiner: not counted; counted, and awake, queued or asleep; it has taken the value,
    was too late, or has given up. *)
Inductive jl := Runs | Calls | Rests | Fresh | Reg | RegQ | RegS | Took | Missed | GaveUp.
#[global] Instance jl_eq_dec : EqDecision jl.
Proof. solve_decision. Defined.
Definition leaves (l : jl) : bool := match l with Runs | Calls | Rests => true | _ => false end.
Definition exited (l : jl) : bool := match l with Calls | Rests => true | _ => false end.
Definition counts (l : jl) : bool := match l with Reg | RegQ | RegS => true | _ => false end.
Definition reg (l : jl) : Z := if counts l then 1 else 0.

Section join.
Context (th v : Z).
Abbreviation DE := (Th th DETACHED).
Abbreviation JN := (Th th JOINERS).
Abbreviation NJ := (Th th NUM_JOINERS).
Abbreviation EV := (Th th EXIT_VALUE).
Abbreviation DH := (Th th DEATH).
Abbreviation LK := (Th th T_LOCK).

Definition th_guarded (x : ploc) : bool :=
  match x with Th t (DETACHED | JOINERS | NUM_JOINERS | EXIT_VALUE) => bool_decide (t = th) | _ => false end.
Definition th_const (x : ploc) : option Z :=
  match x with T_SIG t => if decide (t = th) then Some _PTHREAD_SIG else None | _ => None end.

Definition jqueue_ok (l : jl) (keys : list ploc) : Prop :=
  keys = [] ∨ keys = [JN] ∧ (l = RegQ ∨ l = RegS) ∨ keys = [DH] ∧ l = Rests.
(** The words, given where the exiting thread is. *)
Definition words_ok (l0 : jl) (m : ploc → Z) : Prop :=
  m DE = (if exited l0 then _PTHREAD_EXITED else PTHREAD_CREATE_JOINABLE) ∧
  m JN = (if exited l0 then 1 else 0) ∧ (exited l0 = true → m EV = v).

Record jinv (l0 : jl) (ls : list jl) (m : ploc → Z) (ws : list (ploc * Z)) (qs : list (list ploc))
    (es : list pevent) : Prop := {
  jv_size : Z.of_nat (length ls) < 2 ^ 31;
  jv_first : ls !! 0%nat = Some l0;
  jv_kind : ∀ i l, ls !! i = Some l → i = 0%nat ↔ leaves l = true;
  jv_words : words_ok l0 m;
  jv_num : m NJ = total reg ls;
  jv_stored : ∀ u, (JN, u) ∈ ws → u = 1;
  jv_queue : ∀ i l keys, ls !! i = Some l → qs !! i = Some keys → jqueue_ok l keys;
  jv_live : ∀ i, ls !! i = Some RegS → qs !! i = Some [JN] → exited l0 = true → l0 = Calls;
  jv_missed : ∀ i, ls !! i = Some Missed → exited l0 = true ∧ (0 < m NJ ∨ ∃ j, ls !! j = Some Took) }.
Definition Jinv (ls : list jl) (m : ploc → Z) (ws : list (ploc * Z)) (qs : list (list ploc)) (es : list pevent) : Prop :=
  ∃ l0, jinv l0 ls m ws qs es.
Definition jasleep (l : jl) : Prop := l = RegS ∨ l = Rests.
Abbreviation wpj := (wpg LK th_guarded th_const Jinv jasleep).

Lemma Jinv_ext ls m m' ws qs es :
  (∀ x, th_guarded x = true → m x = m' x) → Jinv ls m ws qs es → Jinv ls m' ws qs es.
Proof.
  intros Hm [l0 []]. exists l0.
  constructor; unfold words_ok in *; rewrite <- ?Hm by (cbn; by apply bool_decide_eq_true_2); done.
Qed.
Lemma reg_range l : 0 <= reg l <= 1.
Proof. unfold reg. case_match; lia. Qed.
Lemma jinv_num l0 ls m ws qs es i l :
  jinv l0 ls m ws qs es → ls !! i = Some l → reg l <= m NJ < 2 ^ 31.
Proof.
  intros [] Hl. rewrite jv_num0. split; [by apply (total_ge _ ls i l); [intros; apply reg_range|]|].
  pose proof (total_range reg ls (λ _ _ _, reg_range _)). lia.
Qed.
Lemma jinv_stored l0 ls m ws qs es x u : x ≠ JN → jinv l0 ls m ws qs es → jinv l0 ls m (ws ++ [(x, u)]) qs es.
Proof.
  intros Hx []. constructor; try done. intros w Hin. apply elem_of_app in Hin as [Hin|Hin]; [by auto|].
  apply list_elem_of_singleton in Hin as [= <- _]. done.
Qed.

(** A joiner changes what it is, with the count. *)
Lemma jinv_joiner l0 ls m m' ws ws' qs qs' es i l l' :
  jinv l0 ls m ws qs es → ls !! i = Some l → leaves l = false → leaves l' = false → l ≠ Took → l ≠ Missed →
  words_ok l0 m' → m' NJ = m NJ - reg l + reg l' → (∀ u, (JN, u) ∈ ws' → u = 1) → 
  (∀ k, k ≠ i → qs' !! k = qs !! k) → (∀ keys, qs' !! i = Some keys → jqueue_ok l' keys) →
  (l' = RegS → exited l0 = false) →
  (l' = Missed → exited l0 = true ∧ 0 < m' NJ) →
  (0 < m' NJ ∨ l' = Took ∨ exited l0 = false ∨ m' NJ = m NJ) →
  jinv l0 (<[i := l']> ls) m' ws' qs' es.
Proof.
  intros Hi Hl Hk Hk' Ht Hm Hw Hn Hws Hq Hqi Hs Hms Hc. destruct Hi.
  assert (Hi0 : i ≠ 0%nat) by (intros ->; by apply jv_kind0 in Hl as [Hl _]; rewrite Hl in Hk).
  constructor; rewrite ?length_insert, ?(total_insert _ ls i _ _ Hl); try done.
  - by rewrite list_lookup_insert_ne.
  - intros k lk Hlk. apply lookup_insert_cases in Hlk as [[<- ->]|[_ Hlk]]; [|by eauto]. split; [done|by rewrite Hk'].
  - lia.
  - intros k lk keys Hlk Hq'. apply lookup_insert_cases in Hlk as [[<- ->]|[Hne Hlk]]; [by auto|].
    rewrite Hq in Hq' by done. by eauto.
  - intros k Hlk Hq' He. apply lookup_insert_cases in Hlk as [[<- E]|[Hne Hlk]]; [by rewrite Hs in He|].
    rewrite Hq in Hq' by done. by eauto.
  - intros k Hlk. assert (Htook : (∃ j, ls !! j = Some Took) → ∃ j, <[i := l']> ls !! j = Some Took).
    { intros [j Hj]. exists j. rewrite list_lookup_insert_ne; [done|]. intros <-. congruence. }
    apply lookup_insert_cases in Hlk as [[<- E]|[Hne Hlk]]; [destruct Hms; [done|]; by auto|].
    destruct (jv_missed0 k Hlk) as [He Hor]. split; [done|].
    destruct Hc as [|[-> |[|Hsame]]]; [by left| |congruence|rewrite Hsame; destruct Hor; by auto].
    right. exists i. by rewrite list_lookup_insert_eq by (by eapply lookup_lt_Some).
Qed.
Lemma jinv_taken_off l0 ls m ws qs es p : jinv l0 ls m ws qs es → jinv l0 ls m ws (taken_off p qs) es.
Proof.
  intros []. constructor; try done.
  - intros i l keys Hl (q & Hq & ->)%taken_off_lookup. case_match; [by left|by eauto].
  - intros i Hl (q & Hq & Hk)%taken_off_lookup. case_match; [done|]. subst q. by eauto.
Qed.
Lemma jinv_awake l0 ls m ws qs es i l keys :
  jinv l0 ls m ws qs es → ls !! i = Some l → qs !! i = Some keys → l ≠ RegQ → l ≠ RegS → l ≠ Rests → keys = [].
Proof. intros Hi Hl Hq H1 H2 H3. by destruct (jv_queue _ _ _ _ _ _ Hi i l keys Hl Hq) as [|[[_ []]|[_ ?]]]. Qed.

(** ** Rules *)

Definition shared_field (f : tfield) : bool :=
  match f with DETACHED | JOINERS | NUM_JOINERS | EXIT_VALUE => true | _ => false end.
Lemma th_guarded_field f : shared_field f = true → th_guarded (Th th f) = true.
Proof. destruct f; try done; intros _; by apply bool_decide_eq_true_2. Qed.
Lemma th_guarded_var x : th_guarded x = true → th_const x = None.
Proof. by destruct x. Qed.
Lemma th_lk_plain : th_guarded LK = false ∧ th_const LK = None.
Proof. done. Qed.

Lemma wpj_ld i f m0 ws Q l :
  shared_field f = true → Q (view m0 ws (Th th f)) (GL (Some (m0, ws)) l) → wpj i (ld (Th th f)) Q (GL (Some (m0, ws)) l).
Proof. intros Hf. apply wpg_ld. by apply th_guarded_field. Qed.
Lemma wpj_sto i f u m0 ws (Q : unit → gl → Prop) l :
  shared_field f = true → f ≠ JOINERS → Q tt (GL (Some (m0, ws ++ [(Th th f, u)])) l) →
  wpj i (sto (Th th f) u) Q (GL (Some (m0, ws)) l).
Proof.
  intros Hf Hj HQ. apply wpg_sto; [apply th_lk_plain|apply th_guarded_var|by apply th_guarded_field|].
  intros ls qs es Hl [l0 Hi]. exists l. rewrite list_insert_id by done. split; [|done]. exists l0.
  apply jinv_stored; [congruence|done].
Qed.
Lemma wpj_unlock i m0 ws (Q : unit → gl → Prop) l :
  (∀ l0 ls qs es, ls !! i = Some l → jinv l0 ls m0 ws qs es →
     ∃ l', Jinv (<[i := l']> ls) (view m0 ws) [] qs es ∧ Q tt (GL None l')) →
  wpj i (_spin_unlock LK) Q (GL (Some (m0, ws)) l).
Proof.
  intros H. apply wpg_unlock; [apply Jinv_ext|apply th_lk_plain|]. intros ls qs es Hl [l0 Hi]. by eapply H.
Qed.
Lemma wpj_sig i Q g : Q _PTHREAD_SIG g → wpj i (ld (T_SIG th)) Q g.
Proof. apply wpg_const. cbn. by rewrite decide_True. Qed.

(** A joiner waits. *)
Lemma wpj_wait i tm Q :
  (∀ kr, Q kr (GL None Reg)) → wpj i (_pthread_futex_wait JN 0 tm) Q (GL None Reg).
Proof.
  intros HQ. assert (Hgo : ∀ l0 ls m ws qs keys es l l', jinv l0 ls m ws qs es → ls !! i = Some l → counts l = true → counts l' = true →
    length qs = length ls → (l' = RegS → exited l0 = false) → jqueue_ok l' keys → jinv l0 (<[i := l']> ls) m ws (<[i := keys]> qs) es).
  { intros l0 ls m ws qs keys es l l' Hi Hl Hc Hc' Hlen Hs Hk.
    eapply jinv_joiner; try done; try (by destruct l); try (by destruct l'); try apply (jv_words _ _ _ _ _ _ Hi); try apply (jv_stored _ _ _ _ _ _ Hi).
    - unfold reg. rewrite Hc, Hc'. lia.
    - by intros; apply list_lookup_insert_ne.
    - intros q. rewrite list_lookup_insert_eq; [by intros [= <-]|]. rewrite Hlen. by eapply lookup_lt_Some.
    - by do 3 right. }
  apply (wpg_wait _ _ _ _ _ _ _ _ _ _ _ (λ l, l = RegQ) (λ l, l = RegS)).
  - by apply th_guarded_field.
  - auto.
  - intros ls m ws qs es Hl Hlen _ [l0 Hi]. eexists. split; [|done]. exists l0. eapply Hgo; try done. right. left. by auto.
  - intros l1 ls m ws qs es w -> Hl Hlen [l0 Hi] _ _. eexists. split; [|by apply HQ]. exists l0. eapply Hgo; try done. by left.
  - intros l1 ls m ws qs es -> Hl Hlen [l0 Hi] Hp. eexists. split; [|done]. exists l0.
    destruct (lookup_lt_is_Some_2 qs i) as [keys Hk]; [rewrite Hlen; by eapply lookup_lt_Some|].
    rewrite <- (list_insert_id qs i keys Hk). eapply Hgo; try done.
    + intros _. destruct Hp as [Hp|Hp]; [|by apply (jv_stored _ _ _ _ _ _ Hi) in Hp].
      destruct (jv_words _ _ _ _ _ _ Hi) as (_ & Hj & _). destruct (exited l0); congruence.
    + destruct (jv_queue _ _ _ _ _ _ Hi i _ keys Hl Hk) as [|[[? _]|[_ ?]]]; [by left|right; left; by auto|done].
  - intros l3 ->. by left.
  - intros l3 ls m ws qs es -> Hl Hlen Hq [l0 Hi]. eexists. split; [|by apply HQ]. exists l0.
    rewrite <- (list_insert_id qs i [] Hq). eapply Hgo; try done. by left.
  - intros kr l3 ls m ws qs es -> Hl Hlen _ [l0 Hi]. eexists. split; [|by apply HQ]. exists l0. eapply Hgo; try done. by left.
Qed.

(** ** Joining *)

(** Where the end of a join starts: the caller has not waited, or has just taken
    itself out of the count. *)
Definition at_end (m0 : ploc → Z) (ws : list (ploc * Z)) (l : jl) : Prop :=
  ws = [] ∧ l = Fresh ∨ ws = [(NJ, m0 NJ -32 1)] ∧ l = Reg.
Lemma at_end_view m0 ws l : at_end m0 ws l →
  view m0 ws DE = m0 DE ∧ view m0 ws JN = m0 JN ∧ view m0 ws EV = m0 EV ∧ leaves l = false ∧ l ≠ Took ∧ l ≠ Missed ∧
  l ≠ RegQ ∧ l ≠ RegS ∧ l ≠ Rests.
Proof. intros [[-> ->]|[-> ->]]; [done|]. words. done. Qed.

(** Its commit. *)
Lemma end_commit l0 ls m0 ws qs es i l l' :
  jinv l0 ls m0 ws qs es → ls !! i = Some l → at_end m0 ws l → l' = Took ∨ l' = Missed ∨ l' = GaveUp →
  (l' = Missed → m0 DE = _PTHREAD_EXITED ∧ view m0 ws NJ ≠ 0) → (l' = GaveUp → m0 DE ≠ _PTHREAD_EXITED) →
  Jinv (<[i := l']> ls) (view m0 ws) [] qs es.
Proof.
  intros Hi Hl He Hl' Hm Hg. exists l0. destruct (at_end_view _ _ _ He) as (E1 & E2 & E3 & K1 & K2 & K3 & K4 & K5 & K6).
  destruct (jv_words _ _ _ _ _ _ Hi) as (W1 & W2 & W3). pose proof (jinv_num _ _ _ _ _ _ _ _ Hi Hl) as Hn.
  assert (Hv : view m0 ws NJ = m0 NJ - reg l ∧ 0 <= view m0 ws NJ).
  { destruct He as [[-> ->]|[-> ->]]; words; cbn in *; [lia|]. rewrite u32_small; unfold is_u32; lia. }
  eapply jinv_joiner; try done; try (by destruct Hl' as [-> |[-> | ->]]).
  - unfold words_ok. by rewrite E1, E2, E3.
  - assert (reg l' = 0) as -> by (by destruct Hl' as [-> |[-> | ->]]). lia.
  - by intros u ?%not_elem_of_nil.
  - intros keys Hk. left. by eapply jinv_awake.
  - intros HM. destruct (Hm HM) as [Hx Hne]. split; [|lia]. rewrite Hx in W1. by destruct (exited l0).
  - destruct Hl' as [-> |[HM| HG]]; [by auto|left; destruct (Hm HM); lia|]. specialize (Hg HG). rewrite W1 in Hg.
    destruct (exited l0); by auto.
Qed.

Lemma harvest_ok i m0 ws l Q :
  at_end m0 ws l → Q (ESUCCESS, Some v) (GL None Took) → Q (ESRCH, None) (GL None Missed) → Q (EINVAL, None) (GL None GaveUp) →
  wpj i (harvest th) Q (GL (Some (m0, ws)) l).
Proof.
  intros He Q1 Q2 Q3. destruct (at_end_view _ _ _ He) as (E1 & E2 & E3 & _).
  apply wpg_bind, wpj_ld; [done|]. rewrite E1. case_decide as Hx; cycle 1.
  { apply wpg_bind, wpj_unlock. intros l0 ls qs es Hl Hi. exists GaveUp. split; [|done]. eapply end_commit; try done; by auto. }
  apply wpg_bind, wpj_ld; [done|]. case_decide as H0; cycle 1.
  { apply wpg_bind, wpj_unlock. intros l0 ls qs es Hl Hi. exists Missed. split; [|done]. eapply end_commit; try done; by auto. }
  apply wpg_bind, wpj_ld; [done|]. rewrite E3. apply wpg_bind, wpj_unlock. intros l0 ls qs es Hl Hi. exists Took.
  split; [eapply end_commit; try done; by auto|].
  destruct (jv_words _ _ _ _ _ _ Hi) as (W1 & _ & W3). rewrite Hx in W1. rewrite W3 by (by destruct (exited l0)).
  clear ls qs es Hl Hi. apply wpg_bind, wpg_sto_free; [done..|]. apply wpg_bind, wpg_wake_one.
  - intros ls m ws' qs es j keys Hl _ [l1 Hi] _ _. exists Took. rewrite list_insert_id by done.
    split; [exists l1; by apply jinv_taken_off|done].
  - intros ls m ws' qs es Hl _ HJ _. exists Took. by rewrite list_insert_id.
Qed.

Lemma add_joiner_ok i m0 (Q : Z → gl → Prop) :
  m0 DE = PTHREAD_CREATE_JOINABLE → Q 0 (GL None Reg) → wpj i (add_joiner th) Q (GL (Some (m0, [])) Fresh).
Proof.
  intros Hd HQ. apply wpg_bind, wpj_ld; [done|]. apply wpg_bind, wpj_sto; [done..|]. apply wpg_bind, wpj_ld; [done|]. words.
  apply wpg_bind, wpj_unlock. intros l0 ls qs es Hl Hi. exists Reg. destruct (jv_words _ _ _ _ _ _ Hi) as (W1 & W2 & W3).
  assert (Hx : exited l0 = false) by (rewrite Hd in W1; by destruct (exited l0)). rewrite Hx in W2. rewrite W2.
  split; [|done]. exists l0. pose proof (jinv_num _ _ _ _ _ _ _ _ Hi Hl) as Hn. cbn in Hn.
  eapply jinv_joiner; try done; unfold words_ok; words; try rewrite W1; try rewrite W2; try rewrite Hx; try done.
  - cbn. rewrite u32_small by (unfold is_u32; lia). lia.
  - by intros u ?%not_elem_of_nil.
  - intros keys Hk. left. by eapply jinv_awake.
  - by auto.
Qed.
Lemma drop_joiner_ok i tries (Q : unit → gl → Prop) :
  (∀ m0, Q tt (GL (Some (m0, [(NJ, m0 NJ -32 1)])) Reg)) → wpj i (drop_joiner tries th) Q (GL None Reg).
Proof.
  intros HQ. apply wpg_bind, wpg_lock; [done|]. intros m0. apply wpg_bind, wpj_ld; [done|]. by apply wpj_sto.
Qed.

(** How a join ends. *)
Definition jpost (r : Z * option Z) (g : @gl jl) : Prop :=
  r = (ESUCCESS, Some v) ∧ g = GL None Took ∨ r = (ESRCH, None) ∧ g = GL None Missed ∨
  (r = (EINVAL, None) ∨ r = (ETIMEDOUT, None)) ∧ g = GL None GaveUp.
Lemma harvest_post i m0 ws l : at_end m0 ws l → wpj i (harvest th) jpost (GL (Some (m0, ws)) l).
Proof. intros He. apply harvest_ok; unfold jpost; by auto 6. Qed.
Lemma joiner_ok i tries r : wpj i (joiner tries th r) jpost (GL None Fresh).
Proof.
  destruct r as [|abstime now]; apply wpg_bind, wpj_sig.
  - rewrite decide_True by done. apply wpg_bind, wpg_lock; [done|]. intros m0. apply wpg_bind, wpj_ld; [done|]. words.
    case_decide as Hd; [|apply wpg_bind, wpg_ret, harvest_post; by left].
    apply wpg_bind, wpg_bind, add_joiner_ok; [done|]. apply wpg_bind, wpj_wait. intros kr.
    apply drop_joiner_ok. intros m1. apply harvest_post. by right.
  - rewrite decide_False by tauto. apply wpg_bind, wpg_lock; [done|]. intros m0. apply wpg_bind, wpj_ld; [done|]. words.
    case_decide as Hd.
    { apply wpg_bind, wpj_unlock. intros l0 ls qs es Hl Hi. exfalso. destruct (jv_words _ _ _ _ _ _ Hi) as (W1 & _).
      destruct (exited l0), Hd; congruence. }
    case_decide as Hd'; [|apply harvest_post; by left]. apply wpg_bind, add_joiner_ok; [done|].
    assert (Hend : ∀ kr, wpj i (drop_joiner tries th;; detached ← ld DE;
      if decide (kr = KERN_OPERATION_TIMED_OUT ∧ detached ≠ _PTHREAD_EXITED) then _spin_unlock LK;; mret (ETIMEDOUT, None)
      else harvest th) jpost (GL None Reg)).
    { intros kr. apply wpg_bind, drop_joiner_ok. intros m1. apply wpg_bind, wpj_ld; [done|]. words.
      case_decide as Hk; [|apply harvest_post; by right]. apply wpg_bind, wpj_unlock. intros l0 ls qs es Hl Hi.
      exists GaveUp. split; [eapply end_commit; try done; [by right|by auto|by intros _; apply Hk]|]. right. right. by auto. }
    unfold timed_wait. destruct (remaining abstime now); apply wpg_bind; [apply wpj_wait; intros kr; apply Hend|apply wpg_ret, Hend].
Qed.

(** ** Exit *)

Lemma leaver_is ls l0 m ws qs es i l : jinv l0 ls m ws qs es → ls !! i = Some l → leaves l = true → i = 0%nat ∧ l = l0.
Proof.
  intros Hi Hl Hk. assert (i = 0%nat) as -> by (by apply (jv_kind _ _ _ _ _ _ Hi _ _ Hl)).
  rewrite (jv_first _ _ _ _ _ _ Hi) in Hl. by injection Hl.
Qed.
(** The exit is published. *)
Lemma jinv_exit ls m m' ws qs es i :
  jinv Runs ls m ws qs es → ls !! i = Some Runs →
  m' DE = _PTHREAD_EXITED → m' JN = 1 → m' EV = v → m' NJ = m NJ →
  let l' := if decide (0 < m NJ) then Calls else Rests in jinv l' (<[i := l']> ls) m' [] qs es.
Proof.
  intros Hi Hl H1 H2 H3 H4 l'. destruct (leaver_is _ _ _ _ _ _ _ _ Hi Hl eq_refl) as [-> _].
  assert (Hk : leaves l' = true ∧ exited l' = true ∧ reg l' = 0) by (unfold l'; by case_decide).
  destruct Hk as (Hk1 & Hk2 & Hk3). destruct Hi.
  constructor; rewrite ?length_insert, ?(total_insert _ ls 0 _ _ Hl), ?H4; try done.
  - by rewrite list_lookup_insert_eq by (by eapply lookup_lt_Some).
  - intros k lk Hlk. apply lookup_insert_cases in Hlk as [[<- ->]|[_ Hlk]]; [done|by eauto].
  - split_and!; [by rewrite Hk2..|done].
  - cbn. lia.
  - by intros u ?%not_elem_of_nil.
  - intros k lk keys Hlk Hq. apply lookup_insert_cases in Hlk as [[<- ->]|[_ Hlk]]; [|by eauto].
    destruct (jv_queue0 0%nat _ keys Hl Hq) as [|[[_ []]|[_ ?]]]; [by left|done..].
  - intros k Hlk _ _. apply lookup_insert_cases in Hlk as [[<- E]|[_ Hlk]]; [by rewrite <- E in Hk1|].
    unfold l'. rewrite decide_True; [done|]. rewrite jv_num0.
    pose proof (total_ge reg ls k RegS (λ _ _ _, proj1 (reg_range _)) Hlk). cbn in *. lia.
  - intros k Hlk. apply lookup_insert_cases in Hlk as [[<- E]|[_ Hlk]]; [by rewrite <- E in Hk1|]. by destruct (jv_missed0 k Hlk).
Qed.
Lemma jinv_called ls m ws qs es i :
  jinv Calls ls m ws qs es → ls !! i = Some Calls → length qs = length ls →
  jinv Rests (<[i := Rests]> ls) m ws (taken_off (wake_all JN) qs) es.
Proof.
  intros Hi Hl Hlen. destruct (leaver_is _ _ _ _ _ _ _ _ Hi Hl eq_refl) as [-> _]. destruct Hi.
  constructor; rewrite ?length_insert, ?(total_insert _ ls 0 _ _ Hl); try done.
  - by rewrite list_lookup_insert_eq by (by eapply lookup_lt_Some).
  - intros k lk Hlk. apply lookup_insert_cases in Hlk as [[<- ->]|[_ Hlk]]; [done|by eauto].
  - cbn. lia.
  - intros k lk keys Hlk (q & Hq & ->)%taken_off_lookup. case_match; [by left|].
    apply lookup_insert_cases in Hlk as [[<- ->]|[_ Hlk]]; [|by eauto].
    destruct (jv_queue0 0%nat _ q Hl Hq) as [|[[_ []]|[_ ?]]]; [by left|done..].
  - intros k Hlk (q & Hq & Hk)%taken_off_lookup. unfold wake_all in Hk. case_bool_decide as Hin; [done|]. subst q.
    destruct Hin. by left.
  - intros k Hlk. apply lookup_insert_cases in Hlk as [[<- E]|[_ Hlk]]; [done|]. destruct (jv_missed0 k Hlk) as [? [|[j Hj]]].
    + by auto.
    + split; [done|right]. exists j. rewrite list_lookup_insert_ne; [done|]. intros <-. congruence.
Qed.

Lemma death_loop_ok i fuel (Q : unit → gl → Prop) : Q tt (GL None Rests) → wpj i (death_loop fuel th) Q (GL None Rests).
Proof.
  intros HQ. induction fuel as [|fuel IH]; [apply wpg_trying|]. cbn [death_loop]. apply wpg_bind, wpg_ld_free. intros u.
  case_decide; [|done]. apply wpg_bind, wpg_wait_free; [done|by right|].
  intros ls m ws qs es keys Hl Hlen Hk [l0 Hi]. exists l0. destruct (leaver_is _ _ _ _ _ _ _ _ Hi Hl eq_refl) as [-> <-]. destruct Hi.
  constructor; try done.
  - intros k lk q Hlk Hq. apply lookup_insert_cases in Hq as [[<- ->]|[_ Hq]]; [|by eauto]. simplify_eq.
    destruct Hk as [-> | ->]; [by left|right; by right].
  - intros k Hlk Hq. apply lookup_insert_cases in Hq as [[<- E]|[_ Hq]]; [by simplify_eq|by eauto].
Qed.
Lemma publish_exit_ok i tries fuel (Q : unit → gl → Prop) :
  Q tt (GL None Rests) → wpj i (publish_exit tries fuel th v) Q (GL None Runs).
Proof.
  intros HQ. apply wpg_bind, wpg_lock; [done|]. intros m0. apply wpg_bind, wpj_ld; [done|]. words. case_decide as Hd; cycle 1.
  { apply wpj_unlock. intros l0 ls qs es Hl Hi. exfalso. destruct (leaver_is _ _ _ _ _ _ _ _ Hi Hl eq_refl) as [_ <-].
    by destruct (jv_words _ _ _ _ _ _ Hi) as (W1 & _). }
  apply wpg_bind, wpj_sto; [done..|]. apply wpg_bind, wpj_sto; [done..|]. apply wpg_bind. apply wpg_bind, wpj_ld; [done|].
  apply wpg_bind, wpj_ld; [done|]. words. apply wpg_bind, wpg_sto; [apply th_lk_plain|apply th_guarded_var|by apply th_guarded_field|].
  intros ls qs es Hl [l0 Hi]. exists Runs. rewrite list_insert_id by done.
  destruct (leaver_is _ _ _ _ _ _ _ _ Hi Hl eq_refl) as [_ <-]. destruct (jv_words _ _ _ _ _ _ Hi) as (_ & W2 & _). cbn in W2. split.
  { exists Runs. destruct Hi. constructor; try done. intros u Hin. apply elem_of_app in Hin as [Hin|Hin]; [by auto|].
    apply list_elem_of_singleton in Hin as [= ->]. by rewrite W2. }
  clear ls qs es Hl Hi. apply wpg_ret, wpg_bind, wpj_unlock. intros l0 ls qs es Hl Hi.
  destruct (leaver_is _ _ _ _ _ _ _ _ Hi Hl eq_refl) as [_ <-]. pose proof (jinv_num _ _ _ _ _ _ _ _ Hi Hl) as Hn. cbn in Hn.
  exists (if decide (0 < m0 NJ) then Calls else Rests). split.
  { eexists. eapply jinv_exit; try done; words; try done. by rewrite W2. }
  unfold wake_joiners. rewrite s32_small by lia.
  clear ls qs es Hl Hi. apply wpg_bind. case_decide; [|by apply wpg_ret, death_loop_ok].
  apply wpg_wake_all. intros ls m ws qs es Hl Hlen [l0 Hi]. exists Rests.
  destruct (leaver_is _ _ _ _ _ _ _ _ Hi Hl eq_refl) as [_ <-]. split; [eexists; by apply jinv_called|by apply death_loop_ok].
Qed.
End join.

(** ** The word of the release *)

(** A thread that does nothing to the word; has stored it, and is to wake; is through
    with both.  The exiting thread: before it has published its exit, before the word
    or looking at it, queued, asleep, and past it. *)
Inductive dl := Idle | Raised | Over | Before | Outside | DQueued | DSleeping | Past.

Section death.
Context (th : Z).
Abbreviation DH := (Th th DEATH).
Abbreviation DE := (Th th DETACHED).

Definition raised (ls : list dl) : Prop := ∃ j l, ls !! j = Some l ∧ (l = Raised ∨ l = Over).
Definition in_queue (l : dl) : Prop := l = DQueued ∨ l = DSleeping.
Record DInv (ls : list dl) (s : @shared ploc pevent) : Prop := {
  dv_bufs : length (s_bufs s) = length ls;
  dv_queues : length (s_queue s) = length ls;
  dv_buf : ∀ i b u, s_bufs s !! i = Some b → (DH, u) ∈ b → u = 1 ∧ ls !! i = Some Raised;
  dv_mem : s_mem s DH = 0 ∨ s_mem s DH = 1 ∧ raised ls;
  dv_raised : ∀ i b, ls !! i = Some Raised → s_bufs s !! i = Some b → s_mem s DH = 1 ∨ (DH, 1) ∈ b;
  dv_over : ∀ i, ls !! i = Some Over → s_mem s DH = 1;
  dv_past : ∀ i, ls !! i = Some Past → raised ls;
  dv_only : ∀ i l, ls !! i = Some l → in_queue l ∨ l = Before → i = 0%nat;
  dv_before : ∀ i, ls !! i = Some Before → s_mem s DE = PTHREAD_CREATE_JOINABLE ∧
    ∀ j b u, s_bufs s !! j = Some b → ¬ (DE, u) ∈ b;
  dv_queue : ∀ i l keys, ls !! i = Some l → s_queue s !! i = Some keys →
    (in_queue l → keys = [] ∨ keys = [DH]) ∧ (DH ∈ keys → in_queue l);
  dv_live : ∀ i, ls !! i = Some DSleeping → s_queue s !! i = Some [DH] → raised ls → ∃ j, ls !! j = Some Raised }.
Definition dparked (l : dl) : Prop := l = Idle ∨ l = DSleeping.
Definition plain_dl (l : dl) : Prop := l = Idle ∨ l = Before ∨ l = Outside.
Definition watched (x : ploc) : Prop := x = DH ∨ x = DE.

(** What does not concern the word. *)
Record aside (ls : list dl) (s s' : @shared ploc pevent) : Prop := {
  as_bufs : length (s_bufs s') = length (s_bufs s);
  as_queues : length (s_queue s') = length (s_queue s);
  as_mem : ∀ x, watched x → s_mem s' x = s_mem s x;
  as_buf : ∀ i b', s_bufs s' !! i = Some b' → ∃ b, s_bufs s !! i = Some b ∧ ∀ x u, watched x → (x, u) ∈ b' ↔ (x, u) ∈ b;
  as_queue : ∀ i keys, s_queue s' !! i = Some keys → keys = [] ∨ s_queue s !! i = Some keys ∨
    (¬ DH ∈ keys) ∧ ∃ l, ls !! i = Some l ∧ plain_dl l }.
Lemma DInv_aside ls s s' : DInv ls s → aside ls s s' → DInv ls s'.
Proof.
  intros [] []. assert (HD : watched DH) by (by left). assert (HE : watched DE) by (by right).
  constructor; rewrite ?as_mem0 by done; try done; try congruence.
  - intros i b u Hb Hin. destruct (as_buf0 i b Hb) as (b0 & Hb0 & E). apply (dv_buf0 i b0 u Hb0). by apply E.
  - intros i b Hl Hb. destruct (as_buf0 i b Hb) as (b0 & Hb0 & E). rewrite E by done. by apply (dv_raised0 i).
  - intros i Hl. destruct (dv_before0 i Hl) as [? Hno]. split; [done|]. intros j b u Hb.
    destruct (as_buf0 j b Hb) as (b0 & Hb0 & E). rewrite E by done. by eapply Hno.
  - intros i l keys Hl Hq. destruct (as_queue0 i keys Hq) as [-> |[Hq0|(Hno & l' & Hl' & Hp)]]; [|by eauto|].
    + split; [by left|by intros ?%not_elem_of_nil].
    + rewrite Hl in Hl'. injection Hl' as <-. split; [|done]. intros [-> | ->]; by destruct Hp as [|[]].
  - intros i Hl Hq. destruct (as_queue0 i [DH] Hq) as [|[Hq0|(Hno & _)]]; [done|by eauto|]. destruct Hno. by left.
Qed.
Lemma aside_same ls s : aside ls s s.
Proof. constructor; try done; eauto. Qed.

(** Programs that leave the word alone; [W]: they may wait. *)
Fixpoint avoids {A} (W : Prop) (Q : A → Prop) (p : prog ploc pevent A) : Prop :=
  match p with
  | Ret a => Q a
  | Load x k => ∀ v, avoids W Q (k v)
  | Store x v k => ¬ watched x ∧ avoids W Q k
  | Mfence k | FutexWake _ _ k | Note _ k => avoids W Q k
  | Rmw x f k => ¬ watched x ∧ ∀ v, avoids W Q (k v)
  | FutexWait ws timed k => W ∧ (¬ DH ∈ ws.*1) ∧ ∀ kr, avoids W Q (k kr)
  end.
Lemma move_aside i gd f (K : shared → dl → Prop) l :
  (∀ ls s, ls !! i = Some l → DInv ls s → gd s → aside ls s (f s)) → (∀ s, K s l) → move DInv i gd f K l.
Proof.
  intros Hf HK ls s Hl Hi Hg. exists l. rewrite list_insert_id by done. split; [|apply HK].
  eapply DInv_aside; [done|]. by apply Hf.
Qed.
Lemma aside_queue ls s i l keys :
  ls !! i = Some l → plain_dl l → DH ∉ keys → aside ls s (set_queue i keys s).
Proof.
  intros Hl Hp Hk. constructor; cbn; try done; [by rewrite length_insert|by eauto|].
  intros j q Hq. apply lookup_insert_cases in Hq as [[<- ->]|[_ Hq]]; eauto 7.
Qed.
Lemma aside_wake ls s p : aside ls s (wake_by p s).
Proof.
  constructor; cbn; try done; [by rewrite length_imap|by eauto|].
  intros j q. rewrite list_lookup_imap. intros (q0 & Hq & ->)%fmap_Some. case_match; [by left|by eauto].
Qed.
Lemma aside_log ls s e : aside ls s (log e s).
Proof. constructor; cbn; eauto. Qed.
Lemma aside_push ls s i x u : ¬ watched x → aside ls s (push i x u s).
Proof.
  intros Hx. constructor; cbn; try done; [by rewrite length_alter| |by eauto].
  intros j b' Hb. destruct (decide (j = i)) as [->|Hne].
  - rewrite list_lookup_alter_eq in Hb. apply fmap_Some in Hb as (b & Hb & ->). exists b. split; [done|].
    intros y w Hy. rewrite elem_of_app, list_elem_of_singleton. split; [intros [|[= -> ->]]; done|by left].
  - rewrite list_lookup_alter_ne in Hb by done. eauto.
Qed.
Lemma aside_write ls s x f : ¬ watched x → aside ls s (write x f s).
Proof. intros Hx. constructor; cbn; try done; [intros y Hy; by rewrite upd_other by congruence|by eauto..]. Qed.

Lemma avoids_wp {A} i (W : Prop) (Q : A → Prop) (p : prog ploc pevent A) l :
  plain_dl l → (W → dparked l) → avoids W Q p → wp DInv dparked i p (λ a l', l' = l ∧ Q a) l.
Proof.
  intros Hp HW. induction p as [a|x k IH|x u k IH|k IH|x g k IH|ws tm k IH|x n k IH|e k IH]; cbn; intros Ha.
  - done.
  - apply move_aside; [intros; apply aside_same|by intros; apply IH].
  - destruct Ha as [Hx Ha]. apply move_aside; [by intros; apply aside_push|by intros; apply IH].
  - apply move_aside; [intros; apply aside_same|by intros; apply IH].
  - destruct Ha as [Hx Ha]. apply move_aside; [by intros; apply aside_write|by intros; apply IH].
  - destruct Ha as (Hw & Hno & Ha). split; [by intros; apply IH|].
    apply move_aside; [by intros; eapply aside_queue|]. intros _.
    generalize ws at 1. intros todo. induction todo as [|[y w] todo IHt]; cbn.
    + split_and!; [by auto|apply move_aside; [intros; apply aside_same|by intros; apply IH]|].
      intros kr. apply move_aside; [intros; by eapply aside_queue; [..|apply not_elem_of_nil]|by intros; apply IH].
    + split; apply move_aside; [intros; by eapply aside_queue; [..|apply not_elem_of_nil]|by intros; apply IH|intros; apply aside_same|done].
  - case_decide; [apply move_aside; [intros; apply aside_wake|by intros; apply IH]|].
    split; [intros j|]; apply move_aside; [intros; apply aside_wake|by intros; apply IH|intros; apply aside_same|by intros; apply IH].
  - apply move_aside; [intros; apply aside_log|by intros; apply IH].
Qed.
Abbreviation wpd := (wpT (DInv) dparked).

Lemma avoids_bind {A B} W (Q : B → Prop) (p : prog ploc pevent A) (f : A → prog ploc pevent B) :
  avoids W (λ a, avoids W Q (f a)) p → avoids W Q (prog_bind f p).
Proof. induction p; cbn; intros; auto; repeat match goal with H : _ ∧ _ |- _ => destruct H end; repeat split; auto. Qed.
(** The same for programs that may give up. *)
Definition avoidsT {A} (W : Prop) (Q : A → Prop) (p : T A) : Prop :=
  avoids W (λ o, match o with Some a => Q a | None => True end) p.
Lemma avoidsT_bind {A B} W (Q : B → Prop) (p : T A) (f : A → T B) :
  avoidsT W (λ a, avoidsT W Q (f a)) p → avoidsT W Q (p ≫= f).
Proof.
  intros H. apply avoids_bind. unfold avoidsT in H. revert H. induction p as [[]| | | | | | |]; cbn; intros; auto;
    repeat match goal with H : _ ∧ _ |- _ => destruct H end; repeat split; auto.
Qed.
Lemma wpd_avoids {A} i W (Q : A → Prop) (p : T A) (Q' : A → dl → Prop) l :
  plain_dl l → (W → dparked l) → avoidsT W Q p → (∀ a, Q a → Q' a l) → wpd i p Q' l.
Proof.
  intros Hp HW Ha HQ. eapply wp_mono; [|by eapply avoids_wp]. intros [a|] l'; [|done]. intros [-> Hq]. by apply HQ.
Qed.
Lemma avoids_lock W tries x (Q : unit → Prop) : ¬ watched x → Q tt → avoidsT W Q (_spin_lock tries x).
Proof.
  intros Hx HQ. induction tries as [|tries IH]; [done|]. cbn [_spin_lock]. apply avoidsT_bind. cbn. split; [done|].
  intros u. by case_decide.
Qed.
Lemma avoids_unlock W x (Q : unit → Prop) : ¬ watched x → Q tt → avoidsT W Q (_spin_unlock x).
Proof. by intros Hx HQ. Qed.

Lemma DInv_flush ls s i x u b :
  DInv ls s → s_bufs s !! i = Some ((x, u) :: b) →
  DInv ls (Shared (upd (s_mem s) x u) (<[i := b]> (s_bufs s)) (s_queue s) (s_evs s)).
Proof.
  intros Hi Hb. destruct (decide (x = DE)) as [->|Hx'].
  { assert (Hno : ∀ j, ls !! j ≠ Some Before).
    { intros j Hj. destruct (dv_before _ _ Hi j Hj) as [_ Hno]. eapply Hno; [done|by left]. }
    destruct Hi. constructor; cbn; rewrite ?upd_other, ?length_insert by done; try done.
    - intros j b' w Hj Hin. apply lookup_insert_cases in Hj as [[<- ->]|[_ Hj]]; [|by eauto]. apply (dv_buf0 i _ w Hb). by right.
    - intros j b' Hl Hj. apply lookup_insert_cases in Hj as [[<- ->]|[_ Hj]]; [|by eauto].
      destruct (dv_raised0 i _ Hl Hb) as [|[|]%elem_of_cons]; [by left|congruence|by right].
    - intros j Hj. by destruct (Hno j). }
  destruct (decide (x = DH)) as [->|Hx]; cycle 1.
  { eapply DInv_aside; [done|]. constructor; cbn; try done; [by rewrite length_insert| | |by eauto].
    - intros y [-> | ->]; by rewrite upd_other by congruence.
    - intros j b' Hj. apply lookup_insert_cases in Hj as [[<- ->]|[_ Hj]]; [|by eauto]. eexists. split; [done|].
      intros y w Hy. rewrite elem_of_cons. split; [by right|]. intros [[= -> ->]|]; [by destruct Hy|done]. }
  destruct (dv_buf _ _ Hi i _ u Hb ltac:(by left)) as [-> Hl].
  destruct Hi. constructor; cbn; rewrite ?upd_same, ?length_insert; try done; try (by auto).
  - intros j b' w Hj Hin. apply lookup_insert_cases in Hj as [[<- ->]|[_ Hj]]; [|by eauto].
    apply (dv_buf0 i _ w Hb). by right.
  - right. split; [done|]. exists i, Raised. by auto.
  - intros j Hj. rewrite upd_other by done. destruct (dv_before0 j Hj) as [? Hno]. split; [done|]. intros k b' w Hk Hin.
    apply lookup_insert_cases in Hk as [[<- ->]|[_ Hk]]; [|by eapply Hno]. eapply Hno; [exact Hb|]. by right.
Qed.

(** The store, and the wake-up. *)
Lemma raised_insert ls i l l' : ls !! i = Some l → raised ls → l ≠ Over → (l = Raised → l' = Raised ∨ l' = Over) → raised (<[i := l']> ls).
Proof.
  intros Hl (j & lj & Hj & Hr) Ho Hl'. destruct (decide (j = i)) as [->|Hne].
  - exists i, l'. rewrite list_lookup_insert_eq by (by eapply lookup_lt_Some). split; [done|].
    rewrite Hl in Hj. injection Hj as <-. destruct Hr; [by auto|done].
  - exists j, lj. by rewrite list_lookup_insert_ne.
Qed.
Lemma wpd_store i (Q : unit → dl → Prop) : Q tt Raised → wpd i (sto DH 1) Q Idle.
Proof.
  intros HQ ls s Hl Hi _. exists Raised. split; [|done].
  destruct (lookup_lt_is_Some_2 (s_bufs s) i) as [b Hb]; [rewrite (dv_bufs _ _ Hi); by eapply lookup_lt_Some|].
  assert (Hnew : <[i := Raised]> ls !! i = Some Raised) by (by rewrite list_lookup_insert_eq by (by eapply lookup_lt_Some)).
  destruct Hi. constructor; cbn; rewrite ?(alter_at _ _ i b Hb), ?length_insert; try done.
  - intros j b' w Hj Hin. apply lookup_insert_cases in Hj as [[<- ->]|[Hne Hj]].
    + split; [|done]. apply elem_of_app in Hin as [Hin|Hin]; [by eapply dv_buf0|by apply list_elem_of_singleton in Hin as [= ->]].
    + rewrite list_lookup_insert_ne by done. by eapply dv_buf0.
  - destruct dv_mem0 as [|[? Hr]]; [by left|right]. split; [done|]. by eapply raised_insert.
  - intros j b' Hj Hb'. apply lookup_insert_cases in Hb' as [[<- ->]|[Hne Hb']].
    + right. apply elem_of_app. right. by left.
    + rewrite list_lookup_insert_ne in Hj by done. by eapply dv_raised0.
  - intros j Hj. apply lookup_insert_cases in Hj as [[<- ?]|[_ Hj]]; [done|by eauto].
  - intros j Hj. exists i, Raised. by auto.
  - intros j l Hj Hq. apply lookup_insert_cases in Hj as [[<- ->]|[_ Hj]]; [by destruct Hq as [[]|]|by eauto].
  - intros j Hj. apply lookup_insert_cases in Hj as [[<- ?]|[_ Hj]]; [done|]. destruct (dv_before0 j Hj) as [? Hno].
    split; [done|]. intros k b' w Hk Hin. apply lookup_insert_cases in Hk as [[<- ->]|[_ Hk]]; [|by eapply Hno].
    apply elem_of_app in Hin as [Hin|Hin]; [by eapply Hno|]. by apply list_elem_of_singleton in Hin.
  - intros j l keys Hj Hq. apply lookup_insert_cases in Hj as [[<- ->]|[_ Hj]]; [|by eauto].
    destruct (dv_queue0 i Idle keys Hl Hq) as [_ H]. split; [by intros []|]. intros Hin. by destruct (H Hin).
  - by eauto.
Qed.
Lemma wpd_wake i (Q : unit → dl → Prop) : Q tt Over → wpd i (_pthread_futex_wake_one DH) Q Raised.
Proof.
  intros HQ.
  assert (Hgo : ∀ ls s s', ls !! i = Some Raised → DInv ls s → drained i s → aside ls s s' →
    (∀ j, ls !! j = Some DSleeping → s_queue s' !! j = Some [DH] → ∃ k, k ≠ i ∧ ls !! k = Some Raised) → DInv (<[i := Over]> ls) s').
  { intros ls s s' Hl Hi [Hd _] Ha Hw.
    assert (Hm : s_mem s DH = 1) by (by destruct (dv_raised _ _ Hi i _ Hl Hd) as [|?%not_elem_of_nil]).
    pose proof (DInv_aside _ _ _ Hi Ha) as Hi'. pose proof (as_mem _ _ _ Ha DH ltac:(by left)) as Hm'. rewrite Hm in Hm'.
    assert (Hr : raised (<[i := Over]> ls)).
    { exists i, Over. rewrite list_lookup_insert_eq by (by eapply lookup_lt_Some). by auto. }
    destruct Hi'. constructor; rewrite ?length_insert; try done; try (by auto).
    - intros j b u Hb Hin. destruct (dv_buf0 j b u Hb Hin) as [-> Hj]. split; [done|]. rewrite list_lookup_insert_ne; [done|].
      intros <-. destruct (as_buf _ _ _ Ha i b Hb) as (b0 & Hb0 & E). rewrite E in Hin by (by left). rewrite Hd in Hb0. injection Hb0 as <-.
      by apply not_elem_of_nil in Hin.
    - intros j l Hj Hq. apply lookup_insert_cases in Hj as [[<- ->]|[_ Hj]]; [by destruct Hq as [[]|]|by eauto].
    - intros j Hj. apply lookup_insert_cases in Hj as [[<- ?]|[_ Hj]]; [done|by eauto].
    - intros j l keys Hj Hq. apply lookup_insert_cases in Hj as [[<- ->]|[_ Hj]]; [|by eauto].
      destruct (dv_queue0 i Raised keys Hl Hq) as [_ H]. split; [by intros []|]. intros Hin. by destruct (H Hin).
    - intros j Hj Hq _. apply lookup_insert_cases in Hj as [[<- ?]|[_ Hj]]; [done|].
      destruct (Hw j Hj Hq) as (k & Hk & Hlk). exists k. by rewrite list_lookup_insert_ne. }
  split; [intros j|].
  - intros ls s Hl Hi [Hd (keys & Hj & Hin)]. exists Over. split; [|done]. eapply Hgo; try done; [apply aside_wake|].
    intros k Hk Hq. exfalso. cbn in Hq. rewrite list_lookup_imap in Hq. apply fmap_Some in Hq as (q & Hq & E).
    assert (k = 0%nat) as -> by (eapply (dv_only _ _ Hi); [done|left; by right]).
    destruct (lookup_lt_is_Some_2 ls j) as [lj Hlj]; [rewrite <- (dv_queues _ _ Hi); by eapply lookup_lt_Some|].
    assert (j = 0%nat) as -> by (eapply (dv_only _ _ Hi); [done|]; left; by eapply (dv_queue _ _ Hi)).
    rewrite Hj in Hq. injection Hq as <-. unfold wake_one in E. by rewrite !bool_decide_true in E.
  - intros ls s Hl Hi [Hd Hno]. exists Over. split; [|done]. eapply Hgo; try done; [apply aside_same|].
    intros k Hk Hq. destruct (Hno k). exists [DH]. split; [done|by left].
Qed.

(** ** The exiting thread at the word *)

Definition exiting (l : dl) : Prop := l = Outside ∨ in_queue l ∨ l = Past.
Lemma dinv_exiting ls s l l' keys :
  DInv ls s → ls !! 0%nat = Some l → exiting l → exiting l' → (l' = Past → raised ls) →
  (in_queue l' → keys = [] ∨ keys = [DH]) → (DH ∈ keys → in_queue l') →
  (l' = DSleeping → raised ls → ∃ j, ls !! j = Some Raised) → DInv (<[0%nat := l']> ls) (set_queue 0%nat keys s).
Proof.
  intros Hi Hl He He' Hp Hk1 Hk2 Hs.
  assert (Hne : ∀ l, exiting l → l ≠ Raised ∧ l ≠ Over) by (by intros ? [-> |[[-> | ->]| ->]]).
  destruct (Hne l He) as [N1 N2], (Hne l' He') as [N1' N2'].
  assert (Hr : raised ls ↔ raised (<[0%nat := l']> ls)).
  { split; [intros Hr; by eapply raised_insert|]. intros (j & lj & Hj & Hrj).
    apply lookup_insert_cases in Hj as [[<- ->]|[_ Hj]]; [by destruct Hrj|by exists j, lj]. }
  assert (Hrd : ∀ j, ls !! j = Some Raised → <[0%nat := l']> ls !! j = Some Raised).
  { intros j Hj. rewrite list_lookup_insert_ne; [done|]. intros <-. congruence. }
  destruct Hi. constructor; cbn; rewrite ?length_insert, <- ?Hr; try done.
  - intros j b u Hb Hin. destruct (dv_buf0 j b u Hb Hin). by auto.
  - intros j b Hj. apply lookup_insert_cases in Hj as [[<- E]|[_ Hj]]; [congruence|by eauto].
  - intros j Hj. apply lookup_insert_cases in Hj as [[<- E]|[_ Hj]]; [congruence|by eauto].
  - intros j Hj. rewrite <- Hr. apply lookup_insert_cases in Hj as [[<- E]|[_ Hj]]; [by auto|by eauto].
  - intros j lj Hj Hq. apply lookup_insert_cases in Hj as [[<- E]|[_ Hj]]; [done|by eauto].
  - intros j Hj. apply lookup_insert_cases in Hj as [[<- E]|[_ Hj]]; [|by eauto]. exfalso.
    destruct He' as [|[[]|]]; congruence.
  - intros j lj q Hj Hq. apply lookup_insert_cases in Hj as [[<- ->]|[Hne' Hj]].
    + rewrite list_lookup_insert_eq in Hq by (rewrite dv_queues0; by eapply lookup_lt_Some). by injection Hq as <-.
    + rewrite list_lookup_insert_ne in Hq by done. by eauto.
  - intros j Hj Hq. rewrite <- Hr. intros Hra. apply lookup_insert_cases in Hj as [[<- E]|[Hne' Hj]].
    + destruct Hs as [k Hk]; [done..|]. eauto.
    + rewrite list_lookup_insert_ne in Hq by done. destruct (dv_live0 j Hj Hq Hra) as [k Hk]. eauto.
Qed.
Lemma exiting_same ls s l l' :
  DInv ls s → ls !! 0%nat = Some l → exiting l → exiting l' → (l' = Past → raised ls) → (in_queue l → in_queue l') →
  (l' = DSleeping → raised ls → ∃ j, ls !! j = Some Raised) →
  (in_queue l' → in_queue l ∨ s_queue s !! 0%nat = Some []) → DInv (<[0%nat := l']> ls) s.
Proof.
  intros Hi Hl He He' Hp Hq Hs Hq'.
  destruct (lookup_lt_is_Some_2 (s_queue s) 0) as [keys Hk]; [rewrite (dv_queues _ _ Hi); by eapply lookup_lt_Some|].
  replace s with (set_queue 0%nat keys s); [|destruct s; unfold set_queue; cbn in *; by rewrite list_insert_id].
  destruct (dv_queue _ _ Hi 0%nat l keys Hl Hk) as [K1 K2].
  eapply dinv_exiting; try done; [|by auto]. intros [H|H]%Hq'; [by auto|]. left. congruence.
Qed.

Lemma wpd_look Q : Q 0 Outside → Q 1 Past → wpd 0%nat (ld DH) Q Outside.
Proof.
  intros Q0 Q1 ls s Hl Hi _. unfold view_of.
  destruct (lookup_lt_is_Some_2 (s_bufs s) 0) as [b Hb]; [rewrite (dv_bufs _ _ Hi); by eapply lookup_lt_Some|]. rewrite Hb.
  rewrite view_other; cycle 1.
  { intros ([y w] & E & Hin)%list_elem_of_fmap. cbn in E. subst y. destruct (dv_buf _ _ Hi 0%nat b w Hb Hin) as [_ ?]. by simplify_eq. }
  destruct (dv_mem _ _ Hi) as [E |[E Hr]]; rewrite E; [exists Outside; by rewrite list_insert_id|].
  exists Past. split; [|done]. eapply exiting_same; try done; [by left|right; by right|by intros []|by intros []].
Qed.
Lemma wpd_wait Q : (∀ kr, Q kr Outside) → wpd 0%nat (_pthread_futex_wait DH 0 false) Q Outside.
Proof.
  intros HQ. split; [by intros; apply HQ|]. intros ls s Hl Hi _. exists DQueued. split.
  { eapply dinv_exiting; try done; [by left|right; left; by left|by right|by left]. }
  split.
  - clear ls s Hl Hi. intros ls s Hl Hi _. exists Outside. split; [|by apply HQ].
    eapply dinv_exiting; try done; [right; left; by left|by left|by intros []|by intros ?%not_elem_of_nil].
  - clear ls s Hl Hi. intros ls s Hl Hi Hm. exists DSleeping. split.
    { eapply exiting_same; try done; [right; left; by left|right; left; by right|by right| |left; by left].
      intros _ (j & lj & Hj & [-> | ->]); [by eauto|]. apply (dv_over _ _ Hi) in Hj. congruence. }
    split; [by right|]. clear ls s Hl Hi Hm. split.
    + intros ls s Hl Hi Hr. exists Outside. split; [|by apply HQ]. 
      replace (id s) with (set_queue 0%nat [] s); [|destruct s; unfold set_queue, running in *; cbn in *; by rewrite list_insert_id].
      eapply dinv_exiting; try done; [right; left; by right|by left|by intros []|by intros ?%not_elem_of_nil].
    + intros kr ls s Hl Hi Hr. exists Outside. split; [|by apply HQ].
      eapply dinv_exiting; try done; [right; left; by right|by left|by intros []|by intros ?%not_elem_of_nil].
Qed.
Lemma wpd_death_loop fuel (Q : unit → dl → Prop) : Q tt Past → wpd 0%nat (death_loop fuel th) Q Outside.
Proof.
  intros HQ. induction fuel as [|fuel IH]; [done|]. cbn [death_loop]. apply wpT_bind, wpd_look; [|done].
  rewrite decide_True by done. by apply wpT_bind, wpd_wait.
Qed.

(** The exiting thread reads that it is joinable, and publishes its exit. *)
Lemma wpd_detached Q : Q PTHREAD_CREATE_JOINABLE Before → wpd 0%nat (ld DE) Q Before.
Proof.
  intros HQ ls s Hl Hi _. exists Before. rewrite list_insert_id by done. split; [done|]. unfold view_of.
  destruct (lookup_lt_is_Some_2 (s_bufs s) 0) as [b Hb]; [rewrite (dv_bufs _ _ Hi); by eapply lookup_lt_Some|]. rewrite Hb.
  destruct (dv_before _ _ Hi 0%nat Hl) as [Hm Hno]. rewrite view_other; [by rewrite Hm|].
  intros ([y w] & E & Hin)%list_elem_of_fmap. cbn in E. subst y. by eapply Hno.
Qed.
Lemma wpd_publish u (Q : unit → dl → Prop) : Q tt Outside → wpd 0%nat (sto DE u) Q Before.
Proof.
  intros HQ ls s Hl Hi _. exists Outside. split; [|done].
  destruct (lookup_lt_is_Some_2 (s_bufs s) 0) as [b Hb]; [rewrite (dv_bufs _ _ Hi); by eapply lookup_lt_Some|].
  assert (Hdh : ∀ j b' w, <[0%nat := b ++ [(DE, u)]]> (s_bufs s) !! j = Some b' → (DH, w) ∈ b' →
    ∃ b0, s_bufs s !! j = Some b0 ∧ (DH, w) ∈ b0).
  { intros j b' w Hj Hin. apply lookup_insert_cases in Hj as [[<- ->]|[_ Hj]]; [|by eauto].
    apply elem_of_app in Hin as [Hin|Hin]; [by eauto|by apply list_elem_of_singleton in Hin]. }
  assert (Hr : raised ls → raised (<[0%nat := Outside]> ls)) by (intros; by eapply raised_insert).
  assert (Hkeep : ∀ j, ls !! j = Some Raised → <[0%nat := Outside]> ls !! j = Some Raised).
  { intros j Hj. rewrite list_lookup_insert_ne; [done|]. intros <-. congruence. }
  assert (Hback : raised (<[0%nat := Outside]> ls) → raised ls).
  { intros (j & lj & Hj & Hrj). apply lookup_insert_cases in Hj as [[<- ->]|[_ Hj]]; [by destruct Hrj|by exists j, lj]. }
  destruct Hi. constructor; cbn; rewrite ?(alter_at _ _ 0%nat b Hb), ?length_insert; try done.
  - intros j b' w Hj Hin. destruct (Hdh j b' w Hj Hin) as (b0 & Hb0 & Hin0). destruct (dv_buf0 j b0 w Hb0 Hin0). by auto.
  - destruct dv_mem0 as [|[? ?]]; by auto.
  - intros j b' Hj Hb'. apply lookup_insert_cases in Hj as [[<- ?]|[_ Hj]]; [done|].
    apply lookup_insert_cases in Hb' as [[<- _]|[_ Hb']]; [congruence|by eauto].
  - intros j Hj. apply lookup_insert_cases in Hj as [[<- ?]|[_ Hj]]; [done|by eauto].
  - intros j Hj. apply lookup_insert_cases in Hj as [[<- ?]|[_ Hj]]; [done|by eauto].
  - intros j lj Hj Hq. apply lookup_insert_cases in Hj as [[<- ?]|[_ Hj]]; [done|by eauto].
  - intros j Hj. apply lookup_insert_cases in Hj as [[<- ?]|[Hne Hj]]; [done|]. destruct Hne. symmetry. eapply dv_only0; [done|by right].
  - intros j lj q Hj Hq. apply lookup_insert_cases in Hj as [[<- ->]|[_ Hj]]; [|by eauto].
    destruct (dv_queue0 0%nat Before q Hl Hq) as [_ H]. split; [by intros []|]. intros Hin. by destruct (H Hin).
  - intros j Hj Hq Hra. apply lookup_insert_cases in Hj as [[<- ?]|[_ Hj]]; [done|].
    destruct (dv_live0 j Hj Hq (Hback Hra)) as [k Hk]. by eauto.
Qed.

(** ** The programs *)

Lemma not_watched f : f ≠ DEATH → f ≠ DETACHED → ¬ watched (Th th f).
Proof. intros H1 H2 [E|E]; congruence. Qed.
Lemma wpd_aside {A} i (p : T A) (Q : A → dl → Prop) l :
  l = Idle ∨ l = Before ∨ l = Outside → avoidsT (l = Idle) (λ _, True) p → (∀ a, Q a l) → wpd i p Q l.
Proof. intros Hl Ha HQ. eapply wpd_avoids; [done| |exact Ha|by auto]. intros ->. by left. Qed.

Lemma wpd_leaver tries fuel v : wpd 0%nat (leaver tries fuel th v) (λ _ l, l = Past) Before.
Proof.
  apply wpT_bind. apply wpT_bind, wpd_aside; [by auto|apply avoids_lock; [by apply not_watched|done]|intros _].
  apply wpT_bind, wpd_detached. rewrite decide_True by done. apply wpT_bind, wpd_publish.
  apply wpT_bind, wpd_aside; [by auto|split; [by apply not_watched|done]|intros _].
  apply wpT_bind, wpd_aside; [by auto|cbn; intros; split; [by apply not_watched|done]|intros n].
  apply wpT_bind, wpd_aside; [by auto|apply avoids_unlock; [by apply not_watched|done]|intros _].
  apply wpT_bind, wpd_aside; [by auto|unfold wake_joiners; by case_decide|intros _]. by apply wpd_death_loop.
Qed.

Definition dpost (r : Z * option Z) (l : dl) : Prop := r.1 = ESUCCESS ∧ l = Over ∨ r.1 ≠ ESUCCESS ∧ l = Idle.
Lemma wpd_unlock_ret i x (r : Z * option Z) :
  ¬ watched x → r.1 ≠ ESUCCESS → wpd i (_spin_unlock x;; mret r) dpost Idle.
Proof. intros Hx Hr. apply wpT_bind, wpd_aside; [by auto|by apply avoids_unlock|intros _]. by right. Qed.
Lemma wpd_harvest i : wpd i (harvest th) dpost Idle.
Proof.
  apply wpT_bind, wpd_aside; [by auto|done|intros d]. case_decide; [|apply wpd_unlock_ret; [by apply not_watched|done]].
  apply wpT_bind, wpd_aside; [by auto|done|intros n]. case_decide; [|apply wpd_unlock_ret; [by apply not_watched|done]].
  apply wpT_bind, wpd_aside; [by auto|done|intros u].
  apply wpT_bind, wpd_aside; [by auto|apply avoids_unlock; [by apply not_watched|done]|intros _].
  apply wpT_bind, wpd_store, wpT_bind, wpd_wake. by left.
Qed.
Lemma avoids_add W (Q : Z → Prop) : (∀ n, Q n) → avoidsT W Q (add_joiner th).
Proof. intros HQ. cbn. intros. split; [by apply not_watched|]. intros. split; [by apply not_watched|]. by intros. Qed.
Lemma avoids_wait (Q : Z → Prop) j tm : (∀ kr, Q kr) → avoidsT (Idle = Idle) Q (_pthread_futex_wait (Th th JOINERS) j tm).
Proof. intros HQ. cbn. split_and!; [done|by intros ?%list_elem_of_singleton|done]. Qed.
Lemma avoids_drop W tries (Q : unit → Prop) : Q tt → avoidsT W Q (drop_joiner tries th).
Proof.
  intros HQ. apply avoidsT_bind, avoids_lock; [by apply not_watched|]. cbn. intros. split; [by apply not_watched|done].
Qed.
Lemma wpd_joiner i tries r : wpd i (joiner tries th r) dpost Idle.
Proof.
  destruct r as [|abstime now]; apply wpT_bind, wpd_aside; try (by auto); try done; intros sig.
  - case_decide; [|by right]. apply wpT_bind, wpd_aside; [by auto|apply avoids_lock; [by apply not_watched|done]|intros _].
    apply wpT_bind, wpd_aside; [by auto|done|intros d]. apply wpT_bind, wpd_aside; [by auto| |intros _; apply wpd_harvest].
    case_decide; [|done]. apply avoidsT_bind, avoids_add. intros n. apply avoidsT_bind, avoids_wait. intros kr. by apply avoids_drop.
  - case_decide; [by right|]. apply wpT_bind, wpd_aside; [by auto|apply avoids_lock; [by apply not_watched|done]|intros _].
    apply wpT_bind, wpd_aside; [by auto|done|intros d]. case_decide; [apply wpd_unlock_ret; [by apply not_watched|done]|].
    case_decide; [|apply wpd_harvest]. apply wpT_bind, wpd_aside; [by auto|by apply avoids_add|intros n].
    apply wpT_bind, wpd_aside; [by auto|unfold timed_wait; case_match; [by apply avoids_wait|done]|intros kr].
    apply wpT_bind, wpd_aside; [by auto|by apply avoids_drop|intros _]. apply wpT_bind, wpd_aside; [by auto|done|intros d'].
    case_decide; [apply wpd_unlock_ret; [by apply not_watched|done]|apply wpd_harvest].
Qed.
End death.

(** ** The system *)

Section system.
Context (tries fuel : nat) (th v : Z) (m : ploc → Z) (kt : Z) (rs : list jreq).
Hypothesis Hsize : Z.of_nat (length rs) < 2 ^ 31 - 1.
Abbreviation start := (join_start tries fuel th v m kt rs).

Lemma join_start_words :
  memory start (T_SIG th) = _PTHREAD_SIG ∧ memory start (Th th T_LOCK) = 0 ∧
  memory start (Th th DETACHED) = PTHREAD_CREATE_JOINABLE ∧ memory start (Th th JOINERS) = 0 ∧
  memory start (Th th NUM_JOINERS) = 0 ∧ memory start (Th th DEATH) = 0.
Proof. cbn. split_and!; repeat first [rewrite upd_same|rewrite upd_other by done]; done. Qed.
Lemma join_start_thread i t :
  threads start !! i = Some t →
  i = 0%nat ∧ t = Thread [] (Run (leaver tries fuel th v)) ∨ i ≠ 0%nat ∧ ∃ r, t = Thread [] (Run (joiner tries th r)).
Proof.
  cbn [join_start threads]. intros [[-> <-]|[Hi Ht]]%lookup_cons_Some; [by left|right]. split; [lia|].
  rewrite list_lookup_fmap in Ht. apply fmap_Some in Ht as (r & _ & ->). by eauto.
Qed.
Lemma join_start_quiet i :
  (∀ b, s_bufs (shared_of start) !! i = Some b → b = []) ∧ (∀ q, s_queue (shared_of start) !! i = Some q → q = []).
Proof.
  split; intros x; cbn [shared_of s_bufs s_queue]; rewrite list_lookup_fmap;
    intros (t & [(_ & ->)|(_ & r & ->)]%join_start_thread & ->)%fmap_Some; done.
Qed.

(** The words under the lock. *)
Definition join_ghosts : list (@gl jl) := GL None Runs :: replicate (length rs) (GL None Fresh).
Lemma join_ghosts_known i l : (known <$> join_ghosts) !! i = Some l → i = 0%nat ∧ l = Runs ∨ i ≠ 0%nat ∧ l = Fresh.
Proof.
  rewrite list_lookup_fmap. intros (g & Hg & ->)%fmap_Some. destruct i as [|i]; cbn in Hg; [injection Hg as <-; by left|].
  apply lookup_replicate in Hg as [-> _]. by right.
Qed.
Lemma join_start_inv :
  GInv (Th th T_LOCK) (th_guarded th) (th_const th) (Jinv th v) join_ghosts (shared_of start).
Proof.
  destruct join_start_words as (W1 & W2 & W3 & W4 & W5 & _).
  apply ginv_start; [..|exists Runs; constructor]; try done.
  - cbn. by rewrite !length_fmap, length_replicate.
  - cbn. by rewrite !length_fmap, length_replicate.
  - intros x u Hx. destruct x as [| | | |t| | | | |]; cbn in Hx; try done. case_decide; [|done]. injection Hx as <-. by subst t.
  - intros i b Hb. by eapply join_start_quiet.
  - intros [|i] g; cbn; [by intros [= <-]|]. by intros [-> _]%lookup_replicate.
  - cbn. rewrite length_fmap, length_replicate. lia.
  - intros i l [[-> ->]|[? ->]]%join_ghosts_known; done.
  - change (s_mem (shared_of start)) with (memory start). rewrite W5. symmetry. cbn. rewrite fmap_replicate. clear. by induction (length rs).
  - by intros u ?%not_elem_of_nil.
  - intros i l keys _ Hq. left. by eapply join_start_quiet.
  - by intros i [[_ ?]|[_ ?]]%join_ghosts_known.
Qed.
Definition post1 (i : nat) (o : option (Z * option Z)) (g : @gl jl) : Prop :=
  match o with Some r => if decide (i = 0%nat) then g = GL None Rests else jpost v r g | None => True end.
Lemma join_sound1 c :
  rtc step start c →
  ∃ gs, sound (GInv (Th th T_LOCK) (th_guarded th) (th_const th) (Jinv th v)) (Parked jasleep) post1 gs c.
Proof.
  eapply sound_reachable; [intros; by apply guard_flush; [apply Jinv_ext|..]|].
  split_and!; [apply join_start_inv|cbn; by rewrite length_fmap, length_replicate|].
  intros [|i] t g Ht Hg.
  - injection Ht as <-. injection Hg as <-. apply wpg_bind, publish_exit_ok. done.
  - cbn in Hg. apply lookup_replicate in Hg as [-> _]. apply join_start_thread in Ht as [[? _]|(_ & r & ->)]; [done|].
    apply joiner_ok.
Qed.

(** The word of the release. *)
Definition post2 (i : nat) (o : option (Z * option Z)) (l : dl) : Prop :=
  match o with Some r => if decide (i = 0%nat) then l = Past else dpost r l | None => True end.
Lemma join_sound2 c : rtc step start c → ∃ ds, sound (DInv th) dparked post2 ds c.
Proof.
  destruct join_start_words as (_ & _ & W3 & _ & _ & W6).
  eapply (sound_reachable _ _ (DInv_flush th) _ (Before :: replicate (length rs) Idle)).
  assert (Hg : ∀ i l, (Before :: replicate (length rs) Idle) !! i = Some l → i = 0%nat ∧ l = Before ∨ l = Idle).
  { intros [|i] l; cbn; [intros [= <-]; by left|]. intros [-> _]%lookup_replicate. by right. }
  split_and!.
  - constructor; try (by intros ? [[_ ?]|?]%Hg).
    + cbn. by rewrite !length_fmap, length_replicate.
    + cbn. by rewrite !length_fmap, length_replicate.
    + intros i b u Hb Hin. rewrite (proj1 (join_start_quiet i) b Hb) in Hin. by apply not_elem_of_nil in Hin.
    + by left.
    + by intros i b [[_ ?]|?]%Hg.
    + intros i l [[-> _]| ->]%Hg; [done|]. by intros [[]|].
    + intros i _. split; [done|]. intros j b u Hb. rewrite (proj1 (join_start_quiet j) b Hb). apply not_elem_of_nil.
    + intros i l keys Hl Hq. rewrite (proj2 (join_start_quiet i) keys Hq). split; [by left|by intros ?%not_elem_of_nil].
  - cbn. by rewrite length_fmap, length_replicate.
  - intros [|i] t l Ht Hl.
    + injection Ht as <-. injection Hl as <-. eapply wp_mono; [|apply wpd_leaver]. by intros [].
    + cbn in Hl. apply lookup_replicate in Hl as [-> _]. apply join_start_thread in Ht as [[? _]|(_ & r & ->)]; [done|].
      apply wpd_joiner.
Qed.
End system.

(** C19. A join returns the value of the exit.  One thread exits with a value and others
    call [pthread_join] and [pthread_timedjoin_np] on it at any time.  Whatever the
    interleaving on the x86-TSO machine and whatever the traps return, a call that
    succeeds has returned that value. *)
Theorem join_returns_value tries fuel th v m kt rs c i t a :
  Z.of_nat (length rs) < 2 ^ 31 - 1 → rtc step (join_start tries fuel th v m kt rs) c →
  threads c !! S i = Some t → st t = Run (Ret (Some (ESUCCESS, a))) → a = Some v.
Proof.
  intros Hs Hr Ht Hst. destruct (join_sound1 tries fuel th v m kt rs Hs c Hr) as (gs & _ & Hlen & Hts).
  destruct (lookup_lt_is_Some_2 gs (S i)) as [g Hg]; [rewrite Hlen; by eapply lookup_lt_Some|].
  specialize (Hts _ t g Ht Hg). rewrite Hst in Hts. cbn in Hts.
  by destruct Hts as [[[= ->] _]|[[? _]|[[|] _]]].
Qed.

(** A configuration in which every thread is done or asleep, with both invariants. *)
Section rest.
Context (th v : Z) (c : @config ploc pevent (option (Z * option Z))) (gs : list (@gl jl)) (ds : list dl).
Hypothesis S1 : sound (GInv (Th th T_LOCK) (th_guarded th) (th_const th) (Jinv th v)) (Parked jasleep) (post1 v) gs c.
Hypothesis S2 : sound (DInv th) dparked post2 ds c.
Hypothesis Hrest : Forall (λ t, is_done t ∨ is_asleep t) (threads c).

Definition returned (i : nat) (r : Z * option Z) : Prop :=
  ∃ t, threads c !! i = Some t ∧ st t = Run (Ret (Some r)).
(** Each thread, its result, and what the invariants know of it. *)
Lemma rest_case i t :
  threads c !! i = Some t →
  ∃ l d, (known <$> gs) !! i = Some l ∧ ds !! i = Some d ∧
  ((∃ r, is_done t ∧ returned i r ∧ post1 v i (Some r) (GL None l) ∧ post2 i (Some r) d) ∨
   is_asleep t ∧ jasleep l ∧ dparked d ∧ ∃ keys, (queue_of <$> threads c) !! i = Some keys ∧ keys ≠ []).
Proof.
  intros Ht. destruct S1 as (_ & Hl1 & Ht1), S2 as (_ & Hl2 & Ht2).
  destruct (lookup_lt_is_Some_2 gs i) as [g Hg]; [rewrite Hl1; by eapply lookup_lt_Some|].
  destruct (lookup_lt_is_Some_2 ds i) as [d Hd]; [rewrite Hl2; by eapply lookup_lt_Some|].
  exists (known g), d. split_and!; [by apply known_lookup|done|].
  specialize (Ht1 i t g Ht Hg). specialize (Ht2 i t d Ht Hd). pose proof (Forall_lookup_1 _ _ _ _ Hrest Ht) as Hda.
  rewrite list_lookup_fmap, Ht. unfold returned. rewrite Ht.
  unfold is_done, is_asleep, queue_of in *. destruct t as [b [[[r|]| | | | | | |]|keys [|] [] tm k]]; cbn in *; try (by destruct Hda).
  - left. exists r. split_and!; [done|by eexists| |done]. unfold jpost in *. destruct g.
    case_decide; [by simplify_eq|]. by destruct Ht1 as [[? [= -> ->]]|[[? [= -> ->]]|[? [= -> ->]]]]; auto.
  - right. destruct Ht1 as (Hk & [_ Hj] & _), Ht2 as (_ & Hp & _). split_and!; [done..|]. by exists keys.
Qed.

Lemma rest_jinv : ∃ l0 m0 ws, jinv th v l0 (known <$> gs) m0 ws (queue_of <$> threads c) (events c).
Proof. destruct S1 as (Hi & _). destruct (ginv_committed _ _ _ _ _ _ _ _ _ Hi) as (m0 & ws & [l0 HJ] & _). by eauto. Qed.

(** The exiting thread has come to its end, or sleeps at the word. *)
Lemma rest_leaver t :
  threads c !! 0%nat = Some t → (known <$> gs) !! 0%nat = Some Rests ∧
  (is_done t ∧ ds !! 0%nat = Some Past ∨
   is_asleep t ∧ ds !! 0%nat = Some DSleeping ∧ (queue_of <$> threads c) !! 0%nat = Some [Th th DEATH]).
Proof.
  intros Ht. destruct (rest_case 0%nat t Ht) as (l & d & Hl & Hd & [(r & Hdn & _ & P1 & P2)|(Ha & Hj & Hp & keys & Hk & Hne)]).
  { unfold post1 in P1. unfold post2 in P2. rewrite decide_True in P1, P2 by done. injection P1 as ->. subst d. by auto. }
  destruct rest_jinv as (l0 & m0 & ws & HJ). assert (l = Rests) as ->.
  { destruct Hj as [-> | ->]; [|done]. by apply (jv_kind _ _ _ _ _ _ _ _ HJ 0%nat RegS) in Hl as [Hl _]; specialize (Hl eq_refl). }
  split; [done|right]. destruct (jv_queue _ _ _ _ _ _ _ _ HJ 0%nat _ keys Hl Hk) as [|[[_ []]|[-> _]]]; [done..|].
  split_and!; [done| |done]. destruct S2 as (HD & _).
  destruct (dv_queue _ _ _ HD 0%nat d _ Hd Hk) as [_ Hq]. destruct Hp as [-> | ->]; [|done]. by destruct Hq; [left|..].
Qed.
Lemma rest_joiner i t :
  threads c !! S i = Some t → ∃ r l d, is_done t ∧ returned (S i) r ∧ (known <$> gs) !! S i = Some l ∧ ds !! S i = Some d ∧
    jpost v r (GL None l) ∧ dpost r d.
Proof.
  intros Ht. destruct (rest_case (S i) t Ht) as (l & d & Hl & Hd & [(r & Hdn & Hr & P1 & P2)|(Ha & Hj & Hp & keys & Hk & Hne)]).
  { exists r, l, d. by split_and!. }
  exfalso. destruct rest_jinv as (l0 & m0 & ws & HJ). assert (l = RegS) as ->.
  { destruct Hj as [-> | ->]; [done|]. by apply (jv_kind _ _ _ _ _ _ _ _ HJ (S i) Rests) in Hl as [_ Hl]; specialize (Hl eq_refl). }
  destruct (jv_queue _ _ _ _ _ _ _ _ HJ (S i) _ keys Hl Hk) as [|[[-> _]|[_ ?]]]; [done| |done].
  destruct (threads c !! 0%nat) as [t0|] eqn:Ht0; [|apply lookup_ge_None in Ht0; apply lookup_lt_Some in Ht; lia].
  destruct (rest_leaver t0 Ht0) as [H0 _]. pose proof (jv_first _ _ _ _ _ _ _ _ HJ) as Hf. rewrite H0 in Hf. injection Hf as <-.
  by specialize (jv_live _ _ _ _ _ _ _ _ HJ (S i) Hl Hk eq_refl).
Qed.

(** Whoever has stored the word has returned a value; if the thread sleeps no one has. *)
Lemma rest_raised : raised ds → ∃ i a, returned (S i) (ESUCCESS, a).
Proof.
  intros (j & l & Hj & Hr). destruct (threads c !! j) as [t|] eqn:Ht; cycle 1.
  { destruct S2 as (_ & Hlen & _). apply lookup_ge_None in Ht. apply lookup_lt_Some in Hj. lia. }
  destruct j as [|j]; [destruct (rest_leaver t Ht) as [_ [[_ E]|(_ & E & _)]]; rewrite E in Hj; injection Hj as <-; by destruct Hr|].
  destruct (rest_joiner j t Ht) as (r & l' & d & _ & Hret & _ & Hd & _ & [[Hr1 ->]|[_ ->]]); rewrite Hd in Hj; injection Hj as <-; [|by destruct Hr].
  exists j, r.2. rewrite <- Hr1. by destruct r.
Qed.
Lemma rest_asleep t0 :
  threads c !! 0%nat = Some t0 → is_asleep t0 → ¬ raised ds.
Proof.
  intros Ht Ha Hr. destruct (rest_leaver t0 Ht) as [_ [[Hd _]|(_ & Hd & Hq)]].
  { unfold is_done, is_asleep in *. by destruct (st t0) as [[]|]. }
  destruct S2 as (HD & Hlen & _). destruct (dv_live _ _ _ HD 0%nat Hd Hq Hr) as [j Hj].
  destruct (threads c !! j) as [t|] eqn:Htj; [|apply lookup_ge_None in Htj; apply lookup_lt_Some in Hj; lia].
  destruct j as [|j]; [congruence|]. destruct (rest_joiner j t Htj) as (r & l & d & _ & _ & _ & Hd' & _ & [[_ ->]|[_ ->]]); congruence.
Qed.
Lemma rest_success i a : returned (S i) (ESUCCESS, a) → raised ds.
Proof.
  intros (t & Ht & Hst). destruct (rest_joiner i t Ht) as (r & l & d & _ & (t' & Ht' & Hst') & _ & Hd & _ & Hp).
  rewrite Ht in Ht'. injection Ht' as <-. rewrite Hst in Hst'. injection Hst' as <-.
  destruct Hp as [[_ ->]|[? _]]; [|done]. exists (S i), Over. by auto.
Qed.
(** If no value was returned, all joiners have given up. *)
Lemma rest_gave_up i r : ¬ raised ds → returned (S i) r → r.1 = EINVAL ∨ r.1 = ETIMEDOUT.
Proof.
  intros Hno Hret. pose proof Hret as (t & Ht & Hst).
  destruct (rest_joiner i t Ht) as (r' & l & d & _ & (t' & Ht' & Hst') & Hl & _ & P1 & _).
  rewrite Ht in Ht'. injection Ht' as <-. rewrite Hst in Hst'. injection Hst' as <-.
  destruct P1 as [[-> _]|[[-> [= ->]]|[[-> | ->] _]]]; [by destruct Hno; eapply rest_success| |by auto..]. exfalso.
  destruct rest_jinv as (l0 & m0 & ws & HJ). destruct (jv_missed _ _ _ _ _ _ _ _ HJ (S i) Hl) as [_ [Hn|[j Hj]]].
  - rewrite (jv_num _ _ _ _ _ _ _ _ HJ) in Hn. destruct (total_pos _ _ Hn) as (j & lj & Hj & Hp).
    destruct (threads c !! j) as [u|] eqn:Hu; cycle 1.
    { destruct S1 as (_ & Hlen & _). apply lookup_ge_None in Hu. apply lookup_lt_Some in Hj. rewrite length_fmap in Hj. lia. }
    destruct j as [|j]; [destruct (rest_leaver u Hu) as [E _]; rewrite E in Hj; by injection Hj as <-|].
    destruct (rest_joiner j u Hu) as (r & l & d' & _ & _ & Hlj & _ & P1 & _). rewrite Hlj in Hj. injection Hj as ->.
    by destruct P1 as [[_ [= ->]]|[[_ [= ->]]|[_ [= ->]]]].
  - destruct (threads c !! j) as [u|] eqn:Hu; cycle 1.
    { destruct S1 as (_ & Hlen & _). apply lookup_ge_None in Hu. apply lookup_lt_Some in Hj. rewrite length_fmap in Hj. lia. }
    destruct j as [|j]; [destruct (rest_leaver u Hu) as [E _]; rewrite E in Hj; by injection Hj|].
    destruct (rest_joiner j u Hu) as (r & l & d' & _ & Hr & Hlj & _ & P1 & _). rewrite Hlj in Hj. injection Hj as ->.
    destruct P1 as [[-> _]|[[_ ?]|[_ ?]]]; [|done..]. destruct Hno. by eapply rest_success.
Qed.
End rest.

(** C18. No joiner stays asleep, and the thread is let go just if a join succeeds.  Once
    the thread that exits and those that join it have all finished or sleep in the futex
    without having been woken, the joiners have finished.  The thread has finished if
    and only if a join has returned its value; if it still waits, every join has
    returned EINVAL or ETIMEDOUT, that is, has given up before the exit. *)
Theorem join_releases tries fuel th v m kt rs c t0 :
  Z.of_nat (length rs) < 2 ^ 31 - 1 → rtc step (join_start tries fuel th v m kt rs) c →
  Forall (λ t, is_done t ∨ is_asleep t) (threads c) → threads c !! 0%nat = Some t0 →
  (∀ i t, threads c !! S i = Some t → is_done t) ∧
  (is_done t0 ↔ ∃ i a, returned c (S i) (ESUCCESS, a)) ∧
  (is_asleep t0 → ∀ i r, returned c (S i) r → r.1 = EINVAL ∨ r.1 = ETIMEDOUT).
Proof.
  intros Hs Hr Hrest Ht0. destruct (join_sound1 tries fuel th v m kt rs Hs c Hr) as (gs & S1).
  destruct (join_sound2 tries fuel th v m kt rs c Hr) as (ds & S2).
  pose proof (rest_leaver th v c gs ds S1 S2 Hrest t0 Ht0) as [_ H0].
  pose proof (rest_asleep th v c gs ds S1 S2 Hrest t0 Ht0) as Has.
  split_and!.
  - intros i t Ht. by destruct (rest_joiner th v c gs ds S1 S2 Hrest i t Ht) as (r & l & d & ? & _).
  - split; [intros Hd; apply (rest_raised th v c gs ds S1 S2 Hrest)|intros (i & a & Hret)].
    + destruct H0 as [[_ E]|(Ha & _)]; [destruct S2 as (HD & _); by apply (dv_past _ _ _ HD) in E|].
      unfold is_done, is_asleep in *. by destruct (st t0) as [[]|].
    + destruct H0 as [[? _]|(Ha & _)]; [done|]. destruct (Has Ha). by eapply (rest_success th v c gs ds S1 S2 Hrest).
  - intros Ha i r Hret. eapply (rest_gave_up th v c gs ds S1 S2 Hrest); [by apply Has|done].
Qed.
