(* ===== verification/PthreadOnce.v ===== *)
(** * libpthreads: one-time initialisation

    Any number of threads call [pthread_once] on one control word.  Shown: the
    initialisation runs once, and whoever returns sees what it wrote.  A call from
    within the initialisation itself never returns. *)

From S2P Require Import Prelude Mach Tso Pthread PthreadThread.

(** ** Clients *)

(** The initialisation writes a word; each user reads it afterwards. *)
Definition once_init (v : Z) (i : nat) : T unit := mark (Enter i);; sto DATA v;; mark (Leave i).
Definition once_user (fuel : nat) (o v : Z) (i : nat) : T Z := pthread_once fuel o (once_init v i);; ld DATA.
(** The control word is set to PTHREAD_ONCE_INIT. *)
Definition once_start (fuel : nat) (o v : Z) (m : ploc → Z) (n : nat) : @config ploc pevent (option Z) :=
  Config (upd m (Once o) _PTHREAD_ONCE_SIG_init)
    ((λ i, Thread [] (Run (once_user fuel o v i))) <$> seq 0 n) [].

(** ** The invariant *)

(** A thread waits; has won, and has made [k] of its five steps; or has seen that the
    initialisation is done. *)
Inductive ol := Waiting | Won (k : nat) | Passed.

Section once.
Context (o v : Z).
Abbreviation ON := (Once o).

(** What the winner has stored and marked by its steps. *)
Definition won_stores (k : nat) : list (ploc * Z) :=
  (if decide (2 <= k)%nat then [(DATA, v)] else []) ++ (if decide (4 <= k)%nat then [(ON, _PTHREAD_ONCE_SIG)] else []).
Definition won_events (k w : nat) : list pevent :=
  (if decide (1 <= k)%nat then [Enter w] else []) ++ (if decide (3 <= k)%nat then [Leave w] else []).

(** Before there is a winner, and then. *)
Definition quiet (ls : list ol) (m : ploc → Z) (bufs : list (list (ploc * Z))) (es : list pevent) : Prop :=
  m ON = _PTHREAD_ONCE_SIG_init ∧ es = [] ∧
  (∀ i l, ls !! i = Some l → l = Waiting) ∧ (∀ i b, bufs !! i = Some b → b = []).
Definition decided (w k : nat) (fl b : list (ploc * Z)) (ls : list ol) (m : ploc → Z)
    (bufs : list (list (ploc * Z))) (es : list pevent) : Prop :=
  ls !! w = Some (Won k) ∧ (k <= 4)%nat ∧ es = won_events k w ∧ bufs !! w = Some b ∧ won_stores k = fl ++ b ∧
  m ON = (if decide (ON ∈ fl.*1) then _PTHREAD_ONCE_SIG else _PTHREAD_NO_SIG) ∧ (DATA ∈ fl.*1 → m DATA = v) ∧
  (∀ i l, ls !! i = Some l → i ≠ w → l = Waiting ∨ l = Passed ∧ ON ∈ fl.*1) ∧
  (∀ i b', bufs !! i = Some b' → i ≠ w → b' = []).
Definition oinv (ls : list ol) (m : ploc → Z) (bufs : list (list (ploc * Z))) (es : list pevent) : Prop :=
  length bufs = length ls ∧
  (quiet ls m bufs es ∨ ∃ w k fl b, decided w k fl b ls m bufs es).
Definition OInv (ls : list ol) (s : @shared ploc pevent) : Prop := oinv ls (s_mem s) (s_bufs s) (s_evs s).

Abbreviation wpo := (wpT OInv (λ _, True)).

(** Stores reach memory in order: the word before the control word. *)
Lemma stores_order k fl b : won_stores k = fl ++ b → ON ∈ fl.*1 → fl = [(DATA, v); (ON, _PTHREAD_ONCE_SIG)] ∧ b = [] ∧ (4 <= k)%nat.
Proof.
  unfold won_stores. intros E Hin.
  destruct (decide (4 <= k)%nat) as [H4|H4]; [rewrite decide_True in E by lia|].
  - destruct fl as [|p1 [|p2 fl]]; cbn in E; [by apply not_elem_of_nil in Hin| |].
    + injection E as <- _. cbn in Hin. by apply list_elem_of_singleton in Hin.
    + injection E as <- <- E. symmetry in E. by apply app_eq_nil in E as [-> ->].
  - rewrite app_nil_r in E. assert (Hno : ON ∉ (fl ++ b).*1).
    { rewrite <- E. case_decide; cbn; [by intros ?%list_elem_of_singleton|by intros ?%not_elem_of_nil]. }
    destruct Hno. rewrite fmap_app. apply elem_of_app. by left.
Qed.

Lemma OInv_flush ls s i x u b :
  OInv ls s → s_bufs s !! i = Some ((x, u) :: b) →
  OInv ls (Shared (upd (s_mem s) x u) (<[i := b]> (s_bufs s)) (s_queue s) (s_evs s)).
Proof.
  unfold OInv. cbn. intros [Hlen [Hq|(w & k & fl & b0 & Hd)]] Hb; (split; [by rewrite length_insert|]).
  { destruct Hq as (_ & _ & _ & Hq). by apply Hq in Hb. }
  destruct Hd as (Hw & Hk & He & Hbw & Hst & Hon & Hda & Hls & Hbs).
  destruct (decide (i = w)) as [->|Hne]; [|by apply Hbs in Hb].
  rewrite Hb in Hbw. injection Hbw as <-. right. exists w, k, (fl ++ [(x, u)]), b.
  assert (Hin : (x, u) ∈ won_stores k) by (rewrite Hst; apply elem_of_app; right; by left).
  assert (Hx : x = DATA ∧ u = v ∨ x = ON ∧ u = _PTHREAD_ONCE_SIG).
  { unfold won_stores in Hin. apply elem_of_app in Hin as [Hin|Hin]; case_decide;
      [apply list_elem_of_singleton in Hin as [= -> ->]; by auto|by apply not_elem_of_nil in Hin|
       apply list_elem_of_singleton in Hin as [= -> ->]; by auto|by apply not_elem_of_nil in Hin]. }
  split_and!; try done.
  - by rewrite list_lookup_insert_eq by (by eapply lookup_lt_Some).
  - by rewrite <- app_assoc.
  - rewrite fmap_app. cbn. destruct Hx as [[-> ->]|[-> ->]].
    + rewrite upd_other by done. rewrite Hon. apply decide_ext. rewrite elem_of_app, list_elem_of_singleton. naive_solver.
    + rewrite upd_same, decide_True; [done|]. apply elem_of_app. right. by left.
  - rewrite fmap_app, elem_of_app. cbn. rewrite list_elem_of_singleton. intros HD.
    destruct Hx as [[-> ->]|[-> ->]]; [by rewrite upd_same|]. rewrite upd_other by done. naive_solver.
  - intros j l Hj Hjw. destruct (Hls j l Hj Hjw) as [|[-> Hin']]; [by left|right]. split; [done|].
    rewrite fmap_app. apply elem_of_app. by left.
  - intros j b' Hj Hjw. rewrite list_lookup_insert_ne in Hj by done. by eapply Hbs.
Qed.

(** ** Steps *)

Lemma waiting_buf ls m bufs es i l b :
  oinv ls m bufs es → ls !! i = Some l → l = Waiting ∨ l = Passed → bufs !! i = Some b → b = [].
Proof.
  intros [_ [(_ & _ & _ & Hb)|(w & k & fl & b0 & Hd)]] Hl Hwt Hbi; [by eapply Hb|].
  destruct Hd as (Hw & _ & _ & _ & _ & _ & _ & _ & Hbs). apply (Hbs i); [done|]. intros ->. simplify_eq. by destruct Hwt.
Qed.
Lemma buffer_of ls (s : @shared ploc pevent) i l : OInv ls s → ls !! i = Some l → ∃ b, s_bufs s !! i = Some b.
Proof. intros [Hlen _] Hl. apply lookup_lt_is_Some_2. rewrite Hlen. by eapply lookup_lt_Some. Qed.

(** A waiting thread looks at the control word. *)
Lemma wpo_look i Q :
  (∀ sig, sig ≠ _PTHREAD_ONCE_SIG → Q sig Waiting) → Q _PTHREAD_ONCE_SIG Passed → wpo i (ld ON) Q Waiting.
Proof.
  intros Hno Hyes ls s Hl Hi _. destruct (buffer_of ls s i _ Hi Hl) as [b Hb].
  rewrite (waiting_buf _ _ _ _ i _ b Hi Hl ltac:(by left) Hb) in Hb.
  unfold view_of. rewrite Hb. cbn. destruct (decide (s_mem s ON = _PTHREAD_ONCE_SIG)) as [E|E].
  - rewrite E. exists Passed. split; [|done]. destruct Hi as [Hlen [(Hq & _)|(w & k & fl & b0 & Hd)]]; [by rewrite Hq in E|].
    destruct Hd as (Hw & Hk & He & Hbw & Hst & Hon & Hda & Hls & Hbs). split; [by rewrite length_insert|right].
    assert (Hiw : i ≠ w) by (intros ->; by simplify_eq).
    exists w, k, fl, b0. split_and!; try done; [by rewrite list_lookup_insert_ne|].
    intros j l Hj Hjw. apply lookup_insert_cases in Hj as [[<- ->]|[_ Hj]]; [|by eauto].
    right. split; [done|]. rewrite Hon in E. by case_decide.
  - exists Waiting. split; [|by apply Hno]. by rewrite list_insert_id.
Qed.

(** It tries to become the one that initialises. *)
Lemma wpo_try i Q :
  (∀ old, old ≠ _PTHREAD_ONCE_SIG_init → Q old Waiting) → Q _PTHREAD_ONCE_SIG_init (Won 0) →
  wpo i (cmpxchg ON _PTHREAD_ONCE_SIG_init _PTHREAD_NO_SIG) Q Waiting.
Proof.
  intros Hno Hyes ls s Hl Hi [Hb _]. unfold write.
  destruct (decide (s_mem s ON = _PTHREAD_ONCE_SIG_init)) as [E|E].
  - exists (Won 0). split; [|by rewrite E]. destruct Hi as [Hlen [(_ & He & Hls & Hbs)|(w & k & fl & b0 & Hd)]]; cycle 1.
    { destruct Hd as (_ & _ & _ & _ & _ & Hon & _). rewrite Hon in E. by case_decide. }
    split; cbn; [by rewrite length_insert|right]. exists i, 0%nat, [], []. split_and!; try done.
    + by rewrite list_lookup_insert_eq by (by eapply lookup_lt_Some).
    + lia.
    + by rewrite upd_same.
    + by intros ?%not_elem_of_nil.
    + intros j l Hj Hji. rewrite list_lookup_insert_ne in Hj by done. left. by eapply Hls.
    + intros j b' Hj _. by eapply Hbs.
  - exists Waiting. split; [|by apply Hno]. rewrite list_insert_id by done.
    destruct Hi as [Hlen Hcase]. split; [done|]. cbn.
    assert (Hsame : ∀ y, upd (s_mem s) ON (s_mem s ON) y = s_mem s y).
    { intros y. unfold upd. by case_decide; subst. }
    destruct Hcase as [(Hq & _)|(w & k & fl & b0 & Hd)]; [done|right]. exists w, k, fl, b0.
    unfold decided in *. by rewrite !Hsame.
Qed.

(** The winner goes on: a mark, a store. *)
Lemma won_here ls m bufs es i k :
  oinv ls m bufs es → ls !! i = Some (Won k) → ∃ fl b, decided i k fl b ls m bufs es.
Proof.
  intros [_ [(_ & _ & Hq & _)|(w & k' & fl & b & Hd)]] Hl; [by apply Hq in Hl|].
  pose proof Hd as (Hw & _ & _ & _ & _ & _ & _ & Hls & _).
  destruct (decide (i = w)) as [->|Hne]; [rewrite Hl in Hw; injection Hw as <-; by eauto|].
  by destruct (Hls i _ Hl Hne) as [|[? _]].
Qed.
Lemma wpo_won_mark i k e (Q : unit → ol → Prop) :
  (k < 4)%nat → won_events (S k) i = won_events k i ++ [e] → won_stores (S k) = won_stores k →
  Q tt (Won (S k)) → wpo i (mark e) Q (Won k).
Proof.
  intros Hk4 He Hst HQ ls s Hl Hi _. exists (Won (S k)). split; [|done].
  destruct (won_here _ _ _ _ _ _ Hi Hl) as (fl & b & Hw & Hk & Hes & Hbw & Hst' & Hon & Hda & Hls & Hbs).
  split; cbn; [by rewrite length_insert, (proj1 Hi)|right]. exists i, (S k), fl, b. split_and!; try done; try congruence.
  - by rewrite list_lookup_insert_eq by (by eapply lookup_lt_Some).
  - intros j l Hj Hji. rewrite list_lookup_insert_ne in Hj by done. by eapply Hls.
Qed.
Lemma wpo_won_sto i k x u (Q : unit → ol → Prop) :
  (k < 4)%nat → won_events (S k) i = won_events k i → won_stores (S k) = won_stores k ++ [(x, u)] →
  Q tt (Won (S k)) → wpo i (sto x u) Q (Won k).
Proof.
  intros Hk4 He Hst HQ ls s Hl Hi _. exists (Won (S k)). split; [|done].
  destruct (won_here _ _ _ _ _ _ Hi Hl) as (fl & b & Hw & Hk & Hes & Hbw & Hst' & Hon & Hda & Hls & Hbs).
  split; cbn; rewrite (alter_at _ _ i b Hbw); [by rewrite !length_insert, (proj1 Hi)|right].
  exists i, (S k), fl, (b ++ [(x, u)]). split_and!; try done; try congruence.
  - by rewrite list_lookup_insert_eq by (by eapply lookup_lt_Some).
  - by rewrite list_lookup_insert_eq by (by eapply lookup_lt_Some).
  - by rewrite Hst, Hst', app_assoc.
  - intros j l Hj Hji. rewrite list_lookup_insert_ne in Hj by done. by eapply Hls.
  - intros j b' Hj Hji. rewrite list_lookup_insert_ne in Hj by done. by eapply Hbs.
Qed.

(** Whoever is through sees the word. *)
Lemma wpo_see i Q l : l = Won 4 ∨ l = Passed → Q v l → wpo i (ld DATA) Q l.
Proof.
  intros Hl4 HQ ls s Hl Hi _. exists l. rewrite list_insert_id by done. split; [done|].
  destruct (buffer_of ls s i _ Hi Hl) as [b Hb]. unfold view_of. rewrite Hb.
  assert (Hv : view (s_mem s) b DATA = v); [|by rewrite Hv].
  destruct Hl4 as [-> | ->].
  - destruct (won_here _ _ _ _ _ _ Hi Hl) as (fl & b' & _ & _ & _ & Hbw & Hst & _ & Hda & _).
    rewrite Hb in Hbw. injection Hbw as <-. cbn in Hst. destruct fl as [|p1 fl]; cbn in Hst; [by subst b|].
    injection Hst as <- Hst. rewrite view_other; [apply Hda; by left|]. intros Hin.
    assert (Hin' : DATA ∈ (fl ++ b).*1) by (rewrite fmap_app; apply elem_of_app; by right).
    rewrite <- Hst in Hin'. by apply list_elem_of_singleton in Hin'.
  - pose proof (waiting_buf _ _ _ _ i _ b Hi Hl ltac:(by right) Hb) as ->.
    destruct Hi as [_ [(_ & _ & Hq & _)|(w & k & fl & b0 & Hd)]]; [by apply Hq in Hl|].
    destruct Hd as (Hw & _ & _ & _ & Hst & _ & Hda & Hls & _).
    destruct (Hls i Passed Hl) as [|[_ Hin]]; [intros ->; by rewrite Hl in Hw|done|].
    apply Hda. destruct (stores_order _ _ _ Hst Hin) as (-> & _). by left.
Qed.

(** ** The operation *)

Definition through (l : ol) : Prop := l = Won 4 ∨ l = Passed.
Lemma once_wait_ok i fuel Q : Q ESUCCESS Passed → wpo i (once_wait fuel o) Q Waiting.
Proof.
  intros HQ. induction fuel as [|fuel IH]; [done|]. cbn [once_wait]. apply wpT_bind, wpo_look.
  - intros sig Hs. by rewrite decide_False.
  - by rewrite decide_True.
Qed.
Lemma once_init_ok i (Q : unit → ol → Prop) : Q tt (Won 3) → wpo i (once_init v i) Q (Won 0).
Proof.
  intros HQ. apply wpT_bind, wpo_won_mark; [lia|done..|]. apply wpT_bind, wpo_won_sto; [lia|done..|].
  apply wpo_won_mark; [lia|done..].
Qed.
Lemma pthread_once_ok i fuel Q :
  (∀ l, through l → Q ESUCCESS l) → wpo i (pthread_once fuel o (once_init v i)) Q Waiting.
Proof.
  intros HQ. apply wpT_bind, wpo_look; [|rewrite decide_True by done; by apply HQ; right].
  intros sig Hs. rewrite decide_False by done. apply wpT_bind. case_decide as Hin; cycle 1.
  { apply once_wait_ok. apply HQ. by right. }
  apply wpT_bind, wpo_try.
  - intros old Hold. apply wpT_ret. rewrite bool_decide_false by done. apply once_wait_ok. apply HQ. by right.
  - apply wpT_ret, wpT_bind, once_init_ok. apply wpT_bind, wpo_won_sto; [lia|done..|]. apply HQ. by left.
Qed.
Lemma once_user_ok i fuel : wpo i (once_user fuel o v i) (λ a l, a = v ∧ through l) Waiting.
Proof. apply wpT_bind, pthread_once_ok. intros l Hl. by apply wpo_see. Qed.
End once.

Lemma once_sound fuel o v m n c :
  rtc step (once_start fuel o v m n) c →
  ∃ ls, sound (OInv o v) (λ _, True) (λ _ r l, match r with Some a => a = v ∧ through l | None => True end) ls c.
Proof.
  eapply (sound_reachable _ _ (OInv_flush o v) _ (replicate n Waiting)). split_and!.
  - split; cbn; [by rewrite !length_fmap, length_seq, length_replicate|left]. split_and!; [by rewrite upd_same|done| |].
    + by intros i l [-> _]%lookup_replicate.
    + intros i b. rewrite !list_lookup_fmap. by destruct (seq 0 n !! i); [intros [= <-]|].
  - cbn. by rewrite length_fmap, length_seq, length_replicate.
  - intros i t l Ht [-> _]%lookup_replicate. cbn in Ht. rewrite list_lookup_fmap in Ht.
    apply fmap_Some in Ht as (j & [-> _]%lookup_seq & ->). apply once_user_ok.
Qed.

(** C20. Initialised once, and seen by all.  Any number of threads call [pthread_once] with
    a routine that writes a word.  In every reachable configuration of the x86-TSO
    machine the routine has been started at most once; and when a call has returned,
    the routine has come to its end and the word that the caller then reads is the one
    it wrote. *)
Theorem once_runs_once fuel o v m n c :
  rtc step (once_start fuel o v m n) c →
  (events c = [] ∨ ∃ w, events c = [Enter w] ∨ events c = [Enter w; Leave w]) ∧
  ∀ i t a, threads c !! i = Some t → st t = Run (Ret (Some a)) → a = v ∧ ∃ w, events c = [Enter w; Leave w].
Proof.
  intros Hr. destruct (once_sound fuel o v m n c Hr) as (ls & [_ Hi] & Hlen & Hts). cbn in Hi. split.
  - destruct Hi as [(_ & -> & _)|(w & k & fl & b & _ & _ & -> & _)]; [by left|]. unfold won_events.
    destruct (decide (3 <= k)%nat); [rewrite decide_True by lia; right; exists w; by right|].
    destruct (decide (1 <= k)%nat); [right; exists w; by left|by left].
  - intros i t a Ht Hst. destruct (lookup_lt_is_Some_2 ls i) as [l Hl]; [rewrite Hlen; by eapply lookup_lt_Some|].
    specialize (Hts i t l Ht Hl). rewrite Hst in Hts. destruct Hts as [-> Hth]. split; [done|].
    destruct Hi as [(_ & _ & Hq & _)|(w & k & fl & b & Hd)]; [apply Hq in Hl as ->; by destruct Hth|].
    destruct Hd as (Hw & _ & -> & _ & Hst' & _ & _ & Hls & _). exists w.
    assert (4 <= k)%nat as H4; [|unfold won_events; by rewrite !decide_True by lia].
    destruct (decide (i = w)) as [->|Hne]; [rewrite Hl in Hw; destruct Hth as [-> | ->]; by simplify_eq|].
    destruct (Hls i l Hl Hne) as [-> |[-> Hin]]; [by destruct Hth|]. by apply (stores_order _ _ _ _ _ Hst').
Qed.

(** ** A call from within *)

(** The routine of [pthread_once] calls [pthread_once] on the same control word. *)
Definition reentrant_start (fuel : nat) (o : Z) (m : ploc → Z) (init : T unit) : @config ploc pevent (option Z) :=
  Config (upd m (Once o) _PTHREAD_ONCE_SIG_init)
    [Thread [] (Run (pthread_once fuel o (pthread_once fuel o init;; mret tt)))] [].

(** It has won, or not yet. *)
Definition REInv (o : Z) (ls : list bool) (s : @shared ploc pevent) : Prop :=
  ∃ won, ls = [won] ∧ s_bufs s = [[]] ∧
    s_mem s (Once o) = if (won : bool) then _PTHREAD_NO_SIG else _PTHREAD_ONCE_SIG_init.
Abbreviation wpre o := (wpT (REInv o) (λ _, True)).
Lemma re_look o Q (won : bool) :
  Q (if won then _PTHREAD_NO_SIG else _PTHREAD_ONCE_SIG_init) won → wpre o 0%nat (ld (Once o)) Q won.
Proof.
  intros HQ ls s Hl (w & -> & Hb & Hm) _. injection Hl as ->. exists won. split; [by exists won|].
  unfold view_of. rewrite Hb. cbn. by rewrite Hm.
Qed.
Lemma re_try o Q :
  Q _PTHREAD_ONCE_SIG_init true → wpre o 0%nat (cmpxchg (Once o) _PTHREAD_ONCE_SIG_init _PTHREAD_NO_SIG) Q false.
Proof.
  intros HQ ls s Hl (w & -> & Hb & Hm) _. injection Hl as ->. exists true. split; [|by rewrite Hm].
  exists true. split_and!; [done..|]. unfold write. cbn. by rewrite upd_same, Hm.
Qed.
Lemma re_spin o fuel Q : wpre o 0%nat (once_wait fuel o) Q true.
Proof.
  induction fuel as [|fuel IH]; [done|]. cbn [once_wait]. apply wpT_bind, re_look. by rewrite decide_False.
Qed.
Lemma re_call o fuel init Q : wpre o 0%nat (pthread_once fuel o init) Q true.
Proof. apply wpT_bind, re_look. rewrite !decide_False by done. apply wpT_bind, wpT_ret, re_spin. Qed.
Lemma re_outer o fuel init Q : wpre o 0%nat (pthread_once fuel o (pthread_once fuel o init;; mret tt)) Q false.
Proof.
  apply wpT_bind, re_look. rewrite decide_False, decide_True by done. apply wpT_bind, wpT_bind, re_try, wpT_ret.
  rewrite bool_decide_true by done. apply wpT_bind, wpT_bind, re_call.
Qed.

(** A call from within never returns.  The comment of [pthread_once] says that a
    reentrant call from the initialisation routine sees that it is in progress and
    returns at once; in the code it spins, as no one else is going to set the word.
    Whatever the number of spins allowed and the inner routine, a thread that calls
    [pthread_once] with such a routine never returns. *)
Theorem once_reentrant_spins fuel o m init c t a :
  rtc step (reentrant_start fuel o m init) c → threads c !! 0%nat = Some t → st t ≠ Run (Ret (Some a)).
Proof.
  intros Hr Ht.
  assert (Hs : ∃ ls, sound (REInv o) (λ _, True) (λ _ r _, match r with Some _ => False | None => True end) ls c).
  { eapply sound_reachable; [|split_and!|exact Hr].
    - intros ls s i x u b (won & -> & Hb & Hm) Hbi. rewrite Hb in Hbi. destruct i as [|[]]; cbn in Hbi; by simplify_eq.
    - exists false. cbn. by rewrite upd_same.
    - done.
    - intros i t0 l Ht0 Hl. destruct i as [|[]]; [|done..]. injection Ht0 as <-. injection Hl as <-. by apply (re_outer o fuel init (λ _ _, False)). }
  destruct Hs as (ls & _ & Hlen & Hts). destruct (lookup_lt_is_Some_2 ls 0) as [l Hl]; [rewrite Hlen; by eapply lookup_lt_Some|].
  intros Hst. specialize (Hts 0%nat t l Ht Hl). by rewrite Hst in Hts.
Qed.
