(* ===== verification/PthreadThreadRuns.v ===== *)
(** * libpthreads: runs of threads that end

    Schedules for joining and one-time initialisation, and runs that show flaws: a
    thread that exits before it is detached is never let go, a join can fail while the
    thread runs on, a request to cancel can be lost, a parked thread can run its old
    function again, and the setters of the cancellation state misreport the old one. *)

From S2P Require Import Prelude Mach Tso Pthread PthreadMutex PthreadGuard PthreadRuns PthreadThread PthreadJoin PthreadOnce.

Definition result {A} (t : @thread ploc pevent (option A)) : option A :=
  match st t with Run (Ret (Some a)) => Some a | _ => None end.
Lemma result_returned {A} (t : @thread ploc pevent (option A)) a : result t = Some a → st t = Run (Ret (Some a)).
Proof. unfold result. destruct (st t) as [[[]| | | | | | |]|]; intros; by simplify_eq. Qed.

(** ** One-time initialisation *)

Definition init_start := once_start 3 7 42 a_memory 3.
Definition init_end : config := drive 50 2 (drive 50 1 (drive 50 0 (drive 2 1 (drive 2 0 init_start)))).
Lemma init_end_steps : rtc step init_start init_end.
Proof. unfold init_end. do 4 (etransitivity; [|apply drive_steps]). apply drive_steps. Qed.
Lemma once_runs_once_witness :
  result <$> threads init_end = [Some 42; Some 42; Some 42] ∧ ∃ w, events init_end = [Enter w; Leave w].
Proof.
  split; [by vm_compute|].
  destruct (threads init_end !! 2%nat) as [t|] eqn:Ht; [|exfalso; by vm_compute in Ht].
  assert (Hr : result <$> threads init_end !! 2%nat = Some (Some 42)) by (by vm_compute). rewrite Ht in Hr. injection Hr as Hr.
  exact (proj2 (proj2 (once_runs_once 3 7 42 a_memory 3 init_end init_end_steps) 2%nat t 42 Ht (result_returned t 42 Hr))).
Defined.

Definition reentrant_end : config := drive 100 0 (reentrant_start 5 7 a_memory (mark (Enter 0))).
Lemma once_reentrant_spins_witness :
  result <$> threads reentrant_end = [None] ∧
  ∃ t, threads reentrant_end !! 0%nat = Some t ∧ st t ≠ Run (Ret (Some ESUCCESS)).
Proof.
  split; [by vm_compute|]. destruct (threads reentrant_end !! 0%nat) as [t|] eqn:Ht; [|exfalso; by vm_compute in Ht].
  exists t. split; [done|].
  exact (once_reentrant_spins 5 7 a_memory (mark (Enter 0)) reentrant_end t ESUCCESS (drive_steps _ _ _) Ht).
Defined.

(** ** Joining *)

(** Three threads join a fourth one; then it exits; of the three, the last one to wake
    takes the value. *)
Definition meet_rs : list jreq := [Join; Join; TimedJoin (10, 0) (3, 0)].
Definition family_start := join_start 2 3 100 77 a_memory 9 meet_rs.
Definition family_end : config :=
  drive 200 0 (drive 200 3 (drive 200 2 (drive 200 1 (drive 100 0 (drive 100 3 (drive 100 2 (drive 100 1 family_start))))))).
Lemma family_end_steps : rtc step family_start family_end.
Proof. unfold family_end. do 7 (etransitivity; [|apply drive_steps]). apply drive_steps. Qed.
Lemma join_returns_value_witness :
  result <$> threads family_end = [Some (ESUCCESS, None); Some (ESRCH, None); Some (ESRCH, None); Some (ESUCCESS, Some 77)] ∧
  ∃ t a, threads family_end !! 3%nat = Some t ∧ st t = Run (Ret (Some (ESUCCESS, a))) ∧ a = Some 77.
Proof.
  split; [by vm_compute|]. destruct (threads family_end !! 3%nat) as [t|] eqn:Ht; [|exfalso; by vm_compute in Ht].
  assert (Hr : result <$> threads family_end !! 3%nat = Some (Some (ESUCCESS, Some 77))) by (by vm_compute). rewrite Ht in Hr. injection Hr as Hr.
  exists t, (Some 77). split_and!; [done|by apply result_returned|].
  exact (join_returns_value 2 3 100 77 a_memory 9 meet_rs family_end 2 t (Some 77) ltac:(done) family_end_steps Ht (result_returned _ _ Hr)).
Defined.
Lemma family_done : Forall (λ t, is_done t ∨ is_asleep t) (threads family_end).
Proof.
  eapply (list.Forall_impl (λ t, Is_true (is_done t))); [apply forallb_True; by vm_compute|by left].
Qed.
Lemma join_releases_witness : ∃ t0, threads family_end !! 0%nat = Some t0 ∧
  (is_done t0 ↔ ∃ i a, returned family_end (S i) (ESUCCESS, a)).
Proof.
  destruct (threads family_end !! 0%nat) as [t|] eqn:Ht; [|exfalso; by vm_compute in Ht]. exists t. split; [done|].
  exact (proj1 (proj2 (join_releases 2 3 100 77 a_memory 9 meet_rs family_end t ltac:(done) family_end_steps family_done Ht))).
Defined.

(** ** Detaching too late *)

Definition detacher : T (Z * option Z) := rc ← pthread_detach 2 100; mret (rc, None).
Definition late_start : @config ploc pevent (option (Z * option Z)) :=
  Config (solo a_memory (_pthread_create 100 PTHREAD_CREATE_JOINABLE 9))
    [Thread [] (Run (leaver 2 3 100 77)); Thread [] (Run detacher)] [].
Definition late_end : config := drive 100 1 (drive 100 0 late_start).

(** A thread that has exited cannot be detached.  [pthread_detach] on a thread that
    has exited but was not joined returns EINVAL and does not release it: there is a
    run at whose end the caller has its error, the thread sleeps in [pthread_exit], and
    no step is left that could wake it, so that neither its stack nor its kernel thread
    is ever reused. *)
Theorem detach_after_exit_strands :
  rtc step late_start late_end ∧ result <$> threads late_end = [None; Some (EINVAL, None)] ∧
  is_asleep <$> threads late_end = [true; false] ∧ only_returns late_end.
Proof.
  split_and!; [|by vm_compute..|apply at_rest_only_returns; by vm_compute].
  unfold late_end. etransitivity; [|apply drive_steps]. apply drive_steps.
Qed.

(** ** A join that fails while the thread runs *)

(** The trap of the joiner returns without a wake-up before the thread exits. *)
Definition early_end : config :=
  drive 100 0 (drive 100 1 (attempt (Return 1 KERN_SUCCESS) (drive 100 1 (join_start 2 3 100 77 a_memory 9 [Join])))).
(** [pthread_join] does not wait again after a futex wait that ended for another reason
    than the exit: it returns EINVAL, and the thread that exits later sleeps for ever. *)
Theorem join_fails_early :
  rtc step (join_start 2 3 100 77 a_memory 9 [Join]) early_end ∧
  result <$> threads early_end = [None; Some (EINVAL, None)] ∧
  is_asleep <$> threads early_end = [true; false] ∧ only_returns early_end.
Proof.
  split_and!; [|by vm_compute..|apply at_rest_only_returns; by vm_compute].
  unfold early_end. do 2 (etransitivity; [|apply drive_steps]). etransitivity; [|apply attempt_steps]. apply drive_steps.
Qed.

(** ** Cancellation *)

Lemma resultsT_bind {A B} (Q : option B → Prop) (p : T A) (f : A → T B) :
  Q None → results (λ o, match o with Some a => results Q (f a) | None => True end) p → results Q (p ≫= f).
Proof.
  intros HN Hp. apply (results_bind Q p (λ o, match o with Some a => f a | None => Ret None end)).
  eapply results_mono; [|exact Hp]. by intros [].
Qed.
Lemma spin_lock_results tries x (Q : option unit → Prop) : (∀ o, Q o) → results Q (_spin_lock tries x).
Proof.
  intros HQ. induction tries as [|tries IH]; [apply HQ|]. cbn [_spin_lock]. apply resultsT_bind; [apply HQ|].
  cbn. intros u. case_decide; [apply HQ|exact IH].
Qed.
Lemma set_cancel_reports tries self mask bit new valid :
  Z.land mask bit = 0 →
  results (λ o, match o with Some (_, old, _) => Z.land old bit = 0 | None => True end) (set_cancel tries self mask new valid).
Proof.
  intros Hm. apply resultsT_bind; [done|]. apply spin_lock_results. intros [[]|]; [|done]. cbn. intros c.
  assert (Hz : Z.land (Z.land c mask) bit = 0) by (by rewrite <- Z.land_assoc, Hm, Z.land_0_r).
  assert (Hend : ∀ r : Z, results (λ o, match o with Some (_, old, _) => Z.land old bit = 0 | None => True end)
    (die ← _pthread_testcancel tries self; mret (r, Z.land c mask, die) : T (Z * Z * bool))).
  { intros r. apply resultsT_bind; [done|]. apply resultsT_bind; [done|]. apply spin_lock_results. by intros [[]|]; [cbn; intros|]. }
  destruct valid; cbn; intros _; apply Hend.
Qed.
(** [pthread_setcancelstate] never reports that cancellation was enabled, and
    [pthread_setcanceltype] never that it was deferred: the masks for the new value are
    used for the old one. *)
Theorem setcancel_misreports tries self new :
  results (λ o, match o with Some (_, old, _) => Z.land old PTHREAD_CANCEL_ENABLE = 0 | None => True end)
    (pthread_setcancelstate tries self new) ∧
  results (λ o, match o with Some (_, old, _) => Z.land old PTHREAD_CANCEL_DEFERRED = 0 | None => True end)
    (pthread_setcanceltype tries self new).
Proof.
  unfold pthread_setcancelstate, pthread_setcanceltype. split.
  - exact (set_cancel_reports tries self _PTHREAD_CANCEL_STATE_MASK PTHREAD_CANCEL_ENABLE _ _ eq_refl).
  - exact (set_cancel_reports tries self _PTHREAD_CANCEL_TYPE_MASK PTHREAD_CANCEL_DEFERRED _ _ eq_refl).
Qed.

(** The first thread enables cancellation, which it is already, while the second one
    cancels it. *)
Definition cancel_start : @config ploc pevent (option Z) :=
  Config (solo a_memory (_pthread_create 100 PTHREAD_CREATE_JOINABLE 9))
    [Thread [] (Run ('(rc, _, _) ← pthread_setcancelstate 2 100 PTHREAD_CANCEL_ENABLE; mret rc));
     Thread [] (Run (pthread_cancel 100))] [].
Definition cancel_end : config := drive 50 0 (drive 50 1 (drive 2 0 cancel_start)).
(** [pthread_cancel] sets its bit without the lock under which the setters read and
    write the word: both calls succeed, and the request is gone. *)
Theorem cancel_lost :
  rtc step cancel_start cancel_end ∧ result <$> threads cancel_end = [Some ESUCCESS; Some ESUCCESS] ∧
  Z.land (memory cancel_end (Th 100 CANCEL_STATE)) _PTHREAD_CANCEL_PENDING = 0.
Proof.
  split_and!; [|by vm_compute..]. unfold cancel_end. do 2 (etransitivity; [|apply drive_steps]). apply drive_steps.
Qed.

(** ** The pool *)

Definition parked_start : @config ploc pevent (option (option (Z * Z))) :=
  Config (upd (upd a_memory (Th 100 FUN) 5) (Th 100 ARG) 6) [Thread [] (Run (_pthread_pool_park 2 100))] [].
Definition parked_end : config := drive 50 0 (attempt (Return 0 KERN_SUCCESS) (drive 50 0 parked_start)).
(** A parked thread takes any return of the trap for the word that it has been given a
    function: after one without a wake-up it runs its last function again, and the
    pool still holds it. *)
Theorem parked_runs_again :
  rtc step parked_start parked_end ∧ result <$> threads parked_end = [Some (Some (5, 6))] ∧
  memory parked_end (Pool P_COUNT) = 1 ∧ memory parked_end (Pool (P_SELF 0)) = 100.
Proof.
  split_and!; [|by vm_compute..]. unfold parked_end. etransitivity; [|apply drive_steps].
  etransitivity; [|apply attempt_steps]. apply drive_steps.
Qed.
