(* ===== verification/PageCache.v ===== *)
(** * The page cache of the file systems

    file_systems/page_cache.c: a cache of disk blocks with a hash table for the
    search, a doubly linked list in the order of use, and dirty blocks that are
    written back when they are evicted or when the cache is synchronised.  The
    entries are an array; they are linked by pointers into three kinds of list (the
    chains of the hash table, the list of use with its two sentinels, the free list,
    which shares the field of the chains).  Each operation runs under [pc_lock], so
    that it is one step; [page_cache_sync] gives the lock up while it writes, and its
    parts are definitions of their own.

    The contents of an entry's buffer are kept in the entry.  The disk is a function
    from block numbers to bytes; what the write-back callback and [vm_allocate]
    answer, and what a write that failed has left on the disk, is given by an
    environment, by the number of the call. *)

From S2P Require Import Prelude Mach.

(** ** Data *)

(** A pointer to an entry or to one of the sentinels of the list of use. *)
Inductive node := Null | Head | Tail | Ent (i : nat).
#[global] Instance node_eq_dec : EqDecision node.
Proof. solve_decision. Defined.

(** [struct page_cache_entry]; [pc_data] is the buffer ([None] for no buffer), and
    [pc_size] its length. *)
Record page_cache_entry := Entry {
  pc_block : Z;
  pc_data : option (list Z);
  pc_phys : Z;
  pc_dirty : bool;
  pc_busy : bool;
  pc_hash_next : option nat;
  pc_lru_next : node;
  pc_lru_prev : node }.
Definition pc_size (e : page_cache_entry) : nat := length (default [] (pc_data e)).

Definition set_block (b : Z) (e : page_cache_entry) : page_cache_entry :=
  Entry b (pc_data e) (pc_phys e) (pc_dirty e) (pc_busy e) (pc_hash_next e) (pc_lru_next e) (pc_lru_prev e).
Definition set_data (d : option (list Z)) (e : page_cache_entry) : page_cache_entry :=
  Entry (pc_block e) d (pc_phys e) (pc_dirty e) (pc_busy e) (pc_hash_next e) (pc_lru_next e) (pc_lru_prev e).
Definition set_phys (p : Z) (e : page_cache_entry) : page_cache_entry :=
  Entry (pc_block e) (pc_data e) p (pc_dirty e) (pc_busy e) (pc_hash_next e) (pc_lru_next e) (pc_lru_prev e).
Definition set_dirty (v : bool) (e : page_cache_entry) : page_cache_entry :=
  Entry (pc_block e) (pc_data e) (pc_phys e) v (pc_busy e) (pc_hash_next e) (pc_lru_next e) (pc_lru_prev e).
Definition set_busy (v : bool) (e : page_cache_entry) : page_cache_entry :=
  Entry (pc_block e) (pc_data e) (pc_phys e) (pc_dirty e) v (pc_hash_next e) (pc_lru_next e) (pc_lru_prev e).
Definition set_hash_next (p : option nat) (e : page_cache_entry) : page_cache_entry :=
  Entry (pc_block e) (pc_data e) (pc_phys e) (pc_dirty e) (pc_busy e) p (pc_lru_next e) (pc_lru_prev e).
Definition set_lru_next (n : node) (e : page_cache_entry) : page_cache_entry :=
  Entry (pc_block e) (pc_data e) (pc_phys e) (pc_dirty e) (pc_busy e) (pc_hash_next e) n (pc_lru_prev e).
Definition set_lru_prev (n : node) (e : page_cache_entry) : page_cache_entry :=
  Entry (pc_block e) (pc_data e) (pc_phys e) (pc_dirty e) (pc_busy e) (pc_hash_next e) (pc_lru_next e) n.

(** [struct page_cache]; [pc_dma_pool] says whether there is a pool, and
    [pc_writeback] whether there is a callback.  [pc_max_entries] is the length of
    the pool.  A sentinel has its two links. *)
Record page_cache := PageCache {
  pc_count : Z;
  pc_hits : Z;
  pc_misses : Z;
  pc_evictions : Z;
  pc_writebacks : Z;
  pc_writeback : bool;
  pc_pool : list page_cache_entry;
  pc_free : option nat;
  pc_dma_pool : bool;
  pc_hash : list (option nat);
  pc_lru_head : node * node;
  pc_lru_tail : node * node }.

Definition set_pool (f : list page_cache_entry → list page_cache_entry) (s : page_cache) : page_cache :=
  PageCache (pc_count s) (pc_hits s) (pc_misses s) (pc_evictions s) (pc_writebacks s) (pc_writeback s)
    (f (pc_pool s)) (pc_free s) (pc_dma_pool s) (pc_hash s) (pc_lru_head s) (pc_lru_tail s).
Definition set_free (p : option nat) (s : page_cache) : page_cache :=
  PageCache (pc_count s) (pc_hits s) (pc_misses s) (pc_evictions s) (pc_writebacks s) (pc_writeback s)
    (pc_pool s) p (pc_dma_pool s) (pc_hash s) (pc_lru_head s) (pc_lru_tail s).
Definition set_hash (h : nat) (p : option nat) (s : page_cache) : page_cache :=
  PageCache (pc_count s) (pc_hits s) (pc_misses s) (pc_evictions s) (pc_writebacks s) (pc_writeback s)
    (pc_pool s) (pc_free s) (pc_dma_pool s) (<[h := p]> (pc_hash s)) (pc_lru_head s) (pc_lru_tail s).
Definition set_sentinels (hd tl : node * node) (s : page_cache) : page_cache :=
  PageCache (pc_count s) (pc_hits s) (pc_misses s) (pc_evictions s) (pc_writebacks s) (pc_writeback s)
    (pc_pool s) (pc_free s) (pc_dma_pool s) (pc_hash s) hd tl.
Definition set_count (n : Z) (s : page_cache) : page_cache :=
  PageCache n (pc_hits s) (pc_misses s) (pc_evictions s) (pc_writebacks s) (pc_writeback s)
    (pc_pool s) (pc_free s) (pc_dma_pool s) (pc_hash s) (pc_lru_head s) (pc_lru_tail s).
Definition count_hit (s : page_cache) : page_cache :=
  PageCache (pc_count s) (pc_hits s +32 1) (pc_misses s) (pc_evictions s) (pc_writebacks s) (pc_writeback s)
    (pc_pool s) (pc_free s) (pc_dma_pool s) (pc_hash s) (pc_lru_head s) (pc_lru_tail s).
Definition count_miss (s : page_cache) : page_cache :=
  PageCache (pc_count s) (pc_hits s) (pc_misses s +32 1) (pc_evictions s) (pc_writebacks s) (pc_writeback s)
    (pc_pool s) (pc_free s) (pc_dma_pool s) (pc_hash s) (pc_lru_head s) (pc_lru_tail s).
Definition count_eviction (s : page_cache) : page_cache :=
  PageCache (pc_count s) (pc_hits s) (pc_misses s) (pc_evictions s +32 1) (pc_writebacks s) (pc_writeback s)
    (pc_pool s) (pc_free s) (pc_dma_pool s) (pc_hash s) (pc_lru_head s) (pc_lru_tail s).
Definition count_writeback (s : page_cache) : page_cache :=
  PageCache (pc_count s) (pc_hits s) (pc_misses s) (pc_evictions s) (pc_writebacks s +32 1) (pc_writeback s)
    (pc_pool s) (pc_free s) (pc_dma_pool s) (pc_hash s) (pc_lru_head s) (pc_lru_tail s).

Definition PAGE_CACHE_HASH_BUCKETS : Z := 4096.
Definition PC_HASH (block : Z) : nat := Z.to_nat (block mod PAGE_CACHE_HASH_BUCKETS).
(** [(daddr_t)-1]; [daddr_t] is an unsigned 32-bit type. *)
Definition NO_BLOCK : Z := 4294967295.

(** ** Pointers *)

Definition entry0 : page_cache_entry := Entry 0 None 0 false false None Null Null.
(** The entry at index [i], and a write to it. *)
Definition ent (s : page_cache) (i : nat) : page_cache_entry := default entry0 (pc_pool s !! i).
Definition upd_ent (i : nat) (f : page_cache_entry → page_cache_entry) (s : page_cache) : page_cache :=
  set_pool (alter f i) s.

Definition lru_next (s : page_cache) (n : node) : node :=
  match n with
  | Null => Null
  | Head => (pc_lru_head s).1
  | Tail => (pc_lru_tail s).1
  | Ent i => pc_lru_next (ent s i)
  end.
Definition lru_prev (s : page_cache) (n : node) : node :=
  match n with
  | Null => Null
  | Head => (pc_lru_head s).2
  | Tail => (pc_lru_tail s).2
  | Ent i => pc_lru_prev (ent s i)
  end.
Definition set_next (n v : node) (s : page_cache) : page_cache :=
  match n with
  | Null => s
  | Head => set_sentinels (v, (pc_lru_head s).2) (pc_lru_tail s) s
  | Tail => set_sentinels (pc_lru_head s) (v, (pc_lru_tail s).2) s
  | Ent i => upd_ent i (set_lru_next v) s
  end.
Definition set_prev (n v : node) (s : page_cache) : page_cache :=
  match n with
  | Null => s
  | Head => set_sentinels ((pc_lru_head s).1, v) (pc_lru_tail s) s
  | Tail => set_sentinels (pc_lru_head s) ((pc_lru_tail s).1, v) s
  | Ent i => upd_ent i (set_lru_prev v) s
  end.

Definition hash_head (s : page_cache) (h : nat) : option nat := default None (pc_hash s !! h).

(** ** Lists *)

Definition lru_remove (i : nat) (s : page_cache) : page_cache :=
  let s := set_next (lru_prev s (Ent i)) (lru_next s (Ent i)) s in
  set_prev (lru_next s (Ent i)) (lru_prev s (Ent i)) s.

Definition lru_insert_mru (i : nat) (s : page_cache) : page_cache :=
  let s := set_next (Ent i) (lru_next s Head) s in
  let s := set_prev (Ent i) Head s in
  let s := set_prev (lru_next s Head) (Ent i) s in
  set_next Head (Ent i) s.

(** [hash_remove]: [prev] is the entry whose link is [*pp], none for the bucket. *)
Fixpoint hash_unlink (fuel : nat) (h : nat) (prev cur : option nat) (i : nat) (s : page_cache) : page_cache :=
  match fuel, cur with
  | S fuel, Some j =>
      if decide (j = i) then
        let s := match prev with
                 | None => set_hash h (pc_hash_next (ent s i)) s
                 | Some p => upd_ent p (set_hash_next (pc_hash_next (ent s i))) s
                 end in
        upd_ent i (set_hash_next None) s
      else hash_unlink fuel h (Some j) (pc_hash_next (ent s j)) i s
  | _, _ => s
  end.
Definition hash_remove (i : nat) (s : page_cache) : page_cache :=
  let h := PC_HASH (pc_block (ent s i)) in
  hash_unlink (length (pc_pool s)) h None (hash_head s h) i s.

(** The search along a chain; one step per entry of the pool is enough. *)
Fixpoint chain_find (fuel : nat) (p : option nat) (block : Z) (s : page_cache) : option nat :=
  match fuel, p with
  | S fuel, Some i =>
      if decide (pc_block (ent s i) = block) then Some i
      else chain_find fuel (pc_hash_next (ent s i)) block s
  | _, _ => None
  end.
Definition find (block : Z) (s : page_cache) : option nat :=
  chain_find (length (pc_pool s)) (hash_head s (PC_HASH block)) block s.

Definition entry_free_data (i : nat) (s : page_cache) : page_cache :=
  match pc_data (ent s i) with
  | None => s
  | Some _ => if pc_dma_pool s then s else upd_ent i (set_data None) s
  end.

(** [memcpy] of as much of [data] as the buffer holds. *)
Definition copy_into (data buf : list Z) : list Z := take (length buf) data ++ drop (length data) buf.

(** ** The world of the cache *)

(** The answers, by the number of the call: the result of a write to the device (one
    that succeeds has written everything: the source does not look at the count) and
    what a write that failed has left in a block; the results of [vm_allocate] and of
    the reads of the device; whether the device has transfers to physical addresses;
    the size of a block of the file system, and of a record of the device. *)
Class PcEnv := {
  wb_result : nat → Z;
  wb_torn : nat → Z → list Z;
  vm_result : nat → Z;
  rd_result : nat → Z;
  has_phys : bool;
  fs_block : nat;
  rec_size : Z }.

Record world := World { cache : page_cache; disk : Z → list Z; calls : nat }.

(** Computations on the world. *)
Definition W (A : Type) : Type := world → A * world.
#[global] Instance W_ret : MRet W := λ A a w, (a, w).
#[global] Instance W_bind : MBind W := λ A B f m w, let '(a, w') := m w in f a w'.
Definition wget : W page_cache := λ w, (cache w, w).
Definition wmod (f : page_cache → page_cache) : W unit := λ w, (tt, World (f (cache w)) (disk w) (calls w)).
Definition wrun {A} (m : W A) (w : world) : world := (m w).2.
Definition wres {A} (m : W A) (w : world) : A := (m w).1.

Fixpoint wfor {A} (f : A → W unit) (xs : list A) : W unit :=
  match xs with [] => mret tt | x :: xs => f x;; wfor f xs end.

Section operations.
Context {E : PcEnv}.

Definition vm_allocate (size : nat) : W Z := λ w,
  (vm_result (calls w), World (cache w) (disk w) (S (calls w))).

(** [ext2_writeback]: the record of the device, computed in 32 bits from the number of
    sectors of a block; and the block of the disk that begins there. *)
Definition DEV_BSIZE : Z := 512.
Definition blk_to_sec : Z := Z.of_nat fs_block / DEV_BSIZE.
Definition writeback_recnum (block : Z) : Z := u32 (u32 (block * blk_to_sec) * DEV_BSIZE) / rec_size.
Definition landing (block : Z) : Z := writeback_recnum block * rec_size / Z.of_nat fs_block.
(** The data goes to the blocks from there on. *)
Definition blocks_of (size : nat) : Z := (Z.of_nat size + Z.of_nat fs_block - 1) / Z.of_nat fs_block.
Definition write_blocks (block : Z) (data : list Z) (dk : Z → list Z) : Z → list Z := λ b,
  if decide (block <= b < block + blocks_of (length data))
  then take fs_block (drop (Z.to_nat (b - block) * fs_block) data) else dk b.
Definition ext2_writeback (block : Z) (data : list Z) (phys : Z) : W Z := λ w,
  let r := wb_result (calls w) in
  let first := landing block in
  let dk := if decide (r = 0) then write_blocks first data (disk w)
            else λ b, if decide (first <= b < first + blocks_of (length data))
                      then wb_torn (calls w) b else disk w b in
  (r, World (cache w) dk (S (calls w))).

Definition entry_writeback (i : nat) : W Z :=
  s ← wget;
  let e := ent s i in
  if pc_dirty e then
    ret ← (if pc_writeback s then ext2_writeback (pc_block e) (default [] (pc_data e)) (pc_phys e)
           else mret 0);
    if decide (ret ≠ 0) then mret ret
    else
      wmod (λ s, count_writeback (upd_ent i (set_dirty false) s));;
      mret 0
  else mret 0.

(** The first entry from the tail that no write is using. *)
Fixpoint lru_victim (fuel : nat) (n : node) (s : page_cache) : option nat :=
  match fuel, n with
  | S fuel, Ent i => if pc_busy (ent s i) then lru_victim fuel (lru_prev s n) s else Some i
  | _, _ => None
  end.

Definition evict_lru : W (option nat) :=
  s ← wget;
  match lru_victim (length (pc_pool s)) (lru_prev s Tail) s with
  | None => mret None
  | Some victim =>
      entry_writeback victim;;
      wmod (lru_remove victim);;
      wmod (hash_remove victim);;
      wmod (entry_free_data victim);;
      wmod (λ s, set_count (pc_count s -32 1) s);;
      wmod count_eviction;;
      mret (Some victim)
  end.

(** [page_cache_create], the two allocations having succeeded: the free list has the
    last entry of the pool first. *)
Definition page_cache_create (max_entries : nat) (writeback : bool) : page_cache :=
  PageCache 0 0 0 0 0 writeback
    ((λ i, Entry NO_BLOCK None 0 false false (match i with O => None | S j => Some j end) Null Null)
       <$> seq 0 max_entries)
    (match max_entries with O => None | S j => Some j end)
    false (replicate (Z.to_nat PAGE_CACHE_HASH_BUCKETS) None) (Tail, Null) (Null, Head).

Definition page_cache_lookup (block : Z) : W (option (list Z)) :=
  s ← wget;
  match find block s with
  | Some i =>
      wmod (lru_remove i);;
      wmod (lru_insert_mru i);;
      s ← wget;
      wmod count_hit;;
      mret (Some (default [] (pc_data (ent s i))))
  | None => wmod count_miss;; mret None
  end.

(** An entry from the free list, or else the victim of an eviction. *)
Definition take_entry : W (option nat) :=
  s ← wget;
  match pc_free s with
  | Some i =>
      wmod (λ s, upd_ent i (set_hash_next None) (set_free (pc_hash_next (ent s i)) s));;
      mret (Some i)
  | None => evict_lru
  end.

(** The end of the insertions: the key, and the two lists. *)
Definition enter (i : nat) (block : Z) : W unit :=
  wmod (upd_ent i (λ e, set_busy false (set_dirty false (set_block block e))));;
  wmod (λ s, upd_ent i (set_hash_next (hash_head s (PC_HASH block))) s);;
  wmod (set_hash (PC_HASH block) (Some i));;
  wmod (lru_insert_mru i);;
  wmod (λ s, set_count (pc_count s +32 1) s).

(** Back to the free list. *)
Definition give_back (i : nat) : W unit :=
  wmod (λ s, set_free (Some i) (upd_ent i (set_hash_next (pc_free s)) s)).

Definition page_cache_insert (block : Z) (data : list Z) : W unit :=
  s ← wget;
  match find block s with
  | Some i => wmod (lru_remove i);; wmod (lru_insert_mru i)
  | None =>
      o ← take_entry;
      match o with
      | None => mret tt
      | Some i =>
          s ← wget;
          if pc_dma_pool s then
            wmod (upd_ent i (λ e, set_data (copy_into data <$> pc_data e) e));;
            enter i block
          else
            kr ← vm_allocate (length data);
            if decide (kr ≠ KERN_SUCCESS) then give_back i
            else
              wmod (upd_ent i (set_data (Some data)));;
              enter i block
      end
  end.

(** Write back, unlink and free an entry. *)
Definition drop_entry (i : nat) : W unit :=
  entry_writeback i;;
  wmod (lru_remove i);;
  wmod (hash_remove i);;
  wmod (entry_free_data i);;
  wmod (upd_ent i (set_block NO_BLOCK));;
  give_back i.

Definition page_cache_invalidate (block : Z) : W unit :=
  s ← wget;
  match find block s with
  | Some i => drop_entry i;; wmod (λ s, set_count (pc_count s -32 1) s)
  | None => mret tt
  end.

Definition in_use (e : page_cache_entry) : bool :=
  bool_decide (is_Some (pc_data e) ∧ pc_block e ≠ NO_BLOCK).

Definition page_cache_flush : W unit :=
  s ← wget;
  wfor (λ i, s ← wget; if in_use (ent s i) then drop_entry i else mret tt) (seq 0 (length (pc_pool s)));;
  wmod (set_count 0).

(** [page_cache_destroy]: what it writes before the memory is given up. *)
Definition page_cache_destroy : W unit :=
  s ← wget;
  wfor (λ i, s ← wget; if in_use (ent s i) then entry_writeback i;; mret tt else mret tt)
    (seq 0 (length (pc_pool s))).

Definition page_cache_mark_dirty (block : Z) : W Z :=
  s ← wget;
  match find block s with
  | Some i => wmod (upd_ent i (set_dirty true));; mret 0
  | None => mret (-1)
  end.

(** The test for a negative block is part of the source; the type is unsigned. *)
Definition page_cache_update (block : Z) (data : list Z) : W unit :=
  if decide (block < 0) then mret tt
  else
    s ← wget;
    match find block s with
    | Some i =>
        let touch :=
          wmod (upd_ent i (set_dirty true));;
          wmod (lru_remove i);;
          wmod (lru_insert_mru i) in
        if decide (pc_dma_pool s = true ∨ pc_size (ent s i) = length data) then
          wmod (upd_ent i (λ e, set_data (copy_into data <$> pc_data e) e));;
          touch
        else
          wmod (entry_free_data i);;
          kr ← vm_allocate (length data);
          if decide (kr ≠ KERN_SUCCESS) then mret tt
          else wmod (upd_ent i (set_data (Some data)));; touch
    | None =>
        page_cache_insert block data;;
        page_cache_mark_dirty block;;
        mret tt
    end.

(** ** Synchronisation *)

(** [struct sync_entry]: [sb_entry] is the entry whose buffer [data] points to. *)
Record sync_entry := SyncEntry { sb_block : Z; sb_entry : nat; sb_size : nat; sb_phys : Z }.
Definition SYNC_BATCH : nat := 64.

(** Phase 1, under the lock: the dirty entries from the tail on that no write is
    using, but for the first [skip]; they are pinned. *)
Fixpoint collect (fuel : nat) (n : node) (skip made_room : nat) (s : page_cache) : list sync_entry * page_cache :=
  match fuel, n, made_room with
  | S fuel, Ent i, S room' =>
      let e := ent s i in
      let prev := pc_lru_prev e in
      if pc_dirty e && negb (pc_busy e) then
        match skip with
        | S skip => collect fuel prev skip made_room s
        | O =>
            let s := upd_ent i (set_busy true) s in
            let '(batch, s) := collect fuel prev O room' s in
            (SyncEntry (pc_block e) i (pc_size e) (pc_phys e) :: batch, s)
        end
      else collect fuel prev skip made_room s
  | _, _, _ => ([], s)
  end.
Definition collect_batch (skip : nat) : W (list sync_entry) := λ w,
  let s := cache w in
  let '(batch, s') := collect (length (pc_pool s)) (lru_prev s Tail) skip SYNC_BATCH s in
  (batch, World s' (disk w) (calls w)).

(** Phase 2: [batch_sort] takes the elements one after the other and moves each down
    to its place among those before it. *)
Fixpoint sort_insert (x : sync_entry) (rev_sorted : list sync_entry) : list sync_entry :=
  match rev_sorted with
  | y :: ys => if decide (sb_block x < sb_block y) then y :: sort_insert x ys else x :: y :: ys
  | [] => [x]
  end.
Definition batch_sort (b : list sync_entry) : list sync_entry :=
  rev (foldl (λ acc x, sort_insert x acc) [] b).

(** [mark_range_done], under the lock: drop the pins, and the dirty flags if the
    write has landed. *)
Definition mark_done (success : bool) (block : Z) (s : page_cache) : page_cache :=
  match find block s with
  | None => s
  | Some i =>
      let s := upd_ent i (set_busy false) s in
      if success then count_writeback (upd_ent i (set_dirty false) s) else s
  end.
Definition mark_range_done (first : Z) (count : nat) (success : bool) : W unit :=
  wmod (λ s, foldl (λ s i, mark_done success (first +32 Z.of_nat i) s) s (seq 0 count)).

(** The buffer that an element of the batch points to. *)
Definition batch_buffer (s : page_cache) (x : sync_entry) : list Z := default [] (pc_data (ent s (sb_entry x))).

(** How far a run of consecutive blocks of the same size goes on. *)
Fixpoint run_extend (start : Z) (size : nat) (len : nat) (rest : list sync_entry) : nat :=
  match rest with
  | x :: rest =>
      if decide (sb_block x = start +32 Z.of_nat len ∧ sb_size x = size)
      then run_extend start size (S len) rest else len
  | [] => len
  end.

(** [page_cache_sync] holds the lock for the collection and for each bookkeeping, and
    neither between them nor during the writes.  [others] is what other threads do
    whenever it is not held; what they do can depend on the moment, through the state. *)
Section interference.
Context (others : W unit).

(** One write, and its bookkeeping; the blocks that failed. *)
Definition write_one (x : sync_entry) (blksz : nat) : W Z :=
  others;;
  s ← wget;
  ret ← ext2_writeback (sb_block x) (take blksz (batch_buffer s x)) (sb_phys x);
  others;;
  mark_range_done (sb_block x) 1 (bool_decide (ret = 0));;
  mret (if decide (ret = 0) then 0 else 1).
Fixpoint write_each (xs : list sync_entry) (blksz : nat) (failures : Z) : W Z :=
  match xs with
  | [] => mret failures
  | x :: xs => f ← write_one x blksz; write_each xs blksz (failures + f)
  end.
Definition write_run (run : list sync_entry) (start : Z) (blksz : nat) (failures : Z) : W Z :=
  match run with
  | [x] => f ← write_one x blksz; mret (failures + f)
  | _ =>
      kr ← vm_allocate (length run * blksz);
      if decide (kr ≠ KERN_SUCCESS) then write_each run blksz failures
      else
        others;;
        s ← wget;
        let mbuf := concat ((λ x, take blksz (batch_buffer s x)) <$> run) in
        others;;
        ret ← ext2_writeback start mbuf 0;
        others;;
        mark_range_done start (length run) (bool_decide (ret = 0));;
        mret (if decide (ret = 0) then failures else failures + Z.of_nat (length run))
  end.

(** Phase 3: merge runs and write; [fuel] is the length of the batch. *)
Fixpoint write_batch (fuel : nat) (batch : list sync_entry) (failures : Z) : W Z :=
  match fuel, batch with
  | S fuel, x :: rest =>
      let len := run_extend (sb_block x) (sb_size x) 1 rest in
      failures ← write_run (take len batch) (sb_block x) (sb_size x) failures;
      write_batch fuel (drop len batch) failures
  | _, _ => mret failures
  end.

(** One round of the loop of [page_cache_sync]: the new count of failures, or the
    end. *)
Definition sync_round (failures : Z) : W (option Z) :=
  others;;
  batch ← collect_batch (Z.to_nat failures);
  match batch with
  | [] => mret None
  | _ =>
      s ← wget;
      if pc_writeback s then
        let batch := batch_sort batch in
        f ← write_batch (length batch) batch failures;
        mret (Some f)
      else
        wfor (λ x, others;; mark_range_done (sb_block x) 1 true) batch;;
        mret (Some failures)
  end.
Fixpoint sync_loop (fuel : nat) (failures : Z) : W (option Z) :=
  match fuel with
  | O => mret None
  | S fuel =>
      r ← sync_round failures;
      match r with
      | None => mret (Some failures)
      | Some failures => sync_loop fuel failures
      end
  end.
Definition page_cache_sync (fuel : nat) : W (option Z) := sync_loop fuel 0.
End interference.

(** No other thread uses the cache meanwhile. *)
Definition alone : W unit := mret tt.

(** ** Caches with a pool of pages for direct transfers *)

Definition entries_per_page (block_size : nat) : nat := (4096 / block_size)%nat.
(** The place of entry [i] in the pool: its page, and the offset there. *)
Definition dma_slot (block_size i : nat) : nat * nat :=
  let epp := entries_per_page block_size in ((i / epp)%nat, ((i mod epp) * block_size)%nat).

Definition page_cache_create_dma (max_entries block_size : nat) (pa_list : list Z) (n_pages : nat)
    (writeback : bool) : option page_cache :=
  if decide (block_size = 0 ∨ 4096 < block_size ∨ n_pages = 0)%nat then None
  else
    let max_possible := u32 (Z.of_nat n_pages * Z.of_nat (entries_per_page block_size)) in
    let max := if decide (max_possible < Z.of_nat max_entries) then Z.to_nat max_possible else max_entries in
    let s := page_cache_create max writeback in
    Some (PageCache 0 0 0 0 0 writeback
      (imap (λ i e, set_data (Some (replicate block_size 0))
                      (set_phys (default 0 (pa_list !! (dma_slot block_size i).1) +32
                                   Z.of_nat (dma_slot block_size i).2) e))
         (pc_pool s))
      (pc_free s) true (pc_hash s) (pc_lru_head s) (pc_lru_tail s)).

Definition page_cache_alloc_entry (block : Z) : W (option nat) :=
  s ← wget;
  if negb (pc_dma_pool s) then mret None
  else if decide (block < 0) then mret None
  else
    match find block s with
    | Some i =>
        wmod (lru_remove i);;
        wmod (lru_insert_mru i);;
        wmod count_hit;;
        mret (Some i)
    | None =>
        wmod count_miss;;
        o ← take_entry;
        match o with
        | None => mret None
        | Some i => enter i block;; mret (Some i)
        end
    end.

(** ** Reading a block of a file *)

(** [ext2_dev_read] and [ext2_dev_read_phys]; [dbtorec] computes the record number in
    32 bits as [ext2_writeback] does. *)
Definition ext2_dev_read (block : Z) : W (option (list Z)) := λ w,
  (if decide (rd_result (calls w) = KERN_SUCCESS) then Some (disk w (landing block)) else None,
   World (cache w) (disk w) (S (calls w))).
Definition ext2_dev_read_phys (block : Z) (i : nat) : W Z := λ w,
  let r := rd_result (calls w) in
  (r, World (if decide (r = KERN_SUCCESS) then upd_ent i (set_data (Some (disk w (landing block)))) (cache w)
             else cache w) (disk w) (S (calls w))).

(** The part of [buf_read_file] that gets a block on the disk which is not the
    next one in sequence: a failed read is [None]. *)
Definition fallback_read (block : Z) : W (option (list Z)) :=
  r ← ext2_dev_read block;
  match r with
  | None => mret None
  | Some d => page_cache_insert block d;; mret (Some d)
  end.
Definition ext2_read_block (block : Z) : W (option (list Z)) :=
  r ← page_cache_lookup block;
  match r with
  | Some d => mret (Some d)
  | None =>
      r ← page_cache_lookup block;
      match r with
      | Some d => mret (Some d)
      | None =>
          s ← wget;
          if pc_dma_pool s && has_phys then
            o ← page_cache_alloc_entry block;
            match o with
            | Some i =>
                rc ← ext2_dev_read_phys block i;
                if decide (rc ≠ KERN_SUCCESS) then mret None
                else s ← wget; mret (pc_data (ent s i))
            | None => fallback_read block
            end
          else fallback_read block
      end
  end.
End operations.
