(* ===== verification/PageCacheLists.v ===== *)
(** * The page cache: linked lists

    The linked lists of the page cache as lists of indices, and what the operations on
    pointers do to them: the list of use with its two sentinels, the chains of the
    hash table, and the free list. *)

From S2P Require Import Prelude Mach PageCache.

(** ** Doubly linked lists *)

(** From [a] along [next] through [xs] to [z], and back along [prev]. *)
Fixpoint dlinked (nx pv : node → node) (a : node) (xs : list node) (z : node) : Prop :=
  match xs with
  | [] => nx a = z ∧ pv z = a
  | x :: xs => nx a = x ∧ pv x = a ∧ dlinked nx pv x xs z
  end.

(** A function changed at one point. *)
Definition fupd (f : node → node) (n v : node) : node → node := λ m, if decide (m = n) then v else f m.
Lemma fupd_same f n v : fupd f n v n = v.
Proof. unfold fupd. by rewrite decide_True. Qed.
Lemma fupd_other f n v m : m ≠ n → fupd f n v m = f m.
Proof. intros. unfold fupd. by rewrite decide_False. Qed.
Lemma fupd_cong f g n v m : f m = g m → fupd f n v m = fupd g n v m.
Proof. unfold fupd. intros ->. done. Qed.

Lemma dlinked_app nx pv a xs y ys z :
  dlinked nx pv a (xs ++ y :: ys) z ↔ dlinked nx pv a xs y ∧ dlinked nx pv y ys z.
Proof.
  revert a. induction xs as [|x xs IH]; intros a; cbn; [naive_solver|]. rewrite IH. naive_solver.
Qed.

Lemma dlinked_ext nx pv nx' pv' a xs z :
  (∀ n, n ∈ a :: xs → nx' n = nx n) → (∀ n, n ∈ xs ++ [z] → pv' n = pv n) →
  dlinked nx pv a xs z → dlinked nx' pv' a xs z.
Proof.
  revert a. induction xs as [|x xs IH]; intros a Hn Hp; cbn.
  - intros [H1 H2]. rewrite Hn, Hp by set_solver. done.
  - intros (H1 & H2 & Hd). rewrite Hn, Hp by set_solver. split_and!; [done..|].
    apply IH; [set_solver..|done].
Qed.

Lemma dlinked_last nx pv a xs z : dlinked nx pv a xs z → pv z ∈ a :: xs.
Proof.
  revert a. induction xs as [|x xs IH]; intros a; [intros [_ ->]; set_solver|].
  intros (_ & _ & Hd). apply IH in Hd. set_solver.
Qed.

Lemma dlinked_first nx pv a xs z : dlinked nx pv a xs z → nx a ∈ xs ++ [z].
Proof. destruct xs; intros [-> _]; set_solver. Qed.

(** Another end. *)
Lemma dlinked_retarget nx pv a xs y y' :
  dlinked nx pv a xs y → NoDup (a :: xs) → y' ∉ xs →
  dlinked (fupd nx (pv y) y') (fupd pv y' (pv y)) a xs y'.
Proof.
  revert a. induction xs as [|x xs IH]; intros a Hd Hnd Hy; cbn in Hd |- *.
  - destruct Hd as [_ <-]. by rewrite !fupd_same.
  - destruct Hd as (Hx & Hp & Hd). apply list.NoDup_cons in Hnd as [Ha Hnd].
    pose proof (dlinked_last _ _ _ _ _ Hd) as Hl.
    assert (Hne : a ≠ pv y) by (intros He; by rewrite <- He in Hl).
    split_and!.
    + by rewrite fupd_other.
    + rewrite fupd_other; [done|]. set_solver.
    + apply IH; [done|done|set_solver].
Qed.

(** Taking a node out: its neighbours are linked to each other. *)
Lemma dlinked_remove nx pv a xs y ys z :
  dlinked nx pv a (xs ++ y :: ys) z → NoDup (a :: xs ++ y :: ys ++ [z]) →
  dlinked (fupd nx (pv y) (nx y)) (fupd pv (nx y) (pv y)) a (xs ++ ys) z.
Proof.
  intros [H1 H2]%dlinked_app Hnd.
  pose proof (dlinked_last _ _ _ _ _ H1) as Hpy.
  assert (Hax : NoDup (a :: xs)).
  { change (a :: xs ++ y :: ys ++ [z]) with ((a :: xs) ++ y :: ys ++ [z]) in Hnd.
    by apply list.NoDup_app in Hnd as (? & _ & _). }
  assert (Hdis : ∀ n, n ∈ a :: xs → n ∉ y :: ys ++ [z]).
  { change (a :: xs ++ y :: ys ++ [z]) with ((a :: xs) ++ y :: ys ++ [z]) in Hnd.
    by apply list.NoDup_app in Hnd as (_ & ? & _). }
  destruct ys as [|w ys]; cbn in H2.
  - destruct H2 as [Hz Hy]. rewrite Hz, app_nil_r. apply dlinked_retarget; [done|done|].
    intros Hin. apply (Hdis z); set_solver.
  - destruct H2 as (Hw & Hpw & H2). rewrite Hw. apply dlinked_app. split.
    + apply dlinked_retarget; [done|done|]. intros Hin. apply (Hdis w); set_solver.
    + eapply dlinked_ext; [| |exact H2].
      * intros n Hn. apply fupd_other. intros ->. apply (Hdis (pv y) Hpy). set_solver.
      * intros n Hn. apply fupd_other. intros ->.
        change (a :: xs ++ y :: (w :: ys) ++ [z]) with ((a :: xs) ++ [y] ++ w :: ys ++ [z]) in Hnd.
        apply list.NoDup_app in Hnd as (_ & _ & Hnd). apply list.NoDup_app in Hnd as (_ & _ & Hnd).
        by apply list.NoDup_cons in Hnd as [? _].
Qed.

(** Putting a node in at the front. *)
Lemma dlinked_insert nx pv a xs z y :
  dlinked nx pv a xs z → y ∉ a :: xs ++ [z] → NoDup (a :: xs ++ [z]) →
  dlinked (fupd (fupd nx y (nx a)) a y) (fupd (fupd pv y a) (nx a) y) a (y :: xs) z.
Proof.
  intros Hd Hy Hnd. cbn. apply not_elem_of_cons in Hy as [Hya Hy]. split_and!.
  - by rewrite fupd_same.
  - pose proof (dlinked_first _ _ _ _ _ Hd).
    rewrite fupd_other by set_solver. by rewrite fupd_same.
  - destruct xs as [|x xs]; cbn in Hd |- *.
    + destruct Hd as [-> _]. rewrite fupd_other, fupd_same by done. by rewrite fupd_same.
    + destruct Hd as (-> & _ & Hd). rewrite fupd_other, !fupd_same by done. split_and!; [done..|].
      apply list.NoDup_cons in Hnd as [Ha Hnd]. cbn in Hnd. apply list.NoDup_cons in Hnd as [Hx _].
      eapply dlinked_ext; [| |exact Hd].
      * intros n Hn. rewrite !fupd_other; [done|set_solver|]. intros ->. set_solver.
      * intros n Hn. rewrite !fupd_other; [done|set_solver|]. intros ->. set_solver.
Qed.

(** ** Chains *)

Fixpoint hchain (hn : nat → option nat) (p : option nat) (l : list nat) : Prop :=
  match l with
  | [] => p = None
  | i :: l => p = Some i ∧ hchain hn (hn i) l
  end.

Lemma hchain_ext hn hn' p l : (∀ i, i ∈ l → hn' i = hn i) → hchain hn p l → hchain hn' p l.
Proof.
  revert p. induction l as [|i l IH]; intros p He; cbn; [done|]. intros [-> Hc]. split; [done|].
  rewrite He by set_solver. apply IH; [set_solver|done].
Qed.

(** ** Reads and writes of the cache *)

Lemma ent_upd i f s j :
  ent (upd_ent i f s) j = if decide (j = i ∧ (i < length (pc_pool s))%nat) then f (ent s i) else ent s j.
Proof.
  unfold ent, upd_ent. cbn. destruct (decide (j = i)) as [->|Hne].
  - rewrite list_lookup_alter_eq. case_decide as Hd.
    + destruct (lookup_lt_is_Some_2 (pc_pool s) i) as [e He]; [lia|]. by rewrite He.
    + rewrite lookup_ge_None_2 by naive_solver lia. done.
  - rewrite list_lookup_alter_ne, decide_False by naive_solver. done.
Qed.
Lemma ent_upd_same i f s : (i < length (pc_pool s))%nat → ent (upd_ent i f s) i = f (ent s i).
Proof. intros. by rewrite ent_upd, decide_True. Qed.
Lemma ent_upd_other i f s j : j ≠ i → ent (upd_ent i f s) j = ent s j.
Proof. intros. rewrite ent_upd, decide_False by naive_solver. done. Qed.
(** A field that the write does not change. *)
Lemma ent_upd_field {B} (g : page_cache_entry → B) i f s j :
  (∀ e, g (f e) = g e) → g (ent (upd_ent i f s) j) = g (ent s j).
Proof. intros Hg. rewrite ent_upd. case_decide as Hd; [|done]. destruct Hd as [-> _]. apply Hg. Qed.

Definition valid (s : page_cache) (n : node) : Prop :=
  match n with Null => False | Ent i => (i < length (pc_pool s))%nat | _ => True end.

Lemma next_set_next n v s m : valid s n → lru_next (set_next n v s) m = fupd (lru_next s) n v m.
Proof.
  intros Hn. unfold fupd. destruct n as [| | |i], m as [| | |j]; cbn in *; try done.
  unfold lru_next, set_next. rewrite ent_upd. case_decide as Hd.
  - destruct Hd as [-> _]. by rewrite decide_True.
  - rewrite decide_False; [done|]. naive_solver.
Qed.
Lemma prev_set_prev n v s m : valid s n → lru_prev (set_prev n v s) m = fupd (lru_prev s) n v m.
Proof.
  intros Hn. unfold fupd. destruct n as [| | |i], m as [| | |j]; cbn in *; try done.
  unfold lru_prev, set_prev. rewrite ent_upd. case_decide as Hd.
  - destruct Hd as [-> _]. by rewrite decide_True.
  - rewrite decide_False; [done|]. naive_solver.
Qed.
Lemma prev_set_next n v s m : lru_prev (set_next n v s) m = lru_prev s m.
Proof. destruct n, m; try done. by apply (ent_upd_field pc_lru_prev). Qed.
Lemma next_set_prev n v s m : lru_next (set_prev n v s) m = lru_next s m.
Proof. destruct n, m; try done. by apply (ent_upd_field pc_lru_next). Qed.

(** The cache without the list of use. *)
Definition strip (e : page_cache_entry) : page_cache_entry := set_lru_next Null (set_lru_prev Null e).
Definition bare (s : page_cache) : page_cache := set_sentinels (Null, Null) (Null, Null) (set_pool (fmap strip) s).

Lemma strip_alter f (i : nat) (l : list page_cache_entry) : (∀ e, strip (f e) = strip e) → strip <$> alter f i l = strip <$> l.
Proof.
  intros Hf. apply list_eq. intros j. rewrite !list_lookup_fmap. destruct (decide (j = i)) as [->|Hne].
  - rewrite list_lookup_alter_eq. destruct (l !! i); cbn; [|done]. by rewrite Hf.
  - by rewrite list_lookup_alter_ne.
Qed.
Lemma bare_set_next n v s : bare (set_next n v s) = bare s.
Proof. destruct n; try done. unfold bare. cbn. unfold set_sentinels, set_pool. cbn. by rewrite strip_alter. Qed.
Lemma bare_set_prev n v s : bare (set_prev n v s) = bare s.
Proof. destruct n; try done. unfold bare. cbn. unfold set_sentinels, set_pool. cbn. by rewrite strip_alter. Qed.

(** What can be seen without it. *)
Lemma strip_ent s i : ent (bare s) i = strip (ent s i).
Proof. unfold ent. cbn. rewrite list_lookup_fmap. by destruct (pc_pool s !! i). Qed.
Lemma bare_field {B} (g : page_cache_entry → B) s s' i :
  (∀ e, g (strip e) = g e) → bare s' = bare s → g (ent s' i) = g (ent s i).
Proof. intros Hg Hb. rewrite <- (Hg (ent s' i)), <- strip_ent, Hb, strip_ent. apply Hg. Qed.
Lemma bare_length s s' : bare s' = bare s → length (pc_pool s') = length (pc_pool s).
Proof.
  intros Hb. apply (f_equal pc_pool), (f_equal length) in Hb. cbn in Hb. by rewrite !length_fmap in Hb.
Qed.

(** ** The list of use *)

Record lru_ok (s : page_cache) (L : list nat) : Prop := {
  lru_linked : dlinked (lru_next s) (lru_prev s) Head (Ent <$> L) Tail;
  lru_nodup : NoDup L;
  lru_bound : ∀ i, i ∈ L → (i < length (pc_pool s))%nat }.

Lemma nodes_nodup L : NoDup L → NoDup (Head :: (Ent <$> L) ++ [Tail]).
Proof.
  intros Hn. apply list.NoDup_cons. split.
  - rewrite elem_of_app, list_elem_of_fmap, list_elem_of_singleton. naive_solver.
  - apply list.NoDup_app. split_and!.
    + apply NoDup_fmap_2; [|done]. by intros ? ? [= ->].
    + intros x (i & -> & _)%list_elem_of_fmap ?%list_elem_of_singleton. done.
    + apply NoDup_singleton.
Qed.

Lemma valid_nodes s L n :
  (∀ i, i ∈ L → (i < length (pc_pool s))%nat) → n ∈ Head :: (Ent <$> L) ++ [Tail] → valid s n.
Proof.
  intros Hb. rewrite elem_of_cons, elem_of_app, list_elem_of_fmap, list_elem_of_singleton.
  intros [->|[(j & -> & Hj)| ->]]; [done| |done]. by apply Hb.
Qed.

Lemma lru_ok_ext s s' L :
  (∀ n, lru_next s' n = lru_next s n) → (∀ n, lru_prev s' n = lru_prev s n) →
  length (pc_pool s') = length (pc_pool s) → lru_ok s L → lru_ok s' L.
Proof. intros Hn Hp Hl []. split; [eapply dlinked_ext; [..|done]; intros; auto|done|by rewrite Hl]. Qed.

Lemma lru_remove_bare i s : bare (lru_remove i s) = bare s.
Proof. unfold lru_remove. by rewrite bare_set_prev, bare_set_next. Qed.

Lemma lru_remove_ok s A i B : lru_ok s (A ++ i :: B) → lru_ok (lru_remove i s) (A ++ B).
Proof.
  intros [Hd Hn Hb]. pose proof (nodes_nodup _ Hn) as Hnn.
  rewrite fmap_app in Hd, Hnn. cbn in Hd, Hnn. rewrite <- app_assoc in Hnn. cbn in Hnn.
  pose proof Hd as [H1 H2]%dlinked_app.
  assert (Hp : lru_prev s (Ent i) ∈ Head :: (Ent <$> A)) by (by eapply dlinked_last).
  pose proof (dlinked_first _ _ _ _ _ H2) as Hx.
  assert (Hvp : valid s (lru_prev s (Ent i))) by (apply (valid_nodes _ _ _ Hb); set_solver).
  assert (Hvx : valid s (lru_next s (Ent i))) by (apply (valid_nodes _ _ _ Hb); set_solver).
  assert (Hne : Ent i ≠ lru_prev s (Ent i)).
  { intros He. rewrite <- He in Hp.
    change (Head :: (Ent <$> A) ++ Ent i :: (Ent <$> B) ++ [Tail])
      with ((Head :: (Ent <$> A)) ++ Ent i :: (Ent <$> B) ++ [Tail]) in Hnn.
    apply list.NoDup_app in Hnn as (_ & Hdis & _). apply (Hdis (Ent i) Hp). set_solver. }
  set (s1 := set_next (lru_prev s (Ent i)) (lru_next s (Ent i)) s).
  assert (Hn1 : lru_next s1 (Ent i) = lru_next s (Ent i)).
  { unfold s1. rewrite next_set_next by done. by apply fupd_other. }
  assert (Hp1 : lru_prev s1 (Ent i) = lru_prev s (Ent i)) by apply prev_set_next.
  assert (Hl1 : length (pc_pool s1) = length (pc_pool s)) by (apply bare_length, bare_set_next).
  split.
  - unfold lru_remove. fold s1. rewrite Hn1, Hp1, fmap_app.
    eapply dlinked_ext; [| |exact (dlinked_remove _ _ _ _ _ _ _ Hd Hnn)].
    + intros n _. rewrite next_set_prev. unfold s1. by apply next_set_next.
    + intros n _. rewrite prev_set_prev.
      * apply fupd_cong. unfold s1. apply prev_set_next.
      * destruct (lru_next s (Ent i)); try done. cbn in *. lia.
  - rewrite <- Permutation_middle in Hn. by apply list.NoDup_cons in Hn as [_ ?].
  - intros j Hj. rewrite (bare_length s) by apply lru_remove_bare. apply Hb. set_solver.
Qed.

Lemma lru_insert_bare i s : bare (lru_insert_mru i s) = bare s.
Proof. unfold lru_insert_mru. by rewrite bare_set_next, !bare_set_prev, bare_set_next. Qed.

Lemma lru_insert_ok s i L :
  lru_ok s L → i ∉ L → (i < length (pc_pool s))%nat → lru_ok (lru_insert_mru i s) (i :: L).
Proof.
  intros [Hd Hn Hb] Hi Hlt. pose proof (nodes_nodup _ Hn) as Hnn.
  pose proof (dlinked_first _ _ _ _ _ Hd) as Hx.
  assert (Hvx : valid s (lru_next s Head)) by (apply (valid_nodes _ _ _ Hb); set_solver).
  set (s1 := set_next (Ent i) (lru_next s Head) s). set (s2 := set_prev (Ent i) Head s1).
  assert (Hh : lru_next s2 Head = lru_next s Head).
  { unfold s2. rewrite next_set_prev. unfold s1. rewrite next_set_next by done. by apply fupd_other. }
  assert (Hl1 : length (pc_pool s1) = length (pc_pool s)) by (apply bare_length, bare_set_next).
  assert (Hl2 : length (pc_pool s2) = length (pc_pool s)).
  { rewrite <- Hl1. apply bare_length, bare_set_prev. }
  split.
  - unfold lru_insert_mru. fold s1 s2. rewrite Hh.
    eapply dlinked_ext; [| |apply (dlinked_insert _ _ _ _ _ (Ent i) Hd); [|done]].
    + intros n _. rewrite next_set_next by done. apply fupd_cong.
      rewrite next_set_prev. unfold s2. rewrite next_set_prev. unfold s1. by apply next_set_next.
    + intros n _. rewrite prev_set_next, prev_set_prev.
      * apply fupd_cong. unfold s2.
        rewrite prev_set_prev by (change (i < length (pc_pool s1))%nat; lia).
        apply fupd_cong. unfold s1. apply prev_set_next.
      * destruct (lru_next s Head); try done. cbn in *. lia.
    + rewrite elem_of_cons, elem_of_app, list_elem_of_fmap, list_elem_of_singleton. naive_solver.
  - by apply list.NoDup_cons.
  - intros j Hj. rewrite (bare_length s) by apply lru_insert_bare.
    apply elem_of_cons in Hj as [->|Hj]; auto.
Qed.

(** ** The chains *)

Definition nextof (s : page_cache) (i : nat) : option nat := pc_hash_next (ent s i).

(** The last element of a list, [d] for none. *)
Fixpoint lastof (d : option nat) (l : list nat) : option nat :=
  match l with [] => d | x :: l => lastof (Some x) l end.
Lemma lastof_in d l j : lastof d l = Some j → d = Some j ∨ j ∈ l.
Proof.
  revert d. induction l as [|x l IH]; intros d; cbn; [by left|].
  intros [[= ->]|Hin]%IH; set_solver.
Qed.

(** Cutting an element out of a chain: the link before it goes to the one after. *)
Lemma hchain_cut hn hn' p A i B :
  hchain hn p (A ++ i :: B) → NoDup (A ++ i :: B) →
  (∀ j, j ∈ A ++ B → hn' j = if decide (lastof None A = Some j) then hn i else hn j) →
  hchain hn' (match A with [] => hn i | _ => p end) (A ++ B).
Proof.
  revert p. induction A as [|a A IH]; intros p Hc Hn He; cbn in Hc |- *.
  - destruct Hc as [_ Hc]. eapply hchain_ext; [|exact Hc]. intros j Hj. by rewrite He.
  - destruct Hc as [-> Hc]. split; [done|]. cbn in Hn. apply list.NoDup_cons in Hn as [Ha Hn].
    destruct A as [|b A].
    + cbn in He. rewrite (He a), decide_True by set_solver. destruct Hc as [_ Hc].
      eapply hchain_ext; [|exact Hc]. intros j Hj. cbn. rewrite He, decide_False; set_solver.
    + rewrite (He a) by set_solver. rewrite decide_False.
      * apply IH; [done|done|]. intros j Hj. apply He. set_solver.
      * intros Hl. change (lastof (Some b) A = Some a) in Hl. apply lastof_in in Hl as [[= ->]|?]; set_solver.
Qed.

(** What [hash_unlink] writes. *)
Lemma hash_unlink_found fuel h prev cur A i B s :
  hchain (nextof s) cur (A ++ i :: B) → i ∉ A → (length A < fuel)%nat →
  hash_unlink fuel h prev cur i s =
    upd_ent i (set_hash_next None)
      (match lastof prev A with
       | None => set_hash h (nextof s i) s
       | Some p => upd_ent p (set_hash_next (nextof s i)) s
       end).
Proof.
  revert fuel prev cur. induction A as [|a A IH]; intros fuel prev cur; cbn.
  - intros [-> _] _ Hf. destruct fuel as [|fuel]; [lia|]. cbn. by rewrite decide_True.
  - intros [-> Hc] Hi Hf. destruct fuel as [|fuel]; [lia|]. cbn. rewrite decide_False by set_solver.
    apply IH; [done|set_solver|lia].
Qed.

(** The fields that no list uses. *)
Definition core (e : page_cache_entry) : page_cache_entry := set_hash_next None (strip e).

(** Two caches that differ only in the lists. *)
Record same (s s' : page_cache) : Prop := {
  same_len : length (pc_pool s') = length (pc_pool s);
  same_dma : pc_dma_pool s' = pc_dma_pool s;
  same_wb : pc_writeback s' = pc_writeback s;
  same_core : ∀ i, core (ent s' i) = core (ent s i) }.
#[global] Instance same_refl : Reflexive same.
Proof. by split. Qed.
#[global] Instance same_trans : Transitive same.
Proof. intros s1 s2 s3 [] []. split; [congruence..|]. intros i. etrans; eauto. Qed.
Lemma core_field {B} (g : page_cache_entry → B) s s' i :
  (∀ e, g (core e) = g e) → same s s' → g (ent s' i) = g (ent s i).
Proof. intros Hg Hs. rewrite <- (Hg (ent s' i)), (same_core _ _ Hs). apply Hg. Qed.
Lemma same_upd i f s : (∀ e, core (f e) = core e) → same s (upd_ent i f s).
Proof.
  intros Hf. split; [cbn; by rewrite length_alter|done|done|]. intros j. by apply (ent_upd_field core).
Qed.
Lemma bare_same s s' : bare s' = bare s → same s s'.
Proof.
  intros Hb. split; [by apply bare_length|by apply (f_equal pc_dma_pool) in Hb|by apply (f_equal pc_writeback) in Hb|].
  intros i. by apply (bare_field core).
Qed.

(** The chains of the hash table have just the entries of [L]. *)
Record hash_ok (s : page_cache) (L : list nat) : Prop := {
  hash_len : length (pc_hash s) = Z.to_nat PAGE_CACHE_HASH_BUCKETS;
  hash_chains : ∀ h, (h < Z.to_nat PAGE_CACHE_HASH_BUCKETS)%nat → ∃ c,
    hchain (nextof s) (hash_head s h) c ∧ NoDup c ∧
    ∀ i, i ∈ c ↔ i ∈ L ∧ PC_HASH (pc_block (ent s i)) = h }.

Record free_ok (s : page_cache) (F : list nat) : Prop := {
  free_chain : hchain (nextof s) (pc_free s) F;
  free_nodup : NoDup F }.

Lemma PC_HASH_lt b : (PC_HASH b < Z.to_nat PAGE_CACHE_HASH_BUCKETS)%nat.
Proof. unfold PC_HASH, PAGE_CACHE_HASH_BUCKETS. pose proof (Z.mod_pos_bound b 4096). lia. Qed.
#[global] Hint Resolve PC_HASH_lt : core.

Lemma hash_ok_ext s s' L :
  (∀ i, i ∈ L → nextof s' i = nextof s i) → pc_hash s' = pc_hash s →
  (∀ i, i ∈ L → pc_block (ent s' i) = pc_block (ent s i)) → hash_ok s L → hash_ok s' L.
Proof.
  intros Hn Hh Hb [Hl Hc]. split; [by rewrite Hh|]. intros h Hlt. destruct (Hc h Hlt) as (c & H1 & H2 & H3).
  exists c. split_and!; [|done|].
  - unfold hash_head. rewrite Hh. eapply hchain_ext; [|exact H1]. intros i Hi. apply Hn. by apply H3.
  - intros i. rewrite H3. split; intros [Hi He]; (split; [done|]); by rewrite <- He, ?Hb.
Qed.
Lemma free_ok_ext s s' F :
  (∀ i, i ∈ F → nextof s' i = nextof s i) → pc_free s' = pc_free s → free_ok s F → free_ok s' F.
Proof. intros Hn Hf [Hc Hd]. split; [|done]. rewrite Hf. by eapply hchain_ext. Qed.

Lemma bucket_set_hash s h v h' :
  (h < length (pc_hash s))%nat → hash_head (set_hash h v s) h' = if decide (h' = h) then v else hash_head s h'.
Proof.
  intros Hh. unfold hash_head, set_hash. cbn. case_decide as Hd.
  - subst. by rewrite list_lookup_insert_eq.
  - by rewrite list_lookup_insert_ne.
Qed.

Lemma links_upd i f s n :
  (∀ e, pc_lru_next (f e) = pc_lru_next e) → (∀ e, pc_lru_prev (f e) = pc_lru_prev e) →
  lru_next (upd_ent i f s) n = lru_next s n ∧ lru_prev (upd_ent i f s) n = lru_prev s n.
Proof. intros. destruct n; try done. split; by apply ent_upd_field. Qed.

Lemma elem_of_cut i (X Y : list nat) j : NoDup (X ++ i :: Y) → j ∈ X ++ Y ↔ j ∈ X ++ i :: Y ∧ j ≠ i.
Proof. rewrite <- Permutation_middle. intros [Hni _]%list.NoDup_cons. set_solver. Qed.

(** Taking an entry out of its chain. *)
Section remove.
Context (s : page_cache) (A B : list nat) (i : nat).
Let L := A ++ i :: B.
Context (Hh : hash_ok s L) (Hn : NoDup L) (Hb : ∀ j, j ∈ L → (j < length (pc_pool s))%nat).
Let h := PC_HASH (pc_block (ent s i)).

(** What the removal writes, [A'] being the part of the chain before the entry. *)
Definition cut (A' : list nat) : page_cache :=
  upd_ent i (set_hash_next None)
    (match lastof None A' with
     | None => set_hash h (nextof s i) s
     | Some p => upd_ent p (set_hash_next (nextof s i)) s
     end).

Lemma hash_remove_found : ∃ A' B',
  hchain (nextof s) (hash_head s h) (A' ++ i :: B') ∧ NoDup (A' ++ i :: B') ∧
  (∀ j, j ∈ A' ++ i :: B' ↔ j ∈ L ∧ PC_HASH (pc_block (ent s j)) = h) ∧
  hash_remove i s = cut A'.
Proof.
  destruct (hash_chains _ _ Hh h) as (c & Hc & Hnd & Hin); [apply PC_HASH_lt|].
  assert (Hi : i ∈ c). { apply Hin. split; [|done]. unfold L. set_solver. }
  apply list_elem_of_split in Hi as (A' & B' & ->). exists A', B'. split_and!; [done..|].
  unfold hash_remove. fold h. eapply hash_unlink_found; [done| |].
  - apply list.NoDup_app in Hnd as (_ & Hd & _). intros HA. apply (Hd _ HA). set_solver.
  - assert (Hle : (length (A' ++ i :: B') ≤ length (pc_pool s))%nat).
    { rewrite <- (length_seq (length (pc_pool s)) 0). apply submseteq_length, NoDup_submseteq; [done|].
      intros j Hj. apply elem_of_seq. apply Hin in Hj as [Hj _]. apply Hb in Hj. lia. }
    rewrite length_app in Hle. cbn in Hle. lia.
Qed.

Lemma cut_same A' : same s (cut A').
Proof. etrans; [|by apply same_upd]. destruct (lastof None A'); [by apply same_upd|by split]. Qed.

Lemma cut_links A' n : lru_next (cut A') n = lru_next s n ∧ lru_prev (cut A') n = lru_prev s n.
Proof.
  unfold cut. destruct (links_upd i (set_hash_next None) (match lastof None A' with
     | None => set_hash h (nextof s i) s
     | Some p => upd_ent p (set_hash_next (nextof s i)) s
     end) n) as [-> ->]; [done..|]. destruct (lastof None A'); [by apply links_upd|by destruct n].
Qed.

Lemma cut_next A' j : (∀ k, k ∈ A' → k ∈ L) → j ≠ i →
  nextof (cut A') j = if decide (lastof None A' = Some j) then nextof s i else nextof s j.
Proof.
  intros HA Hj. unfold nextof at 1, cut. rewrite ent_upd_other by done.
  destruct (lastof None A') as [p|] eqn:Hp; [|by rewrite decide_False].
  case_decide as Hd; [injection Hd as ->|].
  - rewrite ent_upd_same; [done|]. apply Hb, HA. by apply lastof_in in Hp as [?|?].
  - rewrite ent_upd_other; [done|congruence].
Qed.

Lemma cut_hash A' : length (pc_hash (cut A')) = Z.to_nat PAGE_CACHE_HASH_BUCKETS.
Proof. unfold cut. destruct (lastof None A'); cbn; rewrite ?length_insert; apply (hash_len _ _ Hh). Qed.

Lemma lastof_some a A' : lastof (Some a) A' ≠ None.
Proof. revert a. induction A' as [|b A' IH]; intros a; cbn; [done|apply IH]. Qed.
Lemma cut_bucket A' h' :
  hash_head (cut A') h' =
    if decide (h' = h) then match A' with [] => nextof s i | _ => hash_head s h end else hash_head s h'.
Proof.
  unfold cut. destruct A' as [|a A']; cbn.
  - rewrite <- (bucket_set_hash s h); [done|]. rewrite (hash_len _ _ Hh). apply PC_HASH_lt.
  - destruct (lastof (Some a) A') as [p|] eqn:Hp; [|by apply lastof_some in Hp].
    case_decide; [by subst|done].
Qed.

Lemma hash_remove_same : same s (hash_remove i s).
Proof. destruct hash_remove_found as (A' & B' & _ & _ & _ & ->). apply cut_same. Qed.

Lemma hash_remove_links n :
  lru_next (hash_remove i s) n = lru_next s n ∧ lru_prev (hash_remove i s) n = lru_prev s n.
Proof. destruct hash_remove_found as (A' & B' & _ & _ & _ & ->). apply cut_links. Qed.

Lemma hash_remove_next j : j ∉ L → nextof (hash_remove i s) j = nextof s j.
Proof.
  intros Hj. destruct hash_remove_found as (A' & B' & _ & _ & Hin & ->).
  assert (HA : ∀ k, k ∈ A' → k ∈ L) by (intros k Hk; apply Hin; set_solver).
  rewrite cut_next, decide_False; [done| |done|].
  - intros [?|Hl]%lastof_in; [done|]. by apply Hj, HA.
  - intros ->. apply Hj. unfold L. set_solver.
Qed.

Lemma hash_remove_globals :
  pc_free (hash_remove i s) = pc_free s ∧ pc_count (hash_remove i s) = pc_count s.
Proof.
  destruct hash_remove_found as (A' & B' & _ & _ & _ & ->). unfold cut. by destruct (lastof None A').
Qed.

Lemma hash_remove_ok : hash_ok (hash_remove i s) (A ++ B).
Proof.
  destruct hash_remove_found as (A' & B' & Hc & Hnd & Hin & ->).
  assert (HA : ∀ k, k ∈ A' → k ∈ L) by (intros k Hk; apply Hin; set_solver).
  assert (Hblk : ∀ j, pc_block (ent (cut A') j) = pc_block (ent s j)).
  { intros j. apply (core_field pc_block); [done|apply cut_same]. }
  split; [apply cut_hash|]. intros h' Hh'. rewrite cut_bucket. case_decide as Hd.
  - subst h'. exists (A' ++ B'). split_and!.
    + eapply hchain_cut; [exact Hc|exact Hnd|]. intros j Hj. apply cut_next; [done|].
      by apply (elem_of_cut i A' B').
    + rewrite <- Permutation_middle in Hnd. by apply list.NoDup_cons in Hnd as [_ ?].
    + intros j. rewrite Hblk, (elem_of_cut i A' B'), (elem_of_cut i A B), Hin by done. fold L. naive_solver.
  - destruct (hash_chains _ _ Hh h' Hh') as (c & H1 & H2 & H3). exists c. split_and!; [|done|].
    + eapply hchain_ext; [|exact H1]. intros j Hj. apply H3 in Hj as [_ Hj].
      rewrite cut_next, decide_False; [done| |done|by intros ->].
      intros [?|Hl]%lastof_in; [done|]. assert (j ∈ A' ++ i :: B') as [_ ?]%Hin by set_solver. congruence.
    + intros j. rewrite Hblk, (elem_of_cut i A B), H3 by done. unfold h in Hd. fold L. naive_solver.
Qed.
End remove.
