(* ===== verification/PageCacheInv.v ===== *)
(** * The page cache: the invariant of its structure

    The entries are divided between the list of use and the free list (and those an
    operation has in hand); the chains of the hash table have just the entries in
    use, each in the chain of its block; and no two of them have the same block.
    What each step of the operations does to these lists. *)

From S2P Require Import Prelude Mach PageCache PageCacheLists.

(** [L]: the list of use, the most recent first; [F]: the free list; [X]: in hand. *)
Record repr (s : page_cache) (L F X : list nat) : Prop := {
  repr_lru : lru_ok s L;
  repr_hash : hash_ok s L;
  repr_free : free_ok s F;
  repr_perm : L ++ F ++ X ≡ₚ seq 0 (length (pc_pool s));
  repr_keys : ∀ i j, i ∈ L → j ∈ L → pc_block (ent s i) = pc_block (ent s j) → i = j }.

Section facts.
Context {s : page_cache} {L F X : list nat} (R : repr s L F X).

Lemma repr_nodup : NoDup (L ++ F ++ X).
Proof. rewrite (repr_perm _ _ _ _ R). apply NoDup_seq. Qed.
Lemma repr_bound i : i ∈ L ++ F ++ X → (i < length (pc_pool s))%nat.
Proof. rewrite (repr_perm _ _ _ _ R), elem_of_seq. lia. Qed.
Lemma repr_disjoint i : i ∈ L → i ∉ F ++ X.
Proof. pose proof repr_nodup as (_ & Hd & _)%list.NoDup_app. apply Hd. Qed.
Lemma repr_length : (length L + length F + length X = length (pc_pool s))%nat.
Proof.
  pose proof (Permutation_length (repr_perm _ _ _ _ R)) as Hl. rewrite !length_app, length_seq in Hl. lia.
Qed.

(** The search finds the entry of the block. *)
Lemma chain_find_spec fuel p c b :
  hchain (nextof s) p c → (length c ≤ fuel)%nat →
  match chain_find fuel p b s with
  | Some i => i ∈ c ∧ pc_block (ent s i) = b
  | None => ∀ i, i ∈ c → pc_block (ent s i) ≠ b
  end.
Proof.
  revert fuel p. induction c as [|j c IH]; intros fuel p; cbn.
  - intros -> _. destruct fuel; cbn; set_solver.
  - intros [-> Hc] Hf. destruct fuel as [|fuel]; [lia|]. cbn. case_decide as Hd; [set_solver|].
    specialize (IH fuel (nextof s j) Hc ltac:(lia)). unfold nextof in IH at 1.
    destruct (chain_find _ _ _ _); set_solver.
Qed.

Lemma chain_length c : NoDup c → (∀ i, i ∈ c → i ∈ L) → (length c ≤ length (pc_pool s))%nat.
Proof.
  intros Hn Hin. rewrite <- (length_seq (length (pc_pool s)) 0). apply submseteq_length, NoDup_submseteq; [done|].
  intros j Hj. apply elem_of_seq. apply Hin in Hj. pose proof (repr_bound j). set_solver by lia.
Qed.

Lemma find_cases b :
  match find b s with
  | Some i => i ∈ L ∧ pc_block (ent s i) = b
  | None => ∀ i, i ∈ L → pc_block (ent s i) ≠ b
  end.
Proof.
  destruct (hash_chains _ _ (repr_hash _ _ _ _ R) (PC_HASH b)) as (c & Hc & Hn & Hin); [done|].
  assert (Hl : (length c ≤ length (pc_pool s))%nat) by (apply chain_length; [done|]; intros i Hi; by apply Hin).
  pose proof (chain_find_spec _ _ _ b Hc Hl) as Hf. unfold find. destruct (chain_find _ _ _ _) as [i|].
  - destruct Hf as [Hi ?]. by apply Hin in Hi as [? _].
  - intros i Hi Hb. apply (Hf i); [|done]. apply Hin. by rewrite Hb.
Qed.

Lemma find_some i : i ∈ L → find (pc_block (ent s i)) s = Some i.
Proof.
  intros Hi. pose proof (find_cases (pc_block (ent s i))) as Hf. destruct (find _ s) as [j|].
  - destruct Hf as [Hj Hb]. f_equal. by apply (repr_keys _ _ _ _ R).
  - by apply Hf in Hi.
Qed.
Lemma find_none b : (∀ i, i ∈ L → pc_block (ent s i) ≠ b) → find b s = None.
Proof. intros Hb. pose proof (find_cases b) as Hf. destruct (find b s); naive_solver. Qed.
End facts.

(** ** The steps *)

(** A write that keeps the lists and the keys. *)
Lemma repr_upd s L F X i f :
  (∀ e, pc_hash_next (f e) = pc_hash_next e) → (∀ e, pc_lru_next (f e) = pc_lru_next e) →
  (∀ e, pc_lru_prev (f e) = pc_lru_prev e) → (i ∈ L → pc_block (f (ent s i)) = pc_block (ent s i)) →
  repr s L F X → repr (upd_ent i f s) L F X.
Proof.
  intros Hh Hn Hp Hb [Hlru Hhash Hfree Hperm Hkeys].
  assert (Hlen : length (pc_pool (upd_ent i f s)) = length (pc_pool s)) by (cbn; apply length_alter).
  assert (Hk : ∀ j, j ∈ L → pc_block (ent (upd_ent i f s) j) = pc_block (ent s j)).
  { intros j Hj. rewrite ent_upd. case_decide as Hd; [|done]. destruct Hd as [-> _]. by apply Hb. }
  assert (Hx : ∀ j, nextof (upd_ent i f s) j = nextof s j) by (intros j; by apply (ent_upd_field pc_hash_next)).
  split.
  - eapply lru_ok_ext; [| |done|done]; intros n; by apply links_upd.
  - eapply hash_ok_ext; [..|exact Hhash]; auto.
  - eapply free_ok_ext; [..|exact Hfree]; auto.
  - by rewrite Hlen.
  - intros j k Hj Hk'. rewrite !Hk by done. by apply Hkeys.
Qed.

(** To the front of the list of use. *)
Definition touch (i : nat) (s : page_cache) : page_cache := lru_insert_mru i (lru_remove i s).

Lemma touch_bare i s : bare (touch i s) = bare s.
Proof. unfold touch. by rewrite lru_insert_bare, lru_remove_bare. Qed.

Lemma bare_repr s s' L L' F X :
  bare s' = bare s → lru_ok s' L' → L' ≡ₚ L → repr s L F X → repr s' L' F X.
Proof.
  intros Hb Hlru HL [_ Hhash Hfree Hperm Hkeys].
  assert (Hn : ∀ j, nextof s' j = nextof s j) by (intros j; by apply (bare_field pc_hash_next)).
  assert (Hk : ∀ j, pc_block (ent s' j) = pc_block (ent s j)) by (intros j; by apply (bare_field pc_block)).
  split; [done| | | |].
  - assert (H' : hash_ok s' L).
    { eapply hash_ok_ext; [| | |exact Hhash]; [done| |done]. by apply (f_equal pc_hash) in Hb. }
    destruct H' as [H1 H2]. split; [done|]. intros h Hh. destruct (H2 h Hh) as (c & ? & ? & Hc).
    exists c. split_and!; [done..|]. intros i. by rewrite Hc, HL.
  - eapply free_ok_ext; [|..|exact Hfree]; [done|]. by apply (f_equal pc_free) in Hb.
  - rewrite HL, (bare_length s s') by done. done.
  - intros i j. rewrite !HL, !Hk. apply Hkeys.
Qed.

Lemma repr_touch s A i B F X : repr s (A ++ i :: B) F X → repr (touch i s) (i :: A ++ B) F X.
Proof.
  intros R. eapply bare_repr; [apply touch_bare| |by apply Permutation_middle|done].
  apply lru_insert_ok.
  - apply lru_remove_ok, R.
  - pose proof (lru_nodup _ _ (repr_lru _ _ _ _ R)) as Hn. rewrite <- Permutation_middle in Hn.
    by apply list.NoDup_cons in Hn as [? _].
  - rewrite (bare_length s) by apply lru_remove_bare. apply (lru_bound _ _ (repr_lru _ _ _ _ R)). set_solver.
Qed.

(** Out of the list of use and out of the hash table. *)
Definition unlink (i : nat) (s : page_cache) : page_cache := hash_remove i (lru_remove i s).

Section unlink.
Context {s : page_cache} {A B F X : list nat} {i : nat} (R : repr s (A ++ i :: B) F X).

Lemma unlink_premises :
  hash_ok (lru_remove i s) (A ++ i :: B) ∧ NoDup (A ++ i :: B) ∧
  (∀ j, j ∈ A ++ i :: B → (j < length (pc_pool (lru_remove i s)))%nat).
Proof.
  pose proof (lru_remove_bare i s) as Hb. split_and!.
  - eapply hash_ok_ext; [| | |apply R].
    + intros j _. by apply (bare_field pc_hash_next).
    + by apply (f_equal pc_hash) in Hb.
    + intros j _. by apply (bare_field pc_block).
  - apply (lru_nodup _ _ (repr_lru _ _ _ _ R)).
  - rewrite (bare_length s) by done. apply (lru_bound _ _ (repr_lru _ _ _ _ R)).
Qed.

Lemma unlink_same : same s (unlink i s).
Proof.
  destruct unlink_premises as (H1 & H2 & H3).
  etrans; [apply bare_same, lru_remove_bare|]. by eapply hash_remove_same.
Qed.
Lemma unlink_globals : pc_free (unlink i s) = pc_free s ∧ pc_count (unlink i s) = pc_count s.
Proof.
  destruct unlink_premises as (H1 & H2 & H3). unfold unlink.
  destruct (hash_remove_globals _ A B i H1 H2 H3) as [-> ->]. pose proof (lru_remove_bare i s) as Hb.
  split; [by apply (f_equal pc_free) in Hb|by apply (f_equal pc_count) in Hb].
Qed.
Lemma unlink_next j : j ∉ A ++ i :: B → nextof (unlink i s) j = nextof s j.
Proof.
  intros Hj. destruct unlink_premises as (H1 & H2 & H3). unfold unlink.
  rewrite (hash_remove_next _ A B i H1 H2 H3) by done.
  apply (bare_field pc_hash_next); [done|apply lru_remove_bare].
Qed.

Lemma repr_unlink : repr (unlink i s) (A ++ B) F (i :: X).
Proof.
  destruct unlink_premises as (H1 & H2 & H3). pose proof unlink_same as Hs.
  destruct R as [Hlru Hhash Hfree Hperm Hkeys]. split.
  - eapply lru_ok_ext; [| | |by apply lru_remove_ok].
    + intros n. by eapply (hash_remove_links _ A B).
    + intros n. by eapply (hash_remove_links _ A B).
    + apply (same_len _ _ (hash_remove_same _ A B i H1 H2 H3)).
  - by apply (hash_remove_ok _ A B i).
  - eapply free_ok_ext; [| |exact Hfree]; [|apply unlink_globals]. intros j Hj. apply unlink_next.
    intros Hin. apply (repr_disjoint R j Hin). set_solver.
  - rewrite (same_len _ _ Hs), <- Hperm. solve_Permutation.
  - intros j k Hj Hk. rewrite !(core_field pc_block _ _ _ (λ _, eq_refl) Hs). apply Hkeys; set_solver.
Qed.
End unlink.

(** The free list as a stack. *)
Lemma repr_refree s s' L F X F' X' :
  (∀ n, lru_next s' n = lru_next s n) → (∀ n, lru_prev s' n = lru_prev s n) →
  same s s' → (∀ j, j ∈ L → nextof s' j = nextof s j) → pc_hash s' = pc_hash s →
  free_ok s' F' → F' ++ X' ≡ₚ F ++ X → repr s L F X → repr s' L F' X'.
Proof.
  intros Hn Hp Hs Hx Hh Hf HF [Hlru Hhash _ Hperm Hkeys].
  assert (Hk : ∀ j, pc_block (ent s' j) = pc_block (ent s j)) by (intros j; by apply (core_field pc_block)).
  split; [| |done| |].
  - eapply lru_ok_ext; [done|done|apply Hs|done].
  - eapply hash_ok_ext; [done|done| |done]. auto.
  - by rewrite HF, (same_len _ _ Hs).
  - intros i j. rewrite !Hk. apply Hkeys.
Qed.

(** An entry in hand is in no list. *)
Lemma repr_held s L F X i :
  repr s L F (i :: X) → (i ∉ L) ∧ (i ∉ F) ∧ (i ∉ X) ∧ (i < length (pc_pool s))%nat.
Proof.
  intros R. pose proof (repr_bound R i) as Hlt. pose proof (repr_nodup R) as Hn.
  assert (HP : L ++ F ++ i :: X ≡ₚ i :: L ++ F ++ X) by solve_Permutation.
  rewrite HP in Hn, Hlt. apply list.NoDup_cons in Hn as [Hi _]. rewrite !elem_of_app in Hi.
  specialize (Hlt ltac:(left)). naive_solver.
Qed.

Definition push_free (i : nat) (s : page_cache) : page_cache :=
  set_free (Some i) (upd_ent i (set_hash_next (pc_free s)) s).
Definition pop_free (i : nat) (s : page_cache) : page_cache :=
  upd_ent i (set_hash_next None) (set_free (pc_hash_next (ent s i)) s).

Lemma push_same i s : same s (push_free i s).
Proof. etrans; [by apply (same_upd i (set_hash_next (pc_free s)))|by split]. Qed.
Lemma pop_same i s : same s (pop_free i s).
Proof. etrans; [|by apply same_upd]. by split. Qed.

Lemma repr_push s L F X i : repr s L F (i :: X) → repr (push_free i s) L (i :: F) X.
Proof.
  intros R. destruct (repr_held _ _ _ _ _ R) as (HiL & HiF & _ & Hlt).
  assert (Hx : ∀ j, j ≠ i → nextof (push_free i s) j = nextof s j).
  { intros j Hj. unfold nextof.
    change (ent (push_free i s) j) with (ent (upd_ent i (set_hash_next (pc_free s)) s) j).
    by rewrite ent_upd_other. }
  eapply repr_refree; [..|exact R].
  - intros n. apply (links_upd i (set_hash_next (pc_free s)) s n); done.
  - intros n. apply (links_upd i (set_hash_next (pc_free s)) s n); done.
  - apply push_same.
  - intros j Hj. apply Hx. set_solver.
  - done.
  - split; [|apply list.NoDup_cons; split; [set_solver|apply (repr_free _ _ _ _ R)]]. cbn. split; [done|].
    replace (nextof (push_free i s) i) with (pc_free s).
    + eapply hchain_ext; [|apply (repr_free _ _ _ _ R)]. intros j Hj. apply Hx. set_solver.
    + unfold nextof. change (ent (push_free i s) i) with (ent (upd_ent i (set_hash_next (pc_free s)) s) i).
      by rewrite ent_upd_same.
  - solve_Permutation.
Qed.

Lemma repr_pop s L F X i : repr s L (i :: F) X → repr (pop_free i s) L F (i :: X).
Proof.
  intros R. pose proof (repr_nodup R) as Hn.
  change ((i :: F) ++ X) with (i :: F ++ X) in Hn. rewrite <- Permutation_middle in Hn.
  apply list.NoDup_cons in Hn as [Hi _].
  assert (Hx : ∀ j, j ≠ i → nextof (pop_free i s) j = nextof s j).
  { intros j Hj. unfold nextof, pop_free. by rewrite ent_upd_other. }
  destruct (repr_free _ _ _ _ R) as [[Hf Hc] Hnd]. apply list.NoDup_cons in Hnd as [_ Hnd].
  eapply repr_refree; [..|exact R].
  - intros n. trans (lru_next (set_free (pc_hash_next (ent s i)) s) n); [by apply links_upd|by destruct n].
  - intros n. trans (lru_prev (set_free (pc_hash_next (ent s i)) s) n); [by apply links_upd|by destruct n].
  - apply pop_same.
  - intros j Hj. apply Hx. set_solver.
  - done.
  - split; [|done]. eapply hchain_ext; [|exact Hc]. intros j Hj. apply Hx. set_solver.
  - solve_Permutation.
Qed.

(** Into the hash table and to the front of the list of use. *)
Definition link (i : nat) (block : Z) (s : page_cache) : page_cache :=
  lru_insert_mru i (set_hash (PC_HASH block) (Some i) (upd_ent i (set_hash_next (hash_head s (PC_HASH block))) s)).

Lemma link_same i b s : same s (link i b s).
Proof.
  etrans; [|apply bare_same, lru_insert_bare]. etrans; [by apply (same_upd i (set_hash_next (hash_head s (PC_HASH b))))|].
  by split.
Qed.

Section link.
Context {s : page_cache} {L F X : list nat} {i : nat} (R : repr s L F (i :: X)).
Let b := pc_block (ent s i).
Context (Hnew : ∀ j, j ∈ L → pc_block (ent s j) ≠ b).
Let s1 := set_hash (PC_HASH b) (Some i) (upd_ent i (set_hash_next (hash_head s (PC_HASH b))) s).

Lemma link_next j : nextof s1 j = if decide (j = i) then hash_head s (PC_HASH b) else nextof s j.
Proof.
  destruct (repr_held _ _ _ _ _ R) as (_ & _ & _ & Hlt). unfold nextof, s1. change (ent (set_hash ?h ?v ?s) j) with (ent s j).
  case_decide; [subst; by rewrite ent_upd_same|by rewrite ent_upd_other].
Qed.

Lemma link_hash : hash_ok s1 (i :: L).
Proof.
  destruct (repr_held _ _ _ _ _ R) as (Hi & HiF & _ & Hlt). destruct (repr_hash _ _ _ _ R) as [Hl Hc].
  assert (Hblk : ∀ j, pc_block (ent s1 j) = pc_block (ent s j)).
  { intros j. by apply (ent_upd_field pc_block i). }
  split; [unfold s1; cbn; by rewrite length_insert|]. intros h Hh.
  assert (Hbk : hash_head s1 h = if decide (h = PC_HASH b) then Some i else hash_head s h).
  { unfold s1. rewrite bucket_set_hash; [done|]. cbn. rewrite Hl. apply PC_HASH_lt. }
  destruct (Hc h Hh) as (c & H1 & H2 & H3).
  assert (Hic : i ∉ c) by (intros Hin; apply H3 in Hin as [? _]; set_solver).
  assert (Hcc : ∀ p, hchain (nextof s) p c → hchain (nextof s1) p c).
  { intros p. apply hchain_ext. intros j Hj. rewrite link_next, decide_False; [done|]. by intros ->. }
  rewrite Hbk. case_decide as Hd.
  - exists (i :: c). split_and!.
    + split; [done|]. rewrite link_next, decide_True by done. rewrite <- Hd. auto.
    + by apply list.NoDup_cons.
    + intros j. rewrite Hblk, !elem_of_cons, H3. unfold b in Hd. naive_solver.
  - exists c. split_and!; [auto|done|]. intros j. rewrite Hblk, H3, elem_of_cons. unfold b in Hd. naive_solver.
Qed.

Lemma repr_link : repr (link i b s) (i :: L) F X.
Proof.
  destruct (repr_held _ _ _ _ _ R) as (Hi & HiF & _ & Hlt). pose proof (link_same i b s) as Hs.
  assert (Hb1 : bare (link i b s) = bare s1) by apply lru_insert_bare.
  assert (Hblk : ∀ j, pc_block (ent (link i b s) j) = pc_block (ent s j)) by (intros j; by apply (core_field pc_block)).
  split.
  - apply lru_insert_ok; [|set_solver|cbn; by rewrite length_alter].
    eapply lru_ok_ext; [..|apply (repr_lru _ _ _ _ R)]; [| |cbn; by rewrite length_alter];
      intros n; by apply (links_upd i (set_hash_next (hash_head s (PC_HASH b))) s n).
  - eapply hash_ok_ext; [| | |apply link_hash].
    + intros j _. by apply (bare_field pc_hash_next).
    + by apply (f_equal pc_hash) in Hb1.
    + intros j _. by apply (bare_field pc_block).
  - eapply free_ok_ext; [| |apply (repr_free _ _ _ _ R)].
    + intros j Hj. trans (nextof s1 j); [by apply (bare_field pc_hash_next)|].
      rewrite link_next, decide_False; [done|]. intros ->. set_solver.
    + by apply (f_equal pc_free) in Hb1.
  - rewrite (same_len _ _ Hs), <- (repr_perm _ _ _ _ R). solve_Permutation.
  - intros j k. rewrite !Hblk, !elem_of_cons.
    intros [->|Hj] [->|Hk] He; [done|by destruct (Hnew k)|by destruct (Hnew j)|by apply (repr_keys _ _ _ _ R)].
Qed.
End link.

(** ** The cache as a map *)

(** What the cache has for a block. *)
Definition peek (b : Z) (s : page_cache) : option page_cache_entry := (core ∘ ent s) <$> find b s.

Lemma peek_in {s L F X} (R : repr s L F X) i : i ∈ L → peek (pc_block (ent s i)) s = Some (core (ent s i)).
Proof. intros Hi. unfold peek. by rewrite (find_some R). Qed.
Lemma peek_out {s L F X} (R : repr s L F X) b : (∀ i, i ∈ L → pc_block (ent s i) ≠ b) → peek b s = None.
Proof. intros Hb. unfold peek. by rewrite (find_none R). Qed.
Lemma peek_inv {s L F X} (R : repr s L F X) b e :
  peek b s = Some e → ∃ i, i ∈ L ∧ pc_block (ent s i) = b ∧ e = core (ent s i) ∧ find b s = Some i.
Proof.
  unfold peek. pose proof (find_cases R b) as Hf. destruct (find b s) as [i|]; [|done].
  cbn. intros [= <-]. destruct Hf. by exists i.
Qed.

(** The same entries for a block, and the same fields in them. *)
Lemma peek_ext {s L F X s' L' F' X'} b (R : repr s L F X) (R' : repr s' L' F' X') :
  (∀ i, i ∈ L' ∧ pc_block (ent s' i) = b ↔ i ∈ L ∧ pc_block (ent s i) = b) →
  (∀ i, i ∈ L → pc_block (ent s i) = b → core (ent s' i) = core (ent s i)) → peek b s' = peek b s.
Proof.
  intros Hi Hc. pose proof (find_cases R b) as Hf. pose proof (find_cases R' b) as Hf'.
  unfold peek. destruct (find b s) as [i|], (find b s') as [j|]; cbn; [|naive_solver..].
  apply Hi in Hf' as [Hj Hbj]. destruct Hf as [Hin Hbi].
  assert (j = i) as -> by (apply (repr_keys _ _ _ _ R); congruence). by rewrite Hc.
Qed.

Lemma peek_same {s L F X s' L' F' X'} b (R : repr s L F X) (R' : repr s' L' F' X') :
  L' ≡ₚ L → same s s' → peek b s' = peek b s.
Proof.
  intros HL Hs. apply (peek_ext b R R'); [|intros; apply Hs].
  intros i. by rewrite HL, (core_field pc_block _ _ _ (λ _, eq_refl) Hs).
Qed.

Lemma peek_unlink {s A B F X i} b (R : repr s (A ++ i :: B) F X) :
  peek b (unlink i s) = if decide (b = pc_block (ent s i)) then None else peek b s.
Proof.
  pose proof (repr_unlink R) as R'. pose proof (unlink_same R) as Hs.
  assert (Hblk : ∀ j, pc_block (ent (unlink i s) j) = pc_block (ent s j)) by (intros j; by apply (core_field pc_block)).
  pose proof (lru_nodup _ _ (repr_lru _ _ _ _ R)) as Hn.
  case_decide as Hd.
  - apply (peek_out R'). intros j Hj. rewrite Hblk. intros Hb.
    apply (elem_of_cut i A B) in Hj as [Hj Hne]; [|done].
    apply Hne, (repr_keys _ _ _ _ R); [done|set_solver|congruence].
  - apply (peek_ext b R R'); [|intros; apply Hs].
    intros j. rewrite Hblk, (elem_of_cut i A B) by done. naive_solver.
Qed.

Lemma peek_link {s L F X i} b (R : repr s L F (i :: X)) :
  (∀ j, j ∈ L → pc_block (ent s j) ≠ pc_block (ent s i)) →
  peek b (link i (pc_block (ent s i)) s) =
    if decide (b = pc_block (ent s i)) then Some (core (ent s i)) else peek b s.
Proof.
  intros Hnew. pose proof (repr_link R Hnew) as R'. set (s' := link _ _ _) in *.
  assert (Hs : same s s') by apply link_same.
  assert (Hblk : ∀ j, pc_block (ent s' j) = pc_block (ent s j)) by (intros j; by apply (core_field pc_block)).
  case_decide as Hd.
  - rewrite Hd, <- Hblk, (peek_in R') by set_solver. by rewrite (same_core _ _ Hs).
  - apply (peek_ext b R R'); [|intros; apply Hs]. intros j. rewrite Hblk. set_solver.
Qed.

Lemma peek_upd {s L F X i f} b (R : repr s L F X) :
  (∀ e, pc_hash_next (f e) = pc_hash_next e) → (∀ e, pc_lru_next (f e) = pc_lru_next e) →
  (∀ e, pc_lru_prev (f e) = pc_lru_prev e) → (∀ e, pc_block (f e) = pc_block e) → i ∈ L →
  peek b (upd_ent i f s) = if decide (b = pc_block (ent s i)) then Some (core (f (ent s i))) else peek b s.
Proof.
  intros Hh Hn Hp Hb Hi. assert (R' : repr (upd_ent i f s) L F X) by (apply repr_upd; auto).
  assert (Hblk : ∀ j, pc_block (ent (upd_ent i f s) j) = pc_block (ent s j)) by (intros j; by apply ent_upd_field).
  assert (Hlt : (i < length (pc_pool s))%nat) by (apply (repr_bound R); set_solver).
  case_decide as Hd.
  - by rewrite Hd, <- Hblk, (peek_in R'), ent_upd_same.
  - apply (peek_ext b R R'); [intros j; by rewrite Hblk|].
    intros j Hj Hbj. rewrite ent_upd_other; [done|]. congruence.
Qed.

(** A write to an entry that is not in use. *)
Lemma peek_upd_out {s L F X i f} b (R : repr s L F X) :
  repr (upd_ent i f s) L F X → (i ∉ L) → peek b (upd_ent i f s) = peek b s.
Proof.
  intros R' Hi. assert (He : ∀ j, j ∈ L → ent (upd_ent i f s) j = ent s j).
  { intros j Hj. apply ent_upd_other. congruence. }
  apply (peek_ext b R R'); [|intros j Hj _; by rewrite He].
  intros j. split; intros [Hj Hb]; by rewrite He in *.
Qed.
