(* ===== verification/PageCacheOps.v ===== *)
(** * The page cache: its operations

    The invariant with the data, under the use that the file system makes of the
    cache (every buffer has the size of a block, and every block lies where the
    device's 32-bit record numbers reach it); what each operation does to the
    invariant, to the map from blocks to cached data, and to the disk. *)

From S2P Require Import Prelude Mach PageCache PageCacheLists PageCacheInv.

(** The geometry: a block is some sectors and some records. *)
Class Geometry (E : PcEnv) : Prop := {
  geo_block : (0 < fs_block)%nat;
  geo_sectors : (DEV_BSIZE | Z.of_nat fs_block);
  geo_rec : 0 < rec_size;
  geo_records : (rec_size | Z.of_nat fs_block) }.

Section invariant.
Context {E : PcEnv}.

(** The blocks of the file system. *)
Definition key (b : Z) : Prop := 0 <= b ∧ b * Z.of_nat fs_block < 4294967296.
Definition full (d : option (list Z)) : Prop := ∃ v, d = Some v ∧ length v = fs_block.
(** The buffer of an entry that is not in use. *)
Definition spare (s : page_cache) (i : nat) : Prop :=
  if pc_dma_pool s then full (pc_data (ent s i)) else pc_data (ent s i) = None.

Record pc_inv (s : page_cache) (L F X : list nat) : Prop := {
  inv_repr : repr s L F X;
  inv_use : ∀ i, i ∈ L → key (pc_block (ent s i)) ∧ full (pc_data (ent s i));
  inv_spare : ∀ i, i ∈ F → spare s i;
  inv_free : ∀ i, i ∈ F → pc_dma_pool s = true → pc_block (ent s i) = NO_BLOCK;
  inv_size : Z.of_nat (length (pc_pool s)) < 4294967296 }.

Definition pc_counted (s : page_cache) (L : list nat) : Prop := pc_count s = Z.of_nat (length L).

(** Steps that only rearrange the lists. *)
Lemma inv_same s s' L F X L' F' X' :
  same s s' → repr s' L' F' X' → (∀ i, i ∈ L' → i ∈ L) →
  (∀ i, i ∈ F' → spare s i ∧ (pc_dma_pool s = true → pc_block (ent s i) = NO_BLOCK)) →
  pc_inv s L F X → pc_inv s' L' F' X'.
Proof.
  intros Hs R HL HF [_ Huse Hspare _ Hsize].
  assert (Hb : ∀ j, pc_block (ent s' j) = pc_block (ent s j)) by (intros j; by apply (core_field pc_block)).
  assert (Hd : ∀ j, pc_data (ent s' j) = pc_data (ent s j)) by (intros j; by apply (core_field pc_data)).
  split; [done| | | |by rewrite (same_len _ _ Hs)].
  - intros i Hi. rewrite Hb, Hd. auto.
  - intros i Hi. unfold spare. rewrite (same_dma _ _ Hs), Hd. by apply HF.
  - intros i Hi. rewrite Hb, (same_dma _ _ Hs). by apply HF.
Qed.

Lemma inv_touch s A i B F X : pc_inv s (A ++ i :: B) F X → pc_inv (touch i s) (i :: A ++ B) F X.
Proof.
  intros I. eapply inv_same; [..|exact I]; [apply bare_same, touch_bare|apply repr_touch, I|set_solver|].
  intros j Hj. split; [by apply I|by apply (inv_free _ _ _ _ I)].
Qed.
Lemma inv_pop s L F X i : pc_inv s L (i :: F) X → pc_inv (pop_free i s) L F (i :: X).
Proof.
  intros I. eapply inv_same; [..|exact I]; [apply pop_same|apply repr_pop, I|done|].
  intros j Hj. split; [apply I; set_solver|apply (inv_free _ _ _ _ I); set_solver].
Qed.
Lemma inv_push s L F X i :
  spare s i → (pc_dma_pool s = true → pc_block (ent s i) = NO_BLOCK) →
  pc_inv s L F (i :: X) → pc_inv (push_free i s) L (i :: F) X.
Proof.
  intros Hs Hb I. eapply inv_same; [..|exact I]; [apply push_same|apply repr_push, I|done|].
  intros j Hj. apply elem_of_cons in Hj as [->|Hj]; [done|].
  split; [by apply I|by apply (inv_free _ _ _ _ I)].
Qed.

(** The counters. *)
Definition recount (c h m e b : Z) (s : page_cache) : page_cache :=
  PageCache c h m e b (pc_writeback s) (pc_pool s) (pc_free s) (pc_dma_pool s) (pc_hash s)
    (pc_lru_head s) (pc_lru_tail s).
Lemma recount_same c h m e b s : same s (recount c h m e b s).
Proof. by split. Qed.
Lemma recount_id s :
  s = recount (pc_count s) (pc_hits s) (pc_misses s) (pc_evictions s) (pc_writebacks s) s.
Proof. by destruct s. Qed.
Lemma repr_recount s L F X c h m e b : repr s L F X → repr (recount c h m e b s) L F X.
Proof. intros [[] [] [] ? ?]. split; [by split..|done|done]. Qed.
Lemma inv_recount s L F X c h m e b : pc_inv s L F X → pc_inv (recount c h m e b s) L F X.
Proof. intros []. split; try done. by apply repr_recount. Qed.
Lemma peek_recount s L F X c h m e n b : repr s L F X → peek b (recount c h m e n s) = peek b s.
Proof. intros R. by apply (peek_same b R (repr_recount _ _ _ _ c h m e n R)). Qed.

(** Writes to an entry in use: its flags, and its data. *)
Lemma inv_upd s L F X i f :
  i ∈ L → (∀ e, pc_hash_next (f e) = pc_hash_next e) → (∀ e, pc_lru_next (f e) = pc_lru_next e) →
  (∀ e, pc_lru_prev (f e) = pc_lru_prev e) → (∀ e, pc_block (f e) = pc_block e) →
  full (pc_data (f (ent s i))) → pc_inv s L F X → pc_inv (upd_ent i f s) L F X.
Proof.
  intros Hi Hh Hn Hp Hb Hf [R Huse Hspare Hfree Hsize].
  assert (He : ∀ j, j ∈ F → ent (upd_ent i f s) j = ent s j).
  { intros j Hj. apply ent_upd_other. intros ->. apply (repr_disjoint R i); set_solver. }
  split.
  - apply repr_upd; auto.
  - intros j Hj. rewrite (ent_upd_field pc_block) by done. split; [by apply Huse|].
    rewrite ent_upd. case_decide as Hd; [done|]. by apply Huse.
  - intros j Hj. unfold spare. rewrite He by done. by apply Hspare.
  - intros j Hj Hd. rewrite He by done. by apply Hfree.
  - cbn. by rewrite length_alter.
Qed.

(** Taking an entry out of use: unlinked, its buffer freed. *)
Definition retire (i : nat) (s : page_cache) : page_cache := entry_free_data i (unlink i s).

Lemma repr_free_data s L F X i : repr s L F X → repr (entry_free_data i s) L F X.
Proof.
  intros R. unfold entry_free_data. destruct (pc_data (ent s i)); [|done]. destruct (pc_dma_pool s); [done|].
  by apply repr_upd.
Qed.
Lemma free_data_other s i j : j ≠ i → ent (entry_free_data i s) j = ent s j.
Proof.
  intros. unfold entry_free_data. destruct (pc_data (ent s i)); [|done]. destruct (pc_dma_pool s); [done|].
  by apply ent_upd_other.
Qed.
Lemma free_data_keeps {B} (g : page_cache_entry → B) s i j :
  (∀ e d, g (set_data d e) = g e) → g (ent (entry_free_data i s) j) = g (ent s j).
Proof.
  intros Hg. unfold entry_free_data. destruct (pc_data (ent s i)); [|done]. destruct (pc_dma_pool s); [done|].
  by apply ent_upd_field.
Qed.
Lemma free_data_globals s i :
  pc_dma_pool (entry_free_data i s) = pc_dma_pool s ∧ pc_writeback (entry_free_data i s) = pc_writeback s ∧
  length (pc_pool (entry_free_data i s)) = length (pc_pool s) ∧ pc_count (entry_free_data i s) = pc_count s.
Proof.
  unfold entry_free_data. destruct (pc_data (ent s i)); [|done]. destruct (pc_dma_pool s) eqn:Hd; [done|].
  cbn. by rewrite length_alter.
Qed.

Section retire.
Context {s : page_cache} {A B F X : list nat} {i : nat} (I : pc_inv s (A ++ i :: B) F X).

Lemma release_globals :
  pc_dma_pool (retire i s) = pc_dma_pool s ∧ pc_writeback (retire i s) = pc_writeback s ∧
  length (pc_pool (retire i s)) = length (pc_pool s) ∧ pc_count (retire i s) = pc_count s.
Proof.
  unfold retire. destruct (free_data_globals (unlink i s) i) as (-> & -> & -> & ->).
  pose proof (unlink_same (inv_repr _ _ _ _ I)) as [? ? ? _].
  destruct (unlink_globals (inv_repr _ _ _ _ I)) as [_ ?]. done.
Qed.
Lemma release_other j : j ≠ i → core (ent (retire i s) j) = core (ent s j).
Proof.
  intros Hj. unfold retire. rewrite free_data_other by done. apply (unlink_same (inv_repr _ _ _ _ I)).
Qed.
Lemma release_block j : pc_block (ent (retire i s) j) = pc_block (ent s j).
Proof.
  unfold retire. rewrite (free_data_keeps pc_block) by done.
  by apply (core_field pc_block), (unlink_same (inv_repr _ _ _ _ I)).
Qed.
Lemma repr_release : repr (retire i s) (A ++ B) F (i :: X).
Proof. apply repr_free_data, repr_unlink, I. Qed.

Lemma release_spare : spare (retire i s) i.
Proof.
  pose proof (inv_repr _ _ _ _ I) as R. destruct release_globals as (Hd & _).
  destruct (inv_use _ _ _ _ I i) as [_ (v & Hv & Hl)]; [set_solver|].
  assert (Hdata : pc_data (ent (unlink i s) i) = Some v).
  { rewrite <- Hv. by apply (core_field pc_data), (unlink_same R). }
  unfold spare. rewrite Hd. unfold retire, entry_free_data.
  rewrite Hdata, (same_dma _ _ (unlink_same R)). destruct (pc_dma_pool s); [by exists v|].
  rewrite ent_upd_same; [done|]. rewrite (same_len _ _ (unlink_same R)). apply (repr_bound R). set_solver.
Qed.

Lemma inv_release : pc_inv (retire i s) (A ++ B) F (i :: X).
Proof.
  pose proof repr_release as R'. destruct release_globals as (Hd & _ & Hl & _).
  destruct (repr_held _ _ _ _ _ R') as (HiL & HiF & HiX & _).
  assert (Hdata : ∀ j, j ≠ i → pc_data (ent (retire i s) j) = pc_data (ent s j)).
  { intros j Hj. apply release_other in Hj. by apply (f_equal pc_data) in Hj. }
  destruct I as [R Huse Hspare Hfree Hsize]. split; [done| | | |by rewrite Hl].
  - intros j Hj. rewrite release_block, Hdata by congruence. apply Huse.
    rewrite !elem_of_app, ?elem_of_cons in *. tauto.
  - intros j Hj. unfold spare. rewrite Hd, Hdata by congruence. by apply Hspare.
  - intros j Hj. rewrite release_block, Hd. by apply Hfree.
Qed.

Lemma peek_release b : peek b (retire i s) = if decide (b = pc_block (ent s i)) then None else peek b s.
Proof.
  pose proof (repr_unlink (inv_repr _ _ _ _ I)) as R1. rewrite <- (peek_unlink b (inv_repr _ _ _ _ I)).
  pose proof repr_release as R'. destruct (repr_held _ _ _ _ _ R1) as (HiL & _).
  unfold retire, entry_free_data in *. destruct (pc_data _); [|done]. destruct (pc_dma_pool _); [done|].
  by apply (peek_upd_out b R1).
Qed.
End retire.

(** Writes to an entry in hand. *)
Lemma inv_upd_held s L F X i f :
  (∀ e, pc_hash_next (f e) = pc_hash_next e) → (∀ e, pc_lru_next (f e) = pc_lru_next e) →
  (∀ e, pc_lru_prev (f e) = pc_lru_prev e) → pc_inv s L F (i :: X) → pc_inv (upd_ent i f s) L F (i :: X).
Proof.
  intros Hh Hn Hp [R Huse Hspare Hfree Hsize]. destruct (repr_held _ _ _ _ _ R) as (HiL & HiF & _ & _).
  assert (He : ∀ j, j ≠ i → ent (upd_ent i f s) j = ent s j) by (intros; by apply ent_upd_other).
  split; [by apply repr_upd| | | |cbn; by rewrite length_alter].
  - intros j Hj. rewrite He by congruence. auto.
  - intros j Hj. unfold spare. rewrite He by congruence. by apply Hspare.
  - intros j Hj Hd. rewrite He by congruence. by apply Hfree.
Qed.
Lemma peek_upd_held s L F X i f b :
  (∀ e, pc_hash_next (f e) = pc_hash_next e) → (∀ e, pc_lru_next (f e) = pc_lru_next e) →
  (∀ e, pc_lru_prev (f e) = pc_lru_prev e) → repr s L F (i :: X) → peek b (upd_ent i f s) = peek b s.
Proof.
  intros Hh Hn Hp R. destruct (repr_held _ _ _ _ _ R) as (HiL & _). apply (peek_upd_out b R); [|done].
  by apply repr_upd.
Qed.
End invariant.

(** ** Running a computation *)

Lemma bind_run {A B} (m : W A) (f : A → W B) w : (m ≫= f) w = f (m w).1 (m w).2.
Proof. unfold mbind, W_bind. by destruct (m w). Qed.
Lemma ret_run {A} (a : A) w : (mret a : W A) w = (a, w).
Proof. done. Qed.
Lemma get_run w : wget w = (cache w, w).
Proof. done. Qed.
Lemma mod_run f w : wmod f w = (tt, World (f (cache w)) (disk w) (calls w)).
Proof. done. Qed.
Lemma alone_bind {E : PcEnv} {B} (m : W B) : (alone;; m) = m.
Proof. done. Qed.
Ltac wsimp := unfold wrun, wres; repeat (rewrite ?alone_bind, ?bind_run, ?get_run, ?mod_run, ?ret_run; cbn [fst snd cache disk calls]).

Section worlds.
Context {E : PcEnv} {G : Geometry E}.

(** ** Writing back *)

Lemma landing_key b : key b → landing b = b.
Proof.
  intros [Hb Hlt]. pose proof geo_block. destruct geo_sectors as [k Hk], geo_records as [r Hr].
  pose proof geo_rec. unfold landing, writeback_recnum, blk_to_sec. unfold DEV_BSIZE in *.
  rewrite Hk at 1. rewrite Z.div_mul by lia.
  assert (Hbk : b * k * 512 = b * Z.of_nat fs_block) by (rewrite Hk; lia).
  assert (0 <= b * k) by nia. rewrite (u32_small (b * k)) by (unfold is_u32; lia).
  rewrite Hbk, u32_small by (unfold is_u32; lia).
  rewrite Hr at 1. rewrite Z.mul_assoc, Z.div_mul, <- Z.mul_assoc, <- Hr by lia. apply Z.div_mul. lia.
Qed.

Lemma blocks_of_one : blocks_of fs_block = 1.
Proof.
  pose proof geo_block. unfold blocks_of. symmetry. apply (Z.div_unique _ _ _ (Z.of_nat fs_block - 1)); lia.
Qed.

Lemma write_one_block b d dk b' :
  length d = fs_block → write_blocks b d dk b' = if decide (b' = b) then d else dk b'.
Proof.
  intros Hd. unfold write_blocks. rewrite Hd, blocks_of_one. case_decide as H1; case_decide as H2; try lia.
  - subst. rewrite Z.sub_diag. change (take fs_block d = d). apply take_ge. by rewrite Hd.
  - done.
Qed.

(** What the write-back of an entry does. *)
Record wrote_back (i : nat) (w w' : world) : Prop := {
  wrote_cache :
    cache w' = cache w ∧ (pc_dirty (ent (cache w) i) = false ∨ wb_result (calls w) ≠ 0) ∨
    cache w' = count_writeback (upd_ent i (set_dirty false) (cache w)) ∧ pc_dirty (ent (cache w) i) = true;
  wrote_else : ∀ b, b ≠ pc_block (ent (cache w) i) → disk w' b = disk w b;
  wrote_clean : pc_dirty (ent (cache w) i) = false → disk w' (pc_block (ent (cache w) i)) = disk w (pc_block (ent (cache w) i));
  wrote_dirty : pc_dirty (ent (cache w) i) = true → pc_writeback (cache w) = true →
    wb_result (calls w) = 0 ∨ cache w' ≠ cache w →
    disk w' (pc_block (ent (cache w) i)) = default [] (pc_data (ent (cache w) i)) }.

Lemma entry_writeback_wrote i w :
  key (pc_block (ent (cache w) i)) → full (pc_data (ent (cache w) i)) → wrote_back i w (wrun (entry_writeback i) w).
Proof.
  intros Hk (v & Hv & Hl). unfold entry_writeback. wsimp.
  destruct (pc_dirty (ent (cache w) i)) eqn:Hd; [|split; cbn; rewrite ?Hd; auto; done]. wsimp.
  destruct (pc_writeback (cache w)) eqn:Hw.
  - unfold ext2_writeback. rewrite (landing_key _ Hk), Hv. cbn.
    destruct (decide (wb_result (calls w) = 0)) as [Hz|Hz].
    + rewrite decide_False by lia. wsimp. split; cbn; rewrite ?Hd; [auto| |done|].
      * intros b Hb. by rewrite write_one_block, decide_False by done.
      * intros _ _ _. by rewrite write_one_block, decide_True, Hv by done.
    + rewrite decide_True by done. split; cbn; rewrite ?Hd; [auto| |done|naive_solver].
      intros b Hb. rewrite decide_False; [done|]. rewrite Hl, blocks_of_one. lia.
  - wsimp. rewrite decide_False by lia. wsimp. split; cbn; rewrite ?Hd, ?Hw; auto; done.
Qed.

Lemma inv_wrote i w w' L F X :
  pc_inv (cache w) L F X → i ∈ L → wrote_back i w w' →
  pc_inv (cache w') L F X ∧
  (∀ b, b ≠ pc_block (ent (cache w) i) → peek b (cache w') = peek b (cache w)) ∧
  (∀ j, pc_block (ent (cache w') j) = pc_block (ent (cache w) j)) ∧
  pc_count (cache w') = pc_count (cache w) ∧ pc_writeback (cache w') = pc_writeback (cache w) ∧
  pc_dma_pool (cache w') = pc_dma_pool (cache w).
Proof.
  intros I Hi Hw. destruct (wrote_cache _ _ _ Hw) as [[-> _]|[-> _]]; [done|].
  set (s1 := upd_ent i (set_dirty false) (cache w)).
  assert (I1 : pc_inv s1 L F X) by (apply inv_upd; [done..| |done]; by apply I).
  split_and!; [by apply inv_recount| | |done..].
  - intros b Hb. trans (peek b s1); [by eapply peek_recount, I1|]. unfold s1.
    rewrite (peek_upd b (inv_repr _ _ _ _ I)) by done. by rewrite decide_False.
  - intros j. by apply (ent_upd_field pc_block i).
Qed.

(** ** Eviction *)

(** An entry that has left the cache. *)
Record evicted (b : Z) (w w' : world) : Prop := {
  dropped_peek : ∀ b', peek b' (cache w') = if decide (b' = b) then None else peek b' (cache w);
  dropped_else : ∀ b', b' ≠ b → disk w' b' = disk w b';
  dropped_clean : ∀ e, peek b (cache w) = Some e → pc_dirty e = false → disk w' b = disk w b;
  dropped_dirty : ∀ e, peek b (cache w) = Some e → pc_dirty e = true → pc_writeback (cache w) = true →
    wb_result (calls w) = 0 → disk w' b = default [] (pc_data e);
  dropped_wb : pc_writeback (cache w') = pc_writeback (cache w) }.

Lemma release_dropped i w w1 A B F X :
  pc_inv (cache w) (A ++ i :: B) F X → wrote_back i w w1 →
  pc_inv (retire i (cache w1)) (A ++ B) F (i :: X) ∧ spare (retire i (cache w1)) i ∧
  (∀ j, pc_block (ent (retire i (cache w1)) j) = pc_block (ent (cache w) j)) ∧
  pc_count (retire i (cache w1)) = pc_count (cache w) ∧
  pc_dma_pool (retire i (cache w1)) = pc_dma_pool (cache w) ∧
  evicted (pc_block (ent (cache w) i)) w (World (retire i (cache w1)) (disk w1) (calls w1)).
Proof.
  intros I Hw. assert (Hi : i ∈ A ++ i :: B) by set_solver.
  destruct (inv_wrote _ _ _ _ _ _ I Hi Hw) as (I1 & Hpeek & Hblk & Hc & Hwb & Hdma).
  destruct (release_globals I1) as (Hd & Hw1 & _ & Hc1).
  split_and!; [by apply inv_release|by apply (release_spare I1)| |congruence|congruence|].
  - intros j. by rewrite (release_block I1).
  - pose proof (peek_in (inv_repr _ _ _ _ I) i Hi) as Hpi. split; cbn.
    + intros b. rewrite (peek_release I1), Hblk. case_decide; [done|]. auto.
    + apply Hw.
    + rewrite Hpi. intros e [= <-]. apply Hw.
    + rewrite Hpi. intros e [= <-] Hdirty Hon Hz. apply (wrote_dirty _ _ _ Hw); auto.
    + congruence.
Qed.

Lemma lru_victim_spec s fuel z L :
  dlinked (lru_next s) (lru_prev s) Head (Ent <$> L) z → (length L ≤ fuel)%nat →
  match lru_victim fuel (lru_prev s z) s with
  | None => ∀ i, i ∈ L → pc_busy (ent s i) = true
  | Some i => ∃ A B, L = A ++ i :: B ∧ pc_busy (ent s i) = false ∧ ∀ j, j ∈ B → pc_busy (ent s j) = true
  end.
Proof.
  revert fuel z. induction L as [|a L IH] using rev_ind; intros fuel z.
  - intros [_ ->] _. destruct fuel; set_solver.
  - rewrite fmap_app, length_app. cbn [fmap list_fmap length]. intros [Hd [_ ->]]%dlinked_app Hf.
    destruct fuel as [|fuel]; [lia|]. cbn [lru_victim]. destruct (pc_busy (ent s a)) eqn:Hb.
    + specialize (IH fuel (Ent a) Hd ltac:(lia)). destruct (lru_victim _ _ _) as [i|].
      * destruct IH as (A & B & -> & Hi & HB). exists A, (B ++ [a]). rewrite <- app_assoc.
        split_and!; [done|done|]. intros j [Hj|Hj%list_elem_of_singleton]%elem_of_app; [auto|by subst].
      * intros i [Hi|Hi%list_elem_of_singleton]%elem_of_app; [auto|by subst].
    + exists L, []. split_and!; [done|done|set_solver].
Qed.

Lemma evict_ok w L F :
  pc_inv (cache w) L F [] → pc_counted (cache w) L →
  match evict_lru w with
  | (None, w') => w' = w ∧ ∀ i, i ∈ L → pc_busy (ent (cache w) i) = true
  | (Some i, w') => ∃ A B,
      L = A ++ i :: B ∧ pc_busy (ent (cache w) i) = false ∧
      (∀ j, j ∈ B → pc_busy (ent (cache w) j) = true) ∧
      pc_inv (cache w') (A ++ B) F [i] ∧ spare (cache w') i ∧ pc_counted (cache w') (A ++ B) ∧
      (∀ j, pc_block (ent (cache w') j) = pc_block (ent (cache w) j)) ∧
      pc_dma_pool (cache w') = pc_dma_pool (cache w) ∧ evicted (pc_block (ent (cache w) i)) w w'
  end.
Proof.
  intros I Hc. unfold evict_lru. wsimp.
  pose proof (repr_length (inv_repr _ _ _ _ I)) as Hlen.
  pose proof (lru_victim_spec _ (length (pc_pool (cache w))) _ _ (lru_linked _ _ (repr_lru _ _ _ _ (inv_repr _ _ _ _ I))) ltac:(lia)) as Hv.
  destruct (lru_victim _ _ _) as [i|]; [|by wsimp]. destruct Hv as (A & B & -> & Hb & HB). wsimp.
  exists A, B. destruct (inv_use _ _ _ _ I i) as [Hk Hf]; [set_solver|].
  pose proof (entry_writeback_wrote i w Hk Hf) as Hw. unfold wrun in Hw.
  destruct (entry_writeback i w) as [r w1]. cbn [snd] in *.
  destruct (release_dropped _ _ _ _ _ _ _ I Hw) as (I1 & Hs & Hblk & Hc1 & Hd & [D1 D2 D3 D4 D5]).
  change (hash_remove i (lru_remove i (cache w1))) with (unlink i (cache w1)).
  change (entry_free_data i (unlink i (cache w1))) with (retire i (cache w1)).
  split_and!; [done|done|done|by apply (inv_recount (retire i (cache w1)))|done| |done|done|].
  - unfold pc_counted in *. cbn. rewrite Hc1, Hc. rewrite !length_app in *. cbn in *.
    pose proof (inv_size _ _ _ _ I). rewrite u32_small; unfold is_u32; lia.
  - split; try done. intros b. rewrite <- D1. by apply (peek_recount (retire i (cache w1)) _ _ _ _ _ _ _ _ _ (inv_repr _ _ _ _ I1)).
Qed.

(** ** The order of use *)

Definition used_blocks (s : page_cache) (L : list nat) : list Z := (λ i, pc_block (ent s i)) <$> L.
(** To the front of a list. *)
Definition front (b : Z) (l : list Z) : list Z := b :: filter (λ x, x ≠ b) l.

Lemma blocks_same s s' L : same s s' → used_blocks s' L = used_blocks s L.
Proof. intros Hs. apply list_fmap_ext. intros ? i _. by apply (core_field pc_block). Qed.
Lemma blocks_nodup {s L F X} : repr s L F X → NoDup (used_blocks s L).
Proof.
  intros R. apply NoDup_fmap_2_strong; [|apply (lru_nodup _ _ (repr_lru _ _ _ _ R))].
  intros i j Hi Hj. by apply (repr_keys _ _ _ _ R).
Qed.
Lemma filter_others (b : Z) (l : list Z) : (b ∉ l) → filter (λ x, x ≠ b) l = l.
Proof.
  induction l as [|x l IH]; [done|]. intros [Hx Hl]%not_elem_of_cons.
  rewrite filter_cons_True by done. by rewrite IH.
Qed.
Lemma filter_cut (b : Z) l1 l2 : NoDup (l1 ++ b :: l2) → filter (λ x, x ≠ b) (l1 ++ b :: l2) = l1 ++ l2.
Proof.
  intros Hn. rewrite <- Permutation_middle in Hn. apply list.NoDup_cons in Hn as [Hn _].
  rewrite list.filter_app, filter_cons_False by naive_solver. f_equal; apply filter_others; set_solver.
Qed.
Lemma front_cut {s A i B F X} : repr s (A ++ i :: B) F X →
  front (pc_block (ent s i)) (used_blocks s (A ++ i :: B)) = used_blocks s (i :: A ++ B).
Proof.
  intros R. pose proof (blocks_nodup R) as Hn. unfold front, used_blocks in *. rewrite !fmap_app in *. cbn in *.
  rewrite fmap_app. f_equal. by apply filter_cut.
Qed.

(** ** The operations *)

Definition ok (w : world) (L F : list nat) : Prop := pc_inv (cache w) L F [] ∧ pc_counted (cache w) L.

(** Nothing that can be read has changed. *)
Record unchanged (w w' : world) : Prop := {
  quiet_peek : ∀ b, peek b (cache w') = peek b (cache w);
  quiet_disk : ∀ b, disk w' b = disk w b;
  quiet_wb : pc_writeback (cache w') = pc_writeback (cache w) }.

Lemma quiet_trans w1 w2 w3 : unchanged w1 w2 → unchanged w2 w3 → unchanged w1 w3.
Proof. intros [P1 P2 P3] [Q1 Q2 Q3]. split; [intros; by rewrite Q1|intros; by rewrite Q2|congruence]. Qed.
Lemma dropped_quiet b w w0 w1 : unchanged w w0 → calls w0 = calls w → evicted b w0 w1 → evicted b w w1.
Proof.
  intros [Q1 Q2 Q3] Hc [D1 D2 D3 D4 D5]. split; [| | | |congruence].
  - intros b'. by rewrite D1, Q1.
  - intros b' Hb. by rewrite D2, Q2.
  - intros e He. rewrite <- Q2. apply D3. by rewrite Q1.
  - intros e He Hd Hw Hz. apply D4; [by rewrite Q1|done|congruence|congruence].
Qed.

Lemma touch_ok s A i B F :
  pc_inv s (A ++ i :: B) F [] →
  pc_inv (touch i s) (i :: A ++ B) F [] ∧ same s (touch i s) ∧ (∀ b, peek b (touch i s) = peek b s) ∧
  pc_count (touch i s) = pc_count s ∧
  used_blocks (touch i s) (i :: A ++ B) = front (pc_block (ent s i)) (used_blocks s (A ++ i :: B)).
Proof.
  intros I. assert (Hs : same s (touch i s)) by apply bare_same, touch_bare.
  pose proof (inv_touch _ _ _ _ _ _ I) as I'. split_and!; [done|done| | |].
  - intros b. apply (peek_same b (inv_repr _ _ _ _ I) (inv_repr _ _ _ _ I')); [|done]. by rewrite Permutation_middle.
  - pose proof (touch_bare i s) as Hb. by apply (f_equal pc_count) in Hb.
  - by rewrite (blocks_same s), (front_cut (inv_repr _ _ _ _ I)).
Qed.

(** The list with an element taken out. *)
Lemma pick (i : nat) L : i ∈ L → ∃ A B, L = A ++ i :: B.
Proof. intros (A & B & ->)%list_elem_of_split. eauto. Qed.

Lemma ok_touch w w' A i B F c h m e n :
  ok w (A ++ i :: B) F → cache w' = recount c h m e n (touch i (cache w)) →
  c = pc_count (touch i (cache w)) → disk w' = disk w →
  ok w' (i :: A ++ B) F ∧ unchanged w w' ∧
  used_blocks (cache w') (i :: A ++ B) = front (pc_block (ent (cache w) i)) (used_blocks (cache w) (A ++ i :: B)).
Proof.
  intros [I Hc] Hw Hcc Hdk. destruct (touch_ok _ _ _ _ _ I) as (I' & Hs & Hp & Hc' & Hb). split_and!.
  - split; rewrite Hw; [by apply inv_recount|]. unfold pc_counted in *. cbn. rewrite Hcc, Hc', Hc.
    rewrite !length_app. cbn. lia.
  - split; rewrite ?Hw, ?Hdk; [|done|apply Hs]. intros b. rewrite <- Hp.
    apply (peek_recount _ _ _ _ _ _ _ _ _ _ (inv_repr _ _ _ _ I')).
  - by rewrite Hw.
Qed.

Lemma ok_recount w w' L F c h m e n :
  ok w L F → cache w' = recount c h m e n (cache w) → c = pc_count (cache w) → disk w' = disk w →
  ok w' L F ∧ unchanged w w' ∧ used_blocks (cache w') L = used_blocks (cache w) L.
Proof.
  intros [I Hc] Hw -> Hdk. split_and!.
  - split; rewrite Hw; [by apply inv_recount|done].
  - split; rewrite ?Hw, ?Hdk; [|done|done]. intros b. apply (peek_recount _ _ _ _ _ _ _ _ _ _ (inv_repr _ _ _ _ I)).
  - by rewrite Hw.
Qed.

Lemma lookup_ok b w L F :
  ok w L F → ∃ L',
    ok (wrun (page_cache_lookup b) w) L' F ∧ unchanged w (wrun (page_cache_lookup b) w) ∧
    wres (page_cache_lookup b) w = default [] ∘ pc_data <$> peek b (cache w) ∧
    used_blocks (cache (wrun (page_cache_lookup b) w)) L' =
      match peek b (cache w) with Some _ => front b (used_blocks (cache w) L) | None => used_blocks (cache w) L end.
Proof.
  intros O. pose proof (inv_repr _ _ _ _ (proj1 O)) as R. pose proof (find_cases R b) as Hf.
  unfold page_cache_lookup, peek. wsimp. destruct (find b (cache w)) as [i|]; cbn [fmap option_fmap option_map].
  - destruct Hf as [(A & B & ->)%pick <-]. exists (i :: A ++ B). wsimp.
    destruct (ok_touch w _ A i B F _ _ _ _ _ O (eq_refl : cache (World (count_hit (touch i (cache w))) (disk w) (calls w)) = _)
                eq_refl eq_refl) as (O' & Q & Hb).
    split_and!; [exact O'|exact Q| |exact Hb].
    change (Some (default [] (pc_data (ent (touch i (cache w)) i))) = Some (default [] (pc_data (ent (cache w) i)))).
    by rewrite (core_field pc_data _ _ _ (λ _, eq_refl) (bare_same _ _ (touch_bare i (cache w)))).
  - exists L. wsimp.
    destruct (ok_recount w _ L F _ _ _ _ _ O (eq_refl : cache (World (count_miss (cache w)) (disk w) (calls w)) = _)
                eq_refl eq_refl) as (O' & Q & Hb). done.
Qed.

(** ** Insertion *)

Lemma take_ok w L F :
  ok w L F →
  match take_entry w with
  | (None, w') => w' = w ∧ F = [] ∧ ∀ i, i ∈ L → pc_busy (ent (cache w) i) = true
  | (Some i, w') => ∃ L' F',
      pc_inv (cache w') L' F' [i] ∧ spare (cache w') i ∧ pc_counted (cache w') L' ∧
      pc_dma_pool (cache w') = pc_dma_pool (cache w) ∧
      (∀ j, pc_block (ent (cache w') j) = pc_block (ent (cache w) j)) ∧
      (F = i :: F' ∧ L' = L ∧ unchanged w w' ∨
       ∃ A B, F = [] ∧ F' = [] ∧ L = A ++ i :: B ∧ L' = A ++ B ∧ pc_busy (ent (cache w) i) = false ∧
         (∀ j, j ∈ B → pc_busy (ent (cache w) j) = true) ∧ evicted (pc_block (ent (cache w) i)) w w')
  end.
Proof.
  intros [I Hc]. unfold take_entry. wsimp. pose proof (free_chain _ _ (repr_free _ _ _ _ (inv_repr _ _ _ _ I))) as Hf.
  destruct F as [|i F]; cbn in Hf.
  - rewrite Hf. pose proof (evict_ok w L [] I Hc) as He. destruct (evict_lru w) as [[i|] w'].
    + destruct He as (A & B & -> & Hb & HB & I' & Hs & Hc' & Hblk & Hd & D). exists (A ++ B), [].
      split_and!; [done..|]. right. exists A, B. done.
    + naive_solver.
  - destruct Hf as [-> Hf]. wsimp. exists L, F.
    change (upd_ent i (set_hash_next None) (set_free (pc_hash_next (ent (cache w) i)) (cache w)))
      with (pop_free i (cache w)).
    pose proof (inv_pop _ _ _ _ _ I) as I'. assert (Hs : same (cache w) (pop_free i (cache w))) by apply pop_same.
    split_and!; [done| |done|apply Hs| |].
    + pose proof (inv_spare _ _ _ _ I i ltac:(left)) as Hsp. unfold spare in *.
      by rewrite (same_dma _ _ Hs), (core_field pc_data _ _ _ (λ _, eq_refl) Hs).
    + intros j. by apply (core_field pc_block).
    + left. split_and!; [done|done|]. split; [|done|done]. intros b.
      by apply (peek_same b (inv_repr _ _ _ _ I) (inv_repr _ _ _ _ I')).
Qed.

Lemma peek_none {s L F X} (R : repr s L F X) b : peek b s = None → ∀ i, i ∈ L → pc_block (ent s i) ≠ b.
Proof. unfold peek. pose proof (find_cases R b) as Hf. by destruct (find b s). Qed.

Lemma inv_link s L F X i :
  pc_inv s L F (i :: X) → key (pc_block (ent s i)) → full (pc_data (ent s i)) →
  (∀ j, j ∈ L → pc_block (ent s j) ≠ pc_block (ent s i)) → pc_inv (link i (pc_block (ent s i)) s) (i :: L) F X.
Proof.
  intros I Hk Hf Hnew. pose proof (repr_link (inv_repr _ _ _ _ I) Hnew) as R. set (s' := link _ _ _) in *.
  assert (Hs : same s s') by apply link_same.
  assert (Hb : ∀ j, pc_block (ent s' j) = pc_block (ent s j)) by (intros j; by apply (core_field pc_block)).
  assert (Hd : ∀ j, pc_data (ent s' j) = pc_data (ent s j)) by (intros j; by apply (core_field pc_data)).
  destruct I as [_ Huse Hspare Hfree Hsize]. split; [done| | | |by rewrite (same_len _ _ Hs)].
  - intros j Hj. rewrite Hb, Hd. apply elem_of_cons in Hj as [->|Hj]; auto.
  - intros j Hj. unfold spare. rewrite (same_dma _ _ Hs), Hd. by apply Hspare.
  - intros j Hj. rewrite (same_dma _ _ Hs), Hb. by apply Hfree.
Qed.

(** The fields that an insertion sets. *)
Definition keyed (b : Z) (e : page_cache_entry) : page_cache_entry :=
  set_busy false (set_dirty false (set_block b e)).

Lemma enter_ok i b w L F :
  pc_inv (cache w) L F [i] → pc_counted (cache w) L → key b → full (pc_data (ent (cache w) i)) →
  peek b (cache w) = None →
  let w' := wrun (enter i b) w in
  ok w' (i :: L) F ∧ disk w' = disk w ∧ pc_writeback (cache w') = pc_writeback (cache w) ∧
  (∀ b', peek b' (cache w') = if decide (b' = b) then Some (core (keyed b (ent (cache w) i))) else peek b' (cache w)) ∧
  used_blocks (cache w') (i :: L) = b :: used_blocks (cache w) L.
Proof.
  intros I Hc Hk Hf Hp. set (s1 := upd_ent i (keyed b) (cache w)).
  pose proof (inv_repr _ _ _ _ I) as R. destruct (repr_held _ _ _ _ _ R) as (HiL & HiF & _ & Hlt).
  assert (I1 : pc_inv s1 L F [i]) by by apply inv_upd_held.
  assert (He1 : ent s1 i = keyed b (ent (cache w) i)) by by apply ent_upd_same.
  assert (Hb1 : pc_block (ent s1 i) = b) by by rewrite He1.
  assert (Hp1 : ∀ b', peek b' s1 = peek b' (cache w)) by (intros b'; by apply (peek_upd_held _ L F [] i (keyed b))).
  assert (Hnew : ∀ j, j ∈ L → pc_block (ent s1 j) ≠ pc_block (ent s1 i)).
  { rewrite Hb1. apply (peek_none (inv_repr _ _ _ _ I1)). by rewrite Hp1. }
  assert (I2 : pc_inv (link i b s1) (i :: L) F []).
  { rewrite <- Hb1 at 1. apply inv_link; [done|by rewrite Hb1|by rewrite He1|done]. }
  assert (Hw : wrun (enter i b) w = World (recount (pc_count (link i b s1) +32 1) (pc_hits (link i b s1))
     (pc_misses (link i b s1)) (pc_evictions (link i b s1)) (pc_writebacks (link i b s1)) (link i b s1)) (disk w) (calls w)).
  { unfold enter. by wsimp. }
  cbv zeta. rewrite Hw. cbn [cache disk]. clear Hw.
  assert (Hcl : pc_count (link i b s1) = pc_count (cache w)).
  { pose proof (lru_insert_bare i (set_hash (PC_HASH b) (Some i) (upd_ent i (set_hash_next (hash_head s1 (PC_HASH b))) s1))) as Hb.
    by apply (f_equal pc_count) in Hb. }
  split_and!.
  - split; [by apply inv_recount|]. unfold pc_counted in *.
    change (pc_count (link i b s1) +32 1 = Z.of_nat (S (length L))). rewrite Hcl, Hc.
    pose proof (repr_length R) as Hl. pose proof (inv_size _ _ _ _ I). cbn in *. rewrite u32_small; unfold is_u32; lia.
  - done.
  - change (pc_writeback (link i b s1) = pc_writeback s1). apply (link_same i b s1).
  - intros b'. trans (peek b' (link i b s1)); [apply (peek_recount _ _ _ _ _ _ _ _ _ _ (inv_repr _ _ _ _ I2))|].
    rewrite <- Hb1 at 1. rewrite (peek_link b' (inv_repr _ _ _ _ I1) Hnew), Hb1, Hp1, He1. done.
  - change (used_blocks (link i b s1) (i :: L) = b :: used_blocks (cache w) L).
    rewrite (blocks_same s1) by apply link_same. cbn. rewrite Hb1. f_equal. apply list_fmap_ext.
    intros ? j Hj%list_elem_of_lookup_2. unfold s1. rewrite ent_upd_other; [done|congruence].
Qed.

(** Room for a block: a free entry, or else the least recently used entry that no
    write is using has left the cache. *)
Inductive made_room (w : world) (L F : list nat) (w1 : world) (L1 : list nat) : Prop :=
| room_free : F ≠ [] → L1 = L → unchanged w w1 → made_room w L F w1 L1
| room_evicted A i B : F = [] → L = A ++ i :: B → L1 = A ++ B → pc_busy (ent (cache w) i) = false →
    (∀ j, j ∈ B → pc_busy (ent (cache w) j) = true) → evicted (pc_block (ent (cache w) i)) w w1 →
    made_room w L F w1 L1.

(** A block that has come into the cache, clean. *)
Record entered (b : Z) (d : list Z) (w w' : world) : Prop := {
  entered_peek : ∃ e, pc_data e = Some d ∧ pc_dirty e = false ∧ pc_busy e = false ∧
    ∀ b', peek b' (cache w') = if decide (b' = b) then Some e else peek b' (cache w);
  entered_disk : ∀ b', disk w' b' = disk w b';
  entered_wb : pc_writeback (cache w') = pc_writeback (cache w) }.

(** The four ways in which an insertion ends. *)
Inductive inserted (b : Z) (d : list Z) (w : world) (L F : list nat) (w' : world) (L' : list nat) : Prop :=
| ins_hit : is_Some (peek b (cache w)) → unchanged w w' →
    used_blocks (cache w') L' = front b (used_blocks (cache w) L) → inserted b d w L F w' L'
| ins_full : peek b (cache w) = None → F = [] → (∀ i, i ∈ L → pc_busy (ent (cache w) i) = true) → w' = w →
    L' = L → inserted b d w L F w' L'
| ins_failed n w1 L1 : peek b (cache w) = None → made_room w L F w1 L1 → pc_dma_pool (cache w) = false →
    vm_result n ≠ KERN_SUCCESS → unchanged w1 w' → used_blocks (cache w') L' = used_blocks (cache w) L1 →
    inserted b d w L F w' L'
| ins_done w1 L1 : peek b (cache w) = None → made_room w L F w1 L1 → entered b d w1 w' →
    used_blocks (cache w') L' = b :: used_blocks (cache w) L1 → inserted b d w L F w' L'.

Lemma copy_into_full d v : length d = length v → copy_into d v = d.
Proof.
  intros Hl. unfold copy_into. rewrite take_ge by lia. rewrite drop_ge by lia. apply app_nil_r.
Qed.

(** The data into an entry in hand, and then the lists. *)
Lemma fill_enter_ok f i b d w L F :
  (∀ e, ∃ dd, f e = set_data dd e) → pc_data (f (ent (cache w) i)) = Some d → length d = fs_block →
  pc_inv (cache w) L F [i] → pc_counted (cache w) L → key b → peek b (cache w) = None →
  let w' := wrun (wmod (upd_ent i f);; enter i b) w in
  ok w' (i :: L) F ∧ entered b d w w' ∧ used_blocks (cache w') (i :: L) = b :: used_blocks (cache w) L.
Proof.
  intros Hf Hd Hl I Hc Hk Hp w'. pose proof (inv_repr _ _ _ _ I) as R.
  destruct (repr_held _ _ _ _ _ R) as (HiL & _ & _ & Hlt).
  assert (Hkeep : ∀ {B} (g : page_cache_entry → B), (∀ e dd, g (set_data dd e) = g e) → ∀ e, g (f e) = g e).
  { intros B g Hg e. destruct (Hf e) as [dd ->]. apply Hg. }
  set (w1 := World (upd_ent i f (cache w)) (disk w) (calls w)).
  assert (I1 : pc_inv (cache w1) L F [i]) by (by apply inv_upd_held; [by apply Hkeep..|]).
  assert (Hp1 : ∀ b', peek b' (cache w1) = peek b' (cache w)).
  { intros b'. by apply (peek_upd_held _ L F [] i f); [by apply Hkeep..|]. }
  assert (He : ent (cache w1) i = f (ent (cache w) i)) by by apply ent_upd_same.
  destruct (enter_ok i b w1 L F) as (O & Hdk & Hwb & Hpk & Hbl); try done.
  - rewrite He, Hd. by exists d.
  - by rewrite Hp1.
  - assert (Hw' : w' = wrun (enter i b) w1) by (unfold w', wrun; by rewrite bind_run, mod_run).
    rewrite Hw'. split_and!; [done| |].
    + split; [|by rewrite Hdk|done]. exists (core (keyed b (ent (cache w1) i))). split_and!; [|done|done|].
      * change (pc_data (ent (cache w1) i) = Some d). by rewrite He.
      * intros b'. by rewrite Hpk, Hp1.
    + rewrite Hbl. f_equal. apply list_fmap_ext. intros ? j Hj%list_elem_of_lookup_2.
      apply (ent_upd_field pc_block). by apply Hkeep.
Qed.

Lemma room_blocks w w1 L1 : (∀ j, pc_block (ent (cache w1) j) = pc_block (ent (cache w) j)) →
  used_blocks (cache w1) L1 = used_blocks (cache w) L1.
Proof. intros Hb. apply list_fmap_ext. auto. Qed.

Lemma room_peek {w L F w1 L1} b : made_room w L F w1 L1 → peek b (cache w) = None → peek b (cache w1) = None.
Proof.
  intros [? ? Q|A i B ? ? ? ? ? D] Hp; [by rewrite (quiet_peek _ _ Q)|].
  rewrite (dropped_peek _ _ _ D). by case_decide.
Qed.

Lemma insert_ok b d w L F :
  ok w L F → key b → length d = fs_block → ∃ L' F',
    ok (wrun (page_cache_insert b d) w) L' F' ∧ inserted b d w L F (wrun (page_cache_insert b d) w) L'.
Proof.
  intros O Hk Hl. pose proof (inv_repr _ _ _ _ (proj1 O)) as R. pose proof (find_cases R b) as Hf.
  unfold page_cache_insert. wsimp. destruct (find b (cache w)) as [i|] eqn:Hfi.
  - destruct Hf as [(A & B & ->)%pick <-]. exists (i :: A ++ B), F. wsimp.
    destruct (ok_touch w (World (touch i (cache w)) (disk w) (calls w)) A i B F _ _ _ _ _ O
      (recount_id _) eq_refl eq_refl) as (O' & Q & Hb). split; [exact O'|]. apply ins_hit; [|exact Q|exact Hb]. unfold peek. by rewrite Hfi.
  - assert (Hp : peek b (cache w) = None) by (unfold peek; by rewrite Hfi).
    wsimp. pose proof (take_ok w L F O) as Ht. destruct (take_entry w) as [[i|] w1]; cbn [fst snd].
    2: { destruct Ht as (-> & -> & Hbusy). exists L, []. split; [done|]. by apply ins_full. }
    destruct Ht as (L1 & F1 & I1 & Hsp & Hc1 & Hd & Hblk & Hroom).
    assert (Hr : made_room w L F w1 L1).
    { destruct Hroom as [(-> & -> & Q)|(A & B & -> & -> & -> & -> & ? & ? & D)]; [by apply room_free|].
      by eapply room_evicted. }
    pose proof (room_peek b Hr Hp) as Hp1. pose proof (room_blocks _ _ L1 Hblk) as Hbl1.
    wsimp. unfold spare in Hsp. destruct (pc_dma_pool (cache w1)) eqn:Hdma.
    + destruct Hsp as (v & Hv & Hlv). exists (i :: L1), F1.
      destruct (fill_enter_ok (λ e, set_data (copy_into d <$> pc_data e) e) i b d w1 L1 F1) as (O' & En & Hbl); try done.
      * intros e. by eexists.
      * cbn. rewrite Hv. cbn. by rewrite copy_into_full by congruence.
      * split; [done|]. eapply ins_done; [done|done|done|]. by rewrite <- Hbl1.
    + wsimp. unfold vm_allocate at 1. cbn [fst snd]. destruct (decide _) as [Hz|Hz].
      * exists L1, (i :: F1). unfold vm_allocate, give_back. wsimp. change (set_free ?a ?b) with (push_free i (cache w1)).
        assert (I2 : pc_inv (push_free i (cache w1)) L1 (i :: F1) []).
        { apply inv_push; [unfold spare; by rewrite Hdma|by rewrite Hdma|done]. }
        assert (Hs : same (cache w1) (push_free i (cache w1))) by apply push_same.
        split; [by split|]. eapply (ins_failed _ _ _ _ _ _ _ (calls w1)); [done|done|congruence|done| |].
        -- split; [|done|done]. intros b'. by apply (peek_same b' (inv_repr _ _ _ _ I1) (inv_repr _ _ _ _ I2)).
        -- cbn. by rewrite (blocks_same (cache w1)).
      * exists (i :: L1), F1. set (w2 := (vm_allocate (length d) w1).2).
        destruct (fill_enter_ok (set_data (Some d)) i b d w2 L1 F1) as (O' & En & Hbl); try done.
        { intros e. by eexists. }
        split; [done|]. eapply (ins_done _ _ _ _ _ _ _ w1); [done|done| |by rewrite <- Hbl1].
        destruct En as [H1 H2 H3]. by split.
Qed.

(** ** Leaving the cache *)

Lemma drop_ok i w A B F :
  pc_inv (cache w) (A ++ i :: B) F [] →
  let w' := wrun (drop_entry i) w in
  pc_inv (cache w') (A ++ B) (i :: F) [] ∧ pc_count (cache w') = pc_count (cache w) ∧
  evicted (pc_block (ent (cache w) i)) w w' ∧ used_blocks (cache w') (A ++ B) = used_blocks (cache w) (A ++ B).
Proof.
  intros I w'. destruct (inv_use _ _ _ _ I i) as [Hk Hf]; [set_solver|].
  pose proof (entry_writeback_wrote i w Hk Hf) as Hw. unfold wrun in Hw.
  unfold w', drop_entry, give_back. wsimp. destruct (entry_writeback i w) as [r w1]. cbn [snd] in *.
  destruct (release_dropped _ _ _ _ _ _ _ I Hw) as (I1 & Hs & Hblk & Hc1 & Hd & [D1 D2 D3 D4 D5]).
  change (entry_free_data i (hash_remove i (lru_remove i (cache w1)))) with (retire i (cache w1)).
  set (s1 := retire i (cache w1)) in *. set (s2 := upd_ent i (set_block NO_BLOCK) s1).
  change (set_free ?a ?b) with (push_free i s2). destruct (repr_held _ _ _ _ _ (inv_repr _ _ _ _ I1)) as (HiL & _ & _ & Hlt).
  assert (I2 : pc_inv s2 (A ++ B) F [i]) by by apply inv_upd_held.
  assert (I3 : pc_inv (push_free i s2) (A ++ B) (i :: F) []).
  { apply inv_push; [| |done].
    - unfold spare in *. unfold s2. change (pc_dma_pool (upd_ent _ _ ?s)) with (pc_dma_pool s).
      by rewrite (ent_upd_field pc_data).
    - intros _. unfold s2. by rewrite ent_upd_same. }
  split_and!; [done|done| |].
  - split; cbn [cache disk]; [|done|done|done|done]. intros b. rewrite <- D1. cbn [cache].
    rewrite (peek_same b (inv_repr _ _ _ _ I2) (inv_repr _ _ _ _ I3)); [|done|apply push_same].
    by apply (peek_upd_held _ (A ++ B) F [] i (set_block NO_BLOCK)), I1.
  - rewrite (blocks_same s2) by apply push_same. apply list_fmap_ext. intros ? j Hj%list_elem_of_lookup_2.
    unfold s2. rewrite ent_upd_other by congruence. apply Hblk.
Qed.

Lemma invalidate_ok b w L F :
  ok w L F → ∃ L' F',
    ok (wrun (page_cache_invalidate b) w) L' F' ∧
    used_blocks (cache (wrun (page_cache_invalidate b) w)) L' = filter (λ x, x ≠ b) (used_blocks (cache w) L) ∧
    match peek b (cache w) with
    | Some _ => evicted b w (wrun (page_cache_invalidate b) w)
    | None => wrun (page_cache_invalidate b) w = w
    end.
Proof.
  intros O. destruct (O) as [I Hc]. pose proof (inv_repr _ _ _ _ I) as R. pose proof (find_cases R b) as Hf.
  unfold page_cache_invalidate, peek. wsimp. destruct (find b (cache w)) as [i|]; cbn [fmap option_fmap option_map].
  - destruct Hf as [(A & B & ->)%pick <-]. exists (A ++ B), (i :: F). wsimp.
    destruct (drop_ok i w A B F I) as (I' & Hc' & [D1 D2 D3 D4 D5] & Hb). unfold wrun in *.
    destruct (drop_entry i w) as [u w1]. cbn [snd] in *. split_and!.
    + split; [by apply (inv_recount (cache w1))|]. unfold pc_counted in *. cbn. rewrite Hc', Hc.
      pose proof (inv_size _ _ _ _ I). pose proof (repr_length R). rewrite !length_app in *. cbn in *.
      rewrite u32_small; unfold is_u32; lia.
    + change (used_blocks (cache w1) (A ++ B) = filter (λ x, x ≠ pc_block (ent (cache w) i)) (used_blocks (cache w) (A ++ i :: B))).
      rewrite Hb. pose proof (front_cut R) as Hfc. by injection Hfc.
    + split; cbn [cache disk]; [|done|done|done|done]. intros b'. rewrite <- D1.
      apply (peek_recount (cache w1) _ _ _ _ _ _ _ _ _ (inv_repr _ _ _ _ I')).
  - exists L, F. wsimp. split_and!; [done| |done]. symmetry. apply filter_others.
    intros (i & -> & Hi)%list_elem_of_fmap. by apply (Hf i).
Qed.

(** A sequence of steps in which entries leave the cache. *)
Definition drops : world → world → Prop :=
  rtc (λ w w', unchanged w w' ∨ ∃ b, is_Some (peek b (cache w)) ∧ evicted b w w').

Lemma key_block b : key b → b ≠ NO_BLOCK.
Proof.
  intros [Hb Hlt] ->. pose proof geo_block. destruct geo_sectors as [k Hk]. unfold NO_BLOCK, DEV_BSIZE in *. lia.
Qed.

Lemma in_use_spec s L F i :
  pc_inv s L F [] → (i < length (pc_pool s))%nat → in_use (ent s i) = true ↔ i ∈ L.
Proof.
  intros I Hlt. unfold in_use. rewrite bool_decide_eq_true. split.
  - intros [[v Hv] Hb]. assert (Hi : i ∈ L ++ F ++ []).
    { rewrite (repr_perm _ _ _ _ (inv_repr _ _ _ _ I)), elem_of_seq. lia. }
    rewrite app_nil_r in Hi. apply elem_of_app in Hi as [Hi|Hi]; [done|exfalso].
    pose proof (inv_spare _ _ _ _ I i Hi) as Hs. pose proof (inv_free _ _ _ _ I i Hi) as Hf.
    unfold spare in Hs. destruct (pc_dma_pool s); [auto|congruence].
  - intros Hi. destruct (inv_use _ _ _ _ I i Hi) as [Hk (v & -> & _)]. split; [done|by apply key_block].
Qed.

Lemma flush_loop ks w L F :
  pc_inv (cache w) L F [] → (∀ k, k ∈ ks → (k < length (pc_pool (cache w)))%nat) →
  let w' := wrun (wfor (λ i, s ← wget; if in_use (ent s i) then drop_entry i else mret tt) ks) w in
  ∃ L' F', pc_inv (cache w') L' F' [] ∧ drops w w' ∧ ∀ i, i ∈ L' → i ∈ L ∧ (i ∉ ks).
Proof.
  revert w L F. induction ks as [|k ks IH]; intros w L F I Hks.
  - exists L, F. split_and!; [done|apply rtc_refl|set_solver].
  - cbn [wfor]. wsimp. pose proof (in_use_spec _ _ _ k I (Hks k ltac:(left))) as Hu.
    destruct (in_use (ent (cache w) k)).
    + pose proof (proj1 Hu eq_refl) as (A & B & ->)%pick.
      destruct (drop_ok k w A B F I) as (I1 & _ & D & _). unfold wrun in *.
      destruct (drop_entry k w) as [u w1]. cbn [snd] in *.
      assert (Hlen : length (pc_pool (cache w1)) = length (pc_pool (cache w))).
      { rewrite <- (repr_length (inv_repr _ _ _ _ I1)), <- (repr_length (inv_repr _ _ _ _ I)), !length_app. cbn. lia. }
      destruct (IH w1 _ _ I1) as (L' & F' & I' & HD & HL'); [intros j Hj; rewrite Hlen; apply Hks; by right|].
      exists L', F'. split_and!; [done| |].
      * eapply rtc_l; [|exact HD]. right. eexists. split; [|exact D].
        rewrite (peek_in (inv_repr _ _ _ _ I)) by set_solver. done.
      * intros i Hi. apply HL' in Hi as [Hi Hni].
        apply (elem_of_cut k A B) in Hi as [? ?]; [set_solver|apply (lru_nodup _ _ (repr_lru _ _ _ _ (inv_repr _ _ _ _ I)))].
    + wsimp. destruct (IH w L F I) as (L' & F' & I' & HD & HL'); [set_solver|].
      exists L', F'. split_and!; [done|done|]. intros i Hi. apply HL' in Hi as [Hi Hni]. split; [done|].
      intros [->|?]%elem_of_cons; [|done]. by apply Hu in Hi.
Qed.

Lemma flush_ok w L F :
  ok w L F → ∃ F', ok (wrun page_cache_flush w) [] F' ∧ drops w (wrun page_cache_flush w).
Proof.
  intros [I Hc]. unfold page_cache_flush. wsimp.
  destruct (flush_loop (seq 0 (length (pc_pool (cache w)))) w L F I) as (L' & F' & I' & HD & HL').
  { intros k Hk%elem_of_seq. lia. }
  unfold wrun in *. destruct (wfor _ _ w) as [u w1]. cbn [snd] in *.
  assert (L' = []) as ->.
  { destruct L' as [|i L']; [done|]. destruct (HL' i) as [Hi Hni]; [left|]. destruct Hni. apply elem_of_seq.
    pose proof (repr_bound (inv_repr _ _ _ _ I) i). set_solver by lia. }
  exists F'. split; [split; [by apply (inv_recount (cache w1))|done]|].
  eapply rtc_r; [exact HD|]. left. split; [|done|done]. intros b.
  by apply (peek_recount (cache w1) [] F' [] _ _ _ _ _ _ (inv_repr _ _ _ _ I')).
Qed.

(** ** Writing *)

Lemma ok_upd w w' L F i f :
  ok w L F → i ∈ L → (∀ e, pc_hash_next (f e) = pc_hash_next e) → (∀ e, pc_lru_next (f e) = pc_lru_next e) →
  (∀ e, pc_lru_prev (f e) = pc_lru_prev e) → (∀ e, pc_block (f e) = pc_block e) →
  full (pc_data (f (ent (cache w) i))) → cache w' = upd_ent i f (cache w) →
  ok w' L F ∧ used_blocks (cache w') L = used_blocks (cache w) L ∧
  ∀ b, peek b (cache w') = if decide (b = pc_block (ent (cache w) i)) then Some (core (f (ent (cache w) i)))
                           else peek b (cache w).
Proof.
  intros [I Hc] Hi Hh Hn Hp Hb Hf Hw. rewrite Hw. split_and!.
  - split; rewrite Hw; [by apply inv_upd|done].
  - apply list_fmap_ext. intros ? j _. by apply ent_upd_field.
  - intros b. by apply (peek_upd b (inv_repr _ _ _ _ I)).
Qed.

Lemma mark_dirty_ok b w L F :
  ok w L F →
  let w' := wrun (page_cache_mark_dirty b) w in
  ok w' L F ∧ used_blocks (cache w') L = used_blocks (cache w) L ∧ disk w' = disk w ∧
  pc_writeback (cache w') = pc_writeback (cache w) ∧
  wres (page_cache_mark_dirty b) w = (if peek b (cache w) is Some _ then 0 else -1) ∧
  ∀ b', peek b' (cache w') = if decide (b' = b) then set_dirty true <$> peek b (cache w) else peek b' (cache w).
Proof.
  intros O w'. pose proof (inv_repr _ _ _ _ (proj1 O)) as R. pose proof (find_cases R b) as Hf.
  unfold w', page_cache_mark_dirty. wsimp. destruct (find b (cache w)) as [i|] eqn:Hfi.
  - destruct Hf as [Hi Hb]. wsimp. destruct (inv_use _ _ _ _ (proj1 O) i Hi) as [_ Hd].
    destruct (ok_upd w (World (upd_ent i (set_dirty true) (cache w)) (disk w) (calls w)) L F i (set_dirty true))
      as (O' & Hbl & Hp); try done.
    split_and!; [done|done|done|done|unfold peek; by rewrite Hfi|].
    intros b'. cbn [cache] in Hp. rewrite Hp, Hb. unfold peek at 2. rewrite Hfi. done.
  - wsimp. assert (Hn : peek b (cache w) = None) by (unfold peek; by rewrite Hfi).
    split_and!; [done|done|done|done|by rewrite Hn|]. intros b'. rewrite Hn. by case_decide; [subst; rewrite Hn|].
Qed.

(** A block whose new data the cache has, to be written. *)
Record written (b : Z) (d : list Z) (w w' : world) : Prop := {
  written_peek : ∃ e, pc_data e = Some d ∧ pc_dirty e = true ∧
    pc_busy e = (if peek b (cache w) is Some e0 then pc_busy e0 else false) ∧
    ∀ b', peek b' (cache w') = if decide (b' = b) then Some e else peek b' (cache w);
  written_disk : ∀ b', disk w' b' = disk w b';
  written_wb : pc_writeback (cache w') = pc_writeback (cache w) }.

(** The four ways in which an update ends. *)
Inductive updated (b : Z) (d : list Z) (w : world) (L F : list nat) (w' : world) (L' : list nat) : Prop :=
| upd_hit : is_Some (peek b (cache w)) → written b d w w' →
    used_blocks (cache w') L' = front b (used_blocks (cache w) L) → updated b d w L F w' L'
| upd_full : peek b (cache w) = None → F = [] → (∀ i, i ∈ L → pc_busy (ent (cache w) i) = true) →
    unchanged w w' → updated b d w L F w' L'
| upd_failed n w1 L1 : peek b (cache w) = None → made_room w L F w1 L1 → pc_dma_pool (cache w) = false →
    vm_result n ≠ KERN_SUCCESS → unchanged w1 w' → updated b d w L F w' L'
| upd_done w1 L1 : peek b (cache w) = None → made_room w L F w1 L1 → written b d w1 w' →
    used_blocks (cache w') L' = b :: used_blocks (cache w) L1 → updated b d w L F w' L'.

Lemma update_hit_ok b d i w L F :
  ok w L F → length d = fs_block → i ∈ L → pc_block (ent (cache w) i) = b → ∃ L',
  let w' := World (touch i (upd_ent i (set_dirty true)
      (upd_ent i (λ e, set_data (copy_into d <$> pc_data e) e) (cache w)))) (disk w) (calls w) in
  ok w' L' F ∧ written b d w w' ∧ used_blocks (cache w') L' = front b (used_blocks (cache w) L).
Proof.
  intros O Hl Hi Hb. destruct (inv_use _ _ _ _ (proj1 O) i Hi) as [_ (v & Hv & Hlv)].
  set (fd := λ e, set_data (copy_into d <$> pc_data e) e).
  assert (Hfd : pc_data (fd (ent (cache w) i)) = Some d).
  { unfold fd. cbn. rewrite Hv. cbn. by rewrite copy_into_full by congruence. }
  set (w1 := World (upd_ent i fd (cache w)) (disk w) (calls w)).
  destruct (ok_upd w w1 L F i fd) as (O1 & Hb1 & Hp1); try done; [rewrite Hfd; by exists d|].
  assert (Hlt : (i < length (pc_pool (cache w)))%nat).
  { apply (repr_bound (inv_repr _ _ _ _ (proj1 O))). set_solver. }
  assert (He1 : ent (cache w1) i = fd (ent (cache w) i)) by by apply ent_upd_same.
  set (w2 := World (upd_ent i (set_dirty true) (cache w1)) (disk w) (calls w)).
  destruct (ok_upd w1 w2 L F i (set_dirty true)) as (O2 & Hb2 & Hp2); try done.
  { cbn [set_dirty pc_data]. rewrite He1, Hfd. by exists d. }
  apply pick in Hi as (A & B & ->). exists (i :: A ++ B).
  destruct (ok_touch w2 (World (touch i (cache w2)) (disk w) (calls w)) A i B F _ _ _ _ _ O2
      (recount_id _) eq_refl eq_refl) as (O3 & [Q1 Q2 Q3] & Hb3).
  assert (Hbi : pc_block (ent (cache w2) i) = b).
  { unfold w2. cbn [cache]. rewrite (ent_upd_field pc_block) by done. by rewrite He1. }
  split_and!; [done| |rewrite <- Hbi, <- Hb1, <- Hb2; exact Hb3]. split; [|done|done].
  exists (core (set_dirty true (ent (cache w1) i))). split_and!; [|done| |].
  - change (pc_data (ent (cache w1) i) = Some d). by rewrite He1.
  - rewrite <- Hb, (peek_in (inv_repr _ _ _ _ (proj1 O))) by (apply elem_of_app; right; left).
    change (pc_busy (ent (cache w1) i) = pc_busy (ent (cache w) i)). by rewrite He1.
  - intros b'. etrans; [apply Q1|]. assert (pc_block (ent (cache w1) i) = b) as Hpb by by rewrite He1.
    rewrite Hp2, Hpb. case_decide; [done|]. rewrite Hp1, Hb. by rewrite decide_False.
Qed.

Lemma update_ok b d w L F :
  ok w L F → key b → length d = fs_block → ∃ L' F',
    ok (wrun (page_cache_update b d) w) L' F' ∧ updated b d w L F (wrun (page_cache_update b d) w) L'.
Proof.
  intros O Hk Hl. pose proof (inv_repr _ _ _ _ (proj1 O)) as R. pose proof (find_cases R b) as Hf.
  unfold page_cache_update. rewrite decide_False by (destruct Hk; lia). wsimp.
  destruct (find b (cache w)) as [i|] eqn:Hfi.
  - destruct Hf as [Hi Hb]. destruct (inv_use _ _ _ _ (proj1 O) i Hi) as [_ (v & Hv & Hlv)].
    rewrite decide_True by (right; unfold pc_size; rewrite Hv; cbn; congruence). wsimp.
    destruct (update_hit_ok b d i w L F O Hl Hi Hb) as (L' & O' & Hw & Hbl). exists L', F.
    split; [exact O'|]. apply upd_hit; [unfold peek; by rewrite Hfi|exact Hw|exact Hbl].
  - wsimp. destruct (insert_ok b d w L F O Hk Hl) as (L' & F' & O1 & Hins). unfold wrun in *.
    destruct (page_cache_insert b d w) as [u w1]. cbn [snd] in *.
    destruct (mark_dirty_ok b w1 L' F' O1) as (O2 & Hb2 & Hdk & Hwb & _ & Hp). unfold wrun in *.
    destruct (page_cache_mark_dirty b w1) as [z w2]. cbn [snd] in *.
    exists L', F'. split; [done|]. assert (Hn : peek b (cache w) = None) by (unfold peek; by rewrite Hfi).
    assert (Hquiet : peek b (cache w1) = None → unchanged w1 w2).
    { intros H1. split; [|by rewrite Hdk|done]. intros b'. rewrite Hp, H1. by case_decide; [subst; rewrite H1|]. }
    destruct Hins as [[e He] _ _|_ HF Hbusy -> ->|n wa La _ Hr Hdma Hz Q Hb|wa La _ Hr En Hb].
    + congruence.
    + by apply upd_full; auto.
    + eapply upd_failed; [done|done|done|done|]. specialize (Hquiet ltac:(rewrite (quiet_peek _ _ Q); by eapply room_peek)).
      by eapply quiet_trans.
    + pose proof (room_peek b Hr Hn) as Hna. destruct En as [(e & Hed & _ & Hbz & He) Hd Hw].
      eapply upd_done; [done|done| |by rewrite Hb2].
      split; [|intros b'; by rewrite Hdk|congruence]. exists (set_dirty true e). rewrite Hna. split_and!; [done|done|done|].
      intros b'. rewrite Hp. case_decide as Hd'; rewrite He; [by rewrite decide_True|by rewrite decide_False].
Qed.

(** ** Entries for direct transfers *)

Lemma alloc_ok b w L F :
  ok w L F → key b → pc_dma_pool (cache w) = true →
  let w' := wrun (page_cache_alloc_entry b) w in
  ∃ L' F', ok w' L' F' ∧
    match wres (page_cache_alloc_entry b) w with
    | None => F = [] ∧ (∀ i, i ∈ L → pc_busy (ent (cache w) i) = true) ∧ unchanged w w'
    | Some i => find b (cache w') = Some i ∧ ∃ d, inserted b d w L F w' L'
    end.
Proof.
  intros O Hk Hdma w'. pose proof (inv_repr _ _ _ _ (proj1 O)) as R. pose proof (find_cases R b) as Hf.
  unfold w', page_cache_alloc_entry. wsimp. rewrite Hdma. cbn [negb].
  rewrite decide_False by (destruct Hk; lia). destruct (find b (cache w)) as [i|] eqn:Hfi.
  - destruct Hf as [(A & B & ->)%pick <-]. exists (i :: A ++ B), F. wsimp.
    destruct (ok_touch w (World (count_hit (touch i (cache w))) (disk w) (calls w)) A i B F _ _ _ _ _ O eq_refl eq_refl eq_refl)
      as (O' & Q & Hb). split_and!; [exact O'| |exists []; apply ins_hit; [unfold peek; by rewrite Hfi|exact Q|exact Hb]].
    pose proof (find_some (inv_repr _ _ _ _ (proj1 O')) i ltac:(left)) as Hfi'.
    assert (pc_block (ent (count_hit (touch i (cache w))) i) = pc_block (ent (cache w) i)) as Hbk
      by exact (core_field pc_block _ _ i (λ _, eq_refl) (bare_same _ _ (touch_bare i (cache w)))).
    cbn [cache] in Hfi'. rewrite Hbk in Hfi'. exact Hfi'.
  - assert (Hp : peek b (cache w) = None) by (unfold peek; by rewrite Hfi). wsimp.
    set (w0 := World (count_miss (cache w)) (disk w) (calls w)).
    destruct (ok_recount w w0 L F _ _ _ _ _ O eq_refl eq_refl eq_refl) as (O0 & Q & Hb0).
    pose proof (take_ok w0 L F O0) as Ht. destruct (take_entry w0) as [[i|] w1]; cbn [fst snd].
    2: { destruct Ht as (-> & -> & Hbusy). exists L, []. wsimp. done. }
    destruct Ht as (L1 & F1 & I1 & Hsp & Hc1 & Hd & Hblk & Hroom).
    assert (Hr : made_room w L F w1 L1).
    { destruct Hroom as [(-> & -> & P)|(A & B & -> & -> & -> & -> & ? & ? & D)].
      - apply room_free; [done|done|by eapply quiet_trans].
      - eapply room_evicted; [done..|by eapply dropped_quiet]. }
    pose proof (room_peek b Hr Hp) as Hp1.
    unfold spare in Hsp. rewrite Hd in Hsp. cbn [w0 cache count_miss pc_dma_pool] in Hsp. rewrite Hdma in Hsp.
    destruct (enter_ok i b w1 L1 F1 I1 Hc1 Hk Hsp Hp1) as (O' & Hdk & Hwb & Hpk & Hbl). wsimp. unfold wrun in *.
    destruct (enter i b w1) as [u w2]. cbn [snd] in *. exists (i :: L1), F1. split_and!; [done| |].
    + pose proof (find_some (inv_repr _ _ _ _ (proj1 O')) i ltac:(left)) as Hfi'.
      cbn in Hbl. injection Hbl as Hbi _. by rewrite Hbi in Hfi'.
    + destruct Hsp as (v & Hv & _). exists v. eapply ins_done; [done|exact Hr| |].
      * split; [|by rewrite Hdk|done]. eexists. split_and!; [| | |exact Hpk]; done.
      * rewrite Hbl. f_equal. by apply room_blocks.
Qed.
End worlds.
