(* ===== verification/PageCacheSync.v ===== *)
(** * The page cache: synchronisation

    [page_cache_sync] writes the dirty blocks in batches: it collects them from the
    end of the list of use, sorts them, merges runs of consecutive blocks into one
    write, and goes on until only blocks are left whose write has failed.  Whatever
    the device and the allocator answer, it ends; what it returns is the number of
    blocks that are still dirty; what can be read does not change; and each block that
    is clean afterwards is on the disk. *)

From stdpp Require Import sorting.
From S2P Require Import Prelude Mach PageCache PageCacheLists PageCacheInv PageCacheOps.

(** ** Lists *)

Lemma elem_rev {A} (x : A) l : x ∈ rev l ↔ x ∈ l.
Proof. by rewrite <- Permutation_rev. Qed.
Lemma filter_cong {A} (P Q : A → Prop) `{∀ x, Decision (P x), ∀ x, Decision (Q x)} (l : list A) :
  (∀ x, x ∈ l → P x ↔ Q x) → filter P l = filter Q l.
Proof.
  induction l as [|x l IH]; intros HPQ; [done|]. rewrite !filter_cons, IH by set_solver.
  destruct (decide (P x)), (decide (Q x)); try done; exfalso; destruct (HPQ x); (left || auto).
Qed.

(** ** Sorting *)

Definition ascending (l : list sync_entry) : Prop := StronglySorted (λ x y, sb_block x <= sb_block y) l.
Definition descending (l : list sync_entry) : Prop := StronglySorted (λ x y, sb_block y <= sb_block x) l.

Lemma sort_insert_perm x l : sort_insert x l ≡ₚ x :: l.
Proof.
  induction l as [|y l IH]; [done|]. cbn. case_decide; [|done]. rewrite IH. apply Permutation_swap.
Qed.
Lemma sort_insert_desc x l : descending l → descending (sort_insert x l).
Proof.
  induction l as [|y l IH]; intros Hl; cbn; [repeat constructor|].
  apply StronglySorted_inv in Hl as [Hl Hy]. case_decide as Hd.
  - constructor; [by apply IH|]. apply list.Forall_forall. intros z Hz. rewrite sort_insert_perm in Hz.
    apply elem_of_cons in Hz as [->|Hz]; [lia|]. by eapply list.Forall_forall in Hy.
  - constructor; [by constructor|]. constructor; [lia|]. eapply list.Forall_impl; [exact Hy|]. cbn. lia.
Qed.

Lemma asc_snoc l x : ascending l → (∀ y, y ∈ l → sb_block y <= sb_block x) → ascending (l ++ [x]).
Proof.
  induction l as [|y l IH]; intros Hl Hx; [repeat constructor|].
  apply StronglySorted_inv in Hl as [Hl Hy]. cbn. constructor; [apply IH; set_solver|].
  apply Forall_app. split; [done|]. constructor; [apply Hx; left|constructor].
Qed.
Lemma rev_asc l : descending l → ascending (rev l).
Proof.
  induction l as [|x l IH]; intros Hl; [constructor|]. apply StronglySorted_inv in Hl as [Hl Hx]. cbn.
  apply asc_snoc; [by apply IH|]. intros y Hy. rewrite elem_rev in Hy.
  by eapply list.Forall_forall in Hx.
Qed.

Lemma batch_sort_spec l : batch_sort l ≡ₚ l ∧ ascending (batch_sort l).
Proof.
  unfold batch_sort. assert (H : ∀ acc, descending acc →
    foldl (λ acc x, sort_insert x acc) acc l ≡ₚ l ++ acc ∧ descending (foldl (λ acc x, sort_insert x acc) acc l)).
  { induction l as [|x l IH]; intros acc Ha; cbn; [done|].
    destruct (IH (sort_insert x acc) (sort_insert_desc _ _ Ha)) as [HP HD]. split; [|done].
    rewrite HP, sort_insert_perm. symmetry. apply Permutation_middle. }
  destruct (H [] ltac:(constructor)) as [HP HD]. rewrite app_nil_r in HP.
  split; [by rewrite <- Permutation_rev|by apply rev_asc].
Qed.

(** Different blocks in order: the [j]-th is at least [j] after the first. *)
Lemma asc_gap x l j y :
  ascending (x :: l) → NoDup (sb_block <$> x :: l) → l !! j = Some y → sb_block x + 1 + Z.of_nat j <= sb_block y.
Proof.
  revert x j. induction l as [|z l IH]; intros x j Ha Hn Hj; [done|].
  apply StronglySorted_inv in Ha as [Ha Hx]. cbn in Hn. apply list.NoDup_cons in Hn as [Hxn Hn].
  assert (Hz : sb_block x < sb_block z).
  { apply Forall_inv in Hx. assert (sb_block x ≠ sb_block z) by set_solver. lia. }
  destruct j as [|j]; cbn in Hj; [injection Hj as <-; lia|].
  specialize (IH z j Ha Hn Hj). lia.
Qed.

(** How far a run goes. *)
Lemma run_extend_spec start size n rest : ∃ k,
  run_extend start size n rest = (n + k)%nat ∧ (k ≤ length rest)%nat ∧
  ∀ j x, (j < k)%nat → rest !! j = Some x → sb_block x = start +32 Z.of_nat (n + j).
Proof.
  revert n. induction rest as [|x rest IH]; intros n; cbn.
  - exists 0%nat. split_and!; [lia|lia|lia].
  - case_decide as Hd; [|exists 0%nat; split_and!; lia].
    destruct (IH (S n)) as (k & -> & Hk & Hj). exists (S k). split_and!; [lia|lia|].
    intros [|j] y Hlt Hy; cbn in Hy.
    + injection Hy as <-. rewrite Nat.add_0_r. apply Hd.
    + rewrite (Hj j y) by (done || lia). do 2 f_equal. lia.
Qed.

(** ** Collecting *)

Definition cand (s : page_cache) (i : nat) : Prop := pc_dirty (ent s i) = true ∧ pc_busy (ent s i) = false.
#[global] Instance cand_dec s i : Decision (cand s i).
Proof. unfold cand. apply _. Defined.
Definition sync_of (s : page_cache) (i : nat) : sync_entry :=
  SyncEntry (pc_block (ent s i)) i (pc_size (ent s i)) (pc_phys (ent s i)).
Definition pin (s : page_cache) (ids : list nat) : page_cache :=
  foldl (λ s i, upd_ent i (set_busy true) s) s ids.

Lemma collect_spec fuel z skip rm s L :
  dlinked (lru_next s) (lru_prev s) Head (Ent <$> L) z → NoDup L → (length L ≤ fuel)%nat →
  collect fuel (lru_prev s z) skip rm s =
    (sync_of s <$> take rm (drop skip (filter (cand s) (rev L))),
     pin s (take rm (drop skip (filter (cand s) (rev L))))).
Proof.
  revert fuel z skip rm s. induction L as [|a L IH] using rev_ind; intros fuel z skip rm s.
  - intros [_ ->] _ _. cbn. rewrite drop_nil, take_nil. by destruct fuel, rm.
  - rewrite fmap_app, length_app, rev_app_distr. cbn [fmap list_fmap length rev app].
    intros [Hd [_ Hz]]%dlinked_app Hn Hf. rewrite Hz. destruct fuel as [|fuel]; [lia|].
    apply list.NoDup_app in Hn as (Hn & Ha & _).
    destruct rm as [|rm]; [done|]. cbn [collect].
    destruct (decide (cand s a)) as [Hc|Hc].
    + rewrite filter_cons_True by done. destruct Hc as [-> ->]. cbn [andb negb].
      destruct skip as [|skip]; [|apply (IH fuel (Ent a) skip (S rm) s); [done|done|lia]]. cbn [drop take].
      set (s1 := upd_ent a (set_busy true) s).
      assert (Hx : ∀ i, i ∈ L → ent s1 i = ent s i).
      { intros i Hi. unfold s1. apply ent_upd_other. intros ->. apply (Ha a Hi). left. }
      assert (Hfil : filter (cand s1) (rev L) = filter (cand s) (rev L)).
      { apply filter_cong. intros i Hi. rewrite elem_rev in Hi. unfold cand. by rewrite Hx. }
      assert (Hprev : lru_prev s1 (Ent a) = pc_lru_prev (ent s a)) by (apply links_upd; done).
      assert (Hd1 : dlinked (lru_next s1) (lru_prev s1) Head (Ent <$> L) (Ent a)).
      { eapply dlinked_ext; [..|exact Hd]; intros n _; by apply links_upd. }
      specialize (IH fuel (Ent a) 0%nat rm s1 Hd1 Hn ltac:(lia)). rewrite Hprev, Hfil in IH. rewrite IH.
      cbn [fmap list_fmap]. f_equal. f_equal. apply list_fmap_ext. intros ? i Hi%list_elem_of_lookup_2.
      unfold sync_of. rewrite Hx; [done|]. apply elem_rev.
      assert (Hsub : i ∈ filter (cand s) (rev L)) by (eapply elem_of_take in Hi as (k & Hk & _); by eapply list_elem_of_lookup_2).
      by apply list_elem_of_filter in Hsub as [_ ?].
    + rewrite filter_cons_False by done.
      assert (Hbb : pc_dirty (ent s a) && negb (pc_busy (ent s a)) = false).
      { unfold cand in Hc. destruct (pc_dirty _), (pc_busy _); naive_solver. }
      rewrite Hbb. apply (IH fuel (Ent a)); [done|done|lia].
Qed.

Section sync.
Context {E : PcEnv} {G : Geometry E}.

(** A step that changes only the flags of some entries. *)
Lemma flag_upd s L F i f :
  pc_inv s L F [] → i ∈ L → (∀ e, ∃ d b, f e = set_dirty d (set_busy b e)) →
  pc_inv (upd_ent i f s) L F [] ∧ ∀ j, ent (upd_ent i f s) j = if decide (j = i) then f (ent s i) else ent s j.
Proof.
  intros I Hi Hf.
  assert (Hk : ∀ {B} (g : page_cache_entry → B), (∀ e d b, g (set_dirty d (set_busy b e)) = g e) → ∀ e, g (f e) = g e).
  { intros B g Hg e. destruct (Hf e) as (d & b & ->). apply Hg. }
  assert (Hlt : (i < length (pc_pool s))%nat) by (apply (repr_bound (inv_repr _ _ _ _ I)); set_solver).
  split.
  - apply inv_upd; [done|by apply Hk..| |done]. rewrite (Hk _ pc_data) by done. by apply I.
  - intros j. case_decide; [subst; by apply ent_upd_same|by apply ent_upd_other].
Qed.

Lemma pin_ok w L F ids :
  ok w L F → (∀ i, i ∈ ids → i ∈ L) →
  let w' := World (pin (cache w) ids) (disk w) (calls w) in
  ok w' L F ∧ pc_writeback (cache w') = pc_writeback (cache w) ∧
  ∀ i, ent (cache w') i = if decide (i ∈ ids) then set_busy true (ent (cache w) i) else ent (cache w) i.
Proof.
  destruct w as [s dk c]. cbn [cache disk calls]. revert s.
  induction ids as [|a ids IH]; intros s O Hin; cbn; [split_and!; [done|done|]; intros i; by rewrite decide_False by set_solver|].
  destruct O as [I Hc]. destruct (flag_upd s L F a (set_busy true) I) as [I1 He1]; [set_solver| |].
  { intros e. by exists (pc_dirty e), true. }
  destruct (IH (upd_ent a (set_busy true) s)) as (O' & Hw & He); [by split|set_solver|].
  split_and!; [done|done|]. intros i. rewrite He, He1.
  destruct (decide (i = a)) as [->|Hne].
  - rewrite (decide_True (P := a ∈ a :: ids)) by left. by case_decide.
  - destruct (decide (i ∈ ids)); [rewrite decide_True by (by right)|rewrite decide_False by set_solver]; done.
Qed.

(** ** Bookkeeping after a write *)

Definition fl (g : bool) (e : page_cache_entry) : page_cache_entry :=
  set_busy false (if g then set_dirty false e else e).
Lemma fl_block b e : pc_block (fl b e) = pc_block e.
Proof. by destruct b. Qed.
Lemma fl_data b e : pc_data (fl b e) = pc_data e.
Proof. by destruct b. Qed.

Lemma mark_done_ok s L F i g :
  pc_inv s L F [] → i ∈ L →
  let s' := mark_done g (pc_block (ent s i)) s in
  pc_inv s' L F [] ∧ pc_count s' = pc_count s ∧ pc_writeback s' = pc_writeback s ∧
  ∀ j, ent s' j = if decide (j = i) then fl g (ent s i) else ent s j.
Proof.
  intros I Hi s'. unfold s', mark_done. rewrite (find_some (inv_repr _ _ _ _ I) i Hi).
  destruct (flag_upd s L F i (set_busy false) I Hi) as [I1 He1].
  { intros e. by exists (pc_dirty e), false. }
  destruct g; [|done]. destruct (flag_upd _ L F i (set_dirty false) I1 Hi) as [I2 He2].
  { intros e. by exists false, (pc_busy e). }
  split_and!; [by apply (inv_recount (upd_ent i (set_dirty false) (upd_ent i (set_busy false) s)))|done|done|].
  intros j. trans (ent (upd_ent i (set_dirty false) (upd_ent i (set_busy false) s)) j); [done|].
  rewrite He2. case_decide; [|by rewrite He1, decide_False]. by rewrite He1, decide_True.
Qed.

Lemma mark_range_ok s L F run first off g :
  pc_inv s L F [] → (∀ j i, run !! j = Some i → i ∈ L ∧ pc_block (ent s i) = first +32 Z.of_nat (off + j)) →
  let s' := foldl (λ s j, mark_done g (first +32 Z.of_nat j) s) s (seq off (length run)) in
  pc_inv s' L F [] ∧ pc_count s' = pc_count s ∧ pc_writeback s' = pc_writeback s ∧
  ∀ i, ent s' i = if decide (i ∈ run) then fl g (ent s i) else ent s i.
Proof.
  revert s off. induction run as [|a run IH]; intros s off I Hrun; cbn.
  { split_and!; [done..|]. intros i. by rewrite decide_False by set_solver. }
  destruct (Hrun 0%nat a eq_refl) as [Ha Hb]. rewrite Nat.add_0_r in Hb. rewrite <- Hb.
  destruct (mark_done_ok s L F a g I Ha) as (I1 & Hc1 & Hw1 & He1). cbv zeta in He1.
  destruct (IH (mark_done g (pc_block (ent s a)) s) (S off) I1) as (I2 & Hc2 & Hw2 & He2).
  { intros j i Hj. destruct (Hrun (S j) i Hj) as [Hi Hbi]. split; [done|].
    rewrite Nat.add_succ_r in Hbi. rewrite He1. case_decide as Hd; [subst; rewrite fl_block|]; exact Hbi. }
  split_and!; [done|congruence|congruence|]. intros i. rewrite He2, He1.
  destruct (decide (i = a)) as [->|Hne].
  - rewrite (decide_True (P := a ∈ a :: run)) by left. case_decide; [by destruct g|done].
  - destruct (decide (i ∈ run)); [rewrite decide_True by (by right)|rewrite decide_False by set_solver]; done.
Qed.

(** ** What has been settled *)

(** The entries [ids] have been tried; those that are [good] are on the disk. *)
Record settle (L F ids : list nat) (good : nat → bool) (w w' : world) : Prop := {
  st_ok : ok w' L F;
  st_wb : pc_writeback (cache w') = pc_writeback (cache w);
  st_ent : ∀ i, ent (cache w') i = if decide (i ∈ ids) then fl (good i) (ent (cache w) i) else ent (cache w) i;
  st_else : ∀ b, (∀ i, i ∈ ids → pc_block (ent (cache w) i) ≠ b) → disk w' b = disk w b;
  st_disk : ∀ i, i ∈ ids → good i = true →
    disk w' (pc_block (ent (cache w) i)) = default [] (pc_data (ent (cache w) i));
  st_bad : ∀ i, i ∈ ids → good i = false → ∃ n, wb_result n ≠ 0 }.

Lemma settle_field {B} (g : page_cache_entry → B) L F ids good w w' i :
  (∀ b e, g (fl b e) = g e) → settle L F ids good w w' → g (ent (cache w') i) = g (ent (cache w) i).
Proof. intros Hg Hs. rewrite (st_ent _ _ _ _ _ _ Hs). case_decide; [apply Hg|done]. Qed.

Lemma settle_app L F ids1 ids2 g1 g2 w w1 w2 :
  ok w L F → (∀ i, i ∈ ids1 ++ ids2 → i ∈ L) → (∀ i, i ∈ ids1 → i ∉ ids2) →
  settle L F ids1 g1 w w1 → settle L F ids2 g2 w1 w2 →
  settle L F (ids1 ++ ids2) (λ i, if decide (i ∈ ids1) then g1 i else g2 i) w w2.
Proof.
  intros O HL Hdis H1 H2.
  assert (Hb : ∀ i, pc_block (ent (cache w1) i) = pc_block (ent (cache w) i)).
  { intros i. eapply (settle_field pc_block); [apply fl_block|exact H1]. }
  assert (Hd : ∀ i, pc_data (ent (cache w1) i) = pc_data (ent (cache w) i)).
  { intros i. eapply (settle_field pc_data); [apply fl_data|exact H1]. }
  pose proof (repr_keys _ _ _ _ (inv_repr _ _ _ _ (proj1 O))) as Hkeys. split.
  - apply H2.
  - by rewrite (st_wb _ _ _ _ _ _ H2), (st_wb _ _ _ _ _ _ H1).
  - intros i. rewrite (st_ent _ _ _ _ _ _ H2), (st_ent _ _ _ _ _ _ H1).
    destruct (decide (i ∈ ids1)) as [Hi1|Hi1].
    + rewrite (decide_False (P := i ∈ ids2)) by auto. by rewrite decide_True by set_solver.
    + destruct (decide (i ∈ ids2)); [rewrite decide_True by set_solver|rewrite decide_False by set_solver]; done.
  - intros b Hbb. rewrite (st_else _ _ _ _ _ _ H2), (st_else _ _ _ _ _ _ H1); [done|set_solver|].
    intros i Hi. rewrite Hb. set_solver.
  - intros i Hi. case_decide as Hd1; intros Hg.
    + rewrite (st_else _ _ _ _ _ _ H2); [by apply (st_disk _ _ _ _ _ _ H1)|].
      intros j Hj. rewrite Hb. intros He. apply (Hdis i Hd1). assert (j = i) as <-; [|done].
      apply Hkeys; [set_solver|set_solver|done].
    + rewrite <- Hb, <- Hd. apply (st_disk _ _ _ _ _ _ H2); [set_solver|done].
  - intros i Hi. case_decide as Hd1; intros Hg; [by eapply (st_bad _ _ _ _ _ _ H1)|].
    eapply (st_bad _ _ _ _ _ _ H2); [|done]. set_solver.
Qed.

(** ** Merged writes *)

Lemma concat_length (ds : list (list Z)) :
  (∀ d, d ∈ ds → length d = fs_block) → length (concat ds) = (length ds * fs_block)%nat.
Proof. induction ds as [|d ds IH]; intros Hd; cbn; [done|]. rewrite length_app, IH, Hd by set_solver. lia. Qed.
Lemma concat_slice (ds : list (list Z)) j d :
  (∀ d, d ∈ ds → length d = fs_block) → ds !! j = Some d → take fs_block (drop (j * fs_block) (concat ds)) = d.
Proof.
  revert j. induction ds as [|x ds IH]; intros j Hd Hj; [done|]. assert (Hx : length x = fs_block) by (apply Hd; left).
  destruct j as [|j]; cbn [lookup list_lookup] in Hj; cbn [concat].
  - injection Hj as <-. rewrite Nat.mul_0_l, drop_0. by apply take_app_length'.
  - rewrite drop_app_ge by lia. rewrite Hx.
    replace (S j * fs_block - fs_block)%nat with (j * fs_block)%nat by lia. apply IH; [set_solver|done].
Qed.

Lemma blocks_of_concat (ds : list (list Z)) :
  (∀ d, d ∈ ds → length d = fs_block) → blocks_of (length (concat ds)) = Z.of_nat (length ds).
Proof.
  intros Hd. pose proof geo_block. unfold blocks_of. rewrite (concat_length ds Hd).
  symmetry. apply (Z.div_unique _ _ _ (Z.of_nat fs_block - 1)); nia.
Qed.
Lemma write_blocks_concat start ds dk :
  (∀ d, d ∈ ds → length d = fs_block) →
  (∀ b, ¬ (start <= b < start + Z.of_nat (length ds)) → write_blocks start (concat ds) dk b = dk b) ∧
  (∀ j d, ds !! j = Some d → write_blocks start (concat ds) dk (start + Z.of_nat j) = d).
Proof.
  intros Hd. unfold write_blocks. rewrite (blocks_of_concat ds Hd). split.
  - intros b Hb. by rewrite decide_False.
  - intros j d Hj. rewrite decide_True by (apply lookup_lt_Some in Hj; lia).
    replace (Z.to_nat (start + Z.of_nat j - start)) with j by lia. by apply concat_slice.
Qed.

(** The elements of a batch. *)
Definition elt (s : page_cache) (L : list nat) (x : sync_entry) : Prop :=
  sb_entry x ∈ L ∧ sb_block x = pc_block (ent s (sb_entry x)) ∧ sb_size x = fs_block.

Lemma settle_elt L F ids good w w' x : settle L F ids good w w' → elt (cache w) L x → elt (cache w') L x.
Proof.
  intros Hs (Hi & Hb & Hz). split_and!; [done| |done].
  rewrite Hb. symmetry. eapply (settle_field pc_block); [apply fl_block|exact Hs].
Qed.

Lemma elt_buffer w L F x : ok w L F → elt (cache w) L x →
  take (sb_size x) (batch_buffer (cache w) x) = default [] (pc_data (ent (cache w) (sb_entry x))) ∧
  length (default [] (pc_data (ent (cache w) (sb_entry x)))) = fs_block.
Proof.
  intros [I _] (Hi & _ & Hz). destruct (inv_use _ _ _ _ I _ Hi) as [_ (v & Hv & Hl)].
  unfold batch_buffer. rewrite Hv, Hz. cbn. split; [|done]. apply take_ge. by rewrite Hl.
Qed.

(** One write of a run of blocks, and its bookkeeping. *)
Definition put_run (run : list sync_entry) (start : Z) (phys : Z) (w : world) : Z * world :=
  (ret ← ext2_writeback start (concat ((λ x, take fs_block (batch_buffer (cache w) x)) <$> run)) phys;
   mark_range_done start (length run) (bool_decide (ret = 0));;
   mret ret) w.

Section put_run.
Context (run : list sync_entry) (start : Z) (w : world) (L F : list nat).
Context (O : ok w L F) (Hne : run ≠ []) (Helt : ∀ x, x ∈ run → elt (cache w) L x).
Context (Hrun : ∀ j x, run !! j = Some x → sb_block x = start + Z.of_nat j).
Let ds := (λ x, default [] (pc_data (ent (cache w) (sb_entry x)))) <$> run.

Lemma run_data : (λ x, take fs_block (batch_buffer (cache w) x)) <$> run = ds.
Proof.
  apply list_fmap_ext. intros ? x Hx%list_elem_of_lookup_2. destruct (Helt x Hx) as (_ & _ & Hz).
  rewrite <- Hz. by apply (elt_buffer w L F x O), Helt.
Qed.
Lemma run_sizes d : d ∈ ds → length d = fs_block.
Proof. intros (x & -> & Hx)%list_elem_of_fmap. by apply (elt_buffer w L F x O), Helt. Qed.
Lemma run_key x : x ∈ run → key (sb_block x).
Proof. intros Hx. destruct (Helt x Hx) as (Hi & -> & _). by apply (inv_use _ _ _ _ (proj1 O)). Qed.
Lemma run_small j x : run !! j = Some x → sb_block x = start +32 Z.of_nat j.
Proof.
  intros Hj. rewrite <- (Hrun j x Hj). symmetry. apply u32_small.
  destruct (run_key x (list_elem_of_lookup_2 _ _ _ Hj)) as [? ?]. pose proof geo_block. unfold is_u32. nia.
Qed.
Lemma run_start : key start.
Proof.
  destruct (lookup_lt_is_Some_2 run 0) as [x Hx]; [destruct run; [done|cbn; lia]|].
  pose proof (run_key x (list_elem_of_lookup_2 _ _ _ Hx)) as Hk. by rewrite (Hrun _ _ Hx), Z.add_0_r in Hk.
Qed.
(** A block outside the run. *)
Lemma run_outside b :
  (∀ i, i ∈ sb_entry <$> run → pc_block (ent (cache w) i) ≠ b) → ¬ (start <= b < start + Z.of_nat (length ds)).
Proof.
  unfold ds. rewrite length_fmap. intros Hb Hin.
  destruct (lookup_lt_is_Some_2 run (Z.to_nat (b - start))) as [x Hx]; [lia|].
  pose proof (list_elem_of_lookup_2 _ _ _ Hx) as Hxr. destruct (Helt x Hxr) as (_ & Hbx & _).
  apply (Hb (sb_entry x)); [by apply list_elem_of_fmap_2|]. rewrite <- Hbx, (Hrun _ _ Hx). lia.
Qed.

Lemma put_bind (h : Z → Z) phys :
  (ret ← ext2_writeback start (concat ((λ x, take fs_block (batch_buffer (cache w) x)) <$> run)) phys;
   mark_range_done start (length run) (bool_decide (ret = 0));;
   mret (h ret)) w = (h (put_run run start phys w).1, (put_run run start phys w).2).
Proof. unfold put_run. by wsimp. Qed.

Lemma put_run_ok phys :
  settle L F (sb_entry <$> run) (λ _, bool_decide ((put_run run start phys w).1 = 0)) w (put_run run start phys w).2.
Proof.
  destruct (write_blocks_concat start ds (disk w) run_sizes) as [Hout Hin].
  unfold put_run. rewrite run_data. unfold mark_range_done. wsimp. unfold ext2_writeback.
  rewrite (landing_key _ run_start), (blocks_of_concat ds run_sizes). cbn [fst snd cache disk calls].
  set (g := bool_decide (wb_result (calls w) = 0)).
  destruct (mark_range_ok (cache w) L F (sb_entry <$> run) start 0 g (proj1 O)) as (I' & Hc' & Hw' & He').
  { intros j i Hj. apply list_lookup_fmap_Some in Hj as (x & -> & Hj).
    destruct (Helt x (list_elem_of_lookup_2 _ _ _ Hj)) as (Hi & Hb & _). split; [done|].
    rewrite <- Hb. by apply run_small. }
  rewrite length_fmap in I', Hc', Hw', He'. split; cbn [cache disk].
  - split; [done|]. unfold pc_counted. cbn [cache]. rewrite Hc'. apply O.
  - done.
  - done.
  - intros b Hb%run_outside. case_decide; [by apply Hout|by rewrite decide_False].
  - intros i (x & -> & Hx)%list_elem_of_fmap Hg%bool_decide_eq_true. rewrite decide_True by done.
    destruct (Helt x Hx) as (_ & <- & _). apply list_elem_of_lookup_1 in Hx as [j Hj].
    rewrite (Hrun j x Hj). apply Hin. unfold ds. by rewrite list_lookup_fmap, Hj.
  - intros i _ Hg%bool_decide_eq_false. by exists (calls w).
Qed.
End put_run.

(** The blocks whose write has failed. *)
Definition nbad (good : nat → bool) (ids : list nat) : nat := length (filter (λ i, good i = false) ids).
Lemma nbad_const g ids : nbad (λ _, g) ids = if g then 0%nat else length ids.
Proof.
  unfold nbad. induction ids as [|i ids IH]; [by destruct g|].
  destruct g; [by rewrite filter_cons_False|]. rewrite filter_cons_True by done. cbn [length]. by rewrite IH.
Qed.
Lemma nbad_app ids1 ids2 g1 g2 :
  (∀ i, i ∈ ids1 → i ∉ ids2) →
  nbad (λ i, if decide (i ∈ ids1) then g1 i else g2 i) (ids1 ++ ids2) = (nbad g1 ids1 + nbad g2 ids2)%nat.
Proof.
  intros Hd. unfold nbad. rewrite list.filter_app, length_app. do 2 f_equal.
  - apply filter_cong. intros i Hi. by rewrite decide_True.
  - apply filter_cong. intros i Hi. rewrite decide_False; [done|]. intros Hi1. by apply (Hd i).
Qed.

(** What the writing of a part of the batch does. *)
Definition tried (L F ids : list nat) (failures : Z) (m : W Z) (w : world) : Prop :=
  ∃ good, settle L F ids good w (wrun m w) ∧ wres m w = failures + Z.of_nat (nbad good ids).

Lemma settle_nil L F w : ok w L F → settle L F [] (λ _, true) w w.
Proof. intros O. split; [done|done| |done|set_solver|set_solver]. intros i. by rewrite decide_False by set_solver. Qed.

Lemma tried_ret L F failures w : ok w L F → tried L F [] failures (mret failures) w.
Proof. intros O. exists (λ _, true). split; [by apply settle_nil|]. cbn. lia. Qed.

Lemma tried_bind L F ids1 ids2 f m k w :
  ok w L F → (∀ i, i ∈ ids1 ++ ids2 → i ∈ L) → (∀ i, i ∈ ids1 → i ∉ ids2) → tried L F ids1 f m w →
  (∀ f' good, settle L F ids1 good w (wrun m w) → f' = wres m w → tried L F ids2 f' (k f') (wrun m w)) →
  tried L F (ids1 ++ ids2) f (m ≫= k) w.
Proof.
  intros O HL Hdis (g1 & H1 & Hr1) Hk. destruct (Hk _ g1 H1 eq_refl) as (g2 & H2 & Hr2).
  exists (λ i, if decide (i ∈ ids1) then g1 i else g2 i). unfold wrun, wres in *. rewrite bind_run. split.
  - by eapply settle_app.
  - rewrite Hr2, Hr1, nbad_app by done. lia.
Qed.

Lemma write_one_put x w :
  write_one alone x fs_block w = (if decide ((put_run [x] (sb_block x) (sb_phys x) w).1 = 0) then 0 else 1,
                            (put_run [x] (sb_block x) (sb_phys x) w).2).
Proof. unfold write_one, put_run. wsimp. cbn [fmap list_fmap concat]. by rewrite app_nil_r. Qed.

Lemma write_one_ok x f w L F :
  ok w L F → elt (cache w) L x → tried L F [sb_entry x] f (r ← write_one alone x fs_block; mret (f + r)) w.
Proof.
  intros O Hx.
  assert (Hs := put_run_ok [x] (sb_block x) w L F O ltac:(done) ltac:(set_solver)
                  ltac:(intros [|j] y Hy; [injection Hy as <-; lia|done]) (sb_phys x)).
  eexists. unfold wrun, wres. rewrite bind_run, write_one_put. cbn [fst snd]. split; [exact Hs|].
  rewrite ret_run, nbad_const. cbn. case_decide; [by rewrite bool_decide_true by done|by rewrite bool_decide_false by done].
Qed.

(** Elements of a batch with different entries. *)
Definition elts (s : page_cache) (L : list nat) (xs : list sync_entry) : Prop :=
  (∀ x, x ∈ xs → elt s L x) ∧ NoDup (sb_entry <$> xs).
Lemma elts_app s L xs ys :
  elts s L (xs ++ ys) → elts s L xs ∧ elts s L ys ∧ (∀ i, i ∈ sb_entry <$> xs → i ∉ sb_entry <$> ys) ∧
  ∀ i, i ∈ (sb_entry <$> xs) ++ (sb_entry <$> ys) → i ∈ L.
Proof.
  intros [He Hn]. rewrite fmap_app in Hn. apply list.NoDup_app in Hn as (H1 & H2 & H3). split_and!.
  - split; [set_solver|done].
  - split; [set_solver|done].
  - done.
  - intros i. rewrite <- fmap_app. intros (x & -> & Hx)%list_elem_of_fmap. by apply He.
Qed.
Lemma settle_elts L F ids good w w' xs : settle L F ids good w w' → elts (cache w) L xs → elts (cache w') L xs.
Proof. intros Hs [He Hn]. split; [|done]. intros x Hx. eapply settle_elt; [done|auto]. Qed.

Lemma write_each_ok xs f w L F :
  ok w L F → elts (cache w) L xs → tried L F (sb_entry <$> xs) f (write_each alone xs fs_block f) w.
Proof.
  revert f w. induction xs as [|x xs IH]; intros f w O He; [by apply tried_ret|].
  destruct (elts_app _ _ [x] xs He) as (Hx & Hxs & Hdis & HL).
  pose proof (write_one_ok x f w L F O (proj1 Hx x ltac:(left))) as H1.
  pose proof (tried_bind L F [sb_entry x] (sb_entry <$> xs) f _ (λ f', write_each alone xs fs_block f') w O HL Hdis H1) as Hb.
  destruct Hb as (good & Hs & Hr).
  - intros f' good Hs _. apply IH; [apply Hs|by eapply settle_elts].
  - exists good. unfold wrun, wres in *. rewrite !bind_run in Hs, Hr. cbn [write_each]. rewrite bind_run. done.
Qed.

Lemma write_run_ok run start f w L F :
  ok w L F → run ≠ [] → elts (cache w) L run → (∀ j x, run !! j = Some x → sb_block x = start + Z.of_nat j) →
  tried L F (sb_entry <$> run) f (write_run alone run start fs_block f) w.
Proof.
  intros O Hne He Hrun. unfold write_run. destruct run as [|x [|y run]]; [done| |].
  - apply write_one_ok; [done|]. apply He. left.
  - set (r := x :: y :: run) in *. unfold tried, wrun, wres. rewrite bind_run. unfold vm_allocate. cbn [fst snd].
    set (w1 := World (cache w) (disk w) (S (calls w))). destruct (decide _) as [Hz|Hz].
    + destruct (write_each_ok r f w1 L F O He) as (good & [S1 S2 S3 S4 S5 S6] & Hr). exists good. by split.
    + pose proof (put_run_ok r start w1 L F O ltac:(done) (proj1 He) Hrun 0) as [S1 S2 S3 S4 S5 S6].
      rewrite alone_bind, bind_run, get_run. cbn [fst snd]. cbv zeta. rewrite alone_bind.
      change (ext2_writeback start (concat _) 0 ≫= _) with
        (ret ← ext2_writeback start (concat ((λ x, take fs_block (batch_buffer (cache w1) x)) <$> r)) 0;
         mark_range_done start (length r) (bool_decide (ret = 0));;
         mret (if decide (ret = 0) then f else f + Z.of_nat (length r))).
      rewrite put_bind. cbn [fst snd]. exists (λ _, bool_decide ((put_run r start 0 w1).1 = 0)). split; [by split|].
      rewrite nbad_const, length_fmap.
      destruct (decide ((put_run r start 0 w1).1 = 0)); [rewrite bool_decide_true by done|rewrite bool_decide_false by done]; lia.
Qed.

(** Sorted batches. *)
Definition sorted_batch (s : page_cache) (L : list nat) (xs : list sync_entry) : Prop :=
  elts s L xs ∧ ascending xs ∧ NoDup (sb_block <$> xs).
Lemma asc_app_r xs ys : ascending (xs ++ ys) → ascending ys.
Proof. induction xs as [|x xs IH]; [done|]. cbn. intros [Ha _]%StronglySorted_inv. auto. Qed.

Lemma run_blocks s L F X x rest k :
  pc_inv s L F X → sorted_batch s L (x :: rest) →
  (∀ j y, (j < k)%nat → rest !! j = Some y → sb_block y = sb_block x +32 Z.of_nat (1 + j)) →
  ∀ j y, take (1 + k) (x :: rest) !! j = Some y → sb_block y = sb_block x + Z.of_nat j.
Proof.
  intros I ([He _] & Ha & Hn) Hk [|j] y Hj; [injection Hj as <-; lia|].
  apply lookup_take_Some in Hj as [Hj Hlt]. cbn in Hj. rewrite (Hk j y) by (done || lia).
  pose proof (asc_gap x rest j y Ha Hn Hj) as Hg.
  destruct (He y) as (Hi & Hb & _); [right; by eapply list_elem_of_lookup_2|].
  destruct (He x) as (Hix & Hbx & _); [left|].
  destruct (inv_use _ _ _ _ I _ Hi) as [[_ Hy] _], (inv_use _ _ _ _ I _ Hix) as [[Hx _] _].
  rewrite <- Hb in Hy. rewrite <- Hbx in Hx. pose proof geo_block. rewrite u32_small; [lia|]. unfold is_u32. nia.
Qed.

Lemma write_batch_ok fuel xs f w L F :
  ok w L F → sorted_batch (cache w) L xs → (length xs ≤ fuel)%nat →
  tried L F (sb_entry <$> xs) f (write_batch alone fuel xs f) w.
Proof.
  revert xs f w. induction fuel as [|fuel IH]; intros xs f w O HB Hf.
  { destruct xs; [by apply tried_ret|cbn in Hf; lia]. }
  destruct xs as [|x rest]; [by apply tried_ret|]. cbn [write_batch].
  destruct (proj1 (proj1 HB) x ltac:(left)) as (_ & _ & Hz).
  destruct (run_extend_spec (sb_block x) (sb_size x) 1 rest) as (k & -> & Hk & Hj).
  set (run := take (1 + k) (x :: rest)). set (rem := drop (1 + k) (x :: rest)).
  assert (Hxs : x :: rest = run ++ rem) by (symmetry; apply take_drop).
  pose proof HB as (He & Ha & Hn). rewrite Hxs in He, Ha, Hn.
  destruct (elts_app _ _ _ _ He) as (Hrun & Hrem & Hdis & HL).
  rewrite Hxs, fmap_app, Hz. apply tried_bind; [done|done|done| |].
  - apply write_run_ok; [done|done|done|]. eapply run_blocks; [apply O|done|done].
  - intros f' good Hs _. apply IH; [apply Hs| |].
    + split_and!; [by eapply settle_elts|by eapply asc_app_r|].
      rewrite fmap_app in Hn. by apply list.NoDup_app in Hn as (_ & _ & ?).
    + unfold rem. rewrite length_drop. cbn in *. lia.
Qed.

(** ** Rounds *)

Definition pc_idle (s : page_cache) (L : list nat) : Prop := ∀ i, i ∈ L → pc_busy (ent s i) = false.
(** The dirty entries, the least recently used first. *)
Definition dirties (s : page_cache) (L : list nat) : list nat := filter (λ i, pc_dirty (ent s i) = true) (rev L).

Lemma dirties_in s L i : i ∈ dirties s L ↔ pc_dirty (ent s i) = true ∧ i ∈ L.
Proof. unfold dirties. by rewrite list_elem_of_filter, elem_rev. Qed.
Lemma dirties_nodup s L : NoDup L → NoDup (dirties s L).
Proof. intros Hn. apply list.NoDup_filter. by rewrite <- Permutation_rev. Qed.

Lemma settle_perm L F ids ids' good w w' : ids ≡ₚ ids' → settle L F ids good w w' → settle L F ids' good w w'.
Proof.
  intros HP [S1 S2 S3 S4 S5 S6]. split; [done|done| | | |].
  - intros i. rewrite S3. destruct (decide (i ∈ ids)) as [Hi|Hi]; rewrite HP in Hi;
      [by rewrite decide_True|by rewrite decide_False].
  - intros b Hb. apply S4. intros i. rewrite HP. apply Hb.
  - intros i. rewrite <- HP. apply S5.
  - intros i. rewrite <- HP. apply S6.
Qed.

(** A round with something to collect. *)
Definition batch_ids (s : page_cache) (L : list nat) (f : nat) : list nat := take SYNC_BATCH (drop f (dirties s L)).

Lemma batch_ids_in s L f i : i ∈ batch_ids s L f → i ∈ dirties s L.
Proof.
  intros (k & Hk & _)%elem_of_take. rewrite lookup_drop in Hk. by eapply list_elem_of_lookup_2.
Qed.
Lemma batch_ids_nodup s L f : NoDup L → NoDup (batch_ids s L f).
Proof.
  intros Hn. eapply sublist_NoDup; [by apply (dirties_nodup s)|].
  unfold batch_ids. etrans; [apply sublist_take|apply sublist_drop].
Qed.

Lemma collect_batch_run f w L F :
  ok w L F → pc_idle (cache w) L →
  collect_batch f w = (sync_of (cache w) <$> batch_ids (cache w) L f,
                       World (pin (cache w) (batch_ids (cache w) L f)) (disk w) (calls w)).
Proof.
  intros [I Hc] Hi. pose proof (inv_repr _ _ _ _ I) as R. pose proof (repr_length R) as Hl.
  unfold collect_batch. rewrite (collect_spec _ Tail _ _ _ L); [|apply R|apply (lru_nodup _ _ (repr_lru _ _ _ _ R))|lia].
  assert (Hf : filter (cand (cache w)) (rev L) = dirties (cache w) L).
  { apply filter_cong. intros i Hin. rewrite elem_rev in Hin. unfold cand. rewrite (Hi i Hin). naive_solver. }
  by rewrite Hf.
Qed.

Lemma batch_sorted w w1 L F f :
  ok w L F → (∀ i, pc_block (ent (cache w1) i) = pc_block (ent (cache w) i)) →
  sorted_batch (cache w1) L (batch_sort (sync_of (cache w) <$> batch_ids (cache w) L f)).
Proof.
  intros [I Hc] Hb. pose proof (inv_repr _ _ _ _ I) as R. set (ids := batch_ids _ _ _).
  assert (HL : ∀ i, i ∈ ids → i ∈ L) by (intros i Hi%batch_ids_in; by apply dirties_in in Hi as [_ ?]).
  assert (Hnd : NoDup ids) by apply batch_ids_nodup, (lru_nodup _ _ (repr_lru _ _ _ _ R)).
  destruct (batch_sort_spec (sync_of (cache w) <$> ids)) as [HP Ha]. split_and!; [split| |].
  - intros x Hx. rewrite HP in Hx. apply list_elem_of_fmap in Hx as (i & -> & Hi). split_and!; cbn; [auto|by rewrite Hb|].
    destruct (inv_use _ _ _ _ I i (HL i Hi)) as [_ (v & Hv & Hl)]. unfold pc_size. by rewrite Hv.
  - rewrite HP, <- list_fmap_compose. apply NoDup_fmap_2; [|done]. by intros ? ? [= ->].
  - done.
  - rewrite HP, <- list_fmap_compose. apply NoDup_fmap_2_strong; [|done]. intros i j Hi Hj Hij.
    apply (repr_keys _ _ _ _ R); auto.
Qed.

Lemma sync_round_ok f w L F :
  ok w L F → pc_idle (cache w) L → pc_writeback (cache w) = true →
  match batch_ids (cache w) L f with
  | [] => sync_round alone (Z.of_nat f) w = (None, w)
  | ids => ∃ good, settle L F ids good w (wrun (sync_round alone (Z.of_nat f)) w) ∧
             wres (sync_round alone (Z.of_nat f)) w = Some (Z.of_nat (f + nbad good ids))
  end.
Proof.
  intros O Hi Hwb. unfold sync_round. wsimp. rewrite Nat2Z.id, (collect_batch_run f w L F O Hi).
  pose proof (batch_sorted w (World (pin (cache w) (batch_ids (cache w) L f)) (disk w) (calls w)) L F f O) as HB.
  destruct (pin_ok w L F (batch_ids (cache w) L f) O) as (O1 & Hw1 & He1).
  { intros i Hin%batch_ids_in. by apply dirties_in in Hin as [_ ?]. }
  set (ids := batch_ids (cache w) L f) in *. set (w1 := World (pin (cache w) ids) (disk w) (calls w)) in *.
  assert (Hblk : ∀ i, pc_block (ent (cache w1) i) = pc_block (ent (cache w) i)) by (intros i; rewrite He1; by case_decide).
  specialize (HB Hblk). cbn [fst snd].
  destruct (batch_sort_spec (sync_of (cache w) <$> ids)) as [HP _].
  set (batch := batch_sort _) in *.
  pose proof (write_batch_ok (length batch) batch (Z.of_nat f) w1 L F O1 HB ltac:(lia)) as (good & Hs & Hr).
  assert (Hids : sb_entry <$> batch ≡ₚ ids).
  { rewrite HP, <- list_fmap_compose. by rewrite (list_fmap_id (A := nat)). }
  destruct ids as [|a ids'] eqn:Hids0; [by destruct w|]. rewrite <- Hids0 in *.
  assert (Hne : sync_of (cache w) <$> ids ≠ []) by (subst ids; by rewrite Hids0).
  destruct (sync_of (cache w) <$> ids) as [|x xs] eqn:Hx; [done|]. wsimp. rewrite Hw1, Hwb. wsimp.
  exists good. unfold wrun, wres in *. destruct (write_batch alone _ _ _ w1) as [r w2]. cbn [fst snd] in *.
  apply (settle_perm _ _ _ _ _ _ _ Hids) in Hs. split.
  - destruct Hs as [S1 S2 S3 S4 S5 S6]. split; [done|congruence| | | |done].
    + intros i. rewrite S3, !He1. by case_decide; [destruct (good i)|].
    + intros b Hb. apply S4. intros i Hin. rewrite Hblk. auto.
    + intros i Hin Hg. rewrite <- Hblk, (S5 i Hin Hg), He1. by case_decide.
  - rewrite Hr. do 2 f_equal. unfold nbad. rewrite Hids. lia.
Qed.

(** ** The loop *)

Lemma filter_split {A} (P : A → Prop) `{∀ x, Decision (P x)} (l : list A) :
  (length (filter P l) + length (filter (λ x, ¬ P x) l) = length l)%nat.
Proof. rewrite <- length_app. apply Permutation_length, filter_app_complement. Qed.

(** A round takes the entries that it has written off the dirty ones. *)
Lemma settle_dirties L F ids good w w' :
  settle L F ids good w w' → NoDup L → NoDup ids → (∀ i, i ∈ ids → i ∈ dirties (cache w) L) →
  (length (dirties (cache w') L) + length ids = length (dirties (cache w) L) + nbad good ids)%nat.
Proof.
  intros Hs HL Hn Hin. set (D := dirties (cache w) L).
  assert (HD' : dirties (cache w') L = filter (λ i, ¬ (i ∈ ids ∧ good i = true)) D).
  { unfold D, dirties. rewrite list_filter_filter. apply filter_cong. intros i _. rewrite (st_ent _ _ _ _ _ _ Hs).
    destruct (decide (i ∈ ids)); [destruct (good i)|]; cbn; naive_solver. }
  assert (HP : filter (λ i, i ∈ ids ∧ good i = true) D ≡ₚ filter (λ i, ¬ good i = false) ids).
  { apply NoDup_Permutation; [by apply list.NoDup_filter, dirties_nodup|by apply list.NoDup_filter|].
    intros i. rewrite !list_elem_of_filter. destruct (good i); naive_solver. }
  pose proof (filter_split (λ i, i ∈ ids ∧ good i = true) D) as H1.
  pose proof (filter_split (λ i, good i = false) ids) as H2.
  rewrite HP in H1. rewrite HD'. unfold nbad. lia.
Qed.

(** What a round does: the entries it has tried are dirty ones. *)
Definition sync_pass (L F : list nat) (w w' : world) : Prop :=
  ∃ ids good, settle L F ids good w w' ∧ (∀ i, i ∈ ids → i ∈ dirties (cache w) L).

Lemma settle_reliable L F ids good w w' : (∀ n, wb_result n = 0) → settle L F ids good w w' → nbad good ids = 0%nat.
Proof.
  intros Hdev Hs. unfold nbad. destruct (filter _ ids) as [|i l] eqn:Hf; [done|].
  assert (Hi : i ∈ filter (λ i, good i = false) ids) by (rewrite Hf; left).
  apply list_elem_of_filter in Hi as [Hg Hi]. destruct (st_bad _ _ _ _ _ _ Hs i Hi Hg) as [n Hn]. by destruct Hn.
Qed.

Lemma sync_loop_ok fuel f w L F :
  ok w L F → pc_idle (cache w) L → pc_writeback (cache w) = true →
  (f ≤ length (dirties (cache w) L) < f + fuel)%nat →
  let w' := wrun (sync_loop alone fuel (Z.of_nat f)) w in
  wres (sync_loop alone fuel (Z.of_nat f)) w = Some (Z.of_nat (length (dirties (cache w') L))) ∧
  ok w' L F ∧ pc_idle (cache w') L ∧ rtc (sync_pass L F) w w' ∧
  ((∀ n, wb_result n = 0) → wres (sync_loop alone fuel (Z.of_nat f)) w = Some (Z.of_nat f)).
Proof.
  revert f w. induction fuel as [|fuel IH]; intros f w O Hi Hwb Hf; [lia|].
  pose proof (lru_nodup _ _ (repr_lru _ _ _ _ (inv_repr _ _ _ _ (proj1 O)))) as HnL.
  pose proof (sync_round_ok f w L F O Hi Hwb) as Hr. cbn [sync_loop]. wsimp.
  assert (Hlen : length (batch_ids (cache w) L f) = Nat.min SYNC_BATCH (length (dirties (cache w) L) - f)).
  { unfold batch_ids. by rewrite length_take, length_drop. }
  destruct (batch_ids (cache w) L f) as [|a ids] eqn:Hb.
  - rewrite Hr. wsimp. change (length []) with 0%nat in Hlen. replace (length (dirties (cache w) L)) with f; [by split_and!|].
    unfold SYNC_BATCH in Hlen. lia.
  - rewrite <- Hb in *. destruct Hr as (good & Hs & Hr). unfold wrun, wres in *.
    destruct (sync_round alone (Z.of_nat f) w) as [o w1]. cbn [fst snd] in *. subst o.
    assert (Hin : ∀ i, i ∈ batch_ids (cache w) L f → i ∈ dirties (cache w) L) by (intros i; apply batch_ids_in).
    pose proof (settle_dirties _ _ _ _ _ _ Hs HnL (batch_ids_nodup _ _ f HnL) Hin) as Hd.
    assert (Hnb : (nbad good (batch_ids (cache w) L f) ≤ length (batch_ids (cache w) L f))%nat) by apply length_filter.
    destruct (IH (f + nbad good (batch_ids (cache w) L f))%nat w1) as (H1 & H2 & H3 & H4 & H5).
    + apply Hs.
    + intros i HiL. rewrite (st_ent _ _ _ _ _ _ Hs). case_decide; [done|auto].
    + by rewrite (st_wb _ _ _ _ _ _ Hs).
    + assert (0 < length (batch_ids (cache w) L f))%nat by (rewrite Hb; cbn; lia). lia.
    + split_and!; [done|done|done| |].
      * eapply rtc_l; [|exact H4]. by eexists _, good.
      * intros Hdev. rewrite (H5 Hdev), (settle_reliable _ _ _ _ _ _ Hdev Hs). do 2 f_equal. lia.
Qed.

(** One more round than there are dirty blocks is enough, and so is one more than
    there are entries. *)
Lemma sync_ok fuel w L F :
  ok w L F → pc_idle (cache w) L → pc_writeback (cache w) = true → (length (pc_pool (cache w)) < fuel)%nat →
  let w' := wrun (page_cache_sync alone fuel) w in
  wres (page_cache_sync alone fuel) w = Some (Z.of_nat (length (dirties (cache w') L))) ∧
  ok w' L F ∧ pc_idle (cache w') L ∧ rtc (sync_pass L F) w w' ∧
  ((∀ n, wb_result n = 0) → wres (page_cache_sync alone fuel) w = Some 0).
Proof.
  intros O Hi Hwb Hf. apply (sync_loop_ok fuel 0 w L F O Hi Hwb).
  pose proof (repr_length (inv_repr _ _ _ _ (proj1 O))) as Hl.
  assert (length (dirties (cache w) L) ≤ length (rev L))%nat by apply length_filter.
  rewrite length_rev in *. lia.
Qed.
End sync.
