(* ===== verification/PageCacheSpec.v ===== *)
(** * The page cache: what it promises

    The theorems about the page cache.  Its structure stays well formed under every
    sequence of operations, whatever the device and the allocator answer; with a
    device that works the cache cannot be told from the disk it stands for; the
    synchronisation ends and tells the truth; and the block that leaves a full cache
    is the one that was used least recently. *)

From S2P Require Import Prelude Mach PageCache PageCacheLists PageCacheInv PageCacheOps PageCacheSync.

(** ** What no operation changes *)

(** The size of the cache, and how it is set up. *)
Definition fixed (s : page_cache) : nat * bool * bool := (length (pc_pool s), pc_dma_pool s, pc_writeback s).
Definition keeps {A} (m : W A) : Prop := ∀ w, fixed (cache (wrun m w)) = fixed (cache w).

Lemma const_upd i f s : fixed (upd_ent i f s) = fixed s.
Proof. unfold fixed. cbn. by rewrite length_alter. Qed.
Lemma const_set_next n v s : fixed (set_next n v s) = fixed s.
Proof. destruct n; [done..|apply const_upd]. Qed.
Lemma const_set_prev n v s : fixed (set_prev n v s) = fixed s.
Proof. destruct n; [done..|apply const_upd]. Qed.
Lemma const_lru_remove i s : fixed (lru_remove i s) = fixed s.
Proof. unfold lru_remove. by rewrite const_set_prev, const_set_next. Qed.
Lemma const_lru_insert i s : fixed (lru_insert_mru i s) = fixed s.
Proof. unfold lru_insert_mru. by rewrite const_set_next, !const_set_prev, const_set_next. Qed.
Lemma const_unlink fuel h p c i s : fixed (hash_unlink fuel h p c i s) = fixed s.
Proof.
  revert p c. induction fuel as [|fuel IH]; intros p [j|]; cbn; try done. case_decide; [|apply IH].
  rewrite const_upd. by destruct p; [rewrite const_upd|].
Qed.
Lemma const_hash_remove i s : fixed (hash_remove i s) = fixed s.
Proof. apply const_unlink. Qed.
Lemma const_free_data i s : fixed (entry_free_data i s) = fixed s.
Proof.
  unfold entry_free_data. destruct (pc_data _); [|done]. destruct (pc_dma_pool s); [done|]. apply const_upd.
Qed.
Lemma const_mark_done g b s : fixed (mark_done g b s) = fixed s.
Proof.
  unfold mark_done. destruct (find b s); [|done]. destruct g; [|apply const_upd].
  change (fixed (upd_ent n (set_dirty false) (upd_ent n (set_busy false) s)) = fixed s). by rewrite !const_upd.
Qed.
Lemma const_collect fuel n skip rm s : fixed (collect fuel n skip rm s).2 = fixed s.
Proof.
  revert n skip rm s. induction fuel as [|fuel IH]; intros n skip rm s; [done|]. cbn.
  destruct n; try done. destruct rm; [done|]. destruct (_ && _); [|apply IH]. destruct skip; [|apply IH].
  destruct (collect fuel _ 0 rm _) as [bt s'] eqn:Hc. cbn.
  trans (fixed (upd_ent i (set_busy true) s)); [|apply const_upd].
  rewrite <- (IH (pc_lru_prev (ent s i)) 0%nat rm (upd_ent i (set_busy true) s)). by rewrite Hc.
Qed.

Create HintDb keeps.
Lemma keeps_ret {A} (a : A) : keeps (mret a : W A).
Proof. by intros w. Qed.
Lemma keeps_get : keeps wget.
Proof. by intros w. Qed.
Lemma keeps_bind {A B} (m : W A) (f : A → W B) : keeps m → (∀ a, keeps (f a)) → keeps (m ≫= f).
Proof. intros Hm Hf w. unfold wrun. rewrite bind_run. etrans; [apply Hf|apply Hm]. Qed.
Lemma keeps_mod f : (∀ s, fixed (f s) = fixed s) → keeps (wmod f).
Proof. intros Hf w. apply Hf. Qed.
Lemma keeps_for {A} (f : A → W unit) xs : (∀ x, keeps (f x)) → keeps (wfor f xs).
Proof. intros Hf. induction xs; cbn; [apply keeps_ret|]. by apply keeps_bind. Qed.

(** Every operation, by its parts. *)
Ltac keep := repeat first
  [ done | progress intros | solve [auto with keeps nocore] | apply keeps_ret | apply keeps_get | apply keeps_bind | apply keeps_mod | apply keeps_for
  | rewrite const_upd | rewrite const_lru_remove | rewrite const_lru_insert | apply const_hash_remove
  | apply const_free_data
  | match goal with |- keeps (match ?x with _ => _ end) => destruct x end ].

Section keeps.
Context {E : PcEnv}.

Lemma keeps_vm n : keeps (vm_allocate n).
Proof. by intros w. Qed.
Lemma keeps_ext2_writeback b d p : keeps (ext2_writeback b d p).
Proof. by intros w. Qed.
Lemma keeps_read b : keeps (ext2_dev_read b).
Proof. by intros w. Qed.
Lemma keeps_read_phys b i : keeps (ext2_dev_read_phys b i).
Proof. intros w. unfold ext2_dev_read_phys, wrun. cbn. case_decide; [apply const_upd|done]. Qed.
#[local] Hint Resolve keeps_vm keeps_ext2_writeback keeps_read keeps_read_phys : keeps.

Lemma keeps_writeback i : keeps (entry_writeback i).
Proof. unfold entry_writeback. keep. by apply (const_upd i (set_dirty false)). Qed.
#[local] Hint Resolve keeps_writeback : keeps.
Lemma keeps_evict : keeps evict_lru.
Proof. unfold evict_lru. keep. Qed.
#[local] Hint Resolve keeps_evict : keeps.
Lemma keeps_take : keeps take_entry.
Proof. unfold take_entry. keep. Qed.
Lemma keeps_enter i b : keeps (enter i b).
Proof. unfold enter. keep. Qed.
Lemma keeps_give_back i : keeps (give_back i).
Proof. unfold give_back. keep. by apply (const_upd i). Qed.
#[local] Hint Resolve keeps_take keeps_enter keeps_give_back : keeps.
Lemma keeps_lookup b : keeps (page_cache_lookup b).
Proof. unfold page_cache_lookup. keep. Qed.
Lemma keeps_insert b d : keeps (page_cache_insert b d).
Proof. unfold page_cache_insert. keep. Qed.
Lemma keeps_drop i : keeps (drop_entry i).
Proof. unfold drop_entry. keep. Qed.
#[local] Hint Resolve keeps_lookup keeps_insert keeps_drop : keeps.
Lemma keeps_invalidate b : keeps (page_cache_invalidate b).
Proof. unfold page_cache_invalidate. keep. Qed.
Lemma keeps_flush : keeps page_cache_flush.
Proof. unfold page_cache_flush. keep. Qed.
Lemma keeps_mark_dirty b : keeps (page_cache_mark_dirty b).
Proof. unfold page_cache_mark_dirty. keep. Qed.
#[local] Hint Resolve keeps_mark_dirty : keeps.
Lemma keeps_update b d : keeps (page_cache_update b d).
Proof. unfold page_cache_update. keep. Qed.
Lemma keeps_alloc b : keeps (page_cache_alloc_entry b).
Proof. unfold page_cache_alloc_entry. keep. Qed.
#[local] Hint Resolve keeps_alloc : keeps.
Lemma keeps_read_block b : keeps (ext2_read_block b).
Proof. unfold ext2_read_block, fallback_read. keep. Qed.
Lemma keeps_collect skip : keeps (collect_batch skip).
Proof.
  intros w. unfold collect_batch, wrun.
  pose proof (const_collect (length (pc_pool (cache w))) (lru_prev (cache w) Tail) skip SYNC_BATCH (cache w)) as Hc.
  by destruct (collect _ _ _ _ _).
Qed.
Lemma keeps_mark_range b n g : keeps (mark_range_done b n g).
Proof.
  unfold mark_range_done. apply keeps_mod. intros s. revert s. generalize (seq 0 n).
  intros l. induction l as [|j l IH]; intros s; cbn; [done|]. by rewrite IH, const_mark_done.
Qed.
#[local] Hint Resolve keeps_collect keeps_mark_range : keeps.
Lemma keeps_write_one x n : keeps (write_one alone x n).
Proof. unfold write_one. keep. Qed.
#[local] Hint Resolve keeps_write_one : keeps.
Lemma keeps_write_each xs n f : keeps (write_each alone xs n f).
Proof. revert f. induction xs; intros f; cbn; keep. Qed.
#[local] Hint Resolve keeps_write_each : keeps.
Lemma keeps_write_run run st n f : keeps (write_run alone run st n f).
Proof. unfold write_run. keep. Qed.
#[local] Hint Resolve keeps_write_run : keeps.
Lemma keeps_write_batch fuel xs f : keeps (write_batch alone fuel xs f).
Proof. revert xs f. induction fuel; intros xs f; cbn; keep. Qed.
#[local] Hint Resolve keeps_write_batch : keeps.
Lemma keeps_round f : keeps (sync_round alone f).
Proof. unfold sync_round. keep. Qed.
#[local] Hint Resolve keeps_round : keeps.
Lemma keeps_sync fuel : keeps (page_cache_sync alone fuel).
Proof. unfold page_cache_sync. generalize 0. induction fuel; intros f; cbn; keep. Qed.
End keeps.

(** ** New caches *)

Definition below (n : nat) : option nat := match n with O => None | S j => Some j end.

Lemma chain_below hn n : (∀ i, (i < n)%nat → hn i = below i) → hchain hn (below n) (rev (seq 0 n)).
Proof.
  induction n as [|n IH]; intros Hn; [done|]. rewrite seq_S, rev_app_distr. cbn. split; [done|].
  rewrite Hn by lia. apply IH. intros i Hi. apply Hn. lia.
Qed.

Section create.
Context {E : PcEnv}.

(** A cache with every entry free. *)
Lemma empty_inv s n :
  length (pc_pool s) = n → Z.of_nat n < 4294967296 → (∀ i, (i < n)%nat → nextof s i = below i) →
  pc_free s = below n → pc_hash s = replicate (Z.to_nat PAGE_CACHE_HASH_BUCKETS) None →
  pc_lru_head s = (Tail, Null) → pc_lru_tail s = (Null, Head) →
  (∀ i, (i < n)%nat → spare s i ∧ (pc_dma_pool s = true → pc_block (ent s i) = NO_BLOCK)) →
  pc_inv s [] (rev (seq 0 n)) [].
Proof.
  intros Hl Hn Hnx Hf Hh Hhd Htl Hsp.
  assert (Hin : ∀ i, i ∈ rev (seq 0 n) → (i < n)%nat) by (intros i; rewrite elem_rev, elem_of_seq; lia).
  split; [split; [split|split|split|..]| | | |by rewrite Hl].
  - cbn. unfold lru_next, lru_prev. by rewrite Hhd, Htl.
  - constructor.
  - clear; set_solver.
  - by rewrite Hh, length_replicate.
  - intros h Hlt. exists []. split_and!; [|constructor|clear; set_solver]. cbn. unfold hash_head. rewrite Hh.
    by rewrite lookup_replicate_2.
  - rewrite Hf. by apply chain_below.
  - rewrite <- Permutation_rev. apply NoDup_seq.
  - cbn. rewrite app_nil_r, <- Permutation_rev. by rewrite Hl.
  - clear; set_solver.
  - clear; set_solver.
  - intros i Hi. by apply Hsp, Hin.
  - intros i Hi. by apply Hsp, Hin.
Qed.

Lemma create_inv n wb : Z.of_nat n < 4294967296 → pc_inv (page_cache_create n wb) [] (rev (seq 0 n)) [].
Proof.
  intros Hn. assert (He : ∀ i, (i < n)%nat →
    ent (page_cache_create n wb) i = Entry NO_BLOCK None 0 false false (below i) Null Null).
  { intros i Hi. unfold ent. cbn. by rewrite list_lookup_fmap, lookup_seq_lt by done. }
  apply empty_inv; try done.
  - cbn. by rewrite length_fmap, length_seq.
  - intros i Hi. unfold nextof. by rewrite He.
  - intros i Hi. unfold spare. cbn [pc_dma_pool page_cache_create]. by rewrite He.
Qed.

Lemma create_dma_inv n pa np wb s :
  Z.of_nat n < 4294967296 → page_cache_create_dma n fs_block pa np wb = Some s →
  pc_inv s [] (rev (seq 0 (length (pc_pool s)))) [] ∧ pc_writeback s = wb ∧ pc_count s = 0 ∧ pc_dma_pool s = true.
Proof.
  intros Hn. unfold page_cache_create_dma. case_decide; [done|]. set (m := if decide _ then _ else _).
  intros [= <-]. split_and!; [|done|done|done].
  assert (Hm : Z.of_nat m < 4294967296).
  { unfold m. case_decide as Hd; [|done]. pose proof (u32_range (Z.of_nat np * Z.of_nat (entries_per_page fs_block))) as Hr.
    unfold is_u32 in Hr. lia. }
  set (s := PageCache _ _ _ _ _ _ _ _ _ _ _ _).
  assert (Hlen : length (pc_pool s) = m) by (cbn; by rewrite length_imap, length_fmap, length_seq).
  rewrite Hlen. assert (He : ∀ i, (i < m)%nat → ∃ ph,
    ent s i = Entry NO_BLOCK (Some (replicate fs_block 0)) ph false false (below i) Null Null).
  { intros i Hi. unfold ent, s. cbn [pc_pool]. rewrite list_lookup_imap. cbn [pc_pool page_cache_create].
    rewrite list_lookup_fmap, lookup_seq_lt by done. by eexists. }
  apply empty_inv; try done.
  - intros i Hi. unfold nextof. by destruct (He i Hi) as [ph ->].
  - intros i Hi. unfold spare. cbn [pc_dma_pool s]. destruct (He i Hi) as [ph ->]. split; [|done].
    eexists. split; [done|]. apply length_replicate.
Qed.
End create.

(** ** Well-formed caches *)

Section type.
Context {E : PcEnv} {G : Geometry E}.

Definition well_formed (s : page_cache) : Prop := ∃ L F, pc_inv s L F [] ∧ pc_counted s L.

(** The steps in which threads use the cache: the operations, each of which holds the
    lock, and the parts of a synchronisation, which gives it up between them. *)
Inductive pc_step :=
| SLookup (b : Z) | SInsert (b : Z) (d : list Z) | SUpdate (b : Z) (d : list Z) | SMarkDirty (b : Z)
| SInvalidate (b : Z) | SFlush | SAlloc (b : Z)
| SCollect (skip : nat) | SWrite (b : Z) (d : list Z) (phys : Z) | SDone (first : Z) (count : nat) (g : bool).

Definition pc_exec (st : pc_step) : W unit :=
  match st with
  | SLookup b => page_cache_lookup b;; mret tt
  | SInsert b d => page_cache_insert b d
  | SUpdate b d => page_cache_update b d
  | SMarkDirty b => page_cache_mark_dirty b;; mret tt
  | SInvalidate b => page_cache_invalidate b
  | SFlush => page_cache_flush
  | SAlloc b => page_cache_alloc_entry b;; mret tt
  | SCollect skip => collect_batch skip;; mret tt
  | SWrite b d phys => ext2_writeback b d phys;; mret tt
  | SDone first count g => mark_range_done first count g
  end.

(** The file system gives blocks in range and whole blocks of data. *)
Definition proper (st : pc_step) : Prop :=
  match st with
  | SInsert b d | SUpdate b d => key b ∧ length d = fs_block
  | SAlloc b => key b
  | _ => True
  end.

Lemma wf_collect skip w L F : ok w L F → ok (wrun (collect_batch skip) w) L F.
Proof.
  intros O. pose proof (inv_repr _ _ _ _ (proj1 O)) as R. pose proof (repr_length R) as Hl.
  unfold collect_batch, wrun.
  rewrite (collect_spec _ Tail _ _ _ L); [|apply R|apply (lru_nodup _ _ (repr_lru _ _ _ _ R))|lia].
  apply pin_ok; [done|]. intros i (k & Hk & _)%elem_of_take. rewrite lookup_drop in Hk.
  apply list_elem_of_lookup_2, list_elem_of_filter in Hk as [_ Hk]. by rewrite elem_rev in Hk.
Qed.

Lemma wf_mark_done g b s L F : pc_inv s L F [] → pc_inv (mark_done g b s) L F [] ∧ pc_count (mark_done g b s) = pc_count s.
Proof.
  intros I. pose proof (find_cases (inv_repr _ _ _ _ I) b) as Hf. destruct (find b s) as [i|] eqn:Hfi.
  - destruct Hf as [Hi <-]. by destruct (mark_done_ok s L F i g I Hi) as (? & ? & _).
  - unfold mark_done. by rewrite Hfi.
Qed.
Lemma wf_mark_range first count g w L F : ok w L F → ok (wrun (mark_range_done first count g) w) L F.
Proof.
  intros [I Hc]. unfold mark_range_done, wrun, ok. rewrite mod_run. cbn [snd cache]. unfold pc_counted in *.
  generalize (seq 0 count). intros l. revert I Hc. generalize (cache w). clear w.
  induction l as [|j l IH]; intros s I Hc; [done|]. cbn.
  destruct (wf_mark_done g (first +32 Z.of_nat j) s L F I) as [I' Hc']. apply IH; [done|congruence].
Qed.

Lemma alloc_not_dma b w : pc_dma_pool (cache w) = false → page_cache_alloc_entry b w = (None, w).
Proof. intros Hd. unfold page_cache_alloc_entry. wsimp. by rewrite Hd. Qed.

Lemma exec_wf st w L F : ok w L F → proper st → ∃ L' F', ok (wrun (pc_exec st) w) L' F'.
Proof.
  intros O Hp. destruct st; cbn [pc_exec proper] in *; unfold wrun; rewrite ?bind_run; cbn [mret W_ret snd].
  - destruct (lookup_ok b w L F O) as (L' & O' & _). by exists L', F.
  - destruct Hp. destruct (insert_ok b d w L F O) as (L' & F' & O' & _); eauto.
  - destruct Hp. destruct (update_ok b d w L F O) as (L' & F' & O' & _); eauto.
  - exists L, F. by apply mark_dirty_ok.
  - destruct (invalidate_ok b w L F O) as (L' & F' & O' & _). eauto.
  - destruct (flush_ok w L F O) as (F' & O' & _). eauto.
  - destruct (pc_dma_pool (cache w)) eqn:Hd; [|rewrite alloc_not_dma; eauto].
    destruct (alloc_ok b w L F O Hp Hd) as (L' & F' & O' & _). eauto.
  - exists L, F. by apply wf_collect.
  - by exists L, F.
  - exists L, F. by apply wf_mark_range.
Qed.

Lemma steps_wf sts w : well_formed (cache w) → Forall proper sts → well_formed (cache (wrun (wfor pc_exec sts) w)).
Proof.
  intros Hw Hp. revert w Hw. induction Hp as [|st sts Hst _ IH]; intros w (L & F & O); [by exists L, F|].
  cbn. unfold wrun. rewrite bind_run. apply IH. by eapply exec_wf.
Qed.
End type.

(** ** The contents *)

Section contents.
Context {E : PcEnv} {G : Geometry E}.

(** What the file system reads from a block: the cached data, or else the disk. *)
Definition contents (w : world) (b : Z) : list Z :=
  match peek b (cache w) with Some e => default [] (pc_data e) | None => disk w b end.

(** Clean entries have what is on the disk; no write is using an entry. *)
Definition coherent (w : world) : Prop :=
  ∀ b e, peek b (cache w) = Some e → pc_dirty e = false → pc_data e = Some (disk w b).
Definition calm (w : world) : Prop := ∀ b e, peek b (cache w) = Some e → pc_busy e = false.

Lemma peek_full w L F b e : pc_inv (cache w) L F [] → peek b (cache w) = Some e → key b ∧ full (pc_data e).
Proof.
  intros I (i & Hi & <- & -> & _)%(peek_inv (inv_repr _ _ _ _ I)). by apply (inv_use _ _ _ _ I).
Qed.
Lemma calm_idle w L F : pc_inv (cache w) L F [] → calm w ↔ pc_idle (cache w) L.
Proof.
  intros I. split.
  - intros Hc i Hi. apply (Hc _ _ (peek_in (inv_repr _ _ _ _ I) i Hi)).
  - intros Hi b e (i & HiL & _ & -> & _)%(peek_inv (inv_repr _ _ _ _ I)). by apply Hi.
Qed.

Record agree (w w' : world) : Prop := {
  agree_contents : ∀ b, contents w' b = contents w b;
  agree_coherent : coherent w → coherent w';
  agree_calm : calm w → calm w' }.
#[global] Instance agree_refl : Reflexive agree.
Proof. by intros w. Qed.
#[global] Instance agree_trans : Transitive agree.
Proof. intros w1 w2 w3 [A1 A2 A3] [B1 B2 B3]. split; auto. intros b. by rewrite B1. Qed.

Lemma quiet_agree w w' : unchanged w w' → agree w w'.
Proof.
  intros [Q1 Q2 _]. split.
  - intros b. unfold contents. by rewrite Q1, Q2.
  - intros Hc b e. rewrite Q1, Q2. apply Hc.
  - intros Hc b e. rewrite Q1. apply Hc.
Qed.

(** The writes of the device succeed. *)
Definition device_ok : Prop := ∀ n, wb_result n = 0.

Lemma dropped_agree b w w' :
  device_ok → pc_writeback (cache w) = true → coherent w → is_Some (peek b (cache w)) → evicted b w w' → agree w w'.
Proof.
  intros Hdev Hwb Hc [e He] [D1 D2 D3 D4 _]. split.
  - intros b'. unfold contents. rewrite D1. case_decide as Hd; [subst|by rewrite D2].
    rewrite He. destruct (pc_dirty e) eqn:Hde; [by apply D4|]. rewrite (D3 e He Hde).
    by rewrite (Hc _ _ He Hde).
  - intros _ b' e' Hp Hde. rewrite D1 in Hp. case_decide; [done|]. rewrite D2 by done. by apply Hc.
  - intros Hcalm b' e' Hp. rewrite D1 in Hp. case_decide; [done|]. by eapply Hcalm.
Qed.

Lemma entered_agree b d w w' :
  peek b (cache w) = None → d = disk w b → entered b d w w' → agree w w'.
Proof.
  intros Hn -> [(e & He & Hde & Hbe & Hp) Hdk _]. split.
  - intros b'. unfold contents. rewrite Hp, Hdk. case_decide; [|done]. subst. by rewrite Hn, He.
  - intros Hc b' e'. rewrite Hp, Hdk. case_decide; [|apply Hc]. subst. by intros [= <-].
  - intros Hc b' e'. rewrite Hp. case_decide; [by intros [= <-]|apply Hc].
Qed.

(** What an update does. *)
Record changed (b : Z) (d : list Z) (w w' : world) : Prop := {
  changed_contents : ∀ b', contents w' b' = if decide (b' = b) then d else contents w b';
  changed_coherent : coherent w → coherent w';
  changed_calm : calm w → calm w' }.

Lemma written_changed b d w w' : written b d w w' → changed b d w w'.
Proof.
  intros [(e & He & Hde & Hbe & Hp) Hdk _]. split.
  - intros b'. unfold contents. rewrite Hp, Hdk. case_decide; [by rewrite He|done].
  - intros Hc b' e'. rewrite Hp, Hdk. case_decide; [intros [= <-]; congruence|apply Hc].
  - intros Hc b' e'. rewrite Hp. case_decide; [|apply Hc]. intros [= <-]. rewrite Hbe.
    destruct (peek b (cache w)) eqn:Hpk; [by eapply Hc|done].
Qed.
Lemma agree_changed b d w w1 w2 : agree w w1 → changed b d w1 w2 → changed b d w w2.
Proof.
  intros [A1 A2 A3] [C1 C2 C3]. split; auto. intros b'. rewrite C1. case_decide; [done|apply A1].
Qed.

Lemma room_agree w L F w1 L1 :
  device_ok → pc_writeback (cache w) = true → coherent w → pc_inv (cache w) L F [] → made_room w L F w1 L1 → agree w w1.
Proof.
  intros Hdev Hwb Hc I [_ _ Q|A i B _ -> _ _ _ D]; [by apply quiet_agree|].
  eapply dropped_agree; [done|done|done| |exact D]. rewrite (peek_in (inv_repr _ _ _ _ I)) by set_solver. done.
Qed.

(** ** The whole state *)

Record sound_cache (w : world) : Prop := {
  sc_wf : well_formed (cache w);
  sc_coherent : coherent w;
  sc_calm : calm w;
  sc_wb : pc_writeback (cache w) = true;
  sc_room : (0 < length (pc_pool (cache w)))%nat;
  sc_size : ∀ b, key b → length (contents w b) = fs_block }.

Lemma sound_has_room w L F :
  sound_cache w → pc_inv (cache w) L F [] → ¬ (F = [] ∧ ∀ i, i ∈ L → pc_busy (ent (cache w) i) = true).
Proof.
  intros S I [-> Hb]. pose proof (repr_length (inv_repr _ _ _ _ I)) as Hl. pose proof (sc_room _ S) as Hr.
  pose proof (proj1 (calm_idle _ _ _ I) (sc_calm _ S)) as Hi.
  destruct L as [|i L]; [cbn in Hl; lia|]. specialize (Hb i ltac:(left)). specialize (Hi i ltac:(left)). congruence.
Qed.

(** ** Synchronisation *)

Lemma settle_peek L F ids good w w' i :
  ok w L F → settle L F ids good w w' → i ∈ L →
  peek (pc_block (ent (cache w) i)) (cache w') = Some (core (ent (cache w') i)).
Proof.
  intros O Hs Hi. rewrite <- (settle_field pc_block _ _ _ _ _ _ i fl_block Hs).
  apply (peek_in (inv_repr _ _ _ _ (proj1 (st_ok _ _ _ _ _ _ Hs)))). done.
Qed.

Lemma round_agree L F w w' : ok w L F → sync_pass L F w w' → agree w w' ∧ ok w' L F.
Proof.
  intros O (ids & good & Hs & Hin). split; [|apply Hs]. destruct (O) as [I _]. pose proof (inv_repr _ _ _ _ I) as R.
  assert (HL : ∀ i, i ∈ ids → i ∈ L) by (intros i Hi%Hin; by apply dirties_in in Hi as [_ ?]).
  assert (Hb : ∀ i, pc_block (ent (cache w') i) = pc_block (ent (cache w) i)).
  { intros i. eapply (settle_field pc_block); [apply fl_block|exact Hs]. }
  assert (Hd : ∀ i, pc_data (ent (cache w') i) = pc_data (ent (cache w) i)).
  { intros i. eapply (settle_field pc_data); [apply fl_data|exact Hs]. }
  assert (Helse : ∀ i, i ∈ L → (i ∉ ids) → disk w' (pc_block (ent (cache w) i)) = disk w (pc_block (ent (cache w) i))).
  { intros i Hi Hni. apply (st_else _ _ _ _ _ _ Hs). intros j Hj He. apply Hni.
    assert (j = i) as <- by (apply (repr_keys _ _ _ _ R); auto). done. }
  pose proof (inv_repr _ _ _ _ (proj1 (st_ok _ _ _ _ _ _ Hs))) as R'. split.
  - intros b. unfold contents. pose proof (find_cases R b) as Hf. destruct (find b (cache w)) as [i|] eqn:Hfi.
    + destruct Hf as [Hi <-]. rewrite (settle_peek _ _ _ _ _ _ i O Hs Hi), (peek_in R i Hi). cbn. by rewrite Hd.
    + rewrite (peek_out R) by done. rewrite (peek_out R') by (intros i Hi; rewrite Hb; auto).
      apply (st_else _ _ _ _ _ _ Hs). auto.
  - intros Hc b e (i & Hi & <- & -> & _)%(peek_inv R') Hde. cbn in Hde |- *. rewrite Hd, Hb.
    destruct (decide (i ∈ ids)) as [Hid|Hid].
    + rewrite (st_ent _ _ _ _ _ _ Hs), decide_True in Hde by done. destruct (good i) eqn:Hg.
      * rewrite (st_disk _ _ _ _ _ _ Hs i Hid Hg). by destruct (inv_use _ _ _ _ I i Hi) as [_ (v & -> & _)].
      * apply Hin, dirties_in in Hid as [? _]. cbn in Hde. congruence.
    + rewrite (Helse i Hi Hid). rewrite (st_ent _ _ _ _ _ _ Hs), decide_False in Hde by done.
      by apply (Hc _ _ (peek_in R i Hi)).
  - intros Hc b e (i & Hi & <- & -> & _)%(peek_inv R'). cbn. rewrite (st_ent _ _ _ _ _ _ Hs).
    case_decide; [done|]. apply (Hc _ _ (peek_in R i Hi)).
Qed.

Lemma rounds_agree L F w w' : ok w L F → rtc (sync_pass L F) w w' → agree w w'.
Proof.
  intros O Hr. revert O. induction Hr as [w|w w1 w2 H1 _ IH]; intros O; [done|].
  destruct (round_agree _ _ _ _ O H1) as [A O1]. etrans; [exact A|auto].
Qed.

(** Rounds on a device that works leave nothing dirty. *)
Lemma rounds_keep_wb L F w w' : rtc (sync_pass L F) w w' → pc_writeback (cache w') = pc_writeback (cache w).
Proof. induction 1 as [|w w1 w2 (ids & good & Hs & _) _ IH]; [done|]. by rewrite IH, (st_wb _ _ _ _ _ _ Hs). Qed.

(** The dirty blocks of a cache. *)
Definition dirty_blocks (s : page_cache) : nat := length (filter (λ e, in_use e ∧ pc_dirty e = true) (pc_pool s)).

Lemma pool_ents s : pc_pool s = ent s <$> seq 0 (length (pc_pool s)).
Proof.
  apply list_eq. intros i. rewrite list_lookup_fmap. destruct (decide (i < length (pc_pool s))%nat) as [Hi|Hi].
  - rewrite lookup_seq_lt by done. cbn. unfold ent. by destruct (lookup_lt_is_Some_2 _ _ Hi) as [e ->].
  - rewrite !lookup_ge_None_2; [done|rewrite length_seq; lia|lia].
Qed.
Lemma filter_fmap_length {A B} (f : A → B) (P : B → Prop) `{∀ x, Decision (P x)} (l : list A) :
  length (filter P (f <$> l)) = length (filter (λ x, P (f x)) l).
Proof.
  induction l as [|x l IH]; [done|]. cbn [fmap list_fmap]. rewrite !filter_cons.
  destruct (decide (P (f x))); cbn; by rewrite IH.
Qed.
Lemma dirty_blocks_spec s L F : pc_inv s L F [] → dirty_blocks s = length (dirties s L).
Proof.
  intros I. unfold dirty_blocks. rewrite pool_ents, filter_fmap_length. apply Permutation_length.
  pose proof (lru_nodup _ _ (repr_lru _ _ _ _ (inv_repr _ _ _ _ I))) as Hn.
  apply NoDup_Permutation; [apply list.NoDup_filter, NoDup_seq|by apply dirties_nodup|].
  intros i. rewrite dirties_in, list_elem_of_filter, elem_of_seq. cbn. split.
  - intros [[Hu Hd] Hlt]. split; [done|]. apply (in_use_spec s L F i I); [lia|]. by apply Is_true_true.
  - intros [Hd Hi]. assert (Hlt : (i < length (pc_pool s))%nat) by (apply (repr_bound (inv_repr _ _ _ _ I)); set_solver).
    split; [|lia]. split; [|done]. apply Is_true_true. by apply (in_use_spec s L F i I).
Qed.

(** Nothing dirty: the disk has everything. *)
Lemma clean_contents w L F b :
  pc_inv (cache w) L F [] → coherent w → dirties (cache w) L = [] → contents w b = disk w b.
Proof.
  intros I Hc Hd. unfold contents. destruct (peek b (cache w)) as [e|] eqn:Hp; [|done].
  rewrite (Hc b e Hp); [done|]. apply (peek_inv (inv_repr _ _ _ _ I)) in Hp as (i & Hi & _ & -> & _). cbn.
  destruct (pc_dirty (ent (cache w) i)) eqn:Hde; [|done].
  assert (Hin : i ∈ dirties (cache w) L) by by apply dirties_in. rewrite Hd in Hin. set_solver.
Qed.

(** ** Reading a block *)

Definition reads_ok : Prop := ∀ n, rd_result n = KERN_SUCCESS.

(** The insertion of what is on the disk. *)
Lemma insert_agree b w L F w' L' :
  device_ok → pc_writeback (cache w) = true → coherent w → pc_inv (cache w) L F [] →
  inserted b (disk w b) w L F w' L' → agree w w'.
Proof.
  intros Hdev Hwb Hc I [_ Q _|_ _ _ -> _|n w1 L1 _ Hr _ _ Q _|w1 L1 Hn Hr En _].
  - by apply quiet_agree.
  - done.
  - etrans; [by eapply room_agree|by apply quiet_agree].
  - pose proof (room_agree _ _ _ _ _ Hdev Hwb Hc I Hr) as A. pose proof (room_peek b Hr Hn) as Hn1.
    etrans; [exact A|]. eapply entered_agree; [done| |exact En].
    pose proof (agree_contents _ _ A b) as Hb. unfold contents in Hb. by rewrite Hn, Hn1 in Hb.
Qed.

(** What a read gives, and the state after it. *)
Definition read_post (b : Z) (w : world) (r : option (list Z)) (w' : world) : Prop :=
  r = Some (contents w b) ∧ agree w w' ∧ well_formed (cache w').

Lemma read_post_agree b w w1 r w' : agree w w1 → read_post b w1 r w' → read_post b w r w'.
Proof. intros A (-> & A' & Hw). split_and!; [by rewrite (agree_contents _ _ A)|by etrans|done]. Qed.

Section read.
Context (Hdev : device_ok) (Hrd : reads_ok).

Lemma fallback_ok b w L F :
  ok w L F → coherent w → pc_writeback (cache w) = true → key b → peek b (cache w) = None →
  length (disk w b) = fs_block → read_post b w (wres (fallback_read b) w) (wrun (fallback_read b) w).
Proof.
  intros O Hc Hwb Hk Hn Hl. unfold fallback_read. wsimp. unfold ext2_dev_read at 1 3. cbn [fst snd].
  rewrite decide_True by apply Hrd. unfold ext2_dev_read. rewrite (landing_key _ Hk). wsimp.
  set (w1 := World (cache w) (disk w) (S (calls w))).
  destruct (insert_ok b (disk w b) w1 L F O Hk Hl) as (L' & F' & O' & Hi). unfold wrun in *.
  split_and!; [unfold contents; by rewrite Hn| |by exists L', F'].
  assert (A1 : agree w w1) by by apply quiet_agree.
  etrans; [exact A1|]. eapply (insert_agree b w1); [done|done|done|apply O|exact Hi].
Qed.

(** The transfer into a new entry. *)
Lemma fill_ok b i w L F :
  ok w L F → key b → find b (cache w) = Some i → length (disk w b) = fs_block →
  let w' := wrun (ext2_dev_read_phys b i) w in
  ok w' L F ∧ pc_data (ent (cache w') i) = Some (disk w b) ∧ disk w' = disk w ∧
  ∃ e, peek b (cache w) = Some e ∧
    ∀ b', peek b' (cache w') = if decide (b' = b) then Some (set_data (Some (disk w b)) e) else peek b' (cache w).
Proof.
  intros O Hk Hf Hl w'. pose proof (find_cases (inv_repr _ _ _ _ (proj1 O)) b) as Hfc. rewrite Hf in Hfc.
  destruct Hfc as [Hi Hb]. unfold w', ext2_dev_read_phys, wrun. cbn [fst snd cache disk].
  rewrite decide_True by apply Hrd. rewrite (landing_key _ Hk).
  destruct (ok_upd w (World (upd_ent i (set_data (Some (disk w b))) (cache w)) (disk w) (S (calls w))) L F i
             (set_data (Some (disk w b)))) as (O' & _ & Hp); try done; [by eexists|].
  split_and!; [done| |done|].
  - rewrite ent_upd_same; [done|]. apply (repr_bound (inv_repr _ _ _ _ (proj1 O))). set_solver.
  - exists (core (ent (cache w) i)). split; [unfold peek; by rewrite Hf|]. intros b'. cbn [cache] in Hp. by rewrite Hp, Hb.
Qed.

Lemma phys_read_ok b i d w L F w1 L' F' :
  sound_cache w → ok w L F → key b → peek b (cache w) = None → pc_dma_pool (cache w) = true →
  inserted b d w L F w1 L' → ok w1 L' F' → find b (cache w1) = Some i →
  let w' := wrun (ext2_dev_read_phys b i) w1 in read_post b w (pc_data (ent (cache w') i)) w'.
Proof.
  intros S O Hk Hn Hdma Hins O1 Hf w'.
  destruct Hins as [[e He] _ _|_ _ _ -> _|n wa La _ _ Hd _ _ _|wa La _ Hr En _].
  - congruence.
  - unfold peek in Hn. by rewrite Hf in Hn.
  - congruence.
  - pose proof (room_agree _ _ _ _ _ Hdev (sc_wb _ S) (sc_coherent _ S) (proj1 O) Hr) as A.
    pose proof (room_peek b Hr Hn) as Hna. destruct En as [(e & He & Hde & Hbe & Hp) Hdk Hwb].
    assert (Hb : disk wa b = contents w b).
    { rewrite <- (agree_contents _ _ A). unfold contents. by rewrite Hna. }
    destruct (fill_ok b i w1 L' F' O1 Hk Hf) as (O' & Hdata & Hdk' & e' & He' & Hp').
    { rewrite Hdk, Hb. by apply (sc_size _ S). }
    rewrite Hp, decide_True in He' by done. injection He' as <-. rewrite Hdk, Hb in Hdata.
    split_and!; [done| |by exists L', F']. etrans; [exact A|].
    apply (entered_agree b (disk wa b)); [done|done|]. split.
    + exists (set_data (Some (disk w1 b)) e). rewrite <- Hdk. split_and!; [done|done|done|].
      intros b'. unfold w'. rewrite Hp'. case_decide as Hd; [done|]. by rewrite Hp, decide_False.
    + intros b'. unfold w'. by rewrite Hdk'.
    + rewrite <- Hwb. by injection (keeps_read_phys b i w1).
Qed.

Lemma sound_agree w w' :
  sound_cache w → agree w w' → well_formed (cache w') → fixed (cache w') = fixed (cache w) → sound_cache w'.
Proof.
  intros [H1 H2 H3 H4 H5 H6] [A1 A2 A3] Hw [= Hl Hd Hb]. split; auto; [congruence|lia|].
  intros b Hk. rewrite A1. auto.
Qed.

Lemma read_ok b w :
  sound_cache w → key b → read_post b w (wres (ext2_read_block b) w) (wrun (ext2_read_block b) w).
Proof.
  intros S Hk. destruct (sc_wf _ S) as (L & F & O).
  unfold ext2_read_block. wsimp. destruct (lookup_ok b w L F O) as (L1 & O1 & Q1 & Hr1 & _).
  pose proof (keeps_lookup b w) as K1. unfold wrun, wres in *.
  destruct (page_cache_lookup b w) as [r1 w1]. cbn [fst snd] in *. subst r1.
  assert (A1 : agree w w1) by by apply quiet_agree.
  destruct (peek b (cache w)) as [e|] eqn:Hp; cbn [fmap option_fmap option_map].
  { wsimp. split_and!; [unfold contents; by rewrite Hp|done|by exists L1, F]. }
  assert (S1 : sound_cache w1) by (eapply sound_agree; [done|done|by exists L1, F|done]).
  wsimp. destruct (lookup_ok b w1 L1 F O1) as (L2 & O2 & Q2 & Hr2 & _).
  pose proof (keeps_lookup b w1) as K2. unfold wrun, wres in *.
  destruct (page_cache_lookup b w1) as [r2 w2]. cbn [fst snd] in *. subst r2.
  assert (A2 : agree w1 w2) by by apply quiet_agree.
  rewrite (quiet_peek _ _ Q1), Hp. cbn [fmap option_fmap option_map].
  assert (S2 : sound_cache w2) by (eapply sound_agree; [done|done|by exists L2, F|done]).
  assert (Hp2 : peek b (cache w2) = None) by by rewrite (quiet_peek _ _ Q2), (quiet_peek _ _ Q1).
  assert (Hl2 : length (disk w2 b) = fs_block).
  { pose proof (sc_size _ S2 b Hk) as Hl. unfold contents in Hl. by rewrite Hp2 in Hl. }
  apply (read_post_agree b w w2); [by etrans|]. clear dependent w w1. wsimp.
  pose proof (fallback_ok b w2 L2 F O2 (sc_coherent _ S2) (sc_wb _ S2) Hk Hp2 Hl2) as Hfb.
  destruct (pc_dma_pool (cache w2)) eqn:Hdma; cbn [andb]; [|exact Hfb]. destruct has_phys; [|exact Hfb]. wsimp.
  destruct (alloc_ok b w2 L2 F O2 Hk Hdma) as (L' & F' & O' & Hres). unfold wrun, wres in *.
  destruct (page_cache_alloc_entry b w2) as [[i|] w3]; cbn [fst snd] in *.
  2: { destruct Hres as (-> & Hbusy & _). by destruct (sound_has_room w2 L2 [] S2 (proj1 O2)). }
  destruct Hres as [Hf [d Hins]]. wsimp.
  assert (Hz : (ext2_dev_read_phys b i w3).1 = KERN_SUCCESS) by apply Hrd. rewrite Hz.
  rewrite decide_False by (intros []; done). wsimp.
  apply (phys_read_ok b i d w2 L2 F w3 L' F' S2 O2 Hk Hp2 Hdma Hins O' Hf).
Qed.
End read.

(** ** The other operations *)

Definition memory_ok : Prop := ∀ n, vm_result n = KERN_SUCCESS.

Lemma update_changed b d w :
  device_ok → memory_ok → sound_cache w → key b → length d = fs_block →
  changed b d w (wrun (page_cache_update b d) w) ∧ well_formed (cache (wrun (page_cache_update b d) w)).
Proof.
  intros Hdev Hvm S Hk Hl. destruct (sc_wf _ S) as (L & F & O).
  destruct (update_ok b d w L F O Hk Hl) as (L' & F' & O' & Hu). split; [|by exists L', F'].
  destruct Hu as [_ Hw _|_ HF Hb _|n w1 L1 _ _ _ Hz _|w1 L1 _ Hr Hw _].
  - by apply written_changed.
  - by destruct (sound_has_room w L F S (proj1 O)).
  - by destruct Hz.
  - eapply agree_changed; [|by apply written_changed]. by eapply room_agree; [..|apply O|exact Hr]; [|apply S..].
Qed.

Lemma drops_agree w w' :
  device_ok → pc_writeback (cache w) = true → coherent w → drops w w' → agree w w'.
Proof.
  intros Hdev Hwb Hc Hd. induction Hd as [w|w w1 w2 Hs _ IH]; [done|].
  assert (agree w w1 ∧ pc_writeback (cache w1) = pc_writeback (cache w)) as [A Hw].
  { destruct Hs as [Q|(b & Hb & D)]; [split; [by apply quiet_agree|apply Q]|].
    split; [by eapply dropped_agree|apply D]. }
  etrans; [exact A|]. apply IH; [congruence|]. by apply A.
Qed.

Lemma mark_dirty_agree b w L F : ok w L F → agree w (wrun (page_cache_mark_dirty b) w).
Proof.
  intros O. destruct (mark_dirty_ok b w L F O) as (_ & _ & Hdk & _ & _ & Hp).
  set (w' := wrun _ w) in *. split.
  - intros b'. unfold contents. rewrite Hp, Hdk. case_decide; [|done]. subst. by destruct (peek b (cache w)).
  - intros Hc b' e'. rewrite Hp, Hdk. case_decide; [|apply Hc]. subst. destruct (peek b (cache w)); [|done].
    by intros [= <-].
  - intros Hc b' e'. rewrite Hp. case_decide; [|apply Hc]. destruct (peek b (cache w)) eqn:Hpb; [|done].
    intros [= <-]. exact (Hc b _ Hpb).
Qed.

Lemma invalidate_agree b w L F :
  device_ok → pc_writeback (cache w) = true → coherent w → ok w L F → agree w (wrun (page_cache_invalidate b) w).
Proof.
  intros Hdev Hwb Hc O. destruct (invalidate_ok b w L F O) as (L' & F' & _ & _ & Hi).
  destruct (peek b (cache w)) as [e|] eqn:Hp; [|by rewrite Hi]. eapply dropped_agree; [done..|by rewrite Hp|exact Hi].
Qed.

(** ** A cached disk is a disk *)

(** The operations of the file system on blocks. *)
Inductive fop :=
| Read (b : Z) | Write (b : Z) (d : list Z) | MarkDirty (b : Z) | Invalidate (b : Z) | Flush | Sync.

Definition run_fop (o : fop) : W (option (list Z)) :=
  match o with
  | Read b => ext2_read_block b
  | Write b d => page_cache_update b d;; mret None
  | MarkDirty b => page_cache_mark_dirty b;; mret None
  | Invalidate b => page_cache_invalidate b;; mret None
  | Flush => page_cache_flush;; mret None
  | Sync => s ← wget; page_cache_sync alone (S (length (pc_pool s)));; mret None
  end.
Definition fop_ok (o : fop) : Prop :=
  match o with
  | Read b => key b
  | Write b d => key b ∧ length d = fs_block
  | _ => True
  end.

(** A disk without a cache. *)
Definition spec_fop (o : fop) (m : Z → list Z) : option (list Z) * (Z → list Z) :=
  match o with
  | Read b => (Some (m b), m)
  | Write b d => (None, λ b', if decide (b' = b) then d else m b')
  | _ => (None, m)
  end.

Fixpoint run_fops (os : list fop) : W (list (option (list Z))) :=
  match os with
  | [] => mret []
  | o :: os => r ← run_fop o; rs ← run_fops os; mret (r :: rs)
  end.
Fixpoint spec_fops (os : list fop) (m : Z → list Z) : list (option (list Z)) * (Z → list Z) :=
  match os with
  | [] => ([], m)
  | o :: os => let '(r, m1) := spec_fop o m in let '(rs, m2) := spec_fops os m1 in (r :: rs, m2)
  end.


#[local] Hint Resolve keeps_update keeps_mark_dirty keeps_invalidate keeps_flush keeps_sync keeps_read_block : keeps.
Lemma keeps_fop o : keeps (run_fop o).
Proof. destruct o; cbn [run_fop]; keep. Qed.

Lemma fop_sim o w m :
  device_ok → reads_ok → memory_ok → sound_cache w → fop_ok o → (∀ b, contents w b = m b) →
  wres (run_fop o) w = (spec_fop o m).1 ∧ sound_cache (wrun (run_fop o) w) ∧
  ∀ b, contents (wrun (run_fop o) w) b = (spec_fop o m).2 b.
Proof.
  intros Hdev Hrd Hvm SC Hok Hm. pose proof (keeps_fop o w) as K.
  assert (Hag : ∀ r w', run_fop o w = (r, w') → agree w w' → well_formed (cache w') →
    sound_cache w' ∧ ∀ b, contents w' b = m b).
  { intros r w' He A Hw. split; [|intros b; by rewrite (agree_contents _ _ A)].
    eapply sound_agree; [done|done|done|]. unfold wrun in K. by rewrite He in K. }
  destruct (sc_wf _ SC) as (L & F & O). pose proof (sc_wb _ SC) as Hwb. pose proof (sc_coherent _ SC) as Hc.
  unfold wrun, wres in *. destruct o as [b|b d|b|b| |]; cbn [run_fop spec_fop fop_ok fst snd] in *.
  - destruct (read_ok Hdev Hrd b w SC Hok) as (Hr & A & Hw). unfold wrun, wres in *.
    destruct (ext2_read_block b w) as [r w'] eqn:He. cbn [fst snd] in *. split; [by rewrite Hr, Hm|by eapply Hag].
  - destruct Hok as [Hk Hl]. destruct (update_changed b d w Hdev Hvm SC Hk Hl) as [[C1 C2 C3] Hw]. unfold wrun in *.
    rewrite bind_run in *. cbn [mret W_ret fst snd] in *. destruct (page_cache_update b d w) as [u w']. cbn [snd] in *.
    split_and!; [done| |intros b'; rewrite C1; by case_decide].
    injection K as Kl Kd Kw. destruct SC as [H1 H2 H3 H4 H5 H6]. split; auto; [congruence|lia|].
    intros b' Hk'. rewrite C1. case_decide; auto.
  - rewrite bind_run in *. split; [done|]. eapply Hag; [done|by eapply mark_dirty_agree|].
    exists L, F. by apply mark_dirty_ok.
  - rewrite bind_run in *. split; [done|]. eapply Hag; [done|by eapply invalidate_agree|].
    destruct (invalidate_ok b w L F O) as (L' & F' & O' & _). by exists L', F'.
  - destruct (flush_ok w L F O) as (F' & O' & D). rewrite bind_run in *. split; [done|].
    eapply Hag; [done|by apply drops_agree|by exists [], F'].
  - destruct (sync_ok (S (length (pc_pool (cache w)))) w L F O) as (_ & O' & _ & Hrd' & _); [|done|lia|].
    { apply (calm_idle _ _ _ (proj1 O)), SC. }
    rewrite !bind_run in *. cbn [wget fst snd] in *. split; [done|].
    eapply Hag; [done|by eapply rounds_agree|by exists L, F].
Qed.

Lemma fops_sim os w m :
  device_ok → reads_ok → memory_ok → sound_cache w → Forall fop_ok os → (∀ b, contents w b = m b) →
  wres (run_fops os) w = (spec_fops os m).1 ∧ sound_cache (wrun (run_fops os) w) ∧
  ∀ b, contents (wrun (run_fops os) w) b = (spec_fops os m).2 b.
Proof.
  intros Hdev Hrd Hvm S Hok. revert w m S. induction Hok as [|o os Ho _ IH]; intros w m S Hm; [done|].
  destruct (fop_sim o w m Hdev Hrd Hvm S Ho Hm) as (Hr & S' & Hm'). unfold wrun, wres in *. cbn.
  rewrite !bind_run. destruct (run_fop o w) as [r w1]. destruct (spec_fop o m) as [r' m1]. cbn [fst snd] in *.
  destruct (IH w1 m1 S' Hm') as (Hrs & S2 & Hm2).
  destruct (run_fops os w1) as [rs w2]. destruct (spec_fops os m1) as [rs' m2]. cbn [fst snd] in *.
  split_and!; [by subst|done|done].
Qed.

(** A new cache in front of a disk. *)
Lemma new_sound s dk :
  pc_inv s [] (rev (seq 0 (length (pc_pool s)))) [] → pc_count s = 0 → pc_writeback s = true →
  (0 < length (pc_pool s))%nat → (∀ b, key b → length (dk b) = fs_block) →
  sound_cache (World s dk 0) ∧ ∀ b, contents (World s dk 0) b = dk b.
Proof.
  intros I Hc Hwb Hl Hdk.
  assert (Hp : ∀ b, peek b s = None) by (intros b; apply (peek_out (inv_repr _ _ _ _ I)); set_solver).
  assert (Hcon : ∀ b, contents (World s dk 0) b = dk b) by (intros b; unfold contents; cbn; by rewrite Hp).
  split; [|done]. split; cbn; try done.
  - by eexists _, _.
  - intros b e. cbn. by rewrite Hp.
  - intros b e. cbn. by rewrite Hp.
  - intros b Hk. rewrite Hcon. auto.
Qed.
End contents.

(** ** The order of use, as the links give it *)

Fixpoint walk_use (fuel : nat) (n : node) (s : page_cache) : list Z :=
  match fuel, n with
  | S fuel, Ent i => pc_block (ent s i) :: walk_use fuel (lru_next s n) s
  | _, _ => []
  end.
(** The blocks of the cache, the most recently used first. *)
Definition use_order (s : page_cache) : list Z := walk_use (length (pc_pool s)) (lru_next s Head) s.

Lemma walk_blocks s L a fuel :
  dlinked (lru_next s) (lru_prev s) a (Ent <$> L) Tail → (length L ≤ fuel)%nat →
  walk_use fuel (lru_next s a) s = used_blocks s L.
Proof.
  revert a fuel. induction L as [|i L IH]; intros a fuel; cbn [fmap list_fmap dlinked length].
  - intros [-> _] _. by destruct fuel.
  - intros (-> & _ & Hd) Hf. destruct fuel as [|fuel]; [lia|]. cbn [walk_use]. rewrite (IH _ _ Hd) by lia. done.
Qed.

Section theorems.
Context {E : PcEnv} {G : Geometry E}.

Lemma use_order_blocks s L F : pc_inv s L F [] → use_order s = used_blocks s L.
Proof.
  intros I. pose proof (repr_length (inv_repr _ _ _ _ I)). apply walk_blocks; [|lia].
  apply (repr_lru _ _ _ _ (inv_repr _ _ _ _ I)).
Qed.

(** A cache as the two functions make it. *)
Definition created (n : nat) (pa : list Z) (np : nat) (wb : bool) (s : page_cache) : Prop :=
  s = page_cache_create n wb ∨ page_cache_create_dma n fs_block pa np wb = Some s.

Lemma created_inv n pa np wb s :
  Z.of_nat n < 4294967296 → created n pa np wb s →
  pc_inv s [] (rev (seq 0 (length (pc_pool s)))) [] ∧ pc_count s = 0 ∧ pc_writeback s = wb.
Proof.
  intros Hn [->|Hs].
  - cbn. rewrite length_fmap, length_seq. split_and!; [by apply create_inv|done|done].
  - by destruct (create_dma_inv n pa np wb s Hn Hs) as (? & ? & ? & _).
Qed.

(** C10. The page cache stays well formed.  Take a new cache of either kind with
    fewer than 2^32 entries, and let any number of threads use it, in any order of
    the steps that hold the lock: look-ups, insertions and updates of whole blocks,
    marking, invalidation, flushing, entries for direct transfers, and the parts of a
    synchronisation, with any answers of the device and of the allocator.  At every
    point the list of use is doubly linked and ends at its sentinels; the chains of
    the hash table have just the entries in use, each in the chain of its block, and
    no two with the same block; the other entries are on the free list; the count is
    right; entries in use have a block of data, and free entries of a cache without
    pool have no buffer. *)
Theorem page_cache_well_formed n pa np wb s dk c sts :
  Z.of_nat n < 4294967296 → created n pa np wb s → Forall proper sts →
  well_formed (cache (wrun (wfor pc_exec sts) (World s dk c))).
Proof.
  intros Hn Hs Hp. apply steps_wf; [|done]. destruct (created_inv _ _ _ _ _ Hn Hs) as (I & Hc & _).
  by eexists _, _.
Qed.

Lemma sync_facts fuel w :
  well_formed (cache w) → coherent w → calm w → pc_writeback (cache w) = true →
  (length (pc_pool (cache w)) < fuel)%nat →
  let w' := wrun (page_cache_sync alone fuel) w in
  wres (page_cache_sync alone fuel) w = Some (Z.of_nat (dirty_blocks (cache w'))) ∧ agree w w' ∧
  (dirty_blocks (cache w') = 0%nat → ∀ b, disk w' b = contents w b) ∧
  (device_ok → dirty_blocks (cache w') = 0%nat).
Proof.
  intros (L & F & O) Hc Hcalm Hwb Hf w'.
  destruct (sync_ok fuel w L F O) as (Hr & O' & Hi & Hrt & Hdev); [by apply (calm_idle _ _ _ (proj1 O))|done|done|].
  pose proof (dirty_blocks_spec _ _ _ (proj1 O')) as Hd. pose proof (rounds_agree _ _ _ _ O Hrt) as A.
  fold w' in Hr, O', Hi, Hrt, A, Hd. split_and!; [by rewrite Hd|done| |].
  - intros H0 b. rewrite <- (agree_contents _ _ A). symmetry. eapply clean_contents; [apply O'|by apply A|].
    rewrite H0 in Hd. by apply nil_length_inv.
  - intros Hok. specialize (Hdev Hok). rewrite Hr in Hdev. injection Hdev as Hdev. lia.
Qed.

(** C9. A cached disk is a disk.  Put a new cache of either kind, with at least one
    entry, in front of a disk, with a device and an allocator that do not fail, and
    let the file system read and write blocks, mark and invalidate them, flush and
    synchronise the cache, in any order.  Every read returns what was last written
    to the block, or else what the disk had at the start, as without a cache; and
    after a synchronisation at any point the disk itself has these data. *)
Theorem cached_disk n pa np s dk os :
  device_ok → reads_ok → memory_ok → (∀ b, key b → length (dk b) = fs_block) →
  Z.of_nat n < 4294967296 → created n pa np true s → (0 < length (pc_pool s))%nat → Forall fop_ok os →
  wres (run_fops os) (World s dk 0) = (spec_fops os dk).1 ∧
  ∀ b, disk (wrun (run_fop Sync) (wrun (run_fops os) (World s dk 0))) b = (spec_fops os dk).2 b.
Proof.
  intros Hdev Hrd Hvm Hdk Hn Hs Hl Hos. destruct (created_inv _ _ _ _ _ Hn Hs) as (I & Hc & Hwb).
  destruct (new_sound s dk I Hc Hwb Hl Hdk) as [SC Hm].
  destruct (fops_sim os _ dk Hdev Hrd Hvm SC Hos Hm) as (Hr & SC' & Hm'). split; [done|]. intros b.
  rewrite <- Hm'. set (w := wrun (run_fops os) _) in *.
  destruct (sync_facts (S (length (pc_pool (cache w)))) w) as (_ & _ & Hdisk & Hz); [apply SC'..|lia|].
  unfold wrun at 1. cbn [run_fop]. rewrite !bind_run. by apply Hdisk, Hz.
Qed.

(** C11. Synchronisation ends and tells the truth.  Take a well-formed cache with a
    callback, of which no other write is using an entry, and whose clean blocks are as
    on the disk.  Whatever the device and the allocator answer, [page_cache_sync], run
    while no other thread uses the cache, returns, after no more rounds than there are entries and one; what it returns is the number of blocks
    that are still dirty; what can be read does not change, and what is clean is on
    the disk.  So if it returns zero, the disk has everything; and it returns zero if
    no write fails. *)
Theorem sync_complete fuel w :
  well_formed (cache w) → coherent w → calm w → pc_writeback (cache w) = true →
  (length (pc_pool (cache w)) < fuel)%nat →
  let w' := wrun (page_cache_sync alone fuel) w in
  wres (page_cache_sync alone fuel) w = Some (Z.of_nat (dirty_blocks (cache w'))) ∧
  (∀ b, contents w' b = contents w b) ∧ coherent w' ∧
  (dirty_blocks (cache w') = 0%nat → ∀ b, disk w' b = contents w b) ∧
  (device_ok → dirty_blocks (cache w') = 0%nat).
Proof.
  intros Hw Hc Hcalm Hwb Hf w'. destruct (sync_facts fuel w Hw Hc Hcalm Hwb Hf) as (Hr & A & Hd & Hz).
  split_and!; [done|apply A|by apply A|done|done].
Qed.

(** C24. The block that leaves the cache is the one used least recently.  In a
    well-formed cache that no write is using, a look-up that hits and an insertion of
    a block that is there bring the block to the front of the order of use and leave
    the others as they are; a look-up that misses changes nothing; and an insertion
    of a new block, if memory can be had, puts it in front, and takes out the last
    block of the order if no entry is free, and none otherwise. *)
Theorem lru_order b d w :
  well_formed (cache w) → calm w → memory_ok → (0 < length (pc_pool (cache w)))%nat →
  key b → length d = fs_block →
  use_order (cache (wrun (page_cache_lookup b) w)) =
    (if peek b (cache w) is Some _ then front b (use_order (cache w)) else use_order (cache w)) ∧
  use_order (cache (wrun (page_cache_insert b d) w)) =
    (if peek b (cache w) is Some _ then front b (use_order (cache w))
     else b :: (if pc_free (cache w) is Some _ then use_order (cache w) else removelast (use_order (cache w)))).
Proof.
  intros (L & F & O) Hcalm Hvm Hl Hk Hd. rewrite (use_order_blocks _ _ _ (proj1 O)). split.
  - destruct (lookup_ok b w L F O) as (L' & O' & _ & _ & Hb). rewrite (use_order_blocks _ _ _ (proj1 O')), Hb.
    by destruct (peek b (cache w)).
  - destruct (insert_ok b d w L F O Hk Hd) as (L' & F' & O' & Hi). rewrite (use_order_blocks _ _ _ (proj1 O')).
    pose proof (proj1 (calm_idle _ _ _ (proj1 O)) Hcalm) as Hidle.
    pose proof (free_chain _ _ (repr_free _ _ _ _ (inv_repr _ _ _ _ (proj1 O)))) as Hfree.
    pose proof (repr_length (inv_repr _ _ _ _ (proj1 O))) as Hlen.
    destruct Hi as [[e ->] _ Hb|_ -> Hbusy _ _|m w1 L1 _ _ _ Hz _ _|w1 L1 -> Hr _ Hb]; [done| |by destruct Hz|].
    + destruct L as [|i L]; [cbn in Hlen; lia|]. specialize (Hbusy i ltac:(left)). by rewrite Hidle in Hbusy by left.
    + rewrite Hb. f_equal. destruct Hr as [HF -> _|A i B -> -> -> _ HB _].
      * destruct F as [|j F]; [done|]. by destruct Hfree as [-> _].
      * cbn in Hfree. rewrite Hfree. destruct B as [|j B].
        -- rewrite app_nil_r. unfold used_blocks. rewrite fmap_app. cbn. by rewrite removelast_last.
        -- specialize (HB j ltac:(left)). rewrite Hidle in HB by set_solver. done.
Qed.
End theorems.
