(* ===== verification/PageCacheRuns.v ===== *)
(** * The page cache: runs

    Concrete caches: the theorems applied to them, and runs that show what the cache
    does when a write or a read of the device fails, when an update falls between the
    write and the bookkeeping of a synchronisation, and when a block is invalidated
    while it is being written. *)

From S2P Require Import Prelude Mach PageCache PageCacheLists PageCacheInv PageCacheOps PageCacheSync PageCacheSpec.

(** Blocks and records of 512 bytes; the answers of the device are given. *)
Definition env512 (wb rd : nat → Z) : PcEnv := {|
  wb_result := wb;
  wb_torn := λ _ _, replicate 512 0;
  vm_result := λ _, KERN_SUCCESS;
  rd_result := rd;
  has_phys := true;
  fs_block := 512;
  rec_size := 512 |}.
Lemma geometry512 wb rd : Geometry (env512 wb rd).
Proof. split; cbn; [lia|by exists 1|lia|by exists 1]. Qed.
#[global] Existing Instance geometry512.

Definition reliable : PcEnv := env512 (λ _, 0) (λ _, 0).
Definition filled (v : Z) : list Z := replicate 512 v.
(** A disk with the low byte of its number all over each block. *)
Definition disk0 (b : Z) : list Z := filled (b mod 256).

(** ** The theorems *)

#[local] Instance reliable_env : PcEnv := reliable.
#[local] Instance reliable_geo : Geometry reliable_env.
Proof. apply geometry512. Defined.

Lemma device_reliable : device_ok.
Proof. by intros n. Qed.
Lemma reads_reliable : reads_ok.
Proof. by intros n. Qed.
Lemma memory_reliable : memory_ok.
Proof. by intros n. Qed.
Lemma key_small b : 0 <= b < 1000 → key b.
Proof. intros Hb. split; [lia|]. change (Z.of_nat fs_block) with 512. lia. Qed.

Lemma page_cache_well_formed_witness :
  well_formed (cache (wrun (wfor pc_exec [SUpdate 5 (filled 1); SCollect 0; SInsert 6 (filled 6); SInvalidate 5; SDone 5 1 true])
    (World (page_cache_create 1 true) disk0 0))).
Proof.
  apply (page_cache_well_formed 1 [] 0 true).
  - lia.
  - by left.
  - repeat constructor; cbn; lia.
Defined.

Lemma cached_disk_witness :
  wres (run_fops [Write 5 (filled 1); Read 6; Read 5; Flush; Read 5]) (World (page_cache_create 1 true) disk0 0) =
    [None; Some (filled 6); Some (filled 1); None; Some (filled 1)] ∧
  ∀ b, disk (wrun (run_fop Sync) (wrun (run_fops [Write 5 (filled 1); Read 6; Read 5; Flush; Read 5])
      (World (page_cache_create 1 true) disk0 0))) b = if decide (b = 5) then filled 1 else disk0 b.
Proof.
  apply (cached_disk 1 [] 0 (page_cache_create 1 true) disk0 [Write 5 (filled 1); Read 6; Read 5; Flush; Read 5]);
    [exact device_reliable|exact reads_reliable|exact memory_reliable| |lia|by left|vm_compute; lia|].
  - intros b _. unfold disk0, filled. apply length_replicate.
  - repeat constructor; cbn; lia.
Defined.

(** A full cache of two entries with a dirty block and a clean one. *)
Definition two_blocks : world := wrun (run_fops [Write 5 (filled 1); Read 6]) (World (page_cache_create 2 true) disk0 0).

Lemma two_blocks_sound : sound_cache two_blocks.
Proof.
  destruct (new_sound (page_cache_create 2 true) disk0) as [S Hm]; [by apply (create_inv 2)|done|done|vm_compute; lia| |].
  - intros b _. unfold disk0, filled. apply length_replicate.
  - destruct (fops_sim [Write 5 (filled 1); Read 6] _ disk0 device_reliable reads_reliable memory_reliable S) as (_ & S' & _);
      [repeat constructor; cbn; lia|exact Hm|exact S'].
Qed.

Lemma sync_complete_witness :
  wres (page_cache_sync alone 3) two_blocks = Some 0 ∧ disk (wrun (page_cache_sync alone 3) two_blocks) 5 = filled 1.
Proof.
  destruct (sync_complete 3 two_blocks) as (Hr & Hc & _ & Hd & Hz); [exact (sc_wf _ two_blocks_sound)|exact (sc_coherent _ two_blocks_sound)|
    exact (sc_calm _ two_blocks_sound)|exact (sc_wb _ two_blocks_sound)|vm_compute; lia|].
  specialize (Hz device_reliable). rewrite Hz in Hr. split; [exact Hr|]. rewrite (Hd Hz 5). vm_compute. reflexivity.
Defined.

Lemma lru_order_witness :
  use_order (cache two_blocks) = [6; 5] ∧
  use_order (cache (wrun (page_cache_lookup 5) two_blocks)) = [5; 6] ∧
  use_order (cache (wrun (page_cache_insert 7 (disk0 7)) two_blocks)) = [7; 6].
Proof.
  pose proof (proj2 (lru_order 7 (disk0 7) two_blocks (sc_wf _ two_blocks_sound) (sc_calm _ two_blocks_sound) memory_reliable
    (sc_room _ two_blocks_sound) (key_small 7 ltac:(lia)) ltac:(apply length_replicate))) as H7.
  pose proof (proj1 (lru_order 5 (disk0 5) two_blocks (sc_wf _ two_blocks_sound) (sc_calm _ two_blocks_sound) memory_reliable
    (sc_room _ two_blocks_sound) (key_small 5 ltac:(lia)) ltac:(apply length_replicate))) as H5.
  split; [|split]; [|etrans; [exact H5|]|etrans; [exact H7|]]; vm_compute; reflexivity.
Defined.

(** ** Runs *)

(** Another thread runs [op] while the lock is free, between the return of a write and its
    bookkeeping: the block is on the disk and the write is not counted yet. *)
Definition after_write (b : Z) (data : list Z) (op : W unit) : W unit := λ w,
  if decide (disk w b = data ∧ pc_writebacks (cache w) = 0) then op w else (tt, w).

(** C37. A synchronisation can lose an update.  [page_cache_sync] pins the entry while
    it writes without the lock, but [page_cache_update] does not look at the pin.  Block 5
    is dirty; a synchronisation runs, and after its write, before [mark_range_done],
    another thread updates the block: the update goes into the buffer, and then the
    entry is marked clean.  The synchronisation reports no failure, the disk has the old
    data, the cache takes the entry for
    written, no later synchronisation will write it, and when another block takes its place
    the update is gone; no operation has failed. *)
Theorem sync_race_loses_update :
  let w0 := wrun (page_cache_update 5 (filled 1)) (World (page_cache_create 1 true) disk0 0) in
  let sync := page_cache_sync (after_write 5 (filled 1) (page_cache_update 5 (filled 2))) 2 in
  let w := wrun sync w0 in
  wres sync w0 = Some 0 ∧ contents w 5 = filled 2 ∧ disk w 5 = filled 1 ∧
  dirty_blocks (cache w) = 0%nat ∧ wres (page_cache_sync alone 2) w = Some 0 ∧
  contents (wrun (page_cache_sync alone 2;; page_cache_insert 6 (disk0 6)) w) 5 = filled 1.
Proof. vm_compute. done. Qed.

(** An eviction does not look at the result of the write-back: with a device whose
    writes fail, reading another block makes the cache forget a write, and the reader
    is told nothing. *)
Example eviction_loses_write :
  let E := env512 (λ _, -1) (λ _, 0) in
  let w := @wrun _ (@page_cache_update E 5 (filled 1)) (World (page_cache_create 1 true) disk0 0) in
  contents w 5 = filled 1 ∧ wres (@ext2_read_block E 6) w = Some (filled 6) ∧
  contents (wrun (@ext2_read_block E 6) w) 5 = filled 0.
Proof. vm_compute. done. Qed.

(** A cache with a pool of pages for direct transfers. *)
Definition dma1 : page_cache :=
  default (page_cache_create 1 true) (@page_cache_create_dma 1 512 [1048576] 1 true).

(** A direct read that fails leaves its entry behind: the next read of the block hits
    it and returns the old bytes of the buffer. *)
Example failed_read_is_cached :
  let E := env512 (λ _, 0) (λ n, match n with O => 5 | _ => 0 end) in
  let w0 := World dma1 disk0 0 in
  let w1 := wrun (@ext2_read_block E 5) w0 in
  wres (@ext2_read_block E 5) w0 = None ∧ wres (@ext2_read_block E 5) w1 = Some (filled 0) ∧ disk w1 5 = filled 5.
Proof. vm_compute. done. Qed.

(** [page_cache_invalidate] does not look at the pin either: the entry of a block that
    is about to be written, pinned, can be given to another block, whose data are then
    written to the first one. *)
Definition when_pinned (op : W unit) : W unit := λ w,
  if existsb pc_busy (pc_pool (cache w)) && bool_decide (pc_writebacks (cache w) = 0) then op w else (tt, w).
Example invalidate_during_sync :
  let w := wrun (page_cache_update 5 (filled 1)) (World dma1 disk0 0) in
  disk (wrun (page_cache_sync (when_pinned (page_cache_invalidate 5;; page_cache_insert 6 (filled 6))) 2) w) 5 = filled 6.
Proof. vm_compute. done. Qed.

(** A buffer that [buf_read_file] has borrowed from the cache is not pinned: another
    read takes its entry, and the file keeps a pointer to the other block's data. *)
Example borrowed_buffer_changes :
  let w1 := wrun (ext2_read_block 5) (World dma1 disk0 0) in
  let w2 := wrun (ext2_read_block 6) w1 in
  pc_data (ent (cache w1) 0) = Some (filled 5) ∧ pc_data (ent (cache w2) 0) = Some (filled 6).
Proof. vm_compute. done. Qed.

(** The record number is computed in 32 bits: with blocks of 4096 bytes, a block from
    4 GiB on is written to, and read from, the place of a block below. *)
Lemma landing_wraps b wb rd :
  let E : PcEnv := {| wb_result := wb; wb_torn := λ _ _, []; vm_result := λ _, 0; rd_result := rd;
                      has_phys := true; fs_block := 4096; rec_size := 512 |} in
  0 <= b < 1048576 → landing (1048576 + b) = b.
Proof.
  intros E Hb. unfold landing, writeback_recnum, blk_to_sec, DEV_BSIZE.
  change (Z.of_nat (@fs_block E)) with 4096. change (@rec_size E) with 512. change (4096 / 512) with 8. rewrite (u32_small ((1048576 + b) * 8)) by (unfold is_u32; lia).
  replace ((1048576 + b) * 8 * 512) with (b * 4096 + 1 * 4294967296) by lia. unfold u32.
  rewrite Z.mod_add, Z.mod_small by lia. replace (b * 4096) with (b * 8 * 512) by lia.
  rewrite Z.div_mul by lia. replace (b * 8 * 512) with (b * 4096) by lia. apply Z.div_mul. lia.
Qed.
